(* ===== verification/_CoqProject ===== *)
-Q . S2P
Prelude.v
RustStr.v
MachineInt.v
HeadTail.v
Utf8.v
StreamText.v
StreamInlineFacts.v
StreamTextFacts.v
StreamLineFacts.v
SeekSequence.v
PatchParser.v
PatchParserFacts.v
PatchRoundTrip.v
PatchApply.v
PatchFs.v
PatchFsFacts.v
RustPath.v
GitSource.v
GitRuntime.v
GitRuntimeFacts.v
GitRuntimeProps.v
GitCommitFacts.v
ShellTree.v
ShellTreeFacts.v
CommandSafety.v
CommandSafetyFacts.v
SandboxPolicy.v
SandboxPolicyFacts.v
ExecPolicy.v
ExecPolicyFacts.v
ExecPolicyParser.v
ExecPolicyParserFacts.v
ExecApproval.v
ExecApprovalFacts.v
ResponseModel.v
Truncate.v
TruncateFacts.v
ContextFragments.v
Compact.v
WorldState.v
WorldStateFacts.v
NetIp.v
NetPolicy.v
NetProxySpec.v
NetPolicyFacts.v
ToolTypes.v
NetworkApproval.v
NetworkApprovalFacts.v
ToolOrchestrator.v
ToolOrchestratorFacts.v
History.v
HistoryFacts.v
HistoryTurns.v
RolloutReplay.v
RolloutReplayFacts.v
ThreadSession.v
ChatTranslate.v
ChatTranslateFacts.v
ChatStream.v
ChatStreamFacts.v
Approval.v
ApprovalFacts.v
Projection.v
ProjectionFacts.v
RunScheduler.v
RunSchedulerFacts.v
EventBridge.v
EventBridgeFacts.v
ArtifactFacts.v
ThreadHistory.v
ThreadHistoryFacts.v
Providers.v
ProvidersFacts.v
