(* ===== verification/Prelude.v ===== *)
(** * open-web-codex: a verification library

    The repository puts a web product around the Codex agent: a browser talks to
    the platform server ([apps/web]), the server drives a Codex runtime
    ([codex/codex-rs]) through its app-server, and the runtime talks to a model
    provider, decides which commands may run and applies the patches the model
    writes.  This library models the parts on that path whose correctness is a
    matter of logic rather than of I/O, as Rocq functions and transition systems
    that evaluate, and proves what makes each of them correct.

    ** The parts and where they are modelled

    - _Patches_ ([codex-rs/apply-patch]).  The model writes a patch; the
      runtime parses it while it streams, finds each chunk's context in the
      file, rewrites the file and keeps a record from which the change can be
      undone.
        - [SeekSequence]: [seek_sequence.rs], the search with decreasing strictness;
        - [PatchParser]: [streaming_parser.rs] (a push parser over characters)
          and [parser.rs] (the boundary checks around it);
        - [PatchApply]: [compute_replacements], [apply_replacements] and
          [derive_new_contents] of [lib.rs], with every panic of the vector
          operations as [None];
        - [PatchFs]: [apply_hunks_to_files] and its helpers over an abstract file
          system, the class [ExecutorFileSystem] ([file-system/src/lib.rs]), with
          an in-memory instance, directories included, that meets the laws
          [LawfulFileSystem] (different paths name different files, nobody else changes them).
    - _Command policy_ ([codex-rs/execpolicy]).  Rules decide whether a command
      is allowed, needs a prompt or is forbidden.
        - [ExecPolicy]: [decision.rs], [rule.rs], [policy.rs];
        - [ExecPolicyParser]: [parser.rs] (the builtins a policy file calls and
          the validation of its examples), [amend.rs] and [sandbox_migration.rs]
          (the text of policy files).
    - _Commands and their approval_ ([codex-rs/shell-command], [codex-rs/core]).  The
      command line that the model wants to run is taken apart, judged by the rules and by
      what is known of its commands, and skips, needs or is refused a prompt.
        - [ShellTree]: [shell-command/src/bash.rs] and [shell_detect.rs], over the syntax
          trees of a grammar that is a parameter (class [BashGrammar]);
        - [CommandSafety]: [is_safe_command.rs] and [is_dangerous_command.rs] on Unix;
        - [ExecApproval]: [core/src/exec_policy.rs], the requirement for a command and the
          manager whose concurrent updates [manager_step] interleaves.
    - _Sandboxes_ ([codex-rs/protocol], [codex-rs/sandboxing]).
        - [RustPath]: [std::path] on Unix and [utils/absolute-path];
        - [SandboxPolicy]: [protocol/src/permissions.rs] (what a policy lets a command read
          and write), the profiles of [models.rs] and the choice of a sandbox.
    - _Running tools_ ([codex-rs/core/src/tools]).
        - [ToolTypes]: the decisions of reviewers and what is shown to them;
        - [NetworkApproval]: [network_approval.rs].  A handler is a program of critical
          sections, questions and waits, and [pool_step] interleaves the handlers of all
          requests with the registration of calls;
        - [ToolOrchestrator]: [orchestrator.rs], [approvals.rs] and [sandboxing.rs], a
          program that calls hooks, reviewers, the network approval and the tool; [runs]
          gives the sequences of calls it can make.
    - _The Chat wire_ ([codex-rs/codex-api]).  Third-party providers speak Chat
      Completions; the product translates requests and streamed answers.
        - [ResponseModel]: the conversation items of [protocol/src/models.rs];
        - [ChatTranslate]: [chat_translate.rs];
        - [ChatStream]: [sse/chat.rs], a sending task in a monad over a channel
          whose receiver may go away.
    - _Command output_ ([codex-rs/core/src/unified_exec]).  A process prints into
      a bounded buffer that keeps the head and the tail; a reader drains it.
        - [HeadTail]: [head_tail_buffer.rs] and the collecting loop of
          [process_manager.rs], as the interleaving of prints and drains.
    - _Truncation_ ([codex-rs/utils/string], [codex-rs/utils/output-truncation]).
        - [Truncate]: the cut in the middle of a text at character boundaries and the
          policy for the items of a tool output, with the binary64 scaling of a budget.
    - _Streamed text_ ([codex-rs/utils/stream-parser]).  Bytes become text, hidden
      citations are cut out of it and plan blocks are told apart, all incrementally.
        - [Utf8]: decoding as the standard library does it, with its error positions;
        - [StreamText]: the parsers of the crate behind the class [StreamTextParser].
    - _Context and history_ ([codex-rs/core], [codex-rs/context-fragments]).  The
      session keeps the conversation, injects context into it, repairs it for a
      prompt, compacts it when it grows too long and persists it as a rollout from
      which a thread is resumed.
        - [ContextFragments]: the rendering of injected context and its recognition;
        - [History]: [context_manager/history.rs] and [normalize.rs];
        - [Compact]: the pure part of [compact.rs] with what it uses of [event_mapping.rs];
        - [WorldState]: [context/world_state/mod.rs], sections by their interface
          (the classes of the code as records), snapshots and JSON merge patches;
        - [RolloutReplay]: [session/rollout_reconstruction.rs], the backward scan for the
          newest surviving checkpoint and the forward replay, and what a rollout keeps at
          all ([rollout/src/policy.rs]);
        - [ThreadSession]: the operations of [session/mod.rs] that change the history and
          write the rollout, as a transition system [thread_step].
    - _Network policy_ ([codex-rs/network-proxy]).  A proxy decides where a
      sandboxed command may connect.
        - [NetIp]: hosts, addresses and the blocks that are not public ([policy.rs]);
        - [NetPolicy]: domain patterns ([policy.rs]), configuration ([config.rs]), managed
          constraints ([state.rs]), the shared state with its separate read and write
          locks ([runtime.rs]), the decision for a request ([network_policy.rs]), the
          upstream proxy of a tunnel ([upstream.rs]) and the check when a direct connection is
          opened ([connect_policy.rs]);
        - [NetProxySpec]: [core/src/config/network_proxy_spec.rs], how managed requirements
          and the configuration of the user become that of a proxy; [proxy_step] of
          [NetPolicyFacts] interleaves the operations on a running one.
    - _Approvals_ ([apps/web/crates/approval-service]).  The runtime's requests
      for consent are stored, decided by the owner and dispatched.
        - [Approval]: every method of the service as a transaction over the
          tables it touches.
    - _Runs_ ([apps/web/crates/run-orchestrator]).  A queued run is claimed by a
      worker under a lease with a deadline, given a workspace and a thread, and
      ends when its thread does; an expired lease hands the run over to recovery
      and the workspace to a clean-up job.
        - [RunScheduler]: every transaction of [scheduler.rs] and [execution.rs] on the
          tables [runs], [workspaces] and [runner_jobs], the worker's pass
          [run_once] composed from them, and the statements of
          [server/src/event_projection.rs] on runs and tasks.
    - _Events_ ([apps/web/server]).  The server reads the frames of the runtimes, takes out
      what browsers must not see, stores the rest with its artifacts, sends it to the
      connections of the organization and answers those who come back.
        - [Projection]: the pure part of [event_projection.rs] (sanitizing, items and events,
          map cards, embedded artifacts) and [project_turn] of [routes/threads.rs];
        - [EventBridge]: [persist_frame] and the transactions on events, artifacts and
          terminals ([event_projection.rs]), the loop of the bridge and the public form of
          requests for approval ([main.rs]), the replay ([routes/tasks.rs]), the live channel
          with its lag ([routes/events.rs], [platform-store]) and the reading of artifacts
          ([routes/artifacts.rs]); [live_step] interleaves frames, connections, readers and the
          operations on runs, and [platform_step] adds the deletion of projects
          ([routes/projects.rs]) with its cascades;
        - [ThreadHistory]: [routes/threads.rs], the history of a thread with the artifacts
          and the requests for approval put in their places.
    - _Workspaces_ ([apps/web/crates/git-runtime]).  The server clones, inspects and changes
      the workspaces of runs by running git.
        - [GitSource]: [validation.rs], which sources and refs are taken;
        - [GitRuntime]: every operation of [lib.rs], as a tree of calls to git, to the file
          system and to its locks with one branch per answer, and the parsers of what git prints.
    - _Providers_ ([apps/web/crates/secret-store], [profile-registry], [provider-service]).  The
      keys of model providers are stored encrypted and reach the runtime through its environment.
        - [Providers]: the store, the registry of profiles, the messages to the runtime and
          the secured service ([secured.rs]) with its compensations, as operations on the
          tables and the registry that ask for what may fail.

    The files [...Facts], [GitRuntimeProps], [PatchRoundTrip], [HistoryTurns] and the second half of the
    files without a [Facts] file hold the theorems.  This file holds what they share: Rust's
    [Result] with the [let?] notation for [?], loops that stop at an error,
    vector helpers, the [codex] hint database and the tactics.  [RustStr] models
    strings as lists of Unicode scalar values, with the operations of [str] the
    code uses.

    ** What the theorems show

    - Patches: the search finds a match iff there is one and a later pass is
      only used when a stricter one fails; feeding the parser in any pieces gives
      what feeding the whole text gives; parsed patches are well formed and
      rendering a patch and parsing it gives the patch back; applying replacements
      never panics, ends in a newline and, for chunks with old lines that are not
      anchored at the end of the file, gives the file in which exactly the located
      chunks are replaced; a sequence of hunks refines the obvious specification
      on the texts of files and its recorded delta, when marked exact, undoes it.
    - Command policy: a check never panics and gives the strictest decision of all
      rules of the policy that govern the command; an overlay cannot weaken a policy; the compiled network
      lists hold each host's last verdict; a policy that loads satisfies its own
      examples.
    - Commands: no command is known safe and dangerous at once, in scripts too; a prompt is
      skipped only for commands that rules allow or that are unmatched and harmless as the
      approval policy understands it, and it is shown only where that policy permits it; an
      accepted amendment makes the prompt unnecessary; no interleaving of updates loses one.
    - Sandboxes: a policy under which no sandbox is called for grants every path (given a
      directory [/tmp], and unless another sandbox is around the process), and making the project roots absolute changes no access.
    - Tools: a tool runs only where its requirement lets it, approved where that is asked
      for, at most twice, and, on systems that have a sandbox, without the one that is called
      for only on a rule, on request or after a cleared denial, never while reads are denied;
      a shell command that escapes unseen is one that rules allow.  A network request that ends
      with access was approved for its host, protocol and port, or its host was copied from the
      parent session, however requests interleave, and none waits forever.
    - Chat wire: translation keeps the texts, the function calls and their results in
      order (other calls are dropped), sends nothing that is to stay private, and produces the message shape
      servers demand; tools keep addressable, unique names and calls survive the
      round trip; every stream yields exactly one terminal event, one message with
      all its text, assembled tool calls, and a prefix of that to a consumer that
      leaves early.
    - Approvals, by rule induction over all interleavings of transactions:
      decisions are made by the owner, once, on what was shown; settled approvals
      are final; refusals never consent.
    - Runs, likewise over all interleavings: a run carries a lease exactly while
      it is executed; a worker that lost its lease can change nothing through it but by
      two writes that do not ask for the lease, which change at most its own run; the oldest claimable run is served first; repeating a request returns the
      same run; nobody reaches the runs of others; an undisturbed pass leaves the
      run running or failed with the code reported.
    - Output and truncation: whatever a process prints and whenever its reader
      drains, what is collected is the whole output, if it fits, or its first and last
      bytes with the count of those between; truncation never panics, leaves a text within
      its budget alone, keeps a prefix and a suffix of others and stays within budget and
      marker.
    - Streamed text: the parsers give the same answer however the input is cut into
      chunks, also in the middle of a character; each loop ends within its fuel, with at most
      the beginning of a delimiter left over; the visible text, the citations and the plan are those of the whole text.
    - History: in every prompt each call has an output and each output a call (searches that
      the server ran apart), by one repair per item; a rollback drops exactly the last turns and the context in front
      of them; injected context is no turn; a recorded output is within its budget; a
      compacted history holds the newest messages that fit; a merge patch leads from one
      snapshot to the next; replaying from the newest checkpoint gives what replaying
      everything gives; and, by rule induction over the operations of a session, a
      thread resumed from its rollout has the history of the live one, less what a rollout
      never keeps, and its world state.
    - Network policy: a request is let through only to a host that is not denied, and
      to a local one only if that was asked for; a name that resolves elsewhere the
      second time is refused, unless the connection is that of an upstream proxy; a proxy that
      is started under managed requirements satisfies them however edits, reloads, modes and
      new specifications interleave; a pattern allowed by a managed one covers no more hosts;
      the test for public addresses is membership in the table of reserved blocks.
    - Events: what is projected does not depend on what sensitive keys hold, on the
      directories of absolute paths or on embedded data; a client that reads the events of
      a task page by page and listens has every later event in a page, on the connection or
      on its way there, in order and only of its organization, unless it is told to start
      over; requests for approval are shown only once they are stored, under the id of the row
      that holds them; until its project is deleted, artifacts and registered resources never
      change, and a map uses no resource of another thread; the history shows the items of a
      turn as their live events did, and holds every request for approval once,
      with its status, among the unmoved items of its turn.
    - Workspaces, whatever git and the file system answer: no text of a client is read as
      an option of git; requests stay, as paths are written, in the workspaces that they name,
      and read files by resolved paths; what is read, written and piped is bounded; requests
      that run side by side never block each other, so that all can return under every
      schedule, if none copies instructions to its own workspace; a commit is of what was selected; the status that git prints is read back.
    - Providers: a change that fails anywhere is undone unless restoring fails, if the stored
      key and the environment agreed before, and touches nothing else; a typed key is in no message to the runtime; a sealed secret opens for
      no other organization, profile, provider or setting.
    - Some theorems pin down behaviour that a reader of the documentation would
      not expect: an addition lost to an overlapping chunk, a move onto itself that
      deletes the file, a cancellation that conflicts with the runtime's own
      resolution, a recovered run whose workspace is removed while it runs, injected
      context that is taken for a turn of the user, a rolled back checkpoint that takes
      older history with it, blocked requests lost to a concurrent edit, a rule for a program
      that also allows a file of that name, an escalation that drops a network sandbox, map
      extensions that are not sanitized, a question whose tool is never recognised, an image
      refused for its byte order mark, a remote whose name is an option, a copy to itself
      that waits for ever, a key that can be neither replaced nor deleted, a provider that is
      configured without its key, tools that a resumed thread no longer has, errors of turns that
      are shown unsanitized, a host that is approved and denied at once, a cancelled run that
      still gets a workspace, and the differences to the translation contract in [docs/].

    ** Choices

    Natural numbers stand for [usize] indices, which are bounded by the length of
    a vector in memory; byte lengths that are compared with limits are computed
    from the UTF-8 length of each character; [i64] counters and versions are [Z].
    Where saturation or conversion is visible (token counts, budgets, omitted bytes,
    scaled policies) the widths are written out with the operations of [MachineInt].
    Recursion is structural where the code's is.  Where the code loops on a moving
    index or on a shrinking buffer the model has fuel, and a lemma shows that it is
    enough: the length of the list for [skip_results] ([skip_results_past]) and the
    search ([seek_sequence_complete]), one more than the length of the pending text
    for [inline_loop] ([inline_push_terminates]), the number of bytes for [from_utf8], the
    number of nodes for the walks over a syntax tree, the depth for the scan of nested
    repositories (the code's own limit), the length of a path for
    [detect_shell], the code's own eight levels for wrapped commands.
    Third-party code is a parameter: the file system's back end, path joining, the Git
    checks of a source and of a workspace, the Starlark interpreter (a policy file is
    the list of builtin calls it makes), [shlex], JSON text and the SSE tokenizer, the
    XML of hook prompts, the sizes of images and audio, ciphers and hashes
    (with the laws of authenticated encryption), base64, the parser of URLs, binary64
    numbers in JSON, UUIDs, [globset], the resolver and the display of
    addresses, the parser of shell scripts, the environment of the host.  Hooks, reviewers
    and tools answer as they like; what a tool promises to the orchestrator is the class
    [HonestTool], with an instance for shell commands and one for patches.  Git and the file
    system answer the calls of [GitRuntime] as they like; its trees are inductive, so every
    operation ends if every call does.  The hooks of intercepted requests are the same in all
    configurations of a proxy.  One task reads the frames of the runtimes, as in the code.  The handlers of
    network requests are taken to run to their end.  SQL statements are modelled from their text, a
    transaction being atomic where its statements lock or recheck what they read, and several
    steps where they do not ([record_workspace]); the values of enumerated columns are the inductive
    types their CHECK constraints admit.

    ** Not modelled, and why

    Terminal and browser user interfaces, HTTP routing and transport, process
    and sandbox control, telemetry and generated protocol bindings are I/O or glue;
    they are listed in the manifest.  Of the modelled components, these parts are left
    out: the sections of the world state that read a session's settings, the model call
    that writes a summary, TLS interception, hooks and credentials of the proxy, the
    Windows and PowerShell variants of the command checks, globs and the legacy form of
    sandbox policies, what a tool does once it runs.
    The recognition of patches in shell commands is a query of a tree-sitter grammar, the
    rollback of live threads waits for the runtime, what git does to a repository is git's;
    the routes that archive and rename a thread pass the request on. *)

From stdpp Require Export base list option strings sets gmap.
From Stdlib Require Export NArith ZArith Lia.
From Stdlib Require Export Sorted.

(** ** Results

    Rust's [Result<A, E>]; the short-circuiting [?] operator is [let?]. *)
Inductive result (A E : Type) : Type :=
| Ok (a : A)
| Err (e : E).
Arguments Ok {A E} _.
Arguments Err {A E} _.

(** [injection] would evaluate both sides. *)
Lemma Ok_inj {A E} (x y : A) : Ok (E := E) x = Ok y → x = y.
Proof. congruence. Qed.

Declare Scope rust_scope.
Delimit Scope rust_scope with rust.

Definition rbind {A B E} (r : result A E) (k : A → result B E) : result B E :=
  match r with
  | Ok a => k a
  | Err e => Err e
  end.

Notation "'let?' x ':=' c 'in' k" := (rbind c (fun x => k))
  (at level 10, x name, c at level 100, k at level 200) : rust_scope.
Notation "'let?' ' p ':=' c 'in' k" := (rbind c (fun x => match x with p => k end))
  (at level 10, p pattern, c at level 100, k at level 200) : rust_scope.
Open Scope rust_scope.

Definition is_ok {A E} (r : result A E) : bool :=
  match r with Ok _ => true | Err _ => false end.

Definition rmap {A B E} (f : A → B) (r : result A E) : result B E :=
  match r with Ok a => Ok (f a) | Err e => Err e end.

Definition map_err {A E F} (f : E → F) (r : result A E) : result A F :=
  match r with Ok a => Ok a | Err e => Err (f e) end.

#[export] Instance result_eq_dec {A E} `{EqDecision A, EqDecision E} :
  EqDecision (result A E).
Proof. solve_decision. Defined.

Lemma rbind_ok {A B E} (r : result A E) (k : A → result B E) b :
  rbind r k = Ok b ↔ ∃ a, r = Ok a ∧ k a = Ok b.
Proof. destruct r; simpl; split; naive_solver. Qed.

Lemma rbind_assoc {A B C E} (r : result A E) (f : A → result B E) (g : B → result C E) :
  rbind (rbind r f) g = rbind r (fun x => rbind (f x) g).
Proof. by destruct r. Qed.

(** Folding a fallible step over a list: a [for] loop whose body uses [?]. *)
Fixpoint try_fold {A B E} (f : A → B → result A E) (a : A) (l : list B) : result A E :=
  match l with
  | [] => Ok a
  | x :: l => let? a := f a x in try_fold f a l
  end.

Lemma try_fold_app {A B E} (f : A → B → result A E) l1 l2 a :
  try_fold f a (l1 ++ l2) = (let? a := try_fold f a l1 in try_fold f a l2).
Proof.
  revert a. induction l1 as [|x l1 IH]; intros a; simpl; [done|].
  rewrite rbind_assoc. destruct (f a x); simpl; auto.
Qed.

(** [iter.map(f).collect::<Result<Vec<_>, _>>()]. *)
Fixpoint try_map {A B E} (f : A → result B E) (l : list A) : result (list B) E :=
  match l with
  | [] => Ok []
  | x :: l => let? y := f x in let? ys := try_map f l in Ok (y :: ys)
  end.

(** An invariant of the loop body is an invariant of the loop. *)
Lemma try_fold_inv {A B E} (f : A → B → result A E) (P : A → Prop) l a a' :
  (∀ a x a', P a → f a x = Ok a' → P a') →
  P a → try_fold f a l = Ok a' → P a'.
Proof.
  intros Hf. revert a. induction l as [|x l IH]; intros a Ha; simpl.
  - by intros [= <-].
  - intros [a1 [H1 H2]]%rbind_ok. eauto.
Qed.

(** ** Generic list operations of the Rust standard library *)

(** [slice::last]. *)
Definition last_opt {A} (l : list A) : option A := last l.

(** [if let Some(x) = v.last_mut() { *x = f(x) }]. *)
Fixpoint update_last {A} (f : A → A) (l : list A) : list A :=
  match l with
  | [] => []
  | [x] => [f x]
  | x :: l => x :: update_last f l
  end.

Lemma update_last_snoc {A} (f : A → A) l x : update_last f (l ++ [x]) = l ++ [f x].
Proof.
  induction l as [|y l IH]; simpl; [done|].
  destruct (l ++ [x]) eqn:E; [by destruct l|]. by rewrite <- IH.
Qed.

Lemma list_snoc_case {A} (l : list A) : l = [] ∨ ∃ l' x, l = l' ++ [x].
Proof.
  induction l as [|x l IH] using rev_ind; [by left|right; eauto].
Qed.

(** [iter().find]/[position] with a boolean predicate. *)
Fixpoint find_first {A} (p : A → bool) (l : list A) : option A :=
  match l with
  | [] => None
  | x :: l => if p x then Some x else find_first p l
  end.

Lemma find_first_Some {A} (p : A → bool) l x :
  find_first p l = Some x → x ∈ l ∧ p x = true.
Proof.
  induction l as [|y l IH]; simpl; [done|].
  destruct (p y) eqn:E; [intros [= ->]; set_solver|].
  intros [? ?]%IH. set_solver.
Qed.

Lemma find_first_None {A} (p : A → bool) l :
  find_first p l = None ↔ ∀ x, x ∈ l → p x = false.
Proof.
  induction l as [|y l IH]; simpl; [set_solver|].
  destruct (p y) eqn:E.
  - split; [done|]. intros H. specialize (H y). rewrite E in H. set_solver.
  - rewrite IH. set_solver.
Qed.

(** ** Automation *)
Create HintDb codex.
Create Rewrite HintDb codex.

Ltac simp_ok :=
  repeat match goal with
  | H : rbind _ _ = Ok _ |- _ => apply rbind_ok in H; destruct H as (? & ? & ?)
  | H : Ok _ = Ok _ |- _ => injection H as H
  | H : Err _ = Err _ |- _ => injection H as H
  | H : Ok _ = Err _ |- _ => discriminate H
  | H : Err _ = Ok _ |- _ => discriminate H
  end; subst.

(** Destructs the innermost scrutinee of a [match]/[if] in the goal. *)
Ltac case_goal :=
  match goal with
  | |- context [match ?x with _ => _ end] =>
      lazymatch x with
      | context [match _ with _ => _ end] => fail
      | _ => destruct x eqn:?
      end
  end.

Ltac case_hyp H :=
  match type of H with
  | context [match ?x with _ => _ end] =>
      lazymatch x with
      | context [match _ with _ => _ end] => fail
      | _ => destruct x eqn:?
      end
  end.

(** ** [Iterator::rposition]: the last position that satisfies a predicate *)

Fixpoint rposition {A} (f : A → bool) (l : list A) : option nat :=
  match l with
  | [] => None
  | x :: l => match rposition f l with Some i => Some (S i) | None => if f x then Some O else None end
  end.

Lemma rposition_None {A} (p : A → bool) l : Forall (fun x => p x = false) l → rposition p l = None.
Proof. induction 1 as [|x l Hx _ IH]; simpl; [done|]. by rewrite IH, Hx. Qed.

Lemma rposition_last {A} (p : A → bool) pre x post :
  p x = true → Forall (fun y => p y = false) post →
  rposition p (pre ++ x :: post) = Some (length pre).
Proof.
  intros Hx Hpost. induction pre as [|y pre IH]; simpl.
  - by rewrite rposition_None, Hx.
  - by rewrite IH.
Qed.

Lemma rposition_app {A} (f : A → bool) (k l : list A) :
  rposition f (k ++ l) =
    match rposition f l with Some i => Some (length k + i)%nat | None => rposition f k end.
Proof.
  induction k as [|x k IH]; cbn [rposition app]; [by destruct (rposition f l)|].
  rewrite IH. destruct (rposition f l); [done|]. by destruct (rposition f k).
Qed.

Lemma rposition_bound {A} (f : A → bool) (l : list A) i : rposition f l = Some i → (i < length l)%nat.
Proof.
  revert i. induction l as [|x l IH]; cbn; [done|]. intros i. destruct (rposition f l) as [j|].
  - intros [= <-]. specialize (IH j eq_refl). lia.
  - destruct (f x); [intros [= <-]; lia|done].
Qed.

Lemma omap_map {A B C} (f : B → option C) (g : A → B) l : omap f (map g l) = omap (f ∘ g) l.
Proof. induction l as [|x l IH]; simpl; [done|]. unfold omap in IH. by rewrite IH. Qed.

Lemma omap_redact {A B} (f : A → option B) g (l : list A) :
  (∀ x, f (g x) = f x) → omap f (map g l) = omap f l.
Proof.
  intros H. rewrite omap_map. induction l as [|x l IH]; cbn; [done|].
  rewrite H. destruct (f x); [|done]. by f_equal.
Qed.

Lemma rposition_None_inv {A} (p : A → bool) l : rposition p l = None → Forall (fun y => p y = false) l.
Proof.
  induction l as [|x l IH]; intros H; constructor; cbn in H; destruct (rposition p l); try done;
    destruct (p x); try done. by apply IH.
Qed.

Lemma rposition_Some {A} (p : A → bool) l i :
  rposition p l = Some i →
  ∃ pre x post, l = pre ++ x :: post ∧ length pre = i ∧ p x = true ∧ Forall (fun y => p y = false) post.
Proof.
  revert i. induction l as [|y l IH]; intros i; cbn; [done|]. destruct (rposition p l) as [j|] eqn:E.
  - intros [= <-]. destruct (IH j eq_refl) as (pre & x & post & -> & <- & Hx & Hpost).
    by exists (y :: pre), x, post.
  - destruct (p y) eqn:Ey; [|done]. intros [= <-]. exists [], y, l. split_and!; try done.
    by apply rposition_None_inv.
Qed.

(** ** Stable sorting

    [sort_by], [sort_by_key]: an element goes in front of those it does not exceed. *)
Fixpoint insert_by {A} (leb : A → A → bool) (x : A) (l : list A) : list A :=
  match l with
  | [] => [x]
  | y :: l => if leb x y then x :: y :: l else y :: insert_by leb x l
  end.

Definition sort_by {A} (leb : A → A → bool) (l : list A) : list A := foldr (insert_by leb) [] l.

Lemma insert_by_perm {A} (leb : A → A → bool) x l : insert_by leb x l ≡ₚ x :: l.
Proof. induction l as [|y l IH]; simpl; [done|]. destruct (leb x y); [done|]. rewrite IH. constructor. Qed.

Lemma sort_by_perm {A} (leb : A → A → bool) l : sort_by leb l ≡ₚ l.
Proof. induction l as [|x l IH]; simpl; [done|]. by rewrite insert_by_perm, IH. Qed.

Section sort_by.
Context {A} (leb : A → A → bool) (R : A → A → Prop) `{!Transitive R}.
Context (leb_true : ∀ x y, leb x y = true → R x y) (leb_false : ∀ x y, leb x y = false → R y x).

Lemma insert_by_sorted x l : StronglySorted R l → StronglySorted R (insert_by leb x l).
Proof using All.
  induction 1 as [|y l Hl IH Hy]; simpl; [by repeat constructor|]. destruct (leb x y) eqn:E.
  - constructor; [by constructor|]. apply leb_true in E. constructor; [done|].
    eapply Forall_impl; [exact Hy|]. intros z Hz. by transitivity y.
  - constructor; [done|]. rewrite insert_by_perm. constructor; auto.
Qed.

Lemma sort_by_sorted l : StronglySorted R (sort_by leb l).
Proof using All. induction l; simpl; [constructor|by apply insert_by_sorted]. Qed.
End sort_by.

Lemma sort_by_id {A} (leb : A → A → bool) l : StronglySorted (fun x y => leb x y = true) l → sort_by leb l = l.
Proof. induction 1 as [|x l _ IH Hx]; [done|]. cbn [sort_by foldr]. unfold sort_by in IH. rewrite IH. destruct Hx as [|y l Hxy _]; [done|]. cbn. by rewrite Hxy. Qed.

(** [Iterator::max_by_key]: of several greatest elements the last. *)
Fixpoint max_by {A} (leb : A → A → bool) (best : option A) (l : list A) : option A :=
  match l with
  | [] => best
  | x :: l => max_by leb (match best with Some b => if leb b x then Some x else Some b | None => Some x end) l
  end.

Lemma max_by_elem {A} (leb : A → A → bool) best l x : max_by leb best l = Some x → best = Some x ∨ x ∈ l.
Proof.
  revert best. induction l as [|y l IH]; intros best; cbn [max_by]; [by left|].
  intros [H|H]%IH; [|set_solver]. destruct best as [b|]; [destruct (leb b y)|]; set_solver.
Qed.

Lemma max_by_is_Some {A} (leb : A → A → bool) best l x : x ∈ l ∨ best = Some x → is_Some (max_by leb best l).
Proof.
  revert best x. induction l as [|y l IH]; intros best x; cbn [max_by].
  { intros [?%not_elem_of_nil | ->]; [done|by eexists]. }
  intros _. destruct best as [b|]; [destruct (leb b y)|]; by eapply IH; right.
Qed.
