(* ===== verification/RustStr.v ===== *)
(** * Rust strings

    A [&str]/[String] is the list of its [char]s (Unicode scalar values, as
    [N]).  This file models the [str] methods that the sources use:
    [char::is_whitespace], [trim], [trim_start], [trim_end], [strip_prefix],
    [strip_suffix], [starts_with], [ends_with], [lines], [split('\n')],
    [join], [to_ascii_lowercase] and the UTF-8 length of a string. *)

From S2P Require Import Prelude.

Abbreviation char := N (only parsing).
Abbreviation str := (list N) (only parsing).

(** ASCII literals: [lit "abc"]. *)
Fixpoint lit (s : string) : str :=
  match s with
  | EmptyString => []
  | String a s => Stdlib.Strings.Ascii.N_of_ascii a :: lit s
  end.

Abbreviation nl := 10%N (only parsing).
Abbreviation cr := 13%N (only parsing).

Fixpoint seqb (a b : str) : bool :=
  match a, b with
  | [], [] => true
  | x :: a, y :: b => (x =? y)%N && seqb a b
  | _, _ => false
  end.

(** [char::is_whitespace]: the Unicode [White_Space] property. *)
Definition is_whitespace (c : char) : bool :=
  ((9 <=? c) && (c <=? 13) || (c =? 32) || (c =? 133) || (c =? 160) || (c =? 5760)
   || ((8192 <=? c) && (c <=? 8202)) || (c =? 8232) || (c =? 8233) || (c =? 8239)
   || (c =? 8287) || (c =? 12288))%N.

Fixpoint trim_start (s : str) : str :=
  match s with
  | c :: s' => if is_whitespace c then trim_start s' else s
  | [] => []
  end.

Fixpoint trim_end (s : str) : str :=
  match s with
  | [] => []
  | c :: s' =>
      match trim_end s' with
      | [] => if is_whitespace c then [] else [c]
      | t => c :: t
      end
  end.

Definition trim (s : str) : str := trim_end (trim_start s).

Fixpoint strip_prefix (p s : str) : option str :=
  match p, s with
  | [], _ => Some s
  | a :: p, b :: s => if (a =? b)%N then strip_prefix p s else None
  | _ :: _, [] => None
  end.

Definition starts_with (p s : str) : bool :=
  match strip_prefix p s with Some _ => true | None => false end.

Definition strip_suffix (p s : str) : option str :=
  match strip_prefix (rev p) (rev s) with
  | Some r => Some (rev r)
  | None => None
  end.

Definition ends_with (p s : str) : bool :=
  match strip_suffix p s with Some _ => true | None => false end.

(** [split(c)]: always at least one piece. *)
Fixpoint split_on (c : char) (s : str) : list str :=
  match s with
  | [] => [[]]
  | x :: s =>
      if (x =? c)%N then [] :: split_on c s
      else match split_on c s with
           | [] => [[x]]
           | p :: ps => (x :: p) :: ps
           end
  end.

(** The carriage return before a line feed is part of the line ending. *)
Definition strip_cr (l : str) : str := default l (strip_suffix [cr] l).

(** [str::lines]: pieces end at ["\n"] or ["\r\n"]; there is no empty last
    line after a final line ending, and a final piece without line feed keeps
    its carriage return. *)
Fixpoint lines_of (pieces : list str) : list str :=
  match pieces with
  | [] => []
  | [last] => if seqb last [] then [] else [last]
  | p :: ps => strip_cr p :: lines_of ps
  end.

Definition lines (s : str) : list str := lines_of (split_on nl s).

(** [split_inclusive('\n')]. *)
Fixpoint split_inclusive (s : str) : list str :=
  match s with
  | [] => []
  | c :: s =>
      if (c =? nl)%N then [c] :: split_inclusive s
      else match split_inclusive s with
           | [] => [[c]]
           | p :: ps => (c :: p) :: ps
           end
  end.

(** [[String]::join(sep)]. *)
Fixpoint join (sep : str) (l : list str) : str :=
  match l with
  | [] => []
  | [s] => s
  | s :: l => s ++ sep ++ join sep l
  end.

Definition to_ascii_lower (c : char) : char :=
  if ((65 <=? c) && (c <=? 90))%N then (c + 32)%N else c.

Definition to_ascii_lowercase (s : str) : str := map to_ascii_lower s.

Definition eq_ignore_ascii_case (a b : str) : bool :=
  seqb (to_ascii_lowercase a) (to_ascii_lowercase b).

(** Number of UTF-8 bytes of a character and of a string ([str::len]). *)
Definition len_utf8 (c : char) : nat :=
  if (c <? 128)%N then 1 else if (c <? 2048)%N then 2 else if (c <? 65536)%N then 3 else 4.

Definition byte_len (s : str) : nat := sum_list (map len_utf8 s).

(** Decimal rendering of an unsigned integer ([format!("{n}")]). *)
Fixpoint dec_digits (fuel : nat) (n : N) : str :=
  match fuel with
  | O => []
  | S fuel =>
      if (n <? 10)%N then [48 + n]%N
      else dec_digits fuel (n / 10) ++ [48 + n mod 10]%N
  end.

Definition show_N (n : N) : str := dec_digits (S (N.to_nat (N.size n))) n.
Definition show_nat (n : nat) : str := show_N (N.of_nat n).

(** ** Lemmas *)

Lemma seqb_eq a b : seqb a b = true ↔ a = b.
Proof.
  revert b. induction a as [|x a IH]; intros [|y b]; simpl; try naive_solver.
  rewrite andb_true_iff, N.eqb_eq, IH. naive_solver.
Qed.

Lemma seqb_neq a b : seqb a b = false ↔ a ≠ b.
Proof. rewrite <- seqb_eq. by destruct (seqb a b). Qed.

Lemma seqb_refl a : seqb a a = true.
Proof. by apply seqb_eq. Qed.

Lemma strip_prefix_Some p s r : strip_prefix p s = Some r ↔ s = p ++ r.
Proof.
  revert s. induction p as [|a p IH]; intros [|b s]; simpl; try naive_solver.
  destruct (N.eqb_spec a b) as [->|]; rewrite ?IH; naive_solver.
Qed.

Lemma strip_prefix_app p r : strip_prefix p (p ++ r) = Some r.
Proof. by apply strip_prefix_Some. Qed.

Lemma starts_with_spec p s : starts_with p s = true ↔ ∃ r, s = p ++ r.
Proof.
  unfold starts_with. destruct (strip_prefix p s) eqn:E.
  - apply strip_prefix_Some in E. naive_solver.
  - split; [done|]. intros [r ->]. by rewrite strip_prefix_app in E.
Qed.

Lemma strip_suffix_Some p s r : strip_suffix p s = Some r ↔ s = r ++ p.
Proof.
  unfold strip_suffix. destruct (strip_prefix (rev p) (rev s)) as [t|] eqn:E.
  - apply strip_prefix_Some in E.
    apply (f_equal (@rev N)) in E. rewrite rev_app_distr, !rev_involutive in E.
    split; [intros [= <-]; done|]. intros ->. f_equal.
    by apply app_inv_tail in E.
  - split; [done|]. intros ->. rewrite rev_app_distr in E.
    by rewrite strip_prefix_app in E.
Qed.

Lemma split_on_nonempty c s : split_on c s ≠ [].
Proof. destruct s as [|x s]; simpl; [done|]. repeat case_goal; done. Qed.

(** Joining the pieces of a split restores the string. *)
Lemma join_split_on c s : join [c] (split_on c s) = s.
Proof.
  induction s as [|x s IH]; simpl; [done|].
  destruct (N.eqb_spec x c) as [->|].
  - pose proof (split_on_nonempty c s).
    destruct (split_on c s) as [|p ps]; [done|]. simpl in *. by rewrite IH.
  - pose proof (split_on_nonempty c s).
    destruct (split_on c s) as [|p ps]; [done|]. simpl in *.
    destruct ps; simpl in *; by rewrite <- IH.
Qed.

Lemma split_on_no_sep c s : c ∉ s → split_on c s = [s].
Proof.
  induction s as [|x s IH]; intros H; simpl; [done|].
  destruct (N.eqb_spec x c) as [->|]; [set_solver|].
  rewrite IH; set_solver.
Qed.

Lemma split_on_app c s t : c ∉ s → split_on c (s ++ c :: t) = s :: split_on c t.
Proof.
  induction s as [|x s IH]; intros H; simpl.
  - by rewrite N.eqb_refl.
  - destruct (N.eqb_spec x c) as [->|]; [set_solver|]. rewrite IH; set_solver.
Qed.

(** Splitting the join of separator-free pieces restores the pieces. *)
Lemma split_on_app_sep c s t : split_on c (s ++ c :: t) = split_on c s ++ split_on c t.
Proof.
  induction s as [|x s IH]; cbn [app split_on]; [by rewrite N.eqb_refl|]. rewrite IH.
  destruct (x =? c)%N; [done|]. pose proof (split_on_nonempty c s). by destruct (split_on c s).
Qed.

Lemma split_on_join c l :
  l ≠ [] → Forall (fun s => c ∉ s) l → split_on c (join [c] l) = l.
Proof.
  intros Hne Hl. induction Hl as [|s l Hs Hl IH]; [done|].
  destruct l as [|s' l]; [by apply split_on_no_sep|].
  change (join [c] (s :: s' :: l)) with (s ++ c :: join [c] (s' :: l)).
  rewrite split_on_app by done. by rewrite IH.
Qed.

Lemma trim_end_last c s : is_whitespace c = false → trim_end (s ++ [c]) = s ++ [c].
Proof.
  intros Hc. induction s as [|x s IH]; simpl; [by rewrite Hc|].
  rewrite IH. destruct (s ++ [c]) eqn:E; [by destruct s|done].
Qed.

Lemma trim_end_prefix s : ∃ w, s = trim_end s ++ w ∧ forallb is_whitespace w = true.
Proof.
  induction s as [|c s (w & E & Hw)]; [by exists []|]. simpl.
  destruct (trim_end s) as [|d t] eqn:Et.
  - destruct (is_whitespace c) eqn:Ec.
    + exists (c :: w). simpl. rewrite Ec. simpl in E. by subst.
    + exists w. simpl in *. by subst.
  - exists w. split; [|done]. simpl. by rewrite E at 1.
Qed.

#[export] Hint Rewrite @strip_prefix_app seqb_refl : codex.

(** Trimming the two ends commutes, so [trim] is a function of [trim_end]. *)
Lemma trim_start_trim_end s : trim_start (trim_end s) = trim s.
Proof.
  unfold trim. induction s as [|c s IH]; simpl; [done|].
  destruct (is_whitespace c) eqn:Ec.
  - rewrite <- IH. destruct (trim_end s); simpl; [done|]. by rewrite Ec.
  - simpl. destruct (trim_end s); simpl; by rewrite Ec.
Qed.

Lemma trim_end_idemp s : trim_end (trim_end s) = trim_end s.
Proof.
  induction s as [|c s IH]; simpl; [done|].
  destruct (trim_end s) as [|d t] eqn:E.
  - destruct (is_whitespace c) eqn:Ec; simpl; [done|]. by rewrite Ec.
  - simpl in *. by rewrite IH.
Qed.

Lemma trim_end_app a s : s ≠ [] → trim_end s = s → trim_end (a ++ s) = a ++ s.
Proof.
  intros Hne Hs. induction a as [|c a IH]; simpl; [done|]. rewrite IH.
  destruct (a ++ s) eqn:E; [|done]. by apply app_eq_nil in E as [_ ?].
Qed.

(** Trimming the end of a string that starts with a non-space keeps its head. *)
Lemma trim_end_cons c s : is_whitespace c = false → ∃ t, trim_end (c :: s) = c :: t.
Proof. intros Hc. simpl. rewrite Hc. destruct (trim_end s); eauto. Qed.

Lemma trim_cons c s : is_whitespace c = false → trim (c :: s) = trim_end (c :: s).
Proof. intros Hc. unfold trim. cbn [trim_start]. by rewrite Hc. Qed.

Lemma strip_cr_id s : trim_end s = s → strip_cr s = s.
Proof.
  intros Hs. unfold strip_cr. destruct (strip_suffix [cr] s) as [r|] eqn:E; [|done].
  apply strip_suffix_Some in E. exfalso. rewrite E in Hs.
  destruct (trim_end_prefix r) as (w & Hr & Hw).
  assert (Hlen : ∀ u, length (trim_end (u ++ [cr])) ≤ length u).
  { induction u as [|x u IH]; [exact (le_n 0)|]. simpl.
    destruct (trim_end (u ++ [13%N])); simpl in *; [case_match; simpl; lia|lia]. }
  specialize (Hlen r). rewrite Hs, length_app in Hlen. simpl in Hlen. lia.
Qed.

(** ** Splitting and counting

    [split_once], [is_ascii_digit] and [matches(c).count()]. *)
Fixpoint split_once (sep s : str) : option (str * str) :=
  match strip_prefix sep s with
  | Some rest => Some ([], rest)
  | None =>
      match s with
      | [] => None
      | c :: s => (fun '(a, b) => (c :: a, b)) <$> split_once sep s
      end
  end.

Definition is_ascii_digit (c : char) : bool := ((48 <=? c) && (c <=? 57))%N.

Definition count_char (c : char) (s : str) : nat := length (List.filter (N.eqb c) s).

Lemma split_once_app sep s a b : split_once sep s = Some (a, b) → s = a ++ sep ++ b.
Proof.
  revert a. induction s as [|c s IH]; intros a; cbn.
  - destruct (strip_prefix sep []) as [r|] eqn:E; [|done]. intros [= <- <-]. by apply strip_prefix_Some in E.
  - destruct (strip_prefix sep (c :: s)) as [r|] eqn:E; [intros [= <- <-]; by apply strip_prefix_Some in E|].
    destruct (split_once sep s) as [[a' b']|]; [|done]. intros [= <- <-]. cbn. f_equal. by apply IH.
Qed.

Lemma split_once_None c s : c ∉ s → split_once [c] s = None.
Proof.
  induction s as [|x s IH]; intros Hs; cbn; [done|]. destruct (N.eqb_spec c x) as [->|]; [set_solver|].
  rewrite IH by set_solver. done.
Qed.

Lemma split_once_first c sep a b : c ∉ a → split_once (c :: sep) (a ++ (c :: sep) ++ b) = Some (a, b).
Proof.
  intros Ha. induction a as [|x a IH].
  - cbn [app split_once strip_prefix]. by rewrite N.eqb_refl, strip_prefix_app.
  - cbn [app split_once strip_prefix]. destruct (N.eqb_spec c x) as [->|]; [set_solver|].
    cbn [app] in IH. rewrite IH by set_solver. done.
Qed.

(** [str::contains] of a string. *)
Fixpoint contains (needle s : str) : bool :=
  starts_with needle s || match s with [] => false | _ :: s => contains needle s end.

(** The order of [String]s: by code points, which is the order of their UTF-8 bytes. *)
Fixpoint str_leb (a b : str) : bool :=
  match a, b with
  | [], _ => true
  | _ :: _, [] => false
  | x :: a, y :: b => (x <? y)%N || ((x =? y)%N && str_leb a b)
  end.

Lemma str_leb_total a b : str_leb a b = true ∨ str_leb b a = true.
Proof.
  revert b. induction a as [|x a IH]; intros [|y b]; simpl; auto.
  destruct (N.ltb_spec x y), (N.ltb_spec y x), (N.eqb_spec x y), (N.eqb_spec y x); simpl; auto; lia.
Qed.

Lemma str_leb_antisym a b : str_leb a b = true → str_leb b a = true → a = b.
Proof.
  revert b. induction a as [|x a IH]; intros [|y b]; simpl; auto; try done.
  destruct (N.ltb_spec x y), (N.ltb_spec y x), (N.eqb_spec x y), (N.eqb_spec y x); simpl;
    try done; try lia. intros. subst. f_equal. auto.
Qed.

Lemma str_leb_trans a b c : str_leb a b = true → str_leb b c = true → str_leb a c = true.
Proof.
  revert b c. induction a as [|x a IH]; intros [|y b] [|z c]; simpl; auto; try done.
  rewrite !orb_true_iff, !andb_true_iff, !N.ltb_lt, !N.eqb_eq.
  intros [H1|[-> H1]] [H2|[-> H2]]; [left; lia|left; lia|left; lia|right; eauto].
Qed.

(** [char::is_control]: the general category Cc. *)
Definition is_control (c : char) : bool := ((c <? 32) || ((127 <=? c) && (c <? 160)))%N.

Definition is_ascii_alphanumeric (c : char) : bool :=
  (is_ascii_digit c || ((65 <=? c) && (c <=? 90)) || ((97 <=? c) && (c <=? 122)))%N.

(** [trim_end_matches(c)] *)
Fixpoint trim_end_matches (c : char) (s : str) : str :=
  match s with
  | [] => []
  | x :: s =>
      match trim_end_matches c s with
      | [] => if (x =? c)%N then [] else [x]
      | t => x :: t
      end
  end.

(** ** Lines *)

Lemma lines_of_app a b : b ≠ [] → lines_of (a ++ b) = map strip_cr a ++ lines_of b.
Proof.
  intros Hb. induction a as [|x a IH]; [done|]. cbn [app map]. rewrite <- IH.
  destruct (a ++ b) eqn:E; [|done]. by apply app_eq_nil in E as [_ ->].
Qed.

Lemma lines_app_nl t r : lines (t ++ nl :: r) = map strip_cr (split_on nl t) ++ lines r.
Proof. unfold lines. rewrite split_on_app_sep. apply lines_of_app, split_on_nonempty. Qed.
