(* ===== verification/MachineInt.v ===== *)
(** * Machine integers

    [usize] and [u64] values are natural numbers ([N]) and [i64] values integers
    ([Z]) at their 64-bit width; the saturating operations of the standard library
    are written out.  The number of elements of a collection is [vec_len]. *)

From S2P Require Import Prelude.
Open Scope N_scope.

Definition USIZE_MAX : N := 2 ^ 64 - 1.

(** [saturating_add], [saturating_sub] and [saturating_mul] of [usize] and [u64]. *)
Definition sat_add (a b : N) : N := N.min USIZE_MAX (a + b).
Definition sat_sub (a b : N) : N := a - b.
Definition sat_mul (a b : N) : N := N.min USIZE_MAX (a * b).

Definition I64_MAX : Z := 2 ^ 63 - 1.
Definition I64_MIN : Z := - 2 ^ 63.
Definition clamp_i64 (z : Z) : Z := Z.max I64_MIN (Z.min I64_MAX z).

(** [saturating_add] and [saturating_sub] of [i64]. *)
Definition i64_sat_add (a b : Z) : Z := clamp_i64 (a + b).
Definition i64_sat_sub (a b : Z) : Z := clamp_i64 (a - b).

(** [+] and [-] of [i64]: out of range they panic when overflow is checked ([None]), and
    wrap around otherwise. *)
Definition i64_wrap (z : Z) : Z := ((z + 2 ^ 63) mod 2 ^ 64 - 2 ^ 63)%Z.
Definition in_i64 (z : Z) : bool := ((I64_MIN <=? z) && (z <=? I64_MAX))%Z.
Definition i64_checked (overflow_checks : bool) (z : Z) : option Z :=
  if in_i64 z then Some z else if overflow_checks then None else Some (i64_wrap z).
Definition i64_add (overflow_checks : bool) (a b : Z) : option Z := i64_checked overflow_checks (a + b)%Z.
Definition i64_sub (overflow_checks : bool) (a b : Z) : option Z := i64_checked overflow_checks (a - b)%Z.

(** [i64::try_from(n).unwrap_or(i64::MAX)] *)
Definition i64_of_usize (n : N) : Z := Z.min I64_MAX (Z.of_N n).

Definition vec_len {A} (l : list A) : N := N.of_nat (length l).

(** [&l[..n]] and [&l[n..]] for [n] within the slice. *)
Definition slice_to {A} (n : N) (l : list A) : list A := take (N.to_nat n) l.
Definition slice_from {A} (n : N) (l : list A) : list A := drop (N.to_nat n) l.

(** The last [n] elements. *)
Definition suffix_of_size {A} (n : N) (l : list A) : list A := slice_from (vec_len l - n) l.

(** ** Facts *)

Lemma sat_add_exact a b : a + b <= USIZE_MAX → sat_add a b = a + b.
Proof. unfold sat_add. lia. Qed.

Lemma sat_add_bound a b : sat_add a b <= USIZE_MAX.
Proof. unfold sat_add. lia. Qed.

(** Adding in any grouping saturates at the same total. *)
Lemma sat_add_assoc a b c : sat_add (sat_add a b) c = sat_add a (sat_add b c).
Proof. unfold sat_add. lia. Qed.

Lemma sat_add_0_l a : a <= USIZE_MAX → sat_add 0 a = a.
Proof. unfold sat_add. lia. Qed.

Lemma sat_add_0_r a : a <= USIZE_MAX → sat_add a 0 = a.
Proof. unfold sat_add. lia. Qed.

Lemma vec_len_app {A} (l k : list A) : vec_len (l ++ k) = vec_len l + vec_len k.
Proof. unfold vec_len. rewrite length_app. lia. Qed.

Lemma vec_len_nil {A} (l : list A) : vec_len l = 0 ↔ l = [].
Proof. unfold vec_len. destruct l; simpl; [done|]. split; [lia|done]. Qed.

Lemma vec_len_slice_to {A} n (l : list A) : vec_len (slice_to n l) = N.min n (vec_len l).
Proof. unfold vec_len, slice_to. rewrite length_take. lia. Qed.

Lemma vec_len_slice_from {A} n (l : list A) : vec_len (slice_from n l) = vec_len l - n.
Proof. unfold vec_len, slice_from. rewrite length_drop. lia. Qed.

Lemma vec_len_suffix {A} n (l : list A) : vec_len (suffix_of_size n l) = N.min n (vec_len l).
Proof. unfold suffix_of_size. rewrite vec_len_slice_from. lia. Qed.

Lemma slice_split {A} n (l : list A) : slice_to n l ++ slice_from n l = l.
Proof. apply take_drop. Qed.

Lemma slice_to_all {A} n (l : list A) : vec_len l <= n → slice_to n l = l.
Proof. unfold vec_len, slice_to. intros. apply take_ge. lia. Qed.

Lemma slice_from_0 {A} (l : list A) : slice_from 0 l = l.
Proof. done. Qed.

Lemma slice_from_all {A} n (l : list A) : vec_len l <= n → slice_from n l = [].
Proof. unfold vec_len, slice_from. intros. apply drop_ge. lia. Qed.

Lemma slice_to_app {A} n (l k : list A) :
  slice_to n (l ++ k) = slice_to n l ++ slice_to (n - vec_len l) k.
Proof. unfold slice_to, vec_len. rewrite take_app. do 2 f_equal. lia. Qed.

Lemma slice_from_app {A} n (l k : list A) :
  slice_from n (l ++ k) = slice_from n l ++ slice_from (n - vec_len l) k.
Proof. unfold slice_from, vec_len. rewrite drop_app. do 2 f_equal. lia. Qed.

Lemma slice_from_from {A} n m (l : list A) : slice_from n (slice_from m l) = slice_from (m + n) l.
Proof. unfold slice_from. rewrite drop_drop. f_equal. lia. Qed.

Lemma suffix_all {A} n (l : list A) : vec_len l <= n → suffix_of_size n l = l.
Proof. intros H. unfold suffix_of_size. replace (vec_len l - n) with 0 by lia. done. Qed.

(** A suffix of a suffix, and of a list whose end is long enough. *)
Lemma suffix_app_long {A} n (l k : list A) : n <= vec_len k → suffix_of_size n (l ++ k) = suffix_of_size n k.
Proof.
  intros H. unfold suffix_of_size. rewrite slice_from_app, vec_len_app, slice_from_all by lia. simpl.
  f_equal. lia.
Qed.

Lemma suffix_suffix_app {A} n (l k : list A) :
  suffix_of_size n (suffix_of_size n l ++ k) = suffix_of_size n (l ++ k).
Proof.
  unfold suffix_of_size. rewrite !slice_from_app, !vec_len_app, !vec_len_slice_from, slice_from_from.
  f_equal; f_equal; lia.
Qed.

#[export] Hint Rewrite @vec_len_app @vec_len_slice_to @vec_len_slice_from @vec_len_suffix : codex.
