(* ===== verification/HeadTail.v ===== *)
(** * Capped output of running commands

    [codex-rs/core/src/unified_exec/head_tail_buffer.rs]: a command may print without
    end, so its output is kept in a buffer that retains a prefix and a suffix of what it
    was given and counts the rest; [collect_output_until_deadline] of
    [process_manager.rs] drains such buffers into another one.  A byte is an [N]. *)

From S2P Require Import Prelude RustStr MachineInt.
Open Scope N_scope.

Abbreviation byte := N (only parsing).

Definition UNIFIED_EXEC_OUTPUT_MAX_BYTES : N := 1024 * 1024.

Record HeadTailBuffer := mkBuffer {
  max_bytes : N;
  head_budget : N;
  tail_budget : N;
  head : list byte;
  tail : list byte;
  omitted_bytes : N
}.

Definition new (max_bytes : N) : HeadTailBuffer :=
  let head_budget := max_bytes / 2 in
  mkBuffer max_bytes head_budget (sat_sub max_bytes head_budget) [] [] 0.

Definition default_buffer : HeadTailBuffer := new UNIFIED_EXEC_OUTPUT_MAX_BYTES.

Definition retained_bytes (b : HeadTailBuffer) : N := sat_add (vec_len (head b)) (vec_len (tail b)).
Definition total_bytes (b : HeadTailBuffer) : N := sat_add (retained_bytes b) (omitted_bytes b).

Definition with_tail (tail : list byte) (omitted : N) (b : HeadTailBuffer) : HeadTailBuffer :=
  mkBuffer (max_bytes b) (head_budget b) (tail_budget b) (head b) tail omitted.
Definition with_head (head : list byte) (b : HeadTailBuffer) : HeadTailBuffer :=
  mkBuffer (max_bytes b) (head_budget b) (tail_budget b) head (tail b) (omitted_bytes b).

Definition trim_tail_to_budget (b : HeadTailBuffer) : HeadTailBuffer :=
  let excess := sat_sub (vec_len (tail b)) (tail_budget b) in
  if 0 <? excess
  then with_tail (slice_from excess (tail b)) (sat_add (omitted_bytes b) excess) b
  else b.

Definition push_to_tail (chunk : list byte) (b : HeadTailBuffer) : HeadTailBuffer :=
  match chunk with
  | [] => b
  | _ =>
      if tail_budget b =? 0
      then with_tail (tail b) (sat_add (omitted_bytes b) (vec_len chunk)) b
      else if tail_budget b <=? vec_len chunk
      then
        let start := sat_sub (vec_len chunk) (tail_budget b) in
        let kept := slice_from start chunk in
        let dropped := sat_sub (vec_len chunk) (vec_len kept) in
        with_tail kept (sat_add (sat_add (omitted_bytes b) (vec_len (tail b))) dropped) b
      else trim_tail_to_budget (with_tail (tail b ++ chunk) (omitted_bytes b) b)
  end.

Definition push_chunk (chunk : list byte) (b : HeadTailBuffer) : HeadTailBuffer :=
  match chunk with
  | [] => b
  | _ =>
      if max_bytes b =? 0
      then with_tail (tail b) (sat_add (omitted_bytes b) (vec_len chunk)) b
      else
        let remaining_head := sat_sub (head_budget b) (vec_len (head b)) in
        let head_len := N.min remaining_head (vec_len chunk) in
        let b := if 0 <? head_len then with_head (head b ++ slice_to head_len chunk) b else b in
        push_to_tail (slice_from head_len chunk) b
  end.

Definition snapshot_chunks (b : HeadTailBuffer) : list (list byte) :=
  (match head b with [] => [] | h => [h] end) ++ (match tail b with [] => [] | t => [t] end).

Definition to_bytes (b : HeadTailBuffer) : list byte := head b ++ tail b.

(** [format!("... {omitted_bytes} bytes omitted ...")], which is ASCII. *)
Definition format_output_omission_marker (omitted : N) : list byte :=
  lit "... " ++ show_N omitted ++ lit " bytes omitted ...".

Definition to_bytes_with_omission_marker (b : HeadTailBuffer) : list byte :=
  if omitted_bytes b =? 0 then to_bytes b
  else head b ++ [nl] ++ format_output_omission_marker (omitted_bytes b) ++ [nl] ++ tail b.

(** [drain]: the contents, and the buffer that stays behind. *)
Definition drain (b : HeadTailBuffer) : HeadTailBuffer * HeadTailBuffer :=
  (b, mkBuffer (max_bytes b) (head_budget b) (tail_budget b) [] [] 0).

Definition push_buffer (other b : HeadTailBuffer) : HeadTailBuffer :=
  let b := push_chunk (head other) b in
  let b := push_chunk (tail other) b in
  with_tail (tail b) (sat_add (omitted_bytes b) (omitted_bytes other)) b.

(** ** A process and its reader

    The process appends to the shared buffer; the reader drains it whenever it gets
    the lock and adds what it drained, if anything, to what it has collected. *)
Inductive output_event := Printed (chunk : list byte) | Drained.

Definition has_output (b : HeadTailBuffer) : bool := (0 <? retained_bytes b) || (0 <? omitted_bytes b).

Definition collect_step (s : HeadTailBuffer * HeadTailBuffer) (e : output_event) :
    HeadTailBuffer * HeadTailBuffer :=
  let '(shared, collected) := s in
  match e with
  | Printed chunk => (push_chunk chunk shared, collected)
  | Drained =>
      let '(drained, shared) := drain shared in
      (shared, if has_output drained then push_buffer drained collected else collected)
  end.

Definition collect (max : N) (events : list output_event) : HeadTailBuffer * HeadTailBuffer :=
  foldl collect_step (new max, new max) events.

(** ** What the buffer promises

    After the bytes [s] have been pushed, in whatever chunks, the buffer is a function
    of [s] alone: the first half of the budget holds the beginning of [s], the second
    half its end, and the count holds the rest. *)
Definition kept_head (max : N) (s : list byte) : list byte := slice_to (max / 2) s.
Definition kept_tail (max : N) (s : list byte) : list byte :=
  suffix_of_size (max - max / 2) (slice_from (max / 2) s).

Definition represents (max : N) (s : list byte) (b : HeadTailBuffer) : Prop :=
  max_bytes b = max ∧ head_budget b = max / 2 ∧ tail_budget b = max - max / 2 ∧
  head b = kept_head max s ∧ tail b = kept_tail max s ∧
  omitted_bytes b = N.min USIZE_MAX (vec_len s - max).

Lemma half_le max : max / 2 <= max.
Proof. apply N.Div0.div_le_upper_bound. lia. Qed.

Lemma represents_new max : represents max [] (new max).
Proof.
  repeat split; cbn; unfold kept_head, kept_tail, suffix_of_size, slice_to, slice_from;
    by rewrite ?drop_nil, ?take_nil.
Qed.

(** [push_to_tail] keeps the end of what came past the head. *)
Lemma push_to_tail_spec chunk b t :
  tail b = suffix_of_size (tail_budget b) t → omitted_bytes b = N.min USIZE_MAX (vec_len t - tail_budget b) →
  push_to_tail chunk b =
    with_tail (suffix_of_size (tail_budget b) (t ++ chunk))
      (N.min USIZE_MAX (vec_len (t ++ chunk) - tail_budget b)) b.
Proof.
  intros Ht Ho. unfold push_to_tail. destruct chunk as [|c chunk].
  { rewrite app_nil_r, <- Ht, <- Ho. by destruct b. }
  set (k := c :: chunk). assert (Hk : vec_len k ≠ 0) by (rewrite vec_len_nil; done). clearbody k.
  destruct (N.eqb_spec (tail_budget b) 0) as [E|E].
  { rewrite E in *. f_equal.
    - rewrite Ht. unfold suffix_of_size. rewrite !N.sub_0_r, !slice_from_all; [done|lia|lia].
    - rewrite Ho, vec_len_app. unfold sat_add. lia. }
  destruct (N.leb_spec (tail_budget b) (vec_len k)) as [L|L].
  - f_equal.
    + by rewrite suffix_app_long.
    + rewrite Ho, Ht. autorewrite with codex. unfold sat_add, sat_sub. lia.
  - unfold trim_tail_to_budget. cbn [tail with_tail tail_budget omitted_bytes].
    autorewrite with codex. rewrite Ht, vec_len_suffix.
    destruct (N.ltb_spec 0 (sat_sub (N.min (tail_budget b) (vec_len t) + vec_len k) (tail_budget b))) as [X|X];
      unfold sat_sub in *.
    + unfold with_tail. cbn. f_equal.
      * rewrite <- suffix_suffix_app. unfold suffix_of_size at 2. autorewrite with codex. done.
      * rewrite Ho. unfold sat_add. lia.
    + unfold with_tail. cbn. f_equal; [|rewrite Ho; lia].
      rewrite !suffix_all; [done| |]; autorewrite with codex; lia.
Qed.

(** Pushing a chunk extends the pushed bytes by the chunk. *)
Lemma push_chunk_represents max s chunk b :
  represents max s b → represents max (s ++ chunk) (push_chunk chunk b).
Proof.
  intros (Hm & Hh & Ht & Eh & Et & Eo). unfold push_chunk. pose proof (half_le max) as Hhalf.
  destruct chunk as [|c chunk]; [rewrite app_nil_r; repeat split; done|].
  set (k := c :: chunk). clearbody k. rewrite Hm.
  destruct (N.eqb_spec max 0) as [->|Hpos].
  { repeat split; try done; cbn [with_tail head tail omitted_bytes].
    - rewrite Et. unfold kept_tail, suffix_of_size. rewrite !slice_from_all; try done; lia.
    - rewrite Eo, vec_len_app. unfold sat_add. lia. }
  assert (Hlen : N.min (sat_sub (head_budget b) (vec_len (head b))) (vec_len k) = N.min (max / 2 - vec_len s) (vec_len k)).
  { rewrite Hh, Eh. unfold kept_head, sat_sub. rewrite vec_len_slice_to. lia. }
  rewrite Hlen. set (n := N.min (max / 2 - vec_len s) (vec_len k)).
  assert (Hb : (if 0 <? n then with_head (head b ++ slice_to n k) b else b) =
               with_head (kept_head max (s ++ k)) b).
  { unfold kept_head. rewrite slice_to_app.
    assert (Hn : slice_to n k = slice_to (max / 2 - vec_len s) k).
    { unfold n. destruct (N.le_gt_cases (max / 2 - vec_len s) (vec_len k)).
      - by rewrite N.min_l by lia.
      - rewrite !slice_to_all; [done|lia|lia]. }
    destruct (N.ltb_spec 0 n); [by rewrite Hn, Eh|].
    rewrite <- Hn. replace n with 0 by lia. cbn. rewrite app_nil_r. unfold kept_head in Eh.
    rewrite <- Eh. by destruct b. }
  rewrite Hb. set (b' := with_head _ b).
  assert (Hsplit : slice_from (max / 2) (s ++ k) = slice_from (max / 2) s ++ slice_from n k).
  { rewrite slice_from_app. f_equal. unfold n.
    destruct (N.le_gt_cases (max / 2 - vec_len s) (vec_len k)); [by rewrite N.min_l by lia|].
    rewrite !slice_from_all; [done|lia|lia]. }
  rewrite (push_to_tail_spec (slice_from n k) b' (slice_from (max / 2) s)).
  - repeat split; try done; cbn [with_tail with_head b' head tail omitted_bytes tail_budget]; rewrite Ht.
    + unfold kept_tail. by rewrite Hsplit.
    + rewrite <- Hsplit. autorewrite with codex. lia.
  - cbn [b' with_head tail tail_budget]. rewrite Et, Ht. done.
  - cbn [b' with_head omitted_bytes tail_budget]. rewrite Eo, Ht. autorewrite with codex. lia.
Qed.

Lemma suffix_slice_from {A} n m (l : list A) :
  m + n <= vec_len l → suffix_of_size n (slice_from m l) = suffix_of_size n l.
Proof.
  intros H. unfold suffix_of_size. rewrite slice_from_from, vec_len_slice_from. f_equal. lia.
Qed.

(** What a short stream leaves in a buffer is the stream. *)
Lemma kept_all max s : vec_len s <= max → kept_head max s ++ kept_tail max s = s.
Proof.
  intros H. pose proof (half_le max). unfold kept_head, kept_tail.
  rewrite suffix_all by (autorewrite with codex; lia). apply slice_split.
Qed.

(** What is kept of a stream stands for it at the end of any other. *)
Lemma kept_app max a s :
  max < vec_len s →
  kept_head max (a ++ kept_head max s ++ kept_tail max s) = kept_head max (a ++ s) ∧
  kept_tail max (a ++ kept_head max s ++ kept_tail max s) = kept_tail max (a ++ s) ∧
  vec_len (kept_head max s ++ kept_tail max s) = max.
Proof.
  intros H. pose proof (half_le max) as Hh. unfold kept_head, kept_tail.
  set (h := max / 2) in *. set (t := max - h).
  set (kh := slice_to h s). set (kt := suffix_of_size t (slice_from h s)).
  assert (Hkh : vec_len kh = h) by (unfold kh; autorewrite with codex; lia).
  assert (Hkt : vec_len kt = t) by (unfold kt; autorewrite with codex; lia).
  assert (Hskt : kt = suffix_of_size t s) by (apply suffix_slice_from; lia).
  split_and!.
  - rewrite !(slice_to_app h a). f_equal. rewrite slice_to_app, Hkh.
    replace (h - vec_len a - h) with 0 by lia. cbn. rewrite app_nil_r. unfold kh, slice_to.
    rewrite take_take. f_equal. lia.
  - rewrite app_assoc, slice_from_app. autorewrite with codex. rewrite Hkh.
    replace (h - (vec_len a + h)) with 0 by lia. rewrite slice_from_0.
    rewrite suffix_app_long, (suffix_all t kt) by lia.
    rewrite slice_from_app, suffix_app_long by (autorewrite with codex; lia).
    rewrite suffix_slice_from by lia. done.
  - rewrite vec_len_app. lia.
Qed.

Lemma push_buffer_represents max a s other b :
  represents max a b → represents max s other → represents max (a ++ s) (push_buffer other b).
Proof.
  intros Hb (_ & _ & _ & Eh & Et & Eo). unfold push_buffer. rewrite Eh, Et, Eo.
  apply (push_chunk_represents _ _ (kept_head max s)) in Hb.
  apply (push_chunk_represents _ _ (kept_tail max s)) in Hb.
  rewrite <- app_assoc in Hb. destruct Hb as (? & ? & ? & Bh & Bt & Bo).
  destruct (N.le_gt_cases (vec_len s) max) as [L|L].
  - rewrite (kept_all max s L) in *. repeat split; try done.
    cbn [with_tail omitted_bytes]. rewrite Bo. unfold sat_add. rewrite !vec_len_app. lia.
  - destruct (kept_app max a s L) as (Kh & Kt & Ks). rewrite Kh in Bh. rewrite Kt in Bt.
    rewrite vec_len_app, Ks in Bo. repeat split; try done.
    cbn [with_tail omitted_bytes]. rewrite Bo. unfold sat_add. rewrite !vec_len_app. lia.
Qed.

Lemma has_output_false max s b : represents max s b → has_output b = false → s = [].
Proof.
  intros (_ & _ & _ & Eh & Et & Eo). unfold has_output, retained_bytes, sat_add.
  rewrite orb_false_iff, !N.ltb_ge, Eh, Et, Eo. unfold kept_head, kept_tail. autorewrite with codex.
  pose proof (half_le max) as Hh. assert (HU : 0 < USIZE_MAX) by done. intros H. apply vec_len_nil. lia.
Qed.

(** The bytes a process printed. *)
Definition printed (events : list output_event) : list byte :=
  concat (map (fun e => match e with Printed c => c | Drained => [] end) events).

Lemma printed_app e1 e2 : printed (e1 ++ e2) = printed e1 ++ printed e2.
Proof. unfold printed. by rewrite map_app, concat_app. Qed.

(** At any time the collected and the shared buffer stand for the bytes before and
    after the last time the reader drained. *)
Lemma collect_invariant max events :
  ∃ a s, a ++ s = printed events ∧
    represents max a (snd (collect max events)) ∧ represents max s (fst (collect max events)).
Proof.
  unfold collect. induction events as [|e events IH] using rev_ind.
  - exists [], []. auto using represents_new.
  - rewrite foldl_snoc, printed_app. destruct IH as (a & s & E & Ha & Hs).
    destruct (foldl collect_step _ events) as [shared collected]. simpl in *.
    destruct e as [chunk|]; cbn [collect_step].
    + exists a, (s ++ chunk). cbn. rewrite app_nil_r, app_assoc, E. auto using push_chunk_represents.
    + exists (a ++ s), []. cbn. rewrite !app_nil_r, E. split; [done|]. split.
      * rewrite <- E. destruct (has_output shared) eqn:Ho; [by apply push_buffer_represents|].
        rewrite (has_output_false max s shared Hs Ho), app_nil_r. done.
      * destruct Hs as (-> & -> & -> & _). apply represents_new.
Qed.

(** What stands in a buffer: a stream that fits, or the two ends of a longer one. *)
Lemma represents_contents max s b :
  represents max s b →
  retained_bytes b <= max ∧ total_bytes b = N.min USIZE_MAX (vec_len s) ∧
  (vec_len s <= max → head b ++ tail b = s ∧ omitted_bytes b = 0) ∧
  (max < vec_len s → ∃ middle, s = head b ++ middle ++ tail b ∧
     vec_len (head b) = max / 2 ∧ vec_len (tail b) = max - max / 2 ∧
     omitted_bytes b = N.min USIZE_MAX (vec_len middle) ∧ 0 < vec_len middle).
Proof.
  intros (_ & _ & _ & Eh & Et & Eo). pose proof (half_le max) as Hh.
  assert (Hr : retained_bytes b = N.min USIZE_MAX (N.min max (vec_len s))).
  { unfold retained_bytes, sat_add. rewrite Eh, Et. unfold kept_head, kept_tail. autorewrite with codex. lia. }
  split_and!.
  - rewrite Hr. lia.
  - unfold total_bytes, sat_add. rewrite Hr, Eo. lia.
  - intros L. rewrite Eo, Eh, Et. split; [by apply kept_all|lia].
  - intros L. exists (slice_to (vec_len s - max) (slice_from (max / 2) s)).
    rewrite Eh, Et, Eo. unfold kept_head, kept_tail. autorewrite with codex. split_and!; try lia.
    rewrite <- (slice_split (max / 2) s) at 1. f_equal.
    rewrite <- (slice_split (vec_len s - max) (slice_from (max / 2) s)) at 1. f_equal.
    unfold suffix_of_size. rewrite !slice_from_from, vec_len_slice_from. f_equal. lia.
Qed.

Lemma collect_drained max events :
  fst (collect max (events ++ [Drained])) = new max ∧
  represents max (printed events) (snd (collect max (events ++ [Drained]))).
Proof.
  destruct (collect_invariant max events) as (a & s & E & Ha & Hs). unfold collect in *. rewrite foldl_snoc.
  destruct (foldl collect_step _ events) as [shared collected]. cbn [collect_step drain fst snd] in *. split.
  - destruct Hs as (-> & -> & -> & _). done.
  - rewrite <- E. destruct (has_output shared) eqn:Ho; [by apply push_buffer_represents|].
    by rewrite (has_output_false max s shared Hs Ho), app_nil_r.
Qed.

(** C34: reading does not change what is shown of a command's output.  However the command's
    writes and the reader's drains interleave, once the reader has drained, the shared buffer
    is empty, and what is shown of the collected one is all that was printed, if it fits the
    capacity, and otherwise the first half of the capacity of it, a line that says how many
    bytes are left out, and the last bytes of it that fill the other half. *)
Theorem collected_output_spec max events :
  let '(shared, collected) := collect max (events ++ [Drained]) in
  let s := printed events in
  head shared = [] ∧ tail shared = [] ∧ omitted_bytes shared = 0 ∧
  (vec_len s <= max → to_bytes_with_omission_marker collected = s) ∧
  (max < vec_len s → ∃ first middle last,
     s = first ++ middle ++ last ∧ vec_len first = max / 2 ∧ vec_len last = max - max / 2 ∧
     to_bytes_with_omission_marker collected =
       first ++ [nl] ++ (lit "... " ++ show_N (N.min USIZE_MAX (vec_len middle)) ++ lit " bytes omitted ...") ++ [nl] ++ last).
Proof.
  destruct (collect_drained max events) as [Hs Hc]. destruct (collect _ _) as [shared collected]. cbn [fst snd] in *. subst shared.
  destruct (represents_contents _ _ _ Hc) as (_ & _ & Hfit & Hlong). split_and!; [done..| |].
  - intros (E & Ho)%Hfit. unfold to_bytes_with_omission_marker, to_bytes. by rewrite Ho.
  - intros (middle & E & Hh & Ht & Ho & Hm)%Hlong. exists (head collected), middle, (tail collected). split_and!; [done..|].
    unfold to_bytes_with_omission_marker. rewrite Ho. destruct (N.eqb_spec (N.min USIZE_MAX (vec_len middle)) 0) as [E0|_]; [|done].
    assert (0 < USIZE_MAX) by done. lia.
Qed.

(** The buffer never keeps more than its capacity and accounts for every byte: after any
    chunks, what it retains is at most the capacity, the total it reports is the
    number of bytes pushed (up to saturation), a stream that fits is returned
    unchanged, and of a longer one the two halves of the budget hold its beginning and
    its end, with the number of bytes between them as the reported omission. *)
Theorem buffer_bounds_and_contents max chunks :
  let b := foldl (fun b c => push_chunk c b) (new max) chunks in
  let s := concat chunks in
  retained_bytes b <= max ∧ total_bytes b = N.min USIZE_MAX (vec_len s) ∧
  (vec_len s <= max → to_bytes_with_omission_marker b = s) ∧
  (max < vec_len s → ∃ middle, s = head b ++ middle ++ tail b ∧
     vec_len (head b) = max / 2 ∧ vec_len (tail b) = max - max / 2 ∧
     omitted_bytes b = N.min USIZE_MAX (vec_len middle)).
Proof.
  intros b s. assert (Hb : represents max s b).
  { unfold b, s. induction chunks as [|c cs IH] using rev_ind; [apply represents_new|].
    rewrite foldl_snoc, concat_app. cbn. rewrite app_nil_r. by apply push_chunk_represents. }
  destruct (represents_contents _ _ _ Hb) as (H1 & H2 & Hfit & Hlong). split_and!; [done..| |].
  - intros (E & Ho)%Hfit. unfold to_bytes_with_omission_marker, to_bytes. by rewrite Ho.
  - intros (middle & ? & ? & ? & ? & _)%Hlong. by exists middle.
Qed.
