(* ===== verification/Utf8.v ===== *)
(** * UTF-8

    [str::as_bytes] and [std::str::from_utf8] of the standard library: strings are
    lists of Unicode scalar values, bytes are [N].  Decoding reports, like
    [Utf8Error], how many bytes were valid and how long the invalid sequence is, the
    length being absent when the input only ends too early. *)

From S2P Require Import Prelude RustStr MachineInt.
Open Scope N_scope.

Definition is_scalar (c : char) : Prop := c < 55296 ∨ 57344 <= c < 1114112.

#[export] Instance is_scalar_dec c : Decision (is_scalar c).
Proof. unfold is_scalar. apply _. Defined.

Definition encode_char (c : char) : list N :=
  if c <? 128 then [c]
  else if c <? 2048 then [192 + c / 64; 128 + c mod 64]
  else if c <? 65536 then [224 + c / 4096; 128 + c / 64 mod 64; 128 + c mod 64]
  else [240 + c / 262144; 128 + c / 4096 mod 64; 128 + c / 64 mod 64; 128 + c mod 64].

(** [str::as_bytes] *)
Definition encode (s : str) : list N := concat (map encode_char s).

Record Utf8Error := mkUtf8Error { valid_up_to : N; error_len : option N }.

Definition in_range (lo hi b : N) : bool := (lo <=? b) && (b <=? hi).
Definition continuation (b : N) : bool := in_range 128 191 b.

(** The second bytes that may follow the first of a three- or four-byte sequence. *)
Definition second_of_3 (b0 b1 : N) : bool :=
  if b0 =? 224 then in_range 160 191 b1 else if b0 =? 237 then in_range 128 159 b1 else continuation b1.
Definition second_of_4 (b0 b1 : N) : bool :=
  if b0 =? 240 then in_range 144 191 b1 else if b0 =? 244 then in_range 128 143 b1 else continuation b1.

(** The first character, its width, or the length of the invalid sequence. *)
Inductive decoded := Char (c : char) (width : nat) | Bad (error_len : option N).

Definition decode_char (bytes : list N) : decoded :=
  match bytes with
  | [] => Bad None
  | b0 :: r =>
      if b0 <? 128 then Char b0 1
      else if in_range 194 223 b0 then
        match r with
        | [] => Bad None
        | b1 :: _ => if continuation b1 then Char ((b0 - 192) * 64 + (b1 - 128)) 2 else Bad (Some 1)
        end
      else if in_range 224 239 b0 then
        match r with
        | [] => Bad None
        | b1 :: r =>
            if second_of_3 b0 b1 then
              match r with
              | [] => Bad None
              | b2 :: _ =>
                  if continuation b2 then Char ((b0 - 224) * 4096 + (b1 - 128) * 64 + (b2 - 128)) 3
                  else Bad (Some 2)
              end
            else Bad (Some 1)
        end
      else if in_range 240 244 b0 then
        match r with
        | [] => Bad None
        | b1 :: r =>
            if second_of_4 b0 b1 then
              match r with
              | [] => Bad None
              | b2 :: r =>
                  if continuation b2 then
                    match r with
                    | [] => Bad None
                    | b3 :: _ =>
                        if continuation b3
                        then Char ((b0 - 240) * 262144 + (b1 - 128) * 4096 + (b2 - 128) * 64 + (b3 - 128)) 4
                        else Bad (Some 3)
                    end
                  else Bad (Some 2)
              end
            else Bad (Some 1)
        end
      else Bad (Some 1)
  end.

(** Every step consumes a byte, so the number of bytes is fuel enough. *)
Fixpoint from_utf8_at (fuel : nat) (pos : N) (bytes : list N) : result str Utf8Error :=
  match fuel, bytes with
  | _, [] => Ok []
  | O, _ :: _ => Ok []
  | S fuel, _ :: _ =>
      match decode_char bytes with
      | Char c w => rmap (cons c) (from_utf8_at fuel (pos + N.of_nat w) (drop w bytes))
      | Bad len => Err (mkUtf8Error pos len)
      end
  end.

Definition from_utf8 (bytes : list N) : result str Utf8Error := from_utf8_at (length bytes) 0 bytes.

(** [String::from_utf8_lossy]: each invalid sequence becomes a replacement character.  Every
    round but the last takes at least one byte. *)
Fixpoint from_utf8_lossy_at (fuel : nat) (bytes : list N) : str :=
  match fuel with
  | O => []
  | S fuel =>
      match from_utf8 bytes with
      | Ok s => s
      | Err e =>
          match from_utf8 (take (N.to_nat (valid_up_to e)) bytes) with Ok s => s | Err _ => [] end ++
          65533%N ::
          match error_len e with
          | Some n => from_utf8_lossy_at fuel (drop (N.to_nat (valid_up_to e + n)) bytes)
          | None => []
          end
      end
  end.

Definition from_utf8_lossy (bytes : list N) : str := from_utf8_lossy_at (S (length bytes)) bytes.

(** ** Facts *)

Definition scalars (s : str) : Prop := Forall is_scalar s.

(** Decides the comparisons of a goal one after the other. *)
Ltac range :=
  repeat (first
    [match goal with |- context [N.ltb ?a ?b] => destruct (N.ltb_spec a b) end
    |match goal with |- context [N.leb ?a ?b] => destruct (N.leb_spec a b) end
    |match goal with |- context [N.eqb ?a ?b] => destruct (N.eqb_spec a b) end];
    try (exfalso; lia); cbn [andb]).

Lemma encode_char_length c : length (encode_char c) = len_utf8 c.
Proof. unfold encode_char, len_utf8. by repeat case_match. Qed.

Lemma encode_cons c s : encode (c :: s) = encode_char c ++ encode s.
Proof. done. Qed.

Lemma encode_app s t : encode (s ++ t) = encode s ++ encode t.
Proof. unfold encode. by rewrite map_app, concat_app. Qed.

(** The six-bit groups of a character. *)
Lemma six_bits c : c = 64 * (c / 64) + c mod 64 ∧ c mod 64 < 64.
Proof. split; [apply N.div_mod'|apply N.mod_lt; lia]. Qed.

Lemma div_4096 c : c / 4096 = c / 64 / 64.
Proof. by rewrite N.Div0.div_div. Qed.
Lemma div_262144 c : c / 262144 = c / 64 / 64 / 64.
Proof. by rewrite !N.Div0.div_div. Qed.

(** Names the groups of [c] that the goal mentions. *)
Ltac groups c :=
  rewrite ?(div_262144 c), ?(div_4096 c);
  let q := fresh "q" in let d := fresh "d" in
  destruct (six_bits c) as [? ?]; set (q := c / 64) in *; set (d := c mod 64) in *;
  let q1 := fresh "q" in let d1 := fresh "d" in
  destruct (six_bits q) as [? ?]; set (q1 := q / 64) in *; set (d1 := q mod 64) in *;
  let q2 := fresh "q" in let d2 := fresh "d" in
  destruct (six_bits q1) as [? ?]; set (q2 := q1 / 64) in *; set (d2 := q1 mod 64) in *;
  clearbody q2 d2; clearbody q1 d1; clearbody q d.

(** Decoding the bytes of a character gives the character. *)
Lemma decode_encode_char c rest :
  is_scalar c → decode_char (encode_char c ++ rest) = Char c (length (encode_char c)).
Proof.
  intros Hc. unfold encode_char, is_scalar in *.
  destruct (N.ltb_spec c 128); [cbn; by rewrite (proj2 (N.ltb_lt _ _))|].
  groups c.
  destruct (N.ltb_spec c 2048).
  { cbn [app decode_char length]. unfold in_range, continuation, in_range. range. f_equal. lia. }
  destruct (N.ltb_spec c 65536).
  { cbn [app decode_char length]. unfold second_of_3, continuation, in_range. range; f_equal; lia. }
  cbn [app decode_char length]. unfold second_of_4, continuation, in_range. range; f_equal; lia.
Qed.

(** Any proper part of them from the start is incomplete, not invalid. *)
Lemma decode_partial_char c n :
  is_scalar c → (n < length (encode_char c))%nat → decode_char (take n (encode_char c)) = Bad None.
Proof.
  intros Hc. unfold encode_char, is_scalar in *.
  destruct (N.ltb_spec c 128); [destruct n; [done|cbn; lia]|].
  groups c.
  destruct (N.ltb_spec c 2048).
  { do 2 (destruct n as [|n]; [cbn; unfold in_range; range; done|]). cbn. lia. }
  destruct (N.ltb_spec c 65536).
  { do 3 (destruct n as [|n]; [cbn; unfold second_of_3, continuation, in_range; range; done|]). cbn. lia. }
  do 4 (destruct n as [|n]; [cbn; unfold second_of_4, continuation, in_range; range; done|]). cbn. lia.
Qed.

Lemma encode_char_nonempty c : (0 < length (encode_char c))%nat.
Proof. rewrite encode_char_length. unfold len_utf8. repeat case_match; lia. Qed.

(** The beginning of a character that is not all of it. *)
Definition partial_char (t : list N) : Prop :=
  ∃ c n, is_scalar c ∧ (0 < n < length (encode_char c))%nat ∧ t = take n (encode_char c).

Lemma from_utf8_at_encode s t pos fuel :
  scalars s → t = [] ∨ partial_char t → (length (encode s ++ t) <= fuel)%nat →
  from_utf8_at fuel pos (encode s ++ t) =
    match t with
    | [] => Ok s
    | _ :: _ => Err (mkUtf8Error (pos + vec_len (encode s)) None)
    end.
Proof.
  intros Hs Ht. revert pos fuel. induction Hs as [|c s Hc Hs IH]; intros pos fuel Hf.
  - cbn [encode map concat app] in *. destruct t as [|b t]; [by destruct fuel|].
    destruct Ht as [|(c & n & Hc & Hn & E)]; [done|]. cbn in Hf.
    destruct fuel as [|fuel]; [lia|]. cbn [from_utf8_at]. rewrite E, decode_partial_char by (done || lia).
    cbn. by rewrite N.add_0_r.
  - rewrite encode_cons, <- app_assoc in *. rewrite length_app in Hf. pose proof (encode_char_nonempty c).
    destruct fuel as [|fuel]; [lia|].
    destruct (encode_char c ++ encode s ++ t) as [|b r] eqn:E; [apply app_nil in E as [E _]; rewrite E in *; cbn in *; lia|].
    cbn [from_utf8_at]. rewrite <- E, decode_encode_char by done.
    rewrite drop_app_length, IH by lia. destruct t; [done|]. cbn [rmap].
    do 2 f_equal. rewrite vec_len_app. unfold vec_len. lia.
Qed.

Lemma from_utf8_encode s : scalars s → from_utf8 (encode s) = Ok s.
Proof.
  intros Hs. unfold from_utf8. rewrite <- (app_nil_r (encode s)) at 2.
  rewrite from_utf8_at_encode; [done|done|by left|by rewrite app_nil_r].
Qed.

Lemma from_utf8_partial s t :
  scalars s → partial_char t → from_utf8 (encode s ++ t) = Err (mkUtf8Error (vec_len (encode s)) None).
Proof.
  intros Hs Ht. unfold from_utf8. rewrite from_utf8_at_encode by auto.
  destruct Ht as (c & n & _ & Hn & ->). destruct (take n (encode_char c)) eqn:E; [|done].
  apply (f_equal length) in E. rewrite length_take in E. cbn in E. lia.
Qed.

(** Cutting the bytes of a text anywhere cuts its characters, but for one. *)
Lemma encode_cut s p q :
  scalars s → p ++ q = encode s →
  ∃ s1 s2 t, s = s1 ++ s2 ∧ p = encode s1 ++ t ∧ (t = [] ∨ partial_char t) ∧ t ++ q = encode s2.
Proof.
  intros Hs. revert p. induction Hs as [|c s Hc Hs IH]; intros p E.
  - apply app_nil in E as [-> ->]. exists [], [], []. auto.
  - rewrite encode_cons in E. destruct (decide (length (encode_char c) <= length p)%nat) as [L|L].
    + assert (Hp : p = encode_char c ++ drop (length (encode_char c)) p).
      { apply (f_equal (take (length (encode_char c)))) in E. rewrite take_app_length, take_app_le in E by lia.
        rewrite <- E at 2. rewrite E. rewrite <- E at 1. symmetry. apply take_drop. }
      rewrite Hp, <- app_assoc in E. apply app_inv_head in E.
      destruct (IH _ E) as (s1 & s2 & t & -> & E1 & Ht & E2).
      exists (c :: s1), s2, t. rewrite Hp, E1, encode_cons, <- app_assoc. auto.
    + exists [], (c :: s), p. cbn [encode map concat app]. split; [done|]. split; [done|]. split; [|done].
      destruct p as [|b p]; [by left|]. right. exists c, (length (b :: p)).
      split; [done|]. split; [cbn in *; lia|].
      apply (f_equal (take (length (b :: p)))) in E. rewrite take_app_length, take_app_le in E by lia. done.
Qed.

(** Decoding a character and encoding it gives its bytes back. *)
Lemma decode_char_inv bytes c w : decode_char bytes = Char c w →
  is_scalar c ∧ encode_char c = take w bytes ∧ (0 < w)%nat.
Proof.
  unfold decode_char, second_of_3, second_of_4, continuation, in_range.
  destruct bytes as [|b0 r]; [done|]. destruct (N.ltb_spec b0 128) as [H0|H0].
  { intros [= <- <-]. unfold is_scalar, encode_char. rewrite (proj2 (N.ltb_lt b0 128) H0). split_and!; [lia|done|lia]. }
  intros H. repeat case_match; try done; injection H as Hc <-;
    rewrite ?andb_true_iff, ?N.leb_le, ?N.eqb_eq, ?N.eqb_neq in *; unfold is_scalar, encode_char.
  all: split; [lia|split; [|lia]]; cbn [take].
  all: repeat match goal with |- context [?a <? ?b] => destruct (N.ltb_spec a b); try lia end.
  all: groups c; repeat f_equal; lia.
Qed.

Lemma from_utf8_at_inv fuel pos bytes s : (length bytes <= fuel)%nat → from_utf8_at fuel pos bytes = Ok s → scalars s ∧ encode s = bytes.
Proof.
  revert pos bytes s. induction fuel as [|fuel IH]; intros pos [|b bytes] s Hf; cbn [from_utf8_at length] in *; try lia.
  - intros [= <-]. by split; [constructor|].
  - intros [= <-]. by split; [constructor|].
  - destruct (decode_char (b :: bytes)) as [c w|] eqn:E; [|done]. apply decode_char_inv in E as (Hc & He & Hw).
    destruct (from_utf8_at fuel (pos + N.of_nat w) (drop w (b :: bytes))) as [t|] eqn:E'; [|done]. intros [= <-].
    apply IH in E' as [Ht Hb]; [|rewrite length_drop; cbn [length]; lia]. split; [by constructor|].
    rewrite encode_cons, He, Hb. apply take_drop.
Qed.

(** Only the encoding of a text is taken for its bytes. *)
Lemma from_utf8_inv bytes s : from_utf8 bytes = Ok s → scalars s ∧ encode s = bytes.
Proof. by apply from_utf8_at_inv. Qed.
