(* ===== verification/StreamText.v ===== *)
(** * Streamed assistant text

    [codex-rs/utils/stream-parser]: the model's text arrives in pieces, and markup in it
    must not reach the user: citations are taken out of the text
    ([inline_hidden_tag.rs], [citation.rs]), in plan mode so are blocks that propose a
    plan ([tagged_line_parser.rs], [proposed_plan.rs]); [assistant_text.rs] composes the
    two and [utf8_stream.rs] feeds a parser from bytes.  The trait [StreamTextParser] is
    a class.  Offsets count characters where the code counts bytes: all of them are
    offsets of character boundaries, which the two counts order alike. *)

From S2P Require Import Prelude RustStr MachineInt Utf8.
Open Scope nat_scope.

(** ** [stream_text.rs] *)

Record StreamTextChunk (X : Type) := mkChunk { visible_text : str; extracted : list X }.
Arguments mkChunk {X} _ _.
Arguments visible_text {X} _.
Arguments extracted {X} _.

Definition empty_chunk {X} : StreamTextChunk X := mkChunk [] [].

(** [out.visible_text.push_str(..); out.extracted.append(..)] *)
Definition chunk_app {X} (a b : StreamTextChunk X) : StreamTextChunk X :=
  mkChunk (visible_text a ++ visible_text b) (extracted a ++ extracted b).

Definition is_empty {X} (c : StreamTextChunk X) : bool :=
  match visible_text c, extracted c with [], [] => true | _, _ => false end.

Class StreamTextParser (P X : Type) := {
  push_str : str → P → P * StreamTextChunk X;
  finish : P → P * StreamTextChunk X
}.

(** ** [inline_hidden_tag.rs] *)

(** [str::find]: where [needle] first occurs. *)
Fixpoint str_find (needle s : str) : option nat :=
  if starts_with needle s then Some O
  else match s with [] => None | _ :: s => S <$> str_find needle s end.

(** The longest proper prefix of [needle] that ends [s], for [k] from [n] down to 1. *)
Fixpoint suffix_prefix_from (n : nat) (s needle : str) : nat :=
  match n with
  | O => O
  | S n' => if ends_with (take n needle) s then n else suffix_prefix_from n' s needle
  end.

Definition longest_suffix_prefix_len (s needle : str) : nat :=
  suffix_prefix_from (length s `min` (length needle - 1)) s needle.

Section inline.
Context {T : Type}.

Record ExtractedInlineTag := mkExtracted { extracted_tag : T; extracted_content : str }.
Record InlineTagSpec := mkSpec { spec_tag : T; spec_open : str; spec_close : str }.
Record ActiveTag := mkActive { active_tag : T; active_close : str; active_content : str }.

Record InlineHiddenTagParser := mkInline {
  inline_specs : list InlineTagSpec;
  pending : str;
  active : option ActiveTag
}.

(** [new]: the assertions that may panic. *)
Definition inline_new (specs : list InlineTagSpec) : option InlineHiddenTagParser :=
  if match specs with [] => false | _ => true end &&
     forallb (fun spec => negb (seqb (spec_open spec) []) && negb (seqb (spec_close spec) [])) specs
  then Some (mkInline specs [] None)
  else None.

(** The comparison of [find_next_open]: position, then the longer opener, then the index. *)
Definition open_le (a b : nat * nat * nat) : bool :=
  let '(pos_a, len_a, idx_a) := a in
  let '(pos_b, len_b, idx_b) := b in
  (pos_a <? pos_b) || (pos_a =? pos_b) && ((len_b <? len_a) || (len_a =? len_b) && (idx_a <=? idx_b)).

(** [Iterator::min_by]: the first of the least elements. *)
Definition min_by {A} (le : A → A → bool) (l : list A) : option A :=
  match l with
  | [] => None
  | x :: l => Some (foldl (fun a b => if le a b then a else b) x l)
  end.

Definition open_candidates (specs : list InlineTagSpec) (s : str) : list (nat * nat * nat) :=
  omap (fun '(idx, spec) => (fun pos => (pos, byte_len (spec_open spec), idx)) <$> str_find (spec_open spec) s)
    (imap (fun idx spec => (idx, spec)) specs).

Definition find_next_open (specs : list InlineTagSpec) (s : str) : option (nat * nat) :=
  (fun '(pos, _, idx) => (pos, idx)) <$> min_by open_le (open_candidates specs s).

Definition max_open_prefix_suffix_len (specs : list InlineTagSpec) (s : str) : nat :=
  foldr (fun spec n => longest_suffix_prefix_len s (spec_open spec) `max` n) O specs.

Abbreviation inline_chunk := (StreamTextChunk ExtractedInlineTag).

(** The loop of [push_str]; a step that continues consumes a delimiter, so the length of
    the pending text is fuel enough. *)
Fixpoint inline_loop (fuel : nat) (p : InlineHiddenTagParser) : option (InlineHiddenTagParser * inline_chunk) :=
  match fuel with
  | O => None
  | S fuel =>
      match active p with
      | Some a =>
          match str_find (active_close a) (pending p) with
          | Some close_idx =>
              let content := active_content a ++ take close_idx (pending p) in
              '(p', out) ← inline_loop fuel
                (mkInline (inline_specs p) (drop (close_idx + length (active_close a)) (pending p)) None);
              Some (p', chunk_app (mkChunk [] [mkExtracted (active_tag a) content]) out)
          | None =>
              let keep := longest_suffix_prefix_len (pending p) (active_close a) in
              let n := (length (pending p) - keep)%nat in
              Some (mkInline (inline_specs p) (drop n (pending p))
                      (Some (mkActive (active_tag a) (active_close a) (active_content a ++ take n (pending p)))),
                    empty_chunk)
          end
      | None =>
          match find_next_open (inline_specs p) (pending p) with
          | Some (open_idx, spec_idx) =>
              spec ← inline_specs p !! spec_idx;
              '(p', out) ← inline_loop fuel
                (mkInline (inline_specs p) (drop (open_idx + length (spec_open spec)) (pending p))
                   (Some (mkActive (spec_tag spec) (spec_close spec) [])));
              Some (p', chunk_app (mkChunk (take open_idx (pending p)) []) out)
          | None =>
              let keep := max_open_prefix_suffix_len (inline_specs p) (pending p) in
              let n := (length (pending p) - keep)%nat in
              Some (mkInline (inline_specs p) (drop n (pending p)) None, mkChunk (take n (pending p)) [])
          end
      end
  end.

(** [push_str]; [None] would be a loop that does not end. *)
Definition inline_push_str (chunk : str) (p : InlineHiddenTagParser) : option (InlineHiddenTagParser * inline_chunk) :=
  let pending := pending p ++ chunk in
  inline_loop (S (length pending)) (mkInline (inline_specs p) pending (active p)).

Definition inline_finish (p : InlineHiddenTagParser) : InlineHiddenTagParser * inline_chunk :=
  match active p with
  | Some a =>
      (mkInline (inline_specs p) [] None,
       mkChunk [] [mkExtracted (active_tag a) (active_content a ++ pending p)])
  | None => (mkInline (inline_specs p) [] None, mkChunk (pending p) [])
  end.

#[export] Instance inline_parser : StreamTextParser InlineHiddenTagParser ExtractedInlineTag := {
  push_str chunk p := default (p, empty_chunk) (inline_push_str chunk p);
  finish := inline_finish
}.
End inline.
Arguments InlineTagSpec _ : clear implicits.
Arguments InlineHiddenTagParser _ : clear implicits.
Arguments ExtractedInlineTag _ : clear implicits.
Arguments ActiveTag _ : clear implicits.

(** ** [citation.rs] *)

Inductive CitationTag := Citation.

Definition CITATION_OPEN : str := lit "<oai-mem-citation>".
Definition CITATION_CLOSE : str := lit "</oai-mem-citation>".

Definition citation_specs : list (InlineTagSpec CitationTag) := [mkSpec Citation CITATION_OPEN CITATION_CLOSE].

Record CitationStreamParser := mkCitation { citation_inner : InlineHiddenTagParser CitationTag }.

Definition citation_new : CitationStreamParser := mkCitation (mkInline citation_specs [] None).

Definition citation_chunk (c : StreamTextChunk (ExtractedInlineTag CitationTag)) : StreamTextChunk str :=
  mkChunk (visible_text c) (map extracted_content (extracted c)).

#[export] Instance citation_parser : StreamTextParser CitationStreamParser str := {
  push_str chunk p := let '(inner, c) := push_str chunk (citation_inner p) in (mkCitation inner, citation_chunk c);
  finish p := let '(inner, c) := finish (citation_inner p) in (mkCitation inner, citation_chunk c)
}.

Definition strip_citations (text : str) : str * list str :=
  let '(parser, out) := push_str text citation_new in
  let '(_, tail) := finish parser in
  let out := chunk_app out tail in
  (visible_text out, extracted out).

(** ** [tagged_line_parser.rs] *)

Section tagged.
Context {T : Type} `{EqDecision T}.

Record TagSpec := mkTagSpec { open_line : str; close_line : str; line_tag : T }.

Inductive TaggedLineSegment :=
| Normal (text : str)
| TagStart (tag : T)
| TagDelta (tag : T) (text : str)
| TagEnd (tag : T).

Record TaggedLineParser := mkTagged {
  tag_specs : list TagSpec;
  current_tag : option T;
  detect_tag : bool;
  line_buffer : str
}.

Definition tagged_new (specs : list TagSpec) : TaggedLineParser := mkTagged specs None true [].

Definition push_segment (segments : list TaggedLineSegment) (segment : TaggedLineSegment) :
    list TaggedLineSegment :=
  match segment with
  | Normal [] | TagDelta _ [] => segments
  | Normal delta =>
      match last segments with
      | Some (Normal existing) => update_last (fun _ => Normal (existing ++ delta)) segments
      | _ => segments ++ [segment]
      end
  | TagDelta tag delta =>
      match last segments with
      | Some (TagDelta existing_tag existing) =>
          if decide (existing_tag = tag)
          then update_last (fun _ => TagDelta existing_tag (existing ++ delta)) segments
          else segments ++ [segment]
      | _ => segments ++ [segment]
      end
  | TagStart _ | TagEnd _ => segments ++ [segment]
  end.

Definition text_segment (tag : option T) (text : str) : TaggedLineSegment :=
  match tag with
  | Some tag => TagDelta tag text
  | None => Normal text
  end.

Definition push_text (p : TaggedLineParser) (text : str) (segments : list TaggedLineSegment) :
    list TaggedLineSegment :=
  push_segment segments (text_segment (current_tag p) text).

Definition match_open (specs : list TagSpec) (slug : str) : option T :=
  line_tag <$> find_first (fun spec => seqb (open_line spec) slug) specs.
Definition match_close (specs : list TagSpec) (slug : str) : option T :=
  line_tag <$> find_first (fun spec => seqb (close_line spec) slug) specs.

Definition is_tag_prefix (specs : list TagSpec) (slug : str) : bool :=
  let slug := trim_end slug in
  existsb (fun spec => starts_with slug (open_line spec) || starts_with slug (close_line spec)) specs.

(** What a complete line is: the tag it opens or closes, or text. *)
Definition line_segment (p : TaggedLineParser) (line : str) : option T * TaggedLineSegment :=
  let without_newline := default line (strip_suffix [nl] line) in
  let slug := trim_end (trim_start without_newline) in
  let close_or_text :=
    match match_close (tag_specs p) slug with
    | Some tag =>
        if decide (current_tag p = Some tag) then (None, TagEnd tag)
        else (current_tag p, text_segment (current_tag p) line)
    | None => (current_tag p, text_segment (current_tag p) line)
    end in
  match match_open (tag_specs p) slug, current_tag p with
  | Some tag, None => (Some tag, TagStart tag)
  | _, _ => close_or_text
  end.

Definition finish_line (p : TaggedLineParser) (segments : list TaggedLineSegment) :
    TaggedLineParser * list TaggedLineSegment :=
  let '(tag, segment) := line_segment p (line_buffer p) in
  (mkTagged (tag_specs p) tag true [], push_segment segments segment).

(** One character of [parse], with the pending [run] of text. *)
Definition parse_char (st : TaggedLineParser * str * list TaggedLineSegment) (ch : char) :
    TaggedLineParser * str * list TaggedLineSegment :=
  let '(p, run, segments) := st in
  if detect_tag p then
    let segments := match run with [] => segments | _ => push_text p run segments end in
    let p := mkTagged (tag_specs p) (current_tag p) true (line_buffer p ++ [ch]) in
    if (ch =? nl)%N then
      let '(p, segments) := finish_line p segments in (p, [], segments)
    else
      let slug := trim_start (line_buffer p) in
      if seqb slug [] || is_tag_prefix (tag_specs p) slug then (p, [], segments)
      else
        let buffered := line_buffer p in
        let p := mkTagged (tag_specs p) (current_tag p) false [] in
        (p, [], push_text p buffered segments)
  else
    let run := run ++ [ch] in
    if (ch =? nl)%N then
      (mkTagged (tag_specs p) (current_tag p) true (line_buffer p), [], push_text p run segments)
    else (p, run, segments).

Definition tagged_parse (delta : str) (p : TaggedLineParser) : TaggedLineParser * list TaggedLineSegment :=
  let '(p, run, segments) := foldl parse_char (p, [], []) delta in
  (p, match run with [] => segments | _ => push_text p run segments end).

Definition tagged_finish (p : TaggedLineParser) : TaggedLineParser * list TaggedLineSegment :=
  let '(tag, segments) :=
    match line_buffer p with
    | [] => (current_tag p, [])
    | buffered => let '(tag, segment) := line_segment p buffered in (tag, push_segment [] segment)
    end in
  let segments := match tag with Some tag => push_segment segments (TagEnd tag) | None => segments end in
  (mkTagged (tag_specs p) None true [], segments).
End tagged.
Arguments TagSpec _ : clear implicits.
Arguments TaggedLineParser _ : clear implicits.
Arguments TaggedLineSegment _ : clear implicits.

(** ** [proposed_plan.rs] *)

Definition OPEN_TAG : str := lit "<proposed_plan>".
Definition CLOSE_TAG : str := lit "</proposed_plan>".

Inductive PlanTag := ProposedPlan.
#[export] Instance PlanTag_eq_dec : EqDecision PlanTag.
Proof. solve_decision. Defined.

Inductive ProposedPlanSegment :=
| PlanNormal (text : str)
| ProposedPlanStart
| ProposedPlanDelta (text : str)
| ProposedPlanEnd.
#[export] Instance ProposedPlanSegment_eq_dec : EqDecision ProposedPlanSegment.
Proof. solve_decision. Defined.

Definition plan_specs : list (TagSpec PlanTag) := [mkTagSpec OPEN_TAG CLOSE_TAG ProposedPlan].

Record ProposedPlanParser := mkPlan { plan_lines : TaggedLineParser PlanTag }.

Definition plan_new : ProposedPlanParser := mkPlan (tagged_new plan_specs).

Definition map_segment (segment : TaggedLineSegment PlanTag) : ProposedPlanSegment :=
  match segment with
  | Normal text => PlanNormal text
  | TagStart _ => ProposedPlanStart
  | TagDelta _ text => ProposedPlanDelta text
  | TagEnd _ => ProposedPlanEnd
  end.

Definition normal_text (segment : ProposedPlanSegment) : str :=
  match segment with PlanNormal text => text | _ => [] end.

Definition map_segments (segments : list (TaggedLineSegment PlanTag)) : StreamTextChunk ProposedPlanSegment :=
  foldl (fun out segment =>
    let mapped := map_segment segment in
    mkChunk (visible_text out ++ normal_text mapped) (extracted out ++ [mapped])) empty_chunk segments.

#[export] Instance plan_parser : StreamTextParser ProposedPlanParser ProposedPlanSegment := {
  push_str chunk p := let '(q, segments) := tagged_parse chunk (plan_lines p) in (mkPlan q, map_segments segments);
  finish p := let '(q, segments) := tagged_finish (plan_lines p) in (mkPlan q, map_segments segments)
}.

Definition strip_proposed_plan_blocks (text : str) : str :=
  let '(parser, out) := push_str text plan_new in
  visible_text out ++ visible_text (snd (finish parser)).

Definition extract_proposed_plan_text (text : str) : option str :=
  let '(parser, out) := push_str text plan_new in
  let segments := extracted out ++ extracted (snd (finish parser)) in
  let '(plan_text, saw_plan_block) :=
    foldl (fun '(plan_text, saw) segment =>
      match segment with
      | ProposedPlanStart => ([], true)
      | ProposedPlanDelta delta => (plan_text ++ delta, saw)
      | ProposedPlanEnd | PlanNormal _ => (plan_text, saw)
      end) ([], false) segments in
  if saw_plan_block : bool then Some plan_text else None.

(** ** [assistant_text.rs] *)

Record AssistantTextChunk := mkAssistantChunk {
  assistant_visible : str;
  citations : list str;
  plan_segments : list ProposedPlanSegment
}.

Record AssistantTextStreamParser := mkAssistant {
  plan_mode : bool;
  citation_state : CitationStreamParser;
  plan_state : ProposedPlanParser
}.

Definition assistant_new (plan_mode : bool) : AssistantTextStreamParser :=
  mkAssistant plan_mode citation_new plan_new.

(** The text with plans taken out; citations are filled in by the callers. *)
Definition parse_visible_text (visible : str) (p : AssistantTextStreamParser) :
    ProposedPlanParser * StreamTextChunk ProposedPlanSegment :=
  if plan_mode p then push_str visible (plan_state p)
  else (plan_state p, mkChunk visible []).

Definition assistant_push_str (chunk : str) (p : AssistantTextStreamParser) :
    AssistantTextStreamParser * AssistantTextChunk :=
  let '(cit, citation_chunk) := push_str chunk (citation_state p) in
  let '(plan, out) := parse_visible_text (visible_text citation_chunk) p in
  (mkAssistant (plan_mode p) cit plan,
   mkAssistantChunk (visible_text out) (extracted citation_chunk) (extracted out)).

Definition assistant_finish (p : AssistantTextStreamParser) : AssistantTextStreamParser * AssistantTextChunk :=
  let '(cit, citation_chunk) := finish (citation_state p) in
  let '(plan, out) := parse_visible_text (visible_text citation_chunk) p in
  let '(plan, out) :=
    if plan_mode p then
      let '(plan, tail) := finish plan in
      (plan, if is_empty tail then out else chunk_app out tail)
    else (plan, out) in
  (mkAssistant (plan_mode p) cit plan,
   mkAssistantChunk (visible_text out) (extracted citation_chunk) (extracted out)).

(** ** [utf8_stream.rs] *)

Inductive Utf8StreamParserError :=
| InvalidUtf8 (valid_up_to error_len : N)
| IncompleteUtf8AtEof.

Section utf8.
Context {P X : Type} `{StreamTextParser P X}.

Record Utf8StreamParser := mkUtf8Stream { utf8_inner : P; pending_utf8 : list N }.

Definition utf8_new (inner : P) : Utf8StreamParser := mkUtf8Stream inner [].

(** [Utf8StreamParserError] of a decoding error, the buffered bytes counting as
    incomplete when nothing is wrong but their end. *)
Definition utf8_error (e : Utf8Error) : Utf8StreamParserError :=
  match error_len e with
  | Some len => InvalidUtf8 (valid_up_to e) len
  | None => IncompleteUtf8AtEof
  end.

Definition push_bytes (chunk : list N) (p : Utf8StreamParser) :
    Utf8StreamParser * result (StreamTextChunk X) Utf8StreamParserError :=
  let buffered := pending_utf8 p ++ chunk in
  match from_utf8 buffered with
  | Ok text =>
      let '(inner, out) := push_str text (utf8_inner p) in
      (mkUtf8Stream inner [], Ok out)
  | Err err =>
      match error_len err with
      | Some len => (p, Err (InvalidUtf8 (valid_up_to err) len))
      | None =>
          if (valid_up_to err =? 0)%N then (mkUtf8Stream (utf8_inner p) buffered, Ok empty_chunk)
          else
            match from_utf8 (slice_to (valid_up_to err) buffered) with
            | Ok text =>
                let '(inner, out) := push_str text (utf8_inner p) in
                (mkUtf8Stream inner (slice_from (valid_up_to err) buffered), Ok out)
            | Err prefix_err =>
                (p, Err (InvalidUtf8 (valid_up_to prefix_err) (default 0%N (error_len prefix_err))))
            end
      end
  end.

Definition utf8_finish (p : Utf8StreamParser) :
    Utf8StreamParser * result (StreamTextChunk X) Utf8StreamParserError :=
  match pending_utf8 p with
  | [] =>
      let '(inner, tail) := finish (utf8_inner p) in
      (mkUtf8Stream inner [], Ok (chunk_app empty_chunk tail))
  | buffered =>
      match from_utf8 buffered with
      | Err err => (p, Err (utf8_error err))
      | Ok text =>
          let '(inner, out) := push_str text (utf8_inner p) in
          let '(inner, tail) := finish inner in
          (mkUtf8Stream inner [], Ok (chunk_app out tail))
      end
  end.

Definition into_inner (p : Utf8StreamParser) : result P Utf8StreamParserError :=
  match pending_utf8 p with
  | [] => Ok (utf8_inner p)
  | buffered =>
      match from_utf8 buffered with
      | Ok _ => Ok (utf8_inner p)
      | Err err => Err (utf8_error err)
      end
  end.

Definition into_inner_lossy (p : Utf8StreamParser) : P := utf8_inner p.
End utf8.
Arguments Utf8StreamParser _ : clear implicits.
