(* ===== verification/StreamInlineFacts.v ===== *)
(** * Hidden inline tags, however the text is cut

    The parser of inline tags ends on every input, and, unless one opener is part of
    another, what it shows and extracts does not depend on how the text was cut into
    chunks. *)

From S2P Require Import Prelude RustStr MachineInt Utf8 StreamText.
Open Scope nat_scope.

(** ** Occurrences *)

Definition occurs (needle s : str) (i : nat) : Prop := i <= length s ∧ ∃ rest, drop i s = needle ++ rest.

Lemma occurs_0 needle s : occurs needle s 0 ↔ starts_with needle s = true.
Proof. rewrite starts_with_spec. unfold occurs. rewrite drop_0. split; [naive_solver|]. intros H. split; [lia|done]. Qed.

Lemma occurs_S needle c s i : occurs needle (c :: s) (S i) ↔ occurs needle s i.
Proof. unfold occurs. simpl. split; intros [? ?]; (split; [lia|done]). Qed.

Lemma str_find_Some needle s i :
  str_find needle s = Some i ↔ occurs needle s i ∧ ∀ j, j < i → ¬ occurs needle s j.
Proof.
  revert i. induction s as [|c s IH]; intros i.
  - simpl. destruct (starts_with needle []) eqn:E.
    + apply occurs_0 in E. split; [intros [= <-]; split; [done|lia]|].
      intros [_ Hn]. destruct i; [done|]. exfalso. apply (Hn 0); [lia|done].
    + split; [done|]. intros [[Hi Ho] _]. simpl in Hi. destruct i; [|lia].
      exfalso. rewrite <- not_true_iff_false, <- occurs_0 in E. by apply E.
  - cbn [str_find]. destruct (starts_with needle (c :: s)) eqn:E.
    + apply occurs_0 in E. split; [intros [= <-]; split; [done|lia]|].
      intros [_ Hn]. destruct i; [done|]. exfalso. apply (Hn 0); [lia|done].
    + rewrite <- not_true_iff_false, <- occurs_0 in E. destruct i as [|i].
      * split; [by destruct (str_find needle s)|]. intros [? _]. done.
      * rewrite occurs_S. transitivity (str_find needle s = Some i).
        { destruct (str_find needle s); simpl; split; congruence. }
        rewrite IH. split; intros [H1 H2]; (split; [done|]); intros j Hj.
        -- destruct j; [done|]. rewrite occurs_S. apply H2. lia.
        -- rewrite <- (occurs_S _ c). apply H2. lia.
Qed.

Lemma str_find_None needle s : str_find needle s = None ↔ ∀ j, ¬ occurs needle s j.
Proof.
  induction s as [|c s IH]; cbn [str_find]; destruct (starts_with needle _) eqn:E.
  - apply occurs_0 in E. split; [done|]. intros H. by destruct (H 0).
  - split; [|done]. intros _ j [Hj Ho]. simpl in Hj. destruct j; [|lia].
    rewrite <- not_true_iff_false, <- occurs_0 in E. by apply E.
  - apply occurs_0 in E. split; [done|]. intros H. by destruct (H 0).
  - rewrite <- not_true_iff_false, <- occurs_0 in E. rewrite fmap_None, IH. split; intros H j.
    + destruct j; [done|]. by rewrite occurs_S.
    + specialize (H (S j)). by rewrite occurs_S in H.
Qed.

(** An occurrence that fits into the first part is one of the whole, and conversely. *)
Lemma occurs_app needle s t i :
  i + length needle <= length s → occurs needle (s ++ t) i ↔ occurs needle s i.
Proof.
  intros Hi. unfold occurs. rewrite drop_app_le, length_app by lia. split; intros [_ [rest E]]; (split; [lia|]).
  - exists (take (length s - i - length needle) rest). apply (f_equal (take (length s - i))) in E.
    rewrite take_app_le, take_ge in E by (rewrite length_drop; lia).
    rewrite E, take_app, take_ge by lia. done.
  - exists (rest ++ t). by rewrite E, app_assoc.
Qed.

Lemma occurs_bound needle s i : occurs needle s i → i + length needle <= length s.
Proof.
  intros [Hi [rest E]]. apply (f_equal length) in E. rewrite length_drop, length_app in E. lia.
Qed.

Lemma str_find_app needle s t i : str_find needle s = Some i → str_find needle (s ++ t) = Some i.
Proof.
  rewrite !str_find_Some. intros [Ho Hn]. pose proof (occurs_bound _ _ _ Ho) as Hb.
  split; [by apply occurs_app|]. intros j Hj. rewrite occurs_app by lia. by apply Hn.
Qed.

Lemma occurs_skip needle x t i : occurs needle (x ++ t) (length x + i) ↔ occurs needle t i.
Proof.
  unfold occurs. rewrite length_app. rewrite drop_app_add. split; intros [? ?]; (split; [lia|done]).
Qed.

(** A beginning in which nothing starts only shifts what is found. *)
Lemma str_find_skip needle x t :
  (∀ j, j < length x → ¬ occurs needle (x ++ t) j) →
  str_find needle (x ++ t) = Nat.add (length x) <$> str_find needle t.
Proof.
  intros Hn. destruct (str_find needle t) as [i|] eqn:E; simpl.
  - apply str_find_Some in E as [Ho Hf]. apply str_find_Some. rewrite occurs_skip. split; [done|].
    intros j Hj. destruct (decide (j < length x)) as [L|L]; [by apply Hn|].
    replace j with (length x + (j - length x)) by lia. rewrite occurs_skip. apply Hf. lia.
  - rewrite str_find_None in E. apply str_find_None. intros j.
    destruct (decide (j < length x)) as [L|L]; [by apply Hn|].
    replace j with (length x + (j - length x)) by lia. rewrite occurs_skip. apply E.
Qed.

(** ** The part that must be kept *)

(** The last [k] characters of [s] are a proper prefix of [needle]. *)
Definition dangling (s needle : str) (k : nat) : Prop :=
  k <= length s ∧ k < length needle ∧ drop (length s - k) s = take k needle.

Lemma ends_with_spec p s : ends_with p s = true ↔ ∃ r, s = r ++ p.
Proof.
  unfold ends_with. destruct (strip_suffix p s) as [r|] eqn:E.
  - apply strip_suffix_Some in E. naive_solver.
  - split; [done|]. intros [r Hr]. apply strip_suffix_Some in Hr. congruence.
Qed.

Lemma ends_with_take k s needle :
  k <= length s → k < length needle → ends_with (take k needle) s = true ↔ drop (length s - k) s = take k needle.
Proof.
  intros Hs Hn. rewrite ends_with_spec. split.
  - intros [r ->]. rewrite length_app, length_take, Nat.min_l by lia.
    replace (length r + k - k) with (length r) by lia. by rewrite drop_app_length.
  - intros E. exists (take (length s - k) s). by rewrite <- E, take_drop.
Qed.

Lemma suffix_prefix_from_spec n s needle :
  n <= length s → n < length needle →
  dangling s needle (suffix_prefix_from n s needle) ∧
  ∀ k, k <= n → dangling s needle k → k <= suffix_prefix_from n s needle.
Proof.
  induction n as [|n IH]; intros Hs Hn; cbn [suffix_prefix_from].
  - split; [|lia]. repeat split; [lia|lia|]. by rewrite Nat.sub_0_r, drop_all.
  - destruct (ends_with _ _) eqn:E.
    + apply ends_with_take in E; [|lia|lia]. split; [repeat split; (done || lia)|]. lia.
    + destruct (IH ltac:(lia) ltac:(lia)) as [H1 H2]. split; [done|].
      intros k Hk Hd. destruct (decide (k = S n)) as [->|]; [|apply H2; [lia|done]].
      destruct Hd as (_ & _ & Hd). apply ends_with_take in Hd; [congruence|lia|lia].
Qed.

Lemma longest_dangling s needle :
  needle ≠ [] → dangling s needle (longest_suffix_prefix_len s needle) ∧
  ∀ k, dangling s needle k → k <= longest_suffix_prefix_len s needle.
Proof.
  intros Hne. assert (0 < length needle) by (destruct needle; simpl; [done|lia]).
  unfold longest_suffix_prefix_len. destruct (suffix_prefix_from_spec (length s `min` (length needle - 1)) s needle)
    as [H1 H2]; [lia|lia|]. split; [done|]. intros k Hk. apply H2; [|done]. destruct Hk as (? & ? & _). lia.
Qed.

(** Nothing starts in what is let go, whatever comes next. *)
Lemma no_early_occurrence needle s t keep j :
  str_find needle s = None → (∀ k, dangling s needle k → k <= keep) →
  j < length s - keep → ¬ occurs needle (s ++ t) j.
Proof.
  intros Hn Hk Hj Ho. destruct (decide (j + length needle <= length s)) as [L|L].
  - rewrite occurs_app in Ho by done. rewrite str_find_None in Hn. by apply (Hn j).
  - destruct Ho as [_ [rest E]]. rewrite drop_app_le in E by lia.
    apply (f_equal (take (length s - j))) in E.
    rewrite take_app_le, take_ge, take_app_le in E by (rewrite ?length_drop; lia).
    assert (dangling s needle (length s - j)) as Hd%Hk; [|lia].
    repeat split; [lia|lia|]. by replace (length s - (length s - j)) with j by lia.
Qed.

(** What dangles at the end of a longer text dangles at the end of its tail. *)
Lemma dangling_skip x t needle k : k <= length t → dangling (x ++ t) needle k ↔ dangling t needle k.
Proof.
  intros Hk. unfold dangling. rewrite length_app.
  replace (length x + length t - k) with (length x + (length t - k)) by lia.
  rewrite drop_app_add. split; intros (? & ? & ?); repeat split; (done || lia).
Qed.

Lemma dangling_prefix s t needle k :
  dangling (s ++ t) needle k → length t <= k → dangling s needle (k - length t).
Proof.
  unfold dangling. rewrite length_app. intros (H1 & H2 & E) Hk. repeat split; [lia|lia|].
  replace (length s - (k - length t)) with (length s + length t - k) by lia.
  rewrite drop_app_le in E by lia. apply (f_equal (take (k - length t))) in E.
  rewrite take_app_le, take_ge, take_take in E by (rewrite length_drop; lia).
  rewrite E. f_equal. lia.
Qed.

(** ** The next opener *)

Lemma open_le_spec p1 l1 i1 p2 l2 i2 :
  open_le (p1, l1, i1) (p2, l2, i2) = true ↔ p1 < p2 ∨ p1 = p2 ∧ (l2 < l1 ∨ l1 = l2 ∧ i1 <= i2).
Proof.
  unfold open_le. rewrite orb_true_iff, andb_true_iff, orb_true_iff, andb_true_iff, !Nat.ltb_lt, !Nat.eqb_eq, Nat.leb_le.
  done.
Qed.

Lemma open_le_trans a b c : open_le a b = true → open_le b c = true → open_le a c = true.
Proof. destruct a as [[??]?], b as [[??]?], c as [[??]?]. rewrite !open_le_spec. lia. Qed.
Lemma open_le_total a b : open_le a b = false → open_le b a = true.
Proof. rewrite <- not_true_iff_false. destruct a as [[??]?], b as [[??]?]. rewrite !open_le_spec. lia. Qed.
Lemma open_le_antisym a b : open_le a b = true → open_le b a = true → a = b.
Proof. destruct a as [[??]?], b as [[??]?]. rewrite !open_le_spec. intros. repeat f_equal; lia. Qed.
Lemma open_le_refl a : open_le a a = true.
Proof. destruct a as [[??]?]. rewrite open_le_spec. lia. Qed.

Lemma min_by_spec l e : min_by open_le l = Some e ↔ e ∈ l ∧ ∀ x, x ∈ l → open_le e x = true.
Proof.
  assert (Hone : ∀ l e, min_by open_le l = Some e → e ∈ l ∧ ∀ x, x ∈ l → open_le e x = true).
  { clear. intros [|a l] e; simpl; [done|]. intros [= <-]. revert a.
    induction l as [|b l IH]; intros a; simpl.
    - split; [set_solver|]. intros x ->%list_elem_of_singleton. apply open_le_refl.
    - destruct (open_le a b) eqn:E.
      + destruct (IH a) as [H1 H2]. split; [set_solver|].
        intros x [->|[->|Hx]%elem_of_cons]%elem_of_cons; [apply H2; set_solver| |apply H2; set_solver].
        eapply open_le_trans; [apply H2; left|done].
      + destruct (IH b) as [H1 H2]. split; [set_solver|]. apply open_le_total in E.
        intros x [->|[->|Hx]%elem_of_cons]%elem_of_cons; [|apply H2; set_solver|apply H2; set_solver].
        eapply open_le_trans; [apply H2; left|done]. }
  split; [apply Hone|]. intros [H1 H2]. destruct (min_by open_le l) as [e'|] eqn:E.
  - destruct (Hone _ _ E) as [H3 H4]. f_equal. apply open_le_antisym; auto.
  - destruct l; [set_solver|done].
Qed.

Section inline_facts.
Context {T : Type}.
Implicit Types (specs : list (InlineTagSpec T)) (spec : InlineTagSpec T).

Lemma elem_of_candidates specs s pos len idx :
  (pos, len, idx) ∈ open_candidates specs s ↔
  ∃ spec, specs !! idx = Some spec ∧ str_find (spec_open spec) s = Some pos ∧ len = byte_len (spec_open spec).
Proof.
  unfold open_candidates. rewrite list_elem_of_omap. split.
  - intros ([i spec] & Hin & E). apply elem_of_lookup_imap in Hin as (j & spec' & [= <- <-] & Hl).
    apply fmap_Some in E as (p & Hp & [= -> -> ->]). eauto.
  - intros (spec & Hl & Hf & ->). exists (idx, spec). split; [|by rewrite Hf].
    apply elem_of_lookup_imap. eauto.
Qed.

(** Which opener is found: the first, of several at one place the longest. *)
Definition is_next_open specs (s : str) (pos idx : nat) : Prop :=
  ∃ spec, specs !! idx = Some spec ∧ str_find (spec_open spec) s = Some pos ∧
    ∀ idx' spec' pos', specs !! idx' = Some spec' → str_find (spec_open spec') s = Some pos' →
      open_le (pos, byte_len (spec_open spec), idx) (pos', byte_len (spec_open spec'), idx') = true.

Lemma find_next_open_Some specs s pos idx :
  find_next_open specs s = Some (pos, idx) ↔ is_next_open specs s pos idx.
Proof.
  unfold find_next_open. rewrite fmap_Some. split.
  - intros ([[p l] i] & E & [= <- <-]). apply min_by_spec in E as [Hin Hle].
    apply elem_of_candidates in Hin as (spec & Hl & Hf & ->). exists spec. split; [done|]. split; [done|].
    intros idx' spec' pos' Hl' Hf'. apply Hle, elem_of_candidates. eauto.
  - intros (spec & Hl & Hf & Hle). exists (pos, byte_len (spec_open spec), idx). split; [|done].
    apply min_by_spec. split; [apply elem_of_candidates; eauto|].
    intros [[p l] i] (spec' & ? & ? & ->)%elem_of_candidates. eauto.
Qed.

Lemma find_next_open_None specs s :
  find_next_open specs s = None ↔ ∀ spec, spec ∈ specs → str_find (spec_open spec) s = None.
Proof.
  unfold find_next_open. rewrite fmap_None. split.
  - intros E spec [i Hi]%list_elem_of_lookup. destruct (str_find (spec_open spec) s) as [p|] eqn:Ef; [|done].
    assert (Hin : (p, byte_len (spec_open spec), i) ∈ open_candidates specs s) by (apply elem_of_candidates; eauto).
    destruct (open_candidates specs s); [set_solver|done].
  - intros H. destruct (open_candidates specs s) as [|[[p l] i] cs] eqn:E; [done|].
    assert (Hin : (p, l, i) ∈ open_candidates specs s) by (rewrite E; left).
    apply elem_of_candidates in Hin as (spec & Hl & Hf & _). rewrite H in Hf; [done|].
    by eapply list_elem_of_lookup_2.
Qed.

(** No opener is part of another one. *)
Definition unambiguous specs : Prop :=
  ∀ s1 s2 i, s1 ∈ specs → s2 ∈ specs → occurs (spec_open s1) (spec_open s2) i → spec_open s1 = spec_open s2.

Definition delimiters_ok specs : Prop :=
  Forall (fun spec => spec_open spec ≠ [] ∧ spec_close spec ≠ []) specs.

(** More text does not change which opener comes next. *)
Lemma is_next_open_app specs s t pos idx :
  unambiguous specs → is_next_open specs s pos idx → is_next_open specs (s ++ t) pos idx.
Proof.
  intros Hu (spec & Hl & Hf & Hle). exists spec. split; [done|]. split; [by apply str_find_app|].
  intros idx' spec' pos' Hl' Hf'. destruct (str_find (spec_open spec') s) as [q|] eqn:E.
  - rewrite (str_find_app _ _ t _ E) in Hf'. injection Hf' as <-. by eapply Hle.
  - apply open_le_spec. left. apply str_find_Some in Hf as [Ho _]. pose proof (occurs_bound _ _ _ Ho) as Hb.
    apply str_find_Some in Hf' as [Ho' _]. destruct (decide (pos < pos')) as [|L]; [done|exfalso].
    rewrite str_find_None in E.
    assert (L' : length s < pos' + length (spec_open spec')).
    { destruct (decide (pos' + length (spec_open spec') <= length s)) as [X|X]; [|lia].
      rewrite occurs_app in Ho' by done. by apply E in Ho'. }
    assert (Hin : occurs (spec_open spec) (spec_open spec') (pos - pos')).
    { destruct Ho' as [_ [r' E']]. apply (occurs_app _ s t) in Ho; [|done]. destruct Ho as [_ [r Er]].
      apply (f_equal (drop (pos - pos'))) in E'. rewrite drop_drop in E'.
      replace (pos' + (pos - pos')) with pos in E' by lia. rewrite Er, drop_app_le in E' by lia.
      split; [lia|]. exists (take (length (spec_open spec') - (pos - pos') - length (spec_open spec)) r).
      apply (f_equal (take (length (spec_open spec') - (pos - pos')))) in E'.
      rewrite take_app, take_ge, take_app_le, (take_ge (drop _ _)) in E' by (rewrite ?length_drop; lia).
      by rewrite <- E'. }
    apply Hu in Hin; [|by eapply list_elem_of_lookup_2|by eapply list_elem_of_lookup_2].
    rewrite <- Hin in E. apply (occurs_app _ s t) in Ho; [|done]. apply occurs_app in Ho; [by apply E in Ho|done].
Qed.

(** A beginning in which no opener starts only shifts the next one. *)
Lemma find_next_open_skip specs x t :
  (∀ spec j, spec ∈ specs → j < length x → ¬ occurs (spec_open spec) (x ++ t) j) →
  find_next_open specs (x ++ t) = (fun '(pos, idx) => (length x + pos, idx)) <$> find_next_open specs t.
Proof.
  intros Hn. assert (Hs : ∀ idx spec, specs !! idx = Some spec →
    str_find (spec_open spec) (x ++ t) = Nat.add (length x) <$> str_find (spec_open spec) t).
  { intros idx spec Hl. apply str_find_skip. intros j. apply Hn. by eapply list_elem_of_lookup_2. }
  destruct (find_next_open specs t) as [[pos idx]|] eqn:E; simpl.
  - apply find_next_open_Some in E as (spec & Hl & Hf & Hle). apply find_next_open_Some.
    exists spec. split; [done|]. split; [by rewrite (Hs _ _ Hl), Hf|].
    intros idx' spec' pos' Hl' Hf'. rewrite (Hs _ _ Hl') in Hf'. apply fmap_Some in Hf' as (q & Hq & ->).
    specialize (Hle _ _ _ Hl' Hq). rewrite open_le_spec in *. lia.
  - rewrite find_next_open_None in E. apply find_next_open_None. intros spec Hin.
    pose proof Hin as [i Hi]%list_elem_of_lookup. by rewrite (Hs _ _ Hi), E.
Qed.

Lemma max_open_keep specs s spec :
  spec ∈ specs → longest_suffix_prefix_len s (spec_open spec) <= max_open_prefix_suffix_len specs s.
Proof.
  unfold max_open_prefix_suffix_len. induction specs as [|x specs IH]; [set_solver|].
  intros [->|Hin]%elem_of_cons; simpl; [lia|]. specialize (IH Hin). lia.
Qed.

Lemma max_open_witness specs s :
  max_open_prefix_suffix_len specs s = 0 ∨
  ∃ spec, spec ∈ specs ∧ max_open_prefix_suffix_len specs s = longest_suffix_prefix_len s (spec_open spec).
Proof.
  unfold max_open_prefix_suffix_len. induction specs as [|x specs IH]; [by left|]. simpl.
  destruct (Nat.max_spec (longest_suffix_prefix_len s (spec_open x))
    (foldr (fun spec n => longest_suffix_prefix_len s (spec_open spec) `max` n) 0 specs)) as [[_ ->]|[_ ->]].
  - destruct IH as [H|(spec & H1 & H2)]; [by left|right]. exists spec. split; [by right|done].
  - right. exists x. split; [left|done].
Qed.

(** ** The loop ends *)

Definition parser_ok (p : InlineHiddenTagParser T) : Prop :=
  delimiters_ok (inline_specs p) ∧ match active p with Some a => active_close a ≠ [] | None => True end.

Lemma delimiters_lookup specs idx spec :
  delimiters_ok specs → specs !! idx = Some spec → spec_open spec ≠ [] ∧ spec_close spec ≠ [].
Proof. intros Hd Hl. exact (proj1 (Forall_lookup _ _) Hd _ _ Hl). Qed.

Lemma drop_shorter (s needle : str) i :
  needle ≠ [] → occurs needle s i → length (drop (i + length needle) s) < length s.
Proof.
  intros Hne Ho. apply occurs_bound in Ho. assert (0 < length needle) by (destruct needle; simpl; [done|lia]).
  rewrite length_drop. lia.
Qed.

Lemma inline_loop_total fuel (p : InlineHiddenTagParser T) :
  parser_ok p → length (pending p) < fuel → is_Some (inline_loop fuel p).
Proof.
  revert p. induction fuel as [|fuel IH]; intros p [Hd Ha] Hf; [lia|]. cbn [inline_loop].
  destruct (active p) as [a|].
  - destruct (str_find (active_close a) (pending p)) as [i|] eqn:E; [|eauto].
    apply str_find_Some in E as [Ho _]. pose proof (drop_shorter _ _ _ Ha Ho).
    destruct (IH (mkInline (inline_specs p) (drop (i + length (active_close a)) (pending p)) None))
      as [[p' out] ->]; [done|simpl; lia|]. simpl. eauto.
  - destruct (find_next_open _ _) as [[i idx]|] eqn:E; [|eauto].
    apply find_next_open_Some in E as (spec & Hl & Hs & _). rewrite Hl. simpl.
    destruct (delimiters_lookup _ _ _ Hd Hl) as [Hopen Hclose].
    apply str_find_Some in Hs as [Ho _]. pose proof (drop_shorter _ _ _ Hopen Ho).
    destruct (IH (mkInline (inline_specs p) (drop (i + length (spec_open spec)) (pending p))
      (Some (mkActive (spec_tag spec) (spec_close spec) [])))) as [[p' out] ->]; [done|simpl; lia|]. simpl. eauto.
Qed.

(** More fuel changes nothing. *)
Lemma inline_loop_mono fuel fuel' (p : InlineHiddenTagParser T) r :
  inline_loop fuel p = Some r → fuel <= fuel' → inline_loop fuel' p = Some r.
Proof.
  revert fuel' p r. induction fuel as [|fuel IH]; intros fuel' p r H Hf; [done|].
  destruct fuel' as [|fuel']; [lia|]. cbn [inline_loop] in *.
  destruct (active p) as [a|].
  - destruct (str_find _ _); [|done]. apply bind_Some in H as ([p' out] & H & E).
    by rewrite (IH fuel' _ _ H) by lia.
  - destruct (find_next_open _ _) as [[i idx]|]; [|done].
    destruct (inline_specs p !! idx) as [spec|]; [|done]. simpl in *.
    apply bind_Some in H as ([p' out] & H & E). by rewrite (IH fuel' _ _ H) by lia.
Qed.

(** What the loop gives, whatever the fuel. *)
Definition runs (p : InlineHiddenTagParser T) (r : InlineHiddenTagParser T * StreamTextChunk (ExtractedInlineTag T)) : Prop :=
  ∃ fuel, inline_loop fuel p = Some r.

Lemma runs_det p r r' : runs p r → runs p r' → r = r'.
Proof.
  intros [f H] [f' H']. apply (inline_loop_mono _ (f `max` f')) in H, H'; [|lia|lia]. congruence.
Qed.

(** The specs and the closers of a parser do not change, so its validity does not. *)
Lemma runs_ok p p' out : runs p (p', out) → parser_ok p → parser_ok p' ∧ inline_specs p' = inline_specs p.
Proof.
  intros [fuel H]. revert p p' out H. induction fuel as [|fuel IH]; intros p p' out H [Hd Ha]; [done|].
  cbn [inline_loop] in H. destruct (active p) as [a|] eqn:Ea.
  - destruct (str_find _ _).
    + apply bind_Some in H as ([p1 o1] & H & [= <- _]). by apply IH in H.
    + injection H as <- _. done.
  - destruct (find_next_open _ _) as [[i idx]|].
    + destruct (inline_specs p !! idx) as [spec|] eqn:Hl; [|done]. simpl in H.
      apply bind_Some in H as ([p1 o1] & H & [= <- _]). apply IH in H; [done|]. split; [done|].
      by eapply delimiters_lookup.
    + injection H as <- _. done.
Qed.

(** ** Text that is let go *)

Lemma skip_keep x t needle :
  needle ≠ [] → (∀ k, dangling (x ++ t) needle k → k <= length t) →
  longest_suffix_prefix_len (x ++ t) needle = longest_suffix_prefix_len t needle.
Proof.
  intros Hne Hk. destruct (longest_dangling (x ++ t) needle Hne) as [H1 H2].
  destruct (longest_dangling t needle Hne) as [H3 H4].
  assert (Hle : longest_suffix_prefix_len t needle <= length t) by apply H3.
  pose proof (Hk _ H1). apply Nat.le_antisymm.
  - apply H4. by apply (dangling_skip x).
  - apply H2. by apply dangling_skip.
Qed.

(** With nothing found and the dangling part kept, the rest never matters again. *)
Lemma let_go s keep needle b :
  needle ≠ [] → str_find needle s = None → longest_suffix_prefix_len s needle <= keep → keep <= length s →
  (∀ j, j < length s - keep → ¬ occurs needle (s ++ b) j) ∧
  (∀ k, dangling (s ++ b) needle k → k <= keep + length b).
Proof.
  intros Hne Hn Hk Hs. destruct (longest_dangling s needle Hne) as [_ Hmax]. split.
  - intros j Hj. apply (no_early_occurrence _ _ _ keep); [done| |done]. intros k Hd. specialize (Hmax k Hd). lia.
  - intros k Hd. destruct (decide (length b <= k)) as [L|L]; [|lia].
    specialize (Hmax _ (dangling_prefix _ _ _ _ Hd L)). lia.
Qed.

(** Inside a tag: what is let go is content. *)
Lemma runs_content specs a x t r :
  active_close a ≠ [] →
  (∀ j, j < length x → ¬ occurs (active_close a) (x ++ t) j) →
  (∀ k, dangling (x ++ t) (active_close a) k → k <= length t) →
  runs (mkInline specs t (Some (mkActive (active_tag a) (active_close a) (active_content a ++ x)))) r →
  runs (mkInline specs (x ++ t) (Some a)) r.
Proof.
  intros Hne Ho Hk [[|fuel] H]; [done|]. exists (S fuel). cbn [inline_loop active pending inline_specs active_close] in *.
  rewrite str_find_skip by done. destruct (str_find (active_close a) t) as [i|]; cbn [fmap option_fmap option_map].
  - cbn [active_tag active_content] in H. rewrite <- app_assoc in H.
    by rewrite take_app_add, <- Nat.add_assoc, drop_app_add.
  - rewrite (skip_keep x t) by done. cbn [active_tag active_content] in H.
    assert (Hle : longest_suffix_prefix_len t (active_close a) <= length t) by apply (longest_dangling t _ Hne).
    rewrite length_app. replace (length x + length t - longest_suffix_prefix_len t (active_close a))
      with (length x + (length t - longest_suffix_prefix_len t (active_close a))) by lia.
    by rewrite take_app_add, drop_app_add, app_assoc.
Qed.

(** Outside: what is let go is visible. *)
Lemma runs_visible specs x t p' out :
  delimiters_ok specs →
  (∀ spec j, spec ∈ specs → j < length x → ¬ occurs (spec_open spec) (x ++ t) j) →
  (∀ spec k, spec ∈ specs → dangling (x ++ t) (spec_open spec) k → k <= length t) →
  runs (mkInline specs t None) (p', out) →
  runs (mkInline specs (x ++ t) None) (p', chunk_app (mkChunk x []) out).
Proof.
  intros Hd Ho Hk [[|fuel] H]; [done|]. exists (S fuel). cbn [inline_loop active pending inline_specs] in *.
  rewrite find_next_open_skip by done.
  destruct (find_next_open specs t) as [[i idx]|]; cbn [fmap option_fmap option_map].
  - destruct (specs !! idx) as [spec|]; [|done]. cbn in *. apply bind_Some in H as ([p1 o1] & H & [= <- <-]).
    rewrite <- Nat.add_assoc, drop_app_add, H, take_app_add. unfold chunk_app; simpl. by rewrite app_assoc.
  - assert (Hm : max_open_prefix_suffix_len specs (x ++ t) = max_open_prefix_suffix_len specs t).
    { unfold max_open_prefix_suffix_len. clear H Ho. induction specs as [|s specs IH]; [done|]. cbn.
      inversion_clear Hd. f_equal; [|apply IH; [done|set_solver]].
      apply skip_keep; [naive_solver|]. intros k. apply Hk. left. }
    rewrite Hm, length_app. assert (Hle : max_open_prefix_suffix_len specs t <= length t).
    { destruct (max_open_witness specs t) as [->|(spec & Hin & ->)]; [lia|].
      apply (longest_dangling t). apply list_elem_of_lookup in Hin as [j Hj]. by apply (delimiters_lookup _ _ _ Hd Hj). }
    injection H as <- <-. replace (length x + length t - max_open_prefix_suffix_len specs t)
      with (length x + (length t - max_open_prefix_suffix_len specs t)) by lia.
    rewrite take_app_add, drop_app_add. done.
Qed.

Lemma chunk_app_assoc {X} (a b c : StreamTextChunk X) : chunk_app (chunk_app a b) c = chunk_app a (chunk_app b c).
Proof. unfold chunk_app. simpl. by rewrite !app_assoc. Qed.
Lemma chunk_app_nil_l {X} (a : StreamTextChunk X) : chunk_app empty_chunk a = a.
Proof. by destruct a. Qed.
Lemma chunk_app_nil_r {X} (a : StreamTextChunk X) : chunk_app a empty_chunk = a.
Proof. unfold chunk_app. destruct a. simpl. by rewrite !app_nil_r. Qed.

(** ** Cutting the text changes nothing *)

Lemma runs_app specs s act p1 o1 b p2 o2 :
  unambiguous specs → parser_ok (mkInline specs s act) →
  runs (mkInline specs s act) (p1, o1) →
  runs (mkInline specs (pending p1 ++ b) (active p1)) (p2, o2) →
  runs (mkInline specs (s ++ b) act) (p2, chunk_app o1 o2).
Proof.
  intros Hu Hok [fuel H]. revert s act p1 o1 Hok H.
  induction fuel as [|fuel IH]; intros s act p1 o1 [Hd Ha] H Hb; [done|].
  cbn [inline_loop active pending inline_specs] in *. destruct act as [a|].
  - destruct (str_find (active_close a) s) as [i|] eqn:Ef.
    + apply bind_Some in H as ([p' o'] & H & [= <- <-]).
      eapply IH in H as [f Hf]; [|by split|exact Hb]. exists (S f).
      cbn [inline_loop active pending inline_specs]. rewrite (str_find_app _ _ b _ Ef).
      apply str_find_Some in Ef as [Ho%occurs_bound _].
      rewrite take_app_le, drop_app_le by lia. rewrite Hf. cbn. by rewrite chunk_app_assoc.
    + injection H as <- <-. rewrite chunk_app_nil_l. cbn [pending active] in Hb.
      destruct (longest_dangling s _ Ha) as [Hdang _].
      assert (Hle : longest_suffix_prefix_len s (active_close a) <= length s) by apply Hdang.
      set (n := length s - longest_suffix_prefix_len s (active_close a)) in *.
      destruct (let_go s _ _ b Ha Ef (le_n _) Hle) as [H1 H2].
      assert (Es : s ++ b = take n s ++ drop n s ++ b) by (by rewrite app_assoc, take_drop).
      rewrite Es. apply runs_content; [done| | |done]; rewrite <- Es.
      * intros j. rewrite length_take. intros Hj. apply H1. lia.
      * intros k Hk%H2. rewrite length_app, length_drop. lia.
  - destruct (find_next_open specs s) as [[i idx]|] eqn:Ef.
    + destruct (specs !! idx) as [spec|] eqn:Hl; [|done]. cbn in H.
      apply bind_Some in H as ([p' o'] & H & [= <- <-]).
      eapply IH in H as [f Hf]; [|by split; [|eapply delimiters_lookup]|exact Hb]. exists (S f).
      cbn [inline_loop active pending inline_specs]. apply find_next_open_Some in Ef.
      rewrite (proj2 (find_next_open_Some _ _ _ _) (is_next_open_app _ _ b _ _ Hu Ef)), Hl. cbn.
      destruct Ef as (spec' & Hl' & Hs & _). rewrite Hl in Hl'. injection Hl' as <-.
      apply str_find_Some in Hs as [Ho%occurs_bound _].
      rewrite take_app_le, drop_app_le by lia. rewrite Hf. cbn. by rewrite chunk_app_assoc.
    + injection H as <- <-. cbn [pending active] in Hb.
      set (n := length s - max_open_prefix_suffix_len specs s) in *.
      assert (Es : s ++ b = take n s ++ drop n s ++ b) by (by rewrite app_assoc, take_drop).
      rewrite find_next_open_None in Ef.
      assert (Hle : max_open_prefix_suffix_len specs s <= length s).
      { destruct (max_open_witness specs s) as [->|(spec & Hin & ->)]; [lia|].
        apply (longest_dangling s). apply list_elem_of_lookup in Hin as [j Hj]. by apply (delimiters_lookup _ _ _ Hd Hj). }
      assert (Hgo : ∀ spec, spec ∈ specs → spec_open spec ≠ []).
      { intros spec [j Hj]%list_elem_of_lookup. by apply (delimiters_lookup _ _ _ Hd Hj). }
      rewrite Es. apply runs_visible; [done| | |done]; rewrite <- Es.
      * intros spec j Hin. rewrite length_take. intros Hj.
        destruct (let_go s _ _ b (Hgo _ Hin) (Ef _ Hin) (max_open_keep specs s spec Hin) Hle) as [H1 _]. apply H1. lia.
      * intros spec k Hin Hk. rewrite length_app, length_drop.
        destruct (let_go s _ _ b (Hgo _ Hin) (Ef _ Hin) (max_open_keep specs s spec Hin) Hle) as [_ H2].
        specialize (H2 k Hk). lia.
Qed.

(** [push_str] in terms of the loop. *)
Lemma push_runs chunk (p : InlineHiddenTagParser T) :
  parser_ok p → runs (mkInline (inline_specs p) (pending p ++ chunk) (active p)) (push_str chunk p).
Proof.
  intros Hok. change (push_str chunk p) with (default (p, empty_chunk) (inline_push_str chunk p)).
  unfold inline_push_str. cbv zeta.
  destruct (inline_loop_total (S (length (pending p ++ chunk)))
    (mkInline (inline_specs p) (pending p ++ chunk) (active p))) as [r E]; [done|simpl; lia|].
  rewrite E. by exists (S (length (pending p ++ chunk))).
Qed.

(** [new] accepts non-empty delimiters only. *)
Lemma inline_new_Some specs p :
  inline_new specs = Some p → p = mkInline specs [] None ∧ delimiters_ok specs.
Proof.
  unfold inline_new. destruct (_ && _) eqn:E; [|done]. intros [= <-]. split; [done|].
  apply andb_true_iff in E as [_ E]. apply Forall_forall. intros spec Hin.
  rewrite forallb_forall in E. specialize (E spec (proj1 (list_elem_of_In _ _) Hin)).
  apply andb_true_iff in E as [E1 E2]. rewrite !negb_true_iff, !seqb_neq in *. done.
Qed.

(** What stays pending is a proper beginning of a delimiter that may follow: of the closer of the
    open tag, or of some opener. *)
Definition starts_only (needle s : str) : Prop := ∃ rest, rest ≠ [] ∧ needle = s ++ rest.

Definition undecided (p : InlineHiddenTagParser T) : Prop :=
  match active p with
  | Some a => starts_only (active_close a) (pending p)
  | None => pending p = [] ∨ ∃ spec, spec ∈ inline_specs p ∧ starts_only (spec_open spec) (pending p)
  end.

Lemma dangling_starts s needle k : dangling s needle k → starts_only needle (drop (length s - k) s).
Proof.
  intros (_ & Hk & ->). exists (drop k needle). split; [|by rewrite take_drop].
  intros E%(f_equal length). rewrite length_drop in E. simpl in E. lia.
Qed.

Lemma runs_undecided p p' out : runs p (p', out) → parser_ok p → undecided p'.
Proof.
  intros [fuel H]. revert p p' out H. induction fuel as [|fuel IH]; intros p p' out H [Hd Ha]; [done|].
  cbn [inline_loop] in H. destruct (active p) as [a|] eqn:Ea.
  - destruct (str_find _ _).
    + apply bind_Some in H as ([p1 o1] & H & [= <- _]). by apply IH in H.
    + injection H as <- _. apply dangling_starts. by apply longest_dangling.
  - destruct (find_next_open _ _) as [[i idx]|].
    + destruct (inline_specs p !! idx) as [spec|] eqn:Hl; [|done]. simpl in H.
      apply bind_Some in H as ([p1 o1] & H & [= <- _]). apply IH in H; [done|]. split; [done|].
      by eapply delimiters_lookup.
    + injection H as <- _. unfold undecided. cbn [active pending inline_specs].
      destruct (max_open_witness (inline_specs p) (pending p)) as [->|(spec & Hin & ->)].
      * left. rewrite Nat.sub_0_r. apply drop_all.
      * right. exists spec. split; [done|]. apply dangling_starts, longest_dangling.
        apply list_elem_of_lookup in Hin as [j Hj]. by eapply delimiters_lookup.
Qed.

(** C38: the loop of the inline-tag parser always ends, and leaves little behind: for delimiters as
    [new] accepts them, pushing any chunk into a parser that was reached from it gives a result
    within as many steps as there are pending characters, plus one, and all that stays pending is
    a proper beginning of the closer of the open tag or, outside of tags, of some opener. *)
Theorem inline_push_terminates specs chunks chunk p0 :
  inline_new specs = Some p0 →
  let p := foldl (fun p c => fst (push_str c p)) p0 chunks in
  ∃ p' out, inline_loop (S (length (pending p ++ chunk))) (mkInline (inline_specs p) (pending p ++ chunk) (active p)) = Some (p', out) ∧
    inline_push_str chunk p = Some (p', out) ∧ inline_specs p' = specs ∧ undecided p'.
Proof.
  intros [-> Hd]%inline_new_Some. set (p0 := mkInline specs [] None).
  assert (H0 : parser_ok p0 ∧ inline_specs p0 = specs) by done. clearbody p0. cbv zeta.
  assert (Hok : let p := foldl (fun p c => fst (push_str c p)) p0 chunks in parser_ok p ∧ inline_specs p = specs).
  { revert p0 H0. induction chunks as [|c cs IH]; intros p0 H0; [done|]. apply IH. destruct H0 as [H0 Hs].
    pose proof (push_runs c p0 H0) as Hr. destruct (push_str c p0) as [p' o]. apply runs_ok in Hr as [? E]; [|done].
    split; [done|]. cbn. by rewrite E. }
  destruct Hok as [Hok Hs]. set (p := foldl _ p0 chunks) in *. clearbody p.
  destruct (inline_loop_total (S (length (pending p ++ chunk))) (mkInline (inline_specs p) (pending p ++ chunk) (active p)))
    as [[p' out] E]; [done|simpl; lia|].
  assert (runs (mkInline (inline_specs p) (pending p ++ chunk) (active p)) (p', out)) as Hr by (by eexists).
  exists p', out. split; [done|]. split; [exact E|]. split; [|by eapply runs_undecided].
  apply runs_ok in Hr as [_ Hr]; [|done]. by rewrite Hr.
Qed.
End inline_facts.

Lemma inline_push_terminates_witness :
  ∃ p' out, inline_push_str (lit "<oai") (foldl (fun p c => fst (push_str c p)) (mkInline citation_specs [] None) [lit "a<"]) = Some (p', out) ∧
    undecided p'.
Proof.
  destruct (inline_push_terminates citation_specs [lit "a<"] (lit "<oai") (mkInline citation_specs [] None)) as (p' & out & _ & E & _ & H);
    [vm_compute; reflexivity|]. exists p', out. split; [exact E|exact H].
Defined.
