(* ===== verification/StreamTextFacts.v ===== *)
(** * Streaming does not depend on the chunks

    The law of [StreamTextParser]s, the parsers that obey it, and what follows for every
    such parser: the chunks, and the bytes, in which a text arrives do not matter. *)

From S2P Require Import Prelude RustStr MachineInt Utf8 StreamText StreamInlineFacts.
Open Scope nat_scope.
#[local] Arguments lit : simpl never.

(** ** The law

    [ok] is the invariant of the parser's states and [R] the equivalence of payloads:
    pushing two pieces one after the other is pushing both at once. *)

Definition chunk_equiv {X} (R : relation (list X)) (a b : StreamTextChunk X) : Prop :=
  visible_text a = visible_text b ∧ R (extracted a) (extracted b).

Class LawfulStreamParser (P X : Type) `{StreamTextParser P X} (ok : P → Prop) (R : relation (list X)) := {
  payload_equiv :: Equivalence R;
  payload_app :: Proper (R ==> R ==> R) (++);
  push_ok s p : ok p → ok (fst (push_str s p));
  push_nil p : ok p → push_str [] p = (p, empty_chunk);
  push_app a b p : ok p →
    fst (push_str (a ++ b) p) = fst (push_str b (fst (push_str a p))) ∧
    chunk_equiv R (snd (push_str (a ++ b) p))
      (chunk_app (snd (push_str a p)) (snd (push_str b (fst (push_str a p)))))
}.

Section collect.
Context {P X : Type} `{SP : StreamTextParser P X}.

(** Feeding the chunks of a stream, and ending it. *)
Fixpoint push_strs (chunks : list str) (p : P) : P * StreamTextChunk X :=
  match chunks with
  | [] => (p, empty_chunk)
  | c :: cs =>
      let '(p, out) := push_str c p in
      let '(p, rest) := push_strs cs p in
      (p, chunk_app out rest)
  end.

Definition collect_chunks (chunks : list str) (p : P) : StreamTextChunk X :=
  let '(p, out) := push_strs chunks p in
  chunk_app out (snd (finish p)).

Context (ok : P → Prop) (R : relation (list X)) `{L : !LawfulStreamParser P X ok R}.

#[export] Instance chunk_equiv_equivalence : Equivalence (chunk_equiv R).
Proof.
  split.
  - intros c. split; [done|reflexivity].
  - intros a b [? ?]. split; [done|by symmetry].
  - intros a b c [? ?] [? ?]. split; [congruence|by etransitivity].
Qed.

#[export] Instance chunk_app_proper : Proper (chunk_equiv R ==> chunk_equiv R ==> chunk_equiv R) chunk_app.
Proof. intros a a' [Ha Ra] b b' [Hb Rb]. split; simpl; [congruence|by apply payload_app]. Qed.

Lemma push_strs_concat chunks p :
  ok p → ok (fst (push_strs chunks p)) ∧
  fst (push_strs chunks p) = fst (push_str (concat chunks) p) ∧
  chunk_equiv R (snd (push_strs chunks p)) (snd (push_str (concat chunks) p)).
Proof.
  revert p. induction chunks as [|c cs IH]; intros p Hp; cbn [push_strs concat].
  - by rewrite push_nil.
  - pose proof (push_ok c p Hp) as H1. destruct (push_app c (concat cs) p Hp) as [E1 E2].
    destruct (push_str c p) as [p1 o1]. cbn [fst snd] in *. destruct (IH p1 H1) as (K1 & K2 & K3).
    destruct (push_strs cs p1) as [p2 o2]. cbn [fst snd] in *. split; [done|]. split; [congruence|].
    rewrite E2. by rewrite K3.
Qed.

Lemma collect_concat chunks p :
  ok p → chunk_equiv R (collect_chunks chunks p) (collect_chunks [concat chunks] p).
Proof.
  intros Hp. destruct (push_strs_concat chunks p Hp) as (_ & E & Ho).
  unfold collect_chunks. cbn [push_strs]. destruct (push_strs chunks p) as [p1 o1].
  destruct (push_str (concat chunks) p) as [p2 o2]. cbn [fst snd] in *. subst p2.
  by rewrite chunk_app_nil_r, Ho.
Qed.
End collect.

(** ** Hidden inline tags obey it *)

Section inline_law.
Context {T : Type}.

(** The parser has nothing more to say about what it has. *)
Definition inline_ok (p : InlineHiddenTagParser T) : Prop :=
  parser_ok p ∧ unambiguous (inline_specs p) ∧ push_str [] p = (p, empty_chunk).

Lemma chunk_app_cancel {X} (a b : StreamTextChunk X) : chunk_app a b = a → b = empty_chunk.
Proof.
  destruct a as [v e], b as [w f]. unfold chunk_app. simpl. intros [= H1 H2].
  rewrite <- (app_nil_r v) in H1 at 2. rewrite <- (app_nil_r e) in H2 at 2.
  apply app_inv_head in H1, H2. by subst.
Qed.

Lemma inline_push_app a b (p : InlineHiddenTagParser T) :
  parser_ok p → unambiguous (inline_specs p) →
  push_str (a ++ b) p =
    (fst (push_str b (fst (push_str a p))),
     chunk_app (snd (push_str a p)) (snd (push_str b (fst (push_str a p))))).
Proof.
  intros Hok Hu. pose proof (push_runs a p Hok) as Ha.
  destruct (push_str a p) as [p1 o1] eqn:E1. cbn [fst snd].
  destruct (runs_ok _ _ _ Ha) as [Hok1 Hs1]; [done|]. cbn in Hs1.
  pose proof (push_runs b p1 Hok1) as Hb. destruct (push_str b p1) as [p2 o2] eqn:E2. cbn [fst snd].
  pose proof (push_runs (a ++ b) p Hok) as Hab. rewrite Hs1 in Hb. rewrite app_assoc in Hab.
  apply (runs_det _ _ _ Hab). by eapply runs_app.
Qed.

Lemma inline_push_ok s (p : InlineHiddenTagParser T) : inline_ok p → inline_ok (fst (push_str s p)).
Proof.
  intros (Hok & Hu & _). pose proof (push_runs s p Hok) as Hr.
  pose proof (inline_push_app s [] p Hok Hu) as Hn. rewrite app_nil_r in Hn.
  destruct (push_str s p) as [p1 o1] eqn:E1. cbn [fst snd] in *.
  destruct (runs_ok _ _ _ Hr) as [Hok1 Hs1]; [done|]. split; [done|]. rewrite Hs1. split; [done|].
  destruct (push_str [] p1) as [p2 o2]. cbn [fst snd] in Hn. injection Hn as -> Ho.
  symmetry in Ho. by rewrite (chunk_app_cancel _ _ Ho).
Qed.

#[export] Instance inline_lawful : LawfulStreamParser (InlineHiddenTagParser T) (ExtractedInlineTag T) inline_ok eq.
Proof.
  split; try apply _.
  - intros s p Hp. by apply inline_push_ok.
  - by intros p (_ & _ & ?).
  - intros a b p (Hok & Hu & _). rewrite inline_push_app by done. by split.
Qed.

Lemma inline_new_ok (specs : list (InlineTagSpec T)) p : inline_new specs = Some p → unambiguous specs → inline_ok p.
Proof.
  intros [-> Hd]%inline_new_Some Hu.
  split; [done|]. split; [done|].
  assert (Hn : find_next_open specs [] = None).
  { apply find_next_open_None. intros spec [i Hi]%list_elem_of_lookup.
    apply str_find_None. intros j Ho%occurs_bound. destruct (delimiters_lookup _ _ _ Hd Hi) as [Hne _].
    destruct (spec_open spec); simpl in *; [done|lia]. }
  unfold push_str. cbn [inline_parser]. unfold inline_push_str. cbn [pending inline_specs active app length inline_loop].
  rewrite Hn. cbn. by rewrite take_nil, drop_nil.
Qed.

(** What hidden inline tags a stream contains does not depend on how it is cut: unless one
    opener is part of another, feeding the chunks of a text one by one and ending the
    stream shows and extracts exactly what the whole text at once does. *)
Theorem inline_chunking_irrelevant (specs : list (InlineTagSpec T)) p chunks :
  inline_new specs = Some p → unambiguous specs →
  collect_chunks chunks p = collect_chunks [concat chunks] p.
Proof.
  intros Hnew Hu. destruct (collect_concat inline_ok eq chunks p (inline_new_ok specs p Hnew Hu)) as [H1 H2].
  destruct (collect_chunks chunks p), (collect_chunks [concat chunks] p). simpl in *. by subst.
Qed.
End inline_law.

Lemma unambiguous_one {T} (spec : InlineTagSpec T) : unambiguous [spec].
Proof. intros s1 s2 i. rewrite !list_elem_of_singleton. by intros -> ->. Qed.

Lemma inline_chunking_irrelevant_witness :
  collect_chunks [lit "a<oai-mem-"; lit "citation>x</oai-mem"; lit "-citation>b"] (mkInline citation_specs [] None) =
  mkChunk (lit "ab") [mkExtracted Citation (lit "x")].
Proof.
  rewrite (inline_chunking_irrelevant citation_specs (mkInline citation_specs [] None)).
  - vm_compute. reflexivity.
  - vm_compute. reflexivity.
  - apply unambiguous_one.
Defined.

(** With an opener inside another, the cut decides: the longer opener is only seen when it
    arrives in one piece. *)
Lemma nested_openers_depend_on_chunks :
  let p := mkInline [mkSpec 1 (lit "<a") (lit "</a"); mkSpec 2 (lit "<a>") (lit "</a>")] [] None in
  extracted (collect_chunks [lit "<a>x"] p) = [mkExtracted 2 (lit "x")] ∧
  extracted (collect_chunks [lit "<a"; lit ">x"] p) = [mkExtracted 1 (lit ">x")].
Proof. split; vm_compute; reflexivity. Qed.

(** ** Citations *)

Section delimited.
Context (opener closer : str).

(** What the visible text and the bodies of a text are: the text up to the first opener is
    visible, the text from there to the first closer is a body, and so on; a body that
    is not closed ends with the text. *)
Inductive delimited : str → str → list str → Prop :=
| delimited_none text : str_find opener text = None → delimited text text []
| delimited_unclosed text before body :
    text = before ++ opener ++ body → str_find opener text = Some (length before) →
    str_find closer body = None → delimited text before [body]
| delimited_closed text before inside body rest visible bodies :
    text = before ++ opener ++ inside → str_find opener text = Some (length before) →
    inside = body ++ closer ++ rest → str_find closer inside = Some (length body) →
    delimited rest visible bodies →
    delimited text (before ++ visible) (body :: bodies).

(** A text has one beginning of a given length. *)
Lemma same_split (a b d x y : str) i :
  a ++ d ++ x = b ++ d ++ y → Some (length a) = Some i → Some (length b) = Some i → a = b ∧ x = y.
Proof.
  intros E [= Ha] [= Hb]. apply app_inj_1 in E as [-> E]; [|lia]. by apply app_inv_head in E.
Qed.

Lemma delimited_unique text v bs v' bs' : delimited text v bs → delimited text v' bs' → v = v' ∧ bs = bs'.
Proof.
  intros H. revert v' bs'.
  induction H as [text H1|text b y E H1 H2|text b n y r v bs E H1 En H2 _ IH]; intros v' bs' H';
    destruct H' as [text H1'|text b' y' E' H1' H2'|text b' n' y' r' v' bs' E' H1' En' H2' Hr].
  all: try congruence.
  - done.
  - rewrite E in E'. destruct (same_split _ _ _ _ _ (length b) E') as [<- <-]; [done|congruence|done].
  - rewrite E in E'. destruct (same_split _ _ _ _ _ (length b) E') as [<- <-]; [done|congruence|congruence].
  - rewrite E in E'. destruct (same_split _ _ _ _ _ (length b) E') as [<- <-]; [done|congruence|congruence].
  - rewrite E in E'. destruct (same_split _ _ _ _ _ (length b) E') as [<- <-]; [done|congruence|].
    rewrite En in En'. destruct (same_split _ _ _ _ _ (length y) En') as [<- <-]; [done|congruence|].
    destruct (IH _ _ Hr) as [<- <-]. done.
Qed.

(** Splitting a text at what is found in it. *)
Lemma str_find_split needle s i :
  str_find needle s = Some i → s = take i s ++ needle ++ drop (i + length needle) s ∧ length (take i s) = i.
Proof.
  intros [Ho _]%str_find_Some. pose proof (occurs_bound _ _ _ Ho). destruct Ho as [Hi [rest E]].
  rewrite length_take. split; [|lia].
  rewrite <- drop_drop, E, drop_app_length, <- E. by rewrite take_drop.
Qed.

Context {T : Type} (tag : T).

Lemma find_next_open_one s :
  find_next_open [mkSpec tag opener closer] s = (fun i => (i, 0)) <$> str_find opener s.
Proof.
  unfold find_next_open, open_candidates. cbn [imap omap list_omap spec_open].
  by destruct (str_find opener s).
Qed.

(** What the loop and the end of the stream give together. *)
Lemma runs_delimited s p o :
  runs (mkInline [mkSpec tag opener closer] s None) (p, o) →
  let c := chunk_app o (snd (inline_finish p)) in
  delimited s (visible_text c) (map extracted_content (extracted c)).
Proof.
  intros [fuel H]. revert s p o H. induction fuel as [fuel IH] using lt_wf_ind. intros s p o H.
  destruct fuel as [|fuel]; [done|]. cbn [inline_loop active pending inline_specs] in H.
  rewrite find_next_open_one in H. destruct (str_find opener s) as [i|] eqn:Ef; cbn [fmap option_fmap option_map] in H.
  - cbn in H. apply bind_Some in H as ([p1 o1] & H & [= <- <-]).
    destruct (str_find_split _ _ _ Ef) as [Es Hl]. rewrite <- Hl in Ef.
    set (before := take i s) in *. set (r := drop (i + length opener) s) in *. clearbody before r.
    destruct fuel as [|fuel]; [done|]. cbn [inline_loop active pending inline_specs active_close] in H.
    destruct (str_find closer r) as [j|] eqn:Ej.
    + apply bind_Some in H as ([p2 o2] & H & [= <- <-]).
      destruct (str_find_split _ _ _ Ej) as [Er Hj]. rewrite <- Hj in Ej.
      apply IH in H; [|lia]. cbn. rewrite <- app_assoc. by eapply delimited_closed.
    + injection H as <- <-. cbn. rewrite take_drop, !app_nil_r. by eapply delimited_unclosed.
  - injection H as <- <-. cbn. rewrite take_drop. by apply delimited_none.
Qed.
End delimited.

Lemma citation_push text p :
  push_str text (mkCitation p) = (mkCitation (fst (push_str text p)), citation_chunk (snd (push_str text p))).
Proof. unfold push_str at 1. cbn [citation_parser citation_inner]. by destruct (push_str text p). Qed.

Lemma citation_finish p :
  finish (mkCitation p) = (mkCitation (fst (inline_finish p)), citation_chunk (snd (inline_finish p))).
Proof. unfold finish at 1. cbn [citation_parser citation_inner]. unfold finish. cbn [inline_parser]. by destruct (inline_finish p). Qed.

Lemma citation_chunk_app a b : citation_chunk (chunk_app a b) = chunk_app (citation_chunk a) (citation_chunk b).
Proof. unfold citation_chunk, chunk_app. cbn [visible_text extracted]. by rewrite map_app. Qed.

Lemma citation_specs_ok : parser_ok (mkInline citation_specs [] None).
Proof. split; [|done]. apply Forall_singleton. split; unfold CITATION_OPEN, CITATION_CLOSE; vm_compute; discriminate. Qed.

(** [strip_citations] is what its documentation says: its visible text and citations are
    the ones, and the only ones, that reading the text from opener to closer gives, with an
    unterminated citation closed at the end. *)
Theorem strip_citations_spec text v cs :
  strip_citations text = (v, cs) ↔ delimited CITATION_OPEN CITATION_CLOSE text v cs.
Proof.
  assert (H : delimited CITATION_OPEN CITATION_CLOSE text (fst (strip_citations text)) (snd (strip_citations text))).
  { pose proof (push_runs text _ citation_specs_ok) as Hr. unfold strip_citations, citation_new.
    rewrite citation_push, citation_finish, <- citation_chunk_app.
    destruct (push_str text (mkInline citation_specs [] None)) as [p o]. exact (runs_delimited _ _ _ _ _ _ Hr). }
  split.
  - intros E. by rewrite E in H.
  - intros H'. destruct (strip_citations text) as [v0 cs0].
    by destruct (delimited_unique _ _ _ _ _ _ _ H H') as [<- <-].
Qed.

Definition citation_ok (p : CitationStreamParser) : Prop := inline_ok (citation_inner p).

#[export] Instance citation_lawful : LawfulStreamParser CitationStreamParser str citation_ok eq.
Proof.
  split; try apply _.
  - intros s [p] Hp. rewrite citation_push. by apply inline_push_ok.
  - intros [p] (_ & _ & Hp). cbn [citation_inner] in Hp. by rewrite citation_push, Hp.
  - intros a b [p] (Hok & Hu & _). cbn [citation_inner] in *. rewrite !citation_push. cbn [fst snd]. rewrite citation_push. cbn [fst snd].
    rewrite inline_push_app by done. cbn [fst snd]. rewrite citation_chunk_app. done.
Qed.

Lemma citation_new_ok : citation_ok citation_new.
Proof. apply (inline_new_ok citation_specs); [vm_compute; reflexivity|apply unambiguous_one]. Qed.

(** ** Bytes *)

Section bytes.
Context {P X : Type} `{SP : StreamTextParser P X}.

Fixpoint push_all_bytes (chunks : list (list N)) (p : Utf8StreamParser P) :
    Utf8StreamParser P * result (StreamTextChunk X) Utf8StreamParserError :=
  match chunks with
  | [] => (p, Ok empty_chunk)
  | c :: cs =>
      match push_bytes c p with
      | (p, Err e) => (p, Err e)
      | (p, Ok out) =>
          match push_all_bytes cs p with
          | (p, Err e) => (p, Err e)
          | (p, Ok rest) => (p, Ok (chunk_app out rest))
          end
      end
  end.

(** A chunk that is not UTF-8 leaves the parser as it was. *)
Lemma push_bytes_rolls_back chunk (p q : Utf8StreamParser P) e : push_bytes chunk p = (q, Err e) → q = p.
Proof.
  unfold push_bytes. repeat case_match; intros; simplify_eq; done.
Qed.

Context (ok : P → Prop) (R : relation (list X)) `{L : !LawfulStreamParser P X ok R}.

(** One chunk of the bytes of a text: its characters reach the inner parser, and the
    beginning of the next one stays. *)
Lemma push_bytes_step p t c rest s :
  ok p → scalars s → t ++ c ++ rest = encode s →
  ∃ s1 s2 t', s = s1 ++ s2 ∧ t' ++ rest = encode s2 ∧ (t' = [] ∨ partial_char t') ∧
    push_bytes c (mkUtf8Stream p t) = (mkUtf8Stream (fst (push_str s1 p)) t', Ok (snd (push_str s1 p))).
Proof.
  intros Hp Hs E. rewrite app_assoc in E.
  destruct (encode_cut s (t ++ c) rest Hs E) as (s1 & s2 & t' & -> & Ec & Ht' & E2).
  apply Forall_app in Hs as [Hs1 Hs2]. exists s1, s2, t'. split; [done|]. split; [done|]. split; [done|].
  unfold push_bytes. cbn [pending_utf8 utf8_inner]. rewrite Ec. destruct Ht' as [->|Ht'].
  - rewrite app_nil_r, from_utf8_encode by done. by destruct (push_str s1 p).
  - rewrite from_utf8_partial by done. cbn [error_len valid_up_to].
    destruct (N.eqb_spec (vec_len (encode s1)) 0) as [E0|E0].
    + apply vec_len_nil in E0. destruct s1 as [|x s1].
      * cbn [encode map concat app]. by rewrite push_nil.
      * rewrite encode_cons in E0. apply app_nil in E0 as [E0 _]. pose proof (encode_char_nonempty x).
        rewrite E0 in *. cbn in *. lia.
    + assert (Hsl : slice_to (vec_len (encode s1)) (encode s1 ++ t') = encode s1 ∧
                    slice_from (vec_len (encode s1)) (encode s1 ++ t') = t').
      { unfold slice_to, slice_from, vec_len. rewrite Nat2N.id, take_app_length, drop_app_length. done. }
      destruct Hsl as [-> ->]. rewrite from_utf8_encode by done. by destruct (push_str s1 p).
Qed.

Lemma push_all_bytes_text chunks p t s :
  ok p → scalars s → t ++ concat chunks = encode s → (t = [] ∨ partial_char t) →
  ∃ s1 s2 t' out, s = s1 ++ s2 ∧ t' = encode s2 ∧ (t' = [] ∨ partial_char t') ∧
    push_all_bytes chunks (mkUtf8Stream p t) = (mkUtf8Stream (fst (push_str s1 p)) t', Ok out) ∧
    chunk_equiv R out (snd (push_str s1 p)).
Proof.
  revert p t s. induction chunks as [|c cs IH]; intros p t s Hp Hs E Ht; cbn [push_all_bytes concat] in *.
  - rewrite app_nil_r in E. exists [], s, t, empty_chunk. rewrite push_nil by done. split; [done|]. split; [done|].
    split; [done|]. split; [done|]. by split; [|reflexivity].
  - destruct (push_bytes_step p t c (concat cs) s Hp Hs E) as (s1 & s2 & t1 & -> & E1 & Ht1 & ->).
    apply Forall_app in Hs as [Hs1 Hs2]. pose proof (push_ok s1 p Hp) as Hp1.
    destruct (IH _ _ _ Hp1 Hs2 E1 Ht1) as (s3 & s4 & t2 & out & -> & E2 & Ht2 & -> & Ho).
    destruct (push_app s1 s3 p Hp) as [A1 A2].
    exists (s1 ++ s3), s4, t2, (chunk_app (snd (push_str s1 p)) out). rewrite <- app_assoc, A1.
    split; [done|]. split; [done|]. split; [done|]. split; [done|].
    etransitivity; [|symmetry; exact A2]. apply (chunk_app_proper ok R); [reflexivity|exact Ho].
Qed.

Lemma partial_not_text t s : partial_char t → scalars s → t = encode s → False.
Proof.
  intros Ht Hs E. pose proof (from_utf8_partial [] t ltac:(constructor) Ht) as H1.
  cbn [encode map concat app] in H1. rewrite E, from_utf8_encode in H1 by done. done.
Qed.

(** A text may arrive as bytes in any pieces, cut inside characters too: for every parser
    that obeys the chunk law, no push fails and what is shown and extracted in all is what
    the inner parser gives for the whole text. *)
Theorem utf8_stream_transparent p s chunks :
  ok p → scalars s → concat chunks = encode s →
  ∃ q q' out tail, push_all_bytes chunks (utf8_new p) = (q, Ok out) ∧ utf8_finish q = (q', Ok tail) ∧
    chunk_equiv R (chunk_app out tail) (collect_chunks [s] p).
Proof.
  intros Hp Hs E. destruct (push_all_bytes_text chunks p [] s Hp Hs E (or_introl eq_refl))
    as (s1 & s2 & t & out & -> & Et & Ht & Eq & Ho).
  apply Forall_app in Hs as [Hs1 Hs2].
  destruct Ht as [->|Ht]; [|by destruct (partial_not_text _ _ Ht Hs2 Et)].
  assert (s2 = []) as ->.
  { destruct s2 as [|x s2]; [done|]. rewrite encode_cons in Et. symmetry in Et. apply app_nil in Et as [Et _].
    pose proof (encode_char_nonempty x). rewrite Et in *. cbn in *. lia. }
  rewrite app_nil_r. unfold collect_chunks. cbn [push_strs]. destruct (push_str s1 p) as [p1 o1]. cbn [fst snd] in *.
  destruct (finish p1) as [p2 tail] eqn:Ef. exists (mkUtf8Stream p1 []), (mkUtf8Stream p2 []), out, tail.
  split; [exact Eq|]. unfold utf8_finish. cbn [pending_utf8 utf8_inner]. rewrite Ef, chunk_app_nil_l. split; [done|].
  rewrite chunk_app_nil_r. apply (chunk_app_proper ok R); [exact Ho|reflexivity].
Qed.
End bytes.

Lemma utf8_stream_transparent_witness :
  ∃ q q' out tail, push_all_bytes [[65; 195]; [169]; [90]]%N (utf8_new citation_new) = (q, Ok out) ∧
    utf8_finish q = (q', Ok tail) ∧
    chunk_equiv eq (chunk_app out tail) (collect_chunks [[65; 233; 90]%N] citation_new).
Proof.
  apply (utf8_stream_transparent citation_ok eq citation_new [65; 233; 90]%N [[65; 195]; [169]; [90]]%N).
  - exact citation_new_ok.
  - repeat constructor; vm_compute; (left; reflexivity) || (right; split; (reflexivity || discriminate)).
  - vm_compute. reflexivity.
Defined.
