(* ===== verification/StreamLineFacts.v ===== *)
(** * Blocks of tagged lines, however the text is cut

    The line parser decides character by character whether a line may still be a tag;
    what it gives is what reading the text line by line gives, whatever the chunks. *)

From S2P Require Import Prelude RustStr MachineInt Utf8 StreamText StreamInlineFacts StreamTextFacts.
Open Scope nat_scope.
#[local] Arguments lit : simpl never.

Section lines.
Context {T : Type} `{!EqDecision T}.
Implicit Types (segs : list (TaggedLineSegment T)) (p : TaggedLineParser T) (tag : option T).

(** ** Merging segments *)

(** Adjacent pieces of the same text as one segment. *)
Definition merge segs : list (TaggedLineSegment T) := foldl push_segment [] segs.

(** Text joins a last segment of the same kind, and starts a segment otherwise. *)
Lemma push_text_join segs tag u b :
  b ≠ [] → push_segment (segs ++ [text_segment tag u]) (text_segment tag b) = segs ++ [text_segment tag (u ++ b)].
Proof.
  intros Hb. destruct b as [|y b]; [done|].
  destruct tag; cbn [text_segment push_segment]; rewrite last_snoc, ?decide_True by done; by rewrite update_last_snoc.
Qed.

Lemma text_segment_cases segs tag :
  (∃ l u, segs = l ++ [text_segment tag u]) ∨
  (∀ b, b ≠ [] → push_segment segs (text_segment tag b) = segs ++ [text_segment tag b]).
Proof.
  destruct (list_snoc_case segs) as [->|(l & s & ->)].
  - right. intros [|y b] Hb; [done|]. by destruct tag.
  - destruct tag as [t|]; destruct s as [u|t'|t' u|t'].
    2,4: right; intros [|y b] Hb; [done|]; cbn; by rewrite last_snoc.
    2: destruct (decide (t' = t)) as [->|Hne]; [by left; exists l, u|].
    3: by left; exists l, u.
    all: right; intros [|y b] Hb; [done|]; cbn; rewrite last_snoc; try done.
    by rewrite decide_False by done.
Qed.

Lemma push_segment_text segs tag a b :
  push_segment (push_segment segs (text_segment tag a)) (text_segment tag b) =
  push_segment segs (text_segment tag (a ++ b)).
Proof.
  destruct (decide (a = [])) as [->|Ha]; [by destruct tag|].
  destruct (decide (b = [])) as [->|Hb]; [rewrite app_nil_r; by destruct tag|].
  assert (Hab : a ++ b ≠ []) by (by intros [? _]%app_nil).
  destruct (text_segment_cases segs tag) as [(l & u & ->)|Hn].
  - by rewrite !push_text_join, app_assoc by done.
  - by rewrite !Hn, push_text_join by done.
Qed.

(** Merging what was merged before. *)
Lemma foldl_push_text acc segs tag b :
  foldl push_segment acc (push_segment segs (text_segment tag b)) =
  push_segment (foldl push_segment acc segs) (text_segment tag b).
Proof.
  destruct (decide (b = [])) as [->|Hb]; [by destruct tag|].
  destruct (text_segment_cases segs tag) as [(l & u & ->)|Hn].
  - by rewrite push_text_join, !foldl_snoc, push_segment_text by done.
  - by rewrite Hn, foldl_snoc by done.
Qed.

Lemma foldl_push_segment acc segs x :
  foldl push_segment acc (push_segment segs x) = push_segment (foldl push_segment acc segs) x.
Proof.
  destruct x as [u|t|t u|t]; [apply (foldl_push_text _ _ None)| |apply (foldl_push_text _ _ (Some t))|];
    apply foldl_snoc.
Qed.

Lemma foldl_merge acc segs : foldl push_segment acc (merge segs) = foldl push_segment acc segs.
Proof.
  induction segs as [|x segs IH] using rev_ind; [done|]. unfold merge in *.
  by rewrite !foldl_snoc, foldl_push_segment, IH.
Qed.

Lemma merge_app a b : merge (a ++ b) = foldl push_segment (merge a) b.
Proof. unfold merge. apply foldl_app. Qed.

Lemma merge_idemp segs : merge (merge segs) = merge segs.
Proof. apply foldl_merge. Qed.

Lemma merge_merge_app a b : merge (merge a ++ merge b) = merge (a ++ b).
Proof. by rewrite !merge_app, foldl_merge, merge_idemp. Qed.

(** ** One character at a time *)

Definition raw_char p (ch : char) : TaggedLineParser T * list (TaggedLineSegment T) :=
  if detect_tag p then
    let q := mkTagged (tag_specs p) (current_tag p) true (line_buffer p ++ [ch]) in
    if (ch =? nl)%N then
      let '(tag, segment) := line_segment q (line_buffer q) in (mkTagged (tag_specs p) tag true [], [segment])
    else
      let slug := trim_start (line_buffer q) in
      if seqb slug [] || is_tag_prefix (tag_specs p) slug then (q, [])
      else (mkTagged (tag_specs p) (current_tag p) false [], [text_segment (current_tag p) (line_buffer q)])
  else (mkTagged (tag_specs p) (current_tag p) (ch =? nl)%N (line_buffer p), [text_segment (current_tag p) [ch]]).

Fixpoint raw_parse p (s : str) : TaggedLineParser T * list (TaggedLineSegment T) :=
  match s with
  | [] => (p, [])
  | ch :: s =>
      let '(p, out) := raw_char p ch in
      let '(p, rest) := raw_parse p s in
      (p, out ++ rest)
  end.

Lemma raw_parse_app p s t :
  raw_parse p (s ++ t) =
    (fst (raw_parse (fst (raw_parse p s)) t), snd (raw_parse p s) ++ snd (raw_parse (fst (raw_parse p s)) t)).
Proof.
  revert p. induction s as [|c s IH]; intros p; cbn [raw_parse app fst snd]; [by destruct (raw_parse p t)|].
  destruct (raw_char p c) as [q o]. rewrite IH. destruct (raw_parse q s) as [q' o']. cbn [fst snd].
  by rewrite app_assoc.
Qed.

Definition flush p (run : str) segs : list (TaggedLineSegment T) :=
  match run with [] => segs | _ => push_text p run segs end.

Lemma flush_push p run segs : flush p run segs = push_segment segs (text_segment (current_tag p) run).
Proof. destruct run; [|done]. cbn. by destruct (current_tag p). Qed.

(** A pending run of text is text that is flushed later. *)
Lemma parse_char_raw p run segs ch :
  (detect_tag p = true → run = []) →
  ∃ run' segs', parse_char (p, run, segs) ch = (fst (raw_char p ch), run', segs') ∧
    (detect_tag (fst (raw_char p ch)) = true → run' = []) ∧
    flush (fst (raw_char p ch)) run' segs' = foldl push_segment (flush p run segs) (snd (raw_char p ch)).
Proof.
  intros Hrun. unfold parse_char, raw_char. destruct (detect_tag p) eqn:Ed.
  - rewrite (Hrun eq_refl). destruct (ch =? nl)%N.
    + unfold finish_line. cbn [tag_specs line_buffer]. destruct (line_segment _ _) as [tag seg].
      by eexists _, _.
    + cbn [tag_specs line_buffer]. destruct (seqb _ _ || is_tag_prefix _ _); [by eexists _, _|].
      eexists _, _. split; [done|]. split; [done|]. done.
  - destruct (ch =? nl)%N eqn:En.
    + eexists _, _. split; [done|]. split; [done|]. cbn [fst snd foldl]. rewrite !flush_push.
      unfold push_text. cbn [current_tag]. by rewrite !push_segment_text, app_nil_r.
    + eexists _, _. split; [destruct p; cbn in *; by subst|]. split; [done|]. cbn [fst snd foldl].
      rewrite !flush_push. cbn [current_tag]. by rewrite push_segment_text.
Qed.

Lemma parse_chars_raw s p run segs :
  (detect_tag p = true → run = []) →
  ∃ run' segs', foldl parse_char (p, run, segs) s = (fst (raw_parse p s), run', segs') ∧
    flush (fst (raw_parse p s)) run' segs' = foldl push_segment (flush p run segs) (snd (raw_parse p s)).
Proof.
  revert p run segs. induction s as [|ch s IH]; intros p run segs Hrun; cbn [foldl raw_parse]; [by eexists _, _|].
  destruct (parse_char_raw p run segs ch Hrun) as (run1 & segs1 & -> & Hr1 & E1).
  destruct (raw_char p ch) as [p1 o1]. cbn [fst snd] in *.
  destruct (IH p1 run1 segs1 Hr1) as (run2 & segs2 & -> & E2).
  destruct (raw_parse p1 s) as [p2 o2]. cbn [fst snd] in *.
  exists run2, segs2. split; [done|]. by rewrite E2, E1, foldl_app.
Qed.

(** [parse] in terms of single characters. *)
Lemma tagged_parse_raw s p : tagged_parse s p = (fst (raw_parse p s), merge (snd (raw_parse p s))).
Proof.
  unfold tagged_parse. destruct (parse_chars_raw s p [] [] ltac:(done)) as (run & segs & -> & E).
  f_equal. exact E.
Qed.

(** ** The line as a whole *)

Context (specs : list (TagSpec T)).

Definition fresh tag : TaggedLineParser T := mkTagged specs tag true [].

(** The text line by line: every line is a tag or text, and an open tag ends with the text. *)
Fixpoint line_segments tag (ls : list str) : list (TaggedLineSegment T) :=
  match ls with
  | [] => match tag with Some t => [TagEnd t] | None => [] end
  | l :: ls => let '(tag, segment) := line_segment (fresh tag) l in segment :: line_segments tag ls
  end.

(** What the first characters of a line leave of its slug. *)
Lemma trim_start_app v w : trim_start v ≠ [] → trim_start (v ++ w) = trim_start v ++ w.
Proof. induction v as [|c v IH]; cbn; [done|]. destruct (is_whitespace c); [exact IH|done]. Qed.

Lemma trim_end_app_prefix v w : ∃ r, trim_end (v ++ w) = trim_end v ++ r.
Proof.
  induction v as [|c v [r IH]]; cbn; [by eexists|]. rewrite IH.
  destruct (trim_end v) as [|d t]; cbn.
  - destruct r; destruct (is_whitespace c); by eexists.
  - by exists r.
Qed.

Lemma slug_prefix v w : trim_start v ≠ [] → ∃ r, trim (v ++ w) = trim_end (trim_start v) ++ r.
Proof. intros Hv. unfold trim. rewrite trim_start_app by done. apply trim_end_app_prefix. Qed.

(** A line whose beginning is no beginning of a tag is text. *)
Definition no_tag v : Prop := trim_start v ≠ [] ∧ is_tag_prefix specs (trim_start v) = false.

Lemma no_tag_match v w :
  no_tag v → match_open specs (trim (v ++ w)) = None ∧ match_close specs (trim (v ++ w)) = None.
Proof.
  intros [Hv Hp]. destruct (slug_prefix v w Hv) as [r Hr].
  assert (Hno : ∀ spec, spec ∈ specs → open_line spec ≠ trim (v ++ w) ∧ close_line spec ≠ trim (v ++ w)).
  { intros spec Hs. unfold is_tag_prefix in Hp. rewrite Hr. split; intros E.
    all: enough (existsb (fun spec => starts_with (trim_end (trim_start v)) (open_line spec) || starts_with (trim_end (trim_start v)) (close_line spec)) specs = true) by congruence.
    all: apply existsb_exists; exists spec; split; [by apply list_elem_of_In|]; rewrite E; apply orb_true_iff.
    - left. apply starts_with_spec. by eexists.
    - right. apply starts_with_spec. by eexists. }
  clear Hp Hr. unfold match_open, match_close. revert Hno. generalize specs. intros l Hno.
  induction l as [|spec l IH]; [done|]. cbn.
  destruct (Hno spec ltac:(left)) as [->%seqb_neq ->%seqb_neq]. apply IH. intros x Hx. apply Hno. by right.
Qed.

Lemma without_newline_app v w : nl ∉ v → ∃ w', default (v ++ w) (strip_suffix [nl] (v ++ w)) = v ++ w'.
Proof.
  intros Hv. destruct (strip_suffix [nl] (v ++ w)) as [r|] eqn:E; [|by exists w].
  apply strip_suffix_Some in E. destruct (list_snoc_case w) as [->|(w' & c & ->)].
  - exfalso. apply Hv. rewrite app_nil_r in E. rewrite E. set_solver.
  - rewrite app_assoc in E. apply app_inj_2 in E as [<- _]; [|done]. by exists w'.
Qed.

Lemma no_tag_line v w tag :
  no_tag v → nl ∉ v → line_segment (fresh tag) (v ++ w) = (tag, text_segment tag (v ++ w)).
Proof.
  intros Hn Hv. unfold line_segment. destruct (without_newline_app v w Hv) as [w' ->].
  change (trim_end (trim_start (v ++ w'))) with (trim (v ++ w')). cbn [fresh tag_specs current_tag].
  by destruct (no_tag_match v w' Hn) as [-> ->].
Qed.

(** The first line of a text. *)
Lemma split_inclusive_line v : nl ∉ v → split_inclusive v = match v with [] => [] | _ => [v] end.
Proof.
  induction v as [|c v IH]; intros Hv; [done|]. cbn.
  destruct (N.eqb_spec c nl) as [->|]; [set_solver|]. rewrite IH by set_solver. by destruct v.
Qed.

Lemma split_inclusive_cases s :
  nl ∉ s ∨ ∃ v r, s = v ++ (nl :: r) ∧ (nl ∉ v) ∧ split_inclusive s = ((v ++ [nl]) :: split_inclusive r).
Proof.
  induction s as [|c s IH]; [left; set_solver|]. cbn. destruct (N.eqb_spec c nl) as [->|Hc].
  - right. exists [], s. split; [done|]. split; [set_solver|done].
  - destruct IH as [H|(v & r & -> & Hv & ->)]; [left; set_solver|].
    right. exists (c :: v), r. split; [done|]. split; [set_solver|done].
Qed.

(** The beginning of a line is kept back whole, or it is text and nothing but text follows. *)
Lemma raw_line_prefix tag v :
  nl ∉ v →
  raw_parse (fresh tag) v = (mkTagged specs tag true v, []) ∨
  ∃ segs, raw_parse (fresh tag) v = (mkTagged specs tag false [], segs) ∧
    merge segs = merge [text_segment tag v] ∧
    ∀ w, line_segment (fresh tag) (v ++ w) = (tag, text_segment tag (v ++ w)).
Proof.
  induction v as [|c v IH] using rev_ind; intros Hv; [by left|].
  assert (Hc : (c =? nl)%N = false) by (apply N.eqb_neq; set_solver).
  rewrite raw_parse_app. destruct IH as [->|(segs & -> & Hm & Hw)]; [set_solver| |]; cbn [fst snd raw_parse].
  - unfold raw_char. cbn [detect_tag tag_specs current_tag line_buffer]. rewrite Hc.
    destruct (seqb (trim_start (v ++ [c])) [] || is_tag_prefix specs (trim_start (v ++ [c]))) eqn:Ep; cbn [fst snd app]; [by left|].
    right. eexists. split; [done|]. split; [done|]. apply orb_false_iff in Ep as [Es%seqb_neq Ep].
    intros w. by apply no_tag_line.
  - right. unfold raw_char. cbn [detect_tag tag_specs current_tag line_buffer]. rewrite Hc. cbn [fst snd app].
    eexists. split; [done|]. split.
    + rewrite merge_app, Hm. cbn [merge foldl]. by rewrite push_segment_text.
    + intros w. rewrite <- app_assoc. apply Hw.
Qed.

Lemma raw_line tag v :
  nl ∉ v →
  ∃ segs, raw_parse (fresh tag) (v ++ [nl]) = (fresh (fst (line_segment (fresh tag) (v ++ [nl]))), segs) ∧
    merge segs = merge [snd (line_segment (fresh tag) (v ++ [nl]))].
Proof.
  intros Hv. rewrite raw_parse_app. destruct (raw_line_prefix tag v Hv) as [->|(segs & -> & Hm & Hw)]; cbn [fst snd raw_parse].
  - unfold raw_char. cbn [detect_tag tag_specs current_tag line_buffer]. rewrite N.eqb_refl.
    change (line_segment (mkTagged specs tag true (v ++ [nl]))) with (line_segment (fresh tag)).
    destruct (line_segment (fresh tag) (v ++ [nl])) as [tag' seg]. by eexists.
  - rewrite Hw. unfold raw_char. cbn [detect_tag tag_specs current_tag line_buffer fst snd]. rewrite N.eqb_refl.
    eexists. split; [done|]. rewrite merge_app, Hm. cbn [merge foldl fst snd app]. by rewrite push_segment_text.
Qed.

Lemma raw_last_line tag v :
  nl ∉ v →
  merge (snd (raw_parse (fresh tag) v) ++ snd (tagged_finish (fst (raw_parse (fresh tag) v)))) =
  merge (line_segments tag (split_inclusive v)).
Proof.
  intros Hv. rewrite split_inclusive_line by done.
  destruct (raw_line_prefix tag v Hv) as [->|(segs & -> & Hm & Hw)]; cbn [fst snd].
  - destruct v as [|c v]; [by destruct tag|]. unfold tagged_finish. cbn [line_buffer line_segments app].
    change (line_segment (mkTagged specs tag true (c :: v))) with (line_segment (fresh tag)).
    destruct (line_segment (fresh tag) (c :: v)) as [tag' seg]. cbn [snd].
    change (push_segment [] seg) with (merge [seg]).
    destruct tag' as [t|]; [|apply merge_idemp]. change (push_segment (merge [seg]) (TagEnd t)) with (merge [seg; TagEnd t]).
    apply merge_idemp.
  - unfold tagged_finish. cbn [line_buffer current_tag snd]. specialize (Hw []). rewrite app_nil_r in Hw.
    rewrite merge_app, Hm. destruct v as [|c v]; cbn [line_segments]; [by destruct tag|].
    rewrite Hw. by destruct tag.
Qed.

Lemma raw_lines n tag s :
  length s ≤ n →
  merge (snd (raw_parse (fresh tag) s) ++ snd (tagged_finish (fst (raw_parse (fresh tag) s)))) =
  merge (line_segments tag (split_inclusive s)).
Proof.
  revert tag s. induction n as [|n IH]; intros tag s Hn.
  - apply raw_last_line. destruct s; [set_solver|cbn in Hn; lia].
  - destruct (split_inclusive_cases s) as [Hs|(v & r & -> & Hv & ->)]; [by apply raw_last_line|].
    change (v ++ nl :: r) with (v ++ ([nl] ++ r)) in *. rewrite app_assoc in *.
    rewrite raw_parse_app. destruct (raw_line tag v Hv) as (segs & -> & Hm). cbn [fst snd line_segments].
    destruct (line_segment (fresh tag) (v ++ [nl])) as [tag' seg]. cbn [fst snd] in *.
    change (seg :: line_segments tag' (split_inclusive r)) with ([seg] ++ line_segments tag' (split_inclusive r)).
    rewrite <- app_assoc, <- merge_merge_app, Hm, IH, merge_merge_app; [done|].
    rewrite !length_app in Hn. cbn in Hn. lia.
Qed.
End lines.

(** ** Plans *)

Section plan.
#[local] Arguments merge : simpl never.
Abbreviation seg := (TaggedLineSegment PlanTag).

(** The segments of a plan are those of the line parser. *)
Definition unmap_segment (segment : ProposedPlanSegment) : seg :=
  match segment with
  | PlanNormal text => Normal text
  | ProposedPlanStart => TagStart ProposedPlan
  | ProposedPlanDelta text => TagDelta ProposedPlan text
  | ProposedPlanEnd => TagEnd ProposedPlan
  end.

Lemma unmap_map (segs : list seg) : map unmap_segment (map map_segment segs) = segs.
Proof. induction segs as [|[|[]|[]|[]] segs IH]; cbn; by rewrite ?IH. Qed.

(** Two plans are the same up to how their text is cut. *)
Definition plan_equiv : relation (list ProposedPlanSegment) :=
  fun a b => merge (map unmap_segment a) = merge (map unmap_segment b).

#[export] Instance plan_equiv_equivalence : Equivalence plan_equiv.
Proof. split; unfold plan_equiv; [intros ?|intros ? ?|intros ? ? ?]; congruence. Qed.

#[export] Instance plan_equiv_app : Proper (plan_equiv ==> plan_equiv ==> plan_equiv) (++).
Proof.
  intros a a' Ha b b' Hb. unfold plan_equiv in *. rewrite !map_app.
  rewrite <- (merge_merge_app (map unmap_segment a)), Ha, Hb. apply merge_merge_app.
Qed.

(** The text outside plans. *)
Definition outside (segs : list seg) : str := concat (map (fun s => normal_text (map_segment s)) segs).

Lemma map_segments_spec segs : map_segments segs = mkChunk (outside segs) (map map_segment segs).
Proof.
  unfold map_segments, outside. induction segs as [|s segs IH] using rev_ind; [done|].
  rewrite foldl_snoc, IH, !map_app, concat_app. cbn. by rewrite app_nil_r.
Qed.

Lemma outside_app a b : outside (a ++ b) = outside a ++ outside b.
Proof. unfold outside. by rewrite map_app, concat_app. Qed.

Lemma outside_push segs s : outside (push_segment segs s) = outside segs ++ outside [s].
Proof.
  destruct s as [u|t|t u|t]; try apply outside_app.
  - destruct (decide (u = [])) as [->|Hu]; [by rewrite app_nil_r|].
    destruct (text_segment_cases segs None) as [(l & w & ->)|Hn].
    + change (Normal u : seg) with (text_segment (None : option PlanTag) u).
      rewrite push_text_join, !outside_app by done. cbn. by rewrite !app_nil_r, app_assoc.
    + change (Normal u : seg) with (text_segment (None : option PlanTag) u).
      by rewrite Hn, outside_app.
  - change (outside [TagDelta t u]) with (@nil N). rewrite app_nil_r.
    destruct (decide (u = [])) as [->|Hu]; [done|].
    change (TagDelta t u) with (text_segment (Some t) u).
    destruct (text_segment_cases segs (Some t)) as [(l & w & ->)|Hn].
    + rewrite push_text_join by done. by rewrite !outside_app.
    + rewrite Hn, outside_app by done. apply app_nil_r.
Qed.

Lemma outside_merge segs : outside (merge segs) = outside segs.
Proof.
  induction segs as [|s segs IH] using rev_ind; [done|].
  rewrite merge_app, outside_app. cbn [foldl]. by rewrite outside_push, IH.
Qed.

(** Segments that merge alike give the same chunk. *)
Lemma map_segments_equiv a b : merge a = merge b → chunk_equiv plan_equiv (map_segments a) (map_segments b).
Proof.
  intros H. rewrite !map_segments_spec. split; cbn [visible_text extracted].
  - by rewrite <- outside_merge, H, outside_merge.
  - unfold plan_equiv. by rewrite !unmap_map.
Qed.

Lemma map_segments_app a b : chunk_app (map_segments a) (map_segments b) = map_segments (a ++ b).
Proof. rewrite !map_segments_spec. unfold chunk_app. cbn. by rewrite outside_app, map_app. Qed.

Lemma plan_push s p :
  push_str s p = (mkPlan (fst (raw_parse (plan_lines p) s)), map_segments (merge (snd (raw_parse (plan_lines p) s)))).
Proof. unfold push_str. cbn [plan_parser]. by rewrite tagged_parse_raw. Qed.

#[export] Instance plan_lawful : LawfulStreamParser ProposedPlanParser ProposedPlanSegment (fun _ => True) plan_equiv.
Proof.
  split; try apply _; [done|by intros [p] _|].
  intros a b p _. rewrite !plan_push. cbn [fst snd plan_lines]. rewrite raw_parse_app. cbn [fst snd].
  split; [done|]. rewrite map_segments_app. apply map_segments_equiv. by rewrite merge_idemp, merge_merge_app.
Qed.

Lemma plan_collect s :
  chunk_equiv plan_equiv (collect_chunks [s] plan_new)
    (map_segments (line_segments plan_specs None (split_inclusive s))).
Proof.
  unfold collect_chunks. cbn [push_strs]. rewrite plan_push. unfold finish. cbn [plan_parser plan_lines].
  rewrite chunk_app_nil_r. pose proof (raw_lines plan_specs (length s) None s (le_n _)) as H.
  change (fresh plan_specs None) with (plan_lines plan_new) in H.
  destruct (raw_parse (plan_lines plan_new) s) as [q segs]. cbn [fst snd] in *.
  destruct (tagged_finish q) as [q' tail]. cbn [fst snd] in *.
  rewrite map_segments_app. apply map_segments_equiv. rewrite <- H, <- merge_merge_app, merge_idemp. apply merge_merge_app.
Qed.

(** Plans are found line by line: in whatever chunks a text arrives, deciding character
    by character what may still be a tag shows the text outside plans, and gives the plans,
    that reading every line as a tag or as text gives, up to how the text of a plan is cut. *)
Theorem plan_stream_reads_lines chunks :
  chunk_equiv plan_equiv (collect_chunks chunks plan_new)
    (map_segments (line_segments plan_specs None (split_inclusive (concat chunks)))).
Proof. etransitivity; [by apply (collect_concat (fun _ => True) plan_equiv)|apply plan_collect]. Qed.
End plan.

(** ** Assistant text *)

Definition assistant_app (a b : AssistantTextChunk) : AssistantTextChunk :=
  mkAssistantChunk (assistant_visible a ++ assistant_visible b) (citations a ++ citations b)
    (plan_segments a ++ plan_segments b).

(** All that a stream shows, chunk by chunk and at its end. *)
Fixpoint assistant_collect (chunks : list str) (p : AssistantTextStreamParser) : AssistantTextChunk :=
  match chunks with
  | [] => snd (assistant_finish p)
  | c :: cs => let '(p, out) := assistant_push_str c p in assistant_app out (assistant_collect cs p)
  end.

Definition plan_chunk (a : AssistantTextChunk) : StreamTextChunk ProposedPlanSegment :=
  mkChunk (assistant_visible a) (plan_segments a).

Lemma collect_chunks_cons {P X} `{StreamTextParser P X} c cs (p : P) :
  collect_chunks (c :: cs) p = chunk_app (snd (push_str c p)) (collect_chunks cs (fst (push_str c p))).
Proof.
  unfold collect_chunks. cbn [push_strs]. destruct (push_str c p) as [p1 o1]. cbn [fst snd].
  destruct (push_strs cs p1) as [p2 o2]. by rewrite chunk_app_assoc.
Qed.

Lemma assistant_tail (out tail : StreamTextChunk ProposedPlanSegment) :
  (if is_empty tail then out else chunk_app out tail) = chunk_app out tail.
Proof. destruct tail as [[] []]; [|done..]. symmetry. apply chunk_app_nil_r. Qed.

(** The citation parser sees the chunks, the plan parser what that one shows of them. *)
Lemma assistant_collect_composes chunks mode cit plan :
  ∃ pieces, concat pieces = visible_text (collect_chunks chunks cit) ∧
    citations (assistant_collect chunks (mkAssistant mode cit plan)) = extracted (collect_chunks chunks cit) ∧
    plan_chunk (assistant_collect chunks (mkAssistant mode cit plan)) =
      if mode then collect_chunks pieces plan else mkChunk (concat pieces) [].
Proof.
  revert cit plan. induction chunks as [|c cs IH]; intros cit plan.
  - cbn [assistant_collect]. unfold collect_chunks at 1 2, assistant_finish. cbn [push_strs plan_mode citation_state].
    rewrite chunk_app_nil_l. destruct (finish cit) as [cit' tail]. cbn [snd].
    exists [visible_text tail]. cbn [concat]. rewrite app_nil_r. split; [done|].
    unfold parse_visible_text. cbn [plan_mode plan_state]. destruct mode; [|done].
    rewrite collect_chunks_cons. destruct (push_str (visible_text tail) plan) as [plan' out]. cbn [fst snd].
    unfold collect_chunks. cbn [push_strs]. rewrite chunk_app_nil_l. destruct (finish plan') as [plan'' rest]. cbn [snd].
    rewrite assistant_tail. done.
  - cbn [assistant_collect]. rewrite collect_chunks_cons. unfold assistant_push_str. cbn [plan_mode citation_state].
    destruct (push_str c cit) as [cit' out]. cbn [fst snd]. unfold parse_visible_text. cbn [plan_mode plan_state].
    destruct mode.
    + destruct (push_str (visible_text out) plan) as [plan' segs] eqn:E.
      destruct (IH cit' plan') as (pieces & H1 & H2 & H3). exists (visible_text out :: pieces).
      cbn [concat chunk_app visible_text extracted assistant_app citations]. rewrite H1, H2. split; [done|]. split; [done|].
      rewrite collect_chunks_cons, E. cbn [fst snd]. by rewrite <- H3.
    + destruct (IH cit' plan) as (pieces & H1 & H2 & H3). exists (visible_text out :: pieces).
      cbn [concat chunk_app visible_text extracted assistant_app citations]. rewrite H1, H2. split; [done|]. split; [done|].
      rewrite <- H1. unfold plan_chunk in *. cbn in *. injection H3 as -> ->. done.
Qed.

Lemma strip_citations_collect text :
  strip_citations text = (visible_text (collect_chunks [text] citation_new), extracted (collect_chunks [text] citation_new)).
Proof.
  unfold strip_citations. rewrite collect_chunks_cons. unfold collect_chunks. cbn [push_strs].
  destruct (push_str text citation_new) as [p out]. cbn [fst snd]. rewrite chunk_app_nil_l.
  by destruct (finish p) as [q tail].
Qed.

Lemma citation_collect chunks : collect_chunks chunks citation_new = collect_chunks [concat chunks] citation_new.
Proof.
  destruct (collect_concat citation_ok eq chunks citation_new citation_new_ok) as [H1 H2].
  destruct (collect_chunks chunks citation_new), (collect_chunks [concat chunks] citation_new). cbn in *. by subst.
Qed.

(** C37: what the user sees of an assistant's message does not depend on how it was streamed:
    the citations are those of [strip_citations] on the whole message; the text shown is
    what is left, in plan mode less its plans, which are those that reading that text line
    by line gives. *)
Theorem assistant_text_spec mode chunks :
  let '(text, cs) := strip_citations (concat chunks) in
  let out := assistant_collect chunks (assistant_new mode) in
  citations out = cs ∧
  if mode then chunk_equiv plan_equiv (plan_chunk out)
                 (map_segments (line_segments plan_specs None (split_inclusive text)))
  else plan_chunk out = mkChunk text [].
Proof.
  rewrite strip_citations_collect, <- citation_collect.
  destruct (assistant_collect_composes chunks mode citation_new plan_new) as (pieces & H1 & H2 & H3).
  split; [exact H2|]. unfold assistant_new. rewrite H3, <- H1. destruct mode; [|done].
  etransitivity; [by apply (collect_concat (fun _ => True) plan_equiv)|apply plan_collect].
Qed.

(** The two batch functions are the stream's, so they read lines too. *)
Lemma strip_proposed_plan_blocks_spec text :
  strip_proposed_plan_blocks text = outside (line_segments plan_specs None (split_inclusive text)).
Proof.
  destruct (plan_collect text) as [H _]. rewrite map_segments_spec in H. cbn [visible_text] in H. rewrite <- H.
  unfold strip_proposed_plan_blocks. rewrite collect_chunks_cons. unfold collect_chunks. cbn [push_strs].
  destruct (push_str text plan_new) as [p out]. cbn [fst snd]. by rewrite chunk_app_nil_l.
Qed.
