(* ===== verification/PatchParser.v ===== *)
(** * Patch text to hunks

    Models [codex/codex-rs/apply-patch/src/parser.rs] (boundary checks,
    lenient heredoc form, [parse_patch]) and [streaming_parser.rs]
    ([StreamingPatchParser]).  The parser mutates [self]; no error path of
    [process_line] has changed [self] before it returns, so [process_line]
    returns the new state on success only, while [push_delta] and [finish],
    which do change it before a failing line, return the state in both cases.
    Paths are their text; line numbers are [nat]. *)

From S2P Require Import Prelude RustStr.

Definition BEGIN_PATCH_MARKER := lit "*** Begin Patch".
Definition END_PATCH_MARKER := lit "*** End Patch".
Definition ADD_FILE_MARKER := lit "*** Add File: ".
Definition DELETE_FILE_MARKER := lit "*** Delete File: ".
Definition UPDATE_FILE_MARKER := lit "*** Update File: ".
Definition MOVE_TO_MARKER := lit "*** Move to: ".
Definition EOF_MARKER := lit "*** End of File".
Definition CHANGE_CONTEXT_MARKER := lit "@@ ".
Definition EMPTY_CHANGE_CONTEXT_MARKER := lit "@@".
Definition ENVIRONMENT_ID_MARKER := lit "*** Environment ID:".
Definition PARSE_IN_STRICT_MODE := false.

Inductive ParseError :=
| InvalidPatchError (message : str)
| InvalidHunkError (message : str) (line_number : nat).

Record UpdateFileChunk := mkChunk {
  change_context : option str;
  old_lines : list str;
  new_lines : list str;
  is_end_of_file : bool;
}.

Inductive Hunk :=
| AddFile (path : str) (contents : str)
| DeleteFile (path : str)
| UpdateFile (path : str) (move_path : option str) (chunks : list UpdateFileChunk).

#[export] Instance ParseError_eq_dec : EqDecision ParseError.
Proof. solve_decision. Defined.
#[export] Instance UpdateFileChunk_eq_dec : EqDecision UpdateFileChunk.
Proof. solve_decision. Defined.
#[export] Instance Hunk_eq_dec : EqDecision Hunk.
Proof. solve_decision. Defined.

(** [Hunk::path]: the affected path, the destination for a rename. *)
Definition hunk_path (h : Hunk) : str :=
  match h with
  | AddFile path _ => path
  | DeleteFile path => path
  | UpdateFile _ (Some path) _ => path
  | UpdateFile path None _ => path
  end.

(** The path [Hunk::resolve_path] joins to the working directory: the file
    the hunk reads. *)
Definition hunk_source_path (h : Hunk) : str :=
  match h with
  | UpdateFile path _ _ => path
  | AddFile _ _ | DeleteFile _ => hunk_path h
  end.

Inductive StreamingParserMode :=
| NotStarted
| StartedPatch
| ModeAddFile
| ModeDeleteFile
| ModeUpdateFile (hunk_line_number : nat)
| EndedPatch.

Record StreamingParserState := mkState {
  mode : StreamingParserMode;
  hunks : list Hunk;
  environment_id : option str;
}.

Record StreamingPatchParser := mkParser {
  line_buffer : str;
  state : StreamingParserState;
  line_number : nat;
}.

Definition default_parser : StreamingPatchParser :=
  mkParser [] (mkState NotStarted [] None) 0.

Definition set_state (p : StreamingPatchParser) (st : StreamingParserState) : StreamingPatchParser :=
  mkParser (line_buffer p) st (line_number p).

Definition set_mode (p : StreamingPatchParser) (m : StreamingParserMode) : StreamingPatchParser :=
  set_state p (mkState m (hunks (state p)) (environment_id (state p))).

Definition set_hunks (p : StreamingPatchParser) (hs : list Hunk) : StreamingPatchParser :=
  set_state p (mkState (mode (state p)) hs (environment_id (state p))).

(** [chunk.old_lines.is_empty() && chunk.new_lines.is_empty()]. *)
Definition chunk_is_blank (c : UpdateFileChunk) : bool :=
  bool_decide (old_lines c = []) && bool_decide (new_lines c = []).

Definition last_is {A} (f : A → bool) (l : list A) : bool :=
  match last l with Some x => f x | None => false end.

Definition unexpected_line (line : str) : str :=
  lit "Unexpected line found in update hunk: '" ++ line ++
  lit "'. Every line should start with ' ' (context line), '+' (added line), or '-' (removed line)".

Definition expected_marker (line : str) : str :=
  lit "Expected update hunk to start with a @@ context marker, got: '" ++ line ++ lit "'".

Definition invalid_header (trimmed : str) : str :=
  lit "'" ++ trimmed ++
  lit "' is not a valid hunk header. Valid hunk headers: '*** Add File: {path}', '*** Delete File: {path}', '*** Update File: {path}'".

Definition NO_LINES := lit "Update hunk does not contain any lines".
Definition BAD_FIRST_LINE := lit "The first line of the patch must be '*** Begin Patch'".
Definition BAD_LAST_LINE := lit "The last line of the patch must be '*** End Patch'".

Definition ensure_update_hunk_is_not_empty (p : StreamingPatchParser) (line : str) :
    result unit ParseError :=
  match last (hunks (state p)) with
  | Some (UpdateFile path _ chunks) =>
      match chunks, mode (state p) with
      | [], ModeUpdateFile hunk_line_number =>
          Err (InvalidHunkError
                 (lit "Update file hunk for path '" ++ path ++ lit "' is empty")
                 hunk_line_number)
      | _, _ =>
          if last_is chunk_is_blank chunks then
            if seqb line END_PATCH_MARKER then Err (InvalidHunkError NO_LINES (line_number p))
            else Err (InvalidHunkError (unexpected_line line) (line_number p))
          else Ok tt
      end
  | _ => Ok tt
  end.

(** A header line completes the current hunk and opens the next one. *)
Definition start_hunk (p : StreamingPatchParser) (trimmed : str) (h : Hunk)
    (m : StreamingParserMode) : result (StreamingPatchParser * bool) ParseError :=
  let? _ := ensure_update_hunk_is_not_empty p trimmed in
  Ok (set_mode (set_hunks p (hunks (state p) ++ [h])) m, true).

(** [Ok (p', true)]: the line was a header or the end marker, handled. *)
Definition handle_hunk_headers_and_end_patch (p : StreamingPatchParser) (trimmed : str) :
    result (StreamingPatchParser * bool) ParseError :=
  let st := state p in
  match mode st, strip_prefix ENVIRONMENT_ID_MARKER trimmed with
  | StartedPatch, Some id =>
      match environment_id st with
      | Some _ => Err (InvalidPatchError (lit "apply_patch environment_id cannot be specified more than once"))
      | None =>
          let id := trim id in
          if seqb id [] then Err (InvalidPatchError (lit "apply_patch environment_id cannot be empty"))
          else Ok (set_state p (mkState (mode st) (hunks st) (Some id)), true)
      end
  | _, _ =>
      if seqb trimmed END_PATCH_MARKER then
        let? _ := ensure_update_hunk_is_not_empty p trimmed in
        Ok (set_mode p EndedPatch, true)
      else match strip_prefix ADD_FILE_MARKER trimmed with
      | Some path => start_hunk p trimmed (AddFile path []) ModeAddFile
      | None =>
      match strip_prefix DELETE_FILE_MARKER trimmed with
      | Some path => start_hunk p trimmed (DeleteFile path) ModeDeleteFile
      | None =>
      match strip_prefix UPDATE_FILE_MARKER trimmed with
      | Some path =>
          start_hunk p trimmed (UpdateFile path None []) (ModeUpdateFile (line_number p))
      | None => Ok (p, false)
      end end end
  end.

Definition empty_chunk (ctx : option str) : UpdateFileChunk := mkChunk ctx [] [] false.

(** A diff line goes to the last chunk; a first chunk without [@@] is created
    on demand. *)
Definition push_diff_line (f : UpdateFileChunk → UpdateFileChunk) (chunks : list UpdateFileChunk) :
    list UpdateFileChunk :=
  update_last f (match chunks with [] => [empty_chunk None] | _ => chunks end).

Definition push_old (l : str) (c : UpdateFileChunk) : UpdateFileChunk :=
  mkChunk (change_context c) (old_lines c ++ [l]) (new_lines c) (is_end_of_file c).
Definition push_new (l : str) (c : UpdateFileChunk) : UpdateFileChunk :=
  mkChunk (change_context c) (old_lines c) (new_lines c ++ [l]) (is_end_of_file c).
Definition push_both (l : str) (c : UpdateFileChunk) : UpdateFileChunk := push_new l (push_old l c).
Definition mark_eof (c : UpdateFileChunk) : UpdateFileChunk :=
  mkChunk (change_context c) (old_lines c) (new_lines c) true.

Definition is_context_marker (l : str) : bool :=
  seqb l EMPTY_CHANGE_CONTEXT_MARKER || starts_with CHANGE_CONTEXT_MARKER l.

(** The [UpdateFile] arm of [process_line] once the line is known not to be a
    header: what the line does to the open hunk's [move_path] and [chunks]. *)
Definition update_line_effect (ln : nat) (line : str) (move_path : option str)
    (chunks : list UpdateFileChunk) : result (option str * list UpdateFileChunk) ParseError :=
  let update_line := trim_end line in
  if last_is is_end_of_file chunks && seqb update_line [] then Ok (move_path, chunks)
  else if last_is is_end_of_file chunks && negb (is_context_marker update_line) then
    Err (InvalidHunkError (expected_marker line) ln)
  else
  match (match chunks, move_path with
         | [], None => strip_prefix MOVE_TO_MARKER update_line
         | _, _ => None
         end) with
  | Some move_to => Ok (Some move_to, chunks)
  | None =>
  if is_context_marker update_line && last_is chunk_is_blank chunks then
    Err (InvalidHunkError (unexpected_line line) ln)
  else if seqb update_line EMPTY_CHANGE_CONTEXT_MARKER then
    Ok (move_path, chunks ++ [empty_chunk None])
  else match strip_prefix CHANGE_CONTEXT_MARKER update_line with
  | Some ctx => Ok (move_path, chunks ++ [empty_chunk (Some ctx)])
  | None =>
  if seqb update_line EOF_MARKER then
    if last_is chunk_is_blank chunks then Err (InvalidHunkError NO_LINES ln)
    else Ok (move_path, update_last mark_eof chunks)
  else match line with
  | [] => Ok (move_path, push_diff_line (push_both []) chunks)
  | 32%N :: l => Ok (move_path, push_diff_line (push_both l) chunks)
  | 43%N :: l => Ok (move_path, push_diff_line (push_new l) chunks)
  | 45%N :: l => Ok (move_path, push_diff_line (push_old l) chunks)
  | _ =>
      if last_is (fun c => negb (chunk_is_blank c)) chunks
      then Err (InvalidHunkError (expected_marker line) ln)
      else Err (InvalidHunkError (unexpected_line line) ln)
  end end end.

Definition process_line (p : StreamingPatchParser) (line : str) :
    result StreamingPatchParser ParseError :=
  let trimmed := trim line in
  let bad_header := Err (InvalidHunkError (invalid_header trimmed) (line_number p)) in
  match mode (state p) with
  | NotStarted =>
      if seqb trimmed BEGIN_PATCH_MARKER then Ok (set_mode p StartedPatch)
      else Err (InvalidPatchError BAD_FIRST_LINE)
  | StartedPatch | ModeDeleteFile =>
      let? '(p', handled) := handle_hunk_headers_and_end_patch p trimmed in
      if handled then Ok p' else bad_header
  | ModeAddFile =>
      let? '(p', handled) := handle_hunk_headers_and_end_patch p trimmed in
      if handled then Ok p'
      else match strip_prefix (lit "+") line, last (hunks (state p)) with
           | Some l, Some (AddFile path contents) =>
               Ok (set_hunks p (update_last (fun _ => AddFile path (contents ++ l ++ [nl]))
                                  (hunks (state p))))
           | _, _ => bad_header
           end
  | ModeUpdateFile hunk_line_number =>
      let update_line := trim_end line in
      let? '(p', handled) := handle_hunk_headers_and_end_patch p update_line in
      if handled then Ok p'
      else match last (hunks (state p)) with
           | Some (UpdateFile path move_path chunks) =>
               let? '(move_path', chunks') :=
                 update_line_effect (line_number p) line move_path chunks in
               Ok (set_mode
                     (set_hunks p (update_last (fun _ => UpdateFile path move_path' chunks')
                                     (hunks (state p))))
                     (ModeUpdateFile hunk_line_number))
           | _ => Err (InvalidHunkError (unexpected_line line) (line_number p))
           end
  | EndedPatch =>
      if seqb trimmed [] then Ok p else Err (InvalidPatchError BAD_LAST_LINE)
  end.

(** The state in which a completed line is processed. *)
Definition take_line (p : StreamingPatchParser) : StreamingPatchParser :=
  mkParser [] (state p) (S (line_number p)).

Fixpoint push_chars (p : StreamingPatchParser) (delta : str) :
    StreamingPatchParser * result unit ParseError :=
  match delta with
  | [] => (p, Ok tt)
  | ch :: delta =>
      if (ch =? nl)%N then
        match process_line (take_line p) (strip_cr (line_buffer p)) with
        | Ok p' => push_chars p' delta
        | Err e => (take_line p, Err e)
        end
      else push_chars (mkParser (line_buffer p ++ [ch]) (state p) (line_number p)) delta
  end.

Definition push_delta (p : StreamingPatchParser) (delta : str) :
    StreamingPatchParser * result (list Hunk) ParseError :=
  match push_chars p delta with
  | (p', Ok _) => (p', Ok (hunks (state p')))
  | (p', Err e) => (p', Err e)
  end.

Definition finish_line (p : StreamingPatchParser) : StreamingPatchParser * result unit ParseError :=
  if seqb (line_buffer p) [] then (p, Ok tt)
  else
    let line := line_buffer p in
    let p := take_line p in
    if seqb (trim line) END_PATCH_MARKER then
      match ensure_update_hunk_is_not_empty p (trim line) with
      | Ok _ => (set_mode p EndedPatch, Ok tt)
      | Err e => (p, Err e)
      end
    else match process_line p line with
         | Ok p' => (p', Ok tt)
         | Err e => (p, Err e)
         end.

Definition finish (p : StreamingPatchParser) : StreamingPatchParser * result (list Hunk) ParseError :=
  match finish_line p with
  | (p', Err e) => (p', Err e)
  | (p', Ok _) =>
      match mode (state p') with
      | EndedPatch => (p', Ok (hunks (state p')))
      | _ => (p', Err (InvalidPatchError BAD_LAST_LINE))
      end
  end.

(** ** [parser.rs]: boundaries and whole patches *)

Inductive ParseMode := Strict | Lenient.

Record ApplyPatchArgs := mkArgs {
  args_patch : str;
  args_hunks : list Hunk;
  workdir : option str;
  args_environment_id : option str;
}.

Definition check_start_and_end_lines_strict (first_line last_line : option str) :
    result unit ParseError :=
  match trim <$> first_line, trim <$> last_line with
  | Some f, l =>
      if seqb f BEGIN_PATCH_MARKER
         && match l with Some l => seqb l END_PATCH_MARKER | None => false end
      then Ok tt
      else if negb (seqb f BEGIN_PATCH_MARKER) then Err (InvalidPatchError BAD_FIRST_LINE)
      else Err (InvalidPatchError BAD_LAST_LINE)
  | None, _ => Err (InvalidPatchError BAD_LAST_LINE)
  end.

Definition check_patch_boundaries_strict (ls : list str) : result (list str) ParseError :=
  let? _ := check_start_and_end_lines_strict (head ls) (last ls) in Ok ls.

Definition is_heredoc_start (l : str) : bool :=
  seqb l (lit "<<EOF") || seqb l (lit "<<'EOF'")
  || seqb l (lit "<<" ++ [34%N] ++ lit "EOF" ++ [34%N]).

Definition check_patch_boundaries_lenient (original_lines : list str) :
    result (list str) ParseError :=
  match check_patch_boundaries_strict original_lines with
  | Ok ls => Ok ls
  | Err original_parse_error =>
      match original_lines with
      | first :: _ :: _ =>
          if is_heredoc_start first
             && ends_with (lit "EOF") (default [] (last original_lines))
             && (4 <=? length original_lines)
          then check_patch_boundaries_strict
                 (take (length original_lines - 2) (drop 1 original_lines))
          else Err original_parse_error
      | _ => Err original_parse_error
      end
  end.

Definition parse_patch_text (patch : str) (m : ParseMode) : result ApplyPatchArgs ParseError :=
  let ls := lines (trim patch) in
  let? patch_lines :=
    match m with
    | Strict => check_patch_boundaries_strict ls
    | Lenient => check_patch_boundaries_lenient ls
    end in
  let patch := join [nl] patch_lines in
  let (p, r) := push_delta default_parser patch in
  let? _ := r in
  let (p, r) := finish p in
  let? hs := r in
  Ok (mkArgs patch hs None (environment_id (state p))).

Definition parse_patch (patch : str) : result ApplyPatchArgs ParseError :=
  parse_patch_text patch (if PARSE_IN_STRICT_MODE then Strict else Lenient).
