(* ===== verification/PatchParserFacts.v ===== *)
(** * Facts about the patch parser

    Chunking invariance of the streaming parser, the shape invariant of its
    state, and the round trip between hunks and patch text. *)

From S2P Require Import Prelude RustStr PatchParser.

(** ** Streaming: the split of the text into deltas does not matter *)

(** Pushing deltas one after the other, stopping at the first error, as the
    callers of [push_delta] do. *)
Fixpoint push_all (p : StreamingPatchParser) (deltas : list str) :
    StreamingPatchParser * result (list Hunk) ParseError :=
  match deltas with
  | [] => push_delta p []
  | d :: deltas =>
      match push_delta p d with
      | (p', Ok _) => push_all p' deltas
      | (p', Err e) => (p', Err e)
      end
  end.

Lemma push_chars_app p d1 d2 :
  push_chars p (d1 ++ d2) =
  match push_chars p d1 with
  | (p', Ok _) => push_chars p' d2
  | (p', Err e) => (p', Err e)
  end.
Proof.
  revert p. induction d1 as [|ch d1 IH]; intros p; simpl; [done|].
  destruct (ch =? nl)%N; [|apply IH].
  destruct (process_line _ _); [apply IH|done].
Qed.

(** Streaming is chunking-invariant: feeding a patch in any sequence of
    deltas reaches the same parser state and the same answer, errors included,
    as feeding the whole text at once. *)
Theorem push_all_concat p deltas : push_all p deltas = push_delta p (concat deltas).
Proof.
  revert p. induction deltas as [|d deltas IH]; intros p; simpl; [done|].
  unfold push_delta at 1 2. rewrite push_chars_app.
  destruct (push_chars p d) as [p' [u|e]]; [|done]. by rewrite IH.
Qed.

(** ** Shape invariant *)

Definition chunk_ok (c : UpdateFileChunk) : Prop := chunk_is_blank c = false.

(** A completed hunk: an update has chunks and each has a line. *)
Definition hunk_ok (h : Hunk) : Prop :=
  match h with
  | UpdateFile _ _ chunks => chunks ≠ [] ∧ Forall chunk_ok chunks
  | _ => True
  end.

(** The chunks of the update hunk being read: only the last may still be blank. *)
Definition open_chunks (chunks : list UpdateFileChunk) : Prop :=
  ∀ cs c, chunks = cs ++ [c] → Forall chunk_ok cs.

Definition parser_inv (p : StreamingPatchParser) : Prop :=
  match mode (state p) with
  | NotStarted | StartedPatch => hunks (state p) = []
  | ModeAddFile =>
      ∃ hs path c, hunks (state p) = hs ++ [AddFile path c] ∧ Forall hunk_ok hs
  | ModeDeleteFile =>
      ∃ hs path, hunks (state p) = hs ++ [DeleteFile path] ∧ Forall hunk_ok hs
  | ModeUpdateFile _ =>
      ∃ hs path mv chunks, hunks (state p) = hs ++ [UpdateFile path mv chunks] ∧
        Forall hunk_ok hs ∧ open_chunks chunks
  | EndedPatch => Forall hunk_ok (hunks (state p))
  end.

Lemma open_chunks_nil : open_chunks [].
Proof. intros cs c H. by destruct cs. Qed.

Lemma open_chunks_snoc cs c : open_chunks (cs ++ [c]) ↔ Forall chunk_ok cs.
Proof.
  split; [intros H; by eapply H|].
  intros H cs' c' [-> _]%app_inj_tail. done.
Qed.

Lemma last_is_snoc {A} (f : A → bool) l x : last_is f (l ++ [x]) = f x.
Proof. unfold last_is. by rewrite last_snoc. Qed.

(** Leaving a mode through [ensure_update_hunk_is_not_empty] completes every
    hunk. *)
Lemma ensure_completes p line :
  parser_inv p → ensure_update_hunk_is_not_empty p line = Ok tt →
  Forall hunk_ok (hunks (state p)).
Proof.
  unfold parser_inv, ensure_update_hunk_is_not_empty. intros Hinv Hens.
  destruct (mode (state p)) eqn:Em.
  - by rewrite Hinv.
  - by rewrite Hinv.
  - destruct Hinv as (hs & path & c & -> & H). apply Forall_app. split; [done|by repeat constructor].
  - destruct Hinv as (hs & path & -> & H). apply Forall_app. split; [done|by repeat constructor].
  - destruct Hinv as (hs & path & mv & chunks & E & H & Ho). rewrite E in *.
    rewrite last_snoc in Hens. apply Forall_app. split; [done|].
    constructor; [|constructor]. simpl.
    destruct (list_snoc_case chunks) as [->|(cs & c & ->)]; [done|].
    apply open_chunks_snoc in Ho. rewrite last_is_snoc in Hens.
    destruct (chunk_is_blank c) eqn:Eb.
    + repeat case_hyp Hens; try done.
    + split; [by destruct cs|]. apply Forall_app. auto.
  - done.
Qed.

Lemma start_hunk_inv p trimmed h m p' b :
  parser_inv p → start_hunk p trimmed h m = Ok (p', b) →
  Forall hunk_ok (hunks (state p)) ∧ b = true ∧
  p' = set_mode (set_hunks p (hunks (state p) ++ [h])) m.
Proof.
  intros Hinv. unfold start_hunk.
  destruct (ensure_update_hunk_is_not_empty p trimmed) as [[]|] eqn:E; simpl; [|done].
  intros [= <- <-]. eauto using ensure_completes.
Qed.

Lemma handle_headers_inv p trimmed p' b :
  parser_inv p → handle_hunk_headers_and_end_patch p trimmed = Ok (p', b) →
  parser_inv p' ∧ (b = false → p' = p).
Proof.
  intros Hinv. unfold handle_hunk_headers_and_end_patch.
  assert (Hrest : ∀ r,
    (if seqb trimmed END_PATCH_MARKER
     then let? _ := ensure_update_hunk_is_not_empty p trimmed in Ok (set_mode p EndedPatch, true)
     else r) = Ok (p', b) →
    (r = Ok (p', b) → parser_inv p' ∧ (b = false → p' = p)) →
    parser_inv p' ∧ (b = false → p' = p)).
  { intros r H Hr. destruct (seqb trimmed END_PATCH_MARKER); [|auto].
    destruct (ensure_update_hunk_is_not_empty p trimmed) as [[]|] eqn:E; simpl in H; [|done].
    injection H as <- <-. split; [|done]. unfold parser_inv; simpl. by eapply ensure_completes. }
  assert (Hheads : ∀ (x y z : option str),
    match x with
    | Some path => start_hunk p trimmed (AddFile path []) ModeAddFile
    | None => match y with
      | Some path => start_hunk p trimmed (DeleteFile path) ModeDeleteFile
      | None => match z with
        | Some path =>
            start_hunk p trimmed (UpdateFile path None []) (ModeUpdateFile (line_number p))
        | None => Ok (p, false)
        end end end = Ok (p', b) → parser_inv p' ∧ (b = false → p' = p)).
  { intros [x|] [y|] [z|] H;
      try (apply start_hunk_inv in H as (Hall & -> & ->); [|done]; split; [|done];
           unfold parser_inv; simpl; eauto 10 using open_chunks_nil).
    by injection H as <- <-. }
  destruct (mode (state p)) eqn:Em; intros H;
    try (eapply Hrest; [exact H|]; apply Hheads).
  destruct (strip_prefix ENVIRONMENT_ID_MARKER trimmed) as [i|];
    [|eapply Hrest; [exact H|]; apply Hheads].
  destruct (environment_id (state p)); [done|]. simpl in H.
  destruct (seqb (trim i) []); [done|]. injection H as <- <-. split; [|done].
  unfold parser_inv in *. by rewrite Em in Hinv.
Qed.

Lemma update_last_open f chunks :
  open_chunks chunks → open_chunks (update_last f chunks).
Proof.
  destruct (list_snoc_case chunks) as [->|(cs & c & ->)]; [done|].
  rewrite update_last_snoc, !open_chunks_snoc. done.
Qed.

Lemma update_line_effect_open ln line mv chunks mv' chunks' :
  open_chunks chunks → update_line_effect ln line mv chunks = Ok (mv', chunks') →
  open_chunks chunks'.
Proof.
  intros Ho. unfold update_line_effect.
  assert (Hpush : ∀ f, open_chunks (push_diff_line f chunks)).
  { intros f. apply update_last_open. destruct chunks; [|done].
    by apply (open_chunks_snoc [] (empty_chunk None)). }
  assert (Hnew : ∀ c, last_is chunk_is_blank chunks = false → open_chunks (chunks ++ [c])).
  { intros c Hb. apply open_chunks_snoc.
    destruct (list_snoc_case chunks) as [->|(cs & d & ->)]; [done|].
    apply open_chunks_snoc in Ho. rewrite last_is_snoc in Hb. apply Forall_app. auto. }
  intros H.
  repeat match type of H with
  | (match ?x with _ => _ end) = _ => destruct x eqn:?
  | (if ?x then _ else _) = _ => destruct x eqn:?
  end; try discriminate H; injection H as <- <-; auto using update_last_open.
  all: apply Hnew;
    match goal with H : is_context_marker _ && _ = false |- _ =>
      apply andb_false_iff in H as [Hm|]; [|done] end;
    apply orb_false_iff in Hm as [Hm1 Hm2]; unfold starts_with in Hm2;
    first [congruence | by case_match].
Qed.

Lemma process_line_inv p line p' :
  parser_inv p → process_line p line = Ok p' → parser_inv p'.
Proof.
  intros Hinv. pose proof Hinv as Hinv'. unfold process_line. unfold parser_inv in Hinv'.
  assert (Hh : ∀ trimmed (k : StreamingPatchParser → result StreamingPatchParser ParseError),
    (let? '(q, handled) := handle_hunk_headers_and_end_patch p trimmed in
     if handled then Ok q else k q) = Ok p' →
    (k p = Ok p' → parser_inv p') → parser_inv p').
  { intros t k (x & Hx & Hk)%rbind_ok Hrest. destruct x as [q handled].
    apply handle_headers_inv in Hx as [Hq Heq]; [|done].
    destruct handled; [by simplify_eq|]. rewrite Heq in Hk by done. auto. }
  destruct (mode (state p)) eqn:Em; cbv zeta; intros H.
  - destruct (seqb _ _); simplify_eq. unfold parser_inv. by simpl.
  - eapply (Hh _ (fun _ => _)); [exact H|done].
  - eapply (Hh _ (fun _ => _)); [exact H|]. clear H Hh. intros H.
    destruct Hinv' as (hs & path & c & E & Hall). rewrite E, last_snoc in H.
    destruct (strip_prefix (lit "+") line); simplify_eq.
    unfold parser_inv. simpl. rewrite Em, update_last_snoc. eauto.
  - eapply (Hh _ (fun _ => _)); [exact H|done].
  - eapply (Hh _ (fun _ => _)); [exact H|]. clear H Hh. intros H.
    destruct Hinv' as (hs & path & mv & chunks & E & Hall & Ho). rewrite E, last_snoc in H.
    apply rbind_ok in H as ([mv' chunks'] & Hu & H). simplify_eq.
    unfold parser_inv. simpl. rewrite update_last_snoc.
    eauto 10 using update_line_effect_open.
  - destruct (seqb _ _); by simplify_eq.
Qed.

Lemma push_chars_inv p delta p' r :
  parser_inv p → push_chars p delta = (p', r) → parser_inv p'.
Proof.
  revert p. induction delta as [|ch delta IH]; intros p Hinv; simpl; [by intros [= <- <-]|].
  destruct (ch =? nl)%N; [|by apply IH].
  destruct (process_line _ _) eqn:E; [|by intros [= <- <-]].
  apply IH. exact (process_line_inv (take_line p) _ _ Hinv E).
Qed.

Lemma finish_ok p p' hs :
  parser_inv p → finish p = (p', Ok hs) → Forall hunk_ok hs.
Proof.
  intros Hinv. unfold finish, finish_line.
  assert (Hend : ∀ q, parser_inv q → (match mode (state q) with
      | EndedPatch => (q, Ok (hunks (state q)))
      | _ => (q, Err (InvalidPatchError BAD_LAST_LINE)) end) = (p', Ok hs) → Forall hunk_ok hs).
  { intros q Hq. destruct (mode (state q)) eqn:Em; intros [= <- <-]. unfold parser_inv in Hq. by rewrite Em in Hq. }
  destruct (seqb (line_buffer p) []); [by apply Hend|]. cbv zeta.
  destruct (seqb (trim (line_buffer p)) END_PATCH_MARKER).
  - destruct (ensure_update_hunk_is_not_empty _ _) as [[]|] eqn:E; [|done].
    apply Hend. exact (ensure_completes (take_line p) _ Hinv E).
  - destruct (process_line _ _) eqn:E; [|done]. apply Hend.
    exact (process_line_inv (take_line p) _ _ Hinv E).
Qed.

Lemma parse_patch_ok_hunks text args :
  parse_patch text = Ok args → Forall hunk_ok (args_hunks args).
Proof.
  unfold parse_patch, parse_patch_text. intros (ls & _ & H)%rbind_ok. revert H. cbv zeta.
  unfold push_delta. destruct (push_chars _ _) as [p [[]|e]] eqn:Ep; [|done]. simpl.
  destruct (finish p) as [p' [hs|e]] eqn:Ef; [|done]. simpl. intros [= <-]. simpl.
  eapply finish_ok; [|done]. eapply push_chars_inv; [|done]. done.
Qed.

(** C39: a patch that parses is well formed: whatever the text, every update
    hunk of the answer has at least one chunk and every chunk at least one
    context, added or removed line. *)
Theorem parse_patch_well_formed text args path mv chunks :
  parse_patch text = Ok args → UpdateFile path mv chunks ∈ args_hunks args →
  chunks ≠ [] ∧ Forall (fun c => old_lines c ≠ [] ∨ new_lines c ≠ []) chunks.
Proof.
  intros Hp Hin. apply parse_patch_ok_hunks in Hp. rewrite Forall_forall in Hp.
  destruct (Hp _ Hin) as [Hne Hall]. split; [done|].
  eapply Forall_impl; [exact Hall|]. unfold chunk_ok, chunk_is_blank.
  intros c. rewrite andb_false_iff, !bool_decide_eq_false. done.
Qed.

Definition sample_patch : str :=
  join [nl] [BEGIN_PATCH_MARKER; UPDATE_FILE_MARKER ++ lit "f"; lit "@@"; lit "+x"; END_PATCH_MARKER].

Lemma parse_patch_well_formed_witness :
  [mkChunk None [] [lit "x"] false] ≠ [] ∧
  Forall (fun c => old_lines c ≠ [] ∨ new_lines c ≠ []) [mkChunk None [] [lit "x"] false].
Proof.
  apply (parse_patch_well_formed sample_patch
    (mkArgs sample_patch [UpdateFile (lit "f") None [mkChunk None [] [lit "x"] false]] None None)
    (lit "f") None).
  - vm_compute. reflexivity.
  - left.
Defined.
