(* ===== verification/PatchRoundTrip.v ===== *)
(** * Round trip: printing hunks and parsing them back

    [render_patch] writes hunks in the format of the grammar at the top of
    [parser.rs]; [parse_patch] reads them back. *)

From S2P Require Import Prelude RustStr PatchParser PatchParserFacts.

(** ** The printer *)

Definition render_chunk (c : UpdateFileChunk) : list str :=
  match change_context c with
  | None => EMPTY_CHANGE_CONTEXT_MARKER
  | Some ctx => CHANGE_CONTEXT_MARKER ++ ctx
  end ::
  map (fun l => 45%N :: l) (old_lines c) ++ map (fun l => 43%N :: l) (new_lines c) ++
  (if is_end_of_file c then [EOF_MARKER] else []).

(** The lines of a text all of whose lines are terminated. *)
Definition terminated_lines (s : str) : list str := removelast (split_on nl s).
Definition terminate (ls : list str) : str := concat (map (fun l => l ++ [nl]) ls).

Definition render_hunk (h : Hunk) : list str :=
  match h with
  | AddFile path contents =>
      (ADD_FILE_MARKER ++ path) :: map (fun l => 43%N :: l) (terminated_lines contents)
  | DeleteFile path => [DELETE_FILE_MARKER ++ path]
  | UpdateFile path mv chunks =>
      (UPDATE_FILE_MARKER ++ path) ::
      match mv with Some m => [MOVE_TO_MARKER ++ m] | None => [] end ++
      concat (map render_chunk chunks)
  end.

Definition render_env (env : option str) : list str :=
  match env with Some id => [ENVIRONMENT_ID_MARKER ++ 32%N :: id] | None => [] end.

Definition render_body (env : option str) (hs : list Hunk) : list str :=
  BEGIN_PATCH_MARKER :: render_env env ++ concat (map render_hunk hs).

Definition render_patch (env : option str) (hs : list Hunk) : str :=
  join [nl] (render_body env hs ++ [END_PATCH_MARKER]).

(** ** Printable hunks *)

(** A line of file text: no line feed, no final carriage return. *)
Definition line_text (l : str) : Prop := (nl ∉ l) ∧ strip_cr l = l.
(** A name on a marker line: not empty, no line feed, no final white space. *)
Definition name_text (l : str) : Prop := (nl ∉ l) ∧ l ≠ [] ∧ trim_end l = l.

Definition chunk_printable (c : UpdateFileChunk) : Prop :=
  chunk_is_blank c = false ∧
  match change_context c with Some ctx => name_text ctx | None => True end ∧
  Forall line_text (old_lines c) ∧ Forall line_text (new_lines c).

Definition hunk_printable (h : Hunk) : Prop :=
  match h with
  | AddFile path contents =>
      name_text path ∧ (∃ ls, contents = terminate ls ∧ Forall line_text ls)
  | DeleteFile path => name_text path
  | UpdateFile path mv chunks =>
      name_text path ∧ match mv with Some m => name_text m | None => True end ∧
      chunks ≠ [] ∧ Forall chunk_printable chunks
  end.

Definition env_printable (env : option str) : Prop :=
  match env with Some id => name_text id ∧ trim_start id = id | None => True end.

(** ** Running complete lines *)

(** What [push_delta] does when the line feed after [l] arrives. *)
Definition run_line (p : StreamingPatchParser) (l : str) : result StreamingPatchParser ParseError :=
  process_line (take_line p) l.

Lemma handle_buffer p t p' b :
  handle_hunk_headers_and_end_patch p t = Ok (p', b) → line_buffer p' = line_buffer p.
Proof.
  assert (Hs : ∀ h m, start_hunk p t h m = Ok (p', b) → line_buffer p' = line_buffer p).
  { unfold start_hunk. intros h m (? & _ & H)%rbind_ok. by simplify_eq. }
  assert (He : (let? _ := ensure_update_hunk_is_not_empty p t in Ok (set_mode p EndedPatch, true))
               = Ok (p', b) → line_buffer p' = line_buffer p).
  { intros (? & _ & H)%rbind_ok. by simplify_eq. }
  unfold handle_hunk_headers_and_end_patch. cbv zeta.
  generalize (strip_prefix ENVIRONMENT_ID_MARKER t), (strip_prefix ADD_FILE_MARKER t),
    (strip_prefix DELETE_FILE_MARKER t), (strip_prefix UPDATE_FILE_MARKER t),
    (seqb t END_PATCH_MARKER).
  intros oe oa od ou be H. repeat case_hyp H; first [by eauto | by simplify_eq].
Qed.

Lemma process_line_buffer p l p' :
  process_line p l = Ok p' → line_buffer p' = line_buffer p.
Proof.
  unfold process_line. cbv zeta.
  destruct (mode (state p)); try (repeat case_match; intros; by simplify_eq);
    intros ([q handled] & Hq & H)%rbind_ok; apply handle_buffer in Hq;
    (destruct handled; [by simplify_eq|]); try discriminate H.
  - repeat case_match; by simplify_eq.
  - destruct (last _) as [[]|]; try discriminate H.
    apply rbind_ok in H as ([] & _ & H). by simplify_eq.
Qed.

Lemma push_chars_buffer p s rest :
  nl ∉ s →
  push_chars p (s ++ rest) =
  push_chars (mkParser (line_buffer p ++ s) (state p) (line_number p)) rest.
Proof.
  revert p. induction s as [|c s IH]; intros p Hs; simpl.
  - rewrite app_nil_r. by destruct p.
  - destruct (N.eqb_spec c nl) as [->|]; [set_solver|].
    rewrite IH by set_solver. simpl. by rewrite <- app_assoc.
Qed.

(** Complete lines of file text: [push_delta] runs [process_line] on each. *)
Lemma push_chars_lines p ls p' rest :
  line_buffer p = [] → Forall line_text ls → try_fold run_line p ls = Ok p' →
  push_chars p (terminate ls ++ rest) = push_chars p' rest ∧ line_buffer p' = [].
Proof.
  intros Hb Hls. revert p Hb. induction Hls as [|l ls [Hl Hcr] _ IH]; intros p Hb; simpl.
  - by intros [= <-].
  - intros (p1 & H1 & H2)%rbind_ok. unfold terminate. simpl. fold (terminate ls).
    rewrite <- !app_assoc. simpl. rewrite push_chars_buffer by done. rewrite Hb. simpl.
    rewrite Hcr. unfold run_line, take_line in *. simpl. rewrite H1.
    apply IH; [|done]. by apply process_line_buffer in H1.
Qed.

(** ** Lines of a hunk *)

(** Between hunks: a header may follow. *)
Definition ready (p : StreamingPatchParser) : Prop :=
  (match mode (state p) with NotStarted | EndedPatch => False | _ => True end) ∧
  ∀ line, ensure_update_hunk_is_not_empty p line = Ok tt.

(** The state reached by a header: [h] is open in mode [m]. *)
Definition opened (p : StreamingPatchParser) (h : Hunk) (m : StreamingParserMode) : StreamingPatchParser :=
  mkParser [] (mkState m (hunks (state p) ++ [h]) (environment_id (state p))) (S (line_number p)).

Lemma ready_take_line p : ready p → ready (take_line p).
Proof.
  intros [Hm He]. split; [done|]. intros line. specialize (He line).
  unfold ensure_update_hunk_is_not_empty in *. simpl. repeat case_match; done.
Qed.

Lemma trim_marker_name a m path :
  is_whitespace a = false → name_text path →
  trim_end ((a :: m) ++ path) = (a :: m) ++ path ∧ trim ((a :: m) ++ path) = (a :: m) ++ path.
Proof.
  intros Ha (_ & Hne & Ht).
  assert (E : trim_end ((a :: m) ++ path) = (a :: m) ++ path) by by apply trim_end_app.
  split; [done|]. change ((a :: m) ++ path) with (a :: (m ++ path)) in *. by rewrite trim_cons.
Qed.

(** A header line, in every mode in which a hunk may start. *)
Lemma run_header p line h m :
  ready p → trim_end line = line → trim line = line →
  handle_hunk_headers_and_end_patch (take_line p) line = start_hunk (take_line p) line h m →
  run_line p line = Ok (opened p h m).
Proof.
  intros Hr%ready_take_line Ht1 Ht2 Hh. unfold run_line, process_line. cbv zeta.
  rewrite Ht1, Ht2. destruct Hr as [Hm He].
  assert (Hs : handle_hunk_headers_and_end_patch (take_line p) line = Ok (opened p h m, true)).
  { rewrite Hh. unfold start_hunk. by rewrite He. }
  destruct (mode (state (take_line p))); try done; by rewrite Hs.
Qed.

Lemma handle_add q path :
  handle_hunk_headers_and_end_patch q (ADD_FILE_MARKER ++ path)
  = start_hunk q (ADD_FILE_MARKER ++ path) (AddFile path []) ModeAddFile.
Proof. unfold handle_hunk_headers_and_end_patch. by destruct (mode (state q)). Qed.

Lemma handle_delete q path :
  handle_hunk_headers_and_end_patch q (DELETE_FILE_MARKER ++ path)
  = start_hunk q (DELETE_FILE_MARKER ++ path) (DeleteFile path) ModeDeleteFile.
Proof. unfold handle_hunk_headers_and_end_patch. by destruct (mode (state q)). Qed.

Lemma handle_update q path :
  handle_hunk_headers_and_end_patch q (UPDATE_FILE_MARKER ++ path)
  = start_hunk q (UPDATE_FILE_MARKER ++ path) (UpdateFile path None [])
      (ModeUpdateFile (line_number q)).
Proof. unfold handle_hunk_headers_and_end_patch. by destruct (mode (state q)). Qed.

(** A line that does not start with an asterisk is not a header. *)
Lemma handle_other q c t :
  (42 =? c)%N = false → handle_hunk_headers_and_end_patch q (c :: t) = Ok (q, false).
Proof.
  intros Hc. unfold handle_hunk_headers_and_end_patch.
  assert (Hp : ∀ m, strip_prefix (42%N :: m) (c :: t) = None) by 
    (intros m; cbn [strip_prefix]; by rewrite Hc).
  assert (Hs : seqb (c :: t) END_PATCH_MARKER = false).
  { apply seqb_neq. intros [= ->]. by vm_compute in Hc. }
  rewrite Hs.
  rewrite (Hp (tail ENVIRONMENT_ID_MARKER) : strip_prefix ENVIRONMENT_ID_MARKER _ = _).
  rewrite (Hp (tail ADD_FILE_MARKER) : strip_prefix ADD_FILE_MARKER _ = _).
  rewrite (Hp (tail DELETE_FILE_MARKER) : strip_prefix DELETE_FILE_MARKER _ = _).
  rewrite (Hp (tail UPDATE_FILE_MARKER) : strip_prefix UPDATE_FILE_MARKER _ = _).
  by destruct (mode (state q)).
Qed.

(** The added lines of a new file. *)
Lemma run_added p hs path acc ls :
  hunks (state p) = hs ++ [AddFile path acc] → mode (state p) = ModeAddFile →
  ∃ p', try_fold run_line p (map (fun l => 43%N :: l) ls) = Ok p' ∧
        mode (state p') = ModeAddFile ∧ environment_id (state p') = environment_id (state p) ∧
        hunks (state p') = hs ++ [AddFile path (acc ++ terminate ls)].
Proof.
  revert p acc. induction ls as [|l ls IH]; intros p acc Hh Hm; simpl.
  - exists p. by rewrite app_nil_r.
  - destruct (trim_end_cons 43 l) as [t Ht]; [done|].
    assert (Hrun : run_line p (43%N :: l) =
      Ok (set_hunks (take_line p) (hs ++ [AddFile path (acc ++ l ++ [nl])]))).
    { unfold run_line, process_line. cbv zeta. simpl (mode _). rewrite Hm, trim_cons, Ht by done.
      rewrite handle_other by done. simpl. rewrite Hh, last_snoc. by rewrite update_last_snoc. }
    rewrite Hrun. simpl.
    destruct (IH (set_hunks (take_line p) (hs ++ [AddFile path (acc ++ l ++ [nl])]))
                 (acc ++ l ++ [nl])) as (p' & -> & ? & ? & Hp'); [done|done|].
    exists p'. split_and!; [done..|]. rewrite Hp'. unfold terminate. simpl. by rewrite <- !app_assoc.
Qed.

(** ** Lines of an update hunk *)

(** The parser inside an update hunk. *)
Definition updating (n : nat) (hs : list Hunk) (path : str) (mv : option str)
    (chunks : list UpdateFileChunk) (env : option str) (ln : nat) : StreamingPatchParser :=
  mkParser [] (mkState (ModeUpdateFile n) (hs ++ [UpdateFile path mv chunks]) env) ln.

Lemma run_updating n hs path mv chunks env ln line mv' chunks' :
  (∀ q, mode (state q) = ModeUpdateFile n →
        handle_hunk_headers_and_end_patch q (trim_end line) = Ok (q, false)) →
  update_line_effect (S ln) line mv chunks = Ok (mv', chunks') →
  run_line (updating n hs path mv chunks env ln) line =
  Ok (updating n hs path mv' chunks' env (S ln)).
Proof.
  intros Hh Hu. unfold run_line, process_line. cbv zeta. simpl (mode _). cbv iota.
  rewrite Hh by done. simpl. rewrite last_snoc, Hu. simpl. by rewrite update_last_snoc.
Qed.

(** Diff lines go to the open chunk. *)
Lemma effect_diff_line ln c line mv cs d :
  c = 45%N ∨ c = 43%N → is_end_of_file d = false →
  update_line_effect ln (c :: line) mv (cs ++ [d]) =
  Ok (mv, cs ++ [(if (c =? 45)%N then push_old else push_new) line d]).
Proof.
  intros Hc Heof. unfold update_line_effect.
  assert (Hw : is_whitespace c = false) by (destruct Hc as [-> | ->]; done).
  destruct (trim_end_cons c line Hw) as [t ->]. cbv zeta.
  rewrite last_is_snoc, Heof. cbn [andb].
  destruct (cs ++ [d]) as [|x l] eqn:E; [by destruct cs|]. rewrite <- E.
  assert (Hpd : ∀ f, push_diff_line f (cs ++ [d]) = cs ++ [f d]).
  { intros f. unfold push_diff_line. rewrite E, <- E. apply update_last_snoc. }
  by destruct Hc as [-> | ->]; cbn -[push_diff_line]; rewrite Hpd.
Qed.

Lemma run_diff_lines n hs path mv cs d env ln ols nls :
  is_end_of_file d = false →
  ∃ ln', try_fold run_line (updating n hs path mv (cs ++ [d]) env ln)
           (map (fun l => 45%N :: l) ols ++ map (fun l => 43%N :: l) nls) =
         Ok (updating n hs path mv
               (cs ++ [mkChunk (change_context d) (old_lines d ++ ols) (new_lines d ++ nls) false])
               env ln').
Proof.
  intros Heof. revert d Heof ln.
  assert (Hstep : ∀ c l d ln, c = 45%N ∨ c = 43%N → is_end_of_file d = false →
    run_line (updating n hs path mv (cs ++ [d]) env ln) (c :: l) =
    Ok (updating n hs path mv (cs ++ [(if (c =? 45)%N then push_old else push_new) l d]) env (S ln))).
  { intros c l d ln Hc Hd. apply run_updating; [|by apply effect_diff_line].
    intros q _. assert (Hw : is_whitespace c = false) by (destruct Hc as [-> | ->]; done).
    destruct (trim_end_cons c l Hw) as [t ->]. apply handle_other.
    by destruct Hc as [-> | ->]. }
  induction ols as [|l ols IH]; intros d Hd ln; simpl.
  - revert d Hd ln. induction nls as [|l nls IH]; intros d Hd ln; simpl.
    + exists ln. rewrite !app_nil_r. destruct d; simpl in *. by subst.
    + rewrite Hstep by auto. simpl. destruct (IH (push_new l d) Hd (S ln)) as [ln' ->].
      exists ln'. simpl. by rewrite app_nil_r, <- app_assoc.
  - rewrite Hstep by auto. simpl. destruct (IH (push_old l d) Hd (S ln)) as [ln' ->].
    exists ln'. simpl. by rewrite <- app_assoc.
Qed.

Lemma effect_context ln ctx mv cs :
  last_is chunk_is_blank cs = false →
  match ctx with Some c => name_text c | None => True end →
  let line := match ctx with
              | None => EMPTY_CHANGE_CONTEXT_MARKER
              | Some c => CHANGE_CONTEXT_MARKER ++ c
              end in
  trim_end line = line ∧
  update_line_effect ln line mv cs = Ok (mv, cs ++ [empty_chunk ctx]).
Proof.
  intros Hb Hctx line.
  assert (Ht : trim_end line = line).
  { subst line. destruct ctx as [c|]; [|done]. by apply (trim_marker_name 64 [64; 32]%N c). }
  split; [done|]. unfold update_line_effect. rewrite Ht, Hb. subst line. cbv zeta.
  assert (Hmv : (match cs, mv with
                 | [], None => strip_prefix MOVE_TO_MARKER
                     match ctx with
                     | None => EMPTY_CHANGE_CONTEXT_MARKER
                     | Some c => CHANGE_CONTEXT_MARKER ++ c
                     end
                 | _, _ => None end) = None) by (by destruct cs, mv, ctx).
  rewrite Hmv. destruct ctx as [c|]; by destruct (last_is is_end_of_file cs).
Qed.

Lemma effect_eof ln mv cs d :
  is_end_of_file d = false → chunk_is_blank d = false →
  update_line_effect ln EOF_MARKER mv (cs ++ [d]) = Ok (mv, cs ++ [mark_eof d]).
Proof.
  intros He Hb. unfold update_line_effect. rewrite !last_is_snoc, He, Hb.
  rewrite update_last_snoc. by destruct cs, mv.
Qed.

Lemma run_chunk n hs path mv cs c env ln :
  last_is chunk_is_blank cs = false → chunk_printable c →
  ∃ ln', try_fold run_line (updating n hs path mv cs env ln) (render_chunk c) =
         Ok (updating n hs path mv (cs ++ [c]) env ln').
Proof.
  intros Hb (Hnb & Hctx & Hold & Hnew). unfold render_chunk.
  destruct (effect_context (S ln) (change_context c) mv cs Hb Hctx) as [Ht He].
  cbn [try_fold]. rewrite (run_updating _ _ _ _ _ _ _ _ mv (cs ++ [empty_chunk (change_context c)])).
  2:{ intros q _. rewrite Ht. destruct (change_context c); by apply handle_other. }
  2:{ done. }
  simpl. rewrite app_assoc, try_fold_app.
  destruct (run_diff_lines n hs path mv cs (empty_chunk (change_context c)) env (S ln)
              (old_lines c) (new_lines c) eq_refl) as [ln' ->]. simpl.
  destruct c as [ctx ol nw eof]. simpl in *. destruct eof; [|by exists ln'].
  exists (S ln'). cbn [try_fold].
  rewrite (run_updating _ _ _ _ _ _ _ _ mv (cs ++ [mkChunk ctx ol nw true])); [done|..].
  - intros q Hq. unfold handle_hunk_headers_and_end_patch. by rewrite Hq.
  - by apply effect_eof.
Qed.

Lemma run_chunks n hs path mv cs chunks env ln :
  last_is chunk_is_blank cs = false → Forall chunk_printable chunks →
  ∃ ln', try_fold run_line (updating n hs path mv cs env ln) (concat (map render_chunk chunks)) =
         Ok (updating n hs path mv (cs ++ chunks) env ln').
Proof.
  intros Hb Hall. revert cs ln Hb. induction Hall as [|c chunks Hc _ IH]; intros cs ln Hb.
  - exists ln. by rewrite app_nil_r.
  - cbn [map concat]. rewrite try_fold_app.
    destruct (run_chunk n hs path mv cs c env ln Hb Hc) as [ln1 ->]. cbn [rbind].
    destruct (IH (cs ++ [c]) ln1) as [ln2 ->].
    { rewrite last_is_snoc. apply Hc. }
    exists ln2. by rewrite <- app_assoc.
Qed.

(** ** Whole hunks *)

Lemma ready_done p h :
  hunk_ok h → (match mode (state p) with NotStarted | EndedPatch => False | _ => True end) →
  last (hunks (state p)) = Some h → ready p.
Proof.
  intros Hok Hm Hl. split; [done|]. intros line. unfold ensure_update_hunk_is_not_empty.
  rewrite Hl. destruct h as [| |path mv chunks]; [done..|]. destruct Hok as [Hne Hall].
  destruct (list_snoc_case chunks) as [->|(cs & c & ->)]; [done|].
  rewrite last_is_snoc. apply Forall_app in Hall as [_ Hc%Forall_inv]. rewrite Hc.
  by destruct cs.
Qed.

Lemma terminated_lines_terminate ls :
  Forall line_text ls → terminated_lines (terminate ls) = ls.
Proof.
  unfold terminated_lines, terminate. induction 1 as [|l ls [Hl _] _ IH]; [done|].
  cbn [map concat]. rewrite <- app_assoc. cbn [app]. rewrite split_on_app by done.
  destruct (split_on nl (concat (map (fun l => l ++ [10%N]) ls))) as [|x xs] eqn:E.
  - by apply split_on_nonempty in E.
  - change (removelast (l :: x :: xs)) with (l :: removelast (x :: xs)). by rewrite IH.
Qed.

Lemma hunk_printable_ok h : hunk_printable h → hunk_ok h.
Proof.
  destruct h as [| |path mv chunks]; simpl; [done..|]. intros (_ & _ & Hne & Hall).
  split; [done|]. eapply Forall_impl; [exact Hall|]. by intros c [? _].
Qed.

Lemma run_update_hunk p path mv chunks :
  ready p → hunk_printable (UpdateFile path mv chunks) →
  ∃ n ln, try_fold run_line p (render_hunk (UpdateFile path mv chunks)) =
    Ok (updating n (hunks (state p)) path mv chunks (environment_id (state p)) ln).
Proof.
  intros Hr (Hn & Hmv & Hne & Hall). cbn [render_hunk try_fold].
  destruct (trim_marker_name 42 (tail UPDATE_FILE_MARKER) path eq_refl Hn) as [Ht1 Ht2].
  rewrite (run_header p (UPDATE_FILE_MARKER ++ path) (UpdateFile path None []) (ModeUpdateFile (S (line_number p)))
             Hr Ht1 Ht2 (handle_update _ _)). cbn [rbind].
  set (n := S (line_number p)) in *. set (hs := hunks (state p)) in *.
  set (env := environment_id (state p)) in *. exists n.
  assert (Hmove : ∃ ln, try_fold run_line (updating n hs path None [] env n)
      match mv with Some m => [MOVE_TO_MARKER ++ m] | None => [] end
      = Ok (updating n hs path mv [] env ln)).
  { destruct mv as [m|]; [|by exists n]. exists (S n). cbn [try_fold].
    destruct (trim_marker_name 42 (tail MOVE_TO_MARKER) m eq_refl Hmv) as [Hm1 _].
    change (42%N :: tail MOVE_TO_MARKER) with MOVE_TO_MARKER in Hm1.
    rewrite (run_updating _ _ _ _ _ _ _ _ (Some m) []); [done|..].
    - intros q Hq. rewrite Hm1. unfold handle_hunk_headers_and_end_patch. by rewrite Hq.
    - unfold update_line_effect. rewrite Hm1. done. }
  destruct Hmove as [ln Hmove]. rewrite try_fold_app.
  change (opened p (UpdateFile path None []) (ModeUpdateFile n))
    with (updating n hs path None [] env n). rewrite Hmove. cbn [rbind].
  exact (run_chunks n hs path mv [] chunks env ln eq_refl Hall).
Qed.

Lemma run_hunk p h :
  ready p → hunk_printable h →
  ∃ p', try_fold run_line p (render_hunk h) = Ok p' ∧ ready p' ∧
        hunks (state p') = hunks (state p) ++ [h] ∧
        environment_id (state p') = environment_id (state p).
Proof.
  intros Hr Hp. pose proof (hunk_printable_ok h Hp) as Hok.
  destruct h as [path contents|path|path mv chunks]; simpl in Hp; cbn [render_hunk try_fold].
  - destruct Hp as (Hn & ls & -> & Hls). rewrite terminated_lines_terminate by done.
    destruct (trim_marker_name 42 (tail ADD_FILE_MARKER) path eq_refl Hn) as [Ht1 Ht2].
    rewrite (run_header p (ADD_FILE_MARKER ++ path) (AddFile path []) ModeAddFile Hr Ht1 Ht2 (handle_add _ _)).
    cbn [rbind]. destruct (run_added (opened p (AddFile path []) ModeAddFile)
      (hunks (state p)) path [] ls eq_refl eq_refl) as (p' & -> & Hm & He & Hh).
    exists p'. split_and!; [done| |done|done].
    eapply ready_done; [exact Hok|by rewrite Hm|by rewrite Hh, last_snoc].
  - destruct (trim_marker_name 42 (tail DELETE_FILE_MARKER) path eq_refl Hp) as [Ht1 Ht2].
    rewrite (run_header p (DELETE_FILE_MARKER ++ path) (DeleteFile path) ModeDeleteFile Hr Ht1 Ht2 (handle_delete _ _)).
    eexists. split_and!; [done| |done|done].
    eapply ready_done; [exact Hok|done|simpl; by rewrite last_snoc].
  - destruct (run_update_hunk p path mv chunks Hr Hp) as (n & ln & E).
    eexists. split_and!; [exact E| |done|done].
    eapply ready_done; [exact Hok|done|simpl; by rewrite last_snoc].
Qed.

Lemma run_hunks p hs :
  ready p → Forall hunk_printable hs →
  ∃ p', try_fold run_line p (concat (map render_hunk hs)) = Ok p' ∧ ready p' ∧
        hunks (state p') = hunks (state p) ++ hs ∧
        environment_id (state p') = environment_id (state p).
Proof.
  intros Hr Hall. revert p Hr. induction Hall as [|h hs Hh _ IH]; intros p Hr.
  - exists p. by rewrite app_nil_r.
  - cbn [map concat]. rewrite try_fold_app.
    destruct (run_hunk p h Hr Hh) as (p1 & -> & Hr1 & Hh1 & He1). cbn [rbind].
    destruct (IH p1 Hr1) as (p2 & -> & Hr2 & Hh2 & He2). exists p2.
    split_and!; [done..| |congruence]. by rewrite Hh2, Hh1, <- app_assoc.
Qed.

Lemma run_body env hs :
  env_printable env → Forall hunk_printable hs →
  ∃ p, try_fold run_line default_parser (render_body env hs) = Ok p ∧ ready p ∧
       hunks (state p) = hs ∧ environment_id (state p) = env.
Proof.
  intros He Hall. unfold render_body. cbn [try_fold].
  change (run_line default_parser BEGIN_PATCH_MARKER)
    with (Ok (E := ParseError) (mkParser [] (mkState StartedPatch [] None) 1)). cbn [rbind].
  rewrite try_fold_app.
  assert (Henv : ∃ ln, try_fold run_line (mkParser [] (mkState StartedPatch [] None) 1)
      (render_env env) = Ok (mkParser [] (mkState StartedPatch [] env) ln)).
  { destruct env as [i|]; [|by exists 1]. exists 2. destruct He as [(Hnl & Hne & Ht) Hs].
    unfold render_env. cbn [try_fold]. unfold run_line, process_line. cbv zeta. simpl (mode _).
    assert (Htl : trim (ENVIRONMENT_ID_MARKER ++ 32%N :: i) = ENVIRONMENT_ID_MARKER ++ 32%N :: i).
    { apply (trim_marker_name 42 (tail ENVIRONMENT_ID_MARKER) (32%N :: i)); [done|].
      split_and!; [set_solver|done|]. by apply (trim_end_app [32%N] i). }
    rewrite Htl. unfold handle_hunk_headers_and_end_patch. simpl (mode _).
    rewrite strip_prefix_app. simpl (PatchParser.environment_id _). cbv iota zeta.
    assert (Hti : trim (32%N :: i) = i) by (unfold trim; simpl; by rewrite Hs).
    rewrite Hti. destruct i; [done|]. done. }
  destruct Henv as [ln ->]. cbn [rbind].
  destruct (run_hunks (mkParser [] (mkState StartedPatch [] env) ln) hs) as (p & -> & Hr & Hh & Hp);
    [done|done|]. by exists p.
Qed.

(** ** Whole patches *)

Lemma line_text_cons c l : c ≠ nl → c ≠ cr → line_text l → line_text (c :: l).
Proof.
  intros Hn Hc [Hl Hs]. split; [set_solver|]. unfold strip_cr in *.
  destruct (strip_suffix [13%N] (c :: l)) as [r|] eqn:E; [|done]. exfalso.
  apply strip_suffix_Some in E. destruct r as [|x r]; [by injection E as -> ->|].
  injection E as -> ->. rewrite (proj2 (strip_suffix_Some _ _ r) eq_refl) in Hs. simpl in Hs.
  apply (f_equal length) in Hs. rewrite length_app in Hs. simpl in Hs. lia.
Qed.

Lemma line_text_marker a m path :
  nl ∉ a :: m → is_whitespace a = false → name_text path → line_text ((a :: m) ++ path).
Proof.
  intros Hm Ha Hp. split; [|by apply strip_cr_id, trim_marker_name].
  destruct Hp as (? & _ & _). apply not_elem_of_app. done.
Qed.

Lemma line_text_map c ls :
  c ≠ nl → c ≠ cr → Forall line_text ls → Forall line_text (map (fun l => c :: l) ls).
Proof. intros Hn Hc. induction 1; simpl; constructor; auto using line_text_cons. Qed.

Ltac no_nl := apply (bool_decide_unpack _); vm_compute; exact I.

Lemma render_chunk_lines c : chunk_printable c → Forall line_text (render_chunk c).
Proof.
  intros (_ & Hctx & Ho & Hn). unfold render_chunk. constructor.
  - destruct (change_context c) as [ctx|]; [|by split; [no_nl|]].
    apply (line_text_marker 64 [64; 32]%N ctx); [no_nl|done..].
  - rewrite !Forall_app. split_and!; [by apply line_text_map..|].
    destruct (is_end_of_file c); [|done]. constructor; [|done]. by split; [no_nl|].
Qed.

Lemma render_hunk_lines h : hunk_printable h → Forall line_text (render_hunk h).
Proof.
  destruct h as [path contents|path|path mv chunks]; simpl.
  - intros (Hp & ls & -> & Hls). rewrite terminated_lines_terminate by done.
    constructor; [|by apply line_text_map].
    apply (line_text_marker 42 (tail ADD_FILE_MARKER)); [no_nl|done..].
  - intros Hp. constructor; [|done].
    apply (line_text_marker 42 (tail DELETE_FILE_MARKER)); [no_nl|done..].
  - intros (Hp & Hm & _ & Hall). constructor.
    + apply (line_text_marker 42 (tail UPDATE_FILE_MARKER)); [no_nl|done..].
    + apply Forall_app. split.
      * destruct mv; [|done]. constructor; [|done].
        apply (line_text_marker 42 (tail MOVE_TO_MARKER)); [no_nl|done..].
      * induction Hall; [done|]. cbn [map concat]. apply Forall_app. auto using render_chunk_lines.
Qed.

Lemma render_body_lines env hs :
  env_printable env → Forall hunk_printable hs → Forall line_text (render_body env hs).
Proof.
  intros He Hall. unfold render_body. constructor; [by split; [no_nl|]|].
  apply Forall_app. split.
  - destruct env as [i|]; [|done]. destruct He as [(Hnl & Hne & Ht) _]. constructor; [|done].
    apply (line_text_marker 42 (tail ENVIRONMENT_ID_MARKER) (32%N :: i)); [no_nl|done|].
    split_and!; [set_solver|done|]. by apply (trim_end_app [32%N] i).
  - induction Hall; [done|]. cbn [map concat]. apply Forall_app. auto using render_hunk_lines.
Qed.

Lemma join_terminate ls last : join [nl] (ls ++ [last]) = terminate ls ++ last.
Proof.
  induction ls as [|l ls IH]; [done|]. cbn [app].
  destruct (ls ++ [last]) as [|x xs] eqn:E; [by destruct ls|].
  change (join [nl] (l :: x :: xs)) with (l ++ nl :: join [nl] (x :: xs)).
  rewrite IH. unfold terminate. cbn [map concat]. by rewrite <- !app_assoc.
Qed.

Lemma lines_of_text ls last :
  Forall line_text ls → last ≠ [] → lines_of (ls ++ [last]) = ls ++ [last].
Proof.
  intros Hls Hl. induction Hls as [|l ls [_ Hcr] _ IH]; simpl; [by destruct last|].
  destruct (ls ++ [last]) as [|x xs] eqn:E; [by destruct ls|]. by rewrite IH, Hcr.
Qed.

Lemma lines_render ls :
  Forall line_text ls →
  lines (join [nl] (ls ++ [END_PATCH_MARKER])) = ls ++ [END_PATCH_MARKER].
Proof.
  intros Hls. unfold lines. rewrite split_on_join; [by apply lines_of_text|by destruct ls|].
  apply Forall_app. split; [|constructor; [no_nl|done]].
  eapply Forall_impl; [exact Hls|]. by intros l [? _].
Qed.

Lemma check_render body :
  head body = Some BEGIN_PATCH_MARKER →
  check_patch_boundaries_strict (body ++ [END_PATCH_MARKER]) = Ok (body ++ [END_PATCH_MARKER]).
Proof.
  intros Hh. unfold check_patch_boundaries_strict. rewrite last_snoc.
  destruct body as [|b body]; [done|]. by injection Hh as ->.
Qed.

Lemma finish_end p :
  ready p → line_buffer p = END_PATCH_MARKER →
  finish p = (set_mode (take_line p) EndedPatch, Ok (hunks (state p))).
Proof.
  intros [_ He]%ready_take_line Hb. unfold finish, finish_line. rewrite Hb.
  change (seqb END_PATCH_MARKER []) with false. cbv iota zeta.
  change (trim END_PATCH_MARKER) with END_PATCH_MARKER.
  rewrite seqb_refl, He. done.
Qed.

(** C21: round trip: printing any printable list of hunks (and environment id)
    in the patch grammar and parsing the text gives back the same hunks, the
    same environment id and the text itself. *)
Theorem parse_render_patch env hs :
  env_printable env → Forall hunk_printable hs →
  parse_patch (render_patch env hs) = Ok (mkArgs (render_patch env hs) hs None env).
Proof.
  intros He Hall. pose proof (render_body_lines env hs He Hall) as Hls.
  destruct (run_body env hs He Hall) as (p & Hrun & Hr & Hh & Henv).
  unfold parse_patch, parse_patch_text, render_patch, PARSE_IN_STRICT_MODE. cbv zeta.
  rewrite join_terminate at 1.
  assert (Htrim : trim (terminate (render_body env hs) ++ END_PATCH_MARKER)
                  = terminate (render_body env hs) ++ END_PATCH_MARKER).
  { by rewrite <- trim_start_trim_end, trim_end_app. }
  rewrite Htrim, <- join_terminate, lines_render by done.
  unfold check_patch_boundaries_lenient. rewrite check_render by done. cbn [rbind].
  rewrite join_terminate. unfold push_delta.
  destruct (push_chars_lines default_parser _ p END_PATCH_MARKER eq_refl Hls Hrun) as [-> Hb].
  rewrite <- (app_nil_r END_PATCH_MARKER) at 1. rewrite push_chars_buffer by no_nl.
  cbn [push_chars rbind]. rewrite Hb, finish_end; [|exact Hr|done].
  simpl. by rewrite Hh, Henv.
Qed.

Definition sample_hunks : list Hunk :=
  [ AddFile (lit "a.txt") (lit "x" ++ [nl] ++ lit "y" ++ [nl]);
    DeleteFile (lit "b.txt");
    UpdateFile (lit "c.txt") (Some (lit "d.txt"))
      [ mkChunk (Some (lit "fn main")) [lit "old"] [lit "new"; lit ""] true ] ].

Lemma parse_render_patch_witness :
  parse_patch (render_patch (Some (lit "env-1")) sample_hunks) =
  Ok (mkArgs (render_patch (Some (lit "env-1")) sample_hunks) sample_hunks None (Some (lit "env-1"))).
Proof.
  assert (Hname : ∀ s, bool_decide (nl ∉ s) && bool_decide (s ≠ []) && bool_decide (trim_end s = s)
    = true → name_text s).
  { intros s [[?%bool_decide_eq_true ?%bool_decide_eq_true]%andb_true_iff
      ?%bool_decide_eq_true]%andb_true_iff. by split_and!. }
  assert (Hline : ∀ s, bool_decide (nl ∉ s) && bool_decide (strip_cr s = s) = true → line_text s).
  { intros s [?%bool_decide_eq_true ?%bool_decide_eq_true]%andb_true_iff. by split. }
  apply (parse_render_patch (Some (lit "env-1")) sample_hunks).
  - split; [apply Hname; vm_compute; reflexivity|reflexivity].
  - apply Forall_cons. split; [|apply Forall_cons; split; [|apply Forall_cons; split; [|constructor]]].
    + split; [apply Hname; vm_compute; reflexivity|].
      exists [lit "x"; lit "y"]. split; [reflexivity|].
      repeat constructor; apply Hline; vm_compute; reflexivity.
    + apply Hname; vm_compute; reflexivity.
    + split_and!; [apply Hname; vm_compute; reflexivity..|discriminate|].
      apply Forall_cons. split; [|constructor].
      split_and!; [reflexivity|apply Hname; vm_compute; reflexivity|..];
        repeat constructor; apply Hline; vm_compute; reflexivity.
Defined.
