(* ===== verification/PatchApply.v ===== *)
(** * Applying chunks to the text of a file

    Models [compute_replacements], [apply_replacements] and the pure part of
    [derive_new_contents_from_chunks] of
    [codex/codex-rs/apply-patch/src/lib.rs].  [Vec::insert] panics past the
    end of the vector: [apply_replacements] answers [None] there. *)

From S2P Require Import Prelude RustStr SeekSequence PatchParser.

(** [std::io::Error]: its kind and its text. *)
Inductive ErrorKind := NotFound | InvalidInput | InvalidData | OtherKind.
Record io_error := mkIo { io_kind : ErrorKind; io_text : str }.

(** The [PathUriParseError] of the path library is kept as its text. *)
Inductive ApplyPatchError :=
| ApplyParseError (e : ParseError)
| ApplyIoError (context : str) (source : io_error)
| ComputeReplacements (message : str)
| ApplyPathUri (e : str)
| ImplicitInvocation.

(** [(start_index, old_len, new_lines)]. *)
Definition Replacement : Type := nat * nat * list str.
Definition r_start (r : Replacement) : nat := r.1.1.
Definition r_len (r : Replacement) : nat := r.1.2.
Definition r_new (r : Replacement) : list str := r.2.

Definition is_empty_str (s : str) : bool := seqb s [].

(** [&v[..v.len() - 1]]. *)
Definition drop_last {A} (l : list A) : list A := take (length l - 1) l.

(** The pattern and new lines used for a chunk: if the old lines are not found
    and end with an empty line, both are retried without it. *)
Definition locate_chunk (original_lines : list str) (line_index : nat) (chunk : UpdateFileChunk) :
    option (nat * list str * list str) :=
  match seek_sequence original_lines (old_lines chunk) line_index (is_end_of_file chunk) with
  | Some start_idx => Some (start_idx, old_lines chunk, new_lines chunk)
  | None =>
      if last_is is_empty_str (old_lines chunk) then
        let pattern := drop_last (old_lines chunk) in
        let new_slice := if last_is is_empty_str (new_lines chunk)
                         then drop_last (new_lines chunk) else new_lines chunk in
        match seek_sequence original_lines pattern line_index (is_end_of_file chunk) with
        | Some start_idx => Some (start_idx, pattern, new_slice)
        | None => None
        end
      else None
  end.

(** The line after the chunk's context line, or the current line. *)
Definition seek_context (original_lines : list str) (path : str) (line_index : nat)
    (chunk : UpdateFileChunk) : result nat ApplyPatchError :=
  match change_context chunk with
  | None => Ok line_index
  | Some ctx_line =>
      match seek_sequence original_lines [ctx_line] line_index false with
      | Some idx => Ok (S idx)
      | None => Err (ComputeReplacements
                       (lit "Failed to find context '" ++ ctx_line ++ lit "' in " ++ path))
      end
  end.

(** One iteration of the loop of [compute_replacements]. *)
Definition chunk_step (original_lines : list str) (path : str)
    (st : nat * list Replacement) (chunk : UpdateFileChunk) :
    result (nat * list Replacement) ApplyPatchError :=
  let '(line_index, replacements) := st in
  let? line_index := seek_context original_lines path line_index chunk in
  if bool_decide (old_lines chunk = []) then
    let insertion_idx :=
      if last_is is_empty_str original_lines then length original_lines - 1
      else length original_lines in
    Ok (line_index, replacements ++ [(insertion_idx, 0, new_lines chunk)])
  else
    match locate_chunk original_lines line_index chunk with
    | Some (start_idx, pattern, new_slice) =>
        Ok (start_idx + length pattern,
            replacements ++ [(start_idx, length pattern, new_slice)])
    | None => Err (ComputeReplacements
                     (lit "Failed to find expected lines in " ++ path ++ lit ":" ++ [nl] ++
                      join [nl] (old_lines chunk)))
    end.

(** [sort_by_key(|(index, _, _)| *index)]: a stable sort. *)
Definition sort_by_start (l : list Replacement) : list Replacement :=
  sort_by (fun r q => r_start r <=? r_start q) l.

Definition compute_replacements (original_lines : list str) (path : str)
    (chunks : list UpdateFileChunk) : result (list Replacement) ApplyPatchError :=
  let? '(_, replacements) := try_fold (chunk_step original_lines path) (0, []) chunks in
  Ok (sort_by_start replacements).

(** [for _ in 0..old_len { if start_idx < lines.len() { lines.remove(start_idx); } }]. *)
Fixpoint remove_lines (start_idx old_len : nat) (ls : list str) : list str :=
  match old_len with
  | O => ls
  | S n =>
      remove_lines start_idx n (if start_idx <? length ls then delete start_idx ls else ls)
  end.

(** [Vec::insert]: [None] is the panic past the end. *)
Definition vec_insert {A} (i : nat) (x : A) (l : list A) : option (list A) :=
  if i <=? length l then Some (take i l ++ x :: drop i l) else None.

(** [for (offset, new_line) in new_segment { lines.insert(start_idx + offset, ..) }]. *)
Fixpoint insert_lines (idx : nat) (new_segment : list str) (ls : list str) : option (list str) :=
  match new_segment with
  | [] => Some ls
  | l :: seg =>
      match vec_insert idx l ls with
      | Some ls => insert_lines (S idx) seg ls
      | None => None
      end
  end.

Definition apply_replacement (ls : list str) (r : Replacement) : option (list str) :=
  insert_lines (r_start r) (r_new r) (remove_lines (r_start r) (r_len r) ls).

(** The replacements are applied from the last to the first. *)
Fixpoint apply_in_order (ls : list str) (rs : list Replacement) : option (list str) :=
  match rs with
  | [] => Some ls
  | r :: rs => match apply_replacement ls r with Some ls => apply_in_order ls rs | None => None end
  end.

Definition apply_replacements (ls : list str) (rs : list Replacement) : option (list str) :=
  apply_in_order ls (rev rs).

(** The lines of the original text: [split('\n')] without the empty element
    after a final newline. *)
Definition original_lines_of (original_contents : str) : list str :=
  let ls := split_on nl original_contents in
  if last_is is_empty_str ls then drop_last ls else ls.

(** The text of the new lines: a final newline is ensured by an empty last
    element. *)
Definition contents_of_lines (new_lines : list str) : str :=
  join [nl] (if last_is is_empty_str new_lines then new_lines else new_lines ++ [[]]).

(** [derive_new_contents_from_chunks] once the file is read; the inner [None]
    is a panic. *)
Definition derive_new_contents (original_contents path_text : str) (chunks : list UpdateFileChunk) :
    result (option str) ApplyPatchError :=
  let original_lines := original_lines_of original_contents in
  let? replacements := compute_replacements original_lines path_text chunks in
  Ok (contents_of_lines <$> apply_replacements original_lines replacements).

(** ** Bounds *)

Definition in_bounds (ls : list str) (r : Replacement) : Prop := r_start r + r_len r ≤ length ls.

Lemma seek_in_bounds ls pattern start eof i :
  start ≤ length ls → seek_sequence ls pattern start eof = Some i →
  i + length pattern ≤ length ls.
Proof.
  intros Hs H. destruct (decide (pattern = [])) as [->|Hne].
  - injection H as ->. simpl. lia.
  - by apply seek_sequence_sound in H as (_ & ? & _).
Qed.

Lemma locate_chunk_bounds ls idx c i p n :
  idx ≤ length ls → locate_chunk ls idx c = Some (i, p, n) → i + length p ≤ length ls.
Proof.
  intros Hi. unfold locate_chunk. intros H. repeat case_hyp H; simplify_eq;
    eauto using seek_in_bounds.
Qed.

Lemma seek_context_bounds ls path idx c idx' :
  idx ≤ length ls → seek_context ls path idx c = Ok idx' → idx' ≤ length ls.
Proof.
  unfold seek_context. intros Hi H. repeat case_hyp H; simplify_eq; [|done].
  match goal with H : seek_sequence _ _ _ _ = Some _ |- _ =>
    apply seek_in_bounds in H; simpl in H; lia end.
Qed.

Lemma chunk_step_bounds ls path st c st' :
  st.1 ≤ length ls ∧ Forall (in_bounds ls) st.2 → chunk_step ls path st c = Ok st' →
  st'.1 ≤ length ls ∧ Forall (in_bounds ls) st'.2.
Proof.
  destruct st as [idx rs]. intros [Hi Hrs] (idx' & Hctx & H)%rbind_ok. simpl in *.
  apply seek_context_bounds in Hctx; [|done].
  destruct (bool_decide (old_lines c = [])).
  - injection H as <-. simpl. split; [done|]. apply Forall_app. split; [done|].
    constructor; [|done]. unfold in_bounds, r_start, r_len; simpl. case_match; lia.
  - destruct (locate_chunk ls idx' c) as [[[i p] n]|] eqn:E; [|done]. injection H as <-. simpl.
    apply locate_chunk_bounds in E; [|done]. split; [done|]. apply Forall_app. split; [done|].
    by constructor.
Qed.

(** ** Sorting *)

Definition starts_from (k : nat) (rs : list Replacement) : Prop := Forall (fun r => k ≤ r_start r) rs.

Inductive sorted_starts : list Replacement → Prop :=
| sorted_nil : sorted_starts []
| sorted_cons r rs : starts_from (r_start r) rs → sorted_starts rs → sorted_starts (r :: rs).

Lemma sort_by_start_sorted l : sorted_starts (sort_by_start l).
Proof.
  assert (StronglySorted (fun r q => r_start r ≤ r_start q) (sort_by_start l)) as H.
  { apply sort_by_sorted; [intros ???; lia|intros ??; apply Nat.leb_le|].
    intros x y H%Nat.leb_gt. lia. }
  induction H; by constructor.
Qed.

Lemma compute_replacements_inv ls path chunks rs :
  compute_replacements ls path chunks = Ok rs → Forall (in_bounds ls) rs ∧ sorted_starts rs.
Proof.
  unfold compute_replacements. intros ([idx rs0] & H & [= <-])%rbind_ok.
  split; [|apply sort_by_start_sorted]. unfold sort_by_start. rewrite sort_by_perm.
  eapply (try_fold_inv _ (fun st => st.1 ≤ length ls ∧ Forall (in_bounds ls) st.2)) in H.
  - apply H.
  - intros ???. apply chunk_step_bounds.
  - simpl. split; [lia|constructor].
Qed.

(** ** Application *)

Definition splice {A} (s n : nat) (seg l : list A) : list A := take s l ++ seg ++ drop (s + n) l.

Lemma remove_lines_spec s n ls : remove_lines s n ls = take s ls ++ drop (s + n) ls.
Proof.
  revert ls. induction n as [|n IH]; intros ls; simpl.
  - by rewrite Nat.add_0_r, take_drop.
  - rewrite IH. destruct (Nat.ltb_spec s (length ls)).
    + rewrite delete_take_drop, take_app_le by (rewrite length_take; lia).
      rewrite take_take, Nat.min_id. f_equal.
      rewrite drop_app_ge by (rewrite length_take; lia).
      rewrite length_take, Nat.min_l, drop_drop by lia. f_equal. lia.
    + by rewrite !take_ge, !drop_ge by lia.
Qed.

Lemma insert_lines_spec idx seg ls :
  idx ≤ length ls → insert_lines idx seg ls = Some (take idx ls ++ seg ++ drop idx ls).
Proof.
  revert idx ls. induction seg as [|l seg IH]; intros idx ls Hi; simpl.
  - by rewrite take_drop.
  - unfold vec_insert. rewrite (proj2 (Nat.leb_le _ _) Hi).
    rewrite IH by (rewrite length_app, length_take; simpl; lia). f_equal.
    rewrite take_app_ge by (rewrite length_take; lia).
    rewrite drop_app_ge by (rewrite length_take; lia).
    rewrite length_take, Nat.min_l by lia. replace (S idx - idx) with 1 by lia. simpl.
    rewrite take_0, drop_0. by rewrite <- app_assoc.
Qed.

Lemma apply_replacement_spec ls r :
  r_start r ≤ length ls → apply_replacement ls r = Some (splice (r_start r) (r_len r) (r_new r) ls).
Proof.
  intros Hs. unfold apply_replacement, splice. rewrite remove_lines_spec.
  rewrite insert_lines_spec by (rewrite length_app, length_take; lia). f_equal.
  rewrite take_app_le, take_take, Nat.min_id by (rewrite length_take; lia). f_equal. f_equal.
  rewrite drop_app_ge by (rewrite length_take; lia).
  rewrite length_take, Nat.min_l, Nat.sub_diag by lia. done.
Qed.

Lemma apply_in_order_app ls rs1 rs2 :
  apply_in_order ls (rs1 ++ rs2) =
  match apply_in_order ls rs1 with Some ls => apply_in_order ls rs2 | None => None end.
Proof.
  revert ls. induction rs1 as [|r rs1 IH]; intros ls; simpl; [done|].
  by destruct (apply_replacement ls r).
Qed.

Lemma apply_replacements_cons ls r rs :
  apply_replacements ls (r :: rs) =
  match apply_replacements ls rs with Some ls => apply_replacement ls r | None => None end.
Proof.
  unfold apply_replacements. simpl. rewrite apply_in_order_app.
  destruct (apply_in_order ls (rev rs)); [|done]. simpl. by case_match.
Qed.

(** Sorted in-bounds replacements apply without panic, and leave the lines
    before the first of them alone. *)
Lemma apply_replacements_total ls rs :
  Forall (in_bounds ls) rs → sorted_starts rs →
  ∃ out, apply_replacements ls rs = Some out ∧
         ∀ k, k ≤ length ls → starts_from k rs → k ≤ length out ∧ take k out = take k ls.
Proof.
  intros Hb Hs. induction Hs as [|r rs Hr Hs IH].
  - exists ls. done.
  - apply Forall_cons in Hb as [Hrb Hb]. destruct (IH Hb) as (out & E & Hk).
    unfold in_bounds in Hrb. destruct (Hk (r_start r)) as [Hlen Htake]; [lia|done|].
    rewrite apply_replacements_cons, E, apply_replacement_spec by done.
    eexists. split; [done|]. intros k Hkl [Hkr Hks]%Forall_cons. unfold splice.
    destruct (Hk k Hkl Hks) as [_ Ht]. split.
    + rewrite length_app, length_take. lia.
    + rewrite take_app_le by (rewrite length_take; lia).
      rewrite take_take, Nat.min_l by lia. done.
Qed.

(** Updating a file never panics: whatever the file and the chunks, when
    the replacements can be computed every index used by
    [apply_replacements] is inside the vector. *)
Theorem derive_new_contents_no_panic original path chunks r :
  derive_new_contents original path chunks = Ok r → is_Some r.
Proof.
  unfold derive_new_contents. intros (rs & Hrs & [= <-])%rbind_ok.
  apply compute_replacements_inv in Hrs as [Hb Hs].
  destruct (apply_replacements_total _ _ Hb Hs) as (out & -> & _). by eexists.
Qed.

Lemma derive_new_contents_no_panic_witness :
  is_Some (contents_of_lines <$> apply_replacements [lit "a"; lit "b"] [(1, 1, [lit "c"])]).
Proof.
  apply (derive_new_contents_no_panic (lit "a" ++ [nl] ++ lit "b" ++ [nl]) (lit "f")
           [mkChunk None [lit "b"] [lit "c"] true]).
  vm_compute. reflexivity.
Defined.

(** ** What an update does to a file *)

(** The window agrees with the pattern under one of the four comparisons. *)
Definition agrees (window pattern : list str) : Prop :=
  ∃ norm, norm ∈ [id; trim_end; trim; normalise] ∧ map norm window = map norm pattern.

(** The lines looked for and put in place for a chunk: its old and new lines,
    or both without a final empty line. *)
Definition chunk_variant (c : UpdateFileChunk) (p n : list str) : Prop :=
  (p = old_lines c ∧ n = new_lines c) ∨
  (old_lines c = p ++ [[]] ∧ (n = new_lines c ∨ new_lines c = n ++ [[]])).

(** The context line of a chunk occurs in the lines before its window. *)
Definition context_in (c : UpdateFileChunk) (pre : list str) : Prop :=
  match change_context c with
  | None => True
  | Some ctx => ∃ l, l ∈ pre ∧ agrees [l] [ctx]
  end.

(** [Patched ls chunks out]: [out] is [ls] in which, for the chunks in order,
    a window agreeing with the old lines is replaced by the new lines, and all
    other lines are kept. *)
Inductive Patched : list str → list UpdateFileChunk → list str → Prop :=
| Patched_nil ls : Patched ls [] ls
| Patched_cons pre window rest c chunks p n out :
    chunk_variant c p n → agrees window p → context_in c pre →
    Patched rest chunks out →
    Patched (pre ++ window ++ rest) (c :: chunks) (pre ++ n ++ out).

(** Replacements found for chunks one after the other from [pos] on. *)
Inductive chain (ls : list str) : nat → list UpdateFileChunk → list Replacement → Prop :=
| chain_nil pos : pos ≤ length ls → chain ls pos [] []
| chain_cons pos c chunks s p n rs :
    pos ≤ s → s + length p ≤ length ls → chunk_variant c p n →
    agrees (take (length p) (drop s ls)) p →
    context_in c (take (s - pos) (drop pos ls)) →
    chain ls (s + length p) chunks rs →
    chain ls pos (c :: chunks) ((s, length p, n) :: rs).

Fixpoint splice_from (pos : nat) (ls : list str) (rs : list Replacement) : list str :=
  match rs with
  | [] => drop pos ls
  | r :: rs =>
      take (r_start r - pos) (drop pos ls) ++ r_new r ++ splice_from (r_start r + r_len r) ls rs
  end.

Lemma chain_starts ls pos chunks rs : chain ls pos chunks rs → starts_from pos rs ∧ pos ≤ length ls.
Proof.
  induction 1 as [|pos c chunks s p n rs Hs Hb _ _ _ _ [IH Hl]]; [by split; [constructor|]|].
  split; [|lia]. constructor; [done|]. eapply Forall_impl; [exact IH|]. simpl. lia.
Qed.

Lemma insert_first r rs : starts_from (r_start r) rs → insert_by (fun r q => r_start r <=? r_start q) r rs = r :: rs.
Proof. intros H. destruct H as [|q rs Hq _]; [done|]. simpl. by rewrite (proj2 (Nat.leb_le _ _) Hq). Qed.

(** Chained replacements are already in order. *)
Lemma chain_sorted ls pos chunks rs : chain ls pos chunks rs → sort_by_start rs = rs.
Proof.
  induction 1 as [|pos c chunks s p n rs Hs Hb _ _ _ H IH]; [done|]. unfold sort_by_start in *. simpl. rewrite IH.
  apply insert_first. apply chain_starts in H as [H _].
  eapply Forall_impl; [exact H|]. unfold r_start at 2. simpl. lia.
Qed.

Lemma chain_apply ls pos chunks rs :
  chain ls pos chunks rs → apply_replacements ls rs = Some (take pos ls ++ splice_from pos ls rs).
Proof.
  induction 1 as [pos|pos c chunks s p n rs Hs Hb _ _ _ H IH].
  - simpl. by rewrite take_drop.
  - rewrite apply_replacements_cons, IH.
    rewrite apply_replacement_spec by (unfold r_start; simpl; rewrite length_app, length_take; lia).
    f_equal. unfold splice, r_start, r_len, r_new. simpl.
    rewrite take_app_le, take_take, Nat.min_l by (rewrite ?length_take; lia).
    rewrite drop_app_ge by (rewrite length_take; lia).
    rewrite length_take, Nat.min_l, Nat.sub_diag, drop_0 by lia.
    assert (E : take s ls = take pos ls ++ take (s - pos) (drop pos ls)).
    { rewrite <- (take_drop pos (take s ls)) at 1.
      by rewrite take_take, Nat.min_l, skipn_firstn_comm by lia. }
    rewrite E. by rewrite <- !app_assoc.
Qed.

Lemma chain_patched ls pos chunks rs :
  chain ls pos chunks rs → Patched (drop pos ls) chunks (splice_from pos ls rs).
Proof.
  induction 1 as [pos|pos c chunks s p n rs Hs Hb Hv Hm Hc H IH]; [constructor|].
  simpl. unfold r_start, r_len, r_new. simpl.
  replace (drop pos ls) with (take (s - pos) (drop pos ls) ++ take (length p) (drop s ls) ++
    drop (s + length p) ls) at 1 by
    (rewrite <- drop_drop, take_drop; replace (drop s ls) with (drop (s - pos) (drop pos ls))
       by (rewrite drop_drop; f_equal; lia); apply take_drop).
  by eapply Patched_cons.
Qed.

Lemma seek_forward ls pattern start i :
  start ≤ length ls → seek_sequence ls pattern start false = Some i →
  start ≤ i ∧ i + length pattern ≤ length ls ∧ agrees (take (length pattern) (drop i ls)) pattern.
Proof.
  intros Hs H. destruct (decide (pattern = [])) as [->|Hne].
  - injection H as ->. split_and!; [lia|simpl; lia|].
    exists id. split; [set_solver|done].
  - apply seek_sequence_sound in H as (? & ? & norm & ? & ?); [|done].
    split_and!; [done..|]. by exists norm.
Qed.

Lemma last_is_empty_snoc (l : list str) : last_is is_empty_str l = true → l = drop_last l ++ [[]].
Proof.
  unfold last_is, drop_last. destruct (list_snoc_case l) as [->|(l' & x & ->)]; [done|].
  rewrite last_snoc. intros ->%seqb_eq. rewrite length_app. simpl.
  by rewrite Nat.add_sub, take_app_length.
Qed.

Lemma locate_forward ls idx c i p n :
  idx ≤ length ls → is_end_of_file c = false → locate_chunk ls idx c = Some (i, p, n) →
  idx ≤ i ∧ i + length p ≤ length ls ∧ chunk_variant c p n ∧
  agrees (take (length p) (drop i ls)) p.
Proof.
  intros Hi He. unfold locate_chunk. rewrite He.
  destruct (seek_sequence ls (old_lines c) idx false) as [j|] eqn:E1.
  - intros [= <- <- <-]. apply seek_forward in E1 as (? & ? & ?); [|done].
    split_and!; [done..|by left|done].
  - destruct (last_is is_empty_str (old_lines c)) eqn:Eo; [|done].
    apply last_is_empty_snoc in Eo. cbv zeta.
    destruct (seek_sequence ls (drop_last (old_lines c)) idx false) as [j|] eqn:E2; [|done].
    intros [= <- <- <-]. apply seek_forward in E2 as (? & ? & ?); [|done].
    split_and!; [done..| |done]. right. split; [done|].
    destruct (last_is is_empty_str (new_lines c)) eqn:En; [|by left].
    right. by apply last_is_empty_snoc.
Qed.

Lemma context_forward ls path idx c idx' :
  idx ≤ length ls → seek_context ls path idx c = Ok idx' →
  idx ≤ idx' ≤ length ls ∧ ∀ s, idx' ≤ s → context_in c (take (s - idx) (drop idx ls)).
Proof.
  unfold seek_context, context_in. intros Hi H.
  destruct (change_context c) as [ctx|]; [|by simplify_eq].
  destruct (seek_sequence ls [ctx] idx false) as [i|] eqn:E; [|done]. injection H as <-.
  apply seek_forward in E as (? & ? & Hag); [|done]. simpl in *. split; [lia|].
  intros s Hs. destruct (lookup_lt_is_Some_2 ls i) as [l Hl]; [lia|].
  rewrite (drop_S _ _ _ Hl) in Hag. simpl in Hag. exists l. split; [|done].
  apply list_elem_of_lookup. exists (i - idx). rewrite lookup_take_lt by lia.
  rewrite lookup_drop. by replace (idx + (i - idx)) with i by lia.
Qed.

(** Chunks that have old lines and are not anchored at the end of the file. *)
Definition plain_chunk (c : UpdateFileChunk) : Prop :=
  old_lines c ≠ [] ∧ is_end_of_file c = false.

Lemma chunk_steps_chain ls path chunks idx rs0 idx' rs' :
  idx ≤ length ls → Forall plain_chunk chunks →
  try_fold (chunk_step ls path) (idx, rs0) chunks = Ok (idx', rs') →
  ∃ rs, rs' = rs0 ++ rs ∧ chain ls idx chunks rs.
Proof.
  intros Hi Hall. revert idx rs0 Hi.
  induction Hall as [|c chunks [Hne Heof] _ IH]; intros idx rs0 Hi.
  - intros [= <- <-]. exists []. rewrite app_nil_r. split; [done|by constructor].
  - cbn [try_fold]. intros (st & (idx1 & Hctx & Hst)%rbind_ok & Hrest)%rbind_ok.
    apply context_forward in Hctx as [Hi1 Hctx]; [|done].
    rewrite bool_decide_eq_false_2 in Hst by done.
    destruct (locate_chunk ls idx1 c) as [[[i p] n]|] eqn:El; [|done]. injection Hst as <-.
    apply locate_forward in El as (? & ? & ? & ?); [|lia|done].
    apply IH in Hrest as (rs & -> & Hch); [|lia].
    exists ((i, length p, n) :: rs). split; [by rewrite <- app_assoc|].
    constructor; auto; lia.
Qed.



Lemma join_snoc_empty (ls : list str) : ls ≠ [] → ∃ t, join [nl] (ls ++ [[]]) = t ++ [nl].
Proof.
  induction ls as [|l ls IH]; [done|]. intros _. destruct ls as [|l' ls].
  - exists l. done.
  - destruct IH as [t Ht]; [done|]. exists (l ++ [nl] ++ t). cbn [app] in *.
    change (join [nl] (l :: l' :: ls ++ [[]])) with (l ++ [nl] ++ join [nl] (l' :: ls ++ [[]])).
    rewrite Ht. by rewrite <- !app_assoc.
Qed.

(** An updated file ends with a newline unless it is empty. *)
Theorem derive_new_contents_newline original path chunks text :
  derive_new_contents original path chunks = Ok (Some text) → text = [] ∨ ∃ t, text = t ++ [nl].
Proof.
  unfold derive_new_contents. intros (rs & _ & H)%rbind_ok. injection H as H.
  destruct (apply_replacements _ rs) as [out|]; [|done]. injection H as <-.
  unfold contents_of_lines. destruct (last_is is_empty_str out) eqn:E.
  - apply last_is_empty_snoc in E. rewrite E. destruct (decide (drop_last out = [])) as [->|];
      [by left|right; by apply join_snoc_empty].
  - destruct out as [|l out]; [by left|]. right. by apply join_snoc_empty.
Qed.

Lemma derive_new_contents_newline_witness :
  lit "b" ++ [nl] = [] ∨ ∃ t, lit "b" ++ [nl] = t ++ [nl].
Proof.
  apply (derive_new_contents_newline (lit "a") (lit "f") [mkChunk None [lit "a"] [lit "b"] false]).
  vm_compute. reflexivity.
Defined.

(** When the file ends with a blank line, changing another line removes
    it: the update of [a\n\n] replacing [a] by [b] gives [b\n], because the
    blank last line is taken for the final newline. *)
Theorem trailing_blank_line_dropped :
  derive_new_contents (lit "a" ++ [nl; nl]) (lit "f") [mkChunk None [lit "a"] [lit "b"] false]
  = Ok (Some (lit "b" ++ [nl])).
Proof. by vm_compute. Qed.

(** Replacements may overlap and an added line may be lost: in [a\n\n],
    replacing both lines by [b] and then adding [c] gives [b\n] without [c],
    because the addition is placed before the blank last line, inside the
    region that the first chunk removes. *)
Theorem overlapping_addition_lost :
  derive_new_contents (lit "a" ++ [nl; nl]) (lit "f")
    [mkChunk None [lit "a"; []] [lit "b"] false; mkChunk None [] [lit "c"] false]
  = Ok (Some (lit "b" ++ [nl])).
Proof. by vm_compute. Qed.
