(* ===== verification/PatchFs.v ===== *)
(** * Applying hunks to a file system

    Models [apply_hunks_to_files] and its helpers, [AppliedPatchDelta],
    [apply_hunks], [print_summary] and [apply_patch] of
    [codex/codex-rs/apply-patch/src/lib.rs] against the interface
    [ExecutorFileSystem] of [codex/codex-rs/file-system/src/lib.rs].  Writers
    are modelled as never failing and collect their lines.  A panic inside the
    update of a file, which [derive_new_contents_no_panic] rules out, is the
    error [EPanic]. *)

From S2P Require Import Prelude RustStr PatchParser PatchApply.

Record FileMetadata := mkMeta { is_directory : bool; is_file : bool; is_symlink : bool }.

(** The operations of [ExecutorFileSystem] that the patch tool uses, on a file
    system state [F].  [create_directory] is the recursive form, [remove] the
    non-recursive, non-forced one; file contents are text, and a file that is
    not UTF-8 reads as [InvalidData]. *)
Class ExecutorFileSystem (F : Type) := {
  read_file_text : F → str → result str io_error;
  get_metadata : F → str → result FileMetadata io_error;
  write_file : F → str → str → F * result unit io_error;
  create_directory : F → str → F * result unit io_error;
  remove : F → str → F * result unit io_error;
}.

(** The path operations used: [PathUri::join], [PathUri::parent] and
    [inferred_native_path_string]. *)
Class PathOps := {
  path_join : str → str → result str str;
  path_parent : str → option str;
  path_text : str → str;
}.

Inductive AppliedPatchFileChange :=
| ChangeAdd (content : str) (overwritten_content : option str)
| ChangeDelete (content : str)
| ChangeUpdate (move_path : option str) (old_content : str)
    (overwritten_move_content : option str) (new_content : str).

Record AppliedPatchChange := mkChange {
  change_path : str;
  change : AppliedPatchFileChange;
}.

Record AppliedPatchDelta := mkDelta { changes : list AppliedPatchChange; exact : bool }.

Definition delta_empty : AppliedPatchDelta := mkDelta [] true.

(** [AppliedPatchDelta::append]. *)
Definition delta_append (d other : AppliedPatchDelta) : AppliedPatchDelta :=
  mkDelta (changes d ++ changes other) (exact d && exact other).

Definition push_change (d : AppliedPatchDelta) (p : str) (c : AppliedPatchFileChange) :
    AppliedPatchDelta := mkDelta (changes d ++ [mkChange p c]) (exact d).

Definition and_exact (d : AppliedPatchDelta) (b : bool) : AppliedPatchDelta :=
  mkDelta (changes d) (exact d && b).

(** The [anyhow::Error]s of [apply_hunks_to_files]. *)
Inductive AnyError :=
| EMessage (m : str)
| EIo (context : option str) (e : io_error)
| EApply (e : ApplyPatchError)
| EPath (e : str)
| EPanic.

Record AffectedPaths := mkAffected {
  added : list str;
  modified : list str;
  deleted : list str;
}.

Section Ops.
Context {F : Type} `{FS : !ExecutorFileSystem F} `{PO : !PathOps}.

Definition kind_is_not_found (e : io_error) : bool :=
  match io_kind e with NotFound => true | _ => false end.

Definition ensure_not_directory (fs : F) (path : str) : result unit io_error :=
  let? metadata := get_metadata fs path in
  if is_directory metadata then Err (mkIo InvalidInput (lit "path is a directory")) else Ok tt.

Definition remove_failure_was_side_effect_free (fs : F) (path : str)
    (expected_content : option str) : bool :=
  match expected_content with
  | Some expected =>
      match read_file_text fs path with Ok content => seqb content expected | Err _ => false end
  | None => false
  end.

(** The new value of [exact]. *)
Definition note_existing_path_delta_support (fs : F) (path : str) (exact : bool) : bool :=
  match get_metadata fs path with
  | Ok metadata => if is_file metadata && negb (is_symlink metadata) then exact else false
  | Err source => if kind_is_not_found source then exact else false
  end.

Definition read_optional_file_text_for_delta (fs : F) (path : str) (exact : bool) :
    option str * bool :=
  let exact := note_existing_path_delta_support fs path exact in
  match read_file_text fs path with
  | Ok content => (Some content, exact)
  | Err source => if kind_is_not_found source then (None, exact) else (None, false)
  end.

Definition with_context {A} (ctx : str) (r : result A io_error) : result A AnyError :=
  map_err (EIo (Some ctx)) r.

Definition write_file_with_missing_parent_retry (fs : F) (path contents : str) :
    F * result unit AnyError :=
  let write_ctx := lit "Failed to write file " ++ path_text path in
  match write_file fs path contents with
  | (fs, Ok _) => (fs, Ok tt)
  | (fs, Err err) =>
      if kind_is_not_found err then
        let '(fs, r) :=
          match path_parent path with
          | Some parent =>
              let '(fs, r) := create_directory fs parent in
              (fs, with_context (lit "Failed to create parent directories for " ++ path_text path) r)
          | None => (fs, Ok tt)
          end in
        match r with
        | Err e => (fs, Err e)
        | Ok _ => let '(fs, r) := write_file fs path contents in (fs, with_context write_ctx r)
        end
      else (fs, Err (EIo (Some write_ctx) err))
  end.

(** [derive_new_contents_from_chunks]: the original and the new contents. *)
Definition derive_new_contents_from_chunks (fs : F) (path : str) (chunks : list UpdateFileChunk) :
    result (str * str) AnyError :=
  match read_file_text fs path with
  | Err err =>
      Err (EApply (ApplyIoError (lit "Failed to read file to update " ++ path_text path) err))
  | Ok original =>
      match derive_new_contents original (path_text path) chunks with
      | Ok (Some new_contents) => Ok (original, new_contents)
      | Ok None => Err EPanic
      | Err e => Err (EApply e)
      end
  end.

(** File system, delta, and the outcome of one hunk. *)
Definition world : Type := F * AppliedPatchDelta.

Definition apply_add (w : world) (path_uri contents : str) : world * result unit AnyError :=
  let '(fs, delta) := w in
  let '(overwritten, ex) := read_optional_file_text_for_delta fs path_uri (exact delta) in
  let delta := mkDelta (changes delta) ex in
  match write_file_with_missing_parent_retry fs path_uri contents with
  | (fs, Err e) => ((fs, and_exact delta false), Err e)
  | (fs, Ok _) => ((fs, push_change delta path_uri (ChangeAdd contents overwritten)), Ok tt)
  end.

(** [ensure_not_directory] then [remove], with the exactness bookkeeping of a
    failed removal. *)
Definition checked_remove (w : world) (path_uri : str) (expected : option str) (ctx : str) :
    world * result unit AnyError :=
  let '(fs, delta) := w in
  match ensure_not_directory fs path_uri with
  | Err e => ((fs, delta), Err (EIo (Some ctx) e))
  | Ok _ =>
      match remove fs path_uri with
      | (fs, Err e) =>
          ((fs, and_exact delta (remove_failure_was_side_effect_free fs path_uri expected)),
           Err (EIo (Some ctx) e))
      | (fs, Ok _) => ((fs, delta), Ok tt)
      end
  end.

Definition apply_delete (w : world) (path_uri : str) : world * result unit AnyError :=
  let '(fs, delta) := w in
  let ex := note_existing_path_delta_support fs path_uri (exact delta) in
  let deleted_content := match read_file_text fs path_uri with Ok c => Some c | Err _ => None end in
  let delta := mkDelta (changes delta)
                 (match deleted_content with Some _ => ex | None => false end) in
  match checked_remove (fs, delta) path_uri deleted_content
          (lit "Failed to delete file " ++ path_text path_uri) with
  | (w, Err e) => (w, Err e)
  | ((fs, delta), Ok _) =>
      ((fs, match deleted_content with
            | Some content => push_change delta path_uri (ChangeDelete content)
            | None => delta
            end), Ok tt)
  end.

Definition apply_update (w : world) (cwd path_uri : str) (move_path : option str)
    (chunks : list UpdateFileChunk) : world * result unit AnyError :=
  let '(fs, delta) := w in
  let delta := mkDelta (changes delta)
                 (note_existing_path_delta_support fs path_uri (exact delta)) in
  match derive_new_contents_from_chunks fs path_uri chunks with
  | Err e => ((fs, delta), Err e)
  | Ok (original_contents, new_contents) =>
      match move_path with
      | Some dest =>
          match path_join cwd dest with
          | Err e => ((fs, delta), Err (EPath e))
          | Ok dest_uri =>
              let '(overwritten, ex) :=
                read_optional_file_text_for_delta fs dest_uri (exact delta) in
              let delta := mkDelta (changes delta) ex in
              match write_file_with_missing_parent_retry fs dest_uri new_contents with
              | (fs, Err e) => ((fs, and_exact delta false), Err e)
              | (fs, Ok _) =>
                  match checked_remove
                          (fs, push_change delta dest_uri (ChangeAdd new_contents overwritten))
                          path_uri (Some original_contents)
                          (lit "Failed to remove original " ++ path_text path_uri) with
                  | (w, Err e) => (w, Err e)
                  | ((fs, _), Ok _) =>
                      ((fs, push_change delta path_uri
                              (ChangeUpdate (Some dest_uri) original_contents overwritten
                                 new_contents)), Ok tt)
                  end
              end
          end
      | None =>
          match write_file fs path_uri new_contents with
          | (fs, Err e) =>
              ((fs, and_exact delta false),
               Err (EIo (Some (lit "Failed to write file " ++ path_text path_uri)) e))
          | (fs, Ok _) =>
              ((fs, push_change delta path_uri
                      (ChangeUpdate None original_contents None new_contents)), Ok tt)
          end
      end
  end.

(** [Hunk::resolve_path]. *)
Definition resolve_path (h : Hunk) (cwd : str) : result str str :=
  path_join cwd (hunk_source_path h).

(** The list of [AffectedPaths] that a hunk's path goes to. *)
Definition note_affected (h : Hunk) (a : AffectedPaths) : AffectedPaths :=
  match h with
  | AddFile _ _ => mkAffected (added a ++ [hunk_path h]) (modified a) (deleted a)
  | DeleteFile _ => mkAffected (added a) (modified a) (deleted a ++ [hunk_path h])
  | UpdateFile _ _ _ => mkAffected (added a) (modified a ++ [hunk_path h]) (deleted a)
  end.

Definition apply_hunk (cwd : str) (w : world) (h : Hunk) : world * result unit AnyError :=
  match resolve_path h cwd with
  | Err e => (w, Err (EPath e))
  | Ok path_uri =>
      match h with
      | AddFile _ contents => apply_add w path_uri contents
      | DeleteFile _ => apply_delete w path_uri
      | UpdateFile _ move_path chunks => apply_update w cwd path_uri move_path chunks
      end
  end.

Fixpoint apply_hunk_list (cwd : str) (w : world) (a : AffectedPaths) (hs : list Hunk) :
    world * result AffectedPaths AnyError :=
  match hs with
  | [] => (w, Ok a)
  | h :: hs =>
      match apply_hunk cwd w h with
      | (w, Ok _) => apply_hunk_list cwd w (note_affected h a) hs
      | (w, Err e) => (w, Err e)
      end
  end.

Definition apply_hunks_to_files (cwd : str) (w : world) (hs : list Hunk) :
    world * result AffectedPaths AnyError :=
  match hs with
  | [] => (w, Err (EMessage (lit "No files were modified.")))
  | _ => apply_hunk_list cwd w (mkAffected [] [] []) hs
  end.

(** [print_summary]: the lines written. *)
Definition print_summary (a : AffectedPaths) : list str :=
  [lit "Success. Updated the following files:"] ++
  map (fun p => lit "A " ++ p) (added a) ++
  map (fun p => lit "M " ++ p) (modified a) ++
  map (fun p => lit "D " ++ p) (deleted a).

Definition apply_error_text (e : ApplyPatchError) : str :=
  match e with
  | ApplyParseError (InvalidPatchError m) => lit "invalid patch: " ++ m
  | ApplyParseError (InvalidHunkError m n) =>
      lit "invalid hunk at line " ++ show_nat n ++ lit ", " ++ m
  | ApplyIoError ctx e => ctx ++ lit ": " ++ io_text e
  | ComputeReplacements m => m
  | ApplyPathUri e => e
  | ImplicitInvocation =>
      lit "patch detected without explicit call to apply_patch. Rerun as [" ++ [34%N] ++
      lit "apply_patch" ++ [34%N] ++ lit ", " ++ [34%N] ++ lit "<patch>" ++ [34%N] ++ lit "]"
  end.

(** [error.to_string()]: the outermost context. *)
Definition any_error_text (e : AnyError) : str :=
  match e with
  | EMessage m => m
  | EIo (Some ctx) _ => ctx
  | EIo None e => io_text e
  | EApply e => apply_error_text e
  | EPath e => e
  | EPanic => []
  end.

(** The error of [apply_hunks]: an [io::Error] anywhere under a context is
    found by [downcast_ref]; every other error becomes an I/O error whose
    context is its text. *)
Definition failure_of (e : AnyError) : ApplyPatchError :=
  match e with
  | EIo _ io => ApplyIoError (lit "I/O error") io
  | _ => ApplyIoError (any_error_text e) (mkIo OtherKind (any_error_text e))
  end.

Record RunResult := mkRun {
  run_fs : F;
  run_stdout : list str;
  run_stderr : list str;
  run_result : result AppliedPatchDelta (ApplyPatchError * AppliedPatchDelta);
}.

Definition apply_hunks (hs : list Hunk) (cwd : str) (fs : F) : RunResult :=
  match apply_hunks_to_files cwd (fs, delta_empty) hs with
  | ((fs, delta), Ok affected) => mkRun fs (print_summary affected) [] (Ok delta)
  | ((fs, delta), Err e) => mkRun fs [] [any_error_text e] (Err (failure_of e, delta))
  end.

Definition parse_error_line (e : ParseError) : str :=
  match e with
  | InvalidPatchError m => lit "Invalid patch: " ++ m
  | InvalidHunkError m n => lit "Invalid patch hunk on line " ++ show_nat n ++ lit ": " ++ m
  end.

Definition apply_patch (patch cwd : str) (fs : F) : RunResult :=
  match parse_patch patch with
  | Ok source => apply_hunks (args_hunks source) cwd fs
  | Err e => mkRun fs [] [parse_error_line e] (Err (ApplyParseError e, delta_empty))
  end.
End Ops.
