(* ===== verification/PatchFsFacts.v ===== *)
(** * Facts about applying hunks

    What the patch tool relies on of a file system is the class
    [LawfulFileSystem]; [MemFs] discharges it with an in-memory store of files
    and directories.  The theorems are proved against the class. *)

From S2P Require Import Prelude RustStr PatchParser PatchApply PatchFs.

(** The text of every path, as reading sees it. *)
Definition view {F} `{!ExecutorFileSystem F} (fs : F) (p : str) : option str :=
  match read_file_text fs p with Ok s => Some s | Err _ => None end.

(** A path that is a regular file and not a link, or does not exist. *)
Definition plain {F} `{!ExecutorFileSystem F} (fs : F) (p : str) : Prop :=
  match get_metadata fs p with
  | Ok m => is_file m = true ∧ is_symlink m = false
  | Err e => kind_is_not_found e = true
  end.

Definition upd (v : str → option str) (p : str) (c : option str) (q : str) : option str :=
  if bool_decide (q = p) then c else v q.

(** What the patch tool relies on, of a file system in which different paths
    name different files and that nobody else changes: a write to a plain path
    changes that path only; a write that reports a missing parent changes
    nothing; creating a directory with its parents changes the text of no file
    (a directory has none), and the paths right below it stay plain; removing
    changes the path only, and on success it is gone. *)
Class LawfulFileSystem (F : Type) `{!ExecutorFileSystem F} `{!PathOps} := {
  write_ok fs p c fs' :
    plain fs p → write_file fs p c = (fs', Ok tt) → ∀ q, view fs' q = upd (view fs) p (Some c) q;
  write_not_found fs p c fs' e :
    write_file fs p c = (fs', Err e) → kind_is_not_found e = true →
    (∀ q, view fs' q = view fs q) ∧ (plain fs p → plain fs' p);
  mkdir_texts fs d fs' r q :
    create_directory fs d = (fs', r) → view fs' q = view fs q;
  mkdir_child fs d fs' r p :
    create_directory fs d = (fs', r) → path_parent p = Some d → plain fs p → plain fs' p;
  remove_ok fs p fs' :
    remove fs p = (fs', Ok tt) → ∀ q, view fs' q = upd (view fs) p None q;
  remove_err fs p fs' e :
    remove fs p = (fs', Err e) → ∀ q, q ≠ p → view fs' q = view fs q;
}.

(** Undoing one recorded change, and a list of changes from the last to the
    first. *)
Definition undo (v : str → option str) (c : AppliedPatchChange) : str → option str :=
  match change c with
  | ChangeAdd _ overwritten => upd v (change_path c) overwritten
  | ChangeDelete content => upd v (change_path c) (Some content)
  | ChangeUpdate None old _ _ => upd v (change_path c) (Some old)
  | ChangeUpdate (Some dest) old overwritten _ =>
      upd (upd v dest overwritten) (change_path c) (Some old)
  end.

Definition undo_all (v : str → option str) (cs : list AppliedPatchChange) : str → option str :=
  foldr (fun c v => undo v c) v cs.

Section Facts.
Context {F : Type} `{FS : !ExecutorFileSystem F} `{PO : !PathOps} `{LF : !LawfulFileSystem F}.

(** [v'] is reached from [v] by the changes [cs], which can be undone. *)
Definition undoes (v v' : str → option str) (cs : list AppliedPatchChange) : Prop :=
  ∀ q, undo_all v' cs q = v q.

Lemma upd_ext v v' p c q : (∀ q, v q = v' q) → upd v p c q = upd v' p c q.
Proof. intros Hv. unfold upd. by case_match. Qed.

Lemma undo_ext v v' c q : (∀ q, v q = v' q) → undo v c q = undo v' c q.
Proof.
  intros Hv. unfold undo. destruct (change c) as [| |[]]; repeat (apply upd_ext; intros); done.
Qed.

Lemma undo_all_ext v v' cs q : (∀ q, v q = v' q) → undo_all v cs q = undo_all v' cs q.
Proof. revert q. induction cs as [|c cs IH]; intros q Hv; [apply Hv|]. by apply undo_ext; auto. Qed.

Lemma undoes_app v1 v2 v3 cs1 cs2 :
  undoes v1 v2 cs1 → undoes v2 v3 cs2 → undoes v1 v3 (cs1 ++ cs2).
Proof.
  intros H1 H2 q. unfold undo_all. rewrite foldr_app. rewrite <- H1.
  apply undo_all_ext. exact H2.
Qed.

Lemma note_existing_true fs p ex :
  note_existing_path_delta_support fs p ex = true → ex = true ∧ plain fs p.
Proof.
  unfold note_existing_path_delta_support, plain. destruct (get_metadata fs p) as [m|e].
  - destruct (is_file m), (is_symlink m); naive_solver.
  - destruct (kind_is_not_found e); naive_solver.
Qed.

Lemma read_optional_true fs p ex o :
  read_optional_file_text_for_delta fs p ex = (o, true) →
  ex = true ∧ plain fs p ∧ view fs p = o.
Proof.
  unfold read_optional_file_text_for_delta, view.
  destruct (read_file_text fs p) as [c|e]; [|destruct (kind_is_not_found e)];
    intros [= <- H]; apply note_existing_true in H as [? ?]; auto.
Qed.

Lemma write_retry_ok fs p c fs' :
  plain fs p → write_file_with_missing_parent_retry fs p c = (fs', Ok tt) →
  ∀ q, view fs' q = upd (view fs) p (Some c) q.
Proof.
  intros Hp. unfold write_file_with_missing_parent_retry. cbv zeta.
  destruct (write_file fs p c) as [fs1 [[]|e]] eqn:Ew.
  - intros [= <-]. by apply write_ok.
  - destruct (kind_is_not_found e) eqn:Ek; [|done].
    destruct (write_not_found _ _ _ _ _ Ew Ek) as [Hv Hpl]. specialize (Hpl Hp).
    assert (Hfin : ∀ fs2, (∀ q, view fs2 q = view fs1 q) → plain fs2 p →
      write_file fs2 p c = (fs', Ok tt) → ∀ q, view fs' q = upd (view fs) p (Some c) q).
    { intros fs2 Hv2 Hp2 Hw q. rewrite (write_ok _ _ _ _ Hp2 Hw). apply upd_ext.
      intros q'. by rewrite Hv2, Hv. }
    destruct (path_parent p) as [d|] eqn:Epar.
    + destruct (create_directory fs1 d) as [fs2 [[]|e2]] eqn:Ed; [|done]. simpl.
      pose proof (mkdir_child _ _ _ _ p Ed Epar) as Hp2.
      destruct (write_file fs2 p c) as [fs3 [[]|]] eqn:Ew2; [|done].
      intros [= <-]. eapply Hfin; [|by apply Hp2|done]. intros q. by apply (mkdir_texts _ _ _ _ q Ed).
    + destruct (write_file fs1 p c) as [fs3 [[]|]] eqn:Ew2; [|done].
      intros [= <-]. by eapply Hfin.
Qed.

(** The undo property of one step: if the delta is still exact afterwards it
    was exact before, and the changes it gained undo the step. *)
Definition step_undoes (w w' : world) : Prop :=
  exact w'.2 = true →
  exact w.2 = true ∧ ∃ cs, changes w'.2 = changes w.2 ++ cs ∧ undoes (view w.1) (view w'.1) cs.

Lemma step_undoes_refl fs d ex :
  (ex = true → exact d = true) → step_undoes (fs, d) (fs, mkDelta (changes d) ex).
Proof.
  intros H Hex. split; [by apply H|]. exists []. rewrite app_nil_r. done.
Qed.

Lemma step_undoes_inexact w fs d : step_undoes w (fs, and_exact d false).
Proof. intros H. simpl in H. by rewrite andb_false_r in H. Qed.

Lemma upd_upd_id v p c q : upd (upd v p c) p (v p) q = v q.
Proof. unfold upd. repeat case_bool_decide; congruence. Qed.

Lemma apply_add_undoes w p contents w' r :
  apply_add w p contents = (w', r) → step_undoes w w'.
Proof.
  destruct w as [fs d]. unfold apply_add.
  destruct (read_optional_file_text_for_delta fs p (exact d)) as [o ex] eqn:Er.
  destruct (write_file_with_missing_parent_retry fs p contents) as [fs' [[]|e]] eqn:Ew;
    intros [= <- <-]; [|apply step_undoes_inexact].
  intros Hex. simpl in Hex. subst ex. apply read_optional_true in Er as (? & Hp & Hv).
  split; [done|]. eexists. split; [done|]. intros q. simpl. unfold undo. simpl.
  rewrite <- Hv. etransitivity; [|apply (upd_upd_id (view fs) p (Some contents))].
  apply upd_ext. by apply write_retry_ok.
Qed.

(** After a checked removal: the file is gone, or nothing is promised, or the
    expected text is still there. *)
Lemma checked_remove_spec fs d p expected ctx fs' d' r :
  checked_remove (fs, d) p expected ctx = ((fs', d'), r) →
  changes d' = changes d ∧ (exact d' = true → exact d = true) ∧
  (r = Ok tt → d' = d ∧ ∀ q, view fs' q = upd (view fs) p None q) ∧
  (r ≠ Ok tt → ∀ q, q ≠ p → view fs' q = view fs q) ∧
  (r ≠ Ok tt → exact d' = true → view fs p = expected → view fs' p = view fs p).
Proof.
  unfold checked_remove. destruct (ensure_not_directory fs p) as [[]|e].
  - destruct (remove fs p) as [fs1 [[]|e]] eqn:Er; intros [= <- <- <-].
    + split_and!; [done..|intros _; split; [done|by apply remove_ok]|done|done].
    + split_and!; [done| |done|intros _; by eapply remove_err|].
      { simpl. by intros [? _]%andb_true_iff. }
      simpl. intros _ [_ Hfree]%andb_true_iff Hv.
      unfold remove_failure_was_side_effect_free in Hfree. destruct expected as [s|]; [|done].
      unfold view at 1. destruct (read_file_text fs1 p); [|done]. apply seqb_eq in Hfree.
      by subst.
  - intros [= <- <- <-]. split_and!; done.
Qed.

Lemma apply_delete_undoes w p w' r : apply_delete w p = (w', r) → step_undoes w w'.
Proof.
  destruct w as [fs d]. unfold apply_delete. cbv zeta.
  destruct (read_file_text fs p) as [content|e] eqn:Erd.
  - assert (Hv : view fs p = Some content) by (unfold view; by rewrite Erd).
    destruct (checked_remove _ _ _ _) as [[fs' d'] [[]|e]] eqn:Ec;
      apply checked_remove_spec in Ec as (Hch & Hexd & Hok & Hframe & Herr); intros [= <- <-] Hex; simpl in *.
    + destruct (Hok eq_refl) as [-> Hview]. simpl in *.
      apply note_existing_true in Hex as [? _]. split; [done|].
      eexists. split; [done|]. intros q. simpl. unfold undo. simpl. rewrite <- Hv.
      etransitivity; [|apply (upd_upd_id (view fs) p None)]. by apply upd_ext.
    + pose proof (Hexd Hex) as Hn. apply note_existing_true in Hn as [? _]. split; [done|].
      exists []. rewrite app_nil_r. split; [done|]. intros q. simpl.
      destruct (decide (q = p)) as [->|]; [by apply Herr|by apply Hframe].
  - destruct (checked_remove _ _ _ _) as [[fs' d'] [[]|e']] eqn:Ec;
      apply checked_remove_spec in Ec as (_ & Hexd & _); intros [= <- <-] Hex; simpl in *;
      specialize (Hexd Hex); done.
Qed.

Lemma derive_from_chunks_view fs p chunks o n :
  derive_new_contents_from_chunks fs p chunks = Ok (o, n) → view fs p = Some o.
Proof.
  unfold derive_new_contents_from_chunks, view.
  destruct (read_file_text fs p); [|done].
  destruct (derive_new_contents _ _ _) as [[?|]|]; [|done..]. by intros [= <- <-].
Qed.

Lemma apply_update_undoes w cwd p mv chunks w' r :
  apply_update w cwd p mv chunks = (w', r) → step_undoes w w'.
Proof.
  destruct w as [fs d]. unfold apply_update. cbv zeta.
  assert (Hnote : ∀ ex, ex = true → note_existing_path_delta_support fs p (exact d) = ex →
            exact d = true ∧ plain fs p).
  { intros ex -> H. by apply note_existing_true in H. }
  destruct (derive_new_contents_from_chunks fs p chunks) as [[o n]|e] eqn:Ed.
  2:{ intros [= <- <-]. apply step_undoes_refl. intros H. by apply (Hnote _ H). }
  apply derive_from_chunks_view in Ed as Hv.
  destruct mv as [dest|].
  - destruct (path_join cwd dest) as [du|e].
    2:{ intros [= <- <-]. apply step_undoes_refl. intros H. by apply (Hnote _ H). }
    destruct (read_optional_file_text_for_delta fs du _) as [ow ex] eqn:Er.
    destruct (write_file_with_missing_parent_retry fs du n) as [fs1 [[]|e]] eqn:Ew.
    2:{ intros [= <- <-]. apply step_undoes_inexact. }
    destruct (checked_remove _ _ _ _) as [[fs' d'] [[]|e]] eqn:Ec;
      apply checked_remove_spec in Ec as (Hch & Hexd & Hok & Hframe & Herr); intros [= <- <-] Hex; simpl in *.
    + subst ex. apply read_optional_true in Er as (Hn & Hpl & Hdu). simpl in Hn.
      destruct (Hnote _ Hn eq_refl) as [? _].
      split; [done|]. eexists. split; [done|]. intros q. simpl. unfold undo. simpl.
      destruct (Hok eq_refl) as [_ Hview]. unfold upd at 1. case_bool_decide as Hq; [by subst|].
      rewrite <- Hdu. etransitivity; [|apply (upd_upd_id (view fs) du (Some n))].
      unfold upd at 1 2. case_bool_decide; [done|].
      rewrite Hview. unfold upd at 1. rewrite bool_decide_eq_false_2 by done.
      by apply write_retry_ok.
    + pose proof (Hexd Hex) as Hx. subst ex. apply read_optional_true in Er as (Hn & Hpl & Hdu).
      simpl in Hn. destruct (Hnote _ Hn eq_refl) as [? _]. split; [done|].
      eexists. split; [by rewrite Hch|]. intros q. simpl. unfold undo. simpl.
      unfold upd. case_bool_decide as Hq; [by subst|].
      transitivity (view fs1 q).
      * destruct (decide (q = p)) as [->|Hne]; [|by apply Hframe].
        apply Herr; [done..|]. rewrite (write_retry_ok _ _ _ _ Hpl Ew). unfold upd.
        by rewrite bool_decide_eq_false_2.
      * rewrite (write_retry_ok _ _ _ _ Hpl Ew). unfold upd. by rewrite bool_decide_eq_false_2.
  - destruct (write_file fs p n) as [fs' [[]|e]] eqn:Ew; intros [= <- <-].
    2:{ apply step_undoes_inexact. }
    intros Hex. simpl in Hex. destruct (Hnote _ Hex eq_refl) as [? Hpl]. split; [done|].
    eexists. split; [done|]. intros q. simpl. unfold undo. simpl. rewrite <- Hv.
    etransitivity; [|apply (upd_upd_id (view fs) p (Some n))]. apply upd_ext. by apply write_ok.
Qed.
Lemma step_undoes_trans w1 w2 w3 : step_undoes w1 w2 → step_undoes w2 w3 → step_undoes w1 w3.
Proof.
  intros H12 H23 Hex. destruct (H23 Hex) as (Hex2 & cs2 & Hc2 & Hu2).
  destruct (H12 Hex2) as (Hex1 & cs1 & Hc1 & Hu1). split; [done|].
  exists (cs1 ++ cs2). split; [by rewrite Hc2, Hc1, app_assoc|]. by eapply undoes_app.
Qed.

Lemma step_undoes_same w : step_undoes w w.
Proof. destruct w as [fs [cs ex]]. by apply (step_undoes_refl fs (mkDelta cs ex) ex). Qed.

Lemma apply_hunk_undoes cwd w h w' r : apply_hunk cwd w h = (w', r) → step_undoes w w'.
Proof.
  unfold apply_hunk. destruct (resolve_path h cwd) as [p|e].
  - destruct h; eauto using apply_add_undoes, apply_delete_undoes, apply_update_undoes.
  - intros [= <- <-]. apply step_undoes_same.
Qed.

Lemma apply_hunk_list_undoes cwd hs w a w' r :
  apply_hunk_list cwd w a hs = (w', r) → step_undoes w w'.
Proof.
  revert w a. induction hs as [|h hs IH]; intros w a; simpl.
  - intros [= <- <-]. apply step_undoes_same.
  - destruct (apply_hunk cwd w h) as [w1 [[]|e]] eqn:E; apply apply_hunk_undoes in E.
    + intros H. apply IH in H. by eapply step_undoes_trans.
    + by intros [= <- <-].
Qed.

(** The delta that [apply_hunks] reports, with success or failure. *)
Definition run_delta (r : RunResult (F := F)) : AppliedPatchDelta :=
  match run_result r with Ok d => d | Err (_, d) => d end.

(** C12: an exact delta undoes the run: on a file system in which different
    paths name different files and that nobody else changes, whether
    [apply_hunks] succeeds or fails half way, if the delta it reports is marked
    exact then undoing the recorded changes from the last to the first gives
    back the text of every path of the original file system.  (Directories that
    were created for new files have no text and are not recorded.) *)
Theorem apply_hunks_exact_undo hs cwd fs q :
  exact (run_delta (apply_hunks hs cwd fs)) = true →
  undo_all (view (run_fs (apply_hunks hs cwd fs)))
    (changes (run_delta (apply_hunks hs cwd fs))) q = view fs q.
Proof.
  unfold apply_hunks.
  destruct (apply_hunks_to_files cwd (fs, delta_empty) hs) as [[fs' d] r] eqn:E.
  assert (Hs : step_undoes (fs, delta_empty) (fs', d)).
  { unfold apply_hunks_to_files in E. destruct hs as [|h hs]; [|by eapply apply_hunk_list_undoes].
    injection E as <- <- <-. apply step_undoes_same. }
  destruct r as [a|e]; unfold run_delta; simpl; intros Hex;
    destruct (Hs Hex) as (_ & cs & Hc & Hu); simpl in *; subst; apply Hu.
Qed.

(** ** The abstract effect of hunks on the texts of the paths *)

Inductive spec_hunk (cwd : str) (v : str → option str) : Hunk → (str → option str) → Prop :=
| spec_add path contents p v' :
    path_join cwd path = Ok p → (∀ q, v' q = upd v p (Some contents) q) →
    spec_hunk cwd v (AddFile path contents) v'
| spec_delete path p old v' :
    path_join cwd path = Ok p → v p = Some old → (∀ q, v' q = upd v p None q) →
    spec_hunk cwd v (DeleteFile path) v'
| spec_update path chunks p old new v' :
    path_join cwd path = Ok p → v p = Some old →
    derive_new_contents old (path_text p) chunks = Ok (Some new) →
    (∀ q, v' q = upd v p (Some new) q) →
    spec_hunk cwd v (UpdateFile path None chunks) v'
| spec_move path dest chunks p d old new v' :
    path_join cwd path = Ok p → path_join cwd dest = Ok d → v p = Some old →
    derive_new_contents old (path_text p) chunks = Ok (Some new) →
    (∀ q, v' q = upd (upd v d (Some new)) p None q) →
    spec_hunk cwd v (UpdateFile path (Some dest) chunks) v'.

Inductive spec_run (cwd : str) : (str → option str) → list Hunk → (str → option str) → Prop :=
| spec_run_nil v v' : (∀ q, v' q = v q) → spec_run cwd v [] v'
| spec_run_cons v h v1 hs v2 :
    spec_hunk cwd v h v1 → spec_run cwd v1 hs v2 → spec_run cwd v (h :: hs) v2.

Lemma derive_from_chunks_inv fs p chunks o n :
  derive_new_contents_from_chunks fs p chunks = Ok (o, n) →
  view fs p = Some o ∧ derive_new_contents o (path_text p) chunks = Ok (Some n).
Proof.
  intros H. split; [by eapply derive_from_chunks_view|]. revert H.
  unfold derive_new_contents_from_chunks. destruct (read_file_text fs p); [|done].
  destruct (derive_new_contents _ _ _) as [[?|]|] eqn:E; [|done..]. by intros [= <- <-].
Qed.

Lemma apply_hunk_spec cwd fs d h fs' d' :
  apply_hunk cwd (fs, d) h = ((fs', d'), Ok tt) → exact d' = true →
  spec_hunk cwd (view fs) h (view fs').
Proof.
  unfold apply_hunk, resolve_path. destruct (path_join cwd (hunk_source_path h)) as [p|] eqn:Ep; [|done].
  destruct h as [path contents|path|path mv chunks]; simpl in Ep.
  - unfold apply_add. destruct (read_optional_file_text_for_delta _ _ _) as [o ex] eqn:Er.
    destruct (write_file_with_missing_parent_retry _ _ _) as [fs1 [[]|]] eqn:Ew; [|done].
    intros [= <- <-] Hex. simpl in Hex. subst ex. apply read_optional_true in Er as (_ & Hp & _).
    eapply spec_add; [done|]. by apply write_retry_ok.
  - unfold apply_delete. cbv zeta.
    destruct (read_file_text fs p) as [content|] eqn:Erd;
      destruct (checked_remove _ _ _ _) as [[fs1 d1] [[]|]] eqn:Ec; try done;
      apply checked_remove_spec in Ec as (_ & _ & Hok & _); destruct (Hok eq_refl) as [-> Hv];
      intros [= <- <-] Hex; [|done].
    eapply (spec_delete _ _ _ p content); [done| |done]. unfold view. by rewrite Erd.
  - unfold apply_update. cbv zeta.
    destruct (derive_new_contents_from_chunks fs p chunks) as [[o n]|] eqn:Ed; [|done].
    apply derive_from_chunks_inv in Ed as [Hv Hd]. destruct mv as [dest|].
    + destruct (path_join cwd dest) as [du|] eqn:Edu; [|done].
      destruct (read_optional_file_text_for_delta _ _ _) as [ow ex] eqn:Er.
      destruct (write_file_with_missing_parent_retry _ _ _) as [fs1 [[]|]] eqn:Ew; [|done].
      destruct (checked_remove _ _ _ _) as [[fs2 d2] [[]|]] eqn:Ec; [|done].
      apply checked_remove_spec in Ec as (_ & _ & Hok & _). destruct (Hok eq_refl) as [_ Hv2].
      intros [= <- <-] Hex. simpl in Hex. subst ex.
      apply read_optional_true in Er as (_ & Hp & _).
      eapply spec_move; [done..|]. intros q. rewrite Hv2. apply upd_ext. by apply write_retry_ok.
    + destruct (write_file fs p n) as [fs1 [[]|]] eqn:Ew; [|done].
      intros [= <- <-] Hex. simpl in Hex. apply note_existing_true in Hex as [_ Hp].
      eapply spec_update; [done..|]. by apply write_ok.
Qed.

Lemma apply_hunk_list_spec cwd hs fs d a fs' d' a' :
  apply_hunk_list cwd (fs, d) a hs = ((fs', d'), Ok a') → exact d' = true →
  spec_run cwd (view fs) hs (view fs').
Proof.
  revert fs d a. induction hs as [|h hs IH]; intros fs d a; simpl.
  - intros [= <- <- <-] _. by constructor.
  - destruct (apply_hunk cwd (fs, d) h) as [[fs1 d1] [[]|e]] eqn:E; [|done].
    intros H Hex. pose proof (apply_hunk_list_undoes _ _ _ _ _ _ H Hex) as [Hex1 _].
    econstructor; [by eapply apply_hunk_spec|by eapply IH].
Qed.

(** C40: refinement: on a file system in which different paths name different
    files and that nobody else changes, a successful run with an exact delta
    has, on the texts of all paths, exactly the effect of the abstract
    specification of the hunks in order (write, delete, replace, move). *)
Theorem apply_hunks_refines hs cwd fs delta :
  run_result (apply_hunks hs cwd fs) = Ok delta → exact delta = true →
  spec_run cwd (view fs) hs (view (run_fs (apply_hunks hs cwd fs))).
Proof.
  unfold apply_hunks.
  destruct (apply_hunks_to_files cwd (fs, delta_empty) hs) as [[fs' d] [a|e]] eqn:E; simpl; [|done].
  intros [= ->] Hex. unfold apply_hunks_to_files in E. destruct hs as [|h hs]; [done|].
  by eapply apply_hunk_list_spec.
Qed.
End Facts.

(** ** An in-memory file system *)

Definition not_found : io_error := mkIo NotFound (lit "entity not found").
Definition wrong_kind : io_error := mkIo InvalidInput (lit "not of this kind").

Inductive Entry := File (text : str) | Directory.

Module MemFs.
(** Files and directories by their absolute paths; the empty path is the root,
    which always exists. *)
Abbreviation t := (gmap (list N) Entry).

(** Everything before the last slash. *)
Fixpoint parent (p : str) : option str :=
  match p with
  | [] => None
  | c :: p => match parent p with
              | Some d => Some (c :: d)
              | None => if (c =? 47)%N then Some [] else None
              end
  end.

Definition is_dir (fs : t) (d : str) : bool :=
  match d with [] => true | _ => match fs !! d with Some Directory => true | _ => false end end.

(** [create_dir_all]: the missing parents first, up to [n] of them. *)
Fixpoint mkdirs (n : nat) (fs : t) (d : str) : t * result unit io_error :=
  if is_dir fs d then (fs, Ok tt)
  else match fs !! d, n with
       | Some _, _ => (fs, Err wrong_kind)
       | None, 0 => (fs, Err not_found)
       | None, S n =>
           match parent d with
           | None => (<[d := Directory]> fs, Ok tt)
           | Some up => match mkdirs n fs up with
                        | (fs, Ok _) => (<[d := Directory]> fs, Ok tt)
                        | (fs, Err e) => (fs, Err e)
                        end
           end
       end.

#[export] Instance ops : ExecutorFileSystem t := {|
  read_file_text fs p :=
    match fs !! p with Some (File s) => Ok s | Some Directory => Err wrong_kind | None => Err not_found end;
  get_metadata fs p :=
    match fs !! p with
    | Some (File _) => Ok (mkMeta false true false)
    | Some Directory => Ok (mkMeta true false false)
    | None => Err not_found
    end;
  write_file fs p c :=
    match fs !! p with
    | Some Directory => (fs, Err wrong_kind)
    | _ => if match parent p with Some d => is_dir fs d | None => true end
           then (<[p := File c]> fs, Ok tt) else (fs, Err not_found)
    end;
  create_directory fs d := mkdirs (length d) fs d;
  remove fs p :=
    match fs !! p with
    | Some (File _) => (delete p fs, Ok tt)
    | Some Directory => (fs, Err wrong_kind)
    | None => (fs, Err not_found)
    end;
|}.

(** Paths that are already absolute. *)
#[export] Instance paths : PathOps := {| path_join _ p := Ok p; path_parent := parent; path_text p := p |}.

Definition text (e : option Entry) : option str := match e with Some (File s) => Some s | _ => None end.

Lemma view_text (fs : t) p : view fs p = text (fs !! p).
Proof. unfold view. cbn. by destruct (fs !! p) as [[]|]. Qed.

Lemma parent_shorter p d : parent p = Some d → length d < length p.
Proof.
  revert d. induction p as [|c p IH]; intros d; cbn [parent]; [done|].
  destruct (parent p) as [d'|]; [intros [= <-]; specialize (IH _ eq_refl); cbn; lia|].
  destruct (c =? 47)%N; [|done]. intros [= <-]. cbn. lia.
Qed.

(** What [create_dir_all] may do: turn absent paths that are no longer than
    the directory into directories. *)
Lemma mkdirs_spec n fs d fs' r q : mkdirs n fs d = (fs', r) →
  fs' !! q = fs !! q ∨ (fs !! q = None ∧ fs' !! q = Some Directory ∧ length q ≤ length d).
Proof.
  revert fs d fs' r. induction n as [|n IH]; intros fs d fs' r; cbn [mkdirs]; (destruct (is_dir fs d); [intros [= <- _]; by left|]);
    (destruct (fs !! d) eqn:Ed; [intros [= <- _]; by left|]); [intros [= <- _]; by left|].
  destruct (parent d) as [up|] eqn:Ep.
  - destruct (mkdirs n fs up) as [fs1 [[]|e]] eqn:E; apply IH in E as Hq; apply parent_shorter in Ep; intros [= <- _].
    + destruct (decide (q = d)) as [->|Hne]; [right; rewrite lookup_insert_eq|rewrite lookup_insert_ne by done]; naive_solver lia.
    + naive_solver lia.
  - intros [= <- _]. destruct (decide (q = d)) as [->|Hne]; [right; by rewrite lookup_insert_eq|left; by rewrite lookup_insert_ne].
Qed.

#[export] Instance lawful : LawfulFileSystem t.
Proof.
  split; cbn [read_file_text get_metadata write_file create_directory remove ops path_parent paths].
  - intros fs p c fs' _ H q. assert (fs' = <[p := File c]> fs) as ->.
    { destruct (fs !! p) as [[]|]; [|done|]; (destruct (match parent p with Some d => is_dir fs d | None => true end); [by injection H|done]). }
    unfold upd. rewrite !view_text, lookup_insert. repeat case_decide; repeat case_bool_decide; congruence || done.
  - intros fs p c fs' e H _. assert (fs' = fs) as ->; [|done].
    destruct (fs !! p) as [[]|]; [|by injection H|]; (destruct (match parent p with Some d => is_dir fs d | None => true end); [done|by injection H]).
  - intros fs d fs' r q H. rewrite !view_text. by destruct (mkdirs_spec _ _ _ _ _ q H) as [->|(-> & -> & _)].
  - intros fs d fs' r p H Hp%parent_shorter. unfold plain. cbn [get_metadata ops].
    destruct (mkdirs_spec _ _ _ _ _ p H) as [->|(_ & _ & Hl)]; [done|lia].
  - intros fs p fs'. destruct (fs !! p) as [[]|] eqn:E; [|done..]. intros [= <-] q.
    unfold upd. rewrite !view_text, lookup_delete. repeat case_decide; repeat case_bool_decide; congruence || done.
  - intros fs p fs' e. destruct (fs !! p) as [[]|]; [done|..]; by intros [= <- <-].
Qed.
End MemFs.
Import MemFs.

Definition sample_fs : MemFs.t := {[ lit "f" := File (lit "a" ++ [nl]) ]}.

Definition sample_run (hs : list Hunk) : RunResult (F := MemFs.t) := apply_hunks hs (lit "/") sample_fs.

(** A file is added two directories down, and another is moved there. *)
Definition deep_hunks : list Hunk :=
  [AddFile (lit "/d/e/g") (lit "x"); UpdateFile (lit "f") (Some (lit "/d/f")) [mkChunk None [lit "a"] [lit "b"] false]].

Example deep_run :
  run_fs (sample_run deep_hunks) =
    {[ lit "/d" := Directory; lit "/d/e" := Directory; lit "/d/e/g" := File (lit "x"); lit "/d/f" := File (lit "b" ++ [nl]) ]}.
Proof. vm_compute. reflexivity. Qed.

Lemma apply_hunks_exact_undo_witness :
  undo_all (view (run_fs (sample_run deep_hunks))) (changes (run_delta (sample_run deep_hunks))) (lit "f") = view sample_fs (lit "f").
Proof. apply (apply_hunks_exact_undo deep_hunks (lit "/") sample_fs). vm_compute. reflexivity. Defined.

Lemma apply_hunks_refines_witness :
  spec_run (lit "/") (view sample_fs) deep_hunks (view (run_fs (sample_run deep_hunks))).
Proof. eapply (apply_hunks_refines deep_hunks (lit "/") sample_fs); vm_compute; reflexivity. Defined.

(** An update hunk that moves a file onto itself deletes it: the run
    reports success and lists the path as modified, but the file is gone. *)
Theorem move_onto_itself_deletes :
  run_stdout (sample_run [UpdateFile (lit "f") (Some (lit "f"))
                            [mkChunk None [lit "a"] [lit "b"] false]])
    = [lit "Success. Updated the following files:"; lit "M f"] ∧
  view (run_fs (sample_run [UpdateFile (lit "f") (Some (lit "f"))
                              [mkChunk None [lit "a"] [lit "b"] false]])) (lit "f") = None.
Proof. by vm_compute. Qed.
