(* ===== verification/RustPath.v ===== *)
(** * Paths of the standard library

    [std::path::Path] on Unix: the components of a path, [Path::file_name],
    [Path::file_stem] and the comparison of paths, which is a comparison of their
    components.  A path is its text. *)

From S2P Require Import Prelude RustStr.

Inductive Component := RootDir | CurDir | ParentDir | Normal (s : str).

#[export] Instance Component_eq_dec : EqDecision Component.
Proof. solve_decision. Defined.

Definition slash : char := 47.
Definition dot : char := 46.

(** A piece between slashes: nothing and a dot disappear. *)
Definition component_of (piece : str) : option Component :=
  if seqb piece [] || seqb piece [dot] then None
  else if seqb piece [dot; dot] then Some ParentDir
  else Some (Normal piece).

(** [Path::components]: a leading slash is the root, a leading dot is kept. *)
Definition path_components (s : str) : list Component :=
  match split_on slash s with
  | [] => []
  | piece :: pieces =>
      (if seqb piece [dot] then [CurDir]
       else if seqb piece [] then match pieces with [] => [] | _ => [RootDir] end
       else option_list (component_of piece)) ++
      omap component_of pieces
  end.

(** [Path::eq]. *)
Definition path_eqb (a b : str) : bool := bool_decide (path_components a = path_components b).

Definition path_file_name (s : str) : option str :=
  match last (path_components s) with Some (Normal name) => Some name | _ => None end.

(** [rsplit_file_at_dot]: what is before and what is after the last dot. *)
Definition rsplit_file_at_dot (file : str) : option str * option str :=
  if seqb file [dot; dot] then (Some file, None)
  else match split_once [dot] (rev file) with
       | None => (None, Some file)
       | Some (after, before) => if seqb before [] then (Some file, None) else (Some (rev before), Some (rev after))
       end.

Definition path_file_stem (s : str) : option str :=
  name ← path_file_name s;
  match rsplit_file_at_dot name with (Some before, _) => Some before | (None, after) => after end.

Definition path_extension (s : str) : option str :=
  name ← path_file_name s;
  match rsplit_file_at_dot name with (Some _, Some after) => Some after | _ => None end.

(** [trim_start_matches('/')]. *)
Fixpoint trim_start_slashes (s : str) : str :=
  match s with
  | c :: s' => if (c =? slash)%N then trim_start_slashes s' else s
  | [] => []
  end.

(** ** Lemmas *)

(** A text without slashes that is neither empty nor dots is its own only component. *)
Lemma components_plain s :
  slash ∉ s → s ≠ [] → s ≠ [dot] → s ≠ [dot; dot] → path_components s = [Normal s].
Proof.
  intros Hs H0 H1 H2. unfold path_components. rewrite split_on_no_sep by done.
  rewrite (proj2 (seqb_neq s [dot]) H1), (proj2 (seqb_neq s []) H0). unfold component_of.
  by rewrite (proj2 (seqb_neq s [dot]) H1), (proj2 (seqb_neq s []) H0), (proj2 (seqb_neq s [dot; dot]) H2).
Qed.

Lemma component_of_Normal piece name : component_of piece = Some (Normal name) → name = piece ∧ piece ≠ [] ∧
  piece ≠ [dot] ∧ piece ≠ [dot; dot].
Proof.
  unfold component_of. destruct (seqb piece []) eqn:E0, (seqb piece [dot]) eqn:E1; simpl; try done.
  destruct (seqb piece [dot; dot]) eqn:E2; [done|]. intros [= <-].
  apply seqb_neq in E0, E1, E2. done.
Qed.

Lemma elem_of_split_on c s piece x : piece ∈ split_on c s → x ∈ piece → x ∈ s.
Proof.
  revert piece. induction s as [|y s IH]; intros piece; simpl.
  { by intros ->%list_elem_of_singleton ?%not_elem_of_nil. }
  destruct (y =? c)%N.
  { intros [->|Hp]%elem_of_cons Hx; [by apply not_elem_of_nil in Hx|]. right. by apply (IH piece). }
  destruct (split_on c s) as [|p ps].
  { intros ->%list_elem_of_singleton ->%list_elem_of_singleton. left. } intros [->|Hp]%elem_of_cons Hx; [|right; apply (IH piece); [by right|done]].
  apply elem_of_cons in Hx as [->|Hx]; [left|right]. apply (IH p); [left|done].
Qed.

Lemma pieces_no_sep c s piece : piece ∈ split_on c s → c ∉ piece.
Proof.
  revert piece. induction s as [|y s IH]; intros piece; cbn [split_on].
  { intros ->%list_elem_of_singleton. apply not_elem_of_nil. }
  destruct (N.eqb_spec y c) as [->|Hne]; [intros [->|Hp]%elem_of_cons; [apply not_elem_of_nil|by apply IH]|].
  destruct (split_on c s) as [|p ps]; [intros ->%list_elem_of_singleton; set_solver|].
  intros [->|Hp]%elem_of_cons; [|apply IH; by right]. apply not_elem_of_cons. split; [done|]. apply IH. left.
Qed.

Lemma components_pieces s name : Normal name ∈ path_components s → name ∈ split_on slash s.
Proof.
  unfold path_components. destruct (split_on slash s) as [|piece pieces]; [set_solver|].
  intros [H|H]%elem_of_app.
  - destruct (seqb piece [dot]); [set_solver|].
    destruct (seqb piece []); [destruct pieces; set_solver|].
    destruct (component_of piece) as [k|] eqn:E; [|by apply not_elem_of_nil in H].
    apply list_elem_of_singleton in H as <-. apply component_of_Normal in E as [-> _]. left.
  - apply list_elem_of_omap in H as (p & Hp & H). apply component_of_Normal in H as [-> _]. by right.
Qed.

(** The name of a file is made of characters of its path. *)
Lemma file_name_chars s name x : path_file_name s = Some name → x ∈ name → x ∈ s.
Proof.
  unfold path_file_name. destruct (last (path_components s)) as [[]|] eqn:E; try done. intros [= ->].
  apply last_Some_elem_of, components_pieces in E. by apply (elem_of_split_on slash).
Qed.
