(* ===== verification/GitSource.v ===== *)
(** * What may be cloned and checked out

    [apps/web/crates/git-runtime/src/validation.rs]: the sources of repositories and the names
    of branches that the server accepts, with the errors of the git runtime.  The parser of
    URLs is a parameter. *)

From S2P Require Import Prelude RustStr RustPath.

(** What [url::Url::parse] finds. *)
Record Url := mkUrl {
  url_scheme : str;
  url_host : option str;
  url_port : option N;
  url_username : str;
  url_password : option str;
  url_query : option str;
  url_fragment : option str;
  url_path : str
}.


Inductive GitRuntimeError :=
| InvalidSource (message : str)
| InvalidRef (message : str)
| UnsafePath (message : str)
| GitConflict (message : str)
| UnsupportedImage (message : str)
| ImageTooLarge
| GitFailed (operation message : str)
| GitIo (operation : str)
| NoChanges.

Record GitSourcePolicy := mkSourcePolicy { allow_local : bool }.
Definition remote_only : GitSourcePolicy := mkSourcePolicy false.
Definition local_sources : GitSourcePolicy := mkSourcePolicy true.

(** [trim_matches('/')] is empty. *)
Definition only_slashes (s : str) : bool := forallb (N.eqb slash) s.

Definition colon : char := 58.
Definition at_sign : char := 64.
Definition dash : char := 45.
Definition opening_brace : char := 123.

Definition is_scp_char (c : char) : bool := is_ascii_alphanumeric c || existsb (N.eqb c) (lit "@._/-").

Definition is_scp_source (source : str) : bool :=
  match split_once [colon] source with
  | None => false
  | Some (authority, path) =>
      match split_once [at_sign] authority with
      | None => false
      | Some (user, host) =>
          negb (seqb user []) && negb (seqb host []) && negb (only_slashes path) && negb (starts_with [dash] path) &&
          forallb is_scp_char (authority ++ path)
      end
  end.

(** [Option::is_some]. *)
Definition is_some {A} (o : option A) : bool := match o with Some _ => true | None => false end.

Section source.
Context (parse_url : str → option Url).

Definition malformed_source (source : str) : bool :=
  seqb source [] || starts_with [dash] source || existsb (fun c => existsb (N.eqb c) [0; nl; cr]%N) source ||
  existsb is_whitespace source.

(** [ValidatedGitSource::parse]. *)
Definition parse_source (policy : GitSourcePolicy) (source : str) : result str GitRuntimeError :=
  let source := trim source in
  if malformed_source source then Err (InvalidSource (lit "malformed source"))
  else if allow_local policy && starts_with [slash] source then Ok source
  else if is_scp_source source then Ok source
  else match parse_url source with
       | None => Err (InvalidSource (lit "expected HTTPS or SSH URL"))
       | Some parsed =>
           let is_file := seqb (url_scheme parsed) (lit "file") in
           if negb (existsb (seqb (url_scheme parsed)) [lit "https"; lit "ssh"] || allow_local policy && is_file) then
             Err (InvalidSource (lit "unsupported URL scheme"))
           else if negb is_file && negb (is_some (url_host parsed)) then Err (InvalidSource (lit "remote URL omitted host"))
           else if is_some (url_password parsed) ||
                   seqb (url_scheme parsed) (lit "https") && negb (seqb (url_username parsed) []) then
             Err (InvalidSource (lit "embedded credentials are not allowed"))
           else if is_some (url_query parsed) || is_some (url_fragment parsed) || only_slashes (url_path parsed) then
             Err (InvalidSource (lit "malformed repository URL"))
           else Ok source
       end.
End source.

(** ** Branches *)

Definition REF_FORBIDDEN : str := lit " ~^:?*[" ++ [92%N].

Definition bad_ref_component (component : str) : bool :=
  seqb component [] || starts_with [dot] component || ends_with (lit ".lock") component.

Definition malformed_ref (value : str) : bool :=
  seqb value [] || (255 <? byte_len value)%nat || seqb value [at_sign] ||
  existsb (fun c => starts_with [c] value) [dash; dot; slash] || existsb (fun c => ends_with [c] value) [dot; slash] ||
  contains [dot; dot] value || contains [at_sign; opening_brace] value || contains [slash; slash] value ||
  existsb (fun c => is_control c || existsb (N.eqb c) REF_FORBIDDEN) value ||
  existsb bad_ref_component (split_on slash value).

(** [ValidatedGitRef::parse]. *)
Definition parse_ref (git_ref : str) : result str GitRuntimeError :=
  let value := trim git_ref in
  if malformed_ref value then Err (InvalidRef (lit "malformed branch name")) else Ok value.
