(* ===== verification/GitRuntime.v ===== *)
(** * The git runtime

    [apps/web/crates/git-runtime/src/lib.rs]: mirrors, checkouts and everything the server does
    to a workspace.  An operation is a program that asks git, the file system and its locks
    and goes on with their answers: a tree of calls with one branch per answer.  The trees
    are inductive, so every operation ends whatever the answers are.  Environment variables
    of the process ([GIT_TERMINAL_PROMPT], [GIT_CONFIG_GLOBAL], ...) are constants and left
    out; a lock is held until its operation returns. *)

From S2P Require Import Prelude RustStr Utf8 RustPath GitSource.
Open Scope nat_scope.

(** An absolute path is the list of its names. *)
Abbreviation Path := (list (list N)) (only parsing).
Abbreviation Uuid := N (only parsing).

Definition show_path (p : Path) : str := concat (map (cons slash) p).

Definition component_text (c : Component) : str :=
  match c with RootDir => [] | CurDir => [dot] | ParentDir => [dot; dot] | Normal s => s end.

(** [Path::join] of an absolute path and a text. *)
Definition join_path (p : Path) (relative : str) : Path :=
  match path_components relative with
  | RootDir :: cs => map component_text cs
  | cs => p ++ map component_text cs
  end.

(** [Path::starts_with]. *)
Definition path_starts_with (p root : Path) : bool := bool_decide (root `prefix_of` p).

(** [path.parent() == Some(parent)]. *)
Definition parent_is (p parent : Path) : bool := negb (bool_decide (p = [])) && bool_decide (removelast p = parent).

(** ** Calls *)

(** An argument of git: written in the program, given by a client, printed by git before, or
    a path of the server. *)
Inductive Arg := Lit (s : str) | Given (s : str) | Printed (s : str) | At (p : Path).

Definition arg_text (a : Arg) : str := match a with Lit s | Given s | Printed s => s | At p => show_path p end.
Definition word (s : string) : Arg := Lit (lit s).

Record Output := mkOutput { exit_code : option Z; stdout : list N; stderr : list N }.
Record Metadata := mkMetadata { meta_symlink : bool; meta_file : bool; meta_dir : bool; meta_len : N }.
Record DirEntry := mkDirEntry { entry_name : list N; entry_dir : option bool }.

Inductive IoError := IoNotFound | IoOther.
Inductive LockName := ProjectLock (id : Uuid) | WorkspaceLock (id : Uuid).

Inductive GitCall : Type → Type :=
| LockMutex (name : LockName) : GitCall unit
| LockFile (path : Path) : GitCall (option GitRuntimeError)
| RunGit (cwd : option Path) (args : list Arg) : GitCall (result Output IoError)
| SpawnGit (cwd : Path) (args : list Arg) : GitCall (result unit IoError)
| WriteInput (bytes : list N) : GitCall (result unit IoError)
| WaitOutput : GitCall (result Output IoError)
| SymlinkMetadata (path : Path) : GitCall (result Metadata IoError)
| MetadataOf (path : Path) : GitCall (result Metadata IoError)
| IsFile (path : Path) : GitCall bool
| Exists (path : Path) : GitCall bool
| Canonicalize (path : Path) : GitCall (result Path IoError)
| OpenFile (path : Path) : GitCall (result unit IoError)
| ReadOpened (path : Path) (limit : N) : GitCall (result (list N) IoError)
| WriteFile (path : Path) (bytes : list N) : GitCall (result unit IoError)
| CopyFile (source target : Path) : GitCall (result unit IoError)
| Rename (source target : Path) : GitCall (result unit IoError)
| RemoveFile (path : Path) : GitCall (result unit IoError)
| RemoveDirAll (path : Path) : GitCall (result unit IoError)
| CreateDirAll (path : Path) : GitCall (result unit IoError)
| SetMode (path : Path) (mode : N) : GitCall (result unit IoError)
| ReadDir (path : Path) : GitCall (result (list DirEntry) IoError)
| FreshId : GitCall Uuid
| GetRoot (workspace : Uuid) : GitCall (option Path)
| SetRoot (workspace : Uuid) (root : option Path) : GitCall unit.

Inductive Prog (A : Type) : Type :=
| Ret (a : A)
| Vis (X : Type) (c : GitCall X) (k : X → Prog A).
Arguments Ret {A} _.
Arguments Vis {A X} _ _.

Fixpoint pbind {A B} (p : Prog A) (k : A → Prog B) : Prog B :=
  match p with
  | Ret a => k a
  | Vis c next => Vis c (fun x => pbind (next x) k)
  end.

Definition call {X} (c : GitCall X) : Prog X := Vis c Ret.

(** Operations fail with a [GitRuntimeError]. *)
Definition Op (A : Type) : Type := Prog (result A GitRuntimeError).
Definition ok {A} (a : A) : Op A := Ret (Ok a).
Definition fail {A} (e : GitRuntimeError) : Op A := Ret (Err e).
Definition obind {A B} (p : Op A) (k : A → Op B) : Op B :=
  pbind p (fun r => match r with Ok a => k a | Err e => fail e end).

Declare Scope git_scope.
Delimit Scope git_scope with git.
Notation "'do' x ':=' p 'in' k" := (pbind p (fun x => k))
  (at level 10, x name, p at level 100, k at level 200) : git_scope.
Notation "'do!' x ':=' p 'in' k" := (obind p (fun x => k))
  (at level 10, x name, p at level 100, k at level 200) : git_scope.
Open Scope git_scope.

(** [map_err(|source| GitRuntimeError::Io { operation, source })]. *)
Definition io {A} (operation : string) (c : GitCall (result A IoError)) : Op A :=
  do r := call c in Ret (map_err (fun _ => GitIo (lit operation)) r).

Definition check (b : bool) (e : GitRuntimeError) : Op unit := if b then ok tt else fail e.

Definition is_empty {A} (l : list A) : bool := match l with [] => true | _ => false end.

(** A [for] loop with [?]. *)
Fixpoint for_each {A B} (f : A → B → Op A) (a : A) (l : list B) : Op A :=
  match l with
  | [] => ok a
  | x :: l => do! a := f a x in for_each f a l
  end.

(** ** Limits *)

Definition LARGE_FILE_BYTES : N := 1024 * 1024.
Definition MAX_WORKSPACE_FILES : N := 20000.
Definition MAX_FILE_READ_BYTES : N := 2 * 1024 * 1024.
Definition MAX_IMAGE_ASSET_BYTES : N := 50 * 1024 * 1024.
Definition MAX_DIFF_BYTES : N := 2 * 1024 * 1024.
Definition MAX_APPLY_PATCH_BYTES : N := 16 * 1024 * 1024.

Definition blen (bytes : list N) : N := N.of_nat (length bytes).

(** ** Data *)

Record WorkspaceCheckout := mkCheckout { checkout_id : Uuid; head_commit : str; checked_out : str; checkout_root : Path }.

Record FileChange := mkChange {
  change_path : str;
  change_status : str;
  additions : option N;
  deletions : option N;
  change_binary : bool;
  size_bytes : option N;
  large : bool
}.

Record WorkspaceStatus := mkStatus { status_branch : str; status_head : str; status_changes : list FileChange }.
Record WorkspaceFileContent := mkContent { file_content : str; file_truncated : bool }.
Record WorkspaceImageAsset := mkImage { image_bytes : list N; image_type : str }.
Record WorkspaceFileDiff := mkFileDiff { diff_path : str; diff_text : str; diff_binary : bool; diff_truncated : bool }.
Record BranchInfo := mkBranch { branch_name : str; last_commit : Z }.
Record GitLogEntry := mkLogEntry { log_sha : str; log_summary : str; log_author : str; log_timestamp : Z }.
Record GitLog := mkGitLog {
  log_total : N;
  log_entries : list GitLogEntry;
  log_ahead : N;
  log_behind : N;
  ahead_entries : list GitLogEntry;
  behind_entries : list GitLogEntry;
  log_upstream : option str
}.
Record CommitDiff := mkCommitDiff { commit_path : str; commit_status : str; commit_diff : str; commit_binary : bool }.
Record CommitAuthor := mkAuthor { author_name : str; author_email : str }.

Record GitRuntime := mkRuntime {
  source_policy : GitSourcePolicy;
  mirrors : Path;
  workspaces : Path;
  locks : Path
}.

(** ** Checks of input *)

Definition is_normal (c : Component) : bool := match c with Normal _ => true | _ => false end.

Definition validate_relative_path (value : str) : result unit GitRuntimeError :=
  if seqb value [] || existsb (N.eqb 0) value then Err (UnsafePath (lit "empty or NUL path"))
  else if starts_with [dot; slash] value || contains [slash; slash] value || negb (forallb is_normal (path_components value))
  then Err (UnsafePath (lit "path escapes the workspace"))
  else Ok tt.

Definition is_hex_digit (c : char) : bool :=
  is_ascii_digit c || ((65 <=? c)%N && (c <=? 70)%N) || ((97 <=? c)%N && (c <=? 102)%N).

Definition validate_commit_sha (value : str) : result str GitRuntimeError :=
  let value := trim value in
  if negb ((7 <=? byte_len value) && (byte_len value <=? 64)) || negb (forallb is_hex_digit value)
  then Err (InvalidRef (lit "commit id must be a hexadecimal object id"))
  else Ok (to_ascii_lowercase value).

Definition has_any (chars : list N) (s : str) : bool := existsb (fun c => existsb (N.eqb c) chars) s.

Definition validate_commit_input (selected_paths : list str) (message : str) (author : CommitAuthor) :
    result unit GitRuntimeError :=
  match selected_paths with
  | [] => Err NoChanges
  | _ =>
      let? _ := try_fold (fun _ path => validate_relative_path path) tt selected_paths in
      if seqb (trim message) [] || (10000 <? N.of_nat (byte_len message))%N || existsb (N.eqb 0) message
      then Err (GitConflict (lit "invalid commit message"))
      else if seqb (trim (author_name author)) [] || has_any [0; nl; cr]%N (author_name author) ||
              has_any [0; nl; cr]%N (author_email author) || negb (existsb (N.eqb at_sign) (author_email author))
      then Err (GitConflict (lit "invalid commit author"))
      else Ok tt
  end.

(** ** What git prints *)

(** [split(|byte| *byte == 0).filter(|record| !record.is_empty())] *)
Definition nul_records (bytes : list N) : list (list N) := List.filter (fun r => negb (seqb r [])) (split_on 0%N bytes).

Definition nul_strings (bytes : list N) : result (list str) GitRuntimeError :=
  try_map (fun record =>
    match from_utf8 record with
    | Err _ => Err (GitFailed (lit "read Git paths") (lit "Git returned a non-UTF-8 path"))
    | Ok value => let? _ := validate_relative_path value in Ok value
    end) (nul_records bytes).

(** [BTreeMap::insert] on the changes in the order of their paths. *)
Fixpoint insert_change (c : FileChange) (changes : list FileChange) : list FileChange :=
  match changes with
  | [] => [c]
  | d :: rest =>
      if seqb (change_path c) (change_path d) then c :: rest
      else if str_leb (change_path c) (change_path d) then c :: changes
      else d :: insert_change c rest
  end.

(** A record is two bytes of status, a space and a path.  [record[..2]] and [record[3..]] cut
    next to the space, which is a character of its own. *)
Definition parse_porcelain_record (record : list N) : result FileChange GitRuntimeError :=
  match from_utf8 record with
  | Err _ => Err (GitFailed (lit "workspace status") (lit "Git returned a non-UTF-8 path"))
  | Ok _ =>
      if (length record <? 4) || negb (bool_decide (record !! 2 = Some 32%N))
      then Err (GitFailed (lit "workspace status") (lit "Git returned an invalid porcelain record"))
      else match from_utf8 (take 2 record), from_utf8 (drop 3 record) with
           | Ok status, Ok path =>
               let? _ := validate_relative_path path in
               Ok (mkChange path status None None false None false)
           | _, _ => Err (GitFailed (lit "workspace status") (lit "panic: not a character boundary"))
           end
  end.

Definition is_rename (status : str) : bool := existsb (N.eqb 82) status || existsb (N.eqb 67) status.

(** The [while] loop: a rename or a copy is followed by the path it comes from. *)
Fixpoint parse_records (records : list (list N)) (changes : list FileChange) : result (list FileChange) GitRuntimeError :=
  match records with
  | [] => Ok changes
  | record :: rest =>
      let? change := parse_porcelain_record record in
      let changes := insert_change change changes in
      if is_rename (change_status change)
      then match rest with [] => Ok changes | _ :: rest => parse_records rest changes end
      else parse_records rest changes
  end.

Definition parse_porcelain (bytes : list N) : result (list FileChange) GitRuntimeError := parse_records (nul_records bytes) [].

(** [str::parse] of the unsigned and signed 64-bit integers. *)
Definition parse_digits (s : str) : option N :=
  match s with
  | [] => None
  | _ => if forallb is_ascii_digit s then Some (foldl (fun n c => 10 * n + (c - 48))%N 0%N s) else None
  end.
Definition parse_u64 (s : str) : option N :=
  n ← parse_digits (match s with 43%N :: t => t | _ => s end); if (n <? 2 ^ 64)%N then Some n else None.
Definition parse_i64 (s : str) : option Z :=
  match s with
  | 45%N :: t => n ← parse_digits t; if (n <=? 2 ^ 63)%N then Some (- Z.of_N n)%Z else None
  | _ => n ← parse_digits (match s with 43%N :: t => t | _ => s end); if (n <? 2 ^ 63)%N then Some (Z.of_N n) else None
  end.

Definition tab : char := 9.

(** [splitn(3, '\t')] with defaults. *)
Definition splitn3 (s : str) : str * str * str :=
  match split_once [tab] s with
  | None => (s, [], [])
  | Some (a, s) => match split_once [tab] s with None => (a, s, []) | Some (b, c) => (a, b, c) end
  end.

Definition apply_numstat_record (changes : list FileChange) (record : list N) : result (list FileChange) GitRuntimeError :=
  match from_utf8 record with
  | Err _ => Err (GitFailed (lit "workspace diff") (lit "Git returned non-UTF-8 diff metadata"))
  | Ok record =>
      let '(added, deleted, path) := splitn3 record in
      Ok (map (fun c => if seqb (change_path c) path
                        then mkChange (change_path c) (change_status c) (parse_u64 added) (parse_u64 deleted)
                               (seqb added [dash] || seqb deleted [dash]) (size_bytes c) (large c)
                        else c) changes)
  end.

Definition apply_numstat (changes : list FileChange) (bytes : list N) : result (list FileChange) GitRuntimeError :=
  try_fold apply_numstat_record changes (nul_records bytes).

(** [split(0)], each field trimmed, the empty ones dropped. *)
Definition trimmed_fields (bytes : list N) : list str :=
  List.filter (fun f => negb (seqb f [])) (map (fun f => trim (from_utf8_lossy f)) (split_on 0%N bytes)).

(** ** Images *)

Definition image_media_type (relative : str) : result str GitRuntimeError :=
  match to_ascii_lowercase <$> path_extension relative with
  | None => Err (UnsupportedImage (lit "file extension is not an allowed image type"))
  | Some e =>
      let same x := seqb e (lit x) in
      if same "png"%string then Ok (lit "image/png")
      else if same "jpg"%string || same "jpeg"%string then Ok (lit "image/jpeg")
      else if same "gif"%string then Ok (lit "image/gif")
      else if same "webp"%string then Ok (lit "image/webp")
      else if same "avif"%string then Ok (lit "image/avif")
      else if same "bmp"%string then Ok (lit "image/bmp")
      else if same "tif"%string || same "tiff"%string then Ok (lit "image/tiff")
      else if same "heic"%string then Ok (lit "image/heic")
      else if same "heif"%string then Ok (lit "image/heif")
      else if same "svg"%string then Ok (lit "image/svg+xml")
      else Err (UnsupportedImage (lit "file extension is not an allowed image type"))
  end.

(** [bytes.get(a..b) == Some(...)] *)
Definition bytes_at (a b : nat) (bytes expected : list N) : bool :=
  (b <=? length bytes) && bool_decide (take (b - a) (drop a bytes) = expected).

Definition is_iso_base_media_image (bytes : list N) (brands : list str) : bool :=
  bytes_at 4 8 bytes (lit "ftyp") &&
  (let upper := Nat.min (length bytes) 64 in
   (8 <=? upper) && (let header := take (upper - 8) (drop 8 bytes) in existsb (fun brand => contains brand header) brands)).

(** [trim_start_matches('\u{feff}')] *)
Fixpoint trim_start_char (c : char) (s : str) : str :=
  match s with
  | x :: s' => if (x =? c)%N then trim_start_char c s' else s
  | [] => []
  end.

(** [s.get(..n)]: the first [n] bytes, if that is a whole number of characters of [s]. *)
Fixpoint str_get_to (n : nat) (s : str) : option str :=
  match n, s with
  | O, _ => Some []
  | _, [] => None
  | _, c :: s => if n <? len_utf8 c then None else cons c <$> str_get_to (n - len_utf8 c) s
  end.

Definition BOM : char := 65279.

Definition is_svg_document (bytes : list N) : bool :=
  match from_utf8 bytes with
  | Err _ => false
  | Ok text =>
      let prefix := to_ascii_lowercase
        (default text (str_get_to (N.to_nat (N.min (N.of_nat (byte_len text)) 4096)) (trim_start (trim_start_char BOM text)))) in
      match split_once (lit "<svg") prefix with
      | None => false
      | Some (before, _) =>
          let preamble := trim before in
          seqb preamble [] || existsb (fun p => starts_with (lit p) preamble) ["<?xml"; "<!--"; "<!doctype svg"]%string
      end
  end.

Definition validate_image_bytes (media_type : str) (bytes : list N) : result unit GitRuntimeError :=
  let starts x := starts_with x bytes in
  let valid :=
    if seqb media_type (lit "image/png") then starts ([137%N] ++ lit "PNG" ++ [13; 10; 26; 10]%N)
    else if seqb media_type (lit "image/jpeg") then starts [255; 216; 255]%N
    else if seqb media_type (lit "image/gif") then starts (lit "GIF87a") || starts (lit "GIF89a")
    else if seqb media_type (lit "image/webp") then starts (lit "RIFF") && bytes_at 8 12 bytes (lit "WEBP")
    else if seqb media_type (lit "image/avif") then is_iso_base_media_image bytes [lit "avif"; lit "avis"]
    else if seqb media_type (lit "image/heic") then
      is_iso_base_media_image bytes [lit "heic"; lit "heix"; lit "hevc"; lit "hevx"; lit "heim"; lit "heis"]
    else if seqb media_type (lit "image/heif") then is_iso_base_media_image bytes [lit "mif1"; lit "msf1"; lit "heif"]
    else if seqb media_type (lit "image/bmp") then starts (lit "BM")
    else if seqb media_type (lit "image/tiff") then
      starts (lit "II*" ++ [0%N]) || starts (lit "MM" ++ [0; 42]%N) || starts (lit "II+" ++ [0%N]) || starts (lit "MM" ++ [0; 43]%N)
    else if seqb media_type (lit "image/svg+xml") then is_svg_document bytes
    else false in
  if valid then Ok tt else Err (UnsupportedImage (lit "file contents do not match the declared image type")).

(** ** Owned directories *)

Definition not_found_or {A} (operation : string) (r : result A IoError) (missing : Op unit) (found : A → Op unit) : Op unit :=
  match r with
  | Ok a => found a
  | Err IoNotFound => missing
  | Err IoOther => fail (GitIo (lit operation))
  end.

Definition reject_symlink (path : Path) (operation : string) : Op unit :=
  do m := call (SymlinkMetadata path) in
  not_found_or operation m (ok tt) (fun m => check (negb (meta_symlink m)) (UnsafePath (lit operation ++ lit " must not be a symlink"))).

Definition create_private_dir (path : Path) (operation : string) : Op unit :=
  do! _ := io operation (CreateDirAll path) in io operation (SetMode path 448).

Definition create_owned_child (root : Path) (name : string) : Op Path :=
  let path := root ++ [lit name] in
  do! _ := reject_symlink path "runner directory" in
  do! _ := create_private_dir path "runner directory" in
  do! canonical := io "runner directory" (Canonicalize path) in
  do! _ := check (parent_is canonical root) (UnsafePath (lit "runner " ++ lit name ++ lit " directory escaped its root")) in
  ok canonical.

(** [GitRuntime::new]. *)
Definition new_runtime (config_root : Path) (policy : GitSourcePolicy) : Op GitRuntime :=
  do! _ := reject_symlink config_root "runner root" in
  do! _ := create_private_dir config_root "runner root" in
  do! root := io "runner root" (Canonicalize config_root) in
  do! mirrors := create_owned_child root "mirrors" in
  do! workspaces := create_owned_child root "workspaces" in
  do! locks := create_owned_child root "locks" in
  ok (mkRuntime policy mirrors workspaces locks).

Definition ensure_owned_workspace (parent path : Path) : Op unit :=
  do! _ := reject_symlink path "workspace" in
  do! canonical := io "workspace" (Canonicalize path) in
  check (parent_is canonical parent) (UnsafePath (lit "workspace is outside the runner root")).

Definition reject_existing_workspace (path : Path) : Op unit :=
  do m := call (SymlinkMetadata path) in
  check (negb (is_ok m)) (GitConflict (lit "workspace path already exists")).

Definition remove_internal_dir (parent path : Path) (operation : string) : Op unit :=
  do m := call (SymlinkMetadata path) in
  not_found_or operation m (ok tt) (fun m =>
    do! _ := check (negb (meta_symlink m || negb (parent_is path parent)))
               (UnsafePath (lit "refused " ++ lit operation ++ lit " outside owned root")) in
    io operation (RemoveDirAll path)).

Definition git_marker_is_safe (repository : Path) : Prog bool :=
  do m := call (SymlinkMetadata (repository ++ [lit ".git"])) in
  Ret (match m with Ok m => negb (meta_symlink m) && (meta_dir m || meta_file m) | Err _ => false end).

Definition safe_file_size (workspace : Path) (relative : str) : Op (option N) :=
  do! _ := Ret (validate_relative_path relative) in
  let path := join_path workspace relative in
  do m := call (SymlinkMetadata path) in
  match m with
  | Err IoNotFound => ok None
  | Err IoOther => fail (GitIo (lit "inspect workspace file"))
  | Ok m =>
      if meta_symlink m || negb (meta_file m) then ok None
      else
        do! canonical := io "workspace file" (Canonicalize path) in
        do! _ := check (path_starts_with canonical workspace) (UnsafePath (lit "workspace file escaped through a symlink")) in
        ok (Some (meta_len m))
  end.

(** [scan_nested_git_roots]: the directories that are pushed are taken up in the order of
    their names, each with all that is below it before the next. *)
Definition SKIPPED_DIRS : list str := [lit ".git"; lit "node_modules"; lit "dist"; lit "target"; lit "release-artifacts"].

(** The loop over the children, from the last name to the first. *)
Fixpoint scan_children (root directory : Path) (max_results : nat) (children : list DirEntry) (results : list str) (pending : list Path) :
    Prog (list str * list Path) :=
  match children with
  | [] => Ret (results, pending)
  | entry :: rest =>
      if existsb (seqb (entry_name entry)) SKIPPED_DIRS || negb (default false (entry_dir entry))
      then scan_children root directory max_results rest results pending
      else
        let path := directory ++ [entry_name entry] in
        do safe := git_marker_is_safe path in
        if safe then
          let results := results ++ [map (fun c => if (c =? 92)%N then slash else c) (join [slash] (drop (length root) path))] in
          if max_results <=? length results then Ret (results, pending)
          else scan_children root directory max_results rest results (path :: pending)
        else scan_children root directory max_results rest results (path :: pending)
  end.

Fixpoint scan_directory (root : Path) (max_results : nat) (depth : nat) (directory : Path) (results : list str) : Prog (list str) :=
  match depth with
  | O => Ret results
  | S depth =>
      if max_results <=? length results then Ret results
      else
        do entries := call (ReadDir directory) in
        match entries with
        | Err _ => Ret results
        | Ok entries =>
            let children := sort_by (fun a b => str_leb (entry_name a) (entry_name b)) entries in
            do found := scan_children root directory max_results (rev children) results [] in
            (fix visit (pending : list Path) (results : list str) : Prog (list str) :=
               match pending with
               | [] => Ret results
               | path :: pending => do results := scan_directory root max_results depth path results in visit pending results
               end) (snd found) (fst found)
        end
  end.

Definition scan_nested_git_roots (root : Path) (max_depth max_results : nat) : Prog (list str) :=
  do results := scan_directory root max_results max_depth root [] in
  Ret (sort_by str_leb results).

(** ** Locks *)

Section operations.
Context (show_uuid : Uuid → str) (parse_uuid : str → option Uuid) (parse_url : str → option Url).
Context (rt : GitRuntime).

Definition lock_text (name : LockName) : str :=
  match name with
  | ProjectLock id => lit "project-" ++ show_uuid id
  | WorkspaceLock id => lit "workspace-" ++ show_uuid id
  end.

Definition acquire_lock (name : LockName) (file_lock : bool) : Op unit :=
  do _ := call (LockMutex name) in
  if file_lock then
    do e := call (LockFile (locks rt ++ [lock_text name ++ lit ".lock"])) in
    match e with None => ok tt | Some e => fail e end
  else ok tt.

Definition acquire_project_lock (project : Uuid) : Op unit := acquire_lock (ProjectLock project) true.
Definition acquire_workspace_lock (workspace : Uuid) : Prog unit := do _ := acquire_lock (WorkspaceLock workspace) false in Ret tt.

Definition acquire_workspace_pair (first second : Uuid) : Prog unit :=
  if (first <? second)%N
  then do _ := acquire_workspace_lock first in acquire_workspace_lock second
  else do _ := acquire_workspace_lock second in acquire_workspace_lock first.

(** ** Running git *)

Definition git_failure (operation : string) (o : Output) : GitRuntimeError :=
  let message := join [32%N] (take 4 (lines (from_utf8_lossy (stderr o)))) in
  GitFailed (lit operation)
    (if seqb message []
     then lit "process exited with " ++
          (let code := default (-1)%Z (exit_code o) in if (code <? 0)%Z then dash :: show_N (Z.to_N (- code)) else show_N (Z.to_N code))
     else message).

Definition success (o : Output) : bool := bool_decide (exit_code o = Some 0%Z).

Definition NO_HOOKS : list Arg := [word "-c"; word "core.hooksPath=/dev/null"].

Definition git_output (operation : string) (cwd : option Path) (args : list Arg) (accepted : list Z) : Op Output :=
  do! o := io operation (RunGit cwd (NO_HOOKS ++ args)) in
  if existsb (Z.eqb (default (-1)%Z (exit_code o))) accepted then ok o else fail (git_failure operation o).

Definition git (operation : string) (cwd : option Path) (args : list Arg) : Op unit :=
  do! _ := git_output operation cwd args [0%Z] in ok tt.

Definition git_text (operation : string) (cwd : option Path) (args : list Arg) : Op str :=
  do! o := git_output operation cwd args [0%Z] in
  match from_utf8 (stdout o) with
  | Ok value => ok (trim value)
  | Err _ => fail (GitFailed (lit operation) (lit "Git returned non-UTF-8 output"))
  end.

(** ** Workspaces *)

Definition workspace_path (workspace : Uuid) : Path := workspaces rt ++ [show_uuid workspace].

Definition require_base_workspace (id : Uuid) : Op Path :=
  let workspace := workspace_path id in
  do! _ := ensure_owned_workspace (workspaces rt) workspace in
  do exists_ := call (Exists (workspace ++ [lit ".git"])) in
  do! _ := check exists_ (GitConflict (lit "workspace is not a Git checkout")) in
  ok workspace.

Definition require_workspace (id : Uuid) : Op Path :=
  do! workspace := require_base_workspace id in
  do selected := call (GetRoot id) in
  match selected with
  | None => ok workspace
  | Some selected =>
      if path_starts_with selected workspace then
        do safe := git_marker_is_safe selected in
        do! _ := check safe (UnsafePath (lit "selected Git root is no longer a safe workspace repository")) in
        ok selected
      else fail (UnsafePath (lit "selected Git root is no longer a safe workspace repository"))
  end.

(** The preamble of most operations. *)
Definition in_workspace {A} (id : Uuid) (k : Path → Op A) : Op A :=
  do _ := acquire_workspace_lock id in
  do! workspace := require_workspace id in
  k workspace.

(** Each component must exist and be no link. *)
Definition nested_step (candidate : Path) (c : Component) : Op Path :=
  match c with
  | Normal name =>
      let candidate := candidate ++ [name] in
      do! m := io "inspect nested Git root" (SymlinkMetadata candidate) in
      do! _ := check (negb (meta_symlink m)) (UnsafePath (lit "nested Git root contains a symlink")) in
      ok candidate
  | _ => fail (UnsafePath (lit "invalid nested Git root"))
  end.

Definition set_workspace_git_root (id : Uuid) (relative : option str) : Op unit :=
  do _ := acquire_workspace_lock id in
  do! workspace := require_base_workspace id in
  match (r ← relative; let r := trim r in if seqb r [] then None else Some r) with
  | None => do _ := call (SetRoot id None) in ok tt
  | Some relative =>
      do! _ := Ret (validate_relative_path relative) in
      do! candidate := for_each nested_step workspace (path_components relative) in
      do! candidate := io "nested Git root" (Canonicalize candidate) in
      if path_starts_with candidate workspace then
        do safe := git_marker_is_safe candidate in
        do! _ := check safe (UnsafePath (lit "nested Git root is not a repository inside the workspace")) in
        do _ := call (SetRoot id (Some candidate)) in ok tt
      else fail (UnsafePath (lit "nested Git root is not a repository inside the workspace"))
  end.

Definition list_git_roots (id : Uuid) (depth : nat) : Op (list str) :=
  do! workspace := require_base_workspace id in
  do roots := scan_nested_git_roots workspace (Nat.max 1 (Nat.min depth 6)) 200 in
  ok roots.

Definition remove_workspace (id : Uuid) : Op unit :=
  do _ := acquire_workspace_lock id in
  do _ := call (SetRoot id None) in
  remove_internal_dir (workspaces rt) (workspace_path id) "workspace removal".

(** ** Mirrors and checkouts *)

(** [GitRuntime::validate_external_source]: what a client sends is never a managed source. *)
Definition validate_external_source (source : str) : result str GitRuntimeError := parse_source parse_url (source_policy rt) source.

(** [GitRuntime::validate_source]. *)
Definition validate_source (source : str) : result str GitRuntimeError :=
  match strip_prefix (lit "managed://") (trim source) with
  | Some value =>
      match parse_uuid value with
      | None => Err (InvalidSource (lit "invalid managed project id"))
      | Some project => Ok (lit "managed://" ++ show_uuid project)
      end
  | None => validate_external_source source
  end.

Definition validate_ref (git_ref : str) : result str GitRuntimeError := parse_ref git_ref.

Definition managed_project_id (source : str) : option Uuid := strip_prefix (lit "managed://") source ≫= parse_uuid.

Definition heads (branch : str) : str := lit "refs/heads/" ++ branch.

(** The body of [initialize_managed_mirror] before its clean-up. *)
Definition seed_managed_mirror (seed temporary mirror : Path) : Op unit :=
  do! _ := git "managed source init" None [word "init"; word "--initial-branch=main"; At seed] in
  do! _ := git "managed source initial commit" (Some seed)
    [word "-c"; word "user.name=Open Web Codex"; word "-c"; word "user.email=codex@localhost"; word "commit"; word "--allow-empty";
     word "-m"; word "Initial commit"] in
  do! _ := git "managed mirror clone" None [word "clone"; word "--mirror"; word "--no-tags"; word "--"; At seed; At temporary] in
  io "publish managed mirror" (Rename temporary mirror).

Definition initialize_managed_mirror (project workspace : Uuid) (mirror : Path) : Op unit :=
  let name := [dot] ++ show_uuid project ++ [dash] ++ show_uuid workspace in
  let seed := mirrors rt ++ [name ++ lit ".seed"] in
  let temporary := mirrors rt ++ [name ++ lit ".managed.tmp"] in
  do! _ := remove_internal_dir (mirrors rt) seed "stale managed seed cleanup" in
  do! _ := remove_internal_dir (mirrors rt) temporary "stale managed mirror cleanup" in
  do result := seed_managed_mirror seed temporary mirror in
  do seed_cleanup := remove_internal_dir (mirrors rt) seed "managed seed cleanup" in
  do _ := if is_ok result then ok tt else remove_internal_dir (mirrors rt) temporary "failed managed mirror cleanup" in
  do! _ := Ret result in
  Ret seed_cleanup.

Definition clone_mirror (source : str) (temporary mirror : Path) : Op unit :=
  do! _ := remove_internal_dir (mirrors rt) temporary "stale mirror cleanup" in
  do clone := git "mirror clone" None [word "clone"; word "--mirror"; word "--no-tags"; word "--"; Given source; At temporary] in
  match clone with
  | Err e => do! _ := remove_internal_dir (mirrors rt) temporary "failed mirror cleanup" in fail e
  | Ok _ => io "publish repository mirror" (Rename temporary mirror)
  end.

Definition ensure_mirror (project workspace : Uuid) (source : str) : Op Path :=
  let mirror := mirrors rt ++ [show_uuid project ++ lit ".git"] in
  do! _ := reject_symlink mirror "repository mirror" in
  match managed_project_id source with
  | Some managed =>
      do! _ := check (managed =? project)%N (InvalidSource (lit "managed source does not match its project")) in
      do exists_ := call (Exists mirror) in
      do! _ := if exists_ then ok tt else initialize_managed_mirror project workspace mirror in
      do! _ := ensure_owned_workspace (mirrors rt) mirror in
      ok mirror
  | None =>
      do exists_ := call (Exists mirror) in
      do! _ := if exists_ then ok tt
               else clone_mirror source (mirrors rt ++ [[dot] ++ show_uuid project ++ [dash] ++ show_uuid workspace ++ lit ".tmp"]) mirror in
      do! _ := ensure_owned_workspace (mirrors rt) mirror in
      do! _ := git "mirror remote" None [word "--git-dir"; At mirror; word "remote"; word "set-url"; word "origin"; Given source] in
      do! _ := git "mirror fetch" None
        [word "--git-dir"; At mirror; word "fetch"; word "--prune"; word "--no-tags"; word "origin"; word "+refs/heads/*:refs/heads/*"] in
      ok mirror
  end.

Definition commit_of (revision : str) : str := revision ++ lit "^{commit}".

Definition resolve_commit (mirror : Path) (git_ref : str) : Op str :=
  git_text "resolve Git ref" None
    [word "--git-dir"; At mirror; word "rev-parse"; word "--verify"; Given (commit_of (heads git_ref))].

Definition checkout_workspace_at (id : Uuid) (mirror workspace : Path) (commit source : str) : Op WorkspaceCheckout :=
  do! _ := git "workspace clone" None
    [word "clone"; word "--no-hardlinks"; word "--reference-if-able"; At mirror; word "--no-checkout"; At mirror; At workspace] in
  do! _ := ensure_owned_workspace (workspaces rt) workspace in
  do! _ := git "workspace checkout" (Some workspace) [word "checkout"; word "--detach"; Printed commit] in
  let branch := lit "codex-runs/" ++ show_uuid id in
  do! _ := git "workspace branch" (Some workspace) [word "switch"; word "-c"; Given branch] in
  do! _ := git "workspace remote" (Some workspace) [word "remote"; word "set-url"; word "origin"; Given source] in
  ok (mkCheckout id commit branch workspace).

(** [provision]: [source] and [git_ref] have been validated. *)
Definition provision (project id : Uuid) (source git_ref : str) : Op WorkspaceCheckout :=
  do! _ := acquire_project_lock project in
  do! mirror := ensure_mirror project id source in
  do! commit := resolve_commit mirror git_ref in
  let workspace := workspace_path id in
  do! _ := reject_existing_workspace workspace in
  do result := checkout_workspace_at id mirror workspace commit source in
  match result with
  | Ok _ => Ret result
  | Err _ => do! _ := remove_internal_dir (workspaces rt) workspace "failed workspace cleanup" in Ret result
  end.

(** ** Changes *)

Definition STATUS_ARGS : list Arg := [word "status"; word "--porcelain=v1"; word "-z"; word "--untracked-files=all"].

Definition changed_paths (workspace : Path) : Op (list FileChange) :=
  do! o := git_output "read workspace changes" (Some workspace) STATUS_ARGS [0%Z] in
  Ret (parse_porcelain (stdout o)).

Definition staged_paths (workspace : Path) : Op (list str) :=
  do! o := git_output "read staged paths" (Some workspace) [word "diff"; word "--cached"; word "--name-only"; word "-z"; word "--"] [0%Z] in
  Ret (nul_strings (stdout o)).

Definition subset_of (a b : list str) : bool := forallb (fun x => existsb (seqb x) b) a.

Definition require_exact_changes (workspace : Path) (paths : list str) : Op (list FileChange) :=
  do! _ := check (negb (is_empty paths)) NoChanges in
  do! _ := Ret (try_fold (fun _ path => validate_relative_path path) tt paths) in
  do! changes := changed_paths workspace in
  do! _ := check (subset_of paths (map change_path changes))
             (GitConflict (lit "selection contains paths that are not exact workspace changes")) in
  ok (List.filter (fun c => existsb (seqb (change_path c)) paths) changes).

Definition status (id : Uuid) : Op WorkspaceStatus :=
  in_workspace id (fun workspace =>
    do! o := git_output "workspace status" (Some workspace) STATUS_ARGS [0%Z] in
    do! changes := Ret (parse_porcelain (stdout o)) in
    do! numstat := git_output "workspace diff" (Some workspace)
      [word "diff"; word "--numstat"; word "-z"; word "HEAD"; word "--"] [0%Z] in
    do! changes := Ret (apply_numstat changes (stdout numstat)) in
    do! changes := for_each (fun done_ c =>
      do! size := safe_file_size workspace (change_path c) in
      ok (done_ ++ [mkChange (change_path c) (change_status c) (additions c) (deletions c) (change_binary c) size
                      (match size with Some n => (LARGE_FILE_BYTES <? n)%N | None => false end)])) [] changes in
    do! branch := git_text "workspace branch" (Some workspace) [word "branch"; word "--show-current"] in
    do! head := git_text "workspace head" (Some workspace) [word "rev-parse"; word "HEAD"] in
    ok (mkStatus branch head changes)).

Definition commit_selected (id : Uuid) (selected : list str) (message : str) (author : CommitAuthor) : Op str :=
  do! _ := Ret (validate_commit_input selected message author) in
  in_workspace id (fun workspace =>
    do! o := git_output "read workspace changes" (Some workspace) STATUS_ARGS [0%Z] in
    do! available := Ret (parse_porcelain (stdout o)) in
    do! _ := check (subset_of selected (map change_path available))
               (GitConflict (lit "selection contains paths that are not exact workspace changes")) in
    do! before := staged_paths workspace in
    do! _ := check (subset_of before selected) (GitConflict (lit "workspace contains staged paths outside the selection")) in
    do! _ := git "stage selected files" (Some workspace) ([word "add"; word "--"] ++ map Given selected) in
    do! staged := staged_paths workspace in
    do! _ := check (negb (is_empty staged)) NoChanges in
    do! _ := check (subset_of staged selected) (GitConflict (lit "staged paths changed while preparing the commit")) in
    do! _ := git "commit selected files" (Some workspace)
      [word "-c"; Given (lit "user.name=" ++ author_name author); word "-c"; Given (lit "user.email=" ++ author_email author);
       word "commit"; word "--no-gpg-sign"; word "-m"; Given message] in
    git_text "read commit" (Some workspace) [word "rev-parse"; word "HEAD"]).

(** [dedup] *)
Fixpoint dedup (l : list str) : list str :=
  match l with
  | x :: (y :: _) as rest => if seqb x y then dedup rest else x :: dedup rest
  | _ => l
  end.

Definition list_files (id : Uuid) : Op (list str) :=
  in_workspace id (fun workspace =>
    do! o := git_output "list workspace files" (Some workspace)
      [word "ls-files"; word "-z"; word "--cached"; word "--others"; word "--exclude-standard"; word "--"] [0%Z] in
    do! files := Ret (nul_strings (stdout o)) in
    ok (take (N.to_nat MAX_WORKSPACE_FILES) (dedup (sort_by str_leb files)))).

Definition stage_paths (id : Uuid) (paths : list str) : Op unit :=
  in_workspace id (fun workspace =>
    do! _ := require_exact_changes workspace paths in
    git "stage workspace paths" (Some workspace) ([word "add"; word "--"] ++ map Given paths)).

Definition stage_all (id : Uuid) : Op unit :=
  in_workspace id (fun workspace =>
    do! changes := changed_paths workspace in
    do! _ := check (negb (is_empty changes)) NoChanges in
    git "stage all workspace paths" (Some workspace) [word "add"; word "--all"; word "--"]).

Definition unstage_paths (id : Uuid) (paths : list str) : Op unit :=
  in_workspace id (fun workspace =>
    do! _ := require_exact_changes workspace paths in
    do! staged := staged_paths workspace in
    do! _ := check (subset_of paths staged) (GitConflict (lit "selection contains paths that are not staged")) in
    git "unstage workspace paths" (Some workspace) ([word "restore"; word "--staged"; word "--"] ++ map Given paths)).

Definition is_untracked (c : FileChange) : bool := seqb (change_status c) (lit "??").

Definition revert_paths (id : Uuid) (paths : list str) : Op unit :=
  in_workspace id (fun workspace =>
    do! changes := require_exact_changes workspace paths in
    let untracked := map change_path (List.filter is_untracked changes) in
    let tracked := map change_path (List.filter (fun c => negb (is_untracked c)) changes) in
    do! _ := if is_empty tracked then ok tt
             else git "revert tracked workspace paths" (Some workspace)
                    ([word "restore"; word "--staged"; word "--worktree"; word "--"] ++ map Given tracked) in
    if is_empty untracked then ok tt
    else git "remove untracked workspace paths" (Some workspace) ([word "clean"; word "-f"; word "--"] ++ map Given untracked)).

Definition revert_all (id : Uuid) : Op unit :=
  in_workspace id (fun workspace =>
    do! changes := changed_paths workspace in
    do! _ := check (negb (is_empty changes)) NoChanges in
    do! _ := git "revert tracked workspace changes" (Some workspace) [word "reset"; word "--hard"; word "HEAD"] in
    git "remove all untracked workspace paths" (Some workspace) [word "clean"; word "-fd"; word "--"]).

(** ** Files *)

Definition read_file (id : Uuid) (relative : str) : Op WorkspaceFileContent :=
  do! _ := Ret (validate_relative_path relative) in
  in_workspace id (fun workspace =>
    let path := join_path workspace relative in
    do! m := io "inspect workspace file" (SymlinkMetadata path) in
    do! _ := check (negb (meta_symlink m || negb (meta_file m))) (UnsafePath (lit "workspace path is not a regular file")) in
    do! canonical := io "resolve workspace file" (Canonicalize path) in
    do! _ := check (path_starts_with canonical workspace) (UnsafePath (lit "workspace file escaped through a symlink")) in
    let truncated := (MAX_FILE_READ_BYTES <? meta_len m)%N in
    do! _ := io "open workspace file" (OpenFile canonical) in
    do! bytes := io "read workspace file" (ReadOpened canonical MAX_FILE_READ_BYTES) in
    match from_utf8 bytes with
    | Ok content => ok (mkContent content truncated)
    | Err _ => fail (GitConflict (lit "workspace file is not UTF-8 text"))
    end).

Definition read_image_asset (id : Uuid) (relative : str) : Op WorkspaceImageAsset :=
  do! _ := Ret (validate_relative_path relative) in
  do! media_type := Ret (image_media_type relative) in
  in_workspace id (fun workspace =>
    let path := join_path workspace relative in
    do! m := io "inspect workspace image" (SymlinkMetadata path) in
    do! _ := check (negb (meta_symlink m || negb (meta_file m))) (UnsafePath (lit "workspace image is not a regular file")) in
    do! _ := check (meta_len m <=? MAX_IMAGE_ASSET_BYTES)%N ImageTooLarge in
    do! canonical := io "resolve workspace image" (Canonicalize path) in
    do! _ := check (path_starts_with canonical workspace) (UnsafePath (lit "workspace image escaped through a symlink")) in
    do! _ := io "open workspace image" (OpenFile canonical) in
    do! bytes := io "read workspace image" (ReadOpened canonical (MAX_IMAGE_ASSET_BYTES + 1)) in
    do! _ := check (blen bytes <=? MAX_IMAGE_ASSET_BYTES)%N ImageTooLarge in
    do! _ := Ret (validate_image_bytes media_type bytes) in
    ok (mkImage bytes media_type)).

Definition NULL_DEVICE : Arg := word "/dev/null".

(** At most [MAX_DIFF_BYTES] of what git printed, and whether it was more. *)
Definition bounded_diff (o : Output) : str * bool :=
  (from_utf8_lossy (take (N.to_nat MAX_DIFF_BYTES) (stdout o)), (MAX_DIFF_BYTES <? blen (stdout o))%N).

Definition diffs (id : Uuid) : Op (list WorkspaceFileDiff) :=
  in_workspace id (fun workspace =>
    do! changes := changed_paths workspace in
    for_each (fun done_ c =>
      do! o := if is_untracked c then
                 git_output "read untracked workspace diff" (Some workspace)
                   [word "diff"; word "--no-index"; word "--no-ext-diff"; word "--unified=3"; word "--"; NULL_DEVICE; Given (change_path c)]
                   [0; 1]%Z
               else
                 git_output "read workspace diff" (Some workspace)
                   [word "diff"; word "--no-ext-diff"; word "--unified=3"; word "HEAD"; word "--"; Given (change_path c)] [0%Z] in
      let '(diff, truncated) := bounded_diff o in
      ok (done_ ++ [mkFileDiff (change_path c) diff (change_binary c) truncated])) [] changes).

(** ** Branches *)

(** [fields.chunks(2)] *)
Fixpoint branch_pairs (fields : list str) : result (list BranchInfo) GitRuntimeError :=
  match fields with
  | [] => Ok []
  | name :: time :: rest => let? more := branch_pairs rest in Ok (mkBranch name (default 0%Z (parse_i64 time)) :: more)
  | [_] => Err (GitFailed (lit "list workspace branches") (lit "Git returned malformed branch metadata"))
  end.

Definition list_branches (id : Uuid) : Op (list BranchInfo) :=
  in_workspace id (fun workspace =>
    do! o := git_output "list workspace branches" (Some workspace)
      [word "for-each-ref"; word "--sort=-committerdate"; word "--format=%(refname:short)%00%(committerdate:unix)%00"; word "refs/heads"]
      [0%Z] in
    Ret (branch_pairs (trimmed_fields (stdout o)))).

(** The preamble of operations that want a clean workspace. *)
Definition require_clean (workspace : Path) (message : string) : Op unit :=
  do! changes := changed_paths workspace in
  check (is_empty changes) (GitConflict (lit message)).

Definition checkout_branch (id : Uuid) (name : str) : Op unit :=
  do! branch := Ret (validate_ref name) in
  in_workspace id (fun workspace =>
    do! _ := require_clean workspace "workspace has uncommitted changes" in
    git "checkout workspace branch" (Some workspace) [word "switch"; Given branch]).

Definition create_branch (id : Uuid) (name : str) : Op unit :=
  do! branch := Ret (validate_ref name) in
  in_workspace id (fun workspace =>
    do! _ := require_clean workspace "workspace has uncommitted changes" in
    git "create workspace branch" (Some workspace) [word "switch"; word "-c"; Given branch]).

Definition show_ref (operation : string) (workspace : Path) (branch : str) : Op bool :=
  do! o := git_output operation (Some workspace) [word "show-ref"; word "--verify"; word "--quiet"; Given (heads branch)] [0; 1]%Z in
  ok (success o).

Definition switch_or_create_branch (id : Uuid) (name : str) : Op unit :=
  do! branch := Ret (validate_ref name) in
  in_workspace id (fun workspace =>
    do! _ := require_clean workspace "workspace has uncommitted changes" in
    do! exists_ := show_ref "inspect workspace branch" workspace branch in
    git "prepare workspace branch" (Some workspace)
      (if exists_ then [word "switch"; Given branch] else [word "switch"; word "-c"; Given branch])).

(** The loop over the suffixes. *)
Fixpoint unused_name (workspace : Path) (requested final_name : str) (suffixes : list nat) : Op str :=
  match suffixes with
  | [] => ok final_name
  | suffix :: rest =>
      do! exists_ := show_ref "inspect renamed workspace branch" workspace final_name in
      if negb exists_ then ok final_name
      else
        let final_name := requested ++ [dash] ++ show_nat (suffix + 1) in
        do! _ := Ret (validate_ref final_name) in
        if suffix =? 999 then fail (GitConflict (lit "could not allocate a unique branch name"))
        else unused_name workspace requested final_name rest
  end.

Definition rename_branch (id : Uuid) (name : str) : Op str :=
  do! requested := Ret (validate_ref name) in
  in_workspace id (fun workspace =>
    do! current := git_text "read current workspace branch" (Some workspace) [word "branch"; word "--show-current"] in
    do! _ := check (negb (seqb current requested)) (GitConflict (lit "branch name is unchanged")) in
    do! final_name := unused_name workspace requested requested (seq 1 999) in
    do! _ := git "rename workspace branch" (Some workspace) [word "branch"; word "-m"; Given final_name] in
    ok final_name).

Definition upstream_of (fields : list str) : str * option str := (default (lit "origin") (head fields), fields !! 1).

Definition rename_upstream_branch (id : Uuid) (old_name new_name : str) : Op unit :=
  do! old_branch := Ret (validate_ref old_name) in
  do! new_branch := Ret (validate_ref new_name) in
  do! _ := check (negb (seqb old_branch new_branch)) (GitConflict (lit "branch name is unchanged")) in
  in_workspace id (fun workspace =>
    do! current := git_text "read current workspace branch" (Some workspace) [word "branch"; word "--show-current"] in
    do! _ := check (seqb current new_branch)
               (GitConflict (lit "local workspace branch changed before its upstream was renamed")) in
    do! o := git_output "read workspace upstream remote" (Some workspace)
      [word "for-each-ref"; word "--format=%(upstream:remotename)%00%(upstream:remoteref)"; Given (heads new_branch)] [0%Z] in
    let '(remote, old_remote_ref) := upstream_of (trimmed_fields (stdout o)) in
    do! found := git_output "inspect renamed remote branch" (Some workspace)
      [word "ls-remote"; word "--exit-code"; word "--heads"; Printed remote; Given new_branch] [0; 2]%Z in
    do! _ := check (negb (success found)) (GitConflict (lit "remote branch already exists")) in
    do! _ := git "publish renamed remote branch" (Some workspace)
      [word "push"; Printed remote; Given (new_branch ++ [colon] ++ new_branch)] in
    do! _ := if bool_decide (old_remote_ref = Some (heads old_branch))
             then git "delete previous remote branch" (Some workspace) [word "push"; Printed remote; Given ([colon] ++ old_branch)]
             else ok tt in
    git "set renamed branch upstream" (Some workspace)
      [word "branch"; word "--set-upstream-to"; Printed (remote ++ [slash] ++ new_branch); Given new_branch]).

(** ** Commits *)

Definition malformed_paths (message : string) : GitRuntimeError := GitFailed (lit "list commit diff paths") (lit message).

Definition starts_rename (status : str) : bool := starts_with [82%N] status || starts_with [67%N] status.

(** The [while] loop over the fields of [diff-tree]. *)
Fixpoint commit_paths (fields : list str) (paths : list (str * str)) : result (list (str * str)) GitRuntimeError :=
  match fields with
  | [] => Ok paths
  | [_] => Err (malformed_paths "Git returned malformed commit paths")
  | status :: first_path :: rest =>
      let next path rest_paths :=
        let? _ := validate_relative_path path in
        let paths := paths ++ [(status, path)] in
        if (MAX_WORKSPACE_FILES <=? N.of_nat (length paths))%N then Ok paths else rest_paths paths in
      if starts_rename status then
        match rest with
        | [] => Err (malformed_paths "Git returned malformed renamed commit paths")
        | next_path :: rest => next next_path (commit_paths rest)
        end
      else next first_path (commit_paths rest)
  end.

Definition commit_diffs (id : Uuid) (sha : str) : Op (list CommitDiff) :=
  do! sha := Ret (validate_commit_sha sha) in
  in_workspace id (fun workspace =>
    do! commit := git_text "resolve commit diff" (Some workspace) [word "rev-parse"; word "--verify"; Given (commit_of sha)] in
    do! names := git_output "list commit diff paths" (Some workspace)
      [word "diff-tree"; word "--root"; word "--no-commit-id"; word "--name-status"; word "--find-renames"; word "-r"; word "-z";
       Printed commit; word "--"] [0%Z] in
    do! paths := Ret (commit_paths (map from_utf8_lossy (nul_records (stdout names))) []) in
    for_each (fun done_ '(status, path) =>
      do! o := git_output "read commit file diff" (Some workspace)
        [word "show"; word "--format="; word "--no-ext-diff"; word "--find-renames"; word "--unified=3"; Printed commit; word "--";
         Given path] [0%Z] in
      let '(diff, truncated) := bounded_diff o in
      ok (done_ ++ [mkCommitDiff path (match status with c :: _ => [c] | [] => lit "M" end)
                      (if truncated then diff ++ [nl] ++ lit "[diff truncated]" ++ [nl] else diff)
                      (contains (lit "GIT binary patch") diff || contains (lit "Binary files ") diff)])) [] paths).

Definition git_log_entries (workspace : Path) (revision : string) (limit : nat) : Op (list GitLogEntry) :=
  do! o := git_output "read workspace log" (Some workspace)
    [word "log"; word "-z"; word "--format=%H%x00%s%x00%an%x00%at"; Lit (lit "--max-count=" ++ show_nat limit); word revision; word "--"]
    [0%Z] in
  let fields := trimmed_fields (stdout o) in
  if negb (length fields mod 4 =? 0) then fail (GitFailed (lit "read workspace log") (lit "Git returned malformed log metadata"))
  else ok ((fix chunks (fields : list str) : list GitLogEntry :=
              match fields with
              | sha :: summary :: author :: time :: rest => mkLogEntry sha summary author (default 0%Z (parse_i64 time)) :: chunks rest
              | _ => []
              end) fields).

(** [split_whitespace] *)
Fixpoint split_whitespace_from (s piece : str) : list str :=
  match s with
  | [] => if seqb piece [] then [] else [rev piece]
  | c :: s =>
      if is_whitespace c then (if seqb piece [] then [] else [rev piece]) ++ split_whitespace_from s []
      else split_whitespace_from s (c :: piece)
  end.
Definition split_whitespace (s : str) : list str := split_whitespace_from s [].

Definition log (id : Uuid) (limit : nat) : Op GitLog :=
  in_workspace id (fun workspace =>
    let limit := Nat.max 1 (Nat.min limit 200) in
    do! entries := git_log_entries workspace "HEAD" limit in
    do! total := git_text "count workspace commits" (Some workspace) [word "rev-list"; word "--count"; word "HEAD"] in
    let total := default 0%N (parse_u64 total) in
    do! o := git_output "read workspace upstream" (Some workspace)
      [word "rev-parse"; word "--abbrev-ref"; word "--symbolic-full-name"; word "@{upstream}"] [0; 128]%Z in
    let upstream :=
      if success o then let value := trim (from_utf8_lossy (stdout o)) in if seqb value [] then None else Some value else None in
    match upstream with
    | None => ok (mkGitLog total entries 0 0 [] [] None)
    | Some _ =>
        do! counts := git_text "count workspace divergence" (Some workspace)
          [word "rev-list"; word "--left-right"; word "--count"; word "HEAD...@{upstream}"] in
        let values := map (fun v => default 0%N (parse_u64 v)) (split_whitespace counts) in
        do! ahead_entries := git_log_entries workspace "@{upstream}..HEAD" limit in
        do! behind_entries := git_log_entries workspace "HEAD..@{upstream}" limit in
        ok (mkGitLog total entries (default 0%N (values !! 0)) (default 0%N (values !! 1)) ahead_entries behind_entries upstream)
    end).

(** ** Between workspaces *)

Definition AGENTS_MD : str := lit "AGENTS.md".

Definition temporary_agents (workspace : Path) (id : Uuid) : Path := workspace ++ [lit ".AGENTS.md." ++ show_uuid id ++ lit ".tmp"].

(** Rename the temporary file, or remove it. *)
Definition publish (temporary target : Path) (operation : string) : Op unit :=
  do renamed := call (Rename temporary target) in
  match renamed with
  | Ok _ => ok tt
  | Err _ => do _ := call (RemoveFile temporary) in fail (GitIo (lit operation))
  end.

Definition copy_agents_md (source_id target_id : Uuid) : Op bool :=
  do _ := acquire_workspace_pair source_id target_id in
  do! source := require_workspace source_id in
  do! target := require_workspace target_id in
  let source_file := source ++ [AGENTS_MD] in
  let target_file := target ++ [AGENTS_MD] in
  do is_file := call (IsFile source_file) in
  if negb is_file then ok false
  else
    do exists_ := call (Exists target_file) in
    if exists_ then ok false
    else
      do! m := io "inspect parent AGENTS.md" (MetadataOf source_file) in
      do! _ := check (meta_len m <=? MAX_FILE_READ_BYTES)%N (GitConflict (lit "parent AGENTS.md exceeds the workspace file limit")) in
      do fresh := call FreshId in
      let temporary := temporary_agents target fresh in
      do! _ := io "copy parent AGENTS.md" (CopyFile source_file temporary) in
      do! _ := publish temporary target_file "publish copied AGENTS.md" in
      ok true.

Definition write_agents_md (id : Uuid) (content : str) : Op unit :=
  do! _ := check (N.of_nat (byte_len content) <=? MAX_FILE_READ_BYTES)%N (GitConflict (lit "AGENTS.md exceeds the workspace file limit")) in
  in_workspace id (fun workspace =>
    let target := workspace ++ [AGENTS_MD] in
    do m := call (SymlinkMetadata target) in
    do! _ := not_found_or "inspect workspace AGENTS.md" m (ok tt) (fun m =>
               check (negb (meta_symlink m || negb (meta_file m))) (UnsafePath (lit "AGENTS.md is not a regular workspace file"))) in
    do fresh := call FreshId in
    let temporary := temporary_agents workspace fresh in
    do! _ := io "write workspace AGENTS.md" (WriteFile temporary (encode content)) in
    publish temporary target "publish workspace AGENTS.md").

(** Lengths are far below the limit of [usize], so [saturating_add] adds. *)
Definition append_bounded_patch (target chunk : list N) : result (list N) GitRuntimeError :=
  if (MAX_APPLY_PATCH_BYTES <? blen target + blen chunk)%N then Err (GitConflict (lit "workspace patch exceeds the apply limit"))
  else Ok (target ++ chunk).

(** [u8::is_ascii_whitespace] *)
Definition is_ascii_whitespace (b : N) : bool := existsb (N.eqb b) [32; 9; 10; 12; 13]%N.

(** What is missing in [target] of the changes in [source]. *)
Definition workspace_patch (source : Path) : Op (list N) :=
  do! patch := for_each (fun patch args =>
    do! o := git_output "build workspace patch" (Some source) args [0%Z] in
    Ret (append_bounded_patch patch (stdout o))) []
    [[word "diff"; word "--binary"; word "--no-color"; word "--cached"; word "--"];
     [word "diff"; word "--binary"; word "--no-color"; word "--"]] in
  do! o := git_output "list untracked workspace paths" (Some source)
    [word "ls-files"; word "--others"; word "--exclude-standard"; word "-z"] [0%Z] in
  do! untracked := Ret (nul_strings (stdout o)) in
  for_each (fun patch path =>
    do! _ := Ret (validate_relative_path path) in
    do! o := git_output "build untracked workspace patch" (Some source)
      [word "diff"; word "--binary"; word "--no-color"; word "--no-index"; word "--"; NULL_DEVICE; Given path] [0; 1]%Z in
    Ret (append_bounded_patch patch (stdout o))) patch untracked.

Definition apply_workspace_changes (source_id target_id : Uuid) : Op unit :=
  do! _ := check (negb (source_id =? target_id)%N) (GitConflict (lit "source and target workspaces must differ")) in
  do _ := acquire_workspace_pair source_id target_id in
  do! source := require_workspace source_id in
  do! target := require_workspace target_id in
  do! _ := require_clean target "parent workspace has uncommitted changes" in
  do! patch := workspace_patch source in
  do! _ := check (negb (forallb is_ascii_whitespace patch)) NoChanges in
  do! _ := io "apply workspace patch"
    (SpawnGit target (NO_HOOKS ++ [word "apply"; word "--3way"; word "--whitespace=nowarn"; word "-"])) in
  do! _ := io "write workspace patch" (WriteInput patch) in
  do! o := io "apply workspace patch" WaitOutput in
  if success o then ok tt else fail (git_failure "apply workspace patch" o).

(** ** The remote *)

Definition remote (id : Uuid) : Op (option str) :=
  in_workspace id (fun workspace =>
    do! o := git_output "read workspace remote" (Some workspace) [word "remote"; word "get-url"; word "origin"] [0; 2]%Z in
    ok (if negb (success o) then None
        else let value := trim (from_utf8_lossy (stdout o)) in if seqb value [] then None else Some value)).

Definition pull_args : list Arg := [word "pull"; word "--ff-only"].
Definition push_args : list Arg := [word "push"; word "--set-upstream"; word "origin"; word "HEAD"].

Definition fetch (id : Uuid) : Op unit :=
  in_workspace id (fun workspace => git "fetch workspace remote" (Some workspace) [word "fetch"; word "--prune"; word "origin"]).

Definition pull (id : Uuid) : Op unit :=
  in_workspace id (fun workspace =>
    do! _ := require_clean workspace "workspace has uncommitted changes" in
    git "pull workspace remote" (Some workspace) pull_args).

Definition push (id : Uuid) : Op unit :=
  in_workspace id (fun workspace => git "push workspace remote" (Some workspace) push_args).

Definition sync (id : Uuid) : Op unit :=
  in_workspace id (fun workspace =>
    do! _ := require_clean workspace "workspace has uncommitted changes" in
    do! _ := git "pull workspace remote" (Some workspace) pull_args in
    git "push workspace remote" (Some workspace) push_args).
End operations.
