(* ===== verification/GitRuntimeFacts.v ===== *)
(** * What the git runtime does, whatever git and the file system answer *)

From S2P Require Import Prelude RustStr Utf8 RustPath GitSource GitRuntime.
Open Scope nat_scope.
#[local] Arguments lit _ : simpl never.
#[local] Opaque MAX_WORKSPACE_FILES MAX_FILE_READ_BYTES MAX_IMAGE_ASSET_BYTES MAX_DIFF_BYTES MAX_APPLY_PATCH_BYTES.

(** ** Executions *)

Inductive event := Called (X : Type) (c : GitCall X) (answer : X).
Arguments Called {X} _ _.

(** A program makes these calls, gets these answers, and returns this. *)
Fixpoint runs {A} (p : Prog A) (t : list event) (a : A) : Prop :=
  match p, t with
  | Ret b, [] => a = b
  | Vis c k, e :: t => ∃ x, e = Called c x ∧ runs (k x) t a
  | _, _ => False
  end.

Lemma runs_bind {A B} (p : Prog A) (k : A → Prog B) t b :
  runs (pbind p k) t b ↔ ∃ t1 t2 a, t = t1 ++ t2 ∧ runs p t1 a ∧ runs (k a) t2 b.
Proof.
  revert t. induction p as [a|X c next IH]; intros t; cbn [pbind runs].
  - split; [intros H; by exists [], t, a|]. intros ([|] & t2 & a' & -> & Ha & H); [by subst|done].
  - split.
    + destruct t as [|e t]; [done|]. intros (x & -> & (t1 & t2 & a & -> & H1 & H2)%IH). exists (Called c x :: t1), t2, a.
      split_and!; [done| |done]. by exists x.
    + intros ([|e t1] & t2 & a & -> & H1 & H2); [done|]. destruct H1 as (x & -> & H1). exists x. split; [done|].
      apply IH. by exists t1, t2, a.
Qed.

(** What holds of every call and of the result, with a state that follows the calls. *)
Section spec.
Context {S : Type} (step : S → ∀ X, GitCall X → S) (P : S → ∀ X, GitCall X → Prop).

Fixpoint spec {A} (s : S) (p : Prog A) (Q : S → A → Prop) : Prop :=
  match p with
  | Ret a => Q s a
  | Vis c k => P s _ c ∧ ∀ x, spec (step s _ c) (k x) Q
  end.

Lemma spec_bind {A B} s (p : Prog A) (k : A → Prog B) Q :
  spec s p (fun s a => spec s (k a) Q) → spec s (pbind p k) Q.
Proof. revert s. induction p as [a|X c next IH]; intros s; cbn; [done|]. intros [Hc Hk]. split; [done|]. intros x. by apply IH. Qed.

Lemma spec_mono {A} s (p : Prog A) (Q Q' : S → A → Prop) : (∀ s a, Q s a → Q' s a) → spec s p Q → spec s p Q'.
Proof. intros HQ. revert s. induction p as [a|X c next IH]; intros s; cbn; [auto|]. intros [Hc Hk]. split; [done|]. intros x. by apply IH. Qed.

(** The state after some events. *)
Fixpoint after (s : S) (t : list event) : S :=
  match t with
  | [] => s
  | Called c _ :: t => after (step s _ c) t
  end.

Definition event_ok (s : S) (e : event) : Prop := match e with Called c _ => P s _ c end.

Lemma spec_runs {A} s (p : Prog A) Q t a : spec s p Q → runs p t a →
  Q (after s t) a ∧ ∀ t1 e t2, t = t1 ++ e :: t2 → event_ok (after s t1) e.
Proof.
  revert s t. induction p as [b|X c k IH]; intros s [|e t]; cbn [spec runs]; try done.
  - intros HQ ->. split; [done|]. intros [] ? ? ?; done.
  - intros [Hc Hk] (x & -> & Hr). destruct (IH x _ t (Hk x) Hr) as [HQ HP]. split; [done|].
    intros [|e t1] e' t2; cbn; intros [= <- ->]; [done|]. by eapply HP.
Qed.

(** Operations: what holds if they succeed. *)
Definition ospec {A} (s : S) (p : Op A) (Q : S → A → Prop) : Prop :=
  spec s p (fun s r => match r with Ok a => Q s a | Err _ => True end).

Lemma ospec_obind {A B} s (p : Op A) (k : A → Op B) Q : ospec s p (fun s a => ospec s (k a) Q) → ospec s (obind p k) Q.
Proof. intros H. apply spec_bind. eapply spec_mono; [|exact H]. intros s' [a|e] Ha; [done|exact I]. Qed.

Lemma ospec_pbind {A B} s (p : Prog A) (k : A → Op B) Q : spec s p (fun s a => ospec s (k a) Q) → ospec s (pbind p k) Q.
Proof. apply spec_bind. Qed.

Lemma ospec_mono {A} s (p : Op A) (Q Q' : S → A → Prop) : ospec s p Q → (∀ s a, Q s a → Q' s a) → ospec s p Q'.
Proof. intros H HQ. eapply spec_mono; [|exact H]. intros s' [a|e]; [apply HQ|done]. Qed.

Lemma ospec_ret {A} s (r : result A GitRuntimeError) (Q : S → A → Prop) : (∀ a, r = Ok a → Q s a) → ospec s (Ret r) Q.
Proof. intros H. cbn. destruct r; [by apply H|done]. Qed.

Lemma ospec_ok {A} s (a : A) (Q : S → A → Prop) : Q s a → ospec s (ok a) Q.
Proof. done. Qed.

Lemma ospec_fail {A} s e (Q : S → A → Prop) : ospec s (fail e) Q.
Proof. done. Qed.

Lemma ospec_check s b e (Q : S → unit → Prop) : (b = true → Q s tt) → ospec s (check b e) Q.
Proof. intros H. unfold check. destruct b; [by apply H|done]. Qed.

Lemma spec_call {X} s (c : GitCall X) (Q : S → X → Prop) : P s _ c → (∀ x, Q (step s _ c) x) → spec s (call c) Q.
Proof. done. Qed.

Lemma ospec_io {A} s operation (c : GitCall (result A IoError)) (Q : S → A → Prop) :
  P s _ c → (∀ a, Q (step s _ c) a) → ospec s (io operation c) Q.
Proof. intros Hc HQ. apply ospec_pbind, spec_call; [done|]. intros [a|e]; cbn; [apply HQ|done]. Qed.
End spec.

(** ** The requests that a server gets *)

Inductive request :=
| RProvision (project id : Uuid) (source git_ref : str)
| RSetRoot (id : Uuid) (relative : option str)
| RListRoots (id : Uuid) (depth : nat)
| RStatus (id : Uuid)
| RCommit (id : Uuid) (paths : list str) (message : str) (author : CommitAuthor)
| RListFiles (id : Uuid)
| RReadFile (id : Uuid) (relative : str)
| RReadImage (id : Uuid) (relative : str)
| RDiffs (id : Uuid)
| RStage (id : Uuid) (paths : list str)
| RStageAll (id : Uuid)
| RUnstage (id : Uuid) (paths : list str)
| RRevert (id : Uuid) (paths : list str)
| RRevertAll (id : Uuid)
| RBranches (id : Uuid)
| RCheckout (id : Uuid) (name : str)
| RCreateBranch (id : Uuid) (name : str)
| RSwitchOrCreate (id : Uuid) (name : str)
| RRenameBranch (id : Uuid) (name : str)
| RRenameUpstream (id : Uuid) (old_name new_name : str)
| RCommitDiffs (id : Uuid) (sha : str)
| RCopyAgents (source target : Uuid)
| RWriteAgents (id : Uuid) (content : str)
| RApplyChanges (source target : Uuid)
| RLog (id : Uuid) (limit : nat)
| RRemote (id : Uuid)
| RFetch (id : Uuid)
| RPull (id : Uuid)
| RPush (id : Uuid)
| RSync (id : Uuid)
| RRemove (id : Uuid).

(** The workspaces that a request names. *)
Definition workspaces_of (r : request) : list Uuid :=
  match r with
  | RProvision _ id _ _ | RSetRoot id _ | RListRoots id _ | RStatus id | RCommit id _ _ _ | RListFiles id | RReadFile id _
  | RReadImage id _ | RDiffs id | RStage id _ | RStageAll id | RUnstage id _ | RRevert id _ | RRevertAll id | RBranches id
  | RCheckout id _ | RCreateBranch id _ | RSwitchOrCreate id _ | RRenameBranch id _ | RRenameUpstream id _ _
  | RCommitDiffs id _ | RWriteAgents id _ | RLog id _ | RRemote id | RFetch id | RPull id | RPush id | RSync id | RRemove id => [id]
  | RCopyAgents source target | RApplyChanges source target => [source; target]
  end.

Section requests.
Context (show_uuid : Uuid → str) (parse_uuid : str → option Uuid) (parse_url : str → option Url) (rt : GitRuntime).

Definition forget {A} (p : Op A) : Prog bool := pbind p (fun r => Ret (is_ok r)).

(** Whether a request succeeds; sources and refs are validated before a workspace is
    provisioned, as the orchestrator does. *)
Definition perform (r : request) : Prog bool :=
  match r with
  | RProvision project id source git_ref =>
      forget (do! source := Ret (validate_source show_uuid parse_uuid parse_url rt source) in
              do! git_ref := Ret (validate_ref git_ref) in
              provision show_uuid parse_uuid rt project id source git_ref)
  | RSetRoot id relative => forget (set_workspace_git_root show_uuid rt id relative)
  | RListRoots id depth => forget (list_git_roots show_uuid rt id depth)
  | RStatus id => forget (status show_uuid rt id)
  | RCommit id paths message author => forget (commit_selected show_uuid rt id paths message author)
  | RListFiles id => forget (list_files show_uuid rt id)
  | RReadFile id relative => forget (read_file show_uuid rt id relative)
  | RReadImage id relative => forget (read_image_asset show_uuid rt id relative)
  | RDiffs id => forget (diffs show_uuid rt id)
  | RStage id paths => forget (stage_paths show_uuid rt id paths)
  | RStageAll id => forget (stage_all show_uuid rt id)
  | RUnstage id paths => forget (unstage_paths show_uuid rt id paths)
  | RRevert id paths => forget (revert_paths show_uuid rt id paths)
  | RRevertAll id => forget (revert_all show_uuid rt id)
  | RBranches id => forget (list_branches show_uuid rt id)
  | RCheckout id name => forget (checkout_branch show_uuid rt id name)
  | RCreateBranch id name => forget (create_branch show_uuid rt id name)
  | RSwitchOrCreate id name => forget (switch_or_create_branch show_uuid rt id name)
  | RRenameBranch id name => forget (rename_branch show_uuid rt id name)
  | RRenameUpstream id old_name new_name => forget (rename_upstream_branch show_uuid rt id old_name new_name)
  | RCommitDiffs id sha => forget (commit_diffs show_uuid rt id sha)
  | RCopyAgents source target => forget (copy_agents_md show_uuid rt source target)
  | RWriteAgents id content => forget (write_agents_md show_uuid rt id content)
  | RApplyChanges source target => forget (apply_workspace_changes show_uuid rt source target)
  | RLog id limit => forget (log show_uuid rt id limit)
  | RRemote id => forget (remote show_uuid rt id)
  | RFetch id => forget (fetch show_uuid rt id)
  | RPull id => forget (pull show_uuid rt id)
  | RPush id => forget (push show_uuid rt id)
  | RSync id => forget (sync show_uuid rt id)
  | RRemove id => forget (remove_workspace show_uuid rt id)
  end.
End requests.

(** ** Arguments of git *)

(** The options that take the next word as their value. *)
Definition takes_value (sub : option str) (s : str) : bool :=
  let opt x := seqb s (lit x) in
  match sub with
  | None => opt "-c"%string || opt "--git-dir"%string
  | Some sub =>
      seqb sub (lit "commit") && opt "-m"%string || seqb sub (lit "switch") && opt "-c"%string ||
      seqb sub (lit "branch") && opt "--set-upstream-to"%string || seqb sub (lit "clone") && opt "--reference-if-able"%string
  end.

Definition plain_word (s : str) : bool := negb (starts_with [dash] s).

(** No word of a client is where git looks for options: it is the value of an option, or
    comes after [--], or does not start with a dash. *)
Fixpoint safe_args (sub : option str) (args : list Arg) : bool :=
  match args with
  | [] => true
  | a :: rest =>
      match a with
      | Lit s =>
          if seqb s [dash; dash] then true
          else if starts_with [dash] s then
            if takes_value sub s then match rest with [] => true | _ :: rest => safe_args sub rest end else safe_args sub rest
          else safe_args (match sub with None => Some s | _ => sub end) rest
      | Given s => plain_word s && safe_args sub rest
      | Printed _ | At _ => safe_args sub rest
      end
  end.


Lemma parse_source_plain parse_url policy source s : parse_source parse_url policy source = Ok s → plain_word s = true.
Proof.
  unfold parse_source. destruct (malformed_source (trim source)) eqn:E; [done|]. intros H.
  assert (s = trim source) as -> by (repeat case_match; by simplify_eq).
  unfold malformed_source in E. rewrite !orb_false_iff in E. destruct E as [[[_ E] _] _]. unfold plain_word. by rewrite E.
Qed.

Lemma parse_ref_plain name s : parse_ref name = Ok s → plain_word s = true ∧ s ≠ [].
Proof.
  unfold parse_ref. destruct (malformed_ref (trim name)) eqn:E; [done|]. intros [= <-].
  unfold malformed_ref in E. rewrite !orb_false_iff in E. destruct E as [[[[[[[[[E0 _] _] E] _] _] _] _] _] _].
  cbn [existsb] in E. rewrite !orb_false_iff in E. destruct E as [E _]. unfold plain_word. rewrite E. split; [done|].
  intros H. by rewrite H in E0.
Qed.

Lemma plain_app s t : plain_word s = true → s ≠ [] → plain_word (s ++ t) = true.
Proof. destruct s as [|c s]; [done|]. unfold plain_word, starts_with. cbn [strip_prefix app]. by destruct (dash =? c)%N. Qed.

Lemma commit_sha_plain value sha : validate_commit_sha value = Ok sha → plain_word (commit_of sha) = true.
Proof.
  unfold validate_commit_sha. case_match eqn:E; [done|]. intros [= <-]. apply orb_false_iff in E as [E1 E2].
  apply negb_false_iff in E1, E2. apply andb_true_iff in E1 as [E1 _]. destruct (trim value) as [|c s]; [done|].
  cbn [forallb] in E2. apply andb_true_iff in E2 as [E2 _]. unfold plain_word, commit_of.
  assert (to_ascii_lower c ≠ dash) as Hd.
  { unfold to_ascii_lower, is_hex_digit, is_ascii_digit, dash in *. intros Hc.
    rewrite !orb_true_iff, !andb_true_iff, !N.leb_le in E2. case_match eqn:E; [lia|]. subst c. lia. }
  unfold starts_with. cbn [to_ascii_lowercase map app strip_prefix]. by rewrite (proj2 (N.eqb_neq _ _)) by congruence.
Qed.

Lemma encode_length s : length (encode s) = byte_len s.
Proof. induction s as [|c s IH]; [done|]. rewrite encode_cons, length_app, IH, encode_char_length. done. Qed.

(** ** The discipline of every call *)

(** Locks of workspaces are taken in the order of their ids. *)
Definition lock_before (a b : LockName) : Prop :=
  match a, b with WorkspaceLock a, WorkspaceLock b => (a < b)%N | _, _ => False end.

Definition hold (held : list LockName) X (c : GitCall X) : list LockName :=
  match c with LockMutex name => held ++ [name] | _ => held end.

Section discipline.
Context (show_uuid : Uuid → str) (rt : GitRuntime).

(** The request names these workspaces, and they are different if [distinct]. *)
Context (ids : list Uuid) (distinct : Prop).

Definition inside (p : Path) : Prop := ∃ id, id ∈ ids ∧ workspace_path show_uuid rt id `prefix_of` p.
Definition mirror (p : Path) : Prop := parent_is p (mirrors rt) = true.

(** What a call may do, with the locks that are held. *)
Definition disciplined (held : list LockName) X (c : GitCall X) : Prop :=
  match c with
  | LockMutex name => distinct → Forall (fun h => lock_before h name) held
  | RunGit cwd args => safe_args None args = true ∧ ∀ d, cwd = Some d → inside d ∨ mirror d
  | SpawnGit d args => safe_args None args = true ∧ inside d
  | OpenFile p | RemoveFile p => inside p
  | ReadOpened p limit => inside p ∧ (limit <= MAX_IMAGE_ASSET_BYTES + 1)%N
  | WriteFile p bytes => inside p ∧ (blen bytes <= MAX_FILE_READ_BYTES)%N
  | WriteInput bytes => (blen bytes <= MAX_APPLY_PATCH_BYTES)%N
  | CopyFile a b => inside a ∧ inside b
  | Rename a b => inside a ∧ inside b ∨ mirror a ∧ mirror b
  | RemoveDirAll p => mirror p ∨ ∃ id, id ∈ ids ∧ p = workspace_path show_uuid rt id
  | CreateDirAll _ | SetMode _ _ => False
  | SetRoot id root => id ∈ ids ∧ ∀ p, root = Some p → workspace_path show_uuid rt id `prefix_of` p
  | _ => True
  end.

#[local] Abbreviation ospec held p Q := (ospec hold disciplined held p Q).
#[local] Abbreviation spec held p Q := (spec hold disciplined held p Q).

(** A part of an operation that takes no lock, and what holds if it succeeds. *)
Definition quiet {A} (p : Op A) (R : A → Prop) : Prop :=
  ∀ held, spec held p (fun held' r => held' = held ∧ match r with Ok a => R a | Err _ => True end).

Lemma ospec_quiet {A} held (p : Op A) (R : A → Prop) (Q : list LockName → A → Prop) :
  quiet p R → (∀ a, R a → Q held a) → ospec held p Q.
Proof. intros Hp HQ. eapply spec_mono; [|apply Hp]. intros s [a|e] [-> Ha]; [by apply HQ|done]. Qed.

(** The outcome of a part may be looked at even if it is an error. *)
Lemma quiet_attempt {A B} (p : Op A) (k : result A GitRuntimeError → Op B) R Q :
  quiet p R → (∀ r, quiet (k r) Q) → quiet (pbind p k) Q.
Proof. intros Hp Hk held. apply spec_bind. eapply spec_mono; [|apply Hp]. intros s r [-> _]. apply Hk. Qed.

Lemma quiet_obind {A B} (p : Op A) (k : A → Op B) R Q : quiet p R → (∀ a, R a → quiet (k a) Q) → quiet (obind p k) Q.
Proof. intros Hp Hk held. apply spec_bind. eapply spec_mono; [|apply Hp]. intros s [a|e] [-> Ha]; [by apply Hk|done]. Qed.

Lemma quiet_call {X A} (c : GitCall X) (k : X → Op A) R :
  (∀ held, disciplined held X c) → (∀ held, hold held X c = held) → (∀ x, quiet (k x) R) → quiet (pbind (call c) k) R.
Proof. intros Hc Hh Hk held. split; [done|]. intros x. rewrite Hh. apply Hk. Qed.

Lemma quiet_ret {A} (r : result A GitRuntimeError) (R : A → Prop) : (∀ a, r = Ok a → R a) → quiet (Ret r) R.
Proof. intros H held. split; [done|]. destruct r; [by apply H|done]. Qed.

Lemma quiet_ok {A} (a : A) (R : A → Prop) : R a → quiet (ok a) R.
Proof. intros H held. done. Qed.

Lemma quiet_fail {A} e (R : A → Prop) : quiet (fail e) R.
Proof. intros held. done. Qed.

Lemma quiet_check b e (R : unit → Prop) : (b = true → R tt) → quiet (check b e) R.
Proof. intros H held. unfold check. destruct b; (split; [done|]); [by apply H|done]. Qed.

Lemma quiet_io {A} operation (c : GitCall (result A IoError)) (R : A → Prop) :
  (∀ held, disciplined held _ c) → (∀ held, hold held _ c = held) → (∀ a, R a) → quiet (io operation c) R.
Proof. intros Hc Hh HR held. split; [done|]. intros [a|e]; rewrite Hh; cbn; auto. Qed.

Lemma quiet_for_each {A B} (f : A → B → Op A) (I : A → Prop) a l :
  I a → (∀ a x, x ∈ l → I a → quiet (f a x) I) → quiet (for_each f a l) I.
Proof.
  revert a. induction l as [|x l IH]; intros a Ha Hf; cbn [for_each]; [by apply quiet_ok|].
  eapply quiet_obind; [apply Hf; [by left|done]|]. intros a' Ha'. apply IH; [done|]. intros. apply Hf; [by right|done].
Qed.

(** Walks through an operation; what is left are the calls that need a reason. *)
Ltac walk :=
  repeat match goal with
    | |- forall _, _ => intro
    | |- quiet (ok _) _ => apply quiet_ok; try exact I
    | |- quiet (fail _) _ => apply quiet_fail
    | |- quiet (check _ _) _ => apply quiet_check; intros; try exact I
    | |- quiet (Ret _) _ => apply quiet_ret; intros; try exact I
    | |- quiet (io _ _) _ => apply quiet_io; [intros; cbn; try exact I|reflexivity|intros; try exact I]
    | |- quiet (pbind (call _) _) _ => apply quiet_call; [intros; cbn; try exact I|reflexivity|]
    | |- quiet (match ?x with _ => _ end) _ => destruct x eqn:?
    | |- quiet (let _ := _ in _) _ => cbv zeta
    end.

Lemma quiet_reject_symlink p op : quiet (reject_symlink p op) (fun _ => True).
Proof. unfold reject_symlink, not_found_or. walk. Qed.

Lemma quiet_ensure_owned parent p : quiet (ensure_owned_workspace parent p) (fun _ => True).
Proof.
  unfold ensure_owned_workspace. eapply quiet_obind; [apply quiet_reject_symlink|walk].
  eapply quiet_obind with (R := fun _ => True); walk.
Qed.

Lemma quiet_remove parent p op : (parent_is p parent = true → disciplined [] _ (RemoveDirAll p)) →
  quiet (remove_internal_dir parent p op) (fun _ => True).
Proof.
  intros Hp. unfold remove_internal_dir, not_found_or. walk.
  eapply quiet_obind with (R := fun _ => parent_is p parent = true); walk.
  - rewrite negb_true_iff, orb_false_iff, negb_false_iff in *. tauto.
  - by apply Hp.
Qed.

Lemma quiet_marker {A} p (k : bool → Op A) R : (∀ b, quiet (k b) R) → quiet (pbind (git_marker_is_safe p) k) R.
Proof. intros Hk held. split; [done|]. intros x. apply Hk. Qed.

(** *** Running git *)

Lemma quiet_git_output op cwd args accepted : safe_args None (NO_HOOKS ++ args) = true →
  (∀ d, cwd = Some d → inside d ∨ mirror d) → quiet (git_output op cwd args accepted) (fun _ => True).
Proof.
  intros Ha Hd. unfold git_output. eapply quiet_obind with (R := fun _ => True); [apply quiet_io; [done|done|done]|walk].
Qed.

Lemma quiet_git op cwd args : safe_args None (NO_HOOKS ++ args) = true →
  (∀ d, cwd = Some d → inside d ∨ mirror d) → quiet (git op cwd args) (fun _ => True).
Proof. intros Ha Hd. unfold git. eapply quiet_obind; [by apply quiet_git_output|walk]. Qed.

Lemma quiet_git_text op cwd args : safe_args None (NO_HOOKS ++ args) = true →
  (∀ d, cwd = Some d → inside d ∨ mirror d) → quiet (git_text op cwd args) (fun _ => True).
Proof. intros Ha Hd. unfold git_text. eapply quiet_obind; [by apply quiet_git_output|walk]. Qed.

(** *** Workspaces *)

Lemma prefix_trans (a b c : Path) : a `prefix_of` b → b `prefix_of` c → a `prefix_of` c.
Proof. intros H1 H2. by transitivity b. Qed.

Lemma quiet_require_base id : quiet (require_base_workspace show_uuid rt id) (fun p => p = workspace_path show_uuid rt id).
Proof.
  unfold require_base_workspace. eapply quiet_obind; [apply quiet_ensure_owned|walk].
  eapply quiet_obind with (R := fun _ => True); walk. done.
Qed.

Lemma quiet_require id : quiet (require_workspace show_uuid rt id) (fun p => workspace_path show_uuid rt id `prefix_of` p).
Proof.
  unfold require_workspace. eapply quiet_obind; [apply quiet_require_base|]. intros p ->. apply quiet_call; [done|done|].
  intros [selected|]; [|by apply quiet_ok]. destruct (path_starts_with selected _) eqn:E; [|apply quiet_fail].
  apply quiet_marker. intros b. eapply quiet_obind with (R := fun _ => True); walk. by apply bool_decide_eq_true in E.
Qed.

Lemma ospec_lock {A} held id (k : unit → Op A) Q : (distinct → Forall (fun h => lock_before h (WorkspaceLock id)) held) →
  ospec (held ++ [WorkspaceLock id]) (k tt) Q → ospec held (pbind (acquire_workspace_lock show_uuid rt id) k) Q.
Proof. intros Hl Hk. split; [done|]. intros []. exact Hk. Qed.

Lemma ospec_in_workspace {A} id (k : Path → Op A) (R : A → Prop) : id ∈ ids →
  (∀ p, inside p → workspace_path show_uuid rt id `prefix_of` p → quiet (k p) R) →
  ospec [] (in_workspace show_uuid rt id k) (fun _ a => R a).
Proof.
  intros Hid Hk. unfold in_workspace. apply ospec_lock; [constructor|]. apply ospec_obind, (ospec_quiet _ _ _ _ (quiet_require id)). intros p Hp.
  apply (ospec_quiet _ _ _ _ (Hk p (ex_intro _ id (conj Hid Hp)) Hp)). auto.
Qed.

(** *** Operations *)

Ltac cwd_ok :=
  let d := fresh in let H := fresh in
  intros d H; first [discriminate H | injection H as <-; left; assumption | injection H as <-; right; assumption].

(** The goals that remain are arguments which come from a client. *)
Ltac steps :=
  repeat first
    [ progress walk
    | match goal with
      | |- quiet (obind (git_output _ _ _ _) _) _ =>
          eapply quiet_obind; [apply quiet_git_output; [try (vm_compute; reflexivity)|cwd_ok]|intros ? _]
      | |- quiet (obind (git _ _ _) _) _ => eapply quiet_obind; [apply quiet_git; [try (vm_compute; reflexivity)|cwd_ok]|intros ? _]
      | |- quiet (obind (git_text _ _ _) _) _ =>
          eapply quiet_obind; [apply quiet_git_text; [try (vm_compute; reflexivity)|cwd_ok]|intros ? _]
      | |- quiet (git_output _ _ _ _) _ => apply quiet_git_output; [try (vm_compute; reflexivity)|cwd_ok]
      | |- quiet (git _ _ _) _ => apply quiet_git; [try (vm_compute; reflexivity)|cwd_ok]
      | |- quiet (git_text _ _ _) _ => apply quiet_git_text; [try (vm_compute; reflexivity)|cwd_ok]
      | |- quiet (obind (Ret ?r) _) _ => eapply quiet_obind with (R := fun a => r = Ok a); [apply quiet_ret; let H := fresh in intros ? H; exact H|intros]
      | |- quiet (obind (check ?b _) _) _ => eapply quiet_obind with (R := fun _ => b = true); [apply quiet_check; let H := fresh in intros H; exact H|intros]
      | |- quiet (obind _ _) _ => eapply quiet_obind with (R := fun _ => True); [|intros]
      end ].

Lemma quiet_changed_paths p : inside p → quiet (changed_paths p) (fun _ => True).
Proof. intros Hp. unfold changed_paths. steps. Qed.

Lemma quiet_staged_paths p : inside p → quiet (staged_paths p) (fun _ => True).
Proof. intros Hp. unfold staged_paths. steps. Qed.

Lemma quiet_exact_changes p paths : inside p → quiet (require_exact_changes p paths) (fun _ => True).
Proof. intros Hp. unfold require_exact_changes. steps. by apply quiet_changed_paths. Qed.

Lemma quiet_clean p message : inside p → quiet (require_clean p message) (fun _ => True).
Proof. intros Hp. unfold require_clean. steps. by apply quiet_changed_paths. Qed.

Lemma quiet_file_size p relative : quiet (safe_file_size p relative) (fun _ => True).
Proof. unfold safe_file_size. steps. Qed.

Lemma quiet_log_entries p revision limit : inside p → In revision ["HEAD"; "@{upstream}..HEAD"; "HEAD..@{upstream}"]%string →
  quiet (git_log_entries p revision limit) (fun _ => True).
Proof.
  intros Hp Hr. unfold git_log_entries. steps. generalize (show_nat limit) as n. intros n.
  destruct Hr as [<-|[<-|[<-|[]]]]; vm_compute; reflexivity.
Qed.

Lemma quiet_show_ref op p branch : inside p → quiet (show_ref op p branch) (fun _ => True).
Proof. intros Hp. unfold show_ref, heads. steps. Qed.

Lemma ospec_status id : id ∈ ids → ospec [] (status show_uuid rt id) (fun _ _ => True).
Proof.
  intros Hid. apply ospec_in_workspace; [done|]. intros p Hp _. steps.
  apply quiet_for_each; [done|]. intros. steps. apply quiet_file_size.
Qed.

Lemma ospec_commit id paths message author : id ∈ ids →
  ospec [] (commit_selected show_uuid rt id paths message author) (fun _ _ => True).
Proof.
  intros Hid. apply ospec_obind, ospec_ret. intros [] _. apply ospec_in_workspace; [done|]. intros p Hp _. steps.
  all: by apply quiet_staged_paths.
Qed.

Lemma ospec_list_files id : id ∈ ids → ospec [] (list_files show_uuid rt id) (fun _ _ => True).
Proof. intros Hid. apply ospec_in_workspace; [done|]. intros p Hp _. steps. Qed.

(** The real path of a file is inside as soon as the check says so. *)
Lemma checked_inside id p canonical : id ∈ ids → workspace_path show_uuid rt id `prefix_of` p →
  path_starts_with canonical p = true → inside canonical.
Proof. intros Hid Hp Hc%bool_decide_eq_true. exists id. split; [done|by eapply prefix_trans]. Qed.

Lemma ospec_read_file id relative : id ∈ ids → ospec [] (read_file show_uuid rt id relative) (fun _ _ => True).
Proof.
  intros Hid. apply ospec_obind, ospec_ret. intros [] _. apply ospec_in_workspace; [done|]. intros p Hp Hw. steps.
  - by eapply checked_inside.
  - split; [by eapply checked_inside|]. by vm_compute.
Qed.

Lemma ospec_read_image id relative : id ∈ ids → ospec [] (read_image_asset show_uuid rt id relative) (fun _ _ => True).
Proof.
  intros Hid. apply ospec_obind, ospec_ret. intros [] _. apply ospec_obind, ospec_ret. intros media _.
  apply ospec_in_workspace; [done|]. intros p Hp Hw. steps.
  - by eapply checked_inside.
  - split; [by eapply checked_inside|done].
Qed.

Lemma ospec_diffs id : id ∈ ids → ospec [] (diffs show_uuid rt id) (fun _ _ => True).
Proof.
  intros Hid. apply ospec_in_workspace; [done|]. intros p Hp _. steps; [by apply quiet_changed_paths|].
  apply quiet_for_each; [done|]. intros. steps.
Qed.

Lemma ospec_stage id paths : id ∈ ids → ospec [] (stage_paths show_uuid rt id paths) (fun _ _ => True).
Proof. intros Hid. apply ospec_in_workspace; [done|]. intros p Hp _. steps. by apply quiet_exact_changes. Qed.

Lemma ospec_stage_all id : id ∈ ids → ospec [] (stage_all show_uuid rt id) (fun _ _ => True).
Proof. intros Hid. apply ospec_in_workspace; [done|]. intros p Hp _. steps. by apply quiet_changed_paths. Qed.

Lemma ospec_unstage id paths : id ∈ ids → ospec [] (unstage_paths show_uuid rt id paths) (fun _ _ => True).
Proof.
  intros Hid. apply ospec_in_workspace; [done|]. intros p Hp _. steps; [by apply quiet_exact_changes|by apply quiet_staged_paths].
Qed.

Lemma ospec_revert id paths : id ∈ ids → ospec [] (revert_paths show_uuid rt id paths) (fun _ _ => True).
Proof. intros Hid. apply ospec_in_workspace; [done|]. intros p Hp _. steps. by apply quiet_exact_changes. Qed.

Lemma ospec_revert_all id : id ∈ ids → ospec [] (revert_all show_uuid rt id) (fun _ _ => True).
Proof. intros Hid. apply ospec_in_workspace; [done|]. intros p Hp _. steps. by apply quiet_changed_paths. Qed.

Lemma ospec_branches id : id ∈ ids → ospec [] (list_branches show_uuid rt id) (fun _ _ => True).
Proof. intros Hid. apply ospec_in_workspace; [done|]. intros p Hp _. steps. Qed.

(** The word of a client stands where it must be plain. *)
Ltac given_ok H :=
  cbv beta in H;
  match type of H with plain_word ?x = true =>
    first [ transitivity (plain_word x && true)%bool; [vm_compute; reflexivity|rewrite H; reflexivity]
          | vm_compute; reflexivity ]
  end.

Lemma ospec_checkout id name : id ∈ ids → ospec [] (checkout_branch show_uuid rt id name) (fun _ _ => True).
Proof.
  intros Hid. apply ospec_obind, ospec_ret. intros branch [Hb _]%parse_ref_plain. apply ospec_in_workspace; [done|].
  intros p Hp _. steps; [by apply quiet_clean|]. given_ok Hb.
Qed.

Lemma ospec_create id name : id ∈ ids → ospec [] (create_branch show_uuid rt id name) (fun _ _ => True).
Proof.
  intros Hid. apply ospec_obind, ospec_ret. intros branch _. apply ospec_in_workspace; [done|].
  intros p Hp _. steps. by apply quiet_clean.
Qed.

Lemma ospec_switch id name : id ∈ ids → ospec [] (switch_or_create_branch show_uuid rt id name) (fun _ _ => True).
Proof.
  intros Hid. apply ospec_obind, ospec_ret. intros branch [Hb _]%parse_ref_plain. apply ospec_in_workspace; [done|].
  intros p Hp _. steps; [by apply quiet_clean|by apply quiet_show_ref|]. case_match; given_ok Hb.
Qed.

Lemma quiet_unused_name p requested final suffixes : inside p → plain_word requested = true ∧ requested ≠ [] → plain_word final = true →
  quiet (unused_name p requested final suffixes) (fun name => plain_word name = true).
Proof.
  intros Hp [Hr Hne]. revert final. induction suffixes as [|n suffixes IH]; intros final Hf; cbn [unused_name]; [by apply quiet_ok|].
  eapply quiet_obind; [by apply quiet_show_ref|]. intros b _. walk; [done|]. eapply quiet_obind with (R := fun _ => True); [walk|].
  intros. walk. apply IH. by apply plain_app.
Qed.

Lemma ospec_rename id name : id ∈ ids → ospec [] (rename_branch show_uuid rt id name) (fun _ _ => True).
Proof.
  intros Hid. apply ospec_obind, ospec_ret. intros branch Hb%parse_ref_plain. apply ospec_in_workspace; [done|].
  intros p Hp _. unfold rename_branch. do 2 (eapply quiet_obind with (R := fun _ => True); [steps|intros]).
  eapply quiet_obind; [apply quiet_unused_name; [done|done|apply Hb]|]. intros final Hf. steps. given_ok Hf.
Qed.

Lemma ospec_rename_upstream id old_name new_name : id ∈ ids →
  ospec [] (rename_upstream_branch show_uuid rt id old_name new_name) (fun _ _ => True).
Proof.
  intros Hid. apply ospec_obind, ospec_ret. intros old _. apply ospec_obind, ospec_ret. intros new [Hn Hne]%parse_ref_plain.
  apply ospec_obind, ospec_check. intros _. apply ospec_in_workspace; [done|]. intros p Hp _. unfold heads. steps.
  all: try given_ok Hn. pose proof (plain_app new ([colon] ++ new) Hn Hne) as Hnn. given_ok Hnn.
Qed.

Lemma ospec_commit_diffs id sha : id ∈ ids → ospec [] (commit_diffs show_uuid rt id sha) (fun _ _ => True).
Proof.
  intros Hid. apply ospec_obind, ospec_ret. intros sha' Hs%commit_sha_plain. apply ospec_in_workspace; [done|].
  intros p Hp _. steps; [given_ok Hs|]. apply quiet_for_each; [done|]. intros ? [status path] _ _. steps.
Qed.

Lemma ospec_log id limit : id ∈ ids → ospec [] (log show_uuid rt id limit) (fun _ _ => True).
Proof.
  intros Hid. apply ospec_in_workspace; [done|]. intros p Hp _. steps.
  all: apply quiet_log_entries; [done|]; cbn; tauto.
Qed.

Lemma ospec_remote id : id ∈ ids → ospec [] (remote show_uuid rt id) (fun _ _ => True).
Proof. intros Hid. apply ospec_in_workspace; [done|]. intros p Hp _. steps. Qed.

Lemma ospec_fetch id : id ∈ ids → ospec [] (fetch show_uuid rt id) (fun _ _ => True).
Proof. intros Hid. apply ospec_in_workspace; [done|]. intros p Hp _. steps. Qed.

Lemma ospec_pull id : id ∈ ids → ospec [] (pull show_uuid rt id) (fun _ _ => True).
Proof. intros Hid. apply ospec_in_workspace; [done|]. intros p Hp _. steps. by apply quiet_clean. Qed.

Lemma ospec_push id : id ∈ ids → ospec [] (push show_uuid rt id) (fun _ _ => True).
Proof. intros Hid. apply ospec_in_workspace; [done|]. intros p Hp _. steps. Qed.

Lemma ospec_sync id : id ∈ ids → ospec [] (sync show_uuid rt id) (fun _ _ => True).
Proof. intros Hid. apply ospec_in_workspace; [done|]. intros p Hp _. steps. by apply quiet_clean. Qed.

(** *** Provisioning and roots *)

Lemma mirror_child name : mirror (mirrors rt ++ [name]).
Proof.
  unfold mirror, parent_is. rewrite bool_decide_eq_false_2 by (intros [_ ?]%app_eq_nil; done).
  rewrite removelast_last. by rewrite bool_decide_eq_true_2.
Qed.

Lemma quiet_remove_mirror name op : quiet (remove_internal_dir (mirrors rt) (mirrors rt ++ [name]) op) (fun _ => True).
Proof. apply quiet_remove. intros _. left. apply mirror_child. Qed.

Lemma quiet_seed name1 name2 name3 :
  quiet (seed_managed_mirror (mirrors rt ++ [name1]) (mirrors rt ++ [name2]) (mirrors rt ++ [name3])) (fun _ => True).
Proof.
  pose proof (mirror_child name1). pose proof (mirror_child name2). pose proof (mirror_child name3).
  unfold seed_managed_mirror. steps. right. done.
Qed.

Lemma quiet_initialize project id name :
  quiet (initialize_managed_mirror show_uuid rt project id (mirrors rt ++ [name])) (fun _ => True).
Proof.
  unfold initialize_managed_mirror. eapply quiet_obind; [apply quiet_remove_mirror|intros _ _].
  eapply quiet_obind; [apply quiet_remove_mirror|intros _ _]. eapply quiet_attempt; [apply quiet_seed|intros outcome].
  eapply quiet_attempt; [apply quiet_remove_mirror|intros cleanup].
  eapply quiet_attempt with (R := fun _ => True); [walk; apply quiet_remove_mirror|intros _]. steps.
Qed.

Lemma quiet_clone_mirror source name1 name2 :
  quiet (clone_mirror rt source (mirrors rt ++ [name1]) (mirrors rt ++ [name2])) (fun _ => True).
Proof.
  pose proof (mirror_child name1). pose proof (mirror_child name2).
  unfold clone_mirror. eapply quiet_obind; [apply quiet_remove_mirror|intros _ _].
  eapply quiet_attempt with (R := fun _ => True); [steps|]. steps; [|apply quiet_remove_mirror]. right. done.
Qed.

Lemma quiet_ensure_mirror parse_uuid project id source : plain_word source = true →
  quiet (ensure_mirror show_uuid parse_uuid rt project id source) (fun _ => True).
Proof.
  intros Hs. unfold ensure_mirror. eapply quiet_obind; [apply quiet_reject_symlink|intros _ _].
  destruct (managed_project_id parse_uuid source).
  - steps; [apply quiet_initialize|apply quiet_ensure_owned..].
  - steps; [apply quiet_clone_mirror|apply quiet_ensure_owned|given_ok Hs..].
Qed.

Lemma ospec_project_lock {A} project (k : unit → Op A) (R : A → Prop) :
  quiet (k tt) R → ospec [] (obind (acquire_project_lock show_uuid rt project) k) (fun _ a => R a).
Proof.
  intros Hk. split; [constructor|]. intros []. split; [exact I|]. intros [e|]; [exact I|].
  apply (ospec_quiet [ProjectLock project] (k tt) R); auto.
Qed.

Lemma quiet_checkout_at id m commit source : id ∈ ids → plain_word source = true →
  quiet (checkout_workspace_at show_uuid rt id m (workspace_path show_uuid rt id) commit source) (fun _ => True).
Proof.
  intros Hid Hs. assert (inside (workspace_path show_uuid rt id)) as Hin by (exists id; done).
  unfold checkout_workspace_at. steps; [apply quiet_ensure_owned|given_ok Hs].
Qed.

Lemma ospec_provision parse_uuid project id source git_ref : id ∈ ids → plain_word source = true →
  ospec [] (provision show_uuid parse_uuid rt project id source git_ref) (fun _ _ => True).
Proof.
  intros Hid Hs. apply ospec_project_lock. eapply quiet_obind; [by apply quiet_ensure_mirror|]. intros m _.
  unfold resolve_commit, commit_of, heads. steps; [unfold reject_existing_workspace; walk|].
  eapply quiet_attempt; [by apply quiet_checkout_at|]. intros outcome. steps. apply quiet_remove. intros _. right. by exists id.
Qed.

Lemma ospec_set_root id relative : id ∈ ids → ospec [] (set_workspace_git_root show_uuid rt id relative) (fun _ _ => True).
Proof.
  intros Hid. unfold set_workspace_git_root. apply ospec_lock; [constructor|].
  apply ospec_obind, (ospec_quiet _ _ _ _ (quiet_require_base id)). intros p ->.
  apply (ospec_quiet _ _ (fun _ => True)); [|done]. destruct (relative ≫= _) as [r|].
  - eapply quiet_obind with (R := fun _ => True); [walk|intros _ _].
    eapply quiet_obind with (R := fun _ => True); [apply quiet_for_each; [done|]; intros ? [] _ _; cbn [nested_step]; steps|intros candidate _].
    eapply quiet_obind with (R := fun _ => True); [walk|intros real _]. destruct (path_starts_with real _) eqn:E; [|apply quiet_fail].
    apply quiet_marker. intros b. steps. split; [done|]. intros ? [= <-]. by apply bool_decide_eq_true in E.
  - apply quiet_call; [done|done|walk].
Qed.

(** Scanning asks the file system only. *)
Lemma spec_scan_children held root directory max children results pending :
  spec held (scan_children root directory max children results pending) (fun held' _ => held' = held).
Proof.
  revert results pending. induction children as [|e children IH]; intros results pending; cbn [scan_children]; [done|].
  destruct (_ || _); [apply IH|]. split; [exact I|]. intros [m|err]; cbn; repeat case_match; try done; apply IH.
Qed.

Lemma spec_scan_directory held root max depth directory results :
  spec held (scan_directory root max depth directory results) (fun held' _ => held' = held).
Proof.
  revert directory results. induction depth as [|depth IH]; intros directory results; cbn [scan_directory]; [done|].
  destruct (max <=? length results); [done|]. split; [exact I|]. intros [entries|]; [|done]. cbn [hold pbind].
  apply spec_bind. eapply spec_mono; [|apply spec_scan_children]. intros s [rs pending] ->. cbn [fst snd].
  revert rs. induction pending as [|p pending IHp]; intros rs; [done|]. apply spec_bind. eapply spec_mono; [|apply IH].
  intros s rs' ->. apply IHp.
Qed.

Lemma ospec_list_roots id depth : ospec [] (list_git_roots show_uuid rt id depth) (fun _ _ => True).
Proof.
  unfold list_git_roots. apply ospec_obind, (ospec_quiet _ _ _ _ (quiet_require_base id)). intros p _.
  apply ospec_pbind, spec_bind. eapply spec_mono; [|apply spec_scan_directory]. done.
Qed.

(** *** Two workspaces *)

Lemma quiet_publish temporary target op : inside temporary → inside target → quiet (publish temporary target op) (fun _ => True).
Proof. intros H1 H2. unfold publish. steps; [by left|done]. Qed.

Lemma inside_join p name : inside p → inside (p ++ [name]).
Proof. intros (id & Hid & Hp). exists id. split; [done|]. by apply prefix_app_r. Qed.

Lemma ospec_pair {A} source target (k : Op A) (R : A → Prop) : (distinct → source ≠ target) →
  quiet k R → ospec [] (pbind (acquire_workspace_pair show_uuid rt source target) (fun _ => k)) (fun _ a => R a).
Proof.
  intros Hd Hk. unfold acquire_workspace_pair.
  destruct (N.ltb_spec source target); (split; [constructor|]); intros []; (split; [intros D; repeat constructor; cbn; specialize (Hd D); lia|]);
    intros []; eapply spec_mono; [|apply Hk| |apply Hk]; intros s [a|e] [_ ?]; done.
Qed.

Lemma ospec_copy_agents source target : source ∈ ids → target ∈ ids → (distinct → source ≠ target) →
  ospec [] (copy_agents_md show_uuid rt source target) (fun _ _ => True).
Proof.
  intros Hs Ht Hd. apply ospec_pair; [done|]. eapply quiet_obind; [apply quiet_require|]. intros p Hp.
  eapply quiet_obind; [apply quiet_require|]. intros q Hq.
  assert (inside p) as Hip by (by exists source). assert (inside q) as Hiq by (by exists target).
  steps. all: try (by apply quiet_publish; apply inside_join). split; by apply inside_join.
Qed.

Lemma ospec_write_agents id content : id ∈ ids → ospec [] (write_agents_md show_uuid rt id content) (fun _ _ => True).
Proof.
  intros Hid. apply ospec_obind, ospec_check. intros Hlen%N.leb_le. apply ospec_in_workspace; [done|]. intros p Hp _.
  rewrite <- encode_length in Hlen.
  steps. all: unfold not_found_or; steps. all: try (apply quiet_publish); try (split; [|done]); by apply inside_join.
Qed.

Definition patch_bounded (patch : list N) : Prop := (blen patch <= MAX_APPLY_PATCH_BYTES)%N.

Lemma append_bounded target chunk patch : append_bounded_patch target chunk = Ok patch → patch_bounded patch.
Proof.
  unfold append_bounded_patch, patch_bounded. destruct (N.ltb_spec MAX_APPLY_PATCH_BYTES (blen target + blen chunk)); [done|].
  intros [= <-]. unfold blen in *. rewrite length_app. lia.
Qed.

Lemma quiet_workspace_patch p : inside p → quiet (workspace_patch p) patch_bounded.
Proof.
  intros Hp. unfold workspace_patch. eapply quiet_obind with (R := patch_bounded).
  { apply quiet_for_each; [done|]. intros a x [->|[->|Hx%not_elem_of_nil]%elem_of_cons]%elem_of_cons _; [| |done]; steps.
    all: by eapply append_bounded. }
  intros patch Hb. steps. apply quiet_for_each; [done|]. intros. steps. by eapply append_bounded.
Qed.

Lemma ospec_apply source target : source ∈ ids → target ∈ ids →
  ospec [] (apply_workspace_changes show_uuid rt source target) (fun _ _ => True).
Proof.
  intros Hs Ht. apply ospec_obind, ospec_check. intros Hne%negb_true_iff%N.eqb_neq. apply ospec_pair; [done|].
  eapply quiet_obind; [apply quiet_require|]. intros p Hp. eapply quiet_obind; [apply quiet_require|]. intros q Hq.
  assert (inside p) as Hip by (by exists source). assert (inside q) as Hiq by (by exists target).
  eapply quiet_obind; [by apply quiet_clean|intros _ _]. eapply quiet_obind; [by apply quiet_workspace_patch|]. intros patch Hb.
  steps; [|done]. split; [vm_compute; reflexivity|done].
Qed.

Lemma ospec_remove id : id ∈ ids → ospec [] (remove_workspace show_uuid rt id) (fun _ _ => True).
Proof.
  intros Hid. unfold remove_workspace. apply ospec_lock; [constructor|]. apply (ospec_quiet _ _ (fun _ => True)); [|done].
  apply quiet_call; [done|done|]. intros []. apply quiet_remove. intros _. right. by exists id.
Qed.
End discipline.
