(* ===== verification/GitRuntimeProps.v ===== *)
(** * What the git runtime promises

    Every request that the server hands to the git runtime keeps to the discipline of
    [GitRuntimeFacts]; what follows from it for one execution, and for requests that run side
    by side and wait for each other's locks. *)

From S2P Require Import Prelude RustStr Utf8 RustPath GitSource GitRuntime GitRuntimeFacts.
Open Scope nat_scope.
#[local] Arguments lit _ : simpl never.
#[local] Opaque MAX_WORKSPACE_FILES MAX_FILE_READ_BYTES MAX_IMAGE_ASSET_BYTES MAX_DIFF_BYTES MAX_APPLY_PATCH_BYTES.

(** ** Every request *)

(** [apply_workspace_changes] refuses to copy a workspace to itself; [copy_agents_md] does not. *)
Definition distinct_ids (r : request) : Prop :=
  match r with RCopyAgents source target => source ≠ target | _ => True end.

Section perform.
Context (show_uuid : Uuid → str) (parse_uuid : str → option Uuid) (parse_url : str → option Url) (rt : GitRuntime).

Lemma validate_source_plain source s :
  validate_source show_uuid parse_uuid parse_url rt source = Ok s → plain_word s = true.
Proof.
  unfold validate_source. case_match; [|apply parse_source_plain]. case_match; [|done]. intros <-%Ok_inj.
  by apply plain_app.
Qed.

Lemma spec_forget {A} ids distinct (p : Op A) :
  ospec hold (disciplined show_uuid rt ids distinct) [] p (fun _ _ => True) →
  spec hold (disciplined show_uuid rt ids distinct) [] (forget p) (fun _ _ => True).
Proof. intros H. apply spec_bind. by eapply spec_mono; [|exact H]. Qed.

Lemma perform_disciplined r :
  spec hold (disciplined show_uuid rt (workspaces_of r) (distinct_ids r)) []
    (perform show_uuid parse_uuid parse_url rt r) (fun _ _ => True).
Proof.
  destruct r; apply spec_forget; cbn [workspaces_of distinct_ids];
    [|apply ospec_set_root|apply ospec_list_roots|apply ospec_status|apply ospec_commit|apply ospec_list_files
     |apply ospec_read_file|apply ospec_read_image|apply ospec_diffs|apply ospec_stage|apply ospec_stage_all
     |apply ospec_unstage|apply ospec_revert|apply ospec_revert_all|apply ospec_branches|apply ospec_checkout
     |apply ospec_create|apply ospec_switch|apply ospec_rename|apply ospec_rename_upstream|apply ospec_commit_diffs
     |apply ospec_copy_agents|apply ospec_write_agents|apply ospec_apply|apply ospec_log|apply ospec_remote
     |apply ospec_fetch|apply ospec_pull|apply ospec_push|apply ospec_sync|apply ospec_remove];
    [|set_solver..].
  apply ospec_obind, ospec_ret. intros s Hs%validate_source_plain. apply ospec_obind, ospec_ret. intros b _.
  apply ospec_provision; [by left|done].
Qed.

(** What the discipline says of one call of an execution. *)
Lemma performed_ok r t b X (c : GitCall X) x :
  runs (perform show_uuid parse_uuid parse_url rt r) t b → Called c x ∈ t →
  ∃ held, disciplined show_uuid rt (workspaces_of r) (distinct_ids r) held X c.
Proof.
  intros Hr (t1 & t2 & ->)%list_elem_of_split. exists (after hold [] t1).
  by apply (proj2 (spec_runs _ _ _ _ _ _ _ (perform_disciplined r) Hr) t1 (Called c x) t2).
Qed.
End perform.

(** ** Files that are read *)

(** Programs that open no file. *)
Fixpoint noread {A} (p : Prog A) : Prop :=
  match p with
  | Ret _ => True
  | Vis c k => match c with OpenFile _ | ReadOpened _ _ => False | _ => True end ∧ ∀ x, noread (k x)
  end.

Lemma noread_bind {A B} (p : Prog A) (k : A → Prog B) : noread p → (∀ a, noread (k a)) → noread (pbind p k).
Proof.
  intros Hp Hk. induction p as [a|X c n IH]; cbn in *; [apply Hk|]. destruct Hp as [Hc Hn]. split; [done|]. intros x. by apply IH.
Qed.

Lemma noread_obind {A B} (p : Op A) (k : A → Op B) : noread p → (∀ a, noread (k a)) → noread (obind p k).
Proof. intros Hp Hk. apply noread_bind; [done|]. intros []; [apply Hk|done]. Qed.

Lemma noread_for_each {A B} (f : A → B → Op A) a l : (∀ a b, noread (f a b)) → noread (for_each f a l).
Proof.
  intros Hf. revert a. induction l as [|b l IH]; intros a; cbn [for_each]; [done|]. apply noread_obind; [done|]. intros. apply IH.
Qed.

Create HintDb noread.

(** Follows a program through its definitions. *)
Ltac head_of t := match t with ?f _ => head_of f | _ => t end.
Ltac noread_step :=
  match goal with
  | |- noread (Ret _) => exact I
  | |- noread (ok _) => exact I
  | |- noread (fail _) => exact I
  | |- noread (call _) => split; [exact I|intros; exact I]
  | |- noread (pbind _ _) => apply noread_bind; [|intros ?]
  | |- noread (obind _ _) => apply noread_obind; [|intros ?]
  | |- noread (for_each _ _ _) => apply noread_for_each; intros
  | |- noread (match ?x with _ => _ end) => destruct x
  | |- noread _ => solve [auto with noread nocore]
  | |- noread ?t => let h := head_of t in progress unfold h; cbv zeta
  end.

Lemma noread_scan_children root directory n children results pending :
  noread (scan_children root directory n children results pending).
Proof. revert results pending. induction children as [|e l IH]; intros; cbn [scan_children]; repeat first [apply IH|noread_step]. Qed.
#[local] Hint Resolve noread_scan_children : noread.

Lemma noread_scan_directory root n depth directory results : noread (scan_directory root n depth directory results).
Proof.
  revert directory results. induction depth as [|depth IH]; intros; cbn [scan_directory]; repeat noread_step.
  match goal with |- context [fst ?x] => destruct x as [found pending] end; cbn [fst snd]. revert found.
  induction pending as [|x l IHl]; intros; repeat first [apply IHl|apply IH|noread_step].
Qed.
#[local] Hint Resolve noread_scan_directory : noread.

Lemma noread_unused_name workspace requested final_name suffixes : noread (unused_name workspace requested final_name suffixes).
Proof. revert final_name. induction suffixes as [|n l IH]; intros; cbn [unused_name]; repeat first [apply IH|noread_step]. Qed.
#[local] Hint Resolve noread_unused_name : noread.

(** Every file that is opened or read has been resolved before, after the calls [past]. *)
Definition resolved_in (past : list event) (p : Path) : Prop := ∃ q, Called (Canonicalize q) (Ok p) ∈ past.

Fixpoint traced {A} (past : list event) (p : Prog A) (Q : list event → A → Prop) : Prop :=
  match p with
  | Ret a => Q past a
  | Vis c k =>
      match c with OpenFile p | ReadOpened p _ => resolved_in past p | _ => True end ∧
      ∀ x, traced (past ++ [Called c x]) (k x) Q
  end.

Lemma traced_bind {A B} past (p : Prog A) (k : A → Prog B) Q :
  traced past p (fun past a => traced past (k a) Q) → traced past (pbind p k) Q.
Proof.
  revert past. induction p as [a|X c n IH]; intros past; cbn; [done|]. intros [Hc Hn]. split; [done|]. intros x. by apply IH.
Qed.

Lemma traced_mono {A} past (p : Prog A) (Q Q' : list event → A → Prop) :
  (∀ past a, Q past a → Q' past a) → traced past p Q → traced past p Q'.
Proof.
  intros HQ. revert past. induction p as [a|X c n IH]; intros past; cbn; [apply HQ|]. intros [Hc Hn]. split; [done|]. intros x. by apply IH.
Qed.

Lemma noread_traced {A} past (p : Prog A) : noread p → traced past p (fun _ _ => True).
Proof.
  revert past. induction p as [a|X c n IH]; intros past; cbn; [done|]. intros [Hc Hn].
  split; [by destruct c|]. intros x. by apply IH.
Qed.

Lemma traced_obind {A B} past (p : Op A) (k : A → Op B) (P : list event → A → Prop) :
  traced past p (fun past r => match r with Ok a => P past a | Err _ => True end) →
  (∀ past a, P past a → traced past (k a) (fun _ _ => True)) → traced past (obind p k) (fun _ _ => True).
Proof. intros Hp Hk. apply traced_bind. eapply traced_mono; [|exact Hp]. intros past' [a|e] H; [by apply Hk|done]. Qed.

Lemma traced_noread_obind {A B} past (p : Op A) (k : A → Op B) :
  noread p → (∀ past a, traced past (k a) (fun _ _ => True)) → traced past (obind p k) (fun _ _ => True).
Proof.
  intros Hp Hk. apply (traced_obind past p k (fun _ _ => True)); [|auto].
  eapply traced_mono; [|by apply noread_traced]. by intros past' [].
Qed.

(** Resolving a path, and what is resolved stays so. *)
Lemma traced_canonicalize {B} past operation q (k : Path → Op B) :
  (∀ past p, resolved_in past p → traced past (k p) (fun _ _ => True)) →
  traced past (obind (io operation (Canonicalize q)) k) (fun _ _ => True).
Proof.
  intros Hk. eapply (traced_obind _ _ _ resolved_in); [|done]. split; [done|]. intros [p|e]; [|done].
  exists q. set_solver.
Qed.

Lemma traced_keeping {A B} past p (c : GitCall (result A IoError)) operation (k : A → Op B) :
  match c with OpenFile q | ReadOpened q _ => resolved_in past q | _ => True end → resolved_in past p →
  (∀ past a, resolved_in past p → traced past (k a) (fun _ _ => True)) →
  traced past (obind (io operation c) k) (fun _ _ => True).
Proof.
  intros Hc [q Hq] Hk. eapply (traced_obind _ _ _ (fun past _ => resolved_in past p)); [|done]. split; [done|].
  intros [a|e]; [|done]. exists q. set_solver.
Qed.

Lemma traced_check {B} past b e (k : unit → Op B) :
  traced past (k tt) (fun _ _ => True) → traced past (obind (check b e) k) (fun _ _ => True).
Proof. unfold check. by destruct b. Qed.

(** ** One execution *)

(** The words of a git command. *)
Definition git_words (e : event) : option (list Arg) :=
  match e with Called c _ => match c with RunGit _ args => Some args | SpawnGit _ args => Some args | _ => None end end.

(** The places that a call works in, reads or changes. *)
Definition places (e : event) : list Path :=
  match e with
  | Called c _ =>
      match c with
      | RunGit (Some d) _ => [d]
      | SpawnGit d _ => [d]
      | OpenFile p | ReadOpened p _ | WriteFile p _ | RemoveFile p | RemoveDirAll p | CreateDirAll p | SetMode p _ => [p]
      | CopyFile a b | Rename a b => [a; b]
      | SetRoot _ (Some p) => [p]
      | _ => []
      end
  end.

(** How many bytes a call may bring in or write. *)
Definition volume (e : event) : option (N * N) :=
  match e with
  | Called c _ =>
      match c with
      | ReadOpened _ limit => Some (limit, MAX_IMAGE_ASSET_BYTES + 1)%N
      | WriteFile _ bytes => Some (blen bytes, MAX_FILE_READ_BYTES)
      | WriteInput bytes => Some (blen bytes, MAX_APPLY_PATCH_BYTES)
      | _ => None
      end
  end.

(** Executions with given answers. *)
Section execute.
Context (answer : ∀ X, GitCall X → X).

Fixpoint execute {A} (p : Prog A) : list event * A :=
  match p with
  | Ret a => ([], a)
  | Vis c k => let x := answer _ c in let '(t, a) := execute (k x) in (Called c x :: t, a)
  end.

Lemma execute_runs {A} (p : Prog A) t a : execute p = (t, a) → runs p t a.
Proof.
  revert t. induction p as [b|X c k IH]; intros t; cbn [execute].
  - by intros [= <- <-].
  - destruct (execute (k (answer X c))) as [t' a'] eqn:E. intros [= <- <-]. exists (answer X c). split; [done|]. by apply IH.
Qed.
End execute.

(** Answers of a small world: one workspace with a changed file, and git that does as told. *)
Module SampleGit.
Definition runtime : GitRuntime := mkRuntime remote_only [lit "data"; lit "mirrors"] [lit "data"; lit "workspaces"] [lit "data"; lit "locks"].
Definition show (id : Uuid) : str := lit "w" ++ show_N id.
Definition parse (s : str) : option Uuid := match s with 119%N :: n => parse_digits n | _ => None end.
Definition url (s : str) : option Url := None.
Definition printed (args : list Arg) : list N :=
  let has x := existsb (fun a => seqb (arg_text a) (lit x)) args in
  if has "status"%string then lit " M src/main.rs" ++ [0%N]
  else if has "--cached"%string then lit "src/main.rs" ++ [0%N]
  else if has "rev-parse"%string then lit "0123456789" ++ [nl]
  else [].
Definition answer (X : Type) (c : GitCall X) : X :=
  match c in GitCall X return X with
  | LockMutex _ | SetRoot _ _ => tt
  | LockFile _ => None
  | RunGit _ args => Ok (mkOutput (Some 0%Z) (printed args) [])
  | SpawnGit _ _ | WriteInput _ | OpenFile _ | WriteFile _ _ | CopyFile _ _ | Rename _ _ | RemoveFile _ | RemoveDirAll _
  | CreateDirAll _ | SetMode _ _ => Ok tt
  | WaitOutput => Ok (mkOutput (Some 0%Z) [] [])
  | SymlinkMetadata p => Ok (mkMetadata false (path_starts_with p (workspaces runtime) && negb (length p =? 3)) (length p =? 3) 11)
  | MetadataOf _ => Ok (mkMetadata false true false 11)
  | IsFile _ | Exists _ => true
  | Canonicalize p => Ok p
  | ReadOpened _ _ => Ok (lit "fn main() {")
  | ReadDir _ => Ok []
  | FreshId => 7%N
  | GetRoot _ => None
  end.
Definition do_request (r : request) : list event * bool := execute answer (perform show parse url runtime r).
Definition commit_request : request := RCommit 3 [lit "src/main.rs"] (lit "-m is fine here") (mkAuthor (lit "Ada") (lit "ada@example.org")).
End SampleGit.

(** C9: whatever a client sends and whatever git and the file system answer, no text of the
    client stands where git looks for options: in every git command that a request runs,
    such a text is the value of an option, comes after [--], or does not start with a dash. *)
Theorem git_words_are_safe show_uuid parse_uuid parse_url rt r t b e args :
  runs (perform show_uuid parse_uuid parse_url rt r) t b → e ∈ t → git_words e = Some args → safe_args None args = true.
Proof.
  intros Hr He Ha. destruct e as [X c x]. destruct (performed_ok _ _ _ _ _ _ _ _ _ _ Hr He) as [held Hd].
  destruct c; cbn in Ha, Hd; try done; injection Ha as <-; by destruct Hd.
Qed.

(** The request whose message looks like an option is executed, and its commit is safe. *)
Lemma git_words_are_safe_witness :
  let '(t, b) := SampleGit.do_request SampleGit.commit_request in
  b = true ∧ match t !! 9 with Some e => ∃ args, git_words e = Some args ∧ word "commit" ∈ args ∧ safe_args None args = true | None => False end.
Proof.
  destruct (SampleGit.do_request SampleGit.commit_request) as [t b] eqn:E.
  assert (b = true) as -> by (by vm_compute in E; injection E as _ <-). split; [done|].
  destruct (t !! 9) as [e|] eqn:Ht; [|by vm_compute in E; injection E as <-].
  assert (∃ args, git_words e = Some args ∧ word "commit" ∈ args) as (args & Ha & Hc).
  { vm_compute in E. injection E as <-. injection Ht as <-. eexists. split; [reflexivity|]. do 6 right. left. }
  exists args. split_and!; [done|done|]. eapply (git_words_are_safe _ _ _ _ _ t); [by eapply execute_runs|by eapply list_elem_of_lookup_2|done].
Defined.

(** The file that a call opens or reads. *)
Definition file_read (e : event) : option Path :=
  match e with Called c _ => match c with OpenFile p | ReadOpened p _ => Some p | _ => None end end.

Section reads.
Context (show_uuid : Uuid → str) (parse_uuid : str → option Uuid) (parse_url : str → option Url) (rt : GitRuntime).

Lemma traced_in_workspace {A} past id (k : Path → Op A) :
  (∀ past workspace, traced past (k workspace) (fun _ _ => True)) → traced past (in_workspace show_uuid rt id k) (fun _ _ => True).
Proof.
  intros Hk. apply traced_bind. eapply traced_mono; [|apply noread_traced; repeat noread_step]. intros past' [] _.
  apply traced_noread_obind; [repeat noread_step|done].
Qed.

Lemma traced_read_file past id relative : traced past (read_file show_uuid rt id relative) (fun _ _ => True).
Proof.
  apply traced_noread_obind; [done|]. intros past1 _. apply traced_in_workspace. intros past2 workspace. cbv zeta.
  apply traced_noread_obind; [repeat noread_step|]. intros past3 m. apply traced_check, traced_canonicalize.
  intros past4 p Hp. apply traced_check. eapply traced_keeping; [exact Hp|exact Hp|]. intros past5 _ Hp5.
  eapply traced_keeping; [exact Hp5|exact Hp5|]. intros past6 bytes _. by destruct (from_utf8 bytes).
Qed.

Lemma traced_read_image past id relative : traced past (read_image_asset show_uuid rt id relative) (fun _ _ => True).
Proof.
  apply traced_noread_obind; [done|]. intros past1 _. apply traced_noread_obind; [done|]. intros past1' media.
  apply traced_in_workspace. intros past2 workspace. cbv zeta.
  apply traced_noread_obind; [repeat noread_step|]. intros past3 m. apply traced_check, traced_check, traced_canonicalize.
  intros past4 p Hp. apply traced_check. eapply traced_keeping; [exact Hp|exact Hp|]. intros past5 _ Hp5.
  eapply traced_keeping; [exact Hp5|exact Hp5|]. intros past6 bytes _. apply traced_check, traced_noread_obind; [done|]. done.
Qed.

Lemma perform_traced r past : traced past (perform show_uuid parse_uuid parse_url rt r) (fun _ _ => True).
Proof.
  assert (∀ A (p : Op A), traced past p (fun _ _ => True) → traced past (forget p) (fun _ _ => True)) as Hf.
  { intros A p H. apply traced_bind. eapply traced_mono; [|exact H]. done. }
  destruct r; cbn [perform]; try (apply Hf; first [apply traced_read_file|apply traced_read_image]);
    apply noread_traced; repeat noread_step.
Qed.

Lemma traced_runs {A} past (p : Prog A) Q t1 e t2 a q :
  traced past p Q → runs p (t1 ++ e :: t2) a → file_read e = Some q → resolved_in (past ++ t1) q.
Proof.
  revert past t1. induction p as [b|Y d k IH]; intros past t1 Hp Hr Hq; [by destruct t1|].
  destruct Hp as [Hd Hk]. destruct t1 as [|e' t1]; destruct Hr as (y & Hy & Hr).
  - rewrite app_nil_r. subst e. destruct d; cbn in Hq; simplify_eq; done.
  - subst e'. specialize (IH y (past ++ [Called d y]) t1 (Hk y) Hr Hq). by rewrite <- app_assoc in IH.
Qed.
End reads.

(** C19: a request works inside the workspaces that it names.  Whatever git and the file system
    answer, every directory that git is started in, every file that is opened, read, written,
    copied, renamed or removed, and every root that is remembered is, as the path is written, below
    the directory of such a workspace, or is a mirror of a repository; and every file that is
    opened and read is named by a path that the file system has given as the resolved form of
    another one earlier in the same request.  Links elsewhere are not covered: the source of
    [copy_agents_md] is copied without being resolved. *)
Theorem workspace_is_confined show_uuid parse_uuid parse_url rt r t b e p :
  runs (perform show_uuid parse_uuid parse_url rt r) t b → e ∈ t →
  (p ∈ places e →
   (∃ id, id ∈ workspaces_of r ∧ workspace_path show_uuid rt id `prefix_of` p) ∨ parent_is p (mirrors rt) = true) ∧
  (file_read e = Some p → ∀ t1 t2, t = t1 ++ e :: t2 → ∃ q, Called (Canonicalize q) (Ok p) ∈ t1).
Proof.
  intros Hr He. destruct e as [X c x]. split.
  - intros Hp. destruct (performed_ok _ _ _ _ _ _ _ _ _ _ Hr He) as [held Hd].
    destruct c; cbn in Hp, Hd; try (by apply not_elem_of_nil in Hp); try done.
    all: repeat match type of Hp with _ ∈ match ?o with _ => _ end => destruct o end; try (by apply not_elem_of_nil in Hp).
    all: rewrite ?elem_of_cons in Hp; unfold inside, mirror in Hd; naive_solver set_solver.
  - intros Hf t1 t2 ->. exact (traced_runs [] _ _ t1 _ t2 b p (perform_traced _ _ _ _ r []) Hr Hf).
Qed.

Lemma workspace_is_confined_witness :
  let '(t, b) := SampleGit.do_request (RReadFile 3 (lit "src/main.rs")) in
  b = true ∧ match t !! 8 with
             | Some e => ∃ p, places e = [p] ∧ ((∃ id, id ∈ [3%N] ∧ workspace_path SampleGit.show SampleGit.runtime id `prefix_of` p) ∨
                                                parent_is p (mirrors SampleGit.runtime) = true)
             | None => False
             end.
Proof.
  destruct (SampleGit.do_request (RReadFile 3 (lit "src/main.rs"))) as [t b] eqn:E.
  assert (b = true) as -> by (by vm_compute in E; injection E as _ <-). split; [done|].
  destruct (t !! 8) as [e|] eqn:Ht; [|by vm_compute in E; injection E as <-].
  assert (∃ p, places e = [p]) as [p Hp] by (vm_compute in E; injection E as <-; injection Ht as <-; by eexists).
  exists p. split; [done|].
  destruct (workspace_is_confined SampleGit.show SampleGit.parse SampleGit.url SampleGit.runtime (RReadFile 3 (lit "src/main.rs")) t true e p)
    as [H _]; [by eapply execute_runs|by eapply list_elem_of_lookup_2|].
  apply H. rewrite Hp. by left.
Defined.

(** Whatever the sizes of the files of a workspace, a request never reads more than the
    limit of an image and one byte at once, never writes a file above the limit of text
    files, and never hands git a patch above the limit of patches. *)
Theorem io_is_bounded show_uuid parse_uuid parse_url rt r t b e n limit :
  runs (perform show_uuid parse_uuid parse_url rt r) t b → e ∈ t → volume e = Some (n, limit) → (n <= limit)%N.
Proof.
  intros Hr He Hv. destruct e as [X c x]. destruct (performed_ok _ _ _ _ _ _ _ _ _ _ Hr He) as [held Hd].
  destruct c; cbn in Hv, Hd; try done; injection Hv as <- <-; first [done|apply Hd].
Qed.

Lemma io_is_bounded_witness :
  let '(t, b) := SampleGit.do_request (RWriteAgents 3 (lit "Be brief.")) in
  b = true ∧ match t !! 7 with Some e => ∃ limit, volume e = Some (9%N, limit) ∧ (9 <= limit)%N | None => False end.
Proof.
  destruct (SampleGit.do_request (RWriteAgents 3 (lit "Be brief."))) as [t b] eqn:E.
  assert (b = true) as -> by (by vm_compute in E; injection E as _ <-). split; [done|].
  destruct (t !! 7) as [e|] eqn:Ht; [|by vm_compute in E; injection E as <-].
  assert (volume e = Some (9%N, MAX_FILE_READ_BYTES)) as Hv by (by vm_compute in E; injection E as <-; injection Ht as <-).
  eexists. split; [exact Hv|]. eapply (io_is_bounded _ _ _ _ _ t); [by eapply execute_runs|by eapply list_elem_of_lookup_2|exact Hv].
Defined.

(** ** Requests side by side *)

(** A request under way: the locks it has taken and what it will do. *)
Record task := mkTask { taken : list LockName; rest : Prog bool }.

(** The guards of a request are dropped when it returns. *)
Definition holds (k : task) (l : LockName) : Prop :=
  match rest k with Ret _ => False | Vis _ _ => l ∈ taken k end.

Definition free (l : LockName) (ks : list task) : Prop := Forall (fun k => ¬ holds k l) ks.

(** The mutex that a call waits for. *)
Definition awaits {X} (c : GitCall X) : option LockName := match c with LockMutex l => Some l | _ => None end.

(** Any task whose next call need not wait makes it, and gets any answer. *)
Inductive tasks_step : list task → list task → Prop :=
| task_calls ks i held X (c : GitCall X) k (x : X) :
    ks !! i = Some (mkTask held (Vis c k)) →
    (∀ l, awaits c = Some l → free l ks) →
    tasks_step ks (<[i := mkTask (hold held X c) (k x)]> ks).

Definition returned (k : task) : Prop := match rest k with Ret _ => True | Vis _ _ => False end.

(** Calls always have some answer. *)
Definition some_answer {X} (c : GitCall X) : X :=
  match c in GitCall X return X with
  | LockMutex _ | SetRoot _ _ => tt
  | LockFile _ | GetRoot _ => None
  | IsFile _ | Exists _ => false
  | FreshId => 0%N
  | RunGit _ _ | WaitOutput | SpawnGit _ _ | WriteInput _ | SymlinkMetadata _ | MetadataOf _ | Canonicalize _ | OpenFile _
  | ReadOpened _ _ | WriteFile _ _ | CopyFile _ _ | Rename _ _ | RemoveFile _ | RemoveDirAll _ | CreateDirAll _ | SetMode _ _
  | ReadDir _ => Err IoOther
  end.

(** *** Every schedule ends *)

Definition task_step (a b : task) : Prop :=
  match rest a with Ret _ => False | Vis c k => ∃ x, b = mkTask (hold (taken a) _ c) (k x) end.

Lemma task_step_sn k : sn task_step k.
Proof.
  destruct k as [held p]. revert held. induction p as [b|X c k IH]; intros held; constructor; intros k' Hk; [done|].
  destruct Hk as [x ->]. apply IH.
Qed.

(** One element of a list makes a step. *)
Definition one_steps {A} (R : A → A → Prop) (l l' : list A) : Prop := ∃ i a b, l !! i = Some a ∧ R a b ∧ l' = <[i := b]> l.

Lemma one_steps_sn {A} (R : A → A → Prop) l : Forall (sn R) l → sn (one_steps R) l.
Proof.
  induction l as [|a l IH]; intros Hl.
  { constructor. intros l' (i & a & b & Hi & _). by rewrite lookup_nil in Hi. }
  apply Forall_cons in Hl as [Ha Hl]. specialize (IH Hl). clear Hl. revert l IH. induction Ha as [a _ IHa]. intros l Hl.
  induction Hl as [l Hl IHl]. constructor. intros l' ([|i] & b & c & Hi & HR & ->); cbn in Hi |- *.
  - injection Hi as <-. apply IHa; [done|]. by constructor.
  - apply IHl. by exists i, b, c.
Qed.

Lemma tasks_step_one ks ks' : tasks_step ks ks' → one_steps task_step ks ks'.
Proof. intros [ks0 i held X c k x Hi _]. eexists i, _, _. split_and!; [done| |done]. by exists x. Qed.

Lemma tasks_step_sn ks : sn tasks_step ks.
Proof.
  assert (sn (one_steps task_step) ks) as H by (apply one_steps_sn, Forall_true, task_step_sn).
  induction H as [ks _ IH]. constructor. intros ks' Hk. by apply IH, tasks_step_one.
Qed.

(** *** No schedule blocks *)

Section ordered.
Context (show_uuid : Uuid → str) (rt : GitRuntime).

(** A task takes its locks in their order from here on. *)
Definition ordered (k : task) : Prop :=
  ∃ ids (distinct : Prop), distinct ∧ spec hold (disciplined show_uuid rt ids distinct) (taken k) (rest k) (fun _ _ => True).

Lemma ordered_step k k' : task_step k k' → ordered k → ordered k'.
Proof.
  destruct k as [held [b|X c k]]; [done|]. intros [x ->] (ids & D & HD & [_ Hk]). exists ids, D. split; [done|]. apply Hk.
Qed.

Lemma ordered_steps ks ks' : tasks_step ks ks' → Forall ordered ks → Forall ordered ks'.
Proof.
  intros (i & k & k' & Hi & Hk & ->)%tasks_step_one Ho. apply Forall_insert; [done|].
  eapply ordered_step; [done|]. by eapply Forall_lookup_1.
Qed.

(** The task waits for this lock, after all that it holds. *)
Definition waits (k : task) (l : LockName) : Prop :=
  match rest k with Vis c _ => awaits c = Some l | Ret _ => False end.

Lemma waits_last k l h : ordered k → waits k l → holds k h → lock_before h l.
Proof.
  destruct k as [held [b|X c k]]; [done|]. unfold waits, holds. cbn. intros (ids & D & HD & [Hc _]) Hl Hh.
  destruct c; try done. injection Hl as ->. cbn in Hc. specialize (Hc HD). rewrite Forall_forall in Hc. by apply Hc.
Qed.

Definition lock_rank (l : LockName) : N := match l with ProjectLock _ => 0 | WorkspaceLock id => id end.

Lemma lock_before_rank a b : lock_before a b → (lock_rank a < lock_rank b)%N.
Proof. by destruct a, b. Qed.

#[local] Instance LockName_eq_dec : EqDecision LockName.
Proof. solve_decision. Defined.

#[local] Instance holds_dec k l : Decision (holds k l).
Proof. unfold holds. destruct (rest k); apply _. Defined.

(** From a task that has not returned, follow the locks that are waited for to one that is free. *)
Lemma some_task_steps ks m n k : Forall ordered ks → (∀ k l, k ∈ ks → waits k l → (lock_rank l <= m)%N) →
  k ∈ ks → ¬ returned k → (∀ l, waits k l → N.to_nat (m - lock_rank l) < n) → ∃ ks', tasks_step ks ks'.
Proof.
  intros Ho Hm. revert k. induction n as [|n IH]; intros k Hk Hlive Hn; pose proof Hk as [i Hi]%list_elem_of_lookup_1;
    destruct k as [held [b|X c k]]; try (by destruct (Hlive I)).
  all: destruct (awaits c) as [l|] eqn:Hc; [|eexists; eapply (task_calls ks i held X c k (some_answer c)); [done|congruence]].
  all: specialize (Hn l Hc).
  { lia. }
  destruct (decide (List.Exists (fun k => holds k l) ks)) as [(k' & Hk' & Hl)%Exists_exists|Hfree].
  - apply (IH k'); [done| |].
    { unfold returned, holds in *. by destruct (rest k'). }
    intros l' Hl'. pose proof (Hm _ _ Hk Hc). pose proof (Hm _ _ Hk' Hl').
    pose proof (lock_before_rank _ _ (waits_last k' l' l (proj1 (Forall_forall _ _) Ho _ Hk') Hl' Hl)). lia.
  - eexists. eapply (task_calls ks i held X c k (some_answer c)); [done|]. intros l' E. rewrite Hc in E. injection E as <-.
    by apply Forall_Exists_neg.
Qed.

Lemma some_bound (ks : list task) : ∃ m, ∀ k l, k ∈ ks → waits k l → (lock_rank l <= m)%N.
Proof.
  induction ks as [|k ks [m Hm]]; [exists 0%N; intros k l []%not_elem_of_nil|].
  destruct k as [held [b|X c p]].
  - exists m. intros k l [->|Hk]%elem_of_cons Hl; [done|by eapply Hm].
  - exists (N.max m (default 0%N (lock_rank <$> awaits c))). intros k l [->|Hk]%elem_of_cons Hl.
    + unfold waits in Hl. cbn in Hl. rewrite Hl. cbn. lia.
    + specialize (Hm _ _ Hk Hl). lia.
Qed.

Lemma tasks_progress ks : Forall ordered ks → Forall returned ks ∨ ∃ ks', tasks_step ks ks'.
Proof.
  intros Ho. assert (∀ k, Decision (returned k)) as Hd by (intros k; unfold returned; destruct (rest k); apply _).
  destruct (decide (Forall returned ks)) as [H|(k & Hk & Hr)%not_Forall_Exists%Exists_exists]; [by left|right|apply _].
  destruct (some_bound ks) as [m Hm]. eapply (some_task_steps ks m (S (N.to_nat m)) k); [done|done|done|done|]. intros l _. lia.
Qed.

(** So they can all return. *)
Lemma tasks_return ks : Forall ordered ks → ∃ ks', rtc tasks_step ks ks' ∧ Forall returned ks'.
Proof.
  induction (tasks_step_sn ks) as [ks _ IH]. intros Ho. destruct (tasks_progress ks Ho) as [Hr|[ks1 H1]]; [by exists ks|].
  destruct (IH ks1 H1 (ordered_steps _ _ H1 Ho)) as (ks' & Hs & Hr). exists ks'. split; [by eapply rtc_l|done].
Qed.
End ordered.

(** The requests that a server starts with. *)
Definition started (show_uuid : Uuid → str) parse_uuid parse_url rt (rs : list request) : list task :=
  map (fun r => mkTask [] (perform show_uuid parse_uuid parse_url rt r)) rs.

Lemma started_ordered show_uuid parse_uuid parse_url rt rs : Forall distinct_ids rs →
  Forall (ordered show_uuid rt) (started show_uuid parse_uuid parse_url rt rs).
Proof.
  intros H. apply Forall_map. eapply Forall_impl; [exact H|]. intros r Hr. exists (workspaces_of r), (distinct_ids r).
  split; [done|]. apply perform_disciplined.
Qed.

(** C14: requests that run side by side never block each other.  However many there are, none of
    which copies the instructions of a workspace to itself, whatever the order in which they make
    their calls and whatever git and the file system answer: as long as one of them has not
    returned, some request can make its next call, so they never wait for each other's locks in a
    circle; and from every point that they reach they can all go on to return. *)
Theorem requests_all_return show_uuid parse_uuid parse_url rt rs ks : Forall distinct_ids rs →
  rtc tasks_step (started show_uuid parse_uuid parse_url rt rs) ks →
  (Forall returned ks ∨ ∃ ks', tasks_step ks ks') ∧ ∃ ks', rtc tasks_step ks ks' ∧ Forall returned ks'.
Proof.
  intros Hd Hks. assert (Forall (ordered show_uuid rt) ks) as Ho.
  { eapply (rtc_ind_l (fun ks0 => Forall (ordered show_uuid rt) ks0 → Forall (ordered show_uuid rt) ks)).
    4: apply (started_ordered _ parse_uuid parse_url _ rs Hd). 3: exact Hks. all: eauto using ordered_steps. }
  split; [by apply (tasks_progress show_uuid rt)|]. by apply (tasks_return show_uuid rt).
Qed.

(** Two requests that copy the instructions of two workspaces to each other. *)
Lemma requests_all_return_witness :
  let rs := [RCopyAgents 3 4; RCopyAgents 4 3] in
  let ks := started SampleGit.show SampleGit.parse SampleGit.url SampleGit.runtime rs in
  Forall distinct_ids rs ∧ ∃ ks', rtc tasks_step ks ks' ∧ Forall returned ks'.
Proof.
  intros rs ks. assert (Forall distinct_ids rs) as Hd by (repeat constructor; discriminate). split; [exact Hd|].
  destruct (requests_all_return SampleGit.show SampleGit.parse SampleGit.url SampleGit.runtime rs ks Hd (rtc_refl _ _)) as [_ H].
  exact H.
Defined.

(** A task that waits for a lock of its own never goes on. *)
Lemma waits_for_itself k l : waits k l → holds k l → nf tasks_step [k].
Proof.
  intros Hw Hh [ks' Hs]. inversion Hs as [ks i held X c p x Hi Hf]; subst. destruct i as [|i]; [|done].
  injection Hi as ->. specialize (Hf l Hw). apply Forall_cons in Hf as [Hf _]. by apply Hf.
Qed.

(** The premise is needed: copying the instructions of a workspace to itself waits for ever
    for the lock that it has taken. *)
Example copy_to_itself_hangs : ∃ ks,
  rtc tasks_step (started SampleGit.show SampleGit.parse SampleGit.url SampleGit.runtime [RCopyAgents 3 3]) ks ∧
  nf tasks_step ks ∧ ¬ Forall returned ks.
Proof.
  eexists. split_and!.
  - apply rtc_once. eapply (task_calls _ 0 [] unit (LockMutex (WorkspaceLock 3)) _ tt); [reflexivity|].
    intros l _. apply Forall_cons. split; [apply not_elem_of_nil|constructor].
  - cbn. eapply (waits_for_itself _ (WorkspaceLock 3)); [reflexivity|]. unfold holds. cbn. by left.
  - intros H%Forall_cons. by destruct H.
Qed.
