(* ===== verification/GitCommitFacts.v ===== *)
(** * Commits, and what git prints about changes *)

From S2P Require Import Prelude RustStr Utf8 RustPath GitSource GitRuntime GitRuntimeFacts GitRuntimeProps.
Open Scope nat_scope.
#[local] Arguments lit _ : simpl never.
#[local] Opaque MAX_WORKSPACE_FILES MAX_FILE_READ_BYTES MAX_IMAGE_ASSET_BYTES MAX_DIFF_BYTES MAX_APPLY_PATCH_BYTES.

(** ** Executions that succeed *)

Lemma runs_obind {A B} (p : Op A) (k : A → Op B) t b : runs (obind p k) t (Ok b) →
  ∃ t1 t2 a, t = t1 ++ t2 ∧ runs p t1 (Ok a) ∧ runs (k a) t2 (Ok b).
Proof.
  intros (t1 & t2 & [a|e] & -> & H1 & H2)%runs_bind; [by exists t1, t2, a|]. destruct t2; cbn in H2; done.
Qed.

Lemma runs_ret {A} (r : result A GitRuntimeError) t a : runs (Ret r) t (Ok a) → t = [] ∧ r = Ok a.
Proof. destruct t; cbn; [intros; by split|done]. Qed.

Lemma runs_check b e t u : runs (check b e) t (Ok u) → t = [] ∧ b = true.
Proof. unfold check. destruct b; intros [-> ?]%runs_ret; by split. Qed.

Lemma runs_git_output operation cwd args accepted t o : runs (git_output operation cwd args accepted) t (Ok o) →
  t = [Called (RunGit cwd (NO_HOOKS ++ args)) (Ok o)] ∧ existsb (Z.eqb (default (-1)%Z (exit_code o))) accepted = true.
Proof.
  intros (t1 & t2 & a & -> & H1 & H2)%runs_obind. destruct t1 as [|e t1]; [done|]. destruct H1 as (x & -> & H1).
  apply runs_ret in H1 as [-> H1]. destruct x as [a'|]; [|done]. injection H1 as ->.
  destruct (existsb _ accepted) eqn:E; apply runs_ret in H2 as [-> [= <-]]. by split.
Qed.

Lemma runs_git operation cwd args t : runs (git operation cwd args) t (Ok tt) →
  ∃ o, t = [Called (RunGit cwd (NO_HOOKS ++ args)) (Ok o)] ∧ success o = true.
Proof.
  intros (t1 & t2 & o & -> & [-> Ho]%runs_git_output & [-> _]%runs_ret)%runs_obind. exists o. split; [done|].
  cbn in Ho. rewrite orb_false_r in Ho. apply Z.eqb_eq in Ho. apply bool_decide_eq_true. by destruct (exit_code o) as [n|]; cbn in Ho; [subst|].
Qed.

Lemma runs_git_text operation cwd args t v : runs (git_text operation cwd args) t (Ok v) →
  ∃ o s, t = [Called (RunGit cwd (NO_HOOKS ++ args)) (Ok o)] ∧ from_utf8 (stdout o) = Ok s ∧ v = trim s.
Proof.
  intros (t1 & t2 & o & -> & [-> _]%runs_git_output & H)%runs_obind. exists o.
  destruct (from_utf8 (stdout o)) as [s|]; apply runs_ret in H as [-> [= <-]]. by exists s.
Qed.

(** The git command of a call, with its answer. *)
Definition git_run (e : event) : option (option Path * list Arg * result Output IoError) :=
  match e with
  | @Called X c x =>
      match c in GitCall X return X → _ with RunGit cwd args => fun o => Some (cwd, args, o) | _ => fun _ => None end x
  end.

(** Finding the workspace runs no git. *)
Definition no_git (_ : unit) X (c : GitCall X) : Prop := match c with RunGit _ _ => False | _ => True end.

Lemma no_git_runs {A} (p : Prog A) t a : spec (fun s _ _ => s) no_git tt p (fun _ _ => True) → runs p t a → omap git_run t = [].
Proof.
  revert t. induction p as [b|X c k IH]; intros [|e t]; cbn [spec runs]; try done.
  intros [Hc Hk] (x & -> & Hr). cbn. rewrite (IH x t (Hk x) Hr). by destruct c.
Qed.

Lemma require_workspace_no_git show_uuid rt id :
  spec (fun s _ _ => s) no_git tt (require_workspace show_uuid rt id) (fun _ _ => True).
Proof.
  unfold require_workspace, require_base_workspace, ensure_owned_workspace, reject_symlink, git_marker_is_safe, io, check, not_found_or.
  repeat (cbn [spec obind pbind call no_git ok fail]; match goal with
    | |- True => exact I
    | |- _ ∧ _ => split; [exact I|intros]
    | |- context [match ?x with _ => _ end] => destruct x
    end).
Qed.

(** ** Commits *)

Lemma subset_of_spec a b : subset_of a b = true → ∀ x, x ∈ a → x ∈ b.
Proof.
  unfold subset_of. rewrite forallb_forall. intros H x Hx%list_elem_of_In%H. apply existsb_exists in Hx as (y & Hy & E).
  apply seqb_eq in E as ->. by apply list_elem_of_In.
Qed.

Definition staged_args : list Arg := [word "diff"; word "--cached"; word "--name-only"; word "-z"; word "--"].
Definition commit_args (message : str) (author : CommitAuthor) : list Arg :=
  [word "-c"; Given (lit "user.name=" ++ author_name author); word "-c"; Given (lit "user.email=" ++ author_email author);
   word "commit"; word "--no-gpg-sign"; word "-m"; Given message].

Lemma runs_in_workspace {A} show_uuid rt id (k : Path → Op A) t a :
  runs (in_workspace show_uuid rt id k) t (Ok a) →
  ∃ t1 t2 d, t = t1 ++ t2 ∧ omap git_run t1 = [] ∧ workspace_path show_uuid rt id `prefix_of` d ∧ runs (k d) t2 (Ok a).
Proof.
  unfold in_workspace. intros (t1 & t' & [] & -> & H1 & (t2 & t3 & d & -> & H2 & H3)%runs_obind)%runs_bind.
  exists (t1 ++ t2), t3, d. rewrite omap_app, (no_git_runs _ _ _ (require_workspace_no_git _ _ _) H2), app_nil_r. split_and!.
  - by rewrite app_assoc.
  - apply (no_git_runs (acquire_workspace_lock show_uuid rt id) _ tt); [|done]. cbn. tauto.
  - apply (spec_runs _ _ [] _ _ _ _ (quiet_require show_uuid rt [] False id []) H2).
  - done.
Qed.

(** C29: a commit is of what was selected: if [commit_selected] succeeds, it has run exactly six
    git commands in the workspace; the first said that every selected path is changed, the
    fourth, right before the commit, that something is staged and nothing but selected paths;
    the commit had the message and author of the request and succeeded, and the result is
    the head that git printed after it. *)
Theorem commit_is_of_the_selection show_uuid rt id selected message author t sha :
  runs (commit_selected show_uuid rt id selected message author) t (Ok sha) →
  ∃ d o1 o2 o3 o4 o5 o6 changes staged head,
    workspace_path show_uuid rt id `prefix_of` d ∧
    omap git_run t = map (fun '(args, o) => (Some d, NO_HOOKS ++ args, Ok o))
      [(STATUS_ARGS, o1); (staged_args, o2); ([word "add"; word "--"] ++ map Given selected, o3); (staged_args, o4);
       (commit_args message author, o5); ([word "rev-parse"; word "HEAD"], o6)] ∧
    parse_porcelain (stdout o1) = Ok changes ∧ (∀ p, p ∈ selected → p ∈ map change_path changes) ∧
    nul_strings (stdout o4) = Ok staged ∧ staged ≠ [] ∧ (∀ p, p ∈ staged → p ∈ selected) ∧
    success o5 = true ∧ from_utf8 (stdout o6) = Ok head ∧ sha = trim head.
Proof.
  unfold commit_selected. intros (t1 & t2 & [] & -> & [-> _]%runs_ret & H)%runs_obind.
  apply runs_in_workspace in H as (t1 & t3 & d & -> & Ht1 & Hd & H).
  apply runs_obind in H as (? & t4 & o1 & -> & [-> _]%runs_git_output & H).
  apply runs_obind in H as (? & t5 & changes & -> & [-> Hc]%runs_ret & H).
  apply runs_obind in H as (? & t6 & [] & -> & [-> Hs]%runs_check & H).
  apply runs_obind in H as (? & t7 & before & -> & H2 & H). apply runs_obind in H2 as (? & ? & o2 & -> & [-> _]%runs_git_output & [-> _]%runs_ret).
  apply runs_obind in H as (? & t8 & [] & -> & [-> _]%runs_check & H).
  apply runs_obind in H as (? & t9 & [] & -> & (o3 & -> & _)%runs_git & H).
  apply runs_obind in H as (? & t10 & staged & -> & H4 & H). apply runs_obind in H4 as (? & ? & o4 & -> & [-> _]%runs_git_output & [-> Hst]%runs_ret).
  apply runs_obind in H as (? & t11 & [] & -> & [-> Hne]%runs_check & H).
  apply runs_obind in H as (? & t12 & [] & -> & [-> Hsub]%runs_check & H).
  apply runs_obind in H as (? & t13 & [] & -> & (o5 & -> & H5)%runs_git & H).
  apply runs_git_text in H as (o6 & head & -> & Hh & ->).
  exists d, o1, o2, o3, o4, o5, o6, changes, staged, head. split_and!; try done.
  - cbn [app]. rewrite omap_app, Ht1. reflexivity.
  - by apply subset_of_spec.
  - by destruct staged.
  - by apply subset_of_spec.
Qed.

Lemma commit_is_of_the_selection_witness :
  let author := mkAuthor (lit "Ada") (lit "ada@example.org") in
  let '(t, r) := execute SampleGit.answer (commit_selected SampleGit.show SampleGit.runtime 3 [lit "src/main.rs"] (lit "Fix") author) in
  r = Ok (lit "0123456789") ∧ length (omap git_run t) = 6 ∧ ∃ d, workspace_path SampleGit.show SampleGit.runtime 3 `prefix_of` d.
Proof.
  intros author. destruct (execute SampleGit.answer _) as [t r] eqn:E.
  assert (r = Ok (lit "0123456789")) as -> by (by vm_compute in E; injection E as _ <-).
  destruct (commit_is_of_the_selection SampleGit.show SampleGit.runtime 3 [lit "src/main.rs"] (lit "Fix") author t (lit "0123456789")
    ltac:(by eapply execute_runs)) as (d & o1 & o2 & o3 & o4 & o5 & o6 & changes & staged & head & Hd & Ht & _).
  rewrite Ht. split_and!; [done|done|by exists d].
Defined.

(** ** [git status --porcelain=v1 -z] *)

(** One line of it: two letters, a path, and where a renamed or copied file comes from. *)
Record porcelain := mkPorcelain { letters : char * char; shown_path : str; origin : option str }.

Definition letters_of (e : porcelain) : str := [fst (letters e); snd (letters e)].

(** What git prints. *)
Definition show_porcelain (e : porcelain) : list N :=
  encode (letters_of e ++ [32%N] ++ shown_path e) ++ [0%N] ++
  (match origin e with Some o => encode o ++ [0%N] | None => [] end).

Definition printable (e : porcelain) : Prop :=
  (0 < fst (letters e) < 128)%N ∧ (0 < snd (letters e) < 128)%N ∧ validate_relative_path (shown_path e) = Ok tt ∧ scalars (shown_path e) ∧
  match origin e with
  | Some o => is_rename (letters_of e) = true ∧ o ≠ [] ∧ (0%N ∉ o) ∧ scalars o
  | None => is_rename (letters_of e) = false
  end.

Definition change_of (e : porcelain) : FileChange := mkChange (shown_path e) (letters_of e) None None false None false.

Lemma nul_records_cons r bytes : r ≠ [] → 0%N ∉ r → nul_records (r ++ 0%N :: bytes) = r :: nul_records bytes.
Proof.
  intros Hr H0. unfold nul_records. rewrite split_on_app by done. cbn [List.filter].
  by rewrite (proj2 (seqb_neq r []) Hr).
Qed.

Lemma encode_no_nul s : 0%N ∉ s → 0%N ∉ encode s.
Proof.
  induction s as [|c s IH]; [done|]. rewrite encode_cons, not_elem_of_cons, not_elem_of_app. intros [Hc Hs]. split; [|auto].
  unfold encode_char. repeat case_match; rewrite !not_elem_of_cons; split_and?; try apply not_elem_of_nil; try done.
  all: intros E; symmetry in E; apply N.eq_add_0 in E as [E _]; discriminate E.
Qed.

Lemma encode_nil_inv s : encode s = [] → s = [].
Proof.
  destruct s as [|c s]; [done|]. rewrite encode_cons. intros [H _]%app_nil. pose proof (encode_char_nonempty c) as L.
  rewrite H in L. cbn in L. lia.
Qed.

Lemma encode_ascii c s : (c < 128)%N → encode (c :: s) = c :: encode s.
Proof. intros H. rewrite encode_cons. unfold encode_char. by rewrite (proj2 (N.ltb_lt c 128) H). Qed.

Lemma valid_path_chars p : validate_relative_path p = Ok tt → p ≠ [] ∧ 0%N ∉ p.
Proof.
  unfold validate_relative_path. destruct (seqb p []) eqn:E; [done|]. apply seqb_neq in E. cbn [orb].
  destruct (existsb (N.eqb 0) p) eqn:E0; [done|]. intros _. split; [done|]. intros H.
  rewrite (proj2 (existsb_exists _ _)) in E0; [done|]. exists 0%N. split; [by apply list_elem_of_In|done].
Qed.

Lemma parse_record_shown e : printable e → parse_porcelain_record (encode (letters_of e ++ [32%N] ++ shown_path e)) = Ok (change_of e).
Proof.
  intros (Ha & Hb & Hp & Hs & _). destruct e as [[a b] p o]. unfold letters_of in *. cbn [letters shown_path fst snd app] in *.
  unfold parse_porcelain_record. rewrite from_utf8_encode by (repeat (constructor; [unfold is_scalar; lia|]); exact Hs).
  rewrite !encode_ascii by lia. destruct (valid_path_chars p Hp) as [Hne _].
  destruct (encode p) as [|x bytes] eqn:E; [by apply encode_nil_inv in E|]. cbn [length Nat.ltb Nat.leb orb lookup list_lookup].
  rewrite bool_decide_true by done. cbn [negb take drop]. rewrite <- E, from_utf8_encode by done.
  change [a; b] with (a :: b :: encode []). rewrite <- !encode_ascii, from_utf8_encode by (lia || (repeat (constructor; [unfold is_scalar; lia|]); constructor)).
  by rewrite Hp.
Qed.

Lemma nul_records_shown e bytes : printable e →
  nul_records (show_porcelain e ++ bytes) =
  encode (letters_of e ++ [32%N] ++ shown_path e) :: match origin e with Some o => [encode o] | None => [] end ++ nul_records bytes.
Proof.
  intros (Ha & Hb & Hp & Hs & Ho). unfold show_porcelain. rewrite <- !app_assoc. cbn [app].
  destruct (valid_path_chars _ Hp) as [_ H0]. rewrite nul_records_cons.
  - f_equal. destruct (origin e) as [o|]; [|done]. destruct Ho as (_ & Hne & Hn & _). rewrite <- app_assoc. cbn [app].
    apply nul_records_cons; [|by apply encode_no_nul]. intros E%encode_nil_inv. done.
  - intros E%encode_nil_inv. done.
  - apply encode_no_nul. cbn. rewrite !not_elem_of_cons. split_and!; [lia|lia|done|done].
Qed.

Lemma parse_shown es changes : Forall printable es →
  parse_records (nul_records (concat (map show_porcelain es))) changes = Ok (foldl (fun cs e => insert_change (change_of e) cs) changes es).
Proof.
  intros H. revert changes. induction H as [|e es He Hes IH]; intros changes; [done|].
  cbn [map concat foldl]. rewrite nul_records_shown by done. cbn [parse_records]. rewrite parse_record_shown by done. cbn [rbind].
  destruct He as (_ & _ & _ & _ & Ho). cbn [change_of change_status].
  destruct (origin e) as [o|]; [destruct Ho as (-> & _)|rewrite Ho]; apply IH.
Qed.

(** The order of a [BTreeMap]. *)
Definition path_lt (a b : FileChange) : Prop := str_leb (change_path a) (change_path b) = true ∧ change_path a ≠ change_path b.

Lemma insert_change_sorted c cs : StronglySorted path_lt cs → StronglySorted path_lt (insert_change c cs) ∧
  ∀ d, path_lt d c → Forall (path_lt d) cs → Forall (path_lt d) (insert_change c cs).
Proof.
  induction 1 as [|d cs Hs [IH1 IH2] Hd]; cbn [insert_change].
  { split; [apply SSorted_cons; constructor|]. intros d Hd _. by constructor. }
  destruct (seqb (change_path c) (change_path d)) eqn:E.
  { apply seqb_eq in E. unfold path_lt in *. rewrite <- E in Hd. split; [by constructor|].
    intros x Hx [_ Hc]%Forall_cons. by constructor. }
  apply seqb_neq in E. destruct (str_leb (change_path c) (change_path d)) eqn:L.
  - split; [|by constructor]. constructor; [by constructor|]. constructor; [done|]. eapply Forall_impl; [exact Hd|].
    intros x [L' N]. split; [by eapply str_leb_trans|]. intros E'. apply N. apply str_leb_antisym; [done|]. by rewrite <- E'.
  - assert (path_lt d c) as Hdc by (split; [|congruence]; pose proof (str_leb_total (change_path c) (change_path d)); rewrite L in *; naive_solver).
    split; [constructor; [done|by apply IH2]|]. intros x Hx [Hxd Hxs]%Forall_cons. constructor; [done|by apply IH2].
Qed.

Lemma insert_change_perm c cs : change_path c ∉ map change_path cs → insert_change c cs ≡ₚ c :: cs.
Proof.
  induction cs as [|d cs IH]; [done|]. cbn [map insert_change]. rewrite not_elem_of_cons. intros [Hd Hc].
  rewrite (proj2 (seqb_neq _ _) Hd). case_match; [done|]. rewrite IH by done. apply Permutation_swap.
Qed.

Lemma insert_all_perm es cs : NoDup (map change_path (cs ++ map change_of es)) →
  foldl (fun cs e => insert_change (change_of e) cs) cs es ≡ₚ cs ++ map change_of es.
Proof.
  revert cs. induction es as [|e es IH]; intros cs; cbn [map foldl]; [by rewrite app_nil_r|].
  rewrite <- Permutation_middle. intros Hnd. cbn [map] in Hnd. pose proof Hnd as [Hn Hnd']%NoDup_cons.
  rewrite map_app, not_elem_of_app in Hn. rewrite IH; rewrite insert_change_perm by apply Hn; [done|exact Hnd].
Qed.

(** What [git status --porcelain=v1 -z] prints is read back: if the changes that git lists
    have different valid paths (a renamed or copied one followed by where it comes from),
    the parser succeeds, and returns those changes, each with its two letters, and no
    others, in the order of their paths. *)
Theorem porcelain_round_trip es : Forall printable es → NoDup (map shown_path es) →
  ∃ changes, parse_porcelain (concat (map show_porcelain es)) = Ok changes ∧ changes ≡ₚ map change_of es ∧ StronglySorted path_lt changes.
Proof.
  intros He Hnd. eexists. split_and!; [by apply parse_shown| |].
  - rewrite insert_all_perm; [done|]. cbn [app]. by rewrite map_map.
  - clear. assert (StronglySorted path_lt []) as H by constructor. revert H. generalize (@nil FileChange) as cs.
    induction es as [|e es IH]; intros cs H; cbn [foldl]; [done|]. apply IH, insert_change_sorted, H.
Qed.

Lemma porcelain_round_trip_witness :
  let es := [mkPorcelain (82%N, 32%N) (lit "src/b.rs") (Some (lit "src/a b.rs")); mkPorcelain (63%N, 63%N) (lit "a.txt") None] in
  ∃ changes, parse_porcelain (concat (map show_porcelain es)) = Ok changes ∧ changes ≡ₚ map change_of es ∧ StronglySorted path_lt changes.
Proof.
  apply porcelain_round_trip.
  - repeat constructor; try done; try (by intros H; vm_compute in H; set_solver).
    all: try (by apply (bool_decide_unpack _); vm_compute).
  - by apply (bool_decide_unpack _); vm_compute.
Defined.

(** ** Boundary cases *)

(** The byte order mark is trimmed, but the cut at the untrimmed length then fails and the
    untrimmed text is used: a short SVG that starts with the mark is refused. *)
Example svg_with_mark_refused :
  is_svg_document (encode (lit "<svg/>")) = true ∧ is_svg_document (encode (BOM :: lit "<svg/>")) = false.
Proof. by split; vm_compute. Qed.

(** The name of the remote, which the configuration of the workspace decides, is taken as git
    prints it and stands where git looks for options. *)
Example remote_name_is_an_option :
  upstream_of (trimmed_fields (lit "--upload-pack=x" ++ [0%N] ++ lit "refs/heads/a")) = (lit "--upload-pack=x", Some (lit "refs/heads/a")).
Proof. by vm_compute. Qed.
