(* ===== verification/ShellTree.v ===== *)
(** * Shell scripts

    [codex-rs/shell-command/src/bash.rs] and [detect_shell_type] of [shell_detect.rs].
    The grammar is third-party: a tree is what the accessors of [tree_sitter::Node] tell
    about it, and the parser is a parameter.  The walks keep the explicit stack of the
    code; their fuel is the number of nodes. *)

From S2P Require Import Prelude RustStr RustPath.

(** ** Syntax trees *)

(** [Node]: [kind], [is_named], [start_byte], [has_error], [utf8_text] on the source it
    was parsed from, and [children]. *)
Inductive Node := mkNode {
  node_kind : str;
  node_named : bool;
  node_start : N;
  node_has_error : bool;
  node_text : option str;
  node_children : list Node
}.

Definition named_children (n : Node) : list Node := List.filter node_named (node_children n).
Definition has_kind (n : Node) (k : str) : bool := seqb (node_kind n) k.
Definition kind_in (n : Node) (ks : list str) : bool := existsb (has_kind n) ks.

Fixpoint node_size (n : Node) : nat :=
  match n with mkNode _ _ _ _ _ children => S (sum_list (map node_size children)) end.

(** The [while let Some(node) = stack.pop()] loops: the top of the stack is the head of
    the list, [visit] may return early. *)
Fixpoint stack_walk {A R} (next : Node → list Node) (visit : A → Node → result A R) (fuel : nat)
    (stack : list Node) (acc : A) : option (result A R) :=
  match stack with
  | [] => Some (Ok acc)
  | node :: stack =>
      match fuel with
      | O => None
      | S fuel =>
          match visit acc node with
          | Err r => Some (Err r)
          | Ok acc => stack_walk next visit fuel (rev (next node) ++ stack) acc
          end
      end
  end.

Definition walk {A R} (next : Node → list Node) (visit : A → Node → result A R) (root : Node) (acc : A) :
    option (result A R) := stack_walk next visit (node_size root) [root] acc.

(** ** Words *)

Definition is_literal_word_or_number (n : Node) : bool :=
  if kind_in n [lit "word"; lit "number"] then match named_children n with [] => true | _ => false end else false.

Definition double_quote : str := [34%N].
Definition single_quote : str := [39%N].

Definition parse_double_quoted_string (n : Node) : option str :=
  if negb (has_kind n (lit "string")) then None
  else if negb (forallb (fun part => has_kind part (lit "string_content")) (named_children n)) then None
  else
    raw ← node_text n;
    text ← strip_prefix double_quote raw;
    strip_suffix double_quote text.

Definition parse_raw_string (n : Node) : option str :=
  if negb (has_kind n (lit "raw_string")) then None
  else
    raw_string ← node_text n;
    s ← strip_prefix single_quote raw_string;
    strip_suffix single_quote s.

(** A part of a concatenation such as [-g"*.py"]. *)
Definition plain_part (part : Node) : option str :=
  if kind_in part [lit "word"; lit "number"] then node_text part
  else if has_kind part (lit "string") then parse_double_quoted_string part
  else if has_kind part (lit "raw_string") then parse_raw_string part
  else None.

Definition plain_word (child : Node) : option str :=
  if has_kind child (lit "command_name") then
    word_node ← head (named_children child);
    if has_kind word_node (lit "word") then node_text word_node else None
  else if kind_in child [lit "word"; lit "number"] then node_text child
  else if has_kind child (lit "string") then parse_double_quoted_string child
  else if has_kind child (lit "raw_string") then parse_raw_string child
  else if has_kind child (lit "concatenation") then
    parts ← mapM plain_part (named_children child);
    if seqb (concat parts) [] then None else Some (concat parts)
  else None.

Definition parse_plain_command_from_node (cmd : Node) : option (list str) :=
  if negb (has_kind cmd (lit "command")) then None else mapM plain_word (named_children cmd).

Fixpoint parse_literal_shell_word (n : Node) : option str :=
  if is_literal_word_or_number n then node_text n
  else if has_kind n (lit "string") then parse_double_quoted_string n
  else if has_kind n (lit "raw_string") then parse_raw_string n
  else if has_kind n (lit "concatenation") then
    match n with
    | mkNode _ _ _ _ _ children =>
        concatenated ← (fix parts (l : list Node) : option str :=
          match l with
          | [] => Some []
          | part :: l =>
              if node_named part then
                w ← parse_literal_shell_word part;
                rest ← parts l;
                Some (w ++ rest)
              else parts l
          end) children;
        if seqb concatenated [] then None else Some concatenated
    end
  else None.

(** The words from the command name on; dynamic words are left out. *)
Fixpoint literal_words (found_command_name : bool) (children : list Node) : option (bool * list str) :=
  match children with
  | [] => Some (found_command_name, [])
  | child :: children =>
      if has_kind child (lit "command_name") then
        name_node ← head (named_children child);
        command_name ← parse_literal_shell_word name_node;
        '(found, words) ← literal_words true children;
        Some (found, command_name :: words)
      else
        '(found, words) ← literal_words found_command_name children;
        Some (found, match (if found_command_name then parse_literal_shell_word child else None) with
                     | Some word => word :: words
                     | None => words
                     end)
  end.

Definition parse_literal_command_from_node (cmd : Node) : option (list str) :=
  if negb (has_kind cmd (lit "command")) then None
  else
    '(found_command_name, words) ← literal_words false (named_children cmd);
    if found_command_name : bool then Some words else None.

Definition is_allowed_heredoc_attachment_kind (n : Node) : bool :=
  kind_in n [lit "heredoc_body"; lit "simple_heredoc_body"; lit "heredoc_redirect"; lit "herestring_redirect";
             lit "redirected_statement"].

Definition heredoc_word (child : Node) : option (list str) :=
  if has_kind child (lit "command_name") then
    word_node ← head (named_children child);
    if is_literal_word_or_number word_node then text ← node_text word_node; Some [text] else None
  else if kind_in child [lit "word"; lit "number"] then
    if is_literal_word_or_number child then text ← node_text child; Some [text] else None
  else if has_kind child (lit "comment") || is_allowed_heredoc_attachment_kind child then Some []
  else None.

Definition parse_heredoc_command_words (cmd : Node) : option (list str) :=
  if negb (has_kind cmd (lit "command")) then None
  else
    words ← mapM heredoc_word (named_children cmd);
    match concat words with [] => None | words => Some words end.

(** ** Scripts *)

Definition ALLOWED_KINDS : list str :=
  [lit "program"; lit "list"; lit "pipeline"; lit "command"; lit "command_name"; lit "word"; lit "string";
   lit "string_content"; lit "raw_string"; lit "number"; lit "concatenation"].

Definition ALLOWED_PUNCT_TOKENS : list str :=
  [lit "&&"; lit "||"; lit ";"; lit "|"; double_quote; single_quote].

Definition is_operator_char (c : char) : bool := existsb (N.eqb c) (lit "&;|").

Definition visit_word_only (command_nodes : list Node) (node : Node) : result (list Node) unit :=
  if node_named node then
    if negb (kind_in node ALLOWED_KINDS) then Err tt
    else if has_kind node (lit "command") then Ok (command_nodes ++ [node])
    else Ok command_nodes
  else
    if existsb is_operator_char (node_kind node) && negb (kind_in node ALLOWED_PUNCT_TOKENS) then Err tt
    else if negb (kind_in node ALLOWED_PUNCT_TOKENS || seqb (trim (node_kind node)) []) then Err tt
    else Ok command_nodes.

(** [sort_by_key(Node::start_byte)], which is stable. *)
Definition sort_by_start_byte (l : list Node) : list Node := sort_by (fun n m => node_start n <=? node_start m)%N l.

Definition try_parse_word_only_commands_sequence (root : Node) : option (list (list str)) :=
  if node_has_error root then None
  else
    match walk node_children visit_word_only root [] with
    | Some (Ok command_nodes) => mapM parse_plain_command_from_node (sort_by_start_byte command_nodes)
    | _ => None
    end.

Definition visit_literal (commands : list (list str)) (node : Node) : result (list (list str)) unit :=
  if has_kind node (lit "command") then
    match parse_literal_command_from_node node with
    | Some command => Ok (commands ++ [command])
    | None => Ok commands
    end
  else Ok commands.

Definition visit_single (single_command : option Node) (node : Node) : result (option Node) unit :=
  if has_kind node (lit "command") then
    match single_command with Some _ => Err tt | None => Ok (Some node) end
  else Ok single_command.

Definition find_single_command_node (root : Node) : option Node :=
  match walk named_children visit_single root None with
  | Some (Ok single_command) => single_command
  | _ => None
  end.

Definition visit_kind (k : str) (_ : unit) (node : Node) : result unit unit :=
  if has_kind node k then Err tt else Ok tt.

Definition has_named_descendant_kind (root : Node) (k : str) : bool :=
  match walk named_children (visit_kind k) root tt with Some (Err _) => true | _ => false end.

(** ** Shells *)

Inductive ShellType := Zsh | Bash | PowerShell | Sh | Cmd.

#[export] Instance ShellType_eq_dec : EqDecision ShellType.
Proof. solve_decision. Defined.

Definition shell_of_name (s : str) : option ShellType :=
  if seqb s (lit "zsh") then Some Zsh
  else if seqb s (lit "sh") then Some Sh
  else if seqb s (lit "cmd") then Some Cmd
  else if seqb s (lit "bash") then Some Bash
  else if seqb s (lit "pwsh") || seqb s (lit "powershell") then Some PowerShell
  else None.

(** The recursion on the file stem, which is shorter than a path it differs from. *)
Fixpoint detect_shell (fuel : nat) (shell_path : str) : option ShellType :=
  match shell_of_name shell_path with
  | Some t => Some t
  | None =>
      match fuel, path_file_stem shell_path with
      | S fuel, Some shell_name => if path_eqb shell_name shell_path then None else detect_shell fuel shell_name
      | _, _ => None
      end
  end.

Definition detect_shell_type (shell_path : str) : option ShellType := detect_shell (length shell_path) shell_path.

Definition extract_bash_command (command : list str) : option (str * str) :=
  match command with
  | [shell; flag; script] =>
      if (seqb flag (lit "-lc") || seqb flag (lit "-c")) &&
         match detect_shell_type shell with Some Zsh | Some Bash | Some Sh => true | _ => false end
      then Some (shell, script) else None
  | _ => None
  end.

(** ** The entry points *)

Section scripts.
(** [try_parse_shell]: tree-sitter with the grammar of bash. *)
Context (try_parse_shell : str → option Node).

Definition parse_shell_script_into_commands (script : str) : option (list (list str)) :=
  root ← try_parse_shell script;
  try_parse_word_only_commands_sequence root.

Definition parse_shell_lc_plain_commands (command : list str) : option (list (list str)) :=
  '(_, script) ← extract_bash_command command;
  parse_shell_script_into_commands script.

Definition parse_shell_lc_literal_commands (command : list str) : option (list (list str)) :=
  '(_, script) ← extract_bash_command command;
  root ← try_parse_shell script;
  if node_has_error root then None
  else match walk named_children visit_literal root [] with Some (Ok commands) => Some commands | _ => None end.

Definition parse_shell_lc_single_command_prefix (command : list str) : option (list str) :=
  '(_, script) ← extract_bash_command command;
  root ← try_parse_shell script;
  if node_has_error root then None
  else if negb (has_named_descendant_kind root (lit "heredoc_redirect")) then None
  else if has_named_descendant_kind root (lit "file_redirect") then None
  else
    command_node ← find_single_command_node root;
    parse_heredoc_command_words command_node.
End scripts.
