(* ===== verification/ShellTreeFacts.v ===== *)
(** * What the walks over a script find

    The stack loops visit each node inside the root once and end within their fuel; a
    script that is accepted as a sequence of plain commands holds allowed nodes only, and
    every command in it is returned, in the order of the source. *)

From S2P Require Import Prelude RustStr RustPath ShellTree.

(** ** Walks *)

(** The nodes in the order in which a walk pops them. *)
Fixpoint visits (next : Node → list Node) (fuel : nat) (stack : list Node) : list Node :=
  match stack, fuel with
  | node :: stack, S fuel => node :: visits next fuel (rev (next node) ++ stack)
  | _, _ => []
  end.

Definition visited (next : Node → list Node) (root : Node) : list Node := visits next (node_size root) [root].

Definition stack_size (l : list Node) : nat := sum_list (map node_size l).

(** What is inside a node. *)
Inductive inside (next : Node → list Node) : Node → Node → Prop :=
| inside_refl n : inside next n n
| inside_step n m d : m ∈ next n → inside next m d → inside next n d.
#[export] Hint Constructors inside : codex.

Class Descends (next : Node → list Node) := descends n : (S (stack_size (next n)) <= node_size n)%nat.

Lemma elem_of_rev {A} (x : A) l : x ∈ rev l ↔ x ∈ l.
Proof. by rewrite !list_elem_of_In, <- in_rev. Qed.

Lemma stack_size_app l1 l2 : stack_size (l1 ++ l2) = (stack_size l1 + stack_size l2)%nat.
Proof. unfold stack_size. rewrite map_app. induction (map node_size l1); simpl; lia. Qed.

Lemma stack_size_rev l : stack_size (rev l) = stack_size l.
Proof. induction l as [|n l IH]; [done|]. simpl. rewrite stack_size_app, IH. unfold stack_size. simpl. lia. Qed.

#[export] Instance descends_children : Descends node_children.
Proof. intros []. done. Qed.

#[export] Instance descends_named : Descends named_children.
Proof.
  intros [k nm s e t children]. unfold named_children, stack_size. simpl. apply le_n_S.
  induction children as [|c l IH]; simpl; [done|]. destruct (node_named c); simpl; lia.
Qed.

Section walks.
Context (next : Node → list Node) `{!Descends next}.

Lemma pushed_size n stack fuel :
  (stack_size (n :: stack) <= S fuel)%nat → (stack_size (rev (next n) ++ stack) <= fuel)%nat.
Proof.
  intros H. rewrite stack_size_app, stack_size_rev. pose proof (descends n).
  unfold stack_size in *. simpl in H. lia.
Qed.

(** A walk is a loop over the visited nodes, and its fuel is enough. *)
Lemma stack_walk_visits {A R} (visit : A → Node → result A R) fuel stack acc :
  (stack_size stack <= fuel)%nat →
  stack_walk next visit fuel stack acc = Some (try_fold visit acc (visits next fuel stack)).
Proof.
  revert stack acc. induction fuel as [|fuel IH]; intros [|n stack] acc H; simpl; try done.
  - pose proof (descends n). unfold stack_size in H. simpl in H. lia.
  - destruct (visit acc n) as [acc'|r]; simpl; [|done]. apply IH. by apply pushed_size.
Qed.

Lemma walk_visited {A R} (visit : A → Node → result A R) root acc :
  walk next visit root acc = Some (try_fold visit acc (visited next root)).
Proof. apply stack_walk_visits. unfold stack_size. simpl. lia. Qed.

Lemma elem_visits fuel stack d :
  (stack_size stack <= fuel)%nat → d ∈ visits next fuel stack ↔ ∃ n, n ∈ stack ∧ inside next n d.
Proof.
  revert stack. induction fuel as [|fuel IH]; intros [|n stack] H; simpl.
  - set_solver.
  - pose proof (descends n). unfold stack_size in H. simpl in H. lia.
  - set_solver.
  - rewrite elem_of_cons, IH by (by apply pushed_size). split.
    + intros [->|(m & [Hm|Hm]%elem_of_app & Hd)].
      * exists n. split; [set_solver|constructor].
      * exists n. split; [set_solver|]. apply (inside_step _ _ m); [by apply elem_of_rev|done].
      * set_solver.
    + intros (m & [->|Hm]%elem_of_cons & Hd); [|right; set_solver].
      destruct Hd as [|n m d Hm Hd]; [by left|right].
      exists m. split; [|done]. apply elem_of_app. left. by apply elem_of_rev.
Qed.

Lemma elem_visited root d : d ∈ visited next root ↔ inside next root d.
Proof.
  unfold visited. rewrite elem_visits by (unfold stack_size; simpl; lia). set_solver.
Qed.
End walks.

(** ** Scripts of plain commands *)

Definition allowed_node (n : Node) : Prop :=
  if node_named n then kind_in n ALLOWED_KINDS = true
  else kind_in n ALLOWED_PUNCT_TOKENS = true ∨
       (existsb is_operator_char (node_kind n) = false ∧ trim (node_kind n) = []).

Definition is_command (n : Node) : bool := node_named n && has_kind n (lit "command").

Lemma word_only_ok l acc nodes :
  try_fold visit_word_only acc l = Ok nodes ↔ Forall allowed_node l ∧ nodes = acc ++ List.filter is_command l.
Proof.
  revert acc. induction l as [|n l IH]; intros acc; cbn [try_fold List.filter].
  { rewrite app_nil_r. split; [by intros [= ->]|]. by intros [_ ->]. }
  rewrite Forall_cons. unfold visit_word_only at 1, allowed_node at 1, is_command at 1.
  destruct (node_named n); cbn [andb].
  - destruct (kind_in n ALLOWED_KINDS); cbn [negb rbind]; [|split; [done|by intros [[? _] _]]].
    destruct (has_kind n (lit "command")); cbn [rbind]; rewrite IH, <- ?app_assoc; naive_solver.
  - destruct (existsb is_operator_char (node_kind n)), (kind_in n ALLOWED_PUNCT_TOKENS); cbn [andb orb negb rbind];
      try (rewrite IH; naive_solver).
    + split; [done|]. by intros [[[?|[? ?]] _] _].
    + destruct (seqb (trim (node_kind n)) []) eqn:E; cbn [negb rbind].
      * apply seqb_eq in E. rewrite IH. naive_solver.
      * apply seqb_neq in E. split; [done|]. by intros [[[?|[? ?]] _] _].
Qed.

Definition starts_before (a b : Node) : Prop := (node_start a <= node_start b)%N.

Lemma sort_by_start_byte_sorted l : StronglySorted starts_before (sort_by_start_byte l).
Proof.
  apply sort_by_sorted; unfold starts_before; [intros ???; lia|intros ??; apply N.leb_le|].
  intros x y H%N.leb_gt. lia.
Qed.

(** A script that is read as plain commands: nothing but allowed nodes, and the words of
    every command node in the order of their positions. *)
Lemma word_only_spec root cmds :
  try_parse_word_only_commands_sequence root = Some cmds →
  node_has_error root = false ∧
  (∀ d, inside node_children root d → allowed_node d) ∧
  ∃ nodes, StronglySorted starts_before nodes ∧
    nodes ≡ₚ List.filter is_command (visited node_children root) ∧
    mapM parse_plain_command_from_node nodes = Some cmds.
Proof.
  unfold try_parse_word_only_commands_sequence. destruct (node_has_error root); [done|].
  rewrite walk_visited by apply _.
  destruct (try_fold visit_word_only [] (visited node_children root)) as [nodes|] eqn:E; [|done].
  apply word_only_ok in E as [Hall ->]. intros Hm. split; [done|]. split.
  - intros d Hd. rewrite Forall_forall in Hall. apply Hall. by apply elem_visited; [apply _|].
  - exists (sort_by_start_byte (List.filter is_command (visited node_children root))).
    split; [apply sort_by_start_byte_sorted|]. split; [apply sort_by_perm|done].
Qed.
