(* ===== verification/CommandSafety.v ===== *)
(** * Which commands are harmless and which are dangerous

    [codex-rs/shell-command/src/command_safety/is_safe_command.rs] and
    [is_dangerous_command.rs], outside Windows.  Whether the target is Linux is a
    parameter of the safe list. *)

From S2P Require Import Prelude RustStr RustPath ShellTree.

(** [Iterator::find_map]. *)
Definition find_map {A B} (f : A → option B) (l : list A) : option B := head (omap f l).

Definition contains_str (s : str) (l : list str) : bool := existsb (seqb s) l.

Definition executable_name_lookup_key (raw : str) : option str := path_file_name raw.

(** ** Git *)

Definition is_git_global_option_with_value (arg : str) : bool :=
  contains_str arg [lit "-C"; lit "-c"; lit "--config-env"; lit "--exec-path"; lit "--git-dir"; lit "--namespace";
                    lit "--super-prefix"; lit "--work-tree"].

Definition is_git_global_option_with_inline_value (arg : str) : bool :=
  existsb (fun p => starts_with p arg)
    [lit "--config-env="; lit "--exec-path="; lit "--git-dir="; lit "--namespace="; lit "--super-prefix=";
     lit "--work-tree="] ||
  ((starts_with (lit "-C") arg || starts_with (lit "-c") arg) && (2 <? byte_len arg)).

(** The loop over the arguments from index [idx] on. *)
Fixpoint git_subcommand_from (subcommands : list str) (skip_next : bool) (idx : nat) (args : list str) :
    option (nat * str) :=
  match args with
  | [] => None
  | arg :: args =>
      if skip_next then git_subcommand_from subcommands false (S idx) args
      else if is_git_global_option_with_inline_value arg then git_subcommand_from subcommands false (S idx) args
      else if is_git_global_option_with_value arg then git_subcommand_from subcommands true (S idx) args
      else if seqb arg (lit "--") || starts_with (lit "-") arg then git_subcommand_from subcommands false (S idx) args
      else if contains_str arg subcommands then Some (idx, arg)
      else None
  end.

Definition find_git_subcommand (command subcommands : list str) : option (nat * str) :=
  match command with
  | [] => None
  | cmd0 :: args =>
      if bool_decide (executable_name_lookup_key cmd0 = Some (lit "git"))
      then git_subcommand_from subcommands false 1 args else None
  end.

Inductive GitOptionPattern :=
| Exact (option : str)
| ShortWithInlineValue (option : str)
| Prefix (prefix : str).

Definition git_option_matches (p : GitOptionPattern) (arg : str) : bool :=
  match p with
  | Exact option => seqb arg option
  | ShortWithInlineValue option => starts_with option arg && (byte_len option <? byte_len arg)
  | Prefix prefix => starts_with prefix arg
  end.

Definition UNSAFE_GIT_GLOBAL_OPTIONS : list GitOptionPattern :=
  [Exact (lit "-C"); ShortWithInlineValue (lit "-C"); Exact (lit "-c"); ShortWithInlineValue (lit "-c");
   Exact (lit "-p"); Exact (lit "--config-env"); Prefix (lit "--config-env="); Exact (lit "--exec-path");
   Prefix (lit "--exec-path="); Exact (lit "--git-dir"); Prefix (lit "--git-dir="); Exact (lit "--namespace");
   Prefix (lit "--namespace="); Exact (lit "--paginate"); Exact (lit "--super-prefix");
   Prefix (lit "--super-prefix="); Exact (lit "--work-tree"); Prefix (lit "--work-tree=")].

Definition UNSAFE_GIT_SUBCOMMAND_OPTIONS : list GitOptionPattern :=
  [Exact (lit "--output"); Prefix (lit "--output="); Exact (lit "--ext-diff"); Exact (lit "--textconv");
   Exact (lit "--exec"); Prefix (lit "--exec=")].

Definition git_matches_option_pattern (arg : str) (patterns : list GitOptionPattern) : bool :=
  existsb (fun p => git_option_matches p arg) patterns.

Definition git_has_unsafe_global_option (global_args : list str) : bool :=
  existsb (fun arg => git_matches_option_pattern arg UNSAFE_GIT_GLOBAL_OPTIONS) global_args.

Definition git_subcommand_args_are_read_only (args : list str) : bool :=
  negb (existsb (fun arg => git_matches_option_pattern arg UNSAFE_GIT_SUBCOMMAND_OPTIONS) args).

(** An argument after [git branch] that only asks for a listing. *)
Definition read_only_branch_flag (arg : str) : bool :=
  contains_str arg [lit "--list"; lit "-l"; lit "--show-current"; lit "-a"; lit "--all"; lit "-r"; lit "--remotes";
                    lit "-v"; lit "-vv"; lit "--verbose"] ||
  starts_with (lit "--format=") arg.

Fixpoint branch_flags_read_only (saw_read_only_flag : bool) (branch_args : list str) : bool :=
  match branch_args with
  | [] => saw_read_only_flag
  | arg :: branch_args =>
      if read_only_branch_flag arg then branch_flags_read_only true branch_args else false
  end.

Definition git_branch_is_read_only (branch_args : list str) : bool :=
  match branch_args with [] => true | _ => branch_flags_read_only false branch_args end.

Definition is_safe_git_command (command : list str) : bool :=
  match find_git_subcommand command [lit "status"; lit "log"; lit "diff"; lit "show"; lit "branch"] with
  | None => false
  | Some (subcommand_idx, subcommand) =>
      let global_args := drop 1 (take subcommand_idx command) in
      if git_has_unsafe_global_option global_args then false
      else
        let subcommand_args := drop (S subcommand_idx) command in
        if contains_str subcommand [lit "status"; lit "log"; lit "diff"; lit "show"]
        then git_subcommand_args_are_read_only subcommand_args
        else if seqb subcommand (lit "branch")
        then git_subcommand_args_are_read_only subcommand_args && git_branch_is_read_only subcommand_args
        else false
  end.

(** ** The safe list *)

Definition all_ascii_digits (s : str) : bool := negb (seqb s []) && forallb is_ascii_digit s.

(** [/^(\d+,)?\d+p$/]. *)
Definition is_valid_sed_n_arg (arg : option str) : bool :=
  match arg ≫= strip_suffix (lit "p") with
  | None => false
  | Some core =>
      match split_on 44 core with
      | [num] => all_ascii_digits num
      | [a; b] => all_ascii_digits a && all_ascii_digits b
      | _ => false
      end
  end.

Definition base64_is_safe (command : list str) : bool :=
  negb (existsb (fun arg => contains_str arg [lit "-o"; lit "--output"] || starts_with (lit "--output=") arg ||
                            (starts_with (lit "-o") arg && negb (seqb arg (lit "-o")))) (drop 1 command)).

Definition UNSAFE_FIND_OPTIONS : list str :=
  [lit "-exec"; lit "-execdir"; lit "-ok"; lit "-okdir"; lit "-delete"; lit "-fls"; lit "-fprint"; lit "-fprint0";
   lit "-fprintf"].

Definition find_is_safe (command : list str) : bool :=
  negb (existsb (fun arg => contains_str arg UNSAFE_FIND_OPTIONS) command).

Definition UNSAFE_RIPGREP_OPTIONS_WITH_ARGS : list str := [lit "--pre"; lit "--hostname-bin"].
Definition UNSAFE_RIPGREP_OPTIONS_WITHOUT_ARGS : list str := [lit "--search-zip"; lit "-z"].

Definition rg_is_safe (command : list str) : bool :=
  negb (existsb (fun arg => contains_str arg UNSAFE_RIPGREP_OPTIONS_WITHOUT_ARGS ||
                            existsb (fun opt => seqb arg opt || starts_with (opt ++ lit "=") arg)
                              UNSAFE_RIPGREP_OPTIONS_WITH_ARGS) command).

Definition sed_is_safe (command : list str) : bool :=
  (length command <=? 4) && bool_decide (command !! 1 = Some (lit "-n")) && is_valid_sed_n_arg (command !! 2).

Definition ALWAYS_SAFE : list str :=
  [lit "cat"; lit "cd"; lit "cut"; lit "echo"; lit "expr"; lit "false"; lit "grep"; lit "head"; lit "id"; lit "ls";
   lit "nl"; lit "paste"; lit "pwd"; lit "rev"; lit "seq"; lit "stat"; lit "tail"; lit "tr"; lit "true";
   lit "uname"; lit "uniq"; lit "wc"; lit "which"; lit "whoami"].

Section safety.
(** [cfg!(target_os = "linux")]; [try_parse_shell]. *)
Context (linux : bool) (try_parse_shell : str → option Node).

Definition is_safe_to_call_with_exec (command : list str) : bool :=
  match command with
  | [] => false
  | cmd0 :: _ =>
      match executable_name_lookup_key cmd0 with
      | None => false
      | Some cmd =>
          if linux && contains_str cmd [lit "numfmt"; lit "tac"] then true
          else if contains_str cmd ALWAYS_SAFE then true
          else if seqb cmd (lit "base64") then base64_is_safe command
          else if seqb cmd (lit "find") then find_is_safe command
          else if seqb cmd (lit "rg") then rg_is_safe command
          else if seqb cmd (lit "git") then is_safe_git_command command
          else if seqb cmd (lit "sed") then sed_is_safe command
          else false
      end
  end.

(** Zsh is treated as bash. *)
Definition zsh_as_bash (s : str) : str := if seqb s (lit "zsh") then lit "bash" else s.

Definition is_known_safe_command (command : list str) : bool :=
  let command := map zsh_as_bash command in
  if is_safe_to_call_with_exec command then true
  else match parse_shell_lc_plain_commands try_parse_shell command with
       | Some all_commands =>
           negb (bool_decide (all_commands = [])) && forallb is_safe_to_call_with_exec all_commands
       | None => false
       end.

(** ** Dangerous commands *)

Inductive DangerousCommandMatch := ForcedRm | OtherDanger.

Definition MAX_DANGEROUS_COMMAND_WRAPPER_DEPTH : nat := 8.

(** [take_while(|arg| arg != "--")]. *)
Fixpoint before_double_dash (args : list str) : list str :=
  match args with
  | [] => []
  | arg :: args => if seqb arg (lit "--") then [] else arg :: before_double_dash args
  end.

Definition is_force_option (arg : str) : bool :=
  seqb arg (lit "--force") ||
  match strip_prefix (lit "-") arg with
  | Some flags => negb (starts_with (lit "-") flags) && existsb (N.eqb 102) flags
  | None => false
  end.

Definition rm_args_include_force_option (args : list str) : bool := existsb is_force_option (before_double_dash args).

(** The arguments of [env] behind its options and assignments. *)
Definition skipped_by_env (argument : str) : bool :=
  contains_str argument [lit "-i"; lit "--ignore-environment"] ||
  match split_once (lit "=") argument with
  | Some (name, _) => negb (seqb name []) && negb (starts_with (lit "-") name)
  | None => false
  end.

Fixpoint after_env_options (args : list str) : list str :=
  match args with
  | [] => []
  | argument :: rest =>
      if seqb argument (lit "--") then rest
      else if skipped_by_env argument then after_env_options rest
      else args
  end.

(** The action of [trap], as the command of a shell. *)
Definition trap_action (command : list str) : option (list str) :=
  let action_index := if bool_decide (command !! 1 = Some (lit "--")) then 2 else 1 in
  action ← command !! action_index;
  if starts_with (lit "-") action then None else Some [lit "sh"; lit "-c"; action].

(** [dangerous_command_match_for_exec], with the recursive call one level deeper. *)
Definition dangerous_command_match_for_exec (deeper : list str → option DangerousCommandMatch)
    (command : list str) : option DangerousCommandMatch :=
  match command with
  | [] => None
  | cmd0 :: args =>
      match executable_name_lookup_key cmd0 with
      | None => None
      | Some cmd =>
          if seqb cmd (lit "rm") && rm_args_include_force_option args then Some ForcedRm
          else if seqb cmd (lit "sudo") then deeper args
          else if seqb cmd (lit "env") then deeper (after_env_options args)
          else if seqb cmd (lit "trap") then trap_action command ≫= deeper
          else None
      end
  end.

(** [levels] is how many levels of wrappers are left: none beyond the maximal depth. *)
Fixpoint dangerous_command_match_with_depth (levels : nat) (command : list str) : option DangerousCommandMatch :=
  match levels with
  | O => None
  | S levels =>
      match dangerous_command_match_for_exec (dangerous_command_match_with_depth levels) command with
      | Some m => Some m
      | None =>
          commands ← parse_shell_lc_literal_commands try_parse_shell command;
          find_map (dangerous_command_match_with_depth levels) commands
      end
  end.

Definition dangerous_command_match (command : list str) : option DangerousCommandMatch :=
  dangerous_command_match_with_depth (S MAX_DANGEROUS_COMMAND_WRAPPER_DEPTH) command.
End safety.
