(* ===== verification/CommandSafetyFacts.v ===== *)
(** * Harmless and dangerous commands are told apart

    A command that is taken for harmless is never one that is taken for dangerous, and the
    search for a forced removal finds it below up to eight wrappers. *)

From S2P Require Import Prelude RustStr RustPath ShellTree ShellTreeFacts CommandSafety.

#[local] Arguments lit _ : simpl never.

(** ** Names *)

(** The names that decide: those of the safe list and the four of the other one. *)
Definition SAFE_NAMES : list str :=
  [lit "numfmt"; lit "tac"; lit "base64"; lit "find"; lit "rg"; lit "git"; lit "sed"] ++ ALWAYS_SAFE.
Definition WRAPPERS : list str := [lit "rm"; lit "sudo"; lit "env"; lit "trap"].

(** A name that is no shell and has no extension. *)
Definition plain_name (name : str) : Prop := shell_of_name name = None ∧ path_file_stem name = Some name.

Lemma known_names_plain : Forall plain_name (SAFE_NAMES ++ WRAPPERS).
Proof. repeat constructor. Qed.

Lemma safe_names_no_wrapper : Forall (fun name => contains_str name WRAPPERS = false) SAFE_NAMES.
Proof. repeat constructor. Qed.

Lemma contains_str_spec s l : contains_str s l = true ↔ s ∈ l.
Proof.
  unfold contains_str. rewrite existsb_exists, list_elem_of_In. split.
  - intros (x & Hx & ->%seqb_eq). done.
  - intros Hx. exists s. by rewrite seqb_refl.
Qed.

Lemma stem_of_name s name : path_file_name s = Some name → path_file_stem name = Some name →
  path_file_name name = Some name → path_file_stem s = Some name.
Proof. unfold path_file_stem. intros Hs Hn Hnn. rewrite Hnn in Hn. by rewrite Hs. Qed.

Lemma path_eqb_refl s : path_eqb s s = true.
Proof. by apply bool_decide_eq_true. Qed.

Lemma detect_plain fuel name : plain_name name → detect_shell fuel name = None.
Proof. intros [Hs Hstem]. destruct fuel; simpl; rewrite Hs; [done|]. by rewrite Hstem, path_eqb_refl. Qed.

Lemma shell_of_name_file s t : shell_of_name s = Some t → path_file_name s = Some s.
Proof. unfold shell_of_name. repeat case_match; intros [= <-]; repeat match goal with
    | H : seqb s _ = true |- _ => apply seqb_eq in H as ->
    | H : (_ || _) = true |- _ => apply orb_true_iff in H as [H|H] end; reflexivity. Qed.

(** A program whose name is known is no shell, wherever it is. *)
Lemma named_program_no_shell s name :
  path_file_name s = Some name → name ∈ SAFE_NAMES ++ WRAPPERS → detect_shell_type s = None.
Proof.
  intros Hs Hin. pose proof known_names_plain as Hp. rewrite Forall_forall in Hp. specialize (Hp name Hin).
  destruct Hp as [H1 H2]. unfold detect_shell_type.
  assert (Hnn : path_file_name name = Some name).
  { assert (Ha : Forall (fun n => path_file_name n = Some n) (SAFE_NAMES ++ WRAPPERS)) by repeat constructor.
    rewrite Forall_forall in Ha. by apply Ha. }
  destruct (shell_of_name s) as [t|] eqn:Es.
  { apply shell_of_name_file in Es as E. rewrite Hs in E. injection E as ->. congruence. }
  destruct (length s); simpl; rewrite Es; [done|].
  rewrite (stem_of_name s name) by done. destruct (path_eqb name s); [done|]. by apply detect_plain.
Qed.

(** ** Safe commands *)

Lemma safe_key linux cmd0 args :
  is_safe_to_call_with_exec linux (cmd0 :: args) = true →
  ∃ name, executable_name_lookup_key cmd0 = Some name ∧ name ∈ SAFE_NAMES.
Proof.
  unfold is_safe_to_call_with_exec. destruct (executable_name_lookup_key cmd0) as [cmd|]; [|done].
  intros H. exists cmd. split; [done|]. unfold SAFE_NAMES.
  repeat match type of H with context [if ?b then _ else _] => destruct b eqn:? end; try done.
  all: repeat match goal with
       | E : (_ && _) = true |- _ => apply andb_true_iff in E as [_ E]
       | E : contains_str _ _ = true |- _ => apply contains_str_spec in E
       | E : seqb _ _ = true |- _ => apply seqb_eq in E as ->
       end; set_solver.
Qed.

Lemma known_name_no_script cmd0 args name :
  executable_name_lookup_key cmd0 = Some name → name ∈ SAFE_NAMES ++ WRAPPERS →
  extract_bash_command (cmd0 :: args) = None.
Proof.
  intros Hk Hin. destruct args as [|flag [|script [|]]]; try done. simpl.
  rewrite (named_program_no_shell cmd0 name) by done. by rewrite andb_false_r.
Qed.

(** ** What the grammar promises *)

Definition word_kinds : list str := [lit "word"; lit "number"; lit "string"; lit "raw_string"; lit "concatenation"].

(** In the grammar of bash the words of a command follow its name; the text of a node is
    the part of the source that it covers. *)
Class BashGrammar (try_parse_shell : str → option Node) := {
  name_before_words script root cmd l c r :
    try_parse_shell script = Some root → inside node_children root cmd → has_kind cmd (lit "command") = true →
    named_children cmd = l ++ c :: r → has_kind c (lit "command_name") = true →
    Forall (fun x => kind_in x word_kinds = false) l;
  text_of_source script root n t :
    try_parse_shell script = Some root → inside node_children root n → node_text n = Some t →
    ∃ a b, script = a ++ t ++ b;
}.

(** ** Words of one command *)

Lemma has_kind_eq n k : has_kind n k = true ↔ node_kind n = k.
Proof. apply seqb_eq. Qed.

Lemma plain_word_kind n w : plain_word n = Some w → has_kind n (lit "command_name") = true ∨ kind_in n word_kinds = true.
Proof.
  unfold plain_word, word_kinds, kind_in. cbn [existsb].
  destruct (has_kind n (lit "command_name")); [by left|].
  destruct (has_kind n (lit "word")), (has_kind n (lit "number")), (has_kind n (lit "string")),
    (has_kind n (lit "raw_string")), (has_kind n (lit "concatenation")); simpl; auto; done.
Qed.

Lemma literal_found found children lw :
  literal_words found children = Some (true, lw) →
  found = true ∨ ∃ l c r, children = l ++ c :: r ∧ has_kind c (lit "command_name") = true ∧
    Forall (fun x => has_kind x (lit "command_name") = false) l.
Proof.
  revert found lw. induction children as [|x children IH]; intros found lw; cbn [literal_words].
  { intros [= -> _]. by left. }
  destruct (has_kind x (lit "command_name")) eqn:Hx.
  { intros _. right. exists [], x, children. done. }
  destruct (literal_words found children) as [[f ws]|] eqn:E; [|done]. cbn. intros [= -> _].
  apply IH in E as [->|(l & c & r & -> & Hc & Hl)]; [by left|right].
  exists (x :: l), c, r. split_and!; [done|done|by constructor].
Qed.

Lemma literal_word_node n w : has_kind n (lit "word") = true → parse_literal_shell_word n = Some w → node_text n = Some w.
Proof.
  intros Hk. apply has_kind_eq in Hk. destruct n as [k nm st e t ch]. cbn in Hk. subst k.
  cbn [parse_literal_shell_word]. unfold is_literal_word_or_number.
  destruct (kind_in _ _); [|done]. destruct (named_children _); [by intros|]. done.
Qed.

Section safe.
Context (linux : bool) (try_parse_shell : str → option Node) `{!BashGrammar try_parse_shell}.

(** The literal words of a plain command start with its first word. *)
Lemma literal_starts_plain script root cmd words lw :
  try_parse_shell script = Some root → inside node_children root cmd →
  parse_plain_command_from_node cmd = Some words → parse_literal_command_from_node cmd = Some lw →
  ∃ w, head words = Some w ∧ head lw = Some w.
Proof.
  intros Hp Hb. unfold parse_plain_command_from_node, parse_literal_command_from_node.
  destruct (has_kind cmd (lit "command")) eqn:Hk; [|done]. cbn [negb]. intros Hw Hl.
  destruct (literal_words false (named_children cmd)) as [[[] lw']|] eqn:El; [|done|done].
  cbn in Hl. injection Hl as ->.
  destruct (literal_found _ _ _ El) as [?|(l & c & r & Hch & Hc & Hl)]; [done|].
  pose proof (name_before_words script root cmd l c r Hp Hb Hk Hch Hc) as Hno.
  rewrite Hch in Hw, El.
  destruct l as [|x l].
  2: { exfalso. apply Forall_cons in Hno as [Hx _], Hl as [Hn _].
       apply mapM_Some in Hw. inversion Hw as [|? w ? ws Hxw]; subst.
       apply plain_word_kind in Hxw as [|]; congruence. }
  cbn [app] in Hw, El. cbn [literal_words] in El. rewrite Hc in El.
  apply mapM_Some in Hw. inversion Hw as [|? w ? ws Hxw]; subst.
  unfold plain_word in Hxw. rewrite Hc in Hxw.
  destruct (head (named_children c)) as [nm|]; [|done]. cbn in Hxw, El.
  destruct (has_kind nm (lit "word")) eqn:Hnm; [|done].
  destruct (parse_literal_shell_word nm) as [w'|] eqn:Ew; [|done]. cbn in El.
  destruct (literal_words true r) as [[f rest]|]; [|done]. cbn in El. injection El as -> <-.
  apply literal_word_node in Ew; [|done]. rewrite Ew in Hxw. injection Hxw as ->. by exists w.
Qed.

Lemma inside_named root d : inside named_children root d → inside node_children root d.
Proof.
  induction 1 as [|n m d Hm Hd IH]; [constructor|]. apply (inside_step _ _ m); [|done].
  unfold named_children in Hm. rewrite list_elem_of_In in *. by apply filter_In in Hm as [? _].
Qed.

Lemma literal_walk l acc :
  try_fold visit_literal acc l = Ok (acc ++ omap parse_literal_command_from_node l).
Proof.
  revert acc. induction l as [|n l IH]; intros acc; cbn [try_fold omap list_omap]; [by rewrite app_nil_r|].
  unfold visit_literal at 1. unfold parse_literal_command_from_node at 2.
  destruct (has_kind n (lit "command")) eqn:Hk; cbn [negb rbind]; [|by rewrite IH].
  unfold parse_literal_command_from_node at 1. rewrite Hk. cbn [negb].
  destruct (literal_words false (named_children n) ≫= _); cbn [rbind]; rewrite IH, <- ?app_assoc; done.
Qed.

Lemma allowed_command d : allowed_node d → has_kind d (lit "command") = true → is_command d = true.
Proof.
  unfold allowed_node, is_command. intros H Hk. rewrite Hk, andb_true_r. destruct (node_named d); [done|].
  apply has_kind_eq in Hk. unfold kind_in, has_kind in H. rewrite Hk in H. by destruct H as [?|[_ ?]].
Qed.

(** A program of the safe list is not dangerous, whatever its arguments. *)
Lemma safe_name_not_dangerous levels cmd0 args name :
  executable_name_lookup_key cmd0 = Some name → name ∈ SAFE_NAMES →
  dangerous_command_match_with_depth try_parse_shell levels (cmd0 :: args) = None.
Proof.
  intros Hk Hin. destruct levels as [|levels]; [done|]. cbn [dangerous_command_match_with_depth].
  unfold parse_shell_lc_literal_commands. rewrite (known_name_no_script cmd0 args name) by set_solver. cbn.
  unfold dangerous_command_match_for_exec. rewrite Hk.
  pose proof safe_names_no_wrapper as Hw. rewrite Forall_forall in Hw. specialize (Hw name Hin).
  unfold contains_str, WRAPPERS in Hw. cbn [existsb] in Hw. repeat apply orb_false_iff in Hw as [? Hw].
  destruct (seqb name (lit "rm")), (seqb name (lit "sudo")), (seqb name (lit "env")), (seqb name (lit "trap"));
    done.
Qed.

(** If the plain commands of a script are safe, none of its literal commands is dangerous. *)
Lemma safe_script_not_dangerous levels script root cmds d lw :
  try_parse_shell script = Some root → try_parse_word_only_commands_sequence root = Some cmds →
  forallb (is_safe_to_call_with_exec linux) cmds = true →
  inside named_children root d → parse_literal_command_from_node d = Some lw →
  dangerous_command_match_with_depth try_parse_shell levels lw = None.
Proof.
  intros Hp (_ & Hall & nodes & _ & Hnodes & Hm)%word_only_spec Hsafe Hd%inside_named Hl.
  assert (Hk : has_kind d (lit "command") = true).
  { unfold parse_literal_command_from_node in Hl. by destruct (has_kind d (lit "command")). }
  assert (Hin : d ∈ nodes).
  { rewrite Hnodes, list_elem_of_In, filter_In, <- list_elem_of_In. split; [by apply elem_visited; [apply _|]|].
    by apply allowed_command; [apply Hall|]. }
  apply mapM_Some in Hm. destruct (proj1 (list_elem_of_lookup _ _) Hin) as [i Hi].
  destruct (Forall2_lookup_l _ _ _ _ _ Hm Hi) as (words & Hw & Hplain).
  destruct (literal_starts_plain _ _ _ _ _ Hp Hd Hplain Hl) as (w & Hhw & Hhl).
  rewrite forallb_forall in Hsafe. specialize (Hsafe words).
  rewrite <- list_elem_of_In in Hsafe. apply list_elem_of_lookup_2 in Hw. specialize (Hsafe Hw).
  destruct words as [|w1 args]; [done|]. destruct lw as [|w2 args']; [done|].
  injection Hhw as ->. injection Hhl as ->. apply safe_key in Hsafe as (name & Hk' & Hin').
  by apply (safe_name_not_dangerous levels w args' name).
Qed.

(** *** Zsh is read as bash: a script that is just this word holds no safe command *)

Lemma inside_child root n m : inside node_children root n → m ∈ named_children n → inside node_children root m.
Proof.
  intros Hb Hm. induction Hb as [n|n k d Hk Hd IH]; [|apply (inside_step _ _ k); auto].
  apply inside_named. by apply (inside_step _ _ m); [|constructor].
Qed.

Lemma strip_chars p q a b w x : strip_prefix p a = Some b → strip_suffix q b = Some w → x ∈ w → x ∈ a.
Proof. intros ->%strip_prefix_Some ->%strip_suffix_Some. set_solver. Qed.

Section chars.
Context (script : str) (root : Node) (Hp : try_parse_shell script = Some root).

Lemma text_chars n t x : inside node_children root n → node_text n = Some t → x ∈ t → x ∈ script.
Proof. intros Hb Ht Hx. destruct (text_of_source _ _ _ _ Hp Hb Ht) as (a & b & ->). set_solver. Qed.

Lemma quoted_chars n w x :
  inside node_children root n → parse_double_quoted_string n = Some w ∨ parse_raw_string n = Some w →
  x ∈ w → x ∈ script.
Proof.
  unfold parse_double_quoted_string, parse_raw_string. intros Hb Hw Hx.
  destruct (node_text n) as [raw|] eqn:Et; [|by destruct Hw as [Hw|Hw]; repeat (destruct (negb _); [done|])].
  assert (∃ p q b, strip_prefix p raw = Some b ∧ strip_suffix q b = Some w) as (p & q & b & H1 & H2).
  { destruct Hw as [Hw|Hw]; repeat (destruct (negb _); [done|]); cbn [mbind option_bind] in Hw;
      apply bind_Some in Hw as (b & H1 & H2); do 3 eexists; split; eassumption. }
  apply (text_chars n raw); [done|done|]. by apply (strip_chars p q raw b w).
Qed.

Lemma part_chars n w x : inside node_children root n → plain_part n = Some w → x ∈ w → x ∈ script.
Proof.
  unfold plain_part. intros Hb Hw Hx. repeat case_match; try done;
    [by apply (text_chars n w)|apply (quoted_chars n w); auto|apply (quoted_chars n w); auto].
Qed.

Lemma word_chars n w x : inside node_children root n → plain_word n = Some w → x ∈ w → x ∈ script.
Proof.
  unfold plain_word. intros Hb Hw Hx.
  destruct (has_kind n (lit "command_name")).
  { apply bind_Some in Hw as (m & Hm & Hw). destruct (has_kind m _); [|done].
    apply (text_chars m w); [|done|done]. apply (inside_child root n); [done|].
    destruct (named_children n); [done|]. injection Hm as ->. set_solver. }
  destruct (has_kind n (lit "concatenation")) eqn:Hc.
  { apply has_kind_eq in Hc. unfold kind_in, has_kind in Hw. rewrite Hc in Hw. cbn in Hw.
    apply bind_Some in Hw as (parts & Hm & Hw). destruct (seqb _ _); [done|]. injection Hw as <-.
    apply list_elem_of_In, in_concat in Hx as (part & Hpart & Hx). rewrite <- !list_elem_of_In in *.
    apply mapM_Some in Hm. apply list_elem_of_lookup in Hpart as [i Hi].
    destruct (Forall2_lookup_r _ _ _ _ _ Hm Hi) as (m & Hmi & Hpm).
    apply (part_chars m part); [|done|done]. apply (inside_child root n); [done|].
    by eapply list_elem_of_lookup_2. }
  repeat case_match; try done;
    [by apply (text_chars n w)|apply (quoted_chars n w); auto|apply (quoted_chars n w); auto].
Qed.
End chars.

Lemma safe_names_not_bash : Forall (fun name => ∃ x, x ∈ name ∧ x ∉ lit "bash") SAFE_NAMES.
Proof.
  assert (forallb (fun name => existsb (fun x => negb (existsb (N.eqb x) (lit "bash"))) name) SAFE_NAMES = true)
    as H by reflexivity.
  apply Forall_forall. intros name Hin. rewrite forallb_forall in H. apply list_elem_of_In, H, existsb_exists in Hin
    as (x & Hx & Hn). exists x. split; [by apply list_elem_of_In|]. intros Hb. apply list_elem_of_In in Hb.
  apply negb_true_iff, not_true_iff_false in Hn. apply Hn, existsb_exists. exists x. by rewrite N.eqb_refl.
Qed.

Lemma bash_script_unsafe root cmds :
  try_parse_shell (lit "bash") = Some root → try_parse_word_only_commands_sequence root = Some cmds →
  cmds ≠ [] → forallb (is_safe_to_call_with_exec linux) cmds = false.
Proof.
  intros Hp (_ & _ & nodes & _ & Hnodes & Hm)%word_only_spec Hne. destruct cmds as [|c cmds]; [done|].
  apply not_true_iff_false. intros [Hc _]%andb_true_iff.
  apply mapM_Some in Hm. inversion Hm as [|n ? nodes' ? Hn _]; subst.
  assert (Hb : inside node_children root n).
  { assert (n ∈ n :: nodes') as Hin by set_solver.
    rewrite Hnodes, list_elem_of_In, filter_In, <- list_elem_of_In in Hin. 
    destruct Hin as [Hin _]. by apply elem_visited in Hin; [|apply _]. }
  destruct c as [|w args]; [done|]. apply safe_key in Hc as (name & Hk & Hin).
  pose proof safe_names_not_bash as Hs. rewrite Forall_forall in Hs. destruct (Hs name Hin) as (x & Hx & Hnx).
  apply Hnx. unfold parse_plain_command_from_node in Hn. destruct (negb _); [done|].
  apply mapM_Some in Hn. inversion Hn as [|m ? ms ? Hw _ Hms]; subst.
  apply (word_chars (lit "bash") root Hp m w); [|done|by apply (file_name_chars w name)].
  apply (inside_child root n); [done|]. rewrite <- Hms. set_solver.
Qed.

Lemma zsh_as_bash_safe cmd0 args :
  is_safe_to_call_with_exec linux (map zsh_as_bash (cmd0 :: args)) = true →
  ∃ name, executable_name_lookup_key cmd0 = Some name ∧ name ∈ SAFE_NAMES.
Proof.
  cbn [map]. unfold zsh_as_bash at 1. destruct (seqb cmd0 (lit "zsh")) eqn:E; [|apply safe_key].
  intros (name & Hk & Hin)%safe_key. exfalso. injection Hk as <-. by vm_compute in Hin; set_solver.
Qed.

Lemma extract_zsh_as_bash command sh script :
  extract_bash_command (map zsh_as_bash command) = Some (sh, script) →
  ∃ cmd0 flag script0, command = [cmd0; flag; script0] ∧ script = zsh_as_bash script0 ∧
    detect_shell_type cmd0 ≠ None ∧
    (script0 ≠ lit "zsh" → extract_bash_command command = Some (cmd0, script)).
Proof.
  destruct command as [|c [|f [|s [|]]]]; try done. cbn [map extract_bash_command].
  destruct (_ && _) eqn:E; [|done]. intros [= <- <-]. apply andb_true_iff in E as [Ef Ed].
  assert (zsh_as_bash f = f) as Hf.
  { unfold zsh_as_bash in *. destruct (seqb f (lit "zsh")) eqn:Hz; [|done]. done. }
  assert (match detect_shell_type c with Some Zsh | Some Bash | Some Sh => true | _ => false end = true) as Hd.
  { unfold zsh_as_bash in Ed. destruct (seqb c (lit "zsh")) eqn:Hz; [|done]. by apply seqb_eq in Hz as ->. }
  rewrite Hf in Ef. exists c, f, s. split_and!; [done|done|by intros E; rewrite E in Hd|].
  intros Hs. rewrite Ef, Hd. cbn [andb]. unfold zsh_as_bash.
  by rewrite (proj2 (seqb_neq s (lit "zsh")) Hs).
Qed.

Lemma find_map_None {A B} (f : A → option B) l : (∀ x, x ∈ l → f x = None) → find_map f l = None.
Proof.
  unfold find_map. induction l as [|x l IH]; intros H; [done|]. cbn [omap list_omap].
  rewrite (H x) by set_solver. apply IH. set_solver.
Qed.

(** A shell is none of the wrapping programs. *)
Lemma shell_no_wrapper deeper cmd0 args :
  detect_shell_type cmd0 ≠ None → dangerous_command_match_for_exec deeper (cmd0 :: args) = None.
Proof.
  intros Hd. unfold dangerous_command_match_for_exec.
  destruct (executable_name_lookup_key cmd0) as [name|] eqn:Hk; [|done].
  assert (Hno : name ∉ WRAPPERS).
  { intros Hin. apply Hd, (named_program_no_shell cmd0 name); [done|set_solver]. }
  assert (∀ w, w ∈ WRAPPERS → seqb name w = false) as Hw by (intros w Hin; apply seqb_neq; by intros ->).
  unfold WRAPPERS in Hw. rewrite !Hw by set_solver. done.
Qed.

Lemma safe_not_dangerous_fact command :
  is_known_safe_command linux try_parse_shell command = true →
  dangerous_command_match try_parse_shell command = None.
Proof.
  unfold is_known_safe_command, dangerous_command_match.
  destruct (is_safe_to_call_with_exec linux (map zsh_as_bash command)) eqn:Hs.
  { intros _. destruct command as [|cmd0 args]; [done|].
    apply zsh_as_bash_safe in Hs as (name & Hk & Hin). by apply (safe_name_not_dangerous _ _ _ name). }
  clear Hs. unfold parse_shell_lc_plain_commands.
  destruct (extract_bash_command (map zsh_as_bash command)) as [[sh script]|] eqn:Hx; [|done].
  apply extract_zsh_as_bash in Hx as (cmd0 & flag & script0 & -> & -> & Hd & Hx).
  cbn [mbind option_bind]. unfold parse_shell_script_into_commands.
  destruct (try_parse_shell (zsh_as_bash script0)) as [root|] eqn:Hp; [|done]. cbn [mbind option_bind].
  destruct (try_parse_word_only_commands_sequence root) as [cmds|] eqn:Hc; [|done].
  intros [Hne%negb_true_iff Hall]%andb_true_iff. apply bool_decide_eq_false in Hne.
  destruct (decide (script0 = lit "zsh")) as [->|Hz].
  { rewrite (bash_script_unsafe root cmds) in Hall; done. }
  generalize MAX_DANGEROUS_COMMAND_WRAPPER_DEPTH. intros levels. cbn [dangerous_command_match_with_depth].
  rewrite shell_no_wrapper by done. unfold parse_shell_lc_literal_commands. rewrite Hx by done.
  cbn [mbind option_bind]. rewrite Hp. cbn [mbind option_bind].
  rewrite (proj1 (word_only_spec _ _ Hc)), walk_visited by apply _.
  rewrite literal_walk. cbn [app mbind option_bind]. apply find_map_None.
  intros lw (d & Hd' & Hl)%list_elem_of_omap. apply elem_visited in Hd'; [|apply _].
  by apply (safe_script_not_dangerous _ (zsh_as_bash script0) root cmds d).
Qed.

(** C26: no command is taken for harmless and for dangerous at once.  A command that is
    approved without asking because it is known to be safe, directly or as a script of
    plain commands, holds no forced removal that the other classification would find,
    under any wrapper. *)
Theorem safe_not_dangerous command :
  is_known_safe_command linux try_parse_shell command = true →
  dangerous_command_match try_parse_shell command = None.
Proof. apply safe_not_dangerous_fact. Qed.

(** ** Where a forced removal is found *)

(** A command that forcibly removes files below at most [n] wrappers. *)
Inductive hides_forced_rm : nat → list str → Prop :=
| hides_rm n cmd0 args :
    executable_name_lookup_key cmd0 = Some (lit "rm") → rm_args_include_force_option args = true →
    hides_forced_rm n (cmd0 :: args)
| hides_sudo n cmd0 args :
    executable_name_lookup_key cmd0 = Some (lit "sudo") → hides_forced_rm n args →
    hides_forced_rm (S n) (cmd0 :: args)
| hides_env n cmd0 args :
    executable_name_lookup_key cmd0 = Some (lit "env") → hides_forced_rm n (after_env_options args) →
    hides_forced_rm (S n) (cmd0 :: args)
| hides_trap n cmd0 args action :
    executable_name_lookup_key cmd0 = Some (lit "trap") → trap_action (cmd0 :: args) = Some action →
    hides_forced_rm n action → hides_forced_rm (S n) (cmd0 :: args)
| hides_script n command commands c :
    parse_shell_lc_literal_commands try_parse_shell command = Some commands → c ∈ commands →
    hides_forced_rm n c → hides_forced_rm (S n) command.

Lemma find_map_Some {A B} (f : A → option B) l y : find_map f l = Some y → ∃ x, x ∈ l ∧ f x = Some y.
Proof. intros H%head_Some_elem_of. by apply list_elem_of_omap in H as (x & Hx & Hf); exists x. Qed.

Lemma find_map_is_Some {A B} (f : A → option B) l x : x ∈ l → is_Some (f x) → is_Some (find_map f l).
Proof.
  unfold find_map. intros Hx [y Hy]. destruct (omap f l) as [|z r] eqn:E; [|by eexists].
  exfalso. assert (y ∈ omap f l) as Hin by (apply list_elem_of_omap; eauto). rewrite E in Hin. set_solver.
Qed.

Lemma with_depth_S n command :
  dangerous_command_match_with_depth try_parse_shell (S n) command =
  match dangerous_command_match_for_exec (dangerous_command_match_with_depth try_parse_shell n) command with
  | Some m => Some m
  | None =>
      commands ← parse_shell_lc_literal_commands try_parse_shell command;
      find_map (dangerous_command_match_with_depth try_parse_shell n) commands
  end.
Proof. done. Qed.

Lemma found_hides levels command m :
  dangerous_command_match_with_depth try_parse_shell levels command = Some m →
  ∃ n, levels = S n ∧ hides_forced_rm n command.
Proof.
  revert command m. induction levels as [|levels IH]; intros command m; [done|]. rewrite with_depth_S.
  intros H. exists levels. split; [done|].
  destruct (dangerous_command_match_for_exec _ command) as [m'|] eqn:E.
  - destruct command as [|cmd0 args]; [done|]. unfold dangerous_command_match_for_exec in E.
    destruct (executable_name_lookup_key cmd0) as [name|] eqn:Hk; [|done].
    destruct (seqb name (lit "rm") && _) eqn:E1.
    { apply andb_true_iff in E1 as [->%seqb_eq Hf]. by apply hides_rm. }
    destruct (seqb name (lit "sudo")) eqn:E2.
    { apply seqb_eq in E2 as ->. apply IH in E as (n & -> & ?). by apply hides_sudo. }
    destruct (seqb name (lit "env")) eqn:E3.
    { apply seqb_eq in E3 as ->. apply IH in E as (n & -> & ?). by apply hides_env. }
    destruct (seqb name (lit "trap")) eqn:E4; [|done].
    apply seqb_eq in E4 as ->. apply bind_Some in E as (action & Ha & E).
    apply IH in E as (n & -> & ?). by apply (hides_trap _ _ _ action).
  - apply bind_Some in H as (commands & Hc & H). apply find_map_Some in H as (c & Hin & H).
    apply IH in H as (n & -> & ?). by apply (hides_script _ _ commands c).
Qed.

(** The search finds a forced removal exactly when it is below at most [n] wrappers. *)
Lemma forced_rm_found n command :
  is_Some (dangerous_command_match_with_depth try_parse_shell (S n) command) ↔ hides_forced_rm n command.
Proof.
  split; [by intros [m (n' & [= <-] & H)%found_hides]|].
  induction 1 as [n cmd0 args Hk Hf|n cmd0 args Hk _ IH|n cmd0 args Hk _ IH|n cmd0 args action Hk Ha _ IH
                 |n command commands c Hp Hin _ IH]; rewrite with_depth_S.
  1-4: unfold dangerous_command_match_for_exec at 1; rewrite Hk.
  - rewrite Hf. by eexists.
  - destruct IH as [m Hm]. change (seqb (lit "sudo") (lit "rm")) with false. cbn [andb].
    rewrite seqb_refl, Hm. by eexists.
  - destruct IH as [m Hm]. change (seqb (lit "env") (lit "rm")) with false.
    change (seqb (lit "env") (lit "sudo")) with false. cbn [andb]. rewrite seqb_refl, Hm. by eexists.
  - destruct IH as [m Hm]. change (seqb (lit "trap") (lit "rm")) with false.
    change (seqb (lit "trap") (lit "sudo")) with false. change (seqb (lit "trap") (lit "env")) with false.
    cbn [andb]. rewrite seqb_refl, Ha. cbn [mbind option_bind]. rewrite Hm. by eexists.
  - destruct (dangerous_command_match_for_exec _ command); [by eexists|]. rewrite Hp.
    by apply (find_map_is_Some _ _ c).
Qed.
End safe.

(** ** A parser for one script

    What the grammar promises can be checked on a tree; a parser that knows one checked
    tree is an instance of the interface. *)
Fixpoint occurs_in (t s : str) : bool :=
  starts_with t s || match s with [] => false | _ :: s => occurs_in t s end.

Definition node_checks (script : str) (n : Node) : bool :=
  match node_text n with Some t => occurs_in t script | None => true end &&
  (negb (has_kind n (lit "command")) ||
   match named_children n with
   | [] => true
   | _ :: args => forallb (fun c => negb (has_kind c (lit "command_name"))) args
   end).

Definition one_script (script : str) (root : Node) (s : str) : option Node :=
  if seqb s script then Some root else None.

Lemma occurs_in_spec t s : occurs_in t s = true → ∃ a b, s = a ++ t ++ b.
Proof.
  induction s as [|x s IH]; cbn [occurs_in]; intros [H|H]%orb_true_iff; try done.
  1, 2: apply starts_with_spec in H as [b ->]; by exists [], b.
  apply IH in H as (a & b & ->). by exists (x :: a), b.
Qed.

Lemma one_script_grammar script root :
  forallb (node_checks script) (visited node_children root) = true → BashGrammar (one_script script root).
Proof.
  intros H. assert (Hn : ∀ s r n, one_script script root s = Some r → inside node_children r n →
    s = script ∧ node_checks script n = true).
  { unfold one_script. intros s r n. destruct (seqb s script) eqn:E; [|done]. intros [= <-] Hi.
    split; [by apply seqb_eq|]. rewrite forallb_forall in H. apply H, list_elem_of_In, elem_visited; [apply _|done]. }
  split.
  - intros s r cmd l c args Hs Hi Hk Hch Hc. destruct (Hn _ _ _ Hs Hi) as [-> Hok].
    apply andb_true_iff in Hok as [_ Hok]. rewrite Hk, Hch in Hok. destruct l as [|x l]; [constructor|].
    cbn [negb orb app] in Hok. rewrite forallb_forall in Hok. specialize (Hok c). rewrite Hc in Hok.
    exfalso. assert (In c (l ++ c :: args)) as Hin by (apply in_app_iff; right; by left).
    by specialize (Hok Hin).
  - intros s r n t Hs Hi Ht. destruct (Hn _ _ _ Hs Hi) as [-> Hok]. apply andb_true_iff in Hok as [Hok _].
    rewrite Ht in Hok. by apply occurs_in_spec.
Qed.

Module SampleShell.
Definition leaf (k : string) (named : bool) (start : N) (t : string) : Node :=
  mkNode (lit k) named start false (Some (lit t)) [].
Definition word (start : N) (t : string) : Node := leaf "word" true start t.
Definition name (start : N) (t : string) : Node :=
  mkNode (lit "command_name") true start false (Some (lit t)) [word start t].
Definition command (start : N) (t : string) (parts : list Node) : Node :=
  mkNode (lit "command") true start false (Some (lit t)) parts.

(** [ls -l && cat f]. *)
Definition script : str := lit "ls -l && cat f".
Definition tree : Node :=
  mkNode (lit "program") true 0 false (Some script)
    [mkNode (lit "list") true 0 false (Some script)
       [command 0 "ls -l" [name 0 "ls"; word 3 "-l"]; leaf "&&" false 6 "&&"; command 9 "cat f" [name 9 "cat"; word 13 "f"]]].
Definition sample_parse : str → option Node := one_script script tree.
Definition argv : list str := [lit "/usr/bin/zsh"; lit "-lc"; script].

#[global] Instance parse_grammar : BashGrammar sample_parse.
Proof. apply one_script_grammar. reflexivity. Qed.
End SampleShell.

Lemma safe_not_dangerous_witness :
  is_known_safe_command true SampleShell.sample_parse SampleShell.argv = true ∧
  dangerous_command_match SampleShell.sample_parse SampleShell.argv = None.
Proof. split; [reflexivity|]. apply (@safe_not_dangerous true SampleShell.sample_parse SampleShell.parse_grammar). reflexivity. Defined.

(** A removal behind [sudo] in a script is found, and a script behind nine wrappers is not
    looked into. *)
Example nine_sudos_hide :
  let rm := [lit "rm"; lit "-rf"; lit "/"] in
  dangerous_command_match SampleShell.sample_parse (replicate 8 (lit "sudo") ++ rm) = Some ForcedRm ∧
  dangerous_command_match SampleShell.sample_parse (replicate 9 (lit "sudo") ++ rm) = None.
Proof. split; reflexivity. Qed.
