(* ===== verification/SandboxPolicy.v ===== *)
(** * Sandbox policies

    What a session may read and write: the types of [codex-rs/protocol/src/permissions.rs]
    and [models.rs], the resolution of a path against the entries of a policy, absolute
    paths ([codex-rs/utils/absolute-path]) and the choice of a sandbox
    ([codex-rs/sandboxing/src/manager.rs], [policy_transforms.rs]), outside Windows. *)

From S2P Require Import Prelude RustStr RustPath.

(** ** Absolute paths *)

(** [AbsolutePathBuf]: absolute and normalized, so it is the list of its names. *)
Abbreviation AbsolutePathBuf := (list (list N)) (only parsing).

(** [PathBuf::join]. *)
Definition path_join (a b : str) : str :=
  if starts_with [slash] b || seqb a [] then b
  else if ends_with [slash] a then a ++ b
  else a ++ [slash] ++ b.

Definition path_is_absolute (s : str) : bool := starts_with [slash] s.

(** One step of [normalize_path] on the names so far. *)
Definition normalize_component (names : AbsolutePathBuf) (c : Component) : AbsolutePathBuf :=
  match c with
  | RootDir => []
  | CurDir => names
  | ParentDir => removelast names
  | Normal s => names ++ [s]
  end.

Definition absolutize_from (path : str) (base : AbsolutePathBuf) : AbsolutePathBuf :=
  foldl normalize_component base (path_components path).

(** What the process sees of its host: [home_dir()], the current directory, [TMPDIR] and
    whether [/tmp] is a directory. *)
Record Host := mkHost {
  home_dir : option str;
  current_dir : option AbsolutePathBuf;
  tmpdir_env : option str;
  slash_tmp_is_dir : bool
}.

(** ** [permissions.rs]: the data *)

Inductive NetworkSandboxPolicy := NetworkRestricted | NetworkEnabled.
Definition network_is_enabled (p : NetworkSandboxPolicy) : bool :=
  match p with NetworkEnabled => true | NetworkRestricted => false end.

Inductive FileSystemAccessMode := AccessRead | AccessWrite | AccessDeny.

#[export] Instance FileSystemAccessMode_eq_dec : EqDecision FileSystemAccessMode.
Proof. solve_decision. Defined.

Definition can_read (a : FileSystemAccessMode) : bool := match a with AccessDeny => false | _ => true end.
Definition can_write (a : FileSystemAccessMode) : bool := match a with AccessWrite => true | _ => false end.

(** The derived order: deny beats write, and write beats read. *)
Definition access_rank (a : FileSystemAccessMode) : nat :=
  match a with AccessRead => 0 | AccessWrite => 1 | AccessDeny => 2 end.

Inductive FileSystemSpecialPath :=
| SpecialRoot
| Minimal
| ProjectRoots (subpath : option str)
| Tmpdir
| SlashTmp
| UnknownSpecial (path : str) (subpath : option str).

Inductive FileSystemPath :=
| FsPath (path : AbsolutePathBuf)
| GlobPattern (pattern : str)
| Special (value : FileSystemSpecialPath).

#[export] Instance FileSystemSpecialPath_eq_dec : EqDecision FileSystemSpecialPath.
Proof. solve_decision. Defined.
#[export] Instance FileSystemPath_eq_dec : EqDecision FileSystemPath.
Proof. solve_decision. Defined.

Record FileSystemSandboxEntry := mkFsEntry {
  entry_path : FileSystemPath;
  entry_access : FileSystemAccessMode;
  skips_missing_path : bool
}.

#[export] Instance FileSystemSandboxEntry_eq_dec : EqDecision FileSystemSandboxEntry.
Proof. solve_decision. Defined.

Inductive FileSystemSandboxKind := KindRestricted | KindUnrestricted | KindExternalSandbox.

#[export] Instance FileSystemSandboxKind_eq_dec : EqDecision FileSystemSandboxKind.
Proof. solve_decision. Defined.

Record FileSystemSandboxPolicy := mkFsPolicy {
  fs_kind : FileSystemSandboxKind;
  glob_scan_max_depth : option N;
  fs_entries : list FileSystemSandboxEntry
}.

Record ResolvedFileSystemEntry := mkResolvedEntry {
  resolved_path : AbsolutePathBuf;
  resolved_access : FileSystemAccessMode
}.

Definition unrestricted : FileSystemSandboxPolicy := mkFsPolicy KindUnrestricted None [].
Definition external_sandbox : FileSystemSandboxPolicy := mkFsPolicy KindExternalSandbox None [].
Definition restricted (entries : list FileSystemSandboxEntry) : FileSystemSandboxPolicy :=
  mkFsPolicy KindRestricted None entries.

Definition is_restricted (p : FileSystemSandboxPolicy) : bool := bool_decide (fs_kind p = KindRestricted).

(** ** Questions about a policy as it is written *)

Definition has_root_access (p : FileSystemSandboxPolicy) (predicate : FileSystemAccessMode → bool) : bool :=
  is_restricted p &&
  existsb (fun e => match entry_path e with Special SpecialRoot => predicate (entry_access e) | _ => false end)
    (fs_entries p).

Definition has_denied_read_restrictions (p : FileSystemSandboxPolicy) : bool :=
  is_restricted p && existsb (fun e => bool_decide (entry_access e = AccessDeny)) (fs_entries p).

Definition special_paths_share_target (a b : FileSystemSpecialPath) : bool :=
  match a, b with
  | SpecialRoot, SpecialRoot | Minimal, Minimal | Tmpdir, Tmpdir | SlashTmp, SlashTmp => true
  | ProjectRoots subpath, ProjectRoots subpath' => bool_decide (subpath = subpath')
  | UnknownSpecial path subpath, UnknownSpecial path' subpath' =>
      seqb path path' && bool_decide (subpath = subpath')
  | _, _ => false
  end.

Definition slash_tmp : AbsolutePathBuf := [lit "tmp"].

Definition special_path_matches_absolute_path (value : FileSystemSpecialPath) (path : AbsolutePathBuf) : bool :=
  match value with
  | SpecialRoot => bool_decide (path = [])
  | SlashTmp => bool_decide (path = slash_tmp)
  | _ => false
  end.

Definition file_system_paths_share_target (a b : FileSystemPath) : bool :=
  match a, b with
  | FsPath path, FsPath path' => bool_decide (path = path')
  | Special value, Special value' => special_paths_share_target value value'
  | FsPath path, Special value | Special value, FsPath path => special_path_matches_absolute_path value path
  | GlobPattern pattern, GlobPattern pattern' => seqb pattern pattern'
  | GlobPattern _, _ | _, GlobPattern _ => false
  end.

Definition has_same_target_write_override (p : FileSystemSandboxPolicy) (e : FileSystemSandboxEntry) : bool :=
  existsb (fun candidate =>
    can_write (entry_access candidate) &&
    (access_rank (entry_access e) <? access_rank (entry_access candidate)) &&
    file_system_paths_share_target (entry_path candidate) (entry_path e)) (fs_entries p).

(** Whether an entry takes write access away somewhere. *)
Definition narrows_writes (p : FileSystemSandboxPolicy) (e : FileSystemSandboxEntry) : bool :=
  if can_write (entry_access e) then false
  else match entry_path e with
       | FsPath _ => negb (has_same_target_write_override p e)
       | GlobPattern _ => true
       | Special value =>
           match value with
           | SpecialRoot => bool_decide (entry_access e = AccessDeny)
           | Minimal | UnknownSpecial _ _ => false
           | _ => negb (has_same_target_write_override p e)
           end
       end.

Definition has_write_narrowing_entries (p : FileSystemSandboxPolicy) : bool :=
  is_restricted p && existsb (narrows_writes p) (fs_entries p).

Definition has_full_disk_read_access (p : FileSystemSandboxPolicy) : bool :=
  match fs_kind p with
  | KindUnrestricted | KindExternalSandbox => true
  | KindRestricted => has_root_access p can_read && negb (has_denied_read_restrictions p)
  end.

Definition has_full_disk_write_access (p : FileSystemSandboxPolicy) : bool :=
  match fs_kind p with
  | KindUnrestricted | KindExternalSandbox => true
  | KindRestricted => has_root_access p can_write && negb (has_write_narrowing_entries p)
  end.

(** ** Resolution *)

Section resolution.
Context (host : Host).

(** A tilde is the home directory. *)
Definition maybe_expand_home_directory (path : str) : str :=
  match home_dir host, strip_prefix (lit "~") path with
  | Some home, Some rest =>
      if seqb rest [] then home
      else match strip_prefix [slash] rest with
           | Some rest => path_join home (trim_start_slashes rest)
           | None => path
           end
  | _, _ => path
  end.

Definition resolve_path_against_base (path : str) (base : AbsolutePathBuf) : AbsolutePathBuf :=
  absolutize_from (maybe_expand_home_directory path) base.

(** [None] is the error when a relative path is given and there is no current directory. *)
Definition from_absolute_path (path : str) : option AbsolutePathBuf :=
  let expanded := maybe_expand_home_directory path in
  if path_is_absolute expanded then Some (absolutize_from expanded [])
  else absolutize_from expanded <$> current_dir host.

Definition resolve_file_system_special_path (value : FileSystemSpecialPath) (cwd : option AbsolutePathBuf) :
    option AbsolutePathBuf :=
  match value with
  | SpecialRoot | Minimal | UnknownSpecial _ _ => None
  | ProjectRoots subpath =>
      cwd ← cwd;
      Some (match subpath with Some subpath => resolve_path_against_base subpath cwd | None => cwd end)
  | Tmpdir =>
      tmpdir ← tmpdir_env host;
      if seqb tmpdir [] then None else from_absolute_path tmpdir
  | SlashTmp => if slash_tmp_is_dir host then Some slash_tmp else None
  end.

Definition resolve_file_system_path (path : FileSystemPath) (cwd : option AbsolutePathBuf) : option AbsolutePathBuf :=
  match path with
  | FsPath path => Some path
  | GlobPattern _ => None
  | Special value => resolve_file_system_special_path value cwd
  end.

(** [absolute_root_path_for_cwd] of a Unix path. *)
Definition absolute_root_path_for_cwd (cwd : AbsolutePathBuf) : AbsolutePathBuf := [].

Definition resolve_entry_path (path : FileSystemPath) (cwd : option AbsolutePathBuf) : option AbsolutePathBuf :=
  match path with
  | Special SpecialRoot => absolute_root_path_for_cwd <$> cwd
  | _ => resolve_file_system_path path cwd
  end.

Definition resolve_entry (cwd : option AbsolutePathBuf) (e : FileSystemSandboxEntry) : option ResolvedFileSystemEntry :=
  path ← resolve_entry_path (entry_path e) cwd;
  Some (mkResolvedEntry path (entry_access e)).

Definition resolved_entries_with_cwd (p : FileSystemSandboxPolicy) (cwd : str) : list ResolvedFileSystemEntry :=
  omap (resolve_entry (from_absolute_path cwd)) (fs_entries p).

Definition resolve_candidate_path (path cwd : str) : option AbsolutePathBuf :=
  if path_is_absolute path then from_absolute_path path
  else cwd ← from_absolute_path cwd; Some (resolve_path_against_base path cwd).

(** [Path::starts_with] of absolute paths. *)
Definition path_covers (root path : AbsolutePathBuf) : bool := bool_decide (root `prefix_of` path).

(** [resolved_entry_precedence] and the comparison of these pairs. *)
Definition resolved_entry_precedence (e : ResolvedFileSystemEntry) : nat * nat :=
  (S (length (resolved_path e)), access_rank (resolved_access e)).

Definition precedence_leb (a b : nat * nat) : bool :=
  (fst a <? fst b) || ((fst a =? fst b) && (snd a <=? snd b)).

Definition strongest (l : list ResolvedFileSystemEntry) : option ResolvedFileSystemEntry :=
  max_by (fun a b => precedence_leb (resolved_entry_precedence a) (resolved_entry_precedence b)) None l.

Definition access_of (entries : list ResolvedFileSystemEntry) (path : AbsolutePathBuf) : FileSystemAccessMode :=
  match strongest (List.filter (fun e => path_covers (resolved_path e) path) entries) with
  | Some e => resolved_access e
  | None => AccessDeny
  end.

Definition resolve_access_with_cwd (p : FileSystemSandboxPolicy) (path cwd : str) : FileSystemAccessMode :=
  match fs_kind p with
  | KindUnrestricted | KindExternalSandbox => AccessWrite
  | KindRestricted =>
      match resolve_candidate_path path cwd with
      | None => AccessDeny
      | Some path => access_of (resolved_entries_with_cwd p cwd) path
      end
  end.

Definition can_read_path_with_cwd (p : FileSystemSandboxPolicy) (path cwd : str) : bool :=
  can_read (resolve_access_with_cwd p path cwd).

(** *** Protected metadata *)

Definition PROTECTED_METADATA_PATH_NAMES : list str := [lit ".git"; lit ".agents"; lit ".codex"].

Definition metadata_path_name (name : str) : option str :=
  if existsb (seqb name) PROTECTED_METADATA_PATH_NAMES then Some name else None.

(** The protected name that a path has right below a writable root. *)
Definition metadata_child (target : AbsolutePathBuf) (e : ResolvedFileSystemEntry) : option AbsolutePathBuf :=
  if can_write (resolved_access e) && path_covers (resolved_path e) target then
    first_component ← target !! length (resolved_path e);
    metadata_name ← metadata_path_name first_component;
    Some (resolve_path_against_base metadata_name (resolved_path e))
  else None.

Definition metadata_child_of_writable_root (p : FileSystemSandboxPolicy) (target : AbsolutePathBuf) (cwd : str) :
    option AbsolutePathBuf :=
  head (omap (metadata_child target) (resolved_entries_with_cwd p cwd)).

Definition has_explicit_write_entry_for_metadata_path (p : FileSystemSandboxPolicy)
    (protected_metadata_path target : AbsolutePathBuf) (cwd : str) : bool :=
  existsb (fun e => can_write (resolved_access e) && path_covers (resolved_path e) target &&
                    path_covers protected_metadata_path (resolved_path e)) (resolved_entries_with_cwd p cwd).

Definition is_metadata_write_denied (p : FileSystemSandboxPolicy) (path cwd : str) : bool :=
  if negb (is_restricted p) then false
  else match resolve_candidate_path path cwd with
       | None => true
       | Some target =>
           match metadata_child_of_writable_root p target cwd with
           | None => false
           | Some protected_metadata_path =>
               negb (has_explicit_write_entry_for_metadata_path p protected_metadata_path target cwd)
           end
       end.

Definition can_write_path_with_cwd (p : FileSystemSandboxPolicy) (path cwd : str) : bool :=
  if negb (can_write (resolve_access_with_cwd p path cwd)) then false
  else if has_full_disk_write_access p then true
  else negb (is_metadata_write_denied p path cwd).

(** *** Project roots *)

Definition PROJECT_ROOTS_GLOB_PATTERN_PREFIX : str := lit "codex-project-roots://".

Definition parse_project_roots_glob_pattern (pattern : str) : option str :=
  strip_prefix PROJECT_ROOTS_GLOB_PATTERN_PREFIX pattern.

(** The text of an absolute path. *)
Definition display_path (path : AbsolutePathBuf) : str :=
  match path with [] => [slash] | _ => concat (map (fun name => slash :: name) path) end.

Definition resolve_project_roots_glob_pattern (subpath : str) (root : AbsolutePathBuf) : str :=
  display_path (resolve_path_against_base subpath root).

Definition with_entry_path (path : FileSystemPath) (e : FileSystemSandboxEntry) : FileSystemSandboxEntry :=
  mkFsEntry path (entry_access e) (skips_missing_path e).

Definition with_fs_entries (entries : list FileSystemSandboxEntry) (p : FileSystemSandboxPolicy) :
    FileSystemSandboxPolicy := mkFsPolicy (fs_kind p) (glob_scan_max_depth p) entries.

Definition materialize_with_cwd (cwd : option AbsolutePathBuf) (e : FileSystemSandboxEntry) : FileSystemSandboxEntry :=
  match entry_path e with
  | Special (ProjectRoots _) =>
      match resolve_file_system_path (entry_path e) cwd with
      | Some path => with_entry_path (FsPath path) e
      | None => e
      end
  | GlobPattern pattern =>
      match cwd, parse_project_roots_glob_pattern pattern with
      | Some cwd, Some subpath => with_entry_path (GlobPattern (resolve_project_roots_glob_pattern subpath cwd)) e
      | _, _ => e
      end
  | _ => e
  end.

Definition materialize_project_roots_with_cwd (p : FileSystemSandboxPolicy) (cwd : str) : FileSystemSandboxPolicy :=
  with_fs_entries (map (materialize_with_cwd (from_absolute_path cwd)) (fs_entries p)) p.

Definition materialize_entry (workspace_roots : list AbsolutePathBuf) (e : FileSystemSandboxEntry) :
    list FileSystemSandboxEntry :=
  match entry_path e with
  | Special (ProjectRoots subpath) =>
      map (fun root => with_entry_path
             (FsPath (match subpath with Some subpath => resolve_path_against_base subpath root | None => root end)) e)
        workspace_roots
  | GlobPattern pattern =>
      match parse_project_roots_glob_pattern pattern with
      | Some subpath =>
          map (fun root => with_entry_path (GlobPattern (resolve_project_roots_glob_pattern subpath root)) e)
            workspace_roots
      | None => [e]
      end
  | _ => [e]
  end.

Definition materialize_project_roots_with_workspace_roots (p : FileSystemSandboxPolicy)
    (workspace_roots : list AbsolutePathBuf) : FileSystemSandboxPolicy :=
  with_fs_entries (concat (map (materialize_entry workspace_roots) (fs_entries p))) p.

(** *** Wider policies *)

Definition entry_new (path : FileSystemPath) (access : FileSystemAccessMode) : FileSystemSandboxEntry :=
  mkFsEntry path access false.

Definition add_readable_root (cwd : str) (p : FileSystemSandboxPolicy) (path : AbsolutePathBuf) :
    FileSystemSandboxPolicy :=
  if can_read_path_with_cwd p (display_path path) cwd then p
  else with_fs_entries (fs_entries p ++ [entry_new (FsPath path) AccessRead]) p.

Definition with_additional_readable_roots (p : FileSystemSandboxPolicy) (cwd : str)
    (additional_readable_roots : list AbsolutePathBuf) : FileSystemSandboxPolicy :=
  if has_full_disk_read_access p then p else foldl (add_readable_root cwd) p additional_readable_roots.

Definition add_writable_root (cwd : str) (p : FileSystemSandboxPolicy) (path : AbsolutePathBuf) :
    FileSystemSandboxPolicy :=
  if can_write_path_with_cwd p (display_path path) cwd then p
  else with_fs_entries (fs_entries p ++ [entry_new (FsPath path) AccessWrite]) p.

Definition with_additional_writable_roots (p : FileSystemSandboxPolicy) (cwd : str)
    (additional_writable_roots : list AbsolutePathBuf) : FileSystemSandboxPolicy :=
  foldl (add_writable_root cwd) p additional_writable_roots.
End resolution.

(** ** [models.rs] *)

Inductive ManagedFileSystemPermissions :=
| ManagedRestricted (entries : list FileSystemSandboxEntry) (depth : option N)
| ManagedUnrestricted.

Definition to_sandbox_policy (p : ManagedFileSystemPermissions) : FileSystemSandboxPolicy :=
  match p with
  | ManagedRestricted entries depth => mkFsPolicy KindRestricted depth entries
  | ManagedUnrestricted => unrestricted
  end.

Inductive PermissionProfile :=
| Managed (file_system : ManagedFileSystemPermissions) (network : NetworkSandboxPolicy)
| Disabled
| External (network : NetworkSandboxPolicy).

Definition file_system_sandbox_policy (p : PermissionProfile) : FileSystemSandboxPolicy :=
  match p with
  | Managed file_system _ => to_sandbox_policy file_system
  | Disabled => unrestricted
  | External _ => external_sandbox
  end.

Definition network_sandbox_policy (p : PermissionProfile) : NetworkSandboxPolicy :=
  match p with Managed _ network | External network => network | Disabled => NetworkEnabled end.

Definition to_runtime_permissions (p : PermissionProfile) : FileSystemSandboxPolicy * NetworkSandboxPolicy :=
  (file_system_sandbox_policy p, network_sandbox_policy p).

(** [ManagedFileSystemPermissions::from_sandbox_policy]: [None] is its [unreachable!]. *)
Definition from_sandbox_policy (p : FileSystemSandboxPolicy) : option ManagedFileSystemPermissions :=
  match fs_kind p with
  | KindRestricted =>
      Some (ManagedRestricted (fs_entries p)
              (match glob_scan_max_depth p with Some 0%N => None | depth => depth end))
  | KindUnrestricted => Some ManagedUnrestricted
  | KindExternalSandbox => None
  end.

Definition profile_materialize (host : Host) (p : PermissionProfile) (workspace_roots : list AbsolutePathBuf) :
    option PermissionProfile :=
  match p with
  | Managed file_system network =>
      file_system ← from_sandbox_policy
        (materialize_project_roots_with_workspace_roots host (to_sandbox_policy file_system) workspace_roots);
      Some (Managed file_system network)
  | Disabled => Some Disabled
  | External network => Some (External network)
  end.

Inductive SandboxPermissions := UseDefault | RequireEscalated | WithAdditionalPermissions.

Definition requires_escalated_permissions (p : SandboxPermissions) : bool :=
  match p with RequireEscalated => true | _ => false end.
Definition requests_sandbox_override (p : SandboxPermissions) : bool :=
  match p with UseDefault => false | _ => true end.

(** ** [manager.rs] *)

Inductive SandboxType := NoSandbox | MacosSeatbelt | LinuxSeccomp | WindowsRestrictedToken.
Inductive SandboxablePreference := Auto | Require | Forbid.

(** The operating system that the program was built for, Windows apart. *)
Inductive TargetOs := MacOs | Linux | OtherUnix.

Definition get_platform_sandbox (os : TargetOs) : option SandboxType :=
  match os with MacOs => Some MacosSeatbelt | Linux => Some LinuxSeccomp | OtherUnix => None end.

Definition should_require_platform_sandbox (p : FileSystemSandboxPolicy) (network : NetworkSandboxPolicy)
    (has_managed_network_requirements : bool) : bool :=
  if has_managed_network_requirements then true
  else if negb (network_is_enabled network) then negb (bool_decide (fs_kind p = KindExternalSandbox))
  else match fs_kind p with
       | KindRestricted => negb (has_full_disk_write_access p)
       | KindUnrestricted | KindExternalSandbox => false
       end.

Definition should_sandbox (p : FileSystemSandboxPolicy) (network : NetworkSandboxPolicy)
    (pref : SandboxablePreference) (has_managed_network_requirements : bool) : bool :=
  match pref with
  | Forbid => false
  | Require => true
  | Auto => should_require_platform_sandbox p network has_managed_network_requirements
  end.

Definition select_initial (os : TargetOs) (p : FileSystemSandboxPolicy) (network : NetworkSandboxPolicy)
    (pref : SandboxablePreference) (has_managed_network_requirements : bool) : SandboxType :=
  if should_sandbox p network pref has_managed_network_requirements
  then default NoSandbox (get_platform_sandbox os) else NoSandbox.
