(* ===== verification/SandboxPolicyFacts.v ===== *)
(** * What a sandbox policy grants

    The shortcut that finds a policy to grant all writes agrees with the resolution of
    every single path, so leaving the sandbox out gives nothing away; and a policy whose
    project roots are made absolute grants the same, from wherever it is asked. *)

From S2P Require Import Prelude RustStr RustPath SandboxPolicy.

#[local] Arguments lit _ : simpl never.

(** ** The strongest entry *)

Definition precedes (a b : ResolvedFileSystemEntry) : Prop :=
  precedence_leb (resolved_entry_precedence a) (resolved_entry_precedence b) = true.

Lemma precedes_spec a b :
  precedes a b ↔
  (length (resolved_path a) < length (resolved_path b) ∨
   length (resolved_path a) = length (resolved_path b) ∧ access_rank (resolved_access a) <= access_rank (resolved_access b))%nat.
Proof.
  unfold precedes, precedence_leb, resolved_entry_precedence. cbn [fst snd].
  rewrite orb_true_iff, andb_true_iff, Nat.ltb_lt, Nat.eqb_eq, Nat.leb_le. lia.
Qed.

Lemma strongest_spec l e : strongest l = Some e → e ∈ l ∧ ∀ x, x ∈ l → precedes x e.
Proof.
  unfold strongest. set (leb := fun a b => _).
  enough (∀ best, max_by leb best l = Some e →
    (∀ x, best = Some x → precedes x e) ∧ ∀ x, x ∈ l → precedes x e) as H.
  { intros Hs. split; [|by apply (H None)]. by apply max_by_elem in Hs as [?|]. }
  induction l as [|y l IH]; intros best; cbn [max_by].
  { intros ->. split; [|set_solver]. intros x [= ->]. apply precedes_spec. lia. }
  intros [Hbest Hl]%IH. destruct best as [b|]; [|set_solver].
  destruct (leb b y) eqn:E; specialize (Hbest _ eq_refl).
  - split; [|set_solver]. intros x [= ->]. change (precedes x y) in E. rewrite precedes_spec in *. lia.
  - split; [by intros x [= ->]|]. intros x [->|Hx]%elem_of_cons; [|by apply Hl].
    assert (¬ precedes b y) as Hn by (unfold precedes; fold (leb b y); by rewrite E). rewrite precedes_spec in *. lia.
Qed.

(** The access of a path is that of an entry around it that none exceeds. *)
Lemma access_of_spec entries path e :
  e ∈ entries → path_covers (resolved_path e) path = true →
  ∃ s, s ∈ entries ∧ path_covers (resolved_path s) path = true ∧ access_of entries path = resolved_access s ∧
    ∀ x, x ∈ entries → path_covers (resolved_path x) path = true → precedes x s.
Proof.
  intros He Hc. unfold access_of. set (l := List.filter _ entries).
  assert (Hl : ∀ x, x ∈ l ↔ x ∈ entries ∧ path_covers (resolved_path x) path = true).
  { intros x. unfold l. rewrite !list_elem_of_In. apply filter_In. }
  assert (is_Some (strongest l)) as [s Hs] by (apply (max_by_is_Some _ _ _ e); left; by apply Hl).
  rewrite Hs. apply strongest_spec in Hs as [Hin Hmax].
  apply Hl in Hin as [Hin Hcov]. exists s. split_and!; [done|done|done|]. intros x Hx Hxc. by apply Hmax, Hl.
Qed.

(** ** Full access *)

Section facts.
Context (host : Host).

(** Two entries for the same target resolve to the same path. *)
Lemma share_target_resolves a b c path :
  slash_tmp_is_dir host = true → file_system_paths_share_target a b = true →
  resolve_entry_path host b (Some c) = Some path → resolve_entry_path host a (Some c) = Some path.
Proof.
  intros Ht Hs. unfold resolve_entry_path, resolve_file_system_path, resolve_file_system_special_path.
  destruct a as [pa|ga|[| |sa| | |ua usa]], b as [pb|gb|[| |sb| | |ub usb]]; cbn in *; try done; rewrite ?Ht in *.
  all: try (apply bool_decide_eq_true in Hs; subst; done).
Qed.

Lemma elem_resolved p cwd c e path :
  from_absolute_path host cwd = Some c → e ∈ fs_entries p → resolve_entry_path host (entry_path e) (Some c) = Some path →
  mkResolvedEntry path (entry_access e) ∈ resolved_entries_with_cwd host p cwd.
Proof.
  intros Hc He Hr. unfold resolved_entries_with_cwd. rewrite Hc. apply list_elem_of_omap.
  exists e. split; [done|]. unfold resolve_entry. by rewrite Hr.
Qed.

Lemma resolved_elem p cwd c s :
  from_absolute_path host cwd = Some c → s ∈ resolved_entries_with_cwd host p cwd →
  ∃ e, e ∈ fs_entries p ∧ resolve_entry_path host (entry_path e) (Some c) = Some (resolved_path s) ∧
    entry_access e = resolved_access s.
Proof.
  intros Hc. unfold resolved_entries_with_cwd. rewrite Hc. intros (e & He & Hr)%list_elem_of_omap.
  exists e. unfold resolve_entry in Hr. destruct (resolve_entry_path host (entry_path e) (Some c)); [|done].
  injection Hr as <-. done.
Qed.

Lemma covers_root path : path_covers [] path = true.
Proof. apply bool_decide_eq_true, prefix_nil. Qed.

(** An entry that is not for writing and narrows nothing is exceeded by a writing one. *)
Lemma not_narrowing_overridden p e c path :
  slash_tmp_is_dir host = true → has_root_access p can_write = true → narrows_writes p e = false →
  can_write (entry_access e) = false → resolve_entry_path host (entry_path e) (Some c) = Some path →
  ∃ w, w ∈ fs_entries p ∧ entry_access w = AccessWrite ∧ entry_access e = AccessRead ∧
    resolve_entry_path host (entry_path w) (Some c) = Some path.
Proof.
  intros Ht Hroot Hn Hw Hr. unfold narrows_writes in Hn. rewrite Hw in Hn.
  assert (Hover : has_same_target_write_override p e = true →
    ∃ w, w ∈ fs_entries p ∧ entry_access w = AccessWrite ∧ entry_access e = AccessRead ∧
    resolve_entry_path host (entry_path w) (Some c) = Some path).
  { intros (w & Hin & Hc)%existsb_exists. apply andb_true_iff in Hc as [[Hcw Hlt]%andb_true_iff Hshare].
    exists w. rewrite list_elem_of_In. apply Nat.ltb_lt in Hlt.
    destruct (entry_access w); try done. split_and!; [done|done| |].
    - by destruct (entry_access e); cbn in *; try done; lia.
    - by apply (share_target_resolves _ (entry_path e)). }
  destruct (entry_path e) as [pe|ge|[| |se| | |ue use]] eqn:Ep; cbn in Hr; try done;
    try (apply Hover; by apply negb_false_iff in Hn).
  apply andb_true_iff in Hroot as [_ Hroot]. apply existsb_exists in Hroot as (w & Hin & Hc).
  exists w. rewrite list_elem_of_In. destruct (entry_path w) as [| |[]] eqn:Ew; try done.
  apply bool_decide_eq_false in Hn. destruct (entry_access w); try done.
  split_and!; [done|done| |done]. by destruct (entry_access e).
Qed.

Lemma full_write_access_resolves p path cwd q c :
  has_full_disk_write_access p = true → slash_tmp_is_dir host = true →
  resolve_candidate_path host path cwd = Some q → from_absolute_path host cwd = Some c →
  resolve_access_with_cwd host p path cwd = AccessWrite.
Proof.
  unfold has_full_disk_write_access, resolve_access_with_cwd. destruct (fs_kind p) eqn:Hk; try done.
  intros [Hroot Hn%negb_true_iff]%andb_true_iff Ht Hq Hc. rewrite Hq.
  assert (∃ r, r ∈ resolved_entries_with_cwd host p cwd ∧ resolved_path r = [] ∧ resolved_access r = AccessWrite)
    as (r & Hr & Hrp & Hra).
  { pose proof Hroot as [_ (w & Hin & Hw)%existsb_exists]%andb_true_iff. apply list_elem_of_In in Hin.
    destruct (entry_path w) as [| |[]] eqn:Ew; try done. destruct (entry_access w) eqn:Ea; try done.
    exists (mkResolvedEntry [] (entry_access w)). rewrite Ea. split; [|done]. rewrite <- Ea.
    apply (elem_resolved p cwd c); [done|done|by rewrite Ew]. }
  destruct (access_of_spec _ q r Hr) as (s & Hs & Hsc & -> & Hmax); [rewrite Hrp; apply covers_root|].
  destruct (can_write (resolved_access s)) eqn:Hw; [by destruct (resolved_access s)|exfalso].
  destruct (resolved_elem p cwd c s Hc Hs) as (e & He & Hre & Hae). rewrite <- Hae in Hw.
  unfold has_write_narrowing_entries in Hn. unfold is_restricted in Hn. rewrite Hk in Hn. cbn [andb] in Hn.
  rewrite bool_decide_true in Hn by done. cbn [andb] in Hn.
  assert (Hne : narrows_writes p e = false).
  { apply not_true_iff_false. intros Ht'. apply not_true_iff_false in Hn. apply Hn, existsb_exists.
    exists e. split; [by apply list_elem_of_In|done]. }
  destruct (not_narrowing_overridden p e c _ Ht Hroot Hne Hw Hre) as (w & Hwin & Hwa & Hea & Hwr).
  assert (Hcov : precedes (mkResolvedEntry (resolved_path s) (entry_access w)) s).
  { apply Hmax; [|done]. by apply (elem_resolved p cwd c). }
  apply precedes_spec in Hcov. cbn in Hcov. rewrite Hwa, <- Hae, Hea in Hcov. cbn in Hcov. lia.
Qed.

(** C25: on a system that has a directory [/tmp], when a command is run without a sandbox because
    its policy does not call for one, nothing is given away: no managed network is to be
    enforced, and the file system is either isolated by someone else, who then has to close the
    network too if that is called for, or the network is open anyway and every path that can be
    resolved may be written and read under the policy, entry by entry. *)
Theorem no_sandbox_gives_nothing_away p network managed :
  slash_tmp_is_dir host = true →
  should_require_platform_sandbox p network managed = false →
  managed = false ∧
  (fs_kind p = KindExternalSandbox ∨
   network = NetworkEnabled ∧
   ∀ path cwd, is_Some (resolve_candidate_path host path cwd) → is_Some (from_absolute_path host cwd) →
     can_write_path_with_cwd host p path cwd = true ∧ can_read_path_with_cwd host p path cwd = true).
Proof.
  unfold should_require_platform_sandbox. intros Ht. destruct managed; [done|]. intros H. split; [done|].
  destruct network; cbn [network_is_enabled negb] in H.
  { left. by apply negb_false_iff, bool_decide_eq_true in H. }
  right. split; [done|]. intros path cwd [q Hq] [c Hc]. unfold can_write_path_with_cwd, can_read_path_with_cwd.
  assert (Hf : has_full_disk_write_access p = true).
  { unfold has_full_disk_write_access in *. destruct (fs_kind p); [by apply negb_false_iff in H|done|done]. }
  by rewrite (full_write_access_resolves p path cwd q c), Hf.
Qed.

(** Likewise for reading, without looking at [/tmp]. *)
Lemma full_read_access_resolves p path cwd :
  has_full_disk_read_access p = true → is_Some (resolve_candidate_path host path cwd) →
  is_Some (from_absolute_path host cwd) → can_read_path_with_cwd host p path cwd = true.
Proof.
  unfold has_full_disk_read_access, can_read_path_with_cwd, resolve_access_with_cwd.
  destruct (fs_kind p) eqn:Hk; try done. intros [Hroot Hn%negb_true_iff]%andb_true_iff [q Hq] [c Hc]. rewrite Hq.
  apply andb_true_iff in Hroot as [Hres (w & Hin & Hw)%existsb_exists]. apply list_elem_of_In in Hin.
  destruct (entry_path w) as [| |[]] eqn:Ew; try done.
  destruct (access_of_spec (resolved_entries_with_cwd host p cwd) q (mkResolvedEntry [] (entry_access w)))
    as (s & Hs & _ & -> & _); [apply (elem_resolved p cwd c); [done|done|by rewrite Ew]|apply covers_root|].
  destruct (resolved_elem p cwd c s Hc Hs) as (e & He & _ & <-).
  unfold has_denied_read_restrictions in Hn. rewrite Hres in Hn. cbn [andb] in Hn.
  destruct (entry_access e) eqn:Ea; try done. exfalso. apply not_true_iff_false in Hn. apply Hn, existsb_exists.
  exists e. rewrite <- list_elem_of_In, bool_decide_eq_true. done.
Qed.

(** ** Project roots *)

Lemma materialized_entries p cwd cwd' :
  is_Some (from_absolute_path host cwd) → is_Some (from_absolute_path host cwd') →
  resolved_entries_with_cwd host (materialize_project_roots_with_cwd host p cwd) cwd' =
  resolved_entries_with_cwd host p cwd.
Proof.
  intros [c Hc] [c' Hc']. unfold resolved_entries_with_cwd, materialize_project_roots_with_cwd. rewrite Hc, Hc'.
  cbn [with_fs_entries fs_entries]. induction (fs_entries p) as [|e l IH]; [done|]. cbn [map omap list_omap].
  replace (resolve_entry host (Some c') (materialize_with_cwd host (Some c) e)) with (resolve_entry host (Some c) e).
  - destruct (resolve_entry host (Some c) e); [by f_equal|done].
  - unfold resolve_entry, materialize_with_cwd.
    destruct (entry_path e) as [pe|ge|[| |se| | |ue use]] eqn:Ep; cbn; rewrite ?Ep; try done.
    destruct (parse_project_roots_glob_pattern ge); cbn; rewrite ?Ep; done.
Qed.

(** Making the project roots of a policy absolute keeps what it grants and unties it
    from the current directory: for an absolute path the materialized policy answers from
    every directory what the original answered from the one it was materialized for. *)
Theorem materialized_access_fixed p path cwd cwd' :
  is_Some (from_absolute_path host cwd) → is_Some (from_absolute_path host cwd') →
  path_is_absolute path = true →
  resolve_access_with_cwd host (materialize_project_roots_with_cwd host p cwd) path cwd' =
  resolve_access_with_cwd host p path cwd.
Proof.
  intros Hc Hc' Hp. unfold resolve_access_with_cwd. rewrite materialized_entries by done.
  unfold resolve_candidate_path. by rewrite Hp.
Qed.

(** For one workspace root, expanding the roots is making them absolute. *)
Lemma materialize_single_root p cwd c :
  from_absolute_path host cwd = Some c →
  materialize_project_roots_with_workspace_roots host p [c] = materialize_project_roots_with_cwd host p cwd.
Proof.
  intros Hc. unfold materialize_project_roots_with_workspace_roots, materialize_project_roots_with_cwd. f_equal.
  rewrite Hc. induction (fs_entries p) as [|e l IH]; [done|]. cbn [map concat]. rewrite IH. clear IH.
  unfold materialize_entry, materialize_with_cwd.
  destruct (entry_path e) as [pe|ge|[| |se| | |ue use]] eqn:Ep; cbn; try done.
  by destruct (parse_project_roots_glob_pattern ge).
Qed.
End facts.

(** ** Samples *)

Module SampleSandbox.
Definition host : Host := mkHost (Some (lit "/home/me")) (Some [lit "work"]) None true.
(** Everything may be written; a read entry for [/tmp] is exceeded by a write entry for it. *)
Definition policy : FileSystemSandboxPolicy :=
  restricted [entry_new (Special SpecialRoot) AccessWrite; entry_new (FsPath slash_tmp) AccessRead;
              entry_new (Special SlashTmp) AccessWrite].
(** A workspace that may be written but for its [.git]. *)
Definition workspace : FileSystemSandboxPolicy :=
  restricted [entry_new (Special SpecialRoot) AccessRead; entry_new (Special (ProjectRoots None)) AccessWrite;
              entry_new (Special (ProjectRoots (Some (lit ".git")))) AccessRead].
Example workspace_writable : can_write_path_with_cwd host workspace (lit "src/main.rs") (lit "/work") = true.
Proof. reflexivity. Qed.
Example git_protected : can_write_path_with_cwd host workspace (lit "src/../.git/config") (lit "/work") = false.
Proof. reflexivity. Qed.
End SampleSandbox.

Lemma no_sandbox_gives_nothing_away_witness :
  can_write_path_with_cwd SampleSandbox.host SampleSandbox.policy (lit "/tmp/x") (lit "/work") = true ∧
  can_read_path_with_cwd SampleSandbox.host SampleSandbox.policy (lit "/tmp/x") (lit "/work") = true.
Proof.
  destruct (no_sandbox_gives_nothing_away SampleSandbox.host SampleSandbox.policy NetworkEnabled false)
    as [_ [H|[_ H]]]; [reflexivity|reflexivity|discriminate H|].
  apply H; vm_compute; eauto.
Defined.

Lemma materialized_access_fixed_witness :
  resolve_access_with_cwd SampleSandbox.host
    (materialize_project_roots_with_cwd SampleSandbox.host SampleSandbox.workspace (lit "/work"))
    (lit "/work/.git/config") (lit "/elsewhere") = AccessRead.
Proof.
  rewrite (materialized_access_fixed SampleSandbox.host SampleSandbox.workspace (lit "/work/.git/config") (lit "/work"));
    [reflexivity|vm_compute; eauto|vm_compute; eauto|reflexivity].
Defined.

(** Without a directory [/tmp] its special entry resolves to nothing and exceeds nothing,
    but it still makes the policy count as one that grants all writes. *)
Example full_write_without_slash_tmp :
  let host := mkHost None None None false in
  has_full_disk_write_access SampleSandbox.policy = true ∧
  can_write_path_with_cwd host SampleSandbox.policy (lit "/tmp/x") (lit "/work") = false.
Proof. split; reflexivity. Qed.
