(* ===== verification/ExecPolicy.v ===== *)
(** * Execution policies

    Models [codex/codex-rs/execpolicy/src/decision.rs], [rule.rs],
    [policy.rs] and [executable_name.rs] (the non-Windows build).  Prefix
    rules are the only implementation of the trait [Rule], so a [RuleRef] is a
    [PrefixRule].  The multimap keyed by program is a map to the list of rules
    in insertion order.  Absolute paths and file names come from the path
    library and are the class [HostPaths]. *)

From S2P Require Import Prelude RustStr.

(** ** decision.rs *)

Inductive Decision := Allow | Prompt | Forbidden.

#[export] Instance Decision_eq_dec : EqDecision Decision.
Proof. solve_decision. Defined.

(** ** error.rs *)

Record TextPosition := mkPosition { pos_line : nat; pos_column : nat }.
Record TextRange := mkRange { range_start : TextPosition; range_end : TextPosition }.
Record ErrorLocation := mkLocation { loc_path : str; loc_range : TextRange }.

Inductive PolicyError :=
| InvalidDecision (raw : str)
| InvalidPattern (m : str)
| InvalidExample (m : str)
| InvalidRule (m : str)
| ExampleDidNotMatch (rules examples : list str) (location : option ErrorLocation)
| ExampleDidMatch (rule example : str) (location : option ErrorLocation).

(** [Error::with_location]: fills in a missing location. *)
Definition with_location (e : PolicyError) (l : ErrorLocation) : PolicyError :=
  match e with
  | ExampleDidNotMatch rules examples None => ExampleDidNotMatch rules examples (Some l)
  | ExampleDidMatch rule example None => ExampleDidMatch rule example (Some l)
  | other => other
  end.

Definition parse_decision (raw : str) : result Decision PolicyError :=
  if seqb raw (lit "allow") then Ok Allow
  else if seqb raw (lit "prompt") then Ok Prompt
  else if seqb raw (lit "forbidden") then Ok Forbidden
  else Err (InvalidDecision raw).

(** The derived order: [Allow < Prompt < Forbidden]. *)
Definition severity (d : Decision) : nat :=
  match d with Allow => 0 | Prompt => 1 | Forbidden => 2 end.

Definition max_decision (a b : Decision) : Decision :=
  if severity a <=? severity b then b else a.

(** [Iterator::max]. *)
Fixpoint max_of (l : list Decision) : option Decision :=
  match l with
  | [] => None
  | d :: l => Some (match max_of l with Some e => max_decision d e | None => d end)
  end.

(** ** rule.rs *)

Inductive PatternToken :=
| Single (s : str)
| Alts (l : list str).

Definition token_matches (t : PatternToken) (token : str) : bool :=
  match t with
  | Single expected => seqb expected token
  | Alts alternatives => existsb (fun alt => seqb alt token) alternatives
  end.

Definition alternatives (t : PatternToken) : list str :=
  match t with Single s => [s] | Alts l => l end.

Record PrefixPattern := mkPattern { first : str; rest : list PatternToken }.

Fixpoint tokens_match (pattern : list PatternToken) (cmd : list str) : bool :=
  match pattern, cmd with
  | [], _ => true
  | p :: pattern, c :: cmd => token_matches p c && tokens_match pattern cmd
  | _ :: _, [] => false
  end.

Definition matches_prefix (p : PrefixPattern) (cmd : list str) : option (list str) :=
  let pattern_length := S (length (rest p)) in
  match cmd with
  | [] => None
  | c :: cmd' =>
      if (length cmd <? pattern_length) || negb (seqb c (first p)) then None
      else if tokens_match (rest p) cmd' then Some (take pattern_length cmd)
      else None
  end.

Inductive RuleMatch :=
| PrefixRuleMatch (matched_prefix : list str) (decision : Decision)
    (resolved_program : option str) (justification : option str)
| HeuristicsRuleMatch (command : list str) (decision : Decision).

Definition match_decision (m : RuleMatch) : Decision :=
  match m with PrefixRuleMatch _ d _ _ => d | HeuristicsRuleMatch _ d => d end.

Definition with_resolved_program (m : RuleMatch) (p : str) : RuleMatch :=
  match m with
  | PrefixRuleMatch prefix d _ j => PrefixRuleMatch prefix d (Some p) j
  | other => other
  end.

Record PrefixRule := mkRule {
  pattern : PrefixPattern;
  rule_decision : Decision;
  rule_justification : option str;
}.

Definition rule_program (r : PrefixRule) : str := first (pattern r).

Definition rule_matches (r : PrefixRule) (cmd : list str) : option RuleMatch :=
  match matches_prefix (pattern r) cmd with
  | Some prefix => Some (PrefixRuleMatch prefix (rule_decision r) None (rule_justification r))
  | None => None
  end.

Inductive NetworkRuleProtocol := Http | Https | Socks5Tcp | Socks5Udp.

Definition parse_protocol (raw : str) : result NetworkRuleProtocol PolicyError :=
  if seqb raw (lit "http") then Ok Http
  else if seqb raw (lit "https") || seqb raw (lit "https_connect") || seqb raw (lit "http-connect")
  then Ok Https
  else if seqb raw (lit "socks5_tcp") then Ok Socks5Tcp
  else if seqb raw (lit "socks5_udp") then Ok Socks5Udp
  else Err (InvalidRule
              (lit "network_rule protocol must be one of http, https, socks5_tcp, socks5_udp (got "
               ++ raw ++ lit ")")).

Definition as_policy_string (p : NetworkRuleProtocol) : str :=
  match p with
  | Http => lit "http"
  | Https => lit "https"
  | Socks5Tcp => lit "socks5_tcp"
  | Socks5Udp => lit "socks5_udp"
  end.

Record NetworkRule := mkNetworkRule {
  host : str;
  protocol : NetworkRuleProtocol;
  net_decision : Decision;
  net_justification : option str;
}.

Definition contains_char (c : char) (s : str) : bool := existsb (N.eqb c) s.

(** [rsplit_once(c)]. *)
Definition rsplit_once (c : char) (s : str) : option (str * str) :=
  match split_once [c] (rev s) with Some (b, a) => Some (rev a, rev b) | None => None end.

(** [trim_end_matches('.')]. *)
Fixpoint drop_while (p : char → bool) (s : str) : str :=
  match s with
  | c :: s' => if p c then drop_while p s' else s
  | [] => []
  end.

Definition trim_end_char (c : char) (s : str) : str := rev (drop_while (N.eqb c) (rev s)).

Definition all_digits (s : str) : bool := negb (seqb s []) && forallb is_ascii_digit s.

(** The host without brackets or port. *)
Definition host_part (raw host : str) : result str PolicyError :=
  match strip_prefix (lit "[") host with
  | Some stripped =>
      match split_once [93%N] stripped with
      | None => Err (InvalidRule (lit "network_rule host has an invalid bracketed IPv6 literal"))
      | Some (inside, rest) =>
          let port_ok := match strip_prefix (lit ":") rest with
                         | Some port => all_digits port
                         | None => false
                         end in
          if negb (seqb rest []) && negb port_ok then
            Err (InvalidRule (lit "network_rule host contains an unsupported suffix: " ++ raw))
          else Ok inside
      end
  | None =>
      match rsplit_once 58 host with
      | Some (candidate, port) =>
          if (count_char 58 host =? 1) && negb (seqb candidate []) && all_digits port
          then Ok candidate else Ok host
      | None => Ok host
      end
  end.

Definition normalize_network_rule_host (raw : str) : result str PolicyError :=
  let h := trim raw in
  if seqb h [] then Err (InvalidRule (lit "network_rule host cannot be empty"))
  else if contains (lit "://") h || contains_char 47 h || contains_char 63 h || contains_char 35 h
  then Err (InvalidRule
              (lit "network_rule host must be a hostname or IP literal (without scheme or path)"))
  else
    let? h := host_part raw h in
    let normalized := to_ascii_lowercase (trim (trim_end_char 46 h)) in
    if seqb normalized [] then Err (InvalidRule (lit "network_rule host cannot be empty"))
    else if contains_char 42 normalized then
      Err (InvalidRule (lit "network_rule host must be a specific host; wildcards are not allowed"))
    else if existsb is_whitespace normalized then
      Err (InvalidRule (lit "network_rule host cannot contain whitespace"))
    else Ok normalized.

(** ** policy.rs *)

(** [AbsolutePathBuf::try_from] (with the text of its error),
    [Path::file_name], [Path::is_absolute] and the number of
    [Path::components]. *)
Class HostPaths := {
  absolute_path : str → result str str;
  file_name : str → option str;
  is_absolute : str → bool;
  component_count : str → nat;
}.

(** [executable_lookup_key] outside Windows. *)
Definition executable_lookup_key (raw : str) : str := raw.

Definition executable_path_lookup_key `{HostPaths} (path : str) : option str :=
  match file_name path with Some name => Some (executable_lookup_key name) | None => None end.

Record MatchOptions := mkMatchOptions { resolve_host_executables : bool }.
Definition default_options : MatchOptions := mkMatchOptions false.

Record Policy := mkPolicy {
  rules_by_program : gmap str (list PrefixRule);
  network_rules : list NetworkRule;
  host_executables_by_name : gmap str (list str);
}.

Definition empty_policy : Policy := mkPolicy ∅ [] ∅.

(** [MultiMap::get_vec] and [MultiMap::insert]. *)
Definition rules_for (m : gmap str (list PrefixRule)) (program : str) : list PrefixRule :=
  default [] (m !! program).

Definition multimap_insert (m : gmap str (list PrefixRule)) (program : str) (r : PrefixRule) :
    gmap str (list PrefixRule) :=
  <[program := rules_for m program ++ [r]]> m.

Definition add_prefix_rule (p : Policy) (prefix : list str) (d : Decision) :
    result Policy PolicyError :=
  match prefix with
  | [] => Err (InvalidPattern (lit "prefix cannot be empty"))
  | first_token :: rest =>
      let rule := mkRule (mkPattern first_token (map Single rest)) d None in
      Ok (mkPolicy (multimap_insert (rules_by_program p) first_token rule) (network_rules p)
            (host_executables_by_name p))
  end.

(** An optional justification that is given must not be blank. *)
Definition check_justification (j : option str) : result unit PolicyError :=
  match j with
  | Some raw =>
      if seqb (trim raw) [] then Err (InvalidRule (lit "justification cannot be empty")) else Ok tt
  | None => Ok tt
  end.

Definition add_network_rule (p : Policy) (h : str) (proto : NetworkRuleProtocol) (d : Decision)
    (justification : option str) : result Policy PolicyError :=
  let? h := normalize_network_rule_host h in
  let? _ := check_justification justification in
  Ok (mkPolicy (rules_by_program p)
        (network_rules p ++ [mkNetworkRule h proto d justification])
        (host_executables_by_name p)).

Definition set_host_executable_paths (p : Policy) (name : str) (paths : list str) : Policy :=
  mkPolicy (rules_by_program p) (network_rules p) (<[name := paths]> (host_executables_by_name p)).

(** The rules of two policies for one program, those of the first before. *)
Definition merge_rules (a b : option (list PrefixRule)) : option (list PrefixRule) :=
  match a, b with
  | Some a, Some b => Some (a ++ b)
  | Some a, None => Some a
  | None, b => b
  end.

Definition merge_overlay (p overlay : Policy) : Policy :=
  mkPolicy (merge merge_rules (rules_by_program p) (rules_by_program overlay))
    (network_rules p ++ network_rules overlay)
    (host_executables_by_name overlay ∪ host_executables_by_name p).

(** [entries.retain(|entry| entry != host)]. *)
Definition retain_ne (h : str) (entries : list str) : list str :=
  List.filter (fun e => negb (seqb e h)) entries.

Definition upsert_domain (entries : list str) (h : str) : list str := retain_ne h entries ++ [h].

Definition compile_rule (st : list str * list str) (r : NetworkRule) : list str * list str :=
  let '(allowed, denied) := st in
  match net_decision r with
  | Allow => (upsert_domain allowed (host r), retain_ne (host r) denied)
  | Forbidden => (retain_ne (host r) allowed, upsert_domain denied (host r))
  | Prompt => (allowed, denied)
  end.

Definition compiled_network_domains (p : Policy) : list str * list str :=
  foldl compile_rule ([], []) (network_rules p).

Definition match_exact_rules (p : Policy) (cmd : list str) : option (list RuleMatch) :=
  match cmd with
  | [] => None
  | f :: _ => Some (omap (fun r => rule_matches r cmd) (rules_for (rules_by_program p) f))
  end.

Definition match_host_executable_rules `{HostPaths} (p : Policy) (cmd : list str) : list RuleMatch :=
  match cmd with
  | [] => []
  | f :: args =>
      match absolute_path f with
      | Err _ => []
      | Ok program =>
          match executable_path_lookup_key program with
          | None => []
          | Some basename =>
              match rules_by_program p !! basename with
              | None => []
              | Some rules =>
                  let listed :=
                    match host_executables_by_name p !! basename with
                    | Some paths => existsb (fun path => seqb path program) paths
                    | None => true
                    end in
                  if listed then
                    map (fun m => with_resolved_program m program)
                      (omap (fun r => rule_matches r (basename :: args)) rules)
                  else []
              end
          end
      end
  end.

Definition matches_for_command_with_options `{HostPaths} (p : Policy) (cmd : list str)
    (heuristics_fallback : option (list str → Decision)) (options : MatchOptions) :
    list RuleMatch :=
  let matched_rules :=
    match match_exact_rules p cmd with
    | Some (m :: ms) => m :: ms
    | _ => if resolve_host_executables options then match_host_executable_rules p cmd else []
    end in
  match matched_rules, heuristics_fallback with
  | [], Some h => [HeuristicsRuleMatch cmd (h cmd)]
  | _, _ => matched_rules
  end.

Record Evaluation := mkEvaluation { eval_decision : Decision; matched_rules : list RuleMatch }.

(** [Evaluation::from_matches]: [None] is the panic on an empty list. *)
Definition from_matches (ms : list RuleMatch) : option Evaluation :=
  match max_of (map match_decision ms) with
  | Some d => Some (mkEvaluation d ms)
  | None => None
  end.

Definition is_match (e : Evaluation) : bool :=
  existsb (fun m => match m with HeuristicsRuleMatch _ _ => false | _ => true end) (matched_rules e).

Definition check_with_options `{HostPaths} (p : Policy) (cmd : list str) (h : list str → Decision)
    (options : MatchOptions) : option Evaluation :=
  from_matches (matches_for_command_with_options p cmd (Some h) options).

Definition check `{HostPaths} (p : Policy) (cmd : list str) (h : list str → Decision) :
    option Evaluation := check_with_options p cmd h default_options.

Definition check_multiple_with_options `{HostPaths} (p : Policy) (cmds : list (list str))
    (h : list str → Decision) (options : MatchOptions) : option Evaluation :=
  from_matches
    (concat (map (fun cmd => matches_for_command_with_options p cmd (Some h) options) cmds)).

(** ** get_allowed_prefixes *)

Definition render_pattern_token (t : PatternToken) : str :=
  match t with
  | Single v => v
  | Alts l => lit "[" ++ join (lit "|") l ++ lit "]"
  end.

Definition rendered_prefix (r : PrefixRule) : list str :=
  first (pattern r) :: map render_pattern_token (rest (pattern r)).

(** The lexicographic order of [Vec<String>]. *)
Fixpoint prefix_leb (a b : list str) : bool :=
  match a, b with
  | [], _ => true
  | _ :: _, [] => false
  | x :: a, y :: b => if seqb x y then prefix_leb a b else str_leb x y
  end.

Fixpoint insert_prefix (p : list str) (l : list (list str)) : list (list str) :=
  match l with
  | [] => [p]
  | q :: l => if prefix_leb p q then p :: q :: l else q :: insert_prefix p l
  end.

Definition sort_prefixes (l : list (list str)) : list (list str) := foldr insert_prefix [] l.

(** [Vec::dedup]: removes consecutive repetitions. *)
Fixpoint dedup (l : list (list str)) : list (list str) :=
  match l with
  | [] => []
  | p :: l =>
      match dedup l with
      | q :: l' => if bool_decide (p = q) then q :: l' else p :: q :: l'
      | [] => [p]
      end
  end.

Definition get_allowed_prefixes (p : Policy) : list (list str) :=
  let all := concat (map snd (map_to_list (rules_by_program p))) in
  dedup (sort_prefixes
    (map rendered_prefix (filter (fun r => rule_decision r = Allow) all))).
