(* ===== verification/ExecPolicyFacts.v ===== *)
(** * Facts about execution policies *)

From S2P Require Import Prelude RustStr ExecPolicy.

(** ** Decisions *)

Definition stricter (a b : Decision) : Prop := severity a ≤ severity b.

Lemma max_decision_spec a b :
  stricter a (max_decision a b) ∧ stricter b (max_decision a b) ∧
  (max_decision a b = a ∨ max_decision a b = b).
Proof. unfold stricter. destruct a, b; simpl; auto with lia. Qed.

Lemma severity_inj a b : severity a = severity b → a = b.
Proof. by destruct a, b. Qed.

Lemma max_of_spec l d :
  max_of l = Some d ↔ d ∈ l ∧ ∀ e, e ∈ l → stricter e d.
Proof.
  revert d. induction l as [|x l IH]; intros d; simpl; [set_solver|].
  destruct (max_of l) as [e|] eqn:E.
  - destruct (proj1 (IH e) eq_refl) as [He Hmax].
    destruct (max_decision_spec x e) as (Hx & He' & Hor). split.
    + intros [= <-]. split; [destruct Hor as [-> | ->]; set_solver|].
      intros y [->|Hy]%elem_of_cons; [done|]. unfold stricter in *. specialize (Hmax y Hy). lia.
    + intros [Hin Hle]. f_equal. apply severity_inj. unfold stricter in *.
      assert (H1 : severity x ≤ severity d) by (apply Hle; set_solver).
      assert (H2 : severity e ≤ severity d) by (apply Hle; set_solver).
      apply elem_of_cons in Hin as [->|Hin]; [|specialize (Hmax d Hin)];
        destruct Hor as [Hor|Hor]; rewrite Hor in *; lia.
  - assert (l = []) as -> by (destruct l as [|y l]; [done|]; simpl in E; discriminate).
    split.
    + intros [= <-]. split; [by apply list_elem_of_singleton|].
      intros y ->%list_elem_of_singleton. unfold stricter. lia.
    + by intros [->%list_elem_of_singleton _].
Qed.

Lemma max_of_nonempty l : l ≠ [] → is_Some (max_of l).
Proof. destruct l; [done|]. simpl. eauto. Qed.

Lemma max_of_app l1 l2 :
  max_of (l1 ++ l2) = match max_of l1, max_of l2 with
                      | Some a, Some b => Some (max_decision a b)
                      | Some a, None => Some a
                      | None, r => r
                      end.
Proof.
  induction l1 as [|x l1 IH]; simpl; [by destruct (max_of l2)|]. rewrite IH.
  destruct (max_of l1) as [[]|], (max_of l2) as [[]|]; by destruct x.
Qed.

(** ** Matching *)

Lemma tokens_match_spec ts cmd :
  tokens_match ts cmd = true ↔
  ∃ pre suf, cmd = pre ++ suf ∧ Forall2 (fun t c => c ∈ alternatives t) ts pre.
Proof.
  revert cmd. induction ts as [|t ts IH]; intros cmd; simpl.
  - split; [|done]. intros _. exists [], cmd. by split; [|constructor].
  - destruct cmd as [|c cmd].
    + split; [done|]. intros (pre & suf & E & H). inversion H; subst. done.
    + rewrite andb_true_iff, IH.
      assert (Ht : token_matches t c = true ↔ c ∈ alternatives t).
      { destruct t as [s|l]; simpl; [rewrite seqb_eq; set_solver|].
        rewrite existsb_exists, list_elem_of_In. split.
        - intros (x & Hx & ->%seqb_eq). done.
        - intros Hx. exists c. by rewrite seqb_refl. }
      rewrite Ht. split.
      * intros [Hc (pre & suf & -> & H)]. exists (c :: pre), suf. split; [done|by constructor].
      * intros (pre & suf & E & H). inversion H; subst. injection E as -> ->. eauto.
Qed.

(** A prefix rule matches exactly the commands that start with a choice of
    its alternatives: the answer is the matched prefix, its first token is the
    rule's program and each further token one of the alternatives. *)
Theorem matches_prefix_spec p cmd pre :
  matches_prefix p cmd = Some pre ↔
  ∃ suf, cmd = pre ++ suf ∧
         Forall2 (fun alts c => c ∈ alts) ([first p] :: map alternatives (rest p)) pre.
Proof.
  unfold matches_prefix. destruct cmd as [|c cmd].
  { split; [done|]. intros (suf & E & H). inversion H; subst. done. }
  assert (Hlen : ∀ pre', Forall2 (fun t c => c ∈ alternatives t) (rest p) pre' ↔
                 Forall2 (fun alts c => c ∈ alts) (map alternatives (rest p)) pre').
  { intros pre'. symmetry. apply (Forall2_fmap_l alternatives). }
  split.
  - destruct (Nat.ltb_spec (length (c :: cmd)) (S (length (rest p)))); [done|]. simpl.
    destruct (seqb c (first p)) eqn:Ec; [|done]. simpl. apply seqb_eq in Ec as ->.
    destruct (tokens_match (rest p) cmd) eqn:Et; [|done]. intros [= <-].
    apply tokens_match_spec in Et as (pre & suf & -> & Hf). exists suf.
    rewrite (Forall2_length _ _ _ Hf), take_app_length. split; [done|].
    constructor; [set_solver|]. by apply Hlen.
  - intros (suf & E & H). inversion H as [|alts c' altss pre' Hc Hf]; subst.
    injection E as -> ->. apply list_elem_of_singleton in Hc as ->. apply Hlen in Hf.
    pose proof (Forall2_length _ _ _ Hf) as Hl.
    destruct (Nat.ltb_spec (length (first p :: pre' ++ suf)) (S (length (rest p)))) as [Hlt|].
    { simpl in Hlt. rewrite length_app in Hlt. lia. }
    rewrite seqb_refl. simpl.
    rewrite (proj2 (tokens_match_spec (rest p) (pre' ++ suf))) by eauto.
    by rewrite Hl, take_app_length.
Qed.

(** ** Evaluation *)

Section Evaluation.
Context `{HP : HostPaths}.

Lemma matches_nonempty p cmd h o :
  matches_for_command_with_options p cmd (Some h) o ≠ [].
Proof. unfold matches_for_command_with_options. cbv zeta. by repeat case_match. Qed.

(** The evaluation of a non-empty list of matches. *)
Lemma from_matches_Some ms e :
  from_matches ms = Some e ↔
  matched_rules e = ms ∧ max_of (map match_decision ms) = Some (eval_decision e).
Proof.
  unfold from_matches. destruct (max_of (map match_decision ms)) as [d|].
  - split; [by intros [= <-]|]. intros [<- [= ->]]. by destruct e.
  - split; [done|]. by intros [_ ?].
Qed.

(** *** The rules that govern a command *)

(** A rule agrees with the words: each of its first words is one that the pattern has there. *)
Definition agrees (r : PrefixRule) (words : list str) : Prop :=
  ∃ pre suf, words = pre ++ suf ∧
    Forall2 (fun alts c => c ∈ alts) ([first (pattern r)] :: map alternatives (rest (pattern r))) pre.

(** The policy has a rule under a name. *)
Definition rule_under (p : Policy) (name : str) (r : PrefixRule) : Prop :=
  ∃ rules, rules_by_program p !! name = Some rules ∧ r ∈ rules.

(** A rule for the command as it is written. *)
Definition applies (p : Policy) (cmd : list str) (r : PrefixRule) : Prop :=
  ∃ f args, cmd = f :: args ∧ rule_under p f r ∧ agrees r cmd.

(** A rule for the name of an absolute path, unless the policy lists other paths for it. *)
Definition applies_to_path (p : Policy) (cmd : list str) (r : PrefixRule) : Prop :=
  ∃ f args program name, cmd = f :: args ∧ absolute_path f = Ok program ∧ file_name program = Some name ∧
    (∀ paths, host_executables_by_name p !! name = Some paths → program ∈ paths) ∧
    rule_under p name r ∧ agrees r (name :: args).

(** Rules for the name count only where no rule is for the command as written. *)
Definition governs (p : Policy) (o : MatchOptions) (cmd : list str) (r : PrefixRule) : Prop :=
  applies p cmd r ∨
  (resolve_host_executables o = true ∧ (∀ r', ¬ applies p cmd r') ∧ applies_to_path p cmd r).

Lemma rule_matches_agrees r words : is_Some (rule_matches r words) ↔ agrees r words.
Proof.
  unfold rule_matches, agrees. destruct (matches_prefix (pattern r) words) as [pre|] eqn:E.
  - split; [|eauto]. intros _. exists pre. by apply matches_prefix_spec.
  - split; [by intros []|]. intros (pre & H). apply matches_prefix_spec in H. congruence.
Qed.

Lemma rule_matches_decision r words m : rule_matches r words = Some m → match_decision m = rule_decision r.
Proof. unfold rule_matches. case_match; [|done]. by intros [= <-]. Qed.

(** The decisions of the rules of a list that match are those of the rules that agree. *)
Lemma matched_decisions rules words d :
  d ∈ map match_decision (omap (fun r => rule_matches r words) rules) ↔
  ∃ r, r ∈ rules ∧ agrees r words ∧ rule_decision r = d.
Proof.
  rewrite list_elem_of_In, in_map_iff. setoid_rewrite <- list_elem_of_In. setoid_rewrite list_elem_of_omap. split.
  - intros (m & <- & r & Hr & Hm). exists r. rewrite (rule_matches_decision _ _ _ Hm). split_and!; [done| |done].
    apply rule_matches_agrees. eauto.
  - intros (r & Hr & [m Hm]%rule_matches_agrees & <-). exists m. split; [by eapply rule_matches_decision|eauto].
Qed.

Lemma exact_decisions p cmd d :
  d ∈ map match_decision (default [] (match_exact_rules p cmd)) ↔ ∃ r, applies p cmd r ∧ rule_decision r = d.
Proof.
  destruct cmd as [|f args].
  { cbn. split; [by intros ?%not_elem_of_nil|]. by intros (r & (f & args & ? & _) & _). }
  change (default [] (match_exact_rules p (f :: args)))
    with (omap (fun r => rule_matches r (f :: args)) (rules_for (rules_by_program p) f)).
  rewrite matched_decisions. unfold rules_for, applies, rule_under. split.
  - intros (r & Hr & Ha & Hd). exists r. split; [|done]. exists f, args. split_and!; [done| |done].
    destruct (rules_by_program p !! f) as [rules|]; [eauto|by apply not_elem_of_nil in Hr].
  - intros (r & (f' & args' & [= <- <-] & (rules & Hl & Hr) & Ha) & Hd). exists r. rewrite Hl. eauto.
Qed.

Lemma path_decisions p cmd d :
  d ∈ map match_decision (match_host_executable_rules p cmd) ↔ ∃ r, applies_to_path p cmd r ∧ rule_decision r = d.
Proof.
  assert (∀ program ms, map match_decision (map (fun m => with_resolved_program m program) ms) = map match_decision ms) as Hw.
  { intros program ms. rewrite map_map. apply map_ext. by intros []. }
  unfold match_host_executable_rules, executable_path_lookup_key, executable_lookup_key. split.
  - destruct cmd as [|f args]; [by intros ?%not_elem_of_nil|].
    destruct (absolute_path f) as [program|] eqn:Ef; [|by intros ?%not_elem_of_nil].
    destruct (file_name program) as [name|] eqn:En; [|by intros ?%not_elem_of_nil].
    destruct (rules_by_program p !! name) as [rules|] eqn:Er; [|by intros ?%not_elem_of_nil]. cbv zeta.
    destruct (match host_executables_by_name p !! name with Some _ => _ | None => _ end) eqn:El; [|by intros ?%not_elem_of_nil].
    rewrite Hw, matched_decisions. intros (r & Hr & Ha & Hd). exists r. split; [|done].
    exists f, args, program, name. split_and!; try done; [|by exists rules]. intros paths Hp. rewrite Hp in El.
    apply existsb_exists in El as (x & Hx & ->%seqb_eq). by apply list_elem_of_In.
  - intros (r & (f & args & program & name & -> & -> & -> & Hl & (rules & -> & Hr) & Ha) & Hd). cbv zeta.
    replace (match host_executables_by_name p !! name with Some _ => _ | None => _ end) with true.
    { rewrite Hw, matched_decisions. eauto. }
    destruct (host_executables_by_name p !! name) as [paths|] eqn:Ep; [|done]. symmetry. apply existsb_exists.
    exists program. rewrite seqb_refl, <- list_elem_of_In. auto.
Qed.

(** The decisions of all matches are those of the rules that govern the command, or the fallback. *)
Lemma governing_decisions p cmd h o d :
  d ∈ map match_decision (matches_for_command_with_options p cmd (Some h) o) ↔
  (∃ r, governs p o cmd r ∧ rule_decision r = d) ∨ (∀ r, ¬ governs p o cmd r) ∧ d = h cmd.
Proof.
  assert (∀ l P, (∀ d, d ∈ map match_decision l ↔ ∃ r, P r ∧ rule_decision r = d) → l = [] ↔ ∀ r, ¬ P r) as Hnil.
  { intros l P H. split.
    - intros -> r Hr. apply (not_elem_of_nil (rule_decision r)), H. eauto.
    - destruct l as [|m l]; [done|]. intros Hn. destruct (proj1 (H (match_decision m))) as (r & Hr & _); [by left|by destruct (Hn r)]. }
  pose proof (exact_decisions p cmd) as He. pose proof (Hnil _ _ He) as Hen.
  pose proof (path_decisions p cmd) as Hp. pose proof (Hnil _ _ Hp) as Hpn.
  unfold matches_for_command_with_options, governs. cbv zeta.
  destruct (default [] (match_exact_rules p cmd)) as [|m ms] eqn:E.
  - pose proof (proj1 Hen eq_refl) as Hn.
    replace (match match_exact_rules p cmd with Some (_ :: _) => _ | _ => _ end)
      with (if resolve_host_executables o then match_host_executable_rules p cmd else [])
      by (destruct (match_exact_rules p cmd) as [[|??]|]; cbn in E; done).
    destruct (resolve_host_executables o); cbn [map]; [destruct (match_host_executable_rules p cmd) as [|x l] eqn:Ex|].
    + cbn [map match_decision]. rewrite list_elem_of_singleton. pose proof (proj1 Hpn eq_refl). naive_solver.
    + rewrite Hp. assert (∃ r, applies_to_path p cmd r) as [r0 Hr0].
      { destruct (proj1 (Hp (match_decision x))) as (r & Hr & _); [by left|eauto]. }
      naive_solver.
    + cbn [map match_decision]. rewrite list_elem_of_singleton. naive_solver.
  - destruct (match_exact_rules p cmd) as [[|??]|]; cbn in E; try done. injection E as -> ->. rewrite He.
    destruct (proj1 (He (match_decision m))) as (r0 & Hr0 & _); [by left|]. naive_solver.
Qed.


(** A compound command is as strict as its strictest part: checking several
    commands gives the maximum of the decisions of the single checks. *)
Theorem check_multiple_max p cmds h o :
  eval_decision <$> check_multiple_with_options p cmds h o =
  max_of (omap (fun cmd => eval_decision <$> check_with_options p cmd h o) cmds).
Proof.
  unfold check_multiple_with_options, check_with_options.
  assert (Hfm : ∀ ms, eval_decision <$> from_matches ms = max_of (map match_decision ms)).
  { intros ms. unfold from_matches. by destruct (max_of _). }
  rewrite Hfm. induction cmds as [|cmd cmds IH]; [done|].
  cbn [map concat]. rewrite map_app, max_of_app, IH. cbn [omap list_omap].
  rewrite Hfm. set (ms := matches_for_command_with_options p cmd (Some h) o).
  destruct (max_of_nonempty (map match_decision ms)) as [d Hd].
  { intros Hn. by apply map_eq_nil, matches_nonempty in Hn. }
  unfold ms in *. rewrite Hd. cbn [max_of].
  match goal with |- match ?x with _ => _ end = _ => by destruct x end.
Qed.

(** The matching rules of a merged policy. *)
Lemma merge_rules_for p q f :
  rules_for (rules_by_program (merge_overlay p q)) f =
  rules_for (rules_by_program p) f ++ rules_for (rules_by_program q) f.
Proof.
  unfold rules_for, merge_overlay. simpl. rewrite lookup_merge.
  destruct (rules_by_program p !! f), (rules_by_program q !! f); simpl; by rewrite ?app_nil_r.
Qed.

Lemma exact_rules_unfold p cmd h o m ms :
  match_exact_rules p cmd = Some (m :: ms) →
  matches_for_command_with_options p cmd h o = m :: ms.
Proof. intros E. unfold matches_for_command_with_options. rewrite E. by destruct h. Qed.

(** An overlay never weakens a policy: for a command that an exact rule of
    the base policy matches, the merged policy answers a decision at least as
    strict as the base policy's. *)
Theorem merge_overlay_monotone p q cmd h o e m ms :
  match_exact_rules p cmd = Some (m :: ms) →
  check_with_options p cmd h o = Some e →
  ∃ e', check_with_options (merge_overlay p q) cmd h o = Some e' ∧
        stricter (eval_decision e) (eval_decision e').
Proof.
  intros Hex. unfold check_with_options. rewrite (exact_rules_unfold _ _ _ _ _ _ Hex).
  intros [_ Hmax]%from_matches_Some.
  assert (Hm : ∃ ms', match_exact_rules (merge_overlay p q) cmd = Some (m :: ms ++ ms')).
  { unfold match_exact_rules in *. destruct cmd as [|f args]; [done|].
    rewrite merge_rules_for, omap_app. injection Hex as ->. eexists. done. }
  destruct Hm as [ms' Hm]. rewrite (exact_rules_unfold _ _ _ _ _ _ Hm).
  change (m :: ms ++ ms') with ((m :: ms) ++ ms').
  exists (mkEvaluation (match max_of (map match_decision ms') with
                        | Some d => max_decision (eval_decision e) d
                        | None => eval_decision e end) ((m :: ms) ++ ms')).
  split.
  - apply from_matches_Some. split; [done|]. rewrite map_app, max_of_app, Hmax. simpl.
    by destruct (max_of (map match_decision ms')).
  - simpl. destruct (max_of (map match_decision ms')); [apply max_decision_spec|unfold stricter; lia].
Qed.
End Evaluation.

(** ** Network domains *)

(** The last rule for a host that allows or forbids it. *)
Fixpoint last_verdict (h : str) (rules : list NetworkRule) : option Decision :=
  match rules with
  | [] => None
  | r :: rules =>
      match last_verdict h rules with
      | Some d => Some d
      | None => if seqb (host r) h && negb (bool_decide (net_decision r = Prompt))
                then Some (net_decision r) else None
      end
  end.

Lemma elem_of_retain_ne x h l : x ∈ retain_ne h l ↔ x ∈ l ∧ x ≠ h.
Proof.
  unfold retain_ne. rewrite !list_elem_of_In, filter_In, negb_true_iff, seqb_neq. done.
Qed.

Lemma NoDup_retain_ne h l : NoDup l → NoDup (retain_ne h l).
Proof. unfold retain_ne. rewrite !NoDup_ListNoDup. apply List.NoDup_filter. Qed.

Lemma NoDup_upsert h l : NoDup l → NoDup (upsert_domain l h).
Proof.
  intros H. unfold upsert_domain. apply NoDup_app. split_and!.
  - by apply NoDup_retain_ne.
  - intros x [_ Hx]%elem_of_retain_ne ->%list_elem_of_singleton. done.
  - apply NoDup_singleton.
Qed.

Lemma last_verdict_snoc h rules r :
  last_verdict h (rules ++ [r]) =
  if seqb (host r) h && negb (bool_decide (net_decision r = Prompt))
  then Some (net_decision r) else last_verdict h rules.
Proof.
  induction rules as [|x rules IH]; simpl; [done|]. rewrite IH.
  destruct (seqb (host r) h && negb (bool_decide (net_decision r = Prompt))); [done|].
  done.
Qed.

Lemma compiled_inv rules :
  let st := foldl compile_rule ([], []) rules in
  NoDup st.1 ∧ NoDup st.2 ∧
  ∀ h, (h ∈ st.1 ↔ last_verdict h rules = Some Allow) ∧
       (h ∈ st.2 ↔ last_verdict h rules = Some Forbidden).
Proof.
  induction rules as [|r rules IH] using rev_ind.
  { simpl. split_and!; [constructor..|]. set_solver. }
  rewrite foldl_app. cbn [foldl]. destruct (foldl compile_rule ([], []) rules) as [al de].
  simpl in IH |- *. destruct IH as (Ha & Hd & IH). unfold compile_rule.
  assert (Hup : ∀ x h l, x ∈ upsert_domain l h ↔ x ∈ l ∨ x = h).
  { intros x h l. unfold upsert_domain.
    rewrite elem_of_app, elem_of_retain_ne, list_elem_of_singleton.
    destruct (decide (x = h)); tauto. }
  destruct (net_decision r) eqn:Er; simpl; (split_and!; [by auto using NoDup_retain_ne, NoDup_upsert..|]);
    intros h; rewrite last_verdict_snoc, Er, ?Hup, ?elem_of_retain_ne;
    destruct (IH h) as [-> ->];
    (destruct (decide (host r = h)) as [<-|Hne];
     [rewrite seqb_refl|rewrite (proj2 (seqb_neq _ _) Hne)]); simpl;
    split; split; intros; destruct_and?; destruct_or?; auto; congruence.
Qed.

(** The last word counts: a host is in the compiled allow list exactly when
    the last rule that allows or forbids it allows it, in the deny list exactly
    when that rule forbids it; the lists have no repetition and are disjoint. *)
Theorem compiled_network_domains_spec p :
  let '(allowed, denied) := compiled_network_domains p in
  NoDup allowed ∧ NoDup denied ∧ (∀ h, h ∈ allowed → h ∉ denied) ∧
  ∀ h, (h ∈ allowed ↔ last_verdict h (network_rules p) = Some Allow) ∧
       (h ∈ denied ↔ last_verdict h (network_rules p) = Some Forbidden).
Proof.
  pose proof (compiled_inv (network_rules p)) as H. unfold compiled_network_domains.
  destruct (foldl compile_rule ([], []) (network_rules p)) as [al de]. simpl in H.
  destruct H as (Ha & Hd & H). split_and!; [done..| |done].
  intros h Hh1%H Hh2%H. congruence.
Qed.

(** ** Hosts *)

Lemma elem_of_trim_start x s : x ∈ trim_start s → x ∈ s.
Proof. induction s as [|c s IH]; simpl; [done|]. case_match; set_solver. Qed.

Lemma elem_of_trim x s : x ∈ trim s → x ∈ s.
Proof.
  unfold trim. intros H. apply elem_of_trim_start.
  destruct (trim_end_prefix (trim_start s)) as (w & E & _). rewrite E. set_solver.
Qed.

Lemma elem_of_trim_end_char x c s : x ∈ trim_end_char c s → x ∈ s.
Proof.
  unfold trim_end_char. rewrite !list_elem_of_In, <- in_rev, (in_rev s), <- !list_elem_of_In.
  generalize (rev s). intros l. induction l as [|y l IH]; simpl; [done|]. case_match; set_solver.
Qed.

Lemma rsplit_once_Some c s a b : rsplit_once c s = Some (a, b) → s = a ++ c :: b.
Proof.
  unfold rsplit_once. destruct (split_once [c] (rev s)) as [[b' a']|] eqn:E; [|done].
  intros [= <- <-]. apply split_once_app, (f_equal (@rev N)) in E.
  rewrite rev_involutive, rev_app_distr in E. simpl in E. by rewrite <- app_assoc in E.
Qed.

Lemma host_part_sub raw h h' x : host_part raw h = Ok h' → x ∈ h' → x ∈ h.
Proof.
  unfold host_part. destruct (strip_prefix (lit "[") h) as [s|] eqn:Ep.
  - apply strip_prefix_Some in Ep as ->.
    destruct (split_once [93%N] s) as [[i r]|] eqn:Es; [|done].
    apply split_once_app in Es as ->. cbv zeta. case_match; [done|]. intros [= <-]. set_solver.
  - destruct (rsplit_once 58 h) as [[c p]|] eqn:Es; [|by intros [= <-]].
    apply rsplit_once_Some in Es. case_match; intros [= <-]; rewrite ?Es; set_solver.
Qed.

Lemma contains_char_spec c s : contains_char c s = true ↔ c ∈ s.
Proof.
  unfold contains_char. rewrite existsb_exists, list_elem_of_In. split.
  - intros (x & Hx & ->%N.eqb_eq). done.
  - intros H. exists c. by rewrite N.eqb_refl.
Qed.

Lemma contains_char_false c s : contains_char c s = false ↔ c ∉ s.
Proof. rewrite <- contains_char_spec. by destruct (contains_char c s). Qed.

Lemma lower_inv c x : to_ascii_lower c = x → (x < 97 ∨ 122 < x)%N → c = x.
Proof.
  unfold to_ascii_lower. destruct (N.leb_spec 65 c), (N.leb_spec c 90); simpl; lia.
Qed.

Lemma to_ascii_lower_idemp c : to_ascii_lower (to_ascii_lower c) = to_ascii_lower c.
Proof.
  unfold to_ascii_lower. destruct (N.leb_spec 65 c), (N.leb_spec c 90); simpl;
    repeat match goal with |- context [(?a <=? ?b)%N] => destruct (N.leb_spec a b) end;
    simpl; lia.
Qed.

(** A host as the policy stores it. *)
Definition clean_host (h : str) : Prop :=
  h ≠ [] ∧ to_ascii_lowercase h = h ∧ Forall (fun c => is_whitespace c = false) h ∧
  (∀ c, c ∈ [47; 63; 35; 42]%N → c ∉ h).

(** A stored network host is clean: when a host is accepted, the normal
    form is not empty, in lower case, and has no white space, wildcard, slash,
    question mark or hash. *)
Theorem normalize_network_rule_host_clean raw h :
  normalize_network_rule_host raw = Ok h → clean_host h.
Proof.
  unfold normalize_network_rule_host. cbv zeta.
  destruct (seqb (trim raw) []); [done|].
  destruct (contains _ _ || contains_char 47 (trim raw) || contains_char 63 (trim raw)
            || contains_char 35 (trim raw)) eqn:Ec; [done|].
  rewrite !orb_false_iff, !contains_char_false in Ec. destruct Ec as [[[_ Hs] Hq] Hh].
  intros (hp & Hhp & H)%rbind_ok.
  set (n := trim (trim_end_char 46 hp)) in *.
  destruct (seqb (to_ascii_lowercase n) []) eqn:E1; [done|]. apply seqb_neq in E1.
  destruct (contains_char 42 (to_ascii_lowercase n)) eqn:E2; [done|].
  apply contains_char_false in E2.
  destruct (existsb is_whitespace (to_ascii_lowercase n)) eqn:E3; [done|]. injection H as <-.
  split_and!; [done| | |].
  - unfold to_ascii_lowercase. rewrite map_map. apply map_ext, to_ascii_lower_idemp.
  - apply Forall_forall. intros c Hc. destruct (is_whitespace c) eqn:Ew; [|done].
    exfalso. apply not_true_iff_false in E3. apply E3, existsb_exists. exists c.
    by rewrite <- list_elem_of_In.
  - assert (Hsub : ∀ c, (c < 97)%N → c ∈ to_ascii_lowercase n → c ∈ trim raw).
    { intros c Hc. unfold to_ascii_lowercase. rewrite list_elem_of_In, in_map_iff.
      intros (d & Hd & Hin). apply lower_inv in Hd as ->; [|lia].
      apply list_elem_of_In, elem_of_trim, elem_of_trim_end_char in Hin.
      by eapply host_part_sub. }
    intros c. rewrite !elem_of_cons, elem_of_nil. intros [->|[->|[->|[->|[]]]]]; [..|done];
      intros Hin%Hsub; done.
Qed.

Lemma normalize_network_rule_host_clean_witness : clean_host (lit "example.com").
Proof.
  apply (normalize_network_rule_host_clean (lit " Example.COM.:443 ")). vm_compute. reflexivity.
Defined.

(** ** Allowed prefixes *)

Definition ple (a b : list str) : Prop := prefix_leb a b = true.

Lemma ple_total a b : ple a b ∨ ple b a.
Proof.
  unfold ple. revert b. induction a as [|x a IH]; intros [|y b]; simpl; auto.
  destruct (seqb x y) eqn:E1, (seqb y x) eqn:E2;
    rewrite ?seqb_eq, ?seqb_neq in *; try congruence; auto using str_leb_total.
Qed.

Lemma ple_antisym a b : ple a b → ple b a → a = b.
Proof.
  unfold ple. revert b. induction a as [|x a IH]; intros [|y b]; simpl; auto; try done.
  destruct (seqb x y) eqn:E1, (seqb y x) eqn:E2; rewrite ?seqb_eq, ?seqb_neq in *; try congruence.
  - intros. subst. f_equal. auto.
  - intros. exfalso. apply E1. by apply str_leb_antisym.
Qed.

Lemma ple_trans a b c : ple a b → ple b c → ple a c.
Proof.
  unfold ple. revert b c. induction a as [|x a IH]; intros [|y b] [|z c]; simpl; auto; try done.
  destruct (seqb x y) eqn:E1, (seqb y z) eqn:E2, (seqb x z) eqn:E3;
    rewrite ?seqb_eq, ?seqb_neq in *; subst; eauto using str_leb_trans; try congruence.
  intros H1 H2. exfalso. apply E1. by apply str_leb_antisym.
Qed.

Lemma insert_prefix_elem p l x : x ∈ insert_prefix p l ↔ x = p ∨ x ∈ l.
Proof. induction l as [|q l IH]; simpl; [set_solver|]. case_match; set_solver. Qed.

Lemma sort_prefixes_elem l x : x ∈ sort_prefixes l ↔ x ∈ l.
Proof. induction l as [|p l IH]; simpl; [done|]. rewrite insert_prefix_elem, IH. set_solver. Qed.

Inductive sorted_prefixes : list (list str) → Prop :=
| sp_nil : sorted_prefixes []
| sp_cons p l : (∀ q, q ∈ l → ple p q) → sorted_prefixes l → sorted_prefixes (p :: l).

Lemma insert_prefix_sorted p l : sorted_prefixes l → sorted_prefixes (insert_prefix p l).
Proof.
  induction 1 as [|q l Hq Hl IH]; simpl; [constructor; [set_solver|constructor]|].
  destruct (prefix_leb p q) eqn:E.
  - constructor; [|by constructor]. intros r [->|Hr]%elem_of_cons; [done|].
    eapply ple_trans; [exact E|auto].
  - constructor; [|done]. intros r [->|Hr]%insert_prefix_elem; [|auto].
    destruct (ple_total p q) as [H|H]; [|done]. unfold ple in H. congruence.
Qed.

Lemma sort_prefixes_sorted l : sorted_prefixes (sort_prefixes l).
Proof. induction l; simpl; [constructor|by apply insert_prefix_sorted]. Qed.

Lemma dedup_elem l x : x ∈ dedup l ↔ x ∈ l.
Proof.
  induction l as [|p l IH]; simpl; [done|]. rewrite (elem_of_cons l), <- IH.
  destruct (dedup l) as [|q l']; [set_solver|]. case_bool_decide; set_solver.
Qed.

Lemma dedup_NoDup l : sorted_prefixes l → NoDup (dedup l) ∧ sorted_prefixes (dedup l).
Proof.
  induction 1 as [|p l Hp Hl [IHn IHs]]; simpl; [split; constructor|].
  destruct (dedup l) as [|q l'] eqn:E.
  - split; [apply NoDup_singleton|constructor; [set_solver|constructor]].
  - case_bool_decide as Hb; [done|].
    assert (Hin : ∀ r, r ∈ q :: l' → ple p r) by (intros r; rewrite <- E, dedup_elem; auto).
    split; [|by constructor]. constructor; [|done].
    intros [->|Hr]%elem_of_cons; [done|]. apply Hb. apply ple_antisym.
    + apply Hin. set_solver.
    + inversion IHs as [|? ? Hq _]; subst. by apply Hq.
Qed.

(** The list of allowed prefixes offered to the model is exactly the set of
    rendered patterns of the allow rules, sorted and without repetition,
    whatever the iteration order of the rule table. *)
Theorem get_allowed_prefixes_spec p :
  NoDup (get_allowed_prefixes p) ∧ sorted_prefixes (get_allowed_prefixes p) ∧
  ∀ pre, pre ∈ get_allowed_prefixes p ↔
    ∃ program rules r, rules_by_program p !! program = Some rules ∧ r ∈ rules ∧
      rule_decision r = Allow ∧ rendered_prefix r = pre.
Proof.
  unfold get_allowed_prefixes. cbv zeta.
  set (l := map rendered_prefix _).
  destruct (dedup_NoDup (sort_prefixes l) (sort_prefixes_sorted l)) as [Hn Hs].
  split_and!; [done..|]. intros pre. rewrite dedup_elem, sort_prefixes_elem. unfold l.
  rewrite list_elem_of_In, in_map_iff. setoid_rewrite <- list_elem_of_In.
  setoid_rewrite list_elem_of_filter. setoid_rewrite list_elem_of_In.
  setoid_rewrite in_concat. setoid_rewrite in_map_iff. split.
  - intros (r & <- & Hd & rules & ([prog rules'] & <- & Hin) & Hr).
    apply list_elem_of_In, elem_of_map_to_list in Hin. exists prog, rules', r. eauto.
  - intros (prog & rules & r & Hl & Hr & Hd & <-). exists r. split_and!; [done..|].
    exists rules. split; [|done]. exists (prog, rules). split; [done|].
    by apply list_elem_of_In, elem_of_map_to_list.
Qed.

(** ** A witness for [merge_overlay_monotone] *)

Definition no_paths : HostPaths := 
  {| absolute_path _ := Err []; file_name _ := None; is_absolute _ := false;
     component_count _ := 1 |}.

Definition git_policy (d : Decision) : Policy :=
  mkPolicy {[ lit "git" := [mkRule (mkPattern (lit "git") [Single (lit "push")]) d None] ]} [] ∅.

Lemma merge_overlay_monotone_witness :
  ∃ e', check_with_options (H := no_paths)
          (merge_overlay (git_policy Prompt) (git_policy Forbidden))
          [lit "git"; lit "push"; lit "-f"] (fun _ => Allow) default_options = Some e' ∧
        stricter Prompt (eval_decision e').
Proof.
  apply (merge_overlay_monotone (HP := no_paths) (git_policy Prompt) (git_policy Forbidden)
           [lit "git"; lit "push"; lit "-f"] (fun _ => Allow) default_options
           (mkEvaluation Prompt [PrefixRuleMatch [lit "git"; lit "push"] Prompt None None])
           (PrefixRuleMatch [lit "git"; lit "push"] Prompt None None) []);
    vm_compute; reflexivity.
Defined.
