(* ===== verification/ExecPolicyParser.v ===== *)
(** * Building, amending and migrating policies

    Models [codex/codex-rs/execpolicy/src/parser.rs] (the builder and the
    builtins [prefix_rule], [network_rule], [host_executable]), [amend.rs]
    and [sandbox_migration.rs], and the example checks of [rule.rs].  The
    Starlark interpreter is not modelled: a policy file is the sequence of the
    builtin calls it makes.  [shlex], [Debug] printing and [serde_json] are
    parameters. *)

From S2P Require Import Prelude RustStr ExecPolicy.

(** Starlark values as the builtins see them. *)
Inductive Value :=
| VStr (s : str)
| VList (l : list Value)
| VOther (type_name : str).

Definition unpack_str (v : Value) : option str := match v with VStr s => Some s | _ => None end.
Definition get_type (v : Value) : str :=
  match v with VStr _ => lit "string" | VList _ => lit "list" | VOther t => t end.

(** [shlex::split], [shlex::try_join], the [Debug] text of rules and matches,
    and [serde_json]'s reading of a list of strings and printing of one string. *)
Class TextLibs := {
  shlex_split : str → option (list str);
  shlex_try_join : list str → option str;
  debug_rule : PrefixRule → str;
  debug_match : RuleMatch → str;
  json_string_list : str → option (list str);
  json_string : str → str;
}.

Record PendingExampleValidation := mkPending {
  pending_rules : list PrefixRule;
  pending_matches : list (list str);
  pending_not_matches : list (list str);
  pending_location : option ErrorLocation;
}.

Record PolicyBuilder := mkBuilder {
  b_rules_by_program : gmap str (list PrefixRule);
  b_network_rules : list NetworkRule;
  b_host_executables_by_name : gmap str (list str);
  pending_example_validations : list PendingExampleValidation;
}.

Definition new_builder : PolicyBuilder := mkBuilder ∅ [] ∅ [].

Definition add_rule (b : PolicyBuilder) (r : PrefixRule) : PolicyBuilder :=
  mkBuilder (multimap_insert (b_rules_by_program b) (rule_program r) r) (b_network_rules b)
    (b_host_executables_by_name b) (pending_example_validations b).

Definition builder_add_network_rule (b : PolicyBuilder) (r : NetworkRule) : PolicyBuilder :=
  mkBuilder (b_rules_by_program b) (b_network_rules b ++ [r]) (b_host_executables_by_name b)
    (pending_example_validations b).

Definition add_host_executable (b : PolicyBuilder) (name : str) (paths : list str) : PolicyBuilder :=
  mkBuilder (b_rules_by_program b) (b_network_rules b)
    (<[name := paths]> (b_host_executables_by_name b)) (pending_example_validations b).

Definition add_pending_example_validation (b : PolicyBuilder) (v : PendingExampleValidation) :
    PolicyBuilder :=
  mkBuilder (b_rules_by_program b) (b_network_rules b) (b_host_executables_by_name b)
    (pending_example_validations b ++ [v]).

Definition build (b : PolicyBuilder) : Policy :=
  mkPolicy (b_rules_by_program b) (b_network_rules b) (b_host_executables_by_name b).

(** ** Arguments *)

Definition parse_pattern_token (value : Value) : result PatternToken PolicyError :=
  match value with
  | VStr s => Ok (Single s)
  | VList l =>
      let? tokens := try_map (fun v =>
        match unpack_str v with
        | Some s => Ok s
        | None => Err (InvalidPattern (lit "pattern alternative must be a string (got "
                                       ++ get_type v ++ lit ")"))
        end) l in
      match tokens with
      | [] => Err (InvalidPattern (lit "pattern alternatives cannot be empty"))
      | [single] => Ok (Single single)
      | _ => Ok (Alts tokens)
      end
  | VOther _ =>
      Err (InvalidPattern (lit "pattern element must be a string or list of strings (got "
                           ++ get_type value ++ lit ")"))
  end.

Definition parse_pattern (pattern : list Value) : result (list PatternToken) PolicyError :=
  let? tokens := try_map parse_pattern_token pattern in
  match tokens with
  | [] => Err (InvalidPattern (lit "pattern cannot be empty"))
  | _ => Ok tokens
  end.

Definition parse_network_rule_decision (raw : str) : result Decision PolicyError :=
  if seqb raw (lit "deny") then Ok Forbidden else parse_decision raw.

Section Builtins.
Context `{TL : TextLibs} `{HP : HostPaths}.

Definition parse_string_example (raw : str) : result (list str) PolicyError :=
  match shlex_split raw with
  | None => Err (InvalidExample (lit "example string has invalid shell syntax"))
  | Some [] => Err (InvalidExample (lit "example cannot be an empty string"))
  | Some tokens => Ok tokens
  end.

Definition parse_list_example (l : list Value) : result (list str) PolicyError :=
  let? tokens := try_map (fun v =>
    match unpack_str v with
    | Some s => Ok s
    | None => Err (InvalidExample (lit "example tokens must be strings (got "
                                   ++ get_type v ++ lit ")"))
    end) l in
  match tokens with
  | [] => Err (InvalidExample (lit "example cannot be an empty list"))
  | _ => Ok tokens
  end.

Definition parse_example (value : Value) : result (list str) PolicyError :=
  match value with
  | VStr raw => parse_string_example raw
  | VList l => parse_list_example l
  | VOther _ => Err (InvalidExample (lit "example must be a string or list of strings (got "
                                     ++ get_type value ++ lit ")"))
  end.

Definition parse_examples (examples : option (list Value)) : result (list (list str)) PolicyError :=
  match examples with Some l => try_map parse_example l | None => Ok [] end.

Definition parse_literal_absolute_path (raw : str) : result str PolicyError :=
  if negb (is_absolute raw) then
    Err (InvalidRule (lit "host_executable paths must be absolute (got " ++ raw ++ lit ")"))
  else map_err (fun error => InvalidRule (lit "invalid absolute path `" ++ raw ++ lit "`: " ++ error))
         (absolute_path raw).

Definition validate_host_executable_name (name : str) : result unit PolicyError :=
  if seqb name [] then Err (InvalidRule (lit "host_executable name cannot be empty"))
  else if negb (component_count name =? 1) || negb (bool_decide (file_name name = Some name)) then
    Err (InvalidRule (lit "host_executable name must be a bare executable name (got "
                      ++ name ++ lit ")"))
  else Ok tt.

(** ** Builtins *)

(** The rules of a [prefix_rule] call: one per alternative of the first token. *)
Definition rules_of_pattern (first_token : PatternToken) (remaining : list PatternToken)
    (d : Decision) (j : option str) : list PrefixRule :=
  map (fun head => mkRule (mkPattern head remaining) d j) (alternatives first_token).

Definition prefix_rule (b : PolicyBuilder) (pattern : list Value) (decision : option str)
    (match_examples not_match : option (list Value)) (justification : option str)
    (location : option ErrorLocation) : result PolicyBuilder PolicyError :=
  let? d := match decision with Some raw => parse_decision raw | None => Ok Allow end in
  let? _ := check_justification justification in
  let? pattern_tokens := parse_pattern pattern in
  let? matches := parse_examples match_examples in
  let? not_matches := parse_examples not_match in
  match pattern_tokens with
  | [] => Err (InvalidPattern (lit "pattern cannot be empty"))
  | first_token :: remaining =>
      let rules := rules_of_pattern first_token remaining d justification in
      let b := add_pending_example_validation b (mkPending rules matches not_matches location) in
      Ok (foldl add_rule b rules)
  end.

Definition network_rule (b : PolicyBuilder) (h proto decision : str) (justification : option str) :
    result PolicyBuilder PolicyError :=
  let? proto := parse_protocol proto in
  let? d := parse_network_rule_decision decision in
  let? _ := check_justification justification in
  let? h := normalize_network_rule_host h in
  Ok (builder_add_network_rule b (mkNetworkRule h proto d justification)).

Definition bad_basename (raw name : str) : PolicyError :=
  InvalidRule (lit "host_executable path `" ++ raw ++ lit "` must have basename `" ++ name ++ lit "`").

Definition host_executable_path (name : str) (parsed : list str) (value : Value) :
    result (list str) PolicyError :=
  let? raw := match unpack_str value with
              | Some raw => Ok raw
              | None => Err (InvalidRule (lit "host_executable paths must be strings (got "
                                          ++ get_type value ++ lit ")"))
              end in
  let? path := parse_literal_absolute_path raw in
  match executable_path_lookup_key path with
  | None => Err (bad_basename raw name)
  | Some path_name =>
      if negb (seqb path_name (executable_lookup_key name)) then Err (bad_basename raw name)
      else if existsb (fun existing => seqb existing path) parsed then Ok parsed
      else Ok (parsed ++ [path])
  end.

Definition host_executable (b : PolicyBuilder) (name : str) (paths : list Value) :
    result PolicyBuilder PolicyError :=
  let? _ := validate_host_executable_name name in
  let? parsed_paths := try_fold (host_executable_path name) [] paths in
  Ok (add_host_executable b (executable_lookup_key name) parsed_paths).

(** ** Examples *)

Definition render_example (example : list str) : str :=
  default (lit "unable to render example") (shlex_try_join example).

Definition example_options : MatchOptions := mkMatchOptions true.

Definition validate_match_examples (p : Policy) (rules : list PrefixRule)
    (matches : list (list str)) : result unit PolicyError :=
  let unmatched := List.filter (fun example =>
    match matches_for_command_with_options p example None example_options with
    | [] => true
    | _ => false
    end) matches in
  match unmatched with
  | [] => Ok tt
  | _ => Err (ExampleDidNotMatch (map debug_rule rules) (map render_example unmatched) None)
  end.

Fixpoint validate_not_match_examples (p : Policy) (not_matches : list (list str)) :
    result unit PolicyError :=
  match not_matches with
  | [] => Ok tt
  | example :: not_matches =>
      match matches_for_command_with_options p example None example_options with
      | m :: _ => Err (ExampleDidMatch (debug_match m) (render_example example) None)
      | [] => validate_not_match_examples p not_matches
      end
  end.

Definition attach_validation_location (e : PolicyError) (l : option ErrorLocation) : PolicyError :=
  match l with Some l => with_location e l | None => e end.

(** The policy that the examples of one [prefix_rule] call are checked against. *)
Definition example_policy (b : PolicyBuilder) (v : PendingExampleValidation) : Policy :=
  mkPolicy (foldl (fun m r => multimap_insert m (rule_program r) r) ∅ (pending_rules v)) []
    (b_host_executables_by_name b).

Definition validate_pending (b : PolicyBuilder) (v : PendingExampleValidation) :
    result unit PolicyError :=
  map_err (fun e => attach_validation_location e (pending_location v))
    (let? _ := validate_not_match_examples (example_policy b v) (pending_not_matches v) in
     validate_match_examples (example_policy b v) (pending_rules v) (pending_matches v)).

Definition validate_pending_examples_from (b : PolicyBuilder) (start : nat) :
    result unit PolicyError :=
  try_fold (fun _ v => validate_pending b v) tt (drop start (pending_example_validations b)).

(** ** Parsing a policy file *)

Inductive Call :=
| CallPrefixRule (pattern : list Value) (decision : option str)
    (match_examples not_match : option (list Value)) (justification : option str)
    (location : option ErrorLocation)
| CallNetworkRule (host protocol decision : str) (justification : option str)
| CallHostExecutable (name : str) (paths : list Value).

Definition run_call (b : PolicyBuilder) (c : Call) : result PolicyBuilder PolicyError :=
  match c with
  | CallPrefixRule p d m n j l => prefix_rule b p d m n j l
  | CallNetworkRule h p d j => network_rule b h p d j
  | CallHostExecutable n ps => host_executable b n ps
  end.

(** The calls run until one fails; the builder keeps what the calls before it
    did. *)
Fixpoint run_calls (b : PolicyBuilder) (calls : list Call) : PolicyBuilder * result unit PolicyError :=
  match calls with
  | [] => (b, Ok tt)
  | c :: calls =>
      match run_call b c with
      | Ok b => run_calls b calls
      | Err e => (b, Err e)
      end
  end.

(** [PolicyParser::parse] on the calls that evaluating the file makes. *)
Definition parse (b : PolicyBuilder) (calls : list Call) : PolicyBuilder * result unit PolicyError :=
  let pending_validation_count := length (pending_example_validations b) in
  match run_calls b calls with
  | (b, Err e) => (b, Err e)
  | (b, Ok _) => (b, validate_pending_examples_from b pending_validation_count)
  end.

(** ** amend.rs *)

(** What [append_locked_line] leaves in a file that holds [contents]. *)
Definition append_locked_line (contents line : str) : str :=
  if existsb (fun existing => seqb existing line) (lines contents) then contents
  else
    contents ++
    (if negb (seqb contents []) && negb (ends_with [nl] contents) then [nl] else []) ++
    line ++ [nl].

Definition RULE_PREFIX : str := lit "prefix_rule(pattern=".
Definition RULE_SUFFIX : str := lit ", decision=" ++ [34%N] ++ lit "allow" ++ [34%N] ++ lit ")".

Definition allow_prefix_rule_line (prefix : list str) : option str :=
  match prefix with
  | [] => None
  | _ => Some (RULE_PREFIX ++ lit "[" ++ join (lit ", ") (map json_string prefix) ++ lit "]" ++
               RULE_SUFFIX)
  end.

Definition network_decision_text (d : Decision) : str :=
  match d with Allow => lit "allow" | Prompt => lit "prompt" | Forbidden => lit "deny" end.

Definition network_rule_line (h : str) (proto : NetworkRuleProtocol) (d : Decision)
    (justification : option str) : result str PolicyError :=
  let? h := normalize_network_rule_host h in
  let? _ := check_justification justification in
  let args := [lit "host=" ++ json_string h;
               lit "protocol=" ++ json_string (as_policy_string proto);
               lit "decision=" ++ json_string (network_decision_text d)] ++
              match justification with
              | Some j => [lit "justification=" ++ json_string j]
              | None => []
              end in
  Ok (lit "network_rule(" ++ join (lit ", ") args ++ lit ")").

(** ** sandbox_migration.rs *)

Definition should_remove_rule (line : str) (banned : list (list str)) : bool :=
  let line := default line (strip_suffix [nl] line) in
  let line := default line (strip_suffix [cr] line) in
  match strip_prefix RULE_PREFIX line with
  | None => false
  | Some l =>
      match strip_suffix RULE_SUFFIX l with
      | None => false
      | Some pattern =>
          match json_string_list pattern with
          | None => false
          | Some prefix => bool_decide (map to_ascii_lowercase prefix ∈ banned)
          end
      end
  end.

Definition strip_banned_allow_rules (contents : str) (banned_prefixes : list (list str)) : str :=
  let banned := map (map to_ascii_lowercase) banned_prefixes in
  concat (List.filter (fun line => negb (should_remove_rule line banned)) (split_inclusive contents)).
End Builtins.
