(* ===== verification/ExecPolicyParserFacts.v ===== *)
(** * Facts about building, amending and migrating policies *)

From S2P Require Import Prelude RustStr ExecPolicy ExecPolicyParser.

Section Facts.
Context `{TL : TextLibs} `{HP : HostPaths}.

(** ** Examples *)

Definition some_rule_matches (p : Policy) (example : list str) : Prop :=
  matches_for_command_with_options p example None example_options ≠ [].

(** The examples of a [prefix_rule] call hold of its rules. *)
Definition examples_hold (b : PolicyBuilder) (v : PendingExampleValidation) : Prop :=
  Forall (some_rule_matches (example_policy b v)) (pending_matches v) ∧
  Forall (fun example => ¬ some_rule_matches (example_policy b v) example) (pending_not_matches v).

Lemma validate_not_match_Ok p ex :
  validate_not_match_examples p ex = Ok tt →
  Forall (fun example => ¬ some_rule_matches p example) ex.
Proof.
  induction ex as [|e ex IH]; simpl; [constructor|].
  destruct (matches_for_command_with_options p e None example_options) eqn:E; [|done].
  intros H. constructor; [|auto]. unfold some_rule_matches. rewrite E. intros Hn. by apply Hn.
Qed.

Lemma validate_match_Ok p rules ex :
  validate_match_examples p rules ex = Ok tt → Forall (some_rule_matches p) ex.
Proof.
  unfold validate_match_examples. cbv zeta. intros H.
  apply Forall_forall. intros e He Hn.
  assert (Hin : e ∈ List.filter (fun example =>
    match matches_for_command_with_options p example None example_options with
    | [] => true | _ => false end) ex).
  { rewrite list_elem_of_In, filter_In, <- list_elem_of_In. by rewrite Hn. }
  destruct (List.filter _ ex); [by apply elem_of_nil in Hin|done].
Qed.

Lemma validate_pending_Ok b v : validate_pending b v = Ok tt → examples_hold b v.
Proof.
  unfold validate_pending. destruct (let? _ := _ in _) as [u|e] eqn:E; simpl; [|done].
  apply rbind_ok in E as ([] & H1 & H2). destruct u. intros _.
  split; [by eapply validate_match_Ok|by apply validate_not_match_Ok].
Qed.

Lemma validate_from_Ok b vs :
  try_fold (fun _ v => validate_pending b v) tt vs = Ok tt → Forall (examples_hold b) vs.
Proof.
  induction vs as [|v vs IH]; simpl; [constructor|].
  intros ([] & H1%validate_pending_Ok & H2)%rbind_ok. constructor; auto.
Qed.

(** A policy file that loads satisfies its own examples: every [match]
    example of every [prefix_rule] call of the file is matched by a rule of
    that call and no [not_match] example is, with the host executables the
    whole file declares. *)
Theorem parse_examples_hold b calls b' :
  parse b calls = (b', Ok tt) →
  Forall (examples_hold b')
    (drop (length (pending_example_validations b)) (pending_example_validations b')).
Proof.
  unfold parse. cbv zeta. destruct (run_calls b calls) as [b1 [[]|e]]; [|done].
  intros [= <- H]. by apply validate_from_Ok.
Qed.

(** ** Amending *)

Lemma lines_of_snoc_elem pre line :
  line ≠ [] → strip_cr line = line → line ∈ lines_of (pre ++ [line; []]).
Proof.
  intros Hne Hcr. induction pre as [|p pre IH]; simpl.
  - rewrite Hcr. set_solver.
  - destruct (pre ++ [line; []]) eqn:E; [by destruct pre|]. set_solver.
Qed.

Lemma split_on_last_line c s line :
  c ∉ line → (s = [] ∨ ∃ t, s = t ++ [c]) →
  ∃ pre, split_on c (s ++ line ++ [c]) = pre ++ [line; []].
Proof.
  intros Hl [->|[t ->]].
  - exists []. simpl. rewrite split_on_app by done. done.
  - rewrite <- app_assoc. simpl. clear -Hl.
    assert (H : ∃ pre, pre ≠ [] ∧ split_on c (t ++ c :: line ++ [c]) = pre ++ [line; []]).
    { induction t as [|x t IH]; simpl.
      - rewrite N.eqb_refl, split_on_app by done. by exists [[]].
      - destruct IH as (pre & Hne & ->). destruct (x =? c)%N; [by exists ([] :: pre)|].
        destruct pre as [|p pre]; [done|by exists ((x :: p) :: pre)]. }
    destruct H as (pre & _ & H). eauto.
Qed.

Definition has_line (contents line : str) : bool :=
  existsb (fun existing => seqb existing line) (lines contents).

Lemma has_line_spec contents line : has_line contents line = true ↔ line ∈ lines contents.
Proof.
  unfold has_line. rewrite existsb_exists, list_elem_of_In. split.
  - intros (x & Hx & ->%seqb_eq). done.
  - intros H. exists line. by rewrite seqb_refl.
Qed.

Lemma append_has_line contents line :
  nl ∉ line → line ≠ [] → strip_cr line = line →
  line ∈ lines (append_locked_line contents line).
Proof.
  intros Hnl Hne Hcr. unfold append_locked_line.
  destruct (existsb _ (lines contents)) eqn:E; [by apply has_line_spec|].
  rewrite app_assoc.
  set (s := contents ++ _).
  assert (Hs : s = [] ∨ ∃ t, s = t ++ [nl]).
  { unfold s. destruct (seqb contents []) eqn:Ec; simpl.
    - apply seqb_eq in Ec as ->. by left.
    - destruct (ends_with [10%N] contents) eqn:Ee; simpl; [|right; by exists contents].
      right. unfold ends_with in Ee. destruct (strip_suffix [10%N] contents) as [t|] eqn:Et; [|done].
      apply strip_suffix_Some in Et as ->. exists t. by rewrite app_nil_r. }
  destruct (split_on_last_line nl s line Hnl Hs) as [pre Hp].
  unfold lines. rewrite Hp. by apply lines_of_snoc_elem.
Qed.

(** Saving a rule is idempotent and loses nothing: the policy file keeps its
    old text as a prefix, has the rule as a line afterwards, and saving the
    same rule again changes nothing. *)
Theorem append_locked_line_idempotent contents line :
  nl ∉ line → line ≠ [] → strip_cr line = line →
  let after := append_locked_line contents line in
  (∃ added, after = contents ++ added) ∧ line ∈ lines after ∧
  append_locked_line after line = after.
Proof.
  intros Hnl Hne Hcr after. pose proof (append_has_line contents line Hnl Hne Hcr) as Hin.
  split_and!; [|done|].
  - unfold after, append_locked_line. case_match; [by exists []; rewrite app_nil_r|eauto].
  - unfold append_locked_line at 1. apply has_line_spec in Hin. unfold has_line in Hin.
    fold after in Hin. by rewrite Hin.
Qed.

(** ** Lines stay *)

Lemma lines_pieces line pieces : line ∈ lines_of pieces → strip_cr line = line → line ∈ map strip_cr pieces.
Proof.
  intros H Hcr. induction pieces as [|x ps IH]; cbn [lines_of map] in *; [set_solver|]. destruct ps as [|y ps].
  - destruct (seqb x []); [set_solver|]. apply list_elem_of_singleton in H as ->. rewrite Hcr. set_solver.
  - apply elem_of_cons in H as [->|H]; [set_solver|]. right. by apply IH.
Qed.

(** A complete line is still there after another line was written behind it, even in part. *)
Lemma append_keeps_line f added line pre post :
  append_locked_line f added = f ++ pre ++ post → line ∈ lines f → strip_cr line = line → line ∈ lines (f ++ pre).
Proof.
  intros Hw Hin Hcr. unfold append_locked_line in Hw. destruct (existsb _ _).
  { rewrite <- (app_nil_r f) in Hw at 1. apply app_inv_head, eq_sym, app_eq_nil in Hw as [-> _]. by rewrite app_nil_r. }
  apply app_inv_head in Hw. destruct (seqb f []) eqn:Ef; [apply seqb_eq in Ef as ->; cbn in Hin; set_solver|].
  cbn [negb andb] in Hw. destruct (ends_with [nl] f) eqn:Ee.
  - unfold ends_with in Ee. destruct (strip_suffix [nl] f) as [t|] eqn:Et; [|done].
    apply strip_suffix_Some in Et as ->. rewrite lines_app_nl in Hin. rewrite <- app_assoc. cbn [app].
    rewrite lines_app_nl. apply elem_of_app. left. apply elem_of_app in Hin as [Hin|Hin]; [done|cbn in Hin; set_solver].
  - destruct pre as [|c pre]; [by rewrite app_nil_r|]. cbn [negb app] in Hw. injection Hw as <- _.
    rewrite lines_app_nl. apply elem_of_app. left. by apply lines_pieces.
Qed.

(** ** Migration *)

(** The pieces of [split_inclusive]: lines with their line feed, the last one
    possibly without. *)
Inductive pieces : list str → Prop :=
| pieces_nil : pieces []
| pieces_last l : l ≠ [] → nl ∉ l → pieces [l]
| pieces_cons l ps : nl ∉ l → pieces ps → pieces ((l ++ [nl]) :: ps).

Lemma split_inclusive_pieces s : pieces (split_inclusive s).
Proof.
  induction s as [|c s IH]; simpl; [constructor|].
  destruct (N.eqb_spec c nl) as [->|Hc]; [apply (pieces_cons []); set_solver|].
  destruct IH as [|l Hne Hl|l ps Hl Hps].
  - apply pieces_last; set_solver.
  - apply pieces_last; [done|set_solver].
  - apply (pieces_cons (c :: l)); [set_solver|done].
Qed.

Lemma split_inclusive_concat ps : pieces ps → split_inclusive (concat ps) = ps.
Proof.
  assert (Hne : ∀ l, nl ∉ l → l ≠ [] → split_inclusive l = [l]).
  { induction l as [|c l IHl]; intros Hl Hn; [done|]. simpl.
    destruct (N.eqb_spec c nl) as [->|]; [set_solver|].
    destruct l as [|d l]; [done|]. rewrite IHl; [done|set_solver|done]. }
  induction 1 as [|l Hn Hl|l ps Hl Hps IH]; [done|simpl; rewrite app_nil_r; auto|].
  cbn [concat]. rewrite <- app_assoc. cbn [app]. clear Hne.
  induction l as [|c l IHl]; simpl; [by rewrite IH|].
  destruct (N.eqb_spec c nl) as [->|]; [set_solver|]. rewrite IHl; [done|set_solver].
Qed.

Lemma pieces_filter f ps : pieces ps → pieces (List.filter f ps).
Proof.
  induction 1 as [|l Hn Hl|l ps Hl Hps IH]; simpl; [constructor|..].
  - destruct (f l); [by apply pieces_last|constructor].
  - destruct (f (l ++ [10%N])); [by apply pieces_cons|done].
Qed.

Lemma filter_idemp {A} (f : A → bool) l : List.filter f (List.filter f l) = List.filter f l.
Proof.
  induction l as [|x l IH]; simpl; [done|]. destruct (f x) eqn:E; simpl; [rewrite E; by f_equal|done].
Qed.

(** The one-shot migration removes exactly the banned allow rules: its
    result consists of the remaining lines, unchanged and in order, and
    running it again changes nothing. *)
Theorem strip_banned_spec contents banned :
  split_inclusive (strip_banned_allow_rules contents banned) =
    List.filter (fun line => negb (should_remove_rule line (map (map to_ascii_lowercase) banned)))
      (split_inclusive contents) ∧
  strip_banned_allow_rules (strip_banned_allow_rules contents banned) banned =
    strip_banned_allow_rules contents banned.
Proof.
  assert (H : split_inclusive (strip_banned_allow_rules contents banned) =
    List.filter (fun line => negb (should_remove_rule line (map (map to_ascii_lowercase) banned)))
      (split_inclusive contents)).
  { apply split_inclusive_concat, pieces_filter, split_inclusive_pieces. }
  split; [done|]. unfold strip_banned_allow_rules at 1. cbv zeta. rewrite H.
  by rewrite filter_idemp.
Qed.

(** A rule line written by [blocking_append_allow_prefix_rule] is recognised by
    the migration, given that [serde_json] reads back what it prints. *)
Lemma appended_rule_is_migrated prefix line banned :
  allow_prefix_rule_line prefix = Some line →
  json_string_list (lit "[" ++ join (lit ", ") (map json_string prefix) ++ lit "]") = Some prefix →
  should_remove_rule (line ++ [nl]) banned = bool_decide (map to_ascii_lowercase prefix ∈ banned).
Proof.
  unfold allow_prefix_rule_line. destruct prefix as [|t prefix]; [done|].
  intros Hl Hj. apply (inj Some) in Hl. subst line.
  set (body := lit "[" ++ join (lit ", ") (map json_string (t :: prefix)) ++ lit "]") in *.
  replace (RULE_PREFIX ++ lit "[" ++ join (lit ", ") (map json_string (t :: prefix)) ++ lit "]" ++
           RULE_SUFFIX) with (RULE_PREFIX ++ body ++ RULE_SUFFIX)
    by (unfold body; by rewrite <- !app_assoc).
  unfold should_remove_rule. rewrite (proj2 (strip_suffix_Some [10%N] _ _) eq_refl).
  cbv zeta. change (default ?x (Some ?y)) with y.
  assert (Hcr : strip_suffix [13%N] (RULE_PREFIX ++ body ++ RULE_SUFFIX) = None).
  { unfold strip_suffix. rewrite !rev_app_distr. reflexivity. }
  rewrite Hcr. change (default ?x None) with x. rewrite strip_prefix_app.
  rewrite (proj2 (strip_suffix_Some RULE_SUFFIX _ body) eq_refl). by rewrite Hj.
Qed.
End Facts.

(** ** Witnesses *)

Definition sample_libs : TextLibs := {|
  shlex_split s := Some [s];
  shlex_try_join l := Some (join (lit " ") l);
  debug_rule r := rule_program r;
  debug_match _ := [];
  json_string_list _ := None;
  json_string s := s;
|}.

Definition sample_paths : HostPaths := {|
  absolute_path s := Ok s; file_name _ := None; is_absolute _ := true; component_count _ := 1 |}.

Definition sample_calls : list Call :=
  [CallPrefixRule [VStr (lit "git"); VList [VStr (lit "push"); VStr (lit "pull")]] (Some (lit "prompt"))
     (Some [VList [VStr (lit "git"); VStr (lit "pull")]]) (Some [VStr (lit "ls")]) None None].

Lemma parse_examples_hold_witness :
  Forall (examples_hold (HP := sample_paths)
            (parse (TL := sample_libs) (HP := sample_paths) new_builder sample_calls).1)
    (pending_example_validations
       (parse (TL := sample_libs) (HP := sample_paths) new_builder sample_calls).1).
Proof.
  apply (parse_examples_hold (TL := sample_libs) (HP := sample_paths) new_builder sample_calls).
  vm_compute. reflexivity.
Defined.

Lemma append_locked_line_idempotent_witness :
  let after := append_locked_line (lit "a") (lit "b") in
  (∃ added, after = lit "a" ++ added) ∧ lit "b" ∈ lines after ∧
  append_locked_line after (lit "b") = after.
Proof.
  apply (append_locked_line_idempotent (lit "a") (lit "b"));
    [apply (bool_decide_unpack _); vm_compute; exact I|discriminate|reflexivity].
Defined.
