(* ===== verification/ExecApproval.v ===== *)
(** * Whether a command needs an approval

    [codex-rs/core/src/exec_policy.rs], outside Windows: the rules of the policy where one
    matches, and the classification of the command together with the approval policy and
    the sandbox where none does; the amendments that are offered with a prompt, and the
    manager that takes them over. *)

From S2P Require Import Prelude RustStr RustPath ShellTree CommandSafety SandboxPolicy ExecPolicy ExecPolicyParser.

(** ** [protocol.rs] *)

Record GranularApprovalConfig := mkGranular {
  sandbox_approval : bool;
  granular_rules : bool;
  skill_approval : bool;
  request_permissions : bool;
  mcp_elicitations : bool
}.

Inductive AskForApproval := UnlessTrusted | OnRequest | Granular (config : GranularApprovalConfig) | Never.

#[export] Instance AskForApproval_eq_dec : EqDecision AskForApproval.
Proof. repeat intro; hnf; repeat decide equality. Defined.

(** [ExecPolicyAmendment]: the prefix that is to be allowed. *)
Record ExecPolicyAmendment := mkAmendment { amendment_command : list str }.

Inductive ExecApprovalRequirement :=
| Skip (bypass_sandbox : bool) (proposed : option ExecPolicyAmendment)
| NeedsApproval (reason : option str) (proposed : option ExecPolicyAmendment)
| RequirementForbidden (reason : str).

Definition PROMPT_CONFLICT_REASON : str := lit "approval required by policy, but AskForApproval is set to Never".
Definition REJECT_SANDBOX_APPROVAL_REASON : str :=
  lit "approval required by policy, but AskForApproval::Granular.sandbox_approval is false".
Definition REJECT_RULES_APPROVAL_REASON : str :=
  lit "approval required by policy rule, but AskForApproval::Granular.rules is false".

(** The prefixes that are too wide to be suggested. *)
Definition BANNED_PREFIX_SUGGESTIONS : list (list str) :=
  map (map lit)
    [["/bin/bash"]; ["/bin/bash"; "-c"]; ["/bin/bash"; "-lc"]; ["/bin/sh"]; ["/bin/sh"; "-c"]; ["/bin/sh"; "-lc"];
     ["/bin/zsh"]; ["/bin/zsh"; "-c"]; ["/bin/zsh"; "-lc"]; ["Rscript"]; ["bash"]; ["bash"; "-c"]; ["bash"; "-lc"];
     ["bun"]; ["bun"; "-e"]; ["bun"; "run"]; ["cmd"]; ["cmd"; "/c"]; ["cmd"; "/k"]; ["cmd.exe"]; ["cmd.exe"; "/c"];
     ["cmd.exe"; "/k"]; ["dash"]; ["dash"; "-c"]; ["deno"]; ["deno"; "eval"]; ["env"]; ["fish"]; ["fish"; "-c"];
     ["git"]; ["julia"]; ["julia"; "-e"]; ["ksh"]; ["ksh"; "-c"]; ["lua"]; ["lua"; "-e"]; ["node"]; ["node"; "-e"];
     ["nodejs"]; ["nodejs"; "-e"]; ["npm"; "run"]; ["osascript"]; ["perl"]; ["perl"; "-e"]; ["php"]; ["php"; "-r"];
     ["pnpm"; "run"]; ["powershell"]; ["powershell"; "-Command"]; ["powershell"; "-EncodedCommand"];
     ["powershell"; "-File"]; ["powershell"; "-c"]; ["powershell.exe"]; ["powershell.exe"; "-Command"];
     ["powershell.exe"; "-EncodedCommand"]; ["powershell.exe"; "-File"]; ["powershell.exe"; "-c"]; ["pwsh"];
     ["pwsh"; "-Command"]; ["pwsh"; "-EncodedCommand"]; ["pwsh"; "-File"]; ["pwsh"; "-c"]; ["pwsh"; "-e"];
     ["pwsh"; "-ec"]; ["pwsh"; "-f"]; ["py"]; ["py"; "-3"]; ["pypy"]; ["pypy3"]; ["python"]; ["python"; "-"];
     ["python"; "-c"]; ["python3"]; ["python3"; "-"]; ["python3"; "-c"]; ["pythonw"]; ["pyw"]; ["rm"]; ["ruby"];
     ["ruby"; "-e"]; ["sh"]; ["sh"; "-c"]; ["sh"; "-lc"]; ["sudo"]; ["yarn"; "run"]; ["zsh"]; ["zsh"; "-c"];
     ["zsh"; "-lc"]]%string.

Definition is_policy_match (m : RuleMatch) : bool :=
  match m with PrefixRuleMatch _ _ _ _ => true | HeuristicsRuleMatch _ _ => false end.

Definition is_policy_match_with (d : Decision) (m : RuleMatch) : bool :=
  is_policy_match m && bool_decide (match_decision m = d).

Definition prompt_is_rejected_by_policy (approval_policy : AskForApproval) (prompt_is_rule : bool) : option str :=
  match approval_policy with
  | Never => Some PROMPT_CONFLICT_REASON
  | OnRequest | UnlessTrusted => None
  | Granular granular_config =>
      if prompt_is_rule then
        if negb (granular_rules granular_config) then Some REJECT_RULES_APPROVAL_REASON else None
      else if negb (sandbox_approval granular_config) then Some REJECT_SANDBOX_APPROVAL_REASON
      else None
  end.

(** ** The commands of a request *)

Record ExecApprovalRequest := mkExecRequest {
  req_command : list str;
  req_approval_policy : AskForApproval;
  req_permission_profile : PermissionProfile;
  req_sandbox_permissions : SandboxPermissions;
  req_prefix_rule : option (list str)
}.

Record ExecPolicyCommands := mkCommands { commands : list (list str); used_complex_parsing : bool }.

Definition match_options : MatchOptions := mkMatchOptions true.

Section approval.
(** [cfg!(target_os = "linux")] and the parser of scripts. *)
Context (linux : bool) (try_parse_shell : str → option Node) `{TL : TextLibs} `{HP : HostPaths}.

Definition commands_for_exec_policy (command : list str) : ExecPolicyCommands :=
  match parse_shell_lc_plain_commands try_parse_shell command with
  | Some (c :: cs) => mkCommands (c :: cs) false
  | _ =>
      match parse_shell_lc_single_command_prefix try_parse_shell command with
      | Some single_command => mkCommands [single_command] true
      | None => mkCommands [command] false
      end
  end.

(** ** Commands that no rule matches *)

(** What the last two approval policies do with a command that is not dangerous. *)
Definition decision_by_sandbox (profile : PermissionProfile) (sandbox_permissions : SandboxPermissions) : Decision :=
  match fs_kind (file_system_sandbox_policy profile) with
  | KindUnrestricted | KindExternalSandbox => Allow
  | KindRestricted => if requests_sandbox_override sandbox_permissions then Prompt else Allow
  end.

Definition render_decision_for_unmatched_command (approval_policy : AskForApproval) (profile : PermissionProfile)
    (sandbox_permissions : SandboxPermissions) (complex : bool) (command : list str) : Decision :=
  if is_known_safe_command linux try_parse_shell command && negb complex &&
     bool_decide (approval_policy = UnlessTrusted)
  then Allow
  else match dangerous_command_match try_parse_shell command with
       | Some _ => match approval_policy with Never => Forbidden | _ => Prompt end
       | None =>
           match approval_policy with
           | Never => Allow
           | UnlessTrusted => Prompt
           | OnRequest | Granular _ => decision_by_sandbox profile sandbox_permissions
           end
       end.

(** The closure [exec_policy_fallback]. *)
Definition exec_policy_fallback (req : ExecApprovalRequest) : list str → Decision :=
  render_decision_for_unmatched_command (req_approval_policy req) (req_permission_profile req)
    (req_sandbox_permissions req) (used_complex_parsing (commands_for_exec_policy (req_command req))).

(** ** Reasons *)

Definition dangerous_command_match_for_heuristics (evaluation : Evaluation) (d : Decision) :
    option DangerousCommandMatch :=
  find_map (fun m =>
    match m with
    | HeuristicsRuleMatch command matched_decision =>
        if bool_decide (matched_decision = d) then dangerous_command_match try_parse_shell command else None
    | _ => None
    end) (matched_rules evaluation).

Definition render_shlex_command (args : list str) : str := default (join (lit " ") args) (shlex_try_join args).

Definition backtick : str := [96%N].

(** The prefix and the justification of the longest rule match with a decision. *)
Definition most_specific (d : Decision) (evaluation : Evaluation) : option (list str * option str) :=
  max_by (fun a b => length (fst a) <=? length (fst b)) None
    (omap (fun m =>
       match m with
       | PrefixRuleMatch matched_prefix decision _ justification =>
           if bool_decide (decision = d) then Some (matched_prefix, justification) else None
       | _ => None
       end) (matched_rules evaluation)).

Definition derive_prompt_reason (command_args : list str) (evaluation : Evaluation) : option str :=
  let command := render_shlex_command command_args in
  match most_specific Prompt evaluation with
  | Some (_, Some justification) => Some (backtick ++ command ++ backtick ++ lit " requires approval: " ++ justification)
  | Some (_, None) => Some (backtick ++ command ++ backtick ++ lit " requires approval by policy")
  | None => None
  end.

Definition dangerous_command_rejection_reason (m : DangerousCommandMatch) : str :=
  match m with
  | ForcedRm => lit "rm -f style commands are not permitted. Use a safer approach"
  | OtherDanger => lit "blocked by policy"
  end.

Definition derive_forbidden_reason (command_args : list str) (evaluation : Evaluation)
    (dangerous : option DangerousCommandMatch) : str :=
  let command := render_shlex_command command_args in
  backtick ++ command ++ backtick ++ lit " rejected: " ++
  match most_specific Forbidden evaluation with
  | Some (_, Some justification) => justification
  | Some (matched_prefix, None) =>
      lit "policy forbids commands starting with " ++ backtick ++ render_shlex_command matched_prefix ++ backtick
  | None =>
      match dangerous with
      | Some m => dangerous_command_rejection_reason m
      | None => lit "blocked by policy"
      end
  end.

Definition derive_rejected_prompt_reason (fallback_reason : str) (dangerous : option DangerousCommandMatch) : str :=
  match dangerous with
  | Some ForcedRm => dangerous_command_rejection_reason ForcedRm
  | Some OtherDanger | None => fallback_reason
  end.

(** ** Amendments *)

Definition try_derive_execpolicy_amendment_for_prompt_rules (matched : list RuleMatch) : option ExecPolicyAmendment :=
  if existsb (is_policy_match_with Prompt) matched then None
  else find_map (fun m => match m with
                          | HeuristicsRuleMatch command Prompt => Some (mkAmendment command)
                          | _ => None
                          end) matched.

Definition try_derive_execpolicy_amendment_for_allow_rules (matched : list RuleMatch) : option ExecPolicyAmendment :=
  if existsb is_policy_match matched then None
  else find_map (fun m => match m with
                          | HeuristicsRuleMatch command Allow => Some (mkAmendment command)
                          | _ => None
                          end) matched.

Definition prefix_rule_would_approve_all_commands (exec_policy : Policy) (prefix_rule : list str)
    (cmds : list (list str)) (fallback : list str → Decision) : bool :=
  match add_prefix_rule exec_policy prefix_rule Allow with
  | Err _ => false
  | Ok policy_with_prefix_rule =>
      forallb (fun command =>
        bool_decide (eval_decision <$> check_with_options policy_with_prefix_rule command fallback match_options =
                     Some Allow)) cmds
  end.

Definition derive_requested_execpolicy_amendment_from_prefix_rule (prefix_rule : option (list str))
    (matched : list RuleMatch) (exec_policy : Policy) (cmds : list (list str)) (fallback : list str → Decision) :
    option ExecPolicyAmendment :=
  prefix_rule ← prefix_rule;
  match prefix_rule with
  | [] => None
  | _ =>
      if existsb (fun banned => bool_decide (prefix_rule = banned)) BANNED_PREFIX_SUGGESTIONS then None
      else if existsb is_policy_match matched then None
      else if prefix_rule_would_approve_all_commands exec_policy prefix_rule cmds fallback
      then Some (mkAmendment prefix_rule) else None
  end.

(** ** The requirement *)

Definition evaluate (exec_policy : Policy) (req : ExecApprovalRequest) : option Evaluation :=
  check_multiple_with_options exec_policy (commands (commands_for_exec_policy (req_command req)))
    (exec_policy_fallback req) match_options.

Definition requested_amendment (exec_policy : Policy) (req : ExecApprovalRequest) (evaluation : Evaluation) :
    option ExecPolicyAmendment :=
  let cmds := commands_for_exec_policy (req_command req) in
  if negb (used_complex_parsing cmds) then
    derive_requested_execpolicy_amendment_from_prefix_rule (req_prefix_rule req) (matched_rules evaluation)
      exec_policy (commands cmds) (exec_policy_fallback req)
  else None.

(** Whether a rule of the policy allows a command by name. *)
Definition explicitly_allowed (exec_policy : Policy) (command : list str) : bool :=
  existsb (is_policy_match_with Allow) (matches_for_command_with_options exec_policy command None match_options).

Definition create_exec_approval_requirement_for_command (exec_policy : Policy) (req : ExecApprovalRequest) :
    option ExecApprovalRequirement :=
  let cmds := commands_for_exec_policy (req_command req) in
  let auto_amendment_allowed := negb (used_complex_parsing cmds) in
  evaluation ← evaluate exec_policy req;
  Some match eval_decision evaluation with
  | Forbidden =>
      RequirementForbidden (derive_forbidden_reason (req_command req) evaluation
        (dangerous_command_match_for_heuristics evaluation Forbidden))
  | Prompt =>
      let prompt_is_rule := existsb (is_policy_match_with Prompt) (matched_rules evaluation) in
      match prompt_is_rejected_by_policy (req_approval_policy req) prompt_is_rule with
      | Some reason =>
          if prompt_is_rule then RequirementForbidden reason
          else RequirementForbidden (derive_rejected_prompt_reason reason
                 (dangerous_command_match_for_heuristics evaluation Prompt))
      | None =>
          NeedsApproval (derive_prompt_reason (req_command req) evaluation)
            (match requested_amendment exec_policy req evaluation with
             | Some a => Some a
             | None =>
                 if auto_amendment_allowed
                 then try_derive_execpolicy_amendment_for_prompt_rules (matched_rules evaluation) else None
             end)
      end
  | Allow =>
      Skip (forallb (explicitly_allowed exec_policy) (commands cmds))
        (if auto_amendment_allowed
         then try_derive_execpolicy_amendment_for_allow_rules (matched_rules evaluation) else None)
  end.

(** ** The manager *)

Inductive ExecPolicyUpdateError := AppendRule | AddRule (e : PolicyError).

(** The part of [append_amendment_and_update] on the policy in memory; [None] is a panic. *)
Definition apply_amendment (a : ExecPolicyAmendment) (current_policy : Policy) :
    option (result Policy ExecPolicyUpdateError) :=
  existing_evaluation ←
    check_multiple_with_options current_policy [amendment_command a] (fun _ => Forbidden) match_options;
  let already_allowed :=
    bool_decide (eval_decision existing_evaluation = Allow) &&
    existsb (is_policy_match_with Allow) (matched_rules existing_evaluation) in
  Some (if already_allowed then Ok current_policy
        else map_err AddRule (add_prefix_rule current_policy (amendment_command a) Allow)).

(** [append_network_rule_and_update] on the policy in memory. *)
Definition apply_network_rule (host : str) (protocol : NetworkRuleProtocol) (d : Decision) (justification : option str)
    (current_policy : Policy) : result Policy ExecPolicyUpdateError :=
  map_err AddRule (add_network_rule current_policy host protocol d justification).

(** What is asked of the manager. *)
Inductive Update :=
| AmendPrefix (a : ExecPolicyAmendment)
| AmendNetwork (host : str) (protocol : NetworkRuleProtocol) (d : Decision) (justification : option str).

(** The line that goes into the file of rules; [None] is an amendment that is refused. *)
Definition update_line (u : Update) : option str :=
  match u with
  | AmendPrefix a => allow_prefix_rule_line (amendment_command a)
  | AmendNetwork host protocol d justification =>
      match network_rule_line host protocol d justification with Ok line => Some line | Err _ => None end
  end.

(** The policy that is stored after an update was read from; [None] is an error or a panic. *)
Definition update_policy (u : Update) (current_policy : Policy) : option Policy :=
  match u with
  | AmendPrefix a =>
      match apply_amendment a current_policy with Some (Ok p) => Some p | _ => None end
  | AmendNetwork host protocol d justification =>
      match apply_network_rule host protocol d justification current_policy with Ok p => Some p | Err _ => None end
  end.

(** Updates one after the other. *)
Fixpoint apply_updates (us : list Update) (p : Policy) : option Policy :=
  match us with
  | [] => Some p
  | u :: us => p ← update_policy u p; apply_updates us p
  end.

(** Where a call of the manager is: it waits for the semaphore, holds it, has appended its
    line, or has also loaded the policy that it will change. *)
Inductive Phase :=
| Waiting
| Holding
| Appended
| Loaded (current_policy : Policy).

Record ExecPolicyManager := mkManager {
  manager_policy : Policy;
  rules_file : str;
  update_lock : option nat;  (** the call that has the permit of the semaphore *)
  calls : gmap nat (Update * Phase);
  finished : list Update  (** the calls that ended well, in order *)
}.

(** What a write of a line to the file may leave there, also one that fails on the way. *)
Definition written (f f' : str) : Prop :=
  ∃ line pre post, append_locked_line f line = f ++ pre ++ post ∧ f' = f ++ pre.

(** One step of some call, or of another process that writes to the file of rules. *)
Inductive manager_step : ExecPolicyManager → ExecPolicyManager → Prop :=
| step_call p f l cs fin i u :
    cs !! i = None →
    manager_step (mkManager p f l cs fin) (mkManager p f l (<[i := (u, Waiting)]> cs) fin)
| step_acquire p f cs fin i u :
    cs !! i = Some (u, Waiting) →
    manager_step (mkManager p f None cs fin) (mkManager p f (Some i) (<[i := (u, Holding)]> cs) fin)
| step_append p f l cs fin i u line :
    cs !! i = Some (u, Holding) → update_line u = Some line →
    manager_step (mkManager p f l cs fin)
      (mkManager p (append_locked_line f line) l (<[i := (u, Appended)]> cs) fin)
| step_append_error p f f' l cs fin i u :
    cs !! i = Some (u, Holding) → written f f' →
    manager_step (mkManager p f l cs fin) (mkManager p f' None (delete i cs) fin)
| step_load p f l cs fin i u :
    cs !! i = Some (u, Appended) →
    manager_step (mkManager p f l cs fin) (mkManager p f l (<[i := (u, Loaded p)]> cs) fin)
| step_store p f l cs fin i u current_policy p' :
    cs !! i = Some (u, Loaded current_policy) → update_policy u current_policy = Some p' →
    manager_step (mkManager p f l cs fin) (mkManager p' f None (delete i cs) (fin ++ [u]))
| step_update_error p f l cs fin i u current_policy :
    cs !! i = Some (u, Loaded current_policy) → update_policy u current_policy = None →
    manager_step (mkManager p f l cs fin) (mkManager p f None (delete i cs) fin)
| step_dropped_waiting p f l cs fin i u :
    cs !! i = Some (u, Waiting) →
    manager_step (mkManager p f l cs fin) (mkManager p f l (delete i cs) fin)
| step_dropped_holding p f l cs fin i u :  (** its writing thread goes on, see [step_other] *)
    cs !! i = Some (u, Holding) →
    manager_step (mkManager p f l cs fin) (mkManager p f None (delete i cs) fin)
| step_other p f f' l cs fin :
    written f f' → manager_step (mkManager p f l cs fin) (mkManager p f' l cs fin).

Definition new_manager (p : Policy) (f : str) : ExecPolicyManager := mkManager p f None ∅ [].
End approval.
