(* ===== verification/ExecApprovalFacts.v ===== *)
(** * What the approval decision guarantees

    Commands run without a prompt only for a reason, prompts appear only where the
    approval policy lets them, an amendment that is taken over has the effect that it was
    offered for, and concurrent amendments are not lost. *)

From S2P Require Import Prelude RustStr RustPath ShellTree ShellTreeFacts CommandSafety CommandSafetyFacts.
From S2P Require Import SandboxPolicy SandboxPolicyFacts ExecPolicy ExecPolicyFacts ExecPolicyParser ExecPolicyParserFacts ExecApproval.

#[local] Arguments lit _ : simpl never.

(** The rules that match a command, without the classification of the command. *)
Abbreviation rule_matches_of p c := (matches_for_command_with_options p c None match_options).

Section facts.
Context (linux : bool) (try_parse_shell : str → option Node) `{TL : TextLibs} `{HP : HostPaths}.

(** ** Matches *)

Lemma matches_with_fallback p c h :
  matches_for_command_with_options p c (Some h) match_options =
  match rule_matches_of p c with [] => [HeuristicsRuleMatch c (h c)] | ms => ms end.
Proof. unfold matches_for_command_with_options. cbv zeta. by repeat case_match. Qed.

Lemma rule_matches_policy r c m : rule_matches r c = Some m → is_policy_match m = true.
Proof. unfold rule_matches. case_match; [by intros [= <-]|done]. Qed.

Lemma exact_matches_policy p c ms m : match_exact_rules p c = Some ms → m ∈ ms → is_policy_match m = true.
Proof.
  unfold match_exact_rules. destruct c; [done|]. intros [= <-] (r & _ & Hr)%list_elem_of_omap.
  by apply rule_matches_policy in Hr.
Qed.

Lemma host_matches_policy p c m : m ∈ match_host_executable_rules p c → is_policy_match m = true.
Proof.
  unfold match_host_executable_rules. cbv zeta.
  repeat case_match; try (by intros ?%not_elem_of_nil).
  all: intros (m' & -> & (r & _ & Hr)%list_elem_of_omap)%list_elem_of_fmap; apply rule_matches_policy in Hr;
    by destruct m'.
Qed.

Lemma rule_matches_all_policy p c m : m ∈ rule_matches_of p c → is_policy_match m = true.
Proof.
  unfold matches_for_command_with_options. cbn [resolve_host_executables match_options].
  destruct (match_exact_rules p c) as [[|m0 ms]|] eqn:E.
  1, 3: case_match; [intros ?%not_elem_of_nil; done|]; match goal with H : _ = _ :: _ |- _ => rewrite <- H end;
    apply host_matches_policy.
  by apply (exact_matches_policy p c (m0 :: ms)).
Qed.

Lemma policy_match_in p c h :
  existsb is_policy_match (matches_for_command_with_options p c (Some h) match_options) =
  negb (bool_decide (rule_matches_of p c = [])).
Proof.
  rewrite matches_with_fallback. destruct (rule_matches_of p c) as [|m ms] eqn:E; [done|].
  rewrite bool_decide_false by done. cbn [existsb].
  rewrite (rule_matches_all_policy p c m); [done|]. rewrite E. set_solver.
Qed.

(** ** Evaluations *)

Lemma commands_nonempty command : commands (commands_for_exec_policy try_parse_shell command) ≠ [].
Proof. unfold commands_for_exec_policy. repeat case_match; done. Qed.

Lemma check_multiple_Some p cmds h : cmds ≠ [] → is_Some (check_multiple_with_options p cmds h match_options).
Proof.
  intros Hne. unfold check_multiple_with_options, from_matches. set (ms := concat _).
  destruct (max_of_nonempty (map match_decision ms)) as [d ->]; [|by eexists].
  intros Hn%map_eq_nil. destruct cmds as [|c cmds]; [done|]. unfold ms in Hn. cbn [map concat] in Hn.
  apply app_eq_nil in Hn as [Hn _]. by apply matches_nonempty in Hn.
Qed.

(** The decisions that led to an evaluation. *)
Lemma check_multiple_spec p cmds h e :
  check_multiple_with_options p cmds h match_options = Some e →
  (∀ m, m ∈ matched_rules e ↔ ∃ c, c ∈ cmds ∧ m ∈ matches_for_command_with_options p c (Some h) match_options) ∧
  (∃ m, m ∈ matched_rules e ∧ match_decision m = eval_decision e) ∧
  (∀ m, m ∈ matched_rules e → stricter (match_decision m) (eval_decision e)).
Proof.
  intros [Hm Hd]%from_matches_Some. apply max_of_spec in Hd as [Hin Hmax]. rewrite Hm. split_and!.
  - intros m. rewrite list_elem_of_In, in_concat. split.
    + intros (l & Hl & Hml). apply in_map_iff in Hl as (c & <- & Hc). exists c. by rewrite !list_elem_of_In.
    + intros (c & Hc & Hmc). eexists. split; [|by apply list_elem_of_In]. apply in_map_iff. exists c.
      by rewrite <- list_elem_of_In.
  - apply list_elem_of_In, in_map_iff in Hin as (m & Hmd & Hmi). exists m. by rewrite list_elem_of_In.
  - intros m Hmi. apply Hmax, list_elem_of_In, in_map, list_elem_of_In, Hmi.
Qed.

Lemma stricter_allow d : stricter d Allow → d = Allow.
Proof. unfold stricter. destruct d; simpl; [done|lia|lia]. Qed.

(** All decisions allow if and only if the evaluation does. *)
Lemma check_multiple_allow p cmds h e :
  check_multiple_with_options p cmds h match_options = Some e →
  eval_decision e = Allow ↔
  ∀ c m, c ∈ cmds → m ∈ matches_for_command_with_options p c (Some h) match_options → match_decision m = Allow.
Proof.
  intros (Hin & (m0 & Hm0 & Hd) & Hmax)%check_multiple_spec. split.
  - intros Ha c m Hc Hm. rewrite Ha in Hmax. apply stricter_allow, Hmax, Hin. eauto.
  - intros Hall. rewrite <- Hd. apply Hin in Hm0 as (c & Hc & Hm). by apply (Hall c).
Qed.

(** ** Skipping the prompt *)

Lemma fallback_allow `{!BashGrammar try_parse_shell} req c :
  exec_policy_fallback linux try_parse_shell req c = Allow →
  dangerous_command_match try_parse_shell c = None ∧
  (req_approval_policy req = UnlessTrusted →
   is_known_safe_command linux try_parse_shell c = true ∧
   used_complex_parsing (commands_for_exec_policy try_parse_shell (req_command req)) = false) ∧
  (fs_kind (file_system_sandbox_policy (req_permission_profile req)) = KindRestricted →
   requests_sandbox_override (req_sandbox_permissions req) = true →
   req_approval_policy req = UnlessTrusted ∨ req_approval_policy req = Never).
Proof.
  unfold exec_policy_fallback, render_decision_for_unmatched_command, decision_by_sandbox.
  destruct (is_known_safe_command linux try_parse_shell c) eqn:Hs; cbn [andb].
  - rewrite (safe_not_dangerous_fact linux try_parse_shell c Hs).
    destruct (used_complex_parsing _), (req_approval_policy req); cbn; repeat case_match; naive_solver.
  - destruct (dangerous_command_match try_parse_shell c), (req_approval_policy req); repeat case_match; naive_solver.
Qed.

Lemma explicitly_allowed_spec p c :
  (∀ m, m ∈ rule_matches_of p c → match_decision m = Allow) → rule_matches_of p c ≠ [] → explicitly_allowed p c = true.
Proof.
  intros Hall Hne. unfold explicitly_allowed. destruct (rule_matches_of p c) as [|m ms] eqn:E; [done|].
  cbn [existsb]. unfold is_policy_match_with at 1. rewrite (rule_matches_all_policy p c m) by (rewrite E; set_solver).
  by rewrite bool_decide_true by (apply Hall; set_solver).
Qed.

(** The reasons for which the prompt is skipped. *)
Lemma skip_reasons `{!BashGrammar try_parse_shell} p req bypass_sandbox proposed :
  create_exec_approval_requirement_for_command linux try_parse_shell p req = Some (Skip bypass_sandbox proposed) →
  let cmds := commands_for_exec_policy try_parse_shell (req_command req) in
  (∀ c, c ∈ commands cmds →
     (rule_matches_of p c ≠ [] ∧ ∀ m, m ∈ rule_matches_of p c → match_decision m = Allow) ∨
     (rule_matches_of p c = [] ∧ dangerous_command_match try_parse_shell c = None ∧
      (req_approval_policy req = UnlessTrusted →
       is_known_safe_command linux try_parse_shell c = true ∧ used_complex_parsing cmds = false) ∧
      (fs_kind (file_system_sandbox_policy (req_permission_profile req)) = KindRestricted →
       requests_sandbox_override (req_sandbox_permissions req) = true →
       req_approval_policy req = UnlessTrusted ∨ req_approval_policy req = Never))) ∧
  (bypass_sandbox = true ↔ ∀ c, c ∈ commands cmds → rule_matches_of p c ≠ []).
Proof.
  intros H cmds. unfold create_exec_approval_requirement_for_command in H.
  apply bind_Some in H as (e & He & H). unfold evaluate in He.
  destruct (eval_decision e) eqn:Hd; [|by repeat case_match|done].
  injection H as <- _. pose proof (proj1 (check_multiple_allow p _ _ _ He) Hd) as Hall.
  assert (Hc : ∀ c, c ∈ commands cmds →
    match rule_matches_of p c with
    | [] => exec_policy_fallback linux try_parse_shell req c = Allow
    | ms => ∀ m, m ∈ ms → match_decision m = Allow
    end).
  { intros c Hc. specialize (Hall c). rewrite matches_with_fallback in Hall.
    destruct (rule_matches_of p c); [|by intros m; apply Hall].
    apply (Hall (HeuristicsRuleMatch c _)); [done|set_solver]. }
  split.
  - intros c Hin. specialize (Hc c Hin). destruct (rule_matches_of p c) as [|m ms] eqn:E; [right|by left].
    split; [done|]. by apply (fallback_allow req).
  - rewrite forallb_forall. split.
    + intros Hb c Hin E. apply list_elem_of_In, Hb in Hin. unfold explicitly_allowed in Hin. by rewrite E in Hin.
    + intros Hb c Hin%list_elem_of_In. apply explicitly_allowed_spec; [|by apply Hb].
      specialize (Hc c Hin). destruct (rule_matches_of p c); [set_solver|done].
Qed.

(** C11: a command runs without a prompt only for a reason.  When the prompt is skipped,
    each of the commands in the request either matches rules of the policy that all allow
    it, or matches none and then is not one of the dangerous ones, is known to be harmless and
    read without a complex parse if only such commands are trusted ([UnlessTrusted]), and does not
    ask out of a restricted file system except under [UnlessTrusted], where it is harmless, and
    under [Never], where no prompt is available; and the sandbox is left out exactly if rules allow
    every one of them by name. *)
Theorem skip_is_justified `{!BashGrammar try_parse_shell} p req bypass_sandbox proposed :
  create_exec_approval_requirement_for_command linux try_parse_shell p req = Some (Skip bypass_sandbox proposed) →
  let cmds := commands_for_exec_policy try_parse_shell (req_command req) in
  (∀ c, c ∈ commands cmds →
     (rule_matches_of p c ≠ [] ∧ ∀ m, m ∈ rule_matches_of p c → match_decision m = Allow) ∨
     (rule_matches_of p c = [] ∧ dangerous_command_match try_parse_shell c = None ∧
      (req_approval_policy req = UnlessTrusted →
       is_known_safe_command linux try_parse_shell c = true ∧ used_complex_parsing cmds = false) ∧
      (fs_kind (file_system_sandbox_policy (req_permission_profile req)) = KindRestricted →
       requests_sandbox_override (req_sandbox_permissions req) = true →
       req_approval_policy req = UnlessTrusted ∨ req_approval_policy req = Never))) ∧
  (bypass_sandbox = true ↔ ∀ c, c ∈ commands cmds → rule_matches_of p c ≠ []).
Proof. apply skip_reasons. Qed.

(** A request is always answered, and a prompt is shown only where the approval policy
    lets it through: never under [Never], and under a granular policy only if it allows
    the prompts of rules, when a rule asks, or those of the sandbox, when none does. *)
Theorem prompts_are_permitted p req :
  ∃ e r, evaluate linux try_parse_shell p req = Some e ∧
    create_exec_approval_requirement_for_command linux try_parse_shell p req = Some r ∧
    (∀ reason proposed, r = NeedsApproval reason proposed →
       eval_decision e = Prompt ∧
       match req_approval_policy req with
       | Never => False
       | Granular config =>
           if existsb (is_policy_match_with Prompt) (matched_rules e)
           then granular_rules config = true else sandbox_approval config = true
       | OnRequest | UnlessTrusted => True
       end).
Proof.
  unfold create_exec_approval_requirement_for_command.
  destruct (check_multiple_Some p _ (exec_policy_fallback linux try_parse_shell req)
              (commands_nonempty (req_command req))) as [e He].
  exists e. fold (evaluate linux try_parse_shell p req) in He. rewrite He. cbn [mbind option_bind]. eexists.
  split; [done|]. split; [done|]. intros reason proposed. unfold prompt_is_rejected_by_policy.
  destruct (eval_decision e); [done| |done]. destruct (req_approval_policy req) as [| |config|]; try done.
  - destruct (existsb _ _); [destruct (granular_rules config)|destruct (sandbox_approval config)]; done.
  - by destruct (existsb _ _).
Qed.

End facts.

(** ** Amendments *)

(** What [Path::file_name] yields is a relative path of one component, which keeps its name
    when it is resolved; only the shorthand for the home directory does not. *)
Class NamesResolve `{HostPaths} :=
  name_resolves : ∀ s n q, file_name s = Some n → n ≠ lit "~" → absolute_path n = Ok q → file_name q = Some n.

Section amendments.
Context `{HP : HostPaths}.

(** The two ways in which a rule matches a command. *)
Definition exact_match (p : Policy) (c0 : str) (args : list str) : Prop :=
  ∃ q, q ∈ rules_for (rules_by_program p) c0 ∧ is_Some (rule_matches q (c0 :: args)).

Definition listed (p : Policy) (basename program : str) : bool :=
  match host_executables_by_name p !! basename with
  | Some paths => existsb (fun path => seqb path program) paths
  | None => true
  end.

Definition host_match (p : Policy) (c0 : str) (args : list str) : Prop :=
  ∃ program basename q, absolute_path c0 = Ok program ∧ executable_path_lookup_key program = Some basename ∧
    listed p basename program = true ∧ q ∈ rules_for (rules_by_program p) basename ∧
    is_Some (rule_matches q (basename :: args)).

Lemma omap_nonempty {A B} (f : A → option B) l : omap f l ≠ [] ↔ ∃ x, x ∈ l ∧ is_Some (f x).
Proof.
  split.
  - destruct (omap f l) as [|y ys] eqn:E; [done|]. intros _.
    assert (y ∈ omap f l) as (x & Hx & Hf)%list_elem_of_omap by (rewrite E; set_solver). by exists x.
  - intros (x & Hx & [y Hy]) E. assert (y ∈ omap f l) as Hin by (apply list_elem_of_omap; eauto).
    rewrite E in Hin. set_solver.
Qed.

Lemma host_match_spec p c0 args : match_host_executable_rules p (c0 :: args) ≠ [] ↔ host_match p c0 args.
Proof.
  unfold match_host_executable_rules, host_match, listed, rules_for. cbv zeta.
  destruct (absolute_path c0) as [program|]; [|naive_solver].
  destruct (executable_path_lookup_key program) as [basename|] eqn:Hk; [|naive_solver].
  destruct (rules_by_program p !! basename) as [rules|] eqn:Hr.
  2: { split; [done|]. intros (? & ? & q & [= <-] & Hb & _ & Hq & _). rewrite Hk in Hb. injection Hb as <-.
       rewrite Hr in Hq. by apply not_elem_of_nil in Hq. }
  split.
  - intros H. exists program, basename.
    destruct (match host_executables_by_name p !! basename with Some _ => _ | None => _ end); [|done].
    assert (omap (fun r => rule_matches r (basename :: args)) rules ≠ []) as (q & Hq & Hs)%omap_nonempty.
    { intros E. apply H. exact (f_equal (map (fun m => with_resolved_program m program)) E). }
    exists q. rewrite Hr. done.
  - intros (? & ? & q & [= <-] & Hb & Hl & Hq & Hs). rewrite Hk in Hb. injection Hb as <-. rewrite Hl, Hr in *.
    intros E%map_eq_nil. revert E. apply omap_nonempty. by exists q.
Qed.

Lemma matched_spec p c0 args : rule_matches_of p (c0 :: args) ≠ [] ↔ exact_match p c0 args ∨ host_match p c0 args.
Proof.
  rewrite <- host_match_spec. unfold exact_match. rewrite <- omap_nonempty.
  unfold matches_for_command_with_options, match_exact_rules. cbn [resolve_host_executables match_options].
  destruct (omap _ _) as [|m ms] eqn:E; [|naive_solver]. destruct (match_host_executable_rules _ _); naive_solver.
Qed.

(** A rule that matches a command matches the longer ones. *)
Lemma rule_matches_longer q c suf : is_Some (rule_matches q c) → is_Some (rule_matches q (c ++ suf)).
Proof.
  unfold rule_matches. destruct (matches_prefix (pattern q) c) as [pre|] eqn:E; [|by intros []]. intros _.
  apply matches_prefix_spec in E as (suf' & -> & Hf).
  rewrite (proj2 (matches_prefix_spec (pattern q) ((pre ++ suf') ++ suf) pre)); [by eexists|].
  exists (suf' ++ suf). by rewrite app_assoc.
Qed.

Definition new_rule (f : str) (rest : list str) : PrefixRule := mkRule (mkPattern f (map Single rest)) Allow None.

Lemma singles_spec l pre : Forall2 (fun alts c => c ∈ alts) (map alternatives (map Single l)) pre → pre = l.
Proof.
  revert pre. induction l as [|x l IH]; intros pre H; inversion H; subst; [done|].
  match goal with Hx : _ ∈ [_] |- _ => apply list_elem_of_singleton in Hx as -> end. f_equal. by apply IH.
Qed.

Lemma new_rule_matches f rest c : is_Some (rule_matches (new_rule f rest) c) → ∃ suf, c = (f :: rest) ++ suf.
Proof.
  unfold rule_matches. destruct (matches_prefix _ c) as [pre|] eqn:E; [|by intros []]. intros _.
  apply matches_prefix_spec in E as (suf & -> & Hf). cbn [new_rule pattern first ExecPolicy.rest] in Hf.
  inversion Hf as [|? c0 ? pre' Hc0 Hpre]; subst. apply list_elem_of_singleton in Hc0 as ->.
  apply singles_spec in Hpre as ->. by exists suf.
Qed.

Lemma new_rule_self f rest : rule_matches (new_rule f rest) (f :: rest) = Some (PrefixRuleMatch (f :: rest) Allow None None).
Proof.
  unfold rule_matches. rewrite (proj2 (matches_prefix_spec _ (f :: rest) (f :: rest))); [done|].
  exists []. rewrite app_nil_r. split; [done|]. constructor; [set_solver|]. cbn [new_rule pattern ExecPolicy.rest].
  induction rest as [|x rest IH]; constructor; [set_solver|done].
Qed.

Section added.
Context (p p1 : Policy) (f : str) (rest : list str) (Hadd : add_prefix_rule p (f :: rest) Allow = Ok p1).

Lemma added_rules g :
  rules_for (rules_by_program p1) g = rules_for (rules_by_program p) g ++ (if decide (g = f) then [new_rule f rest] else []).
Proof using Hadd.
  injection Hadd as <-. cbn [rules_by_program]. unfold multimap_insert, rules_for at 1.
  destruct (decide (g = f)) as [->|]; [by rewrite lookup_insert_eq|]. by rewrite lookup_insert_ne, app_nil_r by done.
Qed.

Lemma added_listed b program : listed p1 b program = listed p b program.
Proof using Hadd. by injection Hadd as <-. Qed.

(** A command that matches only thanks to the new rule extends its prefix. *)
Lemma added_match c0 args :
  rule_matches_of p (c0 :: args) = [] → rule_matches_of p1 (c0 :: args) ≠ [] →
  ∃ suf, c0 :: args = (f :: rest) ++ suf ∨
    (args = rest ++ suf ∧ ∃ program, absolute_path c0 = Ok program ∧ executable_path_lookup_key program = Some f ∧
       listed p f program = true).
Proof using Hadd.
  intros Hno Hm. assert (Hno' : ¬ (exact_match p c0 args ∨ host_match p c0 args)) by (rewrite <- matched_spec; tauto).
  apply matched_spec in Hm as [(q & Hq & Hs)|(program & b & q & Ha & Hb & Hl & Hq & Hs)]; rewrite added_rules in Hq;
    apply elem_of_app in Hq as [Hq|Hq].
  - exfalso. apply Hno'. left. by exists q.
  - destruct (decide (c0 = f)) as [->|]; [|set_solver]. apply list_elem_of_singleton in Hq as ->.
    apply new_rule_matches in Hs as [suf Hs]. exists suf. by left.
  - exfalso. apply Hno'. right. exists program, b, q. by rewrite <- added_listed.
  - destruct (decide (b = f)) as [->|]; [|set_solver]. apply list_elem_of_singleton in Hq as ->.
    apply new_rule_matches in Hs as [suf [= ->]]. exists suf. right. split; [done|]. exists program.
    by rewrite <- added_listed.
Qed.
End added.

(** The rule is needed: its own prefix did not match before, if a command matches only
    thanks to it. *)
Lemma added_match_needed p p1 pre c `{!NamesResolve} :
  head pre ≠ Some (lit "~") → add_prefix_rule p pre Allow = Ok p1 →
  rule_matches_of p c = [] → rule_matches_of p1 c ≠ [] → rule_matches_of p pre = [].
Proof.
  intros Htilde Hadd Hno Hm. destruct pre as [|f rest]; [done|]. destruct c as [|c0 args]; [done|].
  destruct (decide (rule_matches_of p (f :: rest) = [])) as [|Hp]; [done|]. exfalso.
  apply matched_spec in Hp. enough (exact_match p c0 args ∨ host_match p c0 args) as Hx%matched_spec by done.
  destruct (added_match p p1 f rest Hadd c0 args Hno Hm) as (suf & [[= -> ->]|(-> & program & Ha & Hk & Hl)]).
  - destruct Hp as [(q & Hq & Hs)|(prog & b & q & Ha & Hb & Hl & Hq & Hs)]; [left; exists q|right; exists prog, b, q];
      split_and!; try done; [apply (rule_matches_longer q (f :: rest))|apply (rule_matches_longer q (b :: rest))]; done.
  - right. destruct Hp as [(q & Hq & Hs)|(prog & b & q & Ha' & Hb & _ & Hq & Hs)]; exists program, f, q.
    + split_and!; try done. by apply (rule_matches_longer q (f :: rest)).
    + unfold executable_path_lookup_key, executable_lookup_key in *.
      destruct (file_name program) as [n|] eqn:Hn; [|done]. injection Hk as ->.
      rewrite (name_resolves program f prog) in Hb by (naive_solver). injection Hb as <-.
      split_and!; try done. by apply (rule_matches_longer q (f :: rest)).
Qed.

(** Adding a rule for a command that matched none makes this rule its only one. *)
Lemma added_self p p1 f rest :
  add_prefix_rule p (f :: rest) Allow = Ok p1 → rule_matches_of p (f :: rest) = [] →
  rule_matches_of p1 (f :: rest) = [PrefixRuleMatch (f :: rest) Allow None None].
Proof.
  intros Hadd Hno. unfold matches_for_command_with_options, match_exact_rules in *.
  rewrite (added_rules p p1 f rest Hadd), omap_app, decide_True by done. cbn [omap list_omap].
  destruct (omap _ (rules_for (rules_by_program p) f)) eqn:E; [|done]. by rewrite new_rule_self.
Qed.

(** An amendment whose prefix matched no rule is added; one whose prefix did may change
    nothing. *)
Lemma apply_amendment_cases a p :
  amendment_command a ≠ [] →
  ∃ p', apply_amendment a p = Some (Ok p') ∧
    (add_prefix_rule p (amendment_command a) Allow = Ok p' ∨
     (p' = p ∧ rule_matches_of p (amendment_command a) ≠ [])).
Proof.
  intros Hne. unfold apply_amendment.
  destruct (check_multiple_Some p [amendment_command a] (fun _ => Forbidden)) as [e He]; [done|]. rewrite He.
  cbn [mbind option_bind]. destruct (amendment_command a) as [|f rest] eqn:Ea; [done|].
  destruct (bool_decide _ && _) eqn:Hb; [|eexists; split; [done|by left]].
  exists p. split; [done|]. right. split; [done|]. apply andb_true_iff in Hb as [_ Hb].
  intros E. unfold check_multiple_with_options in He. cbn [map concat] in He.
  rewrite matches_with_fallback, E in He. cbn in He. injection He as <-. done.
Qed.
End amendments.

Section accepted.
Context (linux : bool) (try_parse_shell : str → option Node) `{TL : TextLibs} `{HP : HostPaths}.

Abbreviation cmds_of req := (commands (commands_for_exec_policy try_parse_shell (req_command req))).
Abbreviation fallback_of req := (exec_policy_fallback linux try_parse_shell req).

(** What a policy decides on one command. *)
Definition command_decided (p : Policy) (req : ExecApprovalRequest) (c : list str) : Prop :=
  ∀ m, m ∈ matches_for_command_with_options p c (Some (fallback_of req)) match_options → match_decision m = Allow.

Lemma all_decided_skip p req :
  (∀ c, c ∈ cmds_of req → command_decided p req c) →
  ∃ b pr, create_exec_approval_requirement_for_command linux try_parse_shell p req = Some (Skip b pr).
Proof.
  intros Hall. unfold create_exec_approval_requirement_for_command.
  destruct (check_multiple_Some p _ (fallback_of req) (commands_nonempty try_parse_shell (req_command req))) as [e He].
  fold (evaluate linux try_parse_shell p req) in He. rewrite He. cbn [mbind option_bind].
  rewrite (proj2 (check_multiple_allow p _ _ e He)); [by eexists _, _|]. intros c m Hc. by apply Hall.
Qed.

Lemma no_policy_matches p req e c :
  evaluate linux try_parse_shell p req = Some e → existsb is_policy_match (matched_rules e) = false → c ∈ cmds_of req →
  rule_matches_of p c = [].
Proof.
  intros (Hin & _)%check_multiple_spec Hno Hc. destruct (rule_matches_of p c) as [|m ms] eqn:E; [done|].
  assert (m ∈ matched_rules e) as Hm.
  { apply Hin. exists c. split; [done|]. rewrite matches_with_fallback, E. set_solver. }
  apply not_true_iff_false in Hno as []. apply existsb_exists. exists m. split; [by apply list_elem_of_In|].
  apply (rule_matches_all_policy p c). rewrite E. set_solver.
Qed.

Lemma would_approve_decided p p1 pre req c :
  add_prefix_rule p pre Allow = Ok p1 →
  prefix_rule_would_approve_all_commands p pre (cmds_of req) (fallback_of req) = true → c ∈ cmds_of req →
  command_decided p1 req c.
Proof.
  unfold prefix_rule_would_approve_all_commands. intros ->. rewrite forallb_forall. intros Hall Hc m Hm.
  apply list_elem_of_In, Hall, bool_decide_eq_true in Hc.
  destruct (check_with_options p1 c (fallback_of req) match_options) as [e|] eqn:He; [|done]. injection Hc as Hd.
  assert (check_multiple_with_options p1 [c] (fallback_of req) match_options = Some e) as Hs.
  { unfold check_multiple_with_options. cbn [map concat]. by rewrite app_nil_r. }
  apply (proj1 (check_multiple_allow p1 [c] _ e Hs) Hd c); [set_solver|done].
Qed.

Lemma requested_amendment_works `{!NamesResolve} p req e a :
  evaluate linux try_parse_shell p req = Some e → eval_decision e ≠ Allow →
  requested_amendment linux try_parse_shell p req e = Some a → head (amendment_command a) ≠ Some (lit "~") →
  ∃ p', apply_amendment a p = Some (Ok p') ∧ ∀ c, c ∈ cmds_of req → command_decided p' req c.
Proof.
  intros He Hd Ha Htilde. unfold requested_amendment, derive_requested_execpolicy_amendment_from_prefix_rule in Ha.
  destruct (negb _); [|done]. apply bind_Some in Ha as (pre & Hpre & Ha). destruct pre as [|f rest]; [done|].
  destruct (existsb (fun banned => _) _); [done|]. destruct (existsb is_policy_match _) eqn:Hno; [done|].
  destruct (prefix_rule_would_approve_all_commands _ _ _ _) eqn:Hap; [|done]. injection Ha as <-.
  destruct (apply_amendment_cases (mkAmendment (f :: rest)) p) as (p' & Happ & Hcase); [done|].
  exists p'. split; [done|]. destruct Hcase as [Hadd|[-> Hm]]; [intros c; by apply (would_approve_decided p p' (f :: rest))|].
  exfalso. apply Hd, (check_multiple_allow p _ _ e He). intros c m Hc.
  pose proof (no_policy_matches p req e c He Hno Hc) as Hu. destruct (add_prefix_rule p (f :: rest) Allow) as [p1|] eqn:Hadd; [|done].
  pose proof (would_approve_decided p p1 (f :: rest) req c Hadd Hap Hc m) as Hdec.
  rewrite matches_with_fallback in Hdec |- *. rewrite Hu. destruct (rule_matches_of p1 c) eqn:E1; [done|].
  destruct Hm. apply (added_match_needed p p1 (f :: rest) c); [done..|]. by rewrite E1.
Qed.

(** The prefix that is offered when a command was classified: one that no rule matched. *)
Lemma prompt_amendment_unmatched p req e a :
  evaluate linux try_parse_shell p req = Some e →
  try_derive_execpolicy_amendment_for_prompt_rules (matched_rules e) = Some a →
  amendment_command a ∈ cmds_of req ∧ rule_matches_of p (amendment_command a) = [].
Proof.
  intros (Hin & _)%check_multiple_spec Ha. unfold try_derive_execpolicy_amendment_for_prompt_rules in Ha.
  destruct (existsb _ _); [done|]. apply find_map_Some in Ha as (m & (c & Hc & Hm)%Hin & Ha).
  rewrite matches_with_fallback in Hm. destruct (rule_matches_of p c) as [|m0 ms] eqn:E.
  - apply list_elem_of_singleton in Hm as ->. destruct (fallback_of req c); [done| |done]. by injection Ha as <-.
  - rewrite <- E in Hm. apply rule_matches_all_policy in Hm. by destruct m.
Qed.

Lemma prompt_amendment_works p req a :
  amendment_command a ≠ [] → rule_matches_of p (amendment_command a) = [] →
  ∃ p', apply_amendment a p = Some (Ok p') ∧ command_decided p' req (amendment_command a).
Proof.
  intros Hne Hu. destruct (apply_amendment_cases a p Hne) as (p' & Happ & [Hadd|[_ ?]]); [|done].
  exists p'. split; [done|]. intros m. rewrite matches_with_fallback. destruct (amendment_command a) as [|f rest]; [done|].
  rewrite (added_self p p' f rest Hadd Hu). by intros ->%list_elem_of_singleton.
Qed.

(** An amendment that comes with a prompt does what it is offered for.  Taking it over
    succeeds and the new policy lets through the command that it names; if it was the
    prefix that the request asked for, or if the request holds just one command, the same
    request then needs no prompt any more. *)
Theorem accepted_amendment_suffices `{!NamesResolve} p req reason a :
  create_exec_approval_requirement_for_command linux try_parse_shell p req = Some (NeedsApproval reason (Some a)) →
  amendment_command a ≠ [] → head (amendment_command a) ≠ Some (lit "~") →
  ∃ p', apply_amendment a p = Some (Ok p') ∧
    (∃ c, c ∈ cmds_of req ∧ command_decided p' req c) ∧
    (length (cmds_of req) = 1 ∨
     (∃ e, evaluate linux try_parse_shell p req = Some e ∧ requested_amendment linux try_parse_shell p req e = Some a) →
     ∃ b pr, create_exec_approval_requirement_for_command linux try_parse_shell p' req = Some (Skip b pr)).
Proof.
  intros Hc Hne Htilde. unfold create_exec_approval_requirement_for_command in Hc.
  apply bind_Some in Hc as (e & He & Hc). destruct (eval_decision e) eqn:Hd; [done| |done].
  destruct (prompt_is_rejected_by_policy _ _); [by destruct (existsb _ _)|]. injection Hc as _ Hc.
  destruct (requested_amendment linux try_parse_shell p req e) as [a'|] eqn:Hr.
  - injection Hc as ->. destruct (requested_amendment_works p req e a He) as (p' & Happ & Hall); [by rewrite Hd|done..|].
    exists p'. split; [done|]. split; [|intros _; by apply all_decided_skip].
    destruct (cmds_of req) as [|c cs] eqn:E; [by apply commands_nonempty in E|]. exists c. split; [set_solver|].
    apply Hall. set_solver.
  - destruct (negb _); [|done]. destruct (prompt_amendment_unmatched p req e a He Hc) as [Hin Hu].
    destruct (prompt_amendment_works p req a Hne Hu) as (p' & Happ & Hdec). exists p'. split; [done|]. split; [by eauto|].
    intros [Hlen|(e' & He' & Hr')]; [|rewrite He in He'; naive_solver]. apply all_decided_skip. intros c Hc'.
    destruct (cmds_of req) as [|c1 [|]]; [done| |done]. apply list_elem_of_singleton in Hin, Hc' as ->. by rewrite <- Hin.
Qed.
End accepted.

(** ** Concurrent amendments *)

(** [serde_json::to_string] escapes the line feeds of a text. *)
Class JsonOneLine `{TextLibs} := json_one_line : ∀ s, nl ∉ json_string s.

Section manager.
Context `{TL : TextLibs} `{HP : HostPaths} `{!JsonOneLine}.

Lemma join_no_nl sep l : nl ∉ sep → Forall (fun s => nl ∉ s) l → nl ∉ join sep l.
Proof.
  intros Hsep. induction 1 as [|x l Hx Hl IH]; cbn [join]; [set_solver|]. destruct l; [done|].
  rewrite !not_elem_of_app. done.
Qed.

Lemma closed_by_paren s : strip_cr (s ++ lit ")") = s ++ lit ")".
Proof.
  unfold strip_cr, strip_suffix. rewrite rev_app_distr. change (rev (lit ")")) with [41%N]. cbn [rev app strip_prefix].
  done.
Qed.

(** A line of the file of rules is one line, and none that ends in a carriage return. *)
Lemma update_line_text u line : update_line u = Some line → (nl ∉ line) ∧ line ≠ [] ∧ strip_cr line = line.
Proof.
  assert (Hlit : ∀ s, forallb (fun c => negb (c =? nl)%N) s = true → nl ∉ s).
  { intros s Hs Hin. rewrite forallb_forall in Hs. apply list_elem_of_In, Hs in Hin. done. }
  destruct u as [[prefix]|host protocol d j]; cbn [update_line amendment_command].
  - unfold allow_prefix_rule_line. destruct prefix as [|f rest]; [done|]. intros <-%(inj Some). split_and!.
    + rewrite !not_elem_of_app. split_and!; try (by apply Hlit). apply join_no_nl; [by apply Hlit|].
      apply Forall_forall. intros x (y & <- & _)%list_elem_of_In%in_map_iff. apply json_one_line.
    + done.
    + unfold RULE_SUFFIX. rewrite !app_assoc. apply closed_by_paren.
  - unfold network_rule_line. destruct (normalize_network_rule_host host); [|done]. cbn [rbind].
    destruct (check_justification j); [|done]. cbn [rbind]. intros <-%(inj Some). split_and!.
    + rewrite !not_elem_of_app. split_and!; try (by apply Hlit). apply join_no_nl; [by apply Hlit|].
      destruct j; cbn [app]; repeat constructor; rewrite not_elem_of_app; (split; [by apply Hlit|apply json_one_line]).
    + done.
    + rewrite app_assoc. apply closed_by_paren.
Qed.

Lemma apply_updates_snoc us u p :
  apply_updates (us ++ [u]) p = (p' ← apply_updates us p; update_policy u p').
Proof.
  revert p. induction us as [|v us IH]; intros p; cbn [app apply_updates].
  - cbn. by destruct (update_policy u p).
  - destruct (update_policy v p); cbn [mbind option_bind]; [apply IH|done].
Qed.

(** The line of an update is in a file. *)
Definition saved (f : str) (u : Update) : Prop := ∃ line, update_line u = Some line ∧ line ∈ lines f.

Lemma saved_written f f' u : written f f' → saved f u → saved f' u.
Proof.
  intros (added & pre & post & Hw & ->) (line & Hl & Hin). exists line. split; [done|].
  apply (append_keeps_line f added line pre post); [done..|]. by apply update_line_text in Hl as (_ & _ & ?).
Qed.

Lemma written_append f line : written f (append_locked_line f line).
Proof.
  unfold append_locked_line at 1. exists line, (if existsb (fun x => seqb x line) (lines f) then [] else
    (if negb (seqb f []) && negb (ends_with [nl] f) then [nl] else []) ++ line ++ [nl]), [].
  unfold append_locked_line. destruct (existsb _ _); by rewrite ?app_nil_r.
Qed.

Lemma saved_append f u line : update_line u = Some line → saved (append_locked_line f line) u.
Proof. intros Hl. exists line. split; [done|]. apply update_line_text in Hl as (? & ? & ?). by apply append_has_line. Qed.

(** What the permit guarantees to a call, and what holds of the state. *)
Definition call_ok (m : ExecPolicyManager) (i : nat) (u : Update) (ph : Phase) : Prop :=
  match ph with
  | Waiting => update_lock m ≠ Some i
  | Holding => update_lock m = Some i
  | Appended => update_lock m = Some i ∧ saved (rules_file m) u
  | Loaded q => update_lock m = Some i ∧ saved (rules_file m) u ∧ q = manager_policy m
  end.

Record manager_inv (p0 : Policy) (m : ExecPolicyManager) : Prop := {
  inv_sequential : apply_updates (finished m) p0 = Some (manager_policy m);
  inv_saved : Forall (saved (rules_file m)) (finished m);
  inv_lock : ∀ i, update_lock m = Some i → is_Some (calls m !! i);
  inv_calls : ∀ i u ph, calls m !! i = Some (u, ph) → call_ok m i u ph
}.

(** While a call holds the permit, the others wait. *)
Lemma others_wait p0 m i j u ph : manager_inv p0 m → update_lock m = Some i → j ≠ i → calls m !! j = Some (u, ph) → ph = Waiting.
Proof. intros Hinv Hl Hne Hj. apply (inv_calls _ _ Hinv) in Hj. destruct ph; cbn in Hj; naive_solver. Qed.

(** A step of the call with the permit: the others still wait. *)
Lemma holder_moves p0 m m' i :
  manager_inv p0 m → update_lock m = Some i → (∀ j, j ≠ i → calls m' !! j = calls m !! j) →
  (update_lock m' = Some i ∨ update_lock m' = None) →
  (∀ u ph, calls m' !! i = Some (u, ph) → call_ok m' i u ph) →
  ∀ j u ph, calls m' !! j = Some (u, ph) → call_ok m' j u ph.
Proof.
  intros Hinv Hl Heq Hl' Hi j u ph Hj. destruct (decide (j = i)) as [->|Hne]; [by apply Hi|].
  rewrite Heq in Hj by done. rewrite (others_wait p0 m i j u ph) by done. cbn. destruct Hl' as [->| ->]; naive_solver.
Qed.

Ltac holder_step p0 Hinv i :=
  apply (holder_moves p0 _ _ i Hinv); [cbn; tauto|cbn; intros; by simplify_map_eq|cbn; tauto|];
  cbn [calls]; intros; simplify_map_eq.

Lemma saved_all f f' us : written f f' → Forall (saved f) us → Forall (saved f') us.
Proof. intros Hw Hf. eapply Forall_impl; [exact Hf|]. intros u. by apply saved_written. Qed.

Lemma lock_insert (l : option nat) i x (cs : gmap nat (Update * Phase)) :
  (∀ j, l = Some j → is_Some (cs !! j)) → ∀ j, l = Some j → is_Some (<[i := x]> cs !! j).
Proof. intros Hl j Hj. destruct (decide (i = j)) as [->|]; simplify_map_eq; eauto. Qed.

Lemma manager_inv_step p0 m m' : manager_inv p0 m → manager_step m m' → manager_inv p0 m'.
Proof.
  intros Hinv Hstep. pose proof Hinv as [Hseq Hsaved Hlock Hcalls].
  destruct Hstep; cbn [manager_policy rules_file update_lock calls finished] in *;
    try match goal with H : _ !! _ = Some (_, _) |- _ => pose proof (Hcalls _ _ _ H) as Hok; cbn in Hok end;
    (split; cbn [manager_policy rules_file finished update_lock];
      [try exact Hseq|try exact Hsaved; try (by apply (saved_all f))|cbn [calls]; try done; try (by apply lock_insert)|]).
  - intros j v ph Hj. destruct (decide (j = i)) as [->|]; simplify_map_eq; [|by apply Hcalls].
    cbn. intros ->. destruct (Hlock i eq_refl). congruence.
  - intros j [= <-]. simplify_map_eq. eauto.
  - intros j v ph Hj. destruct (decide (j = i)) as [->|]; simplify_map_eq; [done|]. apply Hcalls in Hj.
    destruct ph; cbn in *; naive_solver.
  - apply (saved_all f); [apply written_append|done].
  - holder_step p0 Hinv i. cbn. split; [done|]. by apply saved_append.
  - holder_step p0 Hinv i.
  - holder_step p0 Hinv i. cbn. tauto.
  - destruct Hok as (-> & Hs & ->). by rewrite apply_updates_snoc, Hseq.
  - apply Forall_app. split; [done|]. constructor; [tauto|done].
  - holder_step p0 Hinv i.
  - holder_step p0 Hinv i.
  - intros j Hj. rewrite lookup_delete_ne by congruence. by apply Hlock.
  - intros j v ph Hj. destruct (decide (j = i)) as [->|]; simplify_map_eq. by apply Hcalls.
  - holder_step p0 Hinv i.
  - intros j v ph Hj. apply Hcalls in Hj. destruct ph; cbn in *; naive_solver eauto using saved_written.
Qed.

(** C23: no amendment is lost.  However the calls of the manager interleave, whichever of
    them fail or are given up, and whatever other processes write to the file of rules
    meanwhile, the policy in memory is the first one with the updates that succeeded
    applied one after the other, each of these has its line in the file, and at most one
    call is past the semaphore. *)
Theorem no_amendment_is_lost p0 f0 m :
  rtc manager_step (new_manager p0 f0) m →
  apply_updates (finished m) p0 = Some (manager_policy m) ∧
  (∀ u, u ∈ finished m → ∃ line, update_line u = Some line ∧ line ∈ lines (rules_file m)) ∧
  (∀ i j u v ph ph', calls m !! i = Some (u, ph) → calls m !! j = Some (v, ph') →
     ph ≠ Waiting → ph' ≠ Waiting → i = j).
Proof.
  intros Hr. assert (manager_inv p0 m) as [Hseq Hsaved _ Hcalls].
  { apply (rtc_ind_r (R := manager_step) (manager_inv p0) (new_manager p0 f0)) with (z := m);
      [|intros x y _ Hs Hx; by apply (manager_inv_step p0 x)|done].
    split; [done|constructor|done|]. cbn. intros i u ph Hi. by rewrite lookup_empty in Hi. }
  split_and!; [done|by apply Forall_forall|]. intros i j u v ph ph' Hi%Hcalls Hj%Hcalls Hn Hn'.
  destruct ph, ph'; cbn in *; naive_solver.
Qed.
End manager.

(** ** The paths of a Unix host *)

(** [AbsolutePathBuf::try_from] resolves a relative path against the current directory. *)
Definition unix_paths (host : Host) : HostPaths := {|
  absolute_path s :=
    match from_absolute_path host s with Some path => Ok (display_path path) | None => Err (lit "no current directory") end;
  file_name := path_file_name;
  is_absolute := path_is_absolute;
  component_count s := length (path_components s)
|}.

Lemma file_name_plain s n : path_file_name s = Some n → (slash ∉ n) ∧ n ≠ [] ∧ n ≠ [dot] ∧ n ≠ [dot; dot].
Proof.
  unfold path_file_name. destruct (last (path_components s)) as [[]|] eqn:E; try done. intros [= ->].
  apply last_Some_elem_of in E. split.
  - apply components_pieces in E. by apply (pieces_no_sep slash s).
  - unfold path_components in E. destruct (split_on slash s) as [|x ps]; [set_solver|].
    apply elem_of_app in E as [E|(y & _ & E)%list_elem_of_omap]; [|by apply component_of_Normal in E as [-> ?]].
    destruct (seqb x [dot]); [set_solver|]. destruct (seqb x []); [destruct ps; set_solver|].
    destruct (component_of x) as [k|] eqn:Ek; [|by apply not_elem_of_nil in E].
    apply list_elem_of_singleton in E as <-. by apply component_of_Normal in Ek as [-> ?].
Qed.

Lemma file_name_snoc s n : slash ∉ n → n ≠ [] → n ≠ [dot] → n ≠ [dot; dot] → path_file_name (s ++ slash :: n) = Some n.
Proof.
  intros Hs H0 H1 H2. unfold path_file_name, path_components. rewrite split_on_app_sep, (split_on_no_sep slash n) by done.
  pose proof (split_on_nonempty slash s). destruct (split_on slash s) as [|x ps]; [done|]. cbn [app].
  rewrite omap_app, app_assoc, last_app. cbn [omap list_omap]. unfold component_of.
  rewrite (proj2 (seqb_neq n []) H0), (proj2 (seqb_neq n [dot]) H1), (proj2 (seqb_neq n [dot; dot]) H2). done.
Qed.

#[export] Instance unix_names_resolve host : NamesResolve (H := unix_paths host).
Proof.
  intros s n q (Hs & H0 & H1 & H2)%file_name_plain Htilde Hq. cbn [unix_paths absolute_path file_name] in *.
  assert (maybe_expand_home_directory host n = n) as Hexp.
  { unfold maybe_expand_home_directory. destruct (home_dir host); [|done].
    destruct (strip_prefix (lit "~") n) as [r|] eqn:E; [|done]. apply strip_prefix_Some in E as ->.
    destruct (seqb r []) eqn:Er; [apply seqb_eq in Er as ->; by rewrite app_nil_r in Htilde|].
    destruct (strip_prefix [slash] r) eqn:E; [|done]. apply strip_prefix_Some in E as ->. set_solver. }
  unfold from_absolute_path in Hq. rewrite Hexp in Hq. unfold path_is_absolute, starts_with in Hq.
  destruct (strip_prefix [slash] n) eqn:E; [apply strip_prefix_Some in E as ->; set_solver|].
  destruct (current_dir host) as [cwd|]; [|done]. cbn [fmap option_fmap option_map] in Hq. injection Hq as <-.
  unfold absolutize_from. rewrite components_plain by done. cbn [foldl normalize_component]. unfold display_path.
  destruct (cwd ++ [n]) eqn:E'; [by destruct cwd|]. rewrite <- E', map_app, concat_app. cbn [map concat].
  rewrite app_nil_r. by apply file_name_snoc.
Qed.

(** ** Samples *)

Module SampleApproval.
Definition escape (c : char) : str :=
  if (c =? nl)%N then lit "\n" else if ((c =? 34) || (c =? 92))%N then [92%N; c] else [c].
Definition libs : TextLibs := {|
  shlex_split s := Some [s];
  shlex_try_join l := Some (join (lit " ") l);
  debug_rule r := rule_program r;
  debug_match _ := [];
  json_string_list _ := None;
  json_string s := [34%N] ++ concat (map escape s) ++ [34%N];
|}.

#[global] Instance libs_one_line : JsonOneLine (H := libs).
Proof.
  intros s. cbn [libs json_string]. rewrite !not_elem_of_app. split_and!; [set_solver| |set_solver].
  induction s as [|c s IH]; cbn [map concat]; [set_solver|]. apply not_elem_of_app. split; [|done]. unfold escape.
  destruct (N.eqb_spec c nl); [apply (bool_decide_unpack _); vm_compute; exact I|].
  destruct (_ || _); set_solver.
Qed.

Definition paths : HostPaths := unix_paths SampleSandbox.host.
#[global] Instance paths_resolve : NamesResolve (H := paths) := unix_names_resolve SampleSandbox.host.

(** A policy with one rule. *)
Definition allowing (prefix : list str) : Policy :=
  match add_prefix_rule empty_policy prefix Allow with Ok p => p | Err _ => empty_policy end.

Definition request (command : list str) (ask : AskForApproval) : ExecApprovalRequest :=
  mkExecRequest command ask (Managed (ManagedRestricted [] None) NetworkRestricted) UseDefault None.

Abbreviation requirement p req :=
  (create_exec_approval_requirement_for_command (TL := libs) (HP := paths) true SampleShell.sample_parse p req).
End SampleApproval.
Import SampleApproval.

Lemma skip_is_justified_witness :
  requirement (allowing [lit "ls"]) (request SampleShell.argv OnRequest) = Some (Skip false None) ∧
  dangerous_command_match SampleShell.sample_parse [lit "cat"; lit "f"] = None.
Proof.
  split; [vm_compute; reflexivity|].
  destruct (@skip_is_justified true SampleShell.sample_parse libs paths SampleShell.parse_grammar (allowing [lit "ls"])
              (request SampleShell.argv OnRequest) false None) as [H _]; [vm_compute; reflexivity|].
  destruct (H [lit "cat"; lit "f"]) as [[Hn _]|(_ & Hd & _)]; [vm_compute; set_solver|by destruct Hn|exact Hd].
Defined.

Lemma accepted_amendment_suffices_witness :
  ∃ p', apply_amendment (HP := paths) (mkAmendment [lit "make"; lit "all"]) empty_policy = Some (Ok p') ∧
  ∃ b pr, requirement p' (request [lit "make"; lit "all"] UnlessTrusted) = Some (Skip b pr).
Proof.
  destruct (@accepted_amendment_suffices true SampleShell.sample_parse libs paths paths_resolve empty_policy
              (request [lit "make"; lit "all"] UnlessTrusted) None (mkAmendment [lit "make"; lit "all"]))
    as (p' & Ha & _ & Hs); [vm_compute; reflexivity|done|done|].
  exists p'. split; [exact Ha|]. apply Hs. left. reflexivity.
Defined.

Lemma no_amendment_is_lost_witness :
  let u := AmendPrefix (mkAmendment [lit "make"; lit "all"]) in
  ∃ m, rtc (manager_step (TL := libs) (HP := paths)) (new_manager empty_policy []) m ∧ finished m = [u] ∧
    apply_updates (HP := paths) (finished m) empty_policy = Some (manager_policy m).
Proof.
  intros u. pose (p' := allowing [lit "make"; lit "all"]).
  destruct (update_line (TL := libs) u) as [line|] eqn:Hline; [|discriminate].
  pose (m := mkManager p' (append_locked_line [] line) None ∅ [u]).
  assert (rtc (manager_step (TL := libs) (HP := paths)) (new_manager empty_policy []) m) as Hr.
  { eapply rtc_l; [apply (step_call _ _ _ _ _ 0 u); done|].
    eapply rtc_l; [apply (step_acquire _ _ _ _ 0 u); done|].
    eapply rtc_l; [apply (step_append _ _ _ _ _ 0 u line); done|].
    eapply rtc_l; [apply (step_load _ _ _ _ _ 0 u); done|].
    eapply rtc_l; [apply (step_store _ _ _ _ _ 0 u empty_policy p'); [done|vm_compute; reflexivity]|].
    apply rtc_refl. }
  exists m. split; [exact Hr|]. split; [reflexivity|].
  destruct (@no_amendment_is_lost libs paths libs_one_line empty_policy [] m Hr) as [H _]. exact H.
Defined.

(** A rule for a program that is found by its name also lets a program of this name in the
    current directory through, outside the sandbox. *)
Example relative_program_bypasses :
  requirement (allowing [lit "git"; lit "status"]) (request [lit "./git"; lit "status"] UnlessTrusted) =
  Some (Skip true None).
Proof. vm_compute. reflexivity. Qed.
