(* ===== verification/ResponseModel.v ===== *)
(** * The Responses-shaped data model

    [codex-rs/protocol/src/models.rs]: the conversation items every model
    provider is translated from and to, [openai_models.rs]'s reasoning effort and
    [protocol.rs]'s token usage; JSON values stand for [serde_json::Value].
    Nested payloads that no operation of this development looks into (shell
    actions, reasoning summaries, web-search actions, image details) are kept as
    JSON values. *)

From S2P Require Import Prelude RustStr.
Open Scope N_scope.

(** [serde_json::Value]; a number is kept as its literal. *)
Inductive Json :=
| JNull
| JBool (b : bool)
| JNumber (literal : str)
| JString (s : str)
| JArray (l : list Json)
| JObject (fields : list (str * Json)).

(** [Value::get] with a string index: [None] unless the value is an object that has the key. *)
Fixpoint assoc {A} (k : str) (l : list (str * A)) : option A :=
  match l with
  | [] => None
  | (k', v) :: l => if seqb k k' then Some v else assoc k l
  end.

Definition get (k : str) (v : Json) : option Json :=
  match v with JObject fields => assoc k fields | _ => None end.

Definition as_str (v : Json) : option str := match v with JString s => Some s | _ => None end.
Definition as_bool (v : Json) : option bool := match v with JBool b => Some b | _ => None end.
Definition as_array (v : Json) : option (list Json) :=
  match v with JArray l => Some l | _ => None end.

(** ** Items *)

Inductive ContentItem :=
| InputText (text : str)
| InputImage (image_url : str) (detail : option Json)
| InputAudio (audio_url : str)
| OutputText (text : str).

Inductive AgentMessageInputContent :=
| AgentInputText (text : str)
| AgentEncryptedContent (encrypted_content : str).

Inductive MessagePhase := Commentary | FinalAnswer.

Inductive FunctionCallOutputContentItem :=
| OutInputText (text : str)
| OutInputImage (image_url : str) (detail : option Json)
| OutInputAudio (audio_url : str)
| OutEncryptedContent (encrypted_content : str).

Inductive FunctionCallOutputBody :=
| BodyText (content : str)
| BodyContentItems (items : list FunctionCallOutputContentItem).

Record FunctionCallOutputPayload := mkPayload {
  body : FunctionCallOutputBody;
  success : option bool
}.

Record InternalChatMessageMetadataPassthrough := mkPassthrough { turn_id : option str }.
#[local] Abbreviation metadata := (option InternalChatMessageMetadataPassthrough).

Inductive ResponseItem :=
| AdditionalTools (id : option str) (role : str) (tools : list Json)
| Message (id : option str) (role : str) (content : list ContentItem) (phase : option MessagePhase)
    (passthrough : metadata)
| AgentMessage (id : option str) (author recipient : str) (content : list AgentMessageInputContent)
    (passthrough : metadata)
| Reasoning (id : option str) (summary : list Json) (content : option (list Json))
    (encrypted_content : option str) (passthrough : metadata)
| LocalShellCall (id : option str) (call_id : option str) (status : str) (action : Json)
    (passthrough : metadata)
| FunctionCall (id : option str) (name : str) (namespace : option str) (arguments : str)
    (call_id : str) (passthrough : metadata)
| ToolSearchCall (id : option str) (call_id : option str) (status : option str) (execution : str)
    (arguments : Json) (passthrough : metadata)
| FunctionCallOutput (id : option str) (call_id : str) (output : FunctionCallOutputPayload)
    (passthrough : metadata)
| CustomToolCall (id : option str) (status : option str) (call_id name : str)
    (namespace : option str) (input : str) (passthrough : metadata)
| CustomToolCallOutput (id : option str) (call_id : str) (name : option str)
    (output : FunctionCallOutputPayload) (passthrough : metadata)
| ToolSearchOutput (id : option str) (call_id : option str) (status execution : str)
    (tools : list Json) (passthrough : metadata)
| WebSearchCall (id : option str) (status : option str) (action : option Json)
    (passthrough : metadata)
| ImageGenerationCall (id : option str) (status : str) (revised_prompt : option str)
    (result : str) (passthrough : metadata)
| Compaction (id : option str) (encrypted_content : str) (passthrough : metadata)
| CompactionTrigger
| ContextCompaction (id : option str) (encrypted_content : option str) (passthrough : metadata)
| Other.

(** [text.trim().is_empty()] *)
Definition blank (s : str) : bool := seqb (trim s) [].

Definition function_call_output_content_items_to_text
    (content_items : list FunctionCallOutputContentItem) : option str :=
  let text_segments := omap (fun item =>
    match item with
    | OutInputText text => if blank text then None else Some text
    | _ => None
    end) content_items in
  match text_segments with
  | [] => None
  | _ => Some (join [nl] text_segments)
  end.

Definition to_text (b : FunctionCallOutputBody) : option str :=
  match b with
  | BodyText content => Some content
  | BodyContentItems items => function_call_output_content_items_to_text items
  end.

(** ** Requests *)

Inductive ReasoningEffort :=
| EffortNone | EffortMinimal | EffortLow | EffortMedium | EffortHigh
| EffortXHigh | EffortMax | EffortUltra
| EffortCustom (value : str).

Record ReasoningConfig := mkReasoning {
  effort : option ReasoningEffort;
  reasoning_summary : option Json;
  reasoning_context : option Json
}.

Record ResponsesApiRequest := mkResponsesRequest {
  model : str;
  instructions : str;
  input : list ResponseItem;
  tools : option (list Json);
  tool_choice : str;
  parallel_tool_calls : bool;
  reasoning : option ReasoningConfig;
  store : bool;
  stream : bool;
  stream_options : option Json;
  include : list str;
  service_tier : option str;
  prompt_cache_key : option str;
  text_controls : option Json;
  client_metadata : option (gmap str str)
}.

(** [i64] counters. *)
Record TokenUsage := mkTokenUsage {
  input_tokens : Z;
  cached_input_tokens : Z;
  cache_write_input_tokens : Z;
  output_tokens : Z;
  reasoning_output_tokens : Z;
  total_tokens : Z
}.
