(* ===== verification/Truncate.v ===== *)
(** * Truncating tool output

    [codex-rs/utils/string/src/truncate.rs] and [utils/output-truncation/src/lib.rs]: text
    that goes to the model is cut in the middle to a budget of bytes or of approximate
    tokens, keeping a beginning and an end on character boundaries around a marker that
    says how much is missing.  [TruncationPolicy] is from [protocol/src/protocol.rs].
    Positions are byte offsets, as in the code; slicing a string at an offset that is not
    a character boundary panics, which is [None] here. *)

From S2P Require Import Prelude RustStr MachineInt ResponseModel.
From Stdlib Require Import SpecFloat.
Open Scope N_scope.

Definition char_bytes (c : char) : N := N.of_nat (len_utf8 c).

(** [str::len] *)
Definition blen (s : str) : N := N.of_nat (byte_len s).

(** [&s[..n]] and [&s[n..]] *)
Fixpoint str_to (n : N) (s : str) : option str :=
  if n =? 0 then Some []
  else
    match s with
    | [] => None
    | c :: s => if char_bytes c <=? n then cons c <$> str_to (n - char_bytes c) s else None
    end.

Fixpoint str_from (n : N) (s : str) : option str :=
  if n =? 0 then Some s
  else
    match s with
    | [] => None
    | c :: s => if char_bytes c <=? n then str_from (n - char_bytes c) s else None
    end.

(** ** [truncate.rs] *)

Definition APPROX_BYTES_PER_TOKEN : N := 4.

Definition approx_token_count (text : str) : N :=
  sat_add (blen text) (sat_sub APPROX_BYTES_PER_TOKEN 1) / APPROX_BYTES_PER_TOKEN.

Definition approx_bytes_for_tokens (tokens : N) : N := sat_mul tokens APPROX_BYTES_PER_TOKEN.

Definition approx_tokens_from_byte_count (bytes : N) : N :=
  sat_add bytes (sat_sub APPROX_BYTES_PER_TOKEN 1) / APPROX_BYTES_PER_TOKEN.

(** The variables of the loop of [split_string]. *)
Record SplitState := mkSplit {
  prefix_end : N;
  suffix_start : N;
  removed_chars : N;
  suffix_started : bool
}.

(** [for (idx, ch) in s.char_indices()] *)
Fixpoint split_loop (beginning_bytes tail_start_target idx : N) (st : SplitState) (s : str) : SplitState :=
  match s with
  | [] => st
  | ch :: s =>
      let char_end := idx + char_bytes ch in
      let st :=
        if char_end <=? beginning_bytes
        then mkSplit char_end (suffix_start st) (removed_chars st) (suffix_started st)
        else if tail_start_target <=? idx
        then if suffix_started st then st else mkSplit (prefix_end st) idx (removed_chars st) true
        else mkSplit (prefix_end st) (suffix_start st) (sat_add (removed_chars st) 1) (suffix_started st) in
      split_loop beginning_bytes tail_start_target char_end st s
  end.

Definition split_string (s : str) (beginning_bytes end_bytes : N) : option (N * str * str) :=
  match s with
  | [] => Some (0, [], [])
  | _ =>
      let len := blen s in
      let tail_start_target := sat_sub len end_bytes in
      let st := split_loop beginning_bytes tail_start_target 0 (mkSplit 0 len 0 false) s in
      let suffix_start :=
        if suffix_start st <? prefix_end st then prefix_end st else suffix_start st in
      before ← str_to (prefix_end st) s;
      after ← str_from suffix_start s;
      Some (removed_chars st, before, after)
  end.

Definition split_budget (budget : N) : N * N :=
  let left_budget := budget / 2 in
  (left_budget, budget - left_budget).

Definition ellipsis : char := 8230.

Definition format_truncation_marker (use_tokens : bool) (removed_count : N) : str :=
  [ellipsis] ++ show_N removed_count ++
  (if use_tokens then lit " tokens truncated" else lit " chars truncated") ++ [ellipsis].

Definition removed_units (use_tokens : bool) (removed_bytes removed : N) : N :=
  if use_tokens then approx_tokens_from_byte_count removed_bytes else removed.

Definition assemble_truncated_output (prefix suffix marker : str) : str := prefix ++ marker ++ suffix.

Definition truncate_with_byte_estimate (s : str) (max_bytes : N) (use_tokens : bool) : option str :=
  match s with
  | [] => Some []
  | _ =>
      let total_chars := vec_len s in
      if max_bytes =? 0
      then Some (format_truncation_marker use_tokens (removed_units use_tokens (blen s) total_chars))
      else if blen s <=? max_bytes then Some s
      else
        let total_bytes := blen s in
        let '(left_budget, right_budget) := split_budget max_bytes in
        '(removed, before, after) ← split_string s left_budget right_budget;
        let marker := format_truncation_marker use_tokens
                        (removed_units use_tokens (sat_sub total_bytes max_bytes) removed) in
        Some (assemble_truncated_output before after marker)
  end.

Definition truncate_middle_chars (s : str) (max_bytes : N) : option str :=
  truncate_with_byte_estimate s max_bytes false.

Definition truncate_middle_with_token_budget (s : str) (max_tokens : N) : option (str * option N) :=
  match s with
  | [] => Some ([], None)
  | _ =>
      if (0 <? max_tokens) && (blen s <=? approx_bytes_for_tokens max_tokens) then Some (s, None)
      else
        truncated ← truncate_with_byte_estimate s (approx_bytes_for_tokens max_tokens) true;
        let total_tokens := approx_token_count s in
        Some (truncated, if seqb truncated s then None else Some total_tokens)
  end.

(** ** Policies *)

Inductive TruncationPolicy := Bytes (bytes : N) | Tokens (tokens : N).

Definition token_budget (p : TruncationPolicy) : N :=
  match p with
  | Bytes bytes => approx_tokens_from_byte_count bytes
  | Tokens tokens => tokens
  end.

Definition byte_budget (p : TruncationPolicy) : N :=
  match p with
  | Bytes bytes => bytes
  | Tokens tokens => approx_bytes_for_tokens tokens
  end.

(** [(n as f64 * multiplier).ceil() as usize] in IEEE binary64, the cast saturating. *)
Definition f64_of_usize (n : N) : spec_float := binary_normalize 53 1024 (Z.of_N n) 0 false.

Definition ceil_to_usize (x : spec_float) : N :=
  match x with
  | S754_finite false m e =>
      N.min USIZE_MAX
        (if (0 <=? e)%Z then N.shiftl (Npos m) (Z.to_N e)
         else let d := N.shiftl 1 (Z.to_N (- e)) in (Npos m + d - 1) / d)
  | S754_infinity false => USIZE_MAX
  | _ => 0
  end.

Definition scale (multiplier : spec_float) (n : N) : N :=
  ceil_to_usize (SFmul 53 1024 (f64_of_usize n) multiplier).

Definition policy_mul (multiplier : spec_float) (p : TruncationPolicy) : TruncationPolicy :=
  match p with
  | Bytes bytes => Bytes (scale multiplier bytes)
  | Tokens tokens => Tokens (scale multiplier tokens)
  end.

(** ** [output-truncation/src/lib.rs] *)

Definition truncate_text (content : str) (policy : TruncationPolicy) : option str :=
  match policy with
  | Bytes bytes => truncate_middle_chars content bytes
  | Tokens tokens => fst <$> truncate_middle_with_token_budget content tokens
  end.

Definition formatted_truncate_text (content : str) (policy : TruncationPolicy) : option str :=
  if blen content <=? byte_budget policy then Some content
  else
    let original_token_count := approx_token_count content in
    let total_lines := vec_len (lines content) in
    result ← truncate_text content policy;
    Some (lit "Warning: truncated output (original token count: " ++ show_N original_token_count ++ lit ")" ++
          [nl] ++ lit "Total output lines: " ++ show_N total_lines ++ [nl; nl] ++ result).

Definition item_text (item : FunctionCallOutputContentItem) : option str :=
  match item with OutInputText text => Some text | _ => None end.

(** The loop that builds [combined]. *)
Definition combine_texts (texts : list str) : str :=
  foldl (fun combined text => (if seqb combined [] then combined else combined ++ [nl]) ++ text) [] texts.

Definition formatted_truncate_text_content_items_with_policy
    (items : list FunctionCallOutputContentItem) (policy : TruncationPolicy) :
    option (list FunctionCallOutputContentItem * option N) :=
  match omap item_text items with
  | [] => Some (items, None)
  | text_segments =>
      let combined := combine_texts text_segments in
      if blen combined <=? byte_budget policy then Some (items, None)
      else
        let original_token_count := approx_token_count combined in
        text ← formatted_truncate_text combined policy;
        Some (OutInputText text ::
                omap (fun item => match item with OutInputText _ => None | other => Some other end) items,
              Some original_token_count)
  end.

(** The variables of the loop of [truncate_function_output_items_with_policy]. *)
Record ItemsState := mkItems {
  out : list FunctionCallOutputContentItem;
  remaining_budget : N;
  omitted_text_items : N;
  omitted_audio_items : N
}.

Section items.
Context (estimate_audio_token_count : str → N).
Context (policy : TruncationPolicy).

Definition text_cost (text : str) : N :=
  match policy with
  | Bytes _ => blen text
  | Tokens _ => approx_token_count text
  end.

Definition audio_cost (audio_url : str) : N :=
  let token_cost := estimate_audio_token_count audio_url in
  match policy with
  | Bytes _ => approx_bytes_for_tokens token_cost
  | Tokens _ => token_cost
  end.

Definition snippet_policy (remaining : N) : TruncationPolicy :=
  match policy with
  | Bytes _ => Bytes remaining
  | Tokens _ => Tokens remaining
  end.

Definition push_item (item : FunctionCallOutputContentItem) (st : ItemsState) : ItemsState :=
  mkItems (out st ++ [item]) (remaining_budget st) (omitted_text_items st) (omitted_audio_items st).
Definition spend (remaining : N) (st : ItemsState) : ItemsState :=
  mkItems (out st) remaining (omitted_text_items st) (omitted_audio_items st).
Definition omit_text (st : ItemsState) : ItemsState :=
  mkItems (out st) (remaining_budget st) (omitted_text_items st + 1) (omitted_audio_items st).
Definition omit_audio (st : ItemsState) : ItemsState :=
  mkItems (out st) (remaining_budget st) (omitted_text_items st) (omitted_audio_items st + 1).

Definition truncate_item (st : ItemsState) (item : FunctionCallOutputContentItem) : option ItemsState :=
  match item with
  | OutInputText text =>
      if remaining_budget st =? 0 then Some (omit_text st)
      else
        let cost := text_cost text in
        if cost <=? remaining_budget st
        then Some (spend (sat_sub (remaining_budget st) cost) (push_item item st))
        else
          snippet ← truncate_text text (snippet_policy (remaining_budget st));
          Some (spend 0 (if seqb snippet [] then omit_text st else push_item (OutInputText snippet) st))
  | OutInputImage _ _ => Some (push_item item st)
  | OutInputAudio audio_url =>
      let cost := audio_cost audio_url in
      if cost <=? remaining_budget st
      then Some (spend (sat_sub (remaining_budget st) cost) (push_item item st))
      else Some (omit_audio st)
  | OutEncryptedContent _ => Some (push_item item st)
  end.

Fixpoint truncate_items (st : ItemsState) (items : list FunctionCallOutputContentItem) : option ItemsState :=
  match items with
  | [] => Some st
  | item :: items => st ← truncate_item st item; truncate_items st items
  end.

Definition omitted_marker (n : N) (kind : str) : list FunctionCallOutputContentItem :=
  if 0 <? n then [OutInputText (lit "[omitted " ++ show_N n ++ lit " " ++ kind ++ lit " items ...]")] else [].

Definition truncate_function_output_items_with_policy (items : list FunctionCallOutputContentItem) :
    option (list FunctionCallOutputContentItem) :=
  let budget := match policy with
                | Bytes _ => byte_budget policy
                | Tokens _ => token_budget policy
                end in
  st ← truncate_items (mkItems [] budget 0 0) items;
  Some (out st ++ omitted_marker (omitted_text_items st) (lit "text") ++
        omitted_marker (omitted_audio_items st) (lit "audio")).
End items.

Definition approx_tokens_from_byte_count_i64 (bytes : Z) : Z :=
  if (bytes <=? 0)%Z then 0%Z
  else i64_of_usize (approx_tokens_from_byte_count (N.min USIZE_MAX (Z.to_N bytes))).
