(* ===== verification/TruncateFacts.v ===== *)
(** * Facts about truncation

    Slicing never panics, the cut keeps a maximal beginning and end, the marker counts
    what is missing, and whatever the input, the result exceeds its budget by at most a
    constant. *)

From S2P Require Import Prelude RustStr MachineInt ResponseModel Truncate.
Open Scope N_scope.

(** ** Byte lengths *)

Lemma char_bytes_range c : 1 <= char_bytes c ∧ char_bytes c <= 4.
Proof. unfold char_bytes, len_utf8. repeat case_match; lia. Qed.

Lemma blen_cons c s : blen (c :: s) = char_bytes c + blen s.
Proof. unfold blen, byte_len, char_bytes. simpl. lia. Qed.

Lemma blen_app s t : blen (s ++ t) = blen s + blen t.
Proof.
  induction s as [|c s IH]; [done|]. rewrite <- app_comm_cons, !blen_cons, IH. lia.
Qed.

Lemma blen_0 s : blen s = 0 ↔ s = [].
Proof.
  destruct s as [|c s]; [done|]. rewrite blen_cons. pose proof (char_bytes_range c).
  split; [lia|done].
Qed.

#[export] Hint Rewrite blen_cons blen_app : codex.

Lemma str_to_app s t : str_to (blen s) (s ++ t) = Some s.
Proof.
  induction s as [|c s IH]; [by destruct t|]. rewrite <- app_comm_cons, blen_cons.
  pose proof (char_bytes_range c). cbn [str_to].
  rewrite (proj2 (N.eqb_neq _ _)), (proj2 (N.leb_le _ _)) by lia.
  replace (char_bytes c + blen s - char_bytes c) with (blen s) by lia. by rewrite IH.
Qed.

Lemma str_from_app s t : str_from (blen s) (s ++ t) = Some t.
Proof.
  induction s as [|c s IH]; [by destruct t|]. rewrite <- app_comm_cons, blen_cons.
  pose proof (char_bytes_range c). cbn [str_from].
  rewrite (proj2 (N.eqb_neq _ _)), (proj2 (N.leb_le _ _)) by lia.
  by replace (char_bytes c + blen s - char_bytes c) with (blen s) by lia.
Qed.

(** ** The loop of [split_string] *)

(** What a cut of [s] is: a beginning, a removed middle and an end, the outer two as
    long as their budgets allow. *)
Definition is_cut (beginning_bytes end_bytes : N) (s before middle after : str) : Prop :=
  s = before ++ middle ++ after ∧ blen before <= beginning_bytes ∧ blen after <= end_bytes ∧
  (∀ c, hd_error middle = Some c → beginning_bytes < blen (before ++ [c])) ∧
  (∀ d, last middle = Some d → end_bytes < blen (d :: after)).

(** Once the suffix has started nothing changes any more. *)
Lemma split_loop_suffix b t idx st s :
  b < idx → t <= idx → suffix_started st = true → split_loop b t idx st s = st.
Proof.
  revert idx st. induction s as [|c s IH]; intros idx st Hb Ht Hst; [done|].
  pose proof (char_bytes_range c). cbn [split_loop].
  rewrite (proj2 (N.leb_gt _ _)), (proj2 (N.leb_le _ _)), Hst by lia. apply IH; [lia|lia|done].
Qed.

(** Past the prefix: characters are removed up to the first that starts in the tail. *)
Lemma split_loop_middle b t idx p f r s :
  b < idx → r + vec_len s <= USIZE_MAX →
  ∃ m z, s = m ++ z ∧
    split_loop b t idx (mkSplit p f r false) s =
      mkSplit p (if bool_decide (z = []) then f else idx + blen m) (r + vec_len m)
        (negb (bool_decide (z = []))) ∧
    (z ≠ [] → t <= idx + blen m) ∧ (∀ d, last m = Some d → idx + blen m - char_bytes d < t).
Proof.
  revert idx r. induction s as [|c s IH]; intros idx r Hb Hr.
  - exists [], []. cbn. rewrite N.add_0_r. done.
  - pose proof (char_bytes_range c) as Hc. cbn [split_loop].
    assert (Hsz : vec_len (c :: s) = 1 + vec_len s) by (unfold vec_len; simpl; lia).
    rewrite (proj2 (N.leb_gt _ _)) by lia.
    destruct (N.leb_spec t idx) as [Ht|Ht].
    + cbn [suffix_started prefix_end removed_chars]. rewrite split_loop_suffix by (done || lia).
      exists [], (c :: s). cbn. rewrite !N.add_0_r. done.
    + cbn [suffix_started prefix_end removed_chars suffix_start]. rewrite sat_add_exact by lia.
      destruct (IH (idx + char_bytes c) (r + 1)) as (m & z & -> & E & Hz & Hm); [lia|lia|].
      exists (c :: m), z. rewrite E. split; [done|]. split.
      { f_equal; [case_bool_decide; [done|]; rewrite blen_cons; lia|]. unfold vec_len. simpl. lia. }
      rewrite blen_cons. split; [intros Hne; specialize (Hz Hne); lia|].
      intros d Hd. destruct m as [|m0 m] using rev_ind.
      * cbn in Hd. injection Hd as <-. change (blen []) with 0. lia.
      * rewrite app_comm_cons, last_snoc in Hd. rewrite last_snoc in Hm. injection Hd as <-.
        specialize (Hm _ eq_refl). lia.
Qed.

(** From the start: the prefix, and then the rest. *)
Lemma split_loop_spec b t idx p f s :
  p = idx → vec_len s <= USIZE_MAX →
  ∃ a m z, s = a ++ m ++ z ∧
    split_loop b t idx (mkSplit p f 0 false) s =
      mkSplit (idx + blen a) (if bool_decide (z = []) then f else idx + blen a + blen m) (vec_len m)
        (negb (bool_decide (z = []))) ∧
    (a ≠ [] → idx + blen a <= b) ∧ (∀ c, hd_error (m ++ z) = Some c → b < idx + blen a + char_bytes c) ∧
    (z ≠ [] → t <= idx + blen a + blen m) ∧
    (∀ d, last m = Some d → idx + blen a + blen m - char_bytes d < t).
Proof.
  revert idx p. induction s as [|c s IH]; intros idx p -> Hs.
  { exists [], [], []. cbn. rewrite N.add_0_r. done. }
  assert (Hsz : vec_len (c :: s) = 1 + vec_len s) by (unfold vec_len; simpl; lia).
  pose proof (char_bytes_range c) as Hc. cbn [split_loop].
  destruct (N.leb_spec (idx + char_bytes c) b) as [Hb|Hb].
  - cbn [suffix_started removed_chars suffix_start].
    destruct (IH (idx + char_bytes c) _ eq_refl) as (a & m & z & -> & E & Ha & Hh & Hz & Hm); [lia|].
    exists (c :: a), m, z. rewrite E, blen_cons, !N.add_assoc. split; [done|]. split; [done|].
    split; [|done]. intros _. destruct a; [change (blen []) with 0; lia|]. by apply Ha.
  - destruct (N.leb_spec t idx) as [Ht|Ht]; cbn [suffix_started prefix_end removed_chars suffix_start].
    + rewrite split_loop_suffix by (done || lia). exists [], [], (c :: s). cbn. rewrite !N.add_0_r.
      split_and!; try done. by intros d [= <-].
    + rewrite sat_add_exact by lia.
      destruct (split_loop_middle b t (idx + char_bytes c) idx f (0 + 1) s) as (m & z & -> & E & Hz & Hm); [lia|lia|].
      exists [], (c :: m), z. rewrite E. cbn [app]. change (blen []) with 0. rewrite !N.add_0_r, blen_cons.
      split; [done|]. split.
      { f_equal; [case_bool_decide; [done|lia]|]. unfold vec_len. simpl. lia. }
      split; [done|]. split; [by intros d [= <-]|]. split; [intros Hne; specialize (Hz Hne); lia|].
      intros d Hd. destruct m as [|m0 m] using rev_ind.
      * cbn in Hd. injection Hd as <-. change (blen []) with 0. lia.
      * rewrite app_comm_cons, last_snoc in Hd. rewrite last_snoc in Hm. injection Hd as <-.
        specialize (Hm _ eq_refl). lia.
Qed.

Lemma split_string_cut s b e :
  vec_len s <= USIZE_MAX →
  ∃ before middle after,
    split_string s b e = Some (vec_len middle, before, after) ∧ is_cut b e s before middle after.
Proof.
  intros Hs. destruct s as [|c0 s0] eqn:Es; [exists [], [], []; split; [done|]; split_and!; try done; apply N.le_0_l|].
  rewrite <- Es in *. assert (Hne : s ≠ []) by by subst. clear Es.
  unfold split_string. replace (match s with [] => _ | _ => _ end) with
    (let len := blen s in let tail_start_target := sat_sub len e in
      let st := split_loop b tail_start_target 0 (mkSplit 0 len 0 false) s in
      let suffix_start := if suffix_start st <? prefix_end st then prefix_end st else suffix_start st in
      before ← str_to (prefix_end st) s; after ← str_from suffix_start s;
      Some (removed_chars st, before, after)) by (by destruct s).
  cbv zeta. destruct (split_loop_spec b (sat_sub (blen s) e) 0 0 (blen s) s eq_refl Hs)
    as (a & m & z & E & -> & Ha & Hh & Hz & Hm). cbn [prefix_end suffix_start removed_chars].
  rewrite !N.add_0_l in *. exists a, m, z.
  assert (Hlen : blen s = blen a + blen m + blen z) by (rewrite E; autorewrite with codex; lia).
  assert (Hss : (if (if bool_decide (z = []) then blen s else blen a + blen m) <? blen a then blen a
                 else if bool_decide (z = []) then blen s else blen a + blen m) = blen (a ++ m)).
  { autorewrite with codex. case_bool_decide as Hz0.
    - subst z. change (blen []) with 0 in Hlen. destruct (N.ltb_spec (blen s) (blen a)); lia.
    - destruct (N.ltb_spec (blen a + blen m) (blen a)); lia. }
  rewrite Hss, E, str_to_app, app_assoc, str_from_app. split; [done|]. rewrite <- app_assoc.
  split; [done|]. unfold sat_sub in *. split_and!.
  - destruct (decide (a = [])) as [->|Hne']; [change (blen []) with 0; lia|]. by apply Ha.
  - destruct (decide (z = [])) as [->|Hne']; [change (blen []) with 0; lia|]. specialize (Hz Hne'). lia.
  - intros c Hc. autorewrite with codex. change (blen []) with 0. rewrite N.add_0_r, N.add_comm.
    rewrite N.add_comm. apply Hh. destruct m; [done|]. exact Hc.
  - intros d Hd. specialize (Hm d Hd). autorewrite with codex.
    destruct m as [|m0 m] using rev_ind; [done|]. rewrite last_snoc in Hd. injection Hd as ->.
    autorewrite with codex in *. change (blen []) with 0 in *. lia.
Qed.

(** ** Markers have bounded length *)

Lemma dec_digits_bound fuel n k :
  n < 10 ^ N.of_nat (S k) → blen (dec_digits fuel n) <= N.of_nat (S k).
Proof.
  revert n k. induction fuel as [|fuel IH]; intros n k Hn; cbn [dec_digits]; [apply N.le_0_l|].
  assert (Hd : ∀ d, d < 10 → blen [48 + d] = 1).
  { intros d Hd. rewrite blen_cons. change (blen []) with 0. unfold char_bytes, len_utf8.
    by rewrite (proj2 (N.ltb_lt _ _)) by lia. }
  destruct (N.ltb_spec n 10) as [L|L]; [rewrite Hd by done; lia|].
  destruct k as [|k]; [change (10 ^ N.of_nat 1) with 10 in Hn; lia|].
  rewrite blen_app, Hd by (apply N.mod_lt; lia).
  assert (Hdiv : n / 10 < 10 ^ N.of_nat (S k)).
  { apply N.Div0.div_lt_upper_bound. rewrite <- N.pow_succ_r'. by replace (N.succ (N.of_nat (S k))) with (N.of_nat (S (S k))) by lia. }
  specialize (IH _ _ Hdiv). lia.
Qed.

Lemma show_N_bound n : n <= USIZE_MAX → blen (show_N n) <= 20.
Proof.
  intros H. unfold show_N. apply (dec_digits_bound _ _ 19). unfold USIZE_MAX in H.
  change (10 ^ N.of_nat 20) with 100000000000000000000. lia.
Qed.

(** The most a marker adds. *)
Definition marker_max : N := 43.

Lemma marker_bound use_tokens n :
  n <= USIZE_MAX → blen (format_truncation_marker use_tokens n) <= marker_max.
Proof.
  intros H%show_N_bound. unfold format_truncation_marker, marker_max. rewrite !blen_app.
  change (blen [ellipsis]) with 3.
  destruct use_tokens; [change (blen (lit " tokens truncated")) with 17|change (blen (lit " chars truncated")) with 16]; lia.
Qed.

(** ** Truncating a text *)

(** A Rust allocation has at most [isize::MAX] bytes. *)
Definition fits (s : str) : Prop := blen s <= 2 ^ 63 - 1.

Lemma vec_len_blen s : vec_len s <= blen s.
Proof.
  induction s as [|c s IH]; [done|]. rewrite blen_cons. pose proof (char_bytes_range c).
  unfold vec_len in *. simpl. lia.
Qed.

Lemma fits_vec_len s : fits s → vec_len s <= USIZE_MAX.
Proof. pose proof (vec_len_blen s). unfold fits, USIZE_MAX. lia. Qed.

(** What the marker says: the characters left out, or the bytes over the budget in tokens of four
    bytes, rounded up. *)
Definition missing (use_tokens : bool) (s : str) (max_bytes : N) (middle : str) : N :=
  if use_tokens then (blen s - max_bytes + 3) / 4 else vec_len middle.

Definition marker_text (use_tokens : bool) (n : N) : str :=
  8230 :: show_N n ++ lit (if use_tokens then " tokens truncated" else " chars truncated") ++ [8230].

Lemma removed_missing use_tokens s max m n : fits s → n = blen s - max →
  format_truncation_marker use_tokens (removed_units use_tokens n (vec_len m)) = marker_text use_tokens (missing use_tokens s max m).
Proof.
  intros Hf ->. unfold format_truncation_marker, marker_text, missing, removed_units, ellipsis. destruct use_tokens; [|done].
  unfold approx_tokens_from_byte_count, sat_add. change (sat_sub APPROX_BYTES_PER_TOKEN 1) with 3. unfold APPROX_BYTES_PER_TOKEN.
  rewrite N.min_r; [done|]. unfold fits, USIZE_MAX in *. lia.
Qed.

Lemma missing_bound use_tokens s max m : fits s → vec_len m <= vec_len s → missing use_tokens s max m <= USIZE_MAX.
Proof.
  intros Hf Hm. pose proof (fits_vec_len s Hf). destruct use_tokens; cbn [missing]; [|lia].
  apply N.Div0.div_le_upper_bound. unfold fits, USIZE_MAX in *. lia.
Qed.

(** A text over its budget is cut. *)
Lemma truncate_cut s max use_tokens :
  s ≠ [] → fits s → max = 0 ∨ max < blen s →
  ∃ before middle after,
    truncate_with_byte_estimate s max use_tokens =
      Some (before ++ marker_text use_tokens (missing use_tokens s max middle) ++ after) ∧
    is_cut (max / 2) (max - max / 2) s before middle after.
Proof.
  intros Hne Hs Hm. unfold truncate_with_byte_estimate.
  destruct s as [|c0 s0] eqn:Es; [done|]. rewrite <- Es in *. clear Hne.
  destruct (N.eqb_spec max 0) as [->|H0].
  - exists [], s, []. cbn [app]. rewrite app_nil_r. split; [by rewrite (removed_missing use_tokens s 0 s (blen s) Hs) by lia|].
    unfold is_cut. rewrite app_nil_r. split_and!; try done.
    + intros c _. autorewrite with codex. change (0 / 2) with 0. pose proof (char_bytes_range c). lia.
    + intros d _. autorewrite with codex. change (0 / 2) with 0. pose proof (char_bytes_range d). lia.
  - destruct Hm as [->|Hm]; [done|]. rewrite (proj2 (N.leb_gt _ _)) by done. cbn [split_budget].
    destruct (split_string_cut s (max / 2) (max - max / 2) (fits_vec_len s Hs)) as (a & m & z & E & Hcut).
    exists a, m, z. unfold split_budget. rewrite E. cbn [mbind option_bind]. split; [|done].
    by rewrite (removed_missing _ s max).
Qed.

Lemma is_cut_blen b e s a m z : is_cut b e s a m z → blen a + blen z <= b + e.
Proof. intros (_ & ? & ? & _). lia. Qed.

Lemma half_split max : max / 2 + (max - max / 2) = max.
Proof. pose proof (N.Div0.div_le_upper_bound max 2 max). lia. Qed.

(** What truncating [s] to [max] bytes gives: the text itself if it is within the budget, and a cut
    only if it is over it. *)
Definition truncation_of (s : str) (max : N) (use_tokens : bool) (r : str) : Prop :=
  (s = [] ∨ 0 < max ∧ blen s <= max) ∧ r = s ∨
  (s ≠ [] ∧ (max = 0 ∨ max < blen s)) ∧
  ∃ before middle after,
    r = before ++ marker_text use_tokens (missing use_tokens s max middle) ++ after ∧
    is_cut (max / 2) (max - max / 2) s before middle after.

Lemma truncate_total s max use_tokens :
  fits s → ∃ r, truncate_with_byte_estimate s max use_tokens = Some r ∧ truncation_of s max use_tokens r.
Proof.
  intros Hs. destruct (decide (s = [])) as [->|Hne]; [exists []; split; [done|left; auto]|].
  destruct (decide (max = 0 ∨ max < blen s)) as [Hm|Hm].
  - destruct (truncate_cut s max use_tokens Hne Hs Hm) as (a & m & z & E & Hcut).
    eexists. split; [exact E|]. right. split; [done|]. eauto.
  - exists s. assert (0 < max ∧ blen s <= max) as [H1 H2] by lia. split; [|left; auto].
    unfold truncate_with_byte_estimate. destruct s; [done|].
    by rewrite (proj2 (N.eqb_neq _ _)), (proj2 (N.leb_le _ _)) by lia.
Qed.

Lemma truncation_bound s max use_tokens r :
  fits s → truncation_of s max use_tokens r → blen r <= max + marker_max.
Proof.
  intros Hs [[[->|[_ ?]] ->]|[_ (a & m & z & -> & Hcut)]]; [apply N.le_0_l|lia|].
  pose proof (is_cut_blen _ _ _ _ _ _ Hcut) as Hl. rewrite half_split in Hl.
  assert (Hmid : vec_len m <= vec_len s).
  { destruct Hcut as (-> & _). rewrite !vec_len_app. lia. }
  pose proof (marker_bound use_tokens _ (missing_bound use_tokens s max m Hs Hmid)) as Hb.
  replace (marker_text use_tokens (missing use_tokens s max m))
    with (format_truncation_marker use_tokens (missing use_tokens s max m)) by (by destruct use_tokens).
  rewrite !blen_app. lia.
Qed.

(** C36: cutting a text that fits in memory never panics on a character boundary and never exceeds
    its budget by more than the marker.  A text within the budget is returned as it is.  Of a
    longer one, or with no budget at all, a beginning and an end are kept, each as many whole
    characters as half of the budget allows, around a marker that says how many characters
    were left out, or how many tokens of four bytes the text is over the budget; and the
    result is at most 43 bytes longer than the budget. *)
Theorem truncate_middle_spec s max use_tokens :
  fits s →
  ∃ r, truncate_with_byte_estimate s max use_tokens = Some r ∧ blen r <= max + 43 ∧
    (0 < max → blen s <= max → r = s) ∧
    (s ≠ [] → max = 0 ∨ max < blen s → ∃ before middle after,
       is_cut (max / 2) (max - max / 2) s before middle after ∧
       let n := if use_tokens then (blen s - max + 3) / 4 else N.of_nat (length middle) in
       let unit_name := if use_tokens then lit " tokens truncated" else lit " chars truncated" in
       r = before ++ [8230] ++ show_N n ++ unit_name ++ [8230] ++ after).
Proof.
  intros Hs. destruct (truncate_total s max use_tokens Hs) as (r & E & Hr).
  exists r. split; [done|]. split; [by eapply truncation_bound|]. split.
  - intros H0 Hm. destruct Hr as [[_ ?]|[[_ ?] _]]; [done|lia].
  - intros Hne Hm. destruct Hr as [[[?|?] _]|[_ (a & m & z & -> & Hcut)]]; [done|lia|].
    exists a, m, z. split; [done|]. unfold marker_text, missing, vec_len. cbn [app]. rewrite <- !app_assoc. by destruct use_tokens.
Qed.

Lemma truncate_middle_spec_witness :
  ∃ r, truncate_with_byte_estimate (lit "example output") 1 false = Some r ∧ blen r <= 1 + 43 ∧
    r = [ellipsis] ++ lit "13 chars truncated" ++ [ellipsis] ++ lit "t".
Proof.
  destruct (truncate_middle_spec (lit "example output") 1 false ltac:(vm_compute; discriminate))
    as (r & E & Hr & _).
  exists r. split; [exact E|]. split; [exact Hr|]. vm_compute in E. injection E as <-. vm_compute. reflexivity.
Defined.

(** ** Truncating the items of a tool's output *)

Definition item_fits (item : FunctionCallOutputContentItem) : Prop :=
  match item_text item with Some text => fits text | None => True end.

Definition unit_bytes (p : TruncationPolicy) : N := match p with Bytes _ => 1 | Tokens _ => 4 end.
Definition units (p : TruncationPolicy) : N := match p with Bytes n | Tokens n => n end.

Lemma approx_bytes_le t : approx_bytes_for_tokens t <= 4 * t.
Proof. unfold approx_bytes_for_tokens, sat_mul, APPROX_BYTES_PER_TOKEN. lia. Qed.

Lemma truncate_text_bound text p :
  fits text → ∃ r, truncate_text text p = Some r ∧ blen r <= unit_bytes p * units p + marker_max.
Proof.
  intros Hf. destruct p as [n|n]; cbn [truncate_text unit_bytes units].
  - destruct (truncate_total text n false Hf) as (r & E & Hr%truncation_bound); [|done].
    exists r. split; [exact E|lia].
  - unfold truncate_middle_with_token_budget. pose proof (approx_bytes_le n).
    destruct text as [|c text]; [exists []; split; [done|apply N.le_0_l]|].
    destruct (_ && _) eqn:E.
    + apply andb_true_iff in E as [_ E%N.leb_le]. exists (c :: text). split; [done|]. lia.
    + destruct (truncate_total (c :: text) (approx_bytes_for_tokens n) true Hf) as (r & -> & Hr%truncation_bound); [|done].
      exists r. split; [done|]. lia.
Qed.

(** The text a list of items carries to the model, in bytes. *)
Definition text_bytes (items : list FunctionCallOutputContentItem) : N :=
  foldr (fun item n => match item_text item with Some t => blen t + n | None => n end) 0 items.

Lemma text_bytes_app a b : text_bytes (a ++ b) = text_bytes a + text_bytes b.
Proof.
  unfold text_bytes. induction a as [|i a IH]; cbn [app foldr]; [done|].
  rewrite IH. destruct (item_text i); lia.
Qed.

(** What is neither text nor audio is never left out. *)
Definition is_media (item : FunctionCallOutputContentItem) : bool :=
  match item with OutInputImage _ _ | OutEncryptedContent _ => true | _ => false end.

Section budget.
Context (estimate : str → N) (policy : TruncationPolicy).

Lemma text_cost_covers text : fits text → blen text <= unit_bytes policy * text_cost policy text.
Proof.
  unfold fits. intros Hf. destruct policy; cbn [unit_bytes text_cost]; [lia|].
  unfold approx_token_count, sat_add, USIZE_MAX. change (sat_sub APPROX_BYTES_PER_TOKEN 1) with 3.
  unfold APPROX_BYTES_PER_TOKEN. rewrite N.min_r by lia.
  pose proof (N.Div0.div_mod (blen text + 3) 4). pose proof (N.mod_lt (blen text + 3) 4). lia.
Qed.

(** Text sent so far and text still allowed. *)
Definition weight (st : ItemsState) : N := text_bytes (out st) + unit_bytes policy * remaining_budget st.

Definition within (bound : N) (st : ItemsState) : Prop :=
  weight st <= bound ∨ remaining_budget st = 0 ∧ weight st <= bound + marker_max.

Lemma weight_push item st :
  weight (push_item item st) = weight st + default 0 (blen <$> item_text item).
Proof.
  unfold weight, push_item. cbn [out remaining_budget]. rewrite text_bytes_app. cbn.
  destruct (item_text item); cbn; lia.
Qed.

Lemma snippet_units r : unit_bytes (snippet_policy policy r) = unit_bytes policy ∧ units (snippet_policy policy r) = r.
Proof. by destruct policy. Qed.

Lemma truncate_item_within bound st item :
  item_fits item → within bound st →
  ∃ st', truncate_item estimate policy st item = Some st' ∧ within bound st' ∧
    filter is_media (out st') = filter is_media (out st ++ [item]) ∧
    omitted_text_items st' <= omitted_text_items st + 1 ∧ omitted_audio_items st' <= omitted_audio_items st + 1.
Proof.
  intros Hf Hw. unfold item_fits in Hf. destruct item as [text|u d|u|e]; cbn [truncate_item item_text] in *.
  - destruct (N.eqb_spec (remaining_budget st) 0) as [E|E].
    { eexists. split; [done|]. cbn. rewrite filter_app. cbn. rewrite app_nil_r. split; [exact Hw|]. split; [done|lia]. }
    pose proof (text_cost_covers text Hf) as Hc. destruct Hw as [Hw|[? _]]; [|done].
    destruct (N.leb_spec (text_cost policy text) (remaining_budget st)) as [L|L].
    + eexists. split; [done|]. split; [|cbn; split; [done|lia]]. left.
      unfold weight, spend, push_item, sat_sub in *. cbn [out remaining_budget] in *. rewrite text_bytes_app. cbn.
      rewrite N.mul_sub_distr_l. nia.
    + destruct (truncate_text_bound text (snippet_policy policy (remaining_budget st)) Hf) as (r & -> & Hr).
      destruct (snippet_units (remaining_budget st)) as [H1 H2]. rewrite H1, H2 in Hr.
      eexists. split; [done|]. split.
      * right. split; [done|]. unfold weight in *. destruct (seqb r []);
          cbn [spend omit_text push_item out remaining_budget]; rewrite N.mul_0_r; [lia|].
        rewrite text_bytes_app. change (text_bytes [OutInputText r]) with (blen r + 0). lia.
      * destruct (seqb r []); cbn; rewrite !filter_app; cbn; rewrite ?app_nil_r; (split; [done|lia]).
  - eexists. split; [done|]. split; [|cbn; split; [done|lia]].
    unfold within in *. rewrite weight_push. cbn. by rewrite N.add_0_r.
  - destruct (N.leb_spec (audio_cost estimate policy u) (remaining_budget st)) as [L|L].
    + eexists. split; [done|]. split; [|cbn; split; [done|lia]].
      unfold within, weight, spend, push_item, sat_sub in *. cbn [out remaining_budget] in *.
      rewrite text_bytes_app. cbn. rewrite N.mul_sub_distr_l. destruct Hw; [left|right]; lia.
    + eexists. split; [done|]. cbn. rewrite filter_app. cbn. rewrite app_nil_r. split; [exact Hw|]. split; [done|lia].
  - eexists. split; [done|]. split; [|cbn; split; [done|lia]].
    unfold within in *. rewrite weight_push. cbn. by rewrite N.add_0_r.
Qed.

Lemma truncate_items_within bound items st :
  Forall item_fits items → within bound st →
  ∃ st', truncate_items estimate policy st items = Some st' ∧ within bound st' ∧
    filter is_media (out st') = filter is_media (out st ++ items) ∧
    omitted_text_items st' <= omitted_text_items st + vec_len items ∧
    omitted_audio_items st' <= omitted_audio_items st + vec_len items.
Proof.
  revert st. induction items as [|item items IH]; intros st Hf Hw.
  { exists st. rewrite app_nil_r. cbn. split_and!; (done || lia). }
  inversion_clear Hf as [|? ? H1 H2].
  destruct (truncate_item_within bound st item H1 Hw) as (st1 & E1 & Hw1 & Hm1 & Ht1 & Ha1).
  destruct (IH st1 H2 Hw1) as (st2 & E2 & Hw2 & Hm2 & Ht2 & Ha2).
  exists st2. cbn [truncate_items]. rewrite E1. cbn. split; [done|]. split; [done|].
  rewrite Hm2, filter_app, Hm1, <- filter_app, <- app_assoc. split; [done|].
  unfold vec_len in *. cbn [length]. lia.
Qed.

Lemma omitted_marker_bound n kind :
  n <= USIZE_MAX → blen kind <= 5 →
  text_bytes (omitted_marker n kind) <= 46 ∧ filter is_media (omitted_marker n kind) = [].
Proof.
  intros Hn%show_N_bound Hk. unfold omitted_marker. destruct (0 <? n); [|done]. split; [|done].
  unfold text_bytes. cbn [foldr item_text]. rewrite !blen_app.
  change (blen (lit "[omitted ")) with 9. change (blen (lit " ")) with 1.
  change (blen (lit " items ...]")) with 11. lia.
Qed.

(** What the items cost before anything is left out. *)
Definition item_cost (item : FunctionCallOutputContentItem) : N :=
  match item with
  | OutInputText text => text_cost policy text
  | OutInputAudio url => audio_cost estimate policy url
  | _ => 0
  end.

Definition items_cost (items : list FunctionCallOutputContentItem) : N :=
  foldr (fun item n => item_cost item + n) 0 items.

Lemma truncate_items_unchanged items st :
  items_cost items < remaining_budget st →
  ∃ r, truncate_items estimate policy st items =
    Some (mkItems (out st ++ items) r (omitted_text_items st) (omitted_audio_items st)).
Proof.
  revert st. induction items as [|item items IH]; intros st H.
  { exists (remaining_budget st). rewrite app_nil_r. by destruct st. }
  unfold items_cost in H. cbn [foldr] in H. fold (items_cost items) in H.
  assert (Hs : truncate_item estimate policy st item =
               Some (spend (remaining_budget st - item_cost item) (push_item item st))).
  { unfold truncate_item. destruct item; cbn [item_cost] in *; unfold sat_sub.
    - by rewrite (proj2 (N.eqb_neq _ _)), (proj2 (N.leb_le _ _)) by lia.
    - by rewrite N.sub_0_r.
    - by rewrite (proj2 (N.leb_le _ _)) by lia.
    - by rewrite N.sub_0_r. }
  cbn [truncate_items]. rewrite Hs. cbn [mbind option_bind].
  destruct (IH (spend (remaining_budget st - item_cost item) (push_item item st))) as (r & ->).
  { cbn. lia. }
  exists r. cbn. by rewrite <- app_assoc.
Qed.

(** The most text that markers add to a list of items. *)
Definition items_overhead : N := marker_max + 46 + 46.

(** Truncating never panics and keeps the text within the budget and the media in order. *)
Lemma truncate_items_text items :
  Forall item_fits items → vec_len items <= USIZE_MAX →
  ∃ st, truncate_items estimate policy (mkItems [] (units policy) 0 0) items = Some st ∧
    let r := out st ++ omitted_marker (omitted_text_items st) (lit "text") ++
             omitted_marker (omitted_audio_items st) (lit "audio") in
    truncate_function_output_items_with_policy estimate policy items = Some r ∧
    text_bytes r <= unit_bytes policy * units policy + items_overhead ∧
    filter is_media r = filter is_media items.
Proof.
  intros Hf Hn. unfold truncate_function_output_items_with_policy.
  replace (match policy with Bytes _ => byte_budget policy | Tokens _ => token_budget policy end)
    with (units policy) by (by destruct policy).
  set (st0 := mkItems [] (units policy) 0 0).
  destruct (truncate_items_within (unit_bytes policy * units policy) items st0) as (st & E & Hw & Hm & Ht & Ha);
    [done|left; unfold weight; cbn [out remaining_budget st0]; change (text_bytes []) with 0; lia|].
  exists st. split; [done|]. rewrite E. split; [done|].
  destruct (omitted_marker_bound (omitted_text_items st) (lit "text")) as [B1 M1]; [cbn in Ht; lia|done|].
  destruct (omitted_marker_bound (omitted_audio_items st) (lit "audio")) as [B2 M2]; [cbn in Ha; lia|done|].
  rewrite !filter_app, M1, M2, Hm, !text_bytes_app, !app_nil_r. split; [|done].
  unfold within, weight in Hw. unfold items_overhead, marker_max in *. lia.
Qed.

(** Truncating the items of a tool's output never panics; items that cost less than the
    budget are returned unchanged; and however many items there are and whatever they
    hold, the text that remains exceeds the budget by at most a constant, while images
    and encrypted contents all survive in order. *)
Theorem truncate_items_bounded items :
  Forall item_fits items → vec_len items <= USIZE_MAX →
  ∃ r, truncate_function_output_items_with_policy estimate policy items = Some r ∧
    (items_cost items < units policy → r = items) ∧
    text_bytes r <= unit_bytes policy * units policy + items_overhead ∧
    filter is_media r = filter is_media items.
Proof.
  intros Hf Hn. destruct (truncate_items_text items Hf Hn) as (st & E & Er & Hb & Hm).
  eexists. split; [exact Er|]. split; [|done].
  intros Hc. destruct (truncate_items_unchanged items (mkItems [] (units policy) 0 0) Hc) as (r & E').
  rewrite E' in E. injection E as <-. cbn. by rewrite app_nil_r.
Qed.
End budget.

Lemma truncate_items_bounded_witness :
  ∃ r, truncate_function_output_items_with_policy (fun _ => 7) (Bytes 4)
         [OutInputText (lit "abcdefgh"); OutInputImage (lit "u") None; OutInputText (lit "more")] = Some r ∧
    text_bytes r <= 4 + items_overhead ∧ filter is_media r = [OutInputImage (lit "u") None].
Proof.
  destruct (truncate_items_bounded (fun _ => 7) (Bytes 4)
    [OutInputText (lit "abcdefgh"); OutInputImage (lit "u") None; OutInputText (lit "more")])
    as (r & E & _ & Hb & Hm).
  - repeat constructor; vm_compute; discriminate.
  - vm_compute. discriminate.
  - exists r. split; [exact E|]. split; [exact Hb|exact Hm].
Defined.
