(* ===== verification/ContextFragments.v ===== *)
(** * Context injected as messages

    [codex-rs/context-fragments] and [core/src/context]: what the harness tells the model
    besides what the user says (project instructions, skills, aborted turns, ...) is put
    into the history as messages whose text is a body between markers.  The markers are
    how such messages are told from the user's own later ([contextual_user_message.rs],
    [event_mapping.rs]): a rollback counts the user's and trims the others.
    The XML of hook prompts is read by a third-party parser, a parameter here. *)

From S2P Require Import Prelude RustStr MachineInt ResponseModel Truncate TruncateFacts.
Open Scope N_scope.

(** ** Strings *)

(** [s.get(..prefix.len()).is_some_and(|c| c.eq_ignore_ascii_case(prefix))] *)
Definition starts_with_ignore_case (prefix s : str) : bool :=
  match str_to (blen prefix) s with
  | Some candidate => eq_ignore_ascii_case candidate prefix
  | None => false
  end.

Definition ends_with_ignore_case (suffix s : str) : bool :=
  match str_from (sat_sub (blen s) (blen suffix)) s with
  | Some candidate => eq_ignore_ascii_case candidate suffix
  | None => false
  end.

(** ** [fragment.rs] *)

Definition matches_marked_text (start_marker end_marker text : str) : bool :=
  if seqb start_marker [] || seqb end_marker [] then false
  else
    let trimmed := trim_start text in
    let starts_with_marker := starts_with_ignore_case start_marker trimmed in
    let trimmed := trim_end trimmed in
    let ends_with_marker := ends_with_ignore_case end_marker trimmed in
    starts_with_marker && ends_with_marker.

(** The trait; [None] for a body that cannot be rendered (a slice that panics). *)
Class ContextualUserFragment (F : Type) := {
  role : str;
  type_markers : str * str;
  body_text : F → option str;
  matches_text : str → bool
}.
Arguments role F {_}.
Arguments type_markers F {_}.
Arguments matches_text F {_} _.

Definition render {F} `{ContextualUserFragment F} (f : F) : option str :=
  let '(start_marker, end_marker) := type_markers F in
  body ← body_text f;
  Some (if seqb start_marker [] && seqb end_marker [] then body else start_marker ++ body ++ end_marker).

(** [into] and [into_boxed_response_item] *)
Definition into {F} `{ContextualUserFragment F} (f : F) : option ResponseItem :=
  text ← render f;
  Some (Message None (role F) [InputText text] None None).

(** ** The fragments of a user message *)

Record UserInstructions := mkUserInstructions { directory : option str; instructions_text : str }.
Record SkillInstructions := mkSkill { skill_name : str; skill_path : str; skill_contents : str }.
Record TurnAborted := mkTurnAborted { guidance : str }.
Record AdditionalContextUserFragment := mkAdditional { additional_key : str; additional_value : str }.
Record AdditionalContextDeveloperFragment := mkAdditionalDev { dev_key : str; dev_value : str }.
Record InternalModelContextFragment := mkInternal { internal_source : str; internal_body : str }.

Definition USER : str := lit "user".
Definition DEVELOPER : str := lit "developer".

#[export] Instance user_instructions_fragment : ContextualUserFragment UserInstructions := {
  role := USER;
  type_markers := (lit "# AGENTS.md instructions", lit "</INSTRUCTIONS>");
  body_text f :=
    let directory := match directory f with Some d => lit " for " ++ d | None => [] end in
    Some (directory ++ [nl; nl] ++ lit "<INSTRUCTIONS>" ++ [nl] ++ instructions_text f ++ [nl]);
  matches_text := matches_marked_text (lit "# AGENTS.md instructions") (lit "</INSTRUCTIONS>")
}.

#[export] Instance skill_fragment : ContextualUserFragment SkillInstructions := {
  role := USER;
  type_markers := (lit "<skill>", lit "</skill>");
  body_text f :=
    Some ([nl] ++ lit "<name>" ++ skill_name f ++ lit "</name>" ++ [nl] ++
          lit "<path>" ++ skill_path f ++ lit "</path>" ++ [nl] ++ skill_contents f ++ [nl]);
  matches_text := matches_marked_text (lit "<skill>") (lit "</skill>")
}.

#[export] Instance turn_aborted_fragment : ContextualUserFragment TurnAborted := {
  role := USER;
  type_markers := (lit "<turn_aborted>", lit "</turn_aborted>");
  body_text f := Some ([nl] ++ guidance f ++ [nl]);
  matches_text := matches_marked_text (lit "<turn_aborted>") (lit "</turn_aborted>")
}.

(** [additional_context.rs] *)
Definition MAX_ADDITIONAL_CONTEXT_VALUE_TOKENS : N := 1000.
Definition ADDITIONAL_START : str := lit "<external_".
Definition ADDITIONAL_END : str := lit ">".

Definition additional_context_body (key value : str) : option str :=
  '(value, _) ← truncate_middle_with_token_budget value MAX_ADDITIONAL_CONTEXT_VALUE_TOKENS;
  Some (key ++ lit ">" ++ value ++ lit "</external_" ++ key).

Definition additional_context_developer_body (key value : str) : option str :=
  '(value, _) ← truncate_middle_with_token_budget value MAX_ADDITIONAL_CONTEXT_VALUE_TOKENS;
  Some (lit "<" ++ key ++ lit ">" ++ value ++ lit "</" ++ key ++ lit ">").

Definition additional_matches_text (text : str) : bool :=
  match strip_prefix ADDITIONAL_START (trim text) with
  | None => false
  | Some rest =>
      match split_once ADDITIONAL_END rest with
      | None => false
      | Some (key, value_and_close) => ends_with (lit "</external_" ++ key ++ lit ">") value_and_close
      end
  end.

#[export] Instance additional_fragment : ContextualUserFragment AdditionalContextUserFragment := {
  role := USER;
  type_markers := (ADDITIONAL_START, ADDITIONAL_END);
  body_text f := additional_context_body (additional_key f) (additional_value f);
  matches_text := additional_matches_text
}.

#[export] Instance additional_developer_fragment : ContextualUserFragment AdditionalContextDeveloperFragment := {
  role := DEVELOPER;
  type_markers := ([], []);
  body_text f := additional_context_developer_body (dev_key f) (dev_value f);
  matches_text := matches_marked_text [] []
}.

(** [internal_model_context.rs] *)
Definition CONTEXT_START_MARKER : str := lit "<codex_internal_context".
Definition CONTEXT_END_MARKER : str := lit "</codex_internal_context>".
Definition SOURCE_ATTR_START : str := lit " source=" ++ [34].
Definition SOURCE_ATTR_END : str := [34] ++ lit ">".

Definition is_ascii_lowercase (c : char) : bool := (97 <=? c) && (c <=? 122).

Definition is_valid_source (source : str) : bool :=
  match source with
  | [] => false
  | first :: chars =>
      is_ascii_lowercase first &&
      forallb (fun ch => is_ascii_lowercase ch || is_ascii_digit ch || (ch =? 95)) chars
  end.

Definition matches_legacy_goal_context (text : str) : bool :=
  starts_with (lit "<goal_context>") text && ends_with (lit "</goal_context>") text.

Definition internal_matches_text (text : str) : bool :=
  let trimmed := trim text in
  if matches_legacy_goal_context trimmed then true
  else
    match strip_prefix CONTEXT_START_MARKER trimmed with
    | None => false
    | Some rest =>
        match strip_prefix SOURCE_ATTR_START rest with
        | None => false
        | Some rest =>
            match split_once SOURCE_ATTR_END rest with
            | None => false
            | Some (source, body_and_close) => is_valid_source source && ends_with CONTEXT_END_MARKER body_and_close
            end
        end
    end.

#[export] Instance internal_fragment : ContextualUserFragment InternalModelContextFragment := {
  role := USER;
  type_markers := (CONTEXT_START_MARKER, CONTEXT_END_MARKER);
  body_text f := Some (SOURCE_ATTR_START ++ internal_source f ++ SOURCE_ATTR_END ++ [nl] ++ internal_body f ++ [nl]);
  matches_text := internal_matches_text
}.

(** [InternalContextSource::new] *)
Definition internal_context_source_new (source : str) : result str str :=
  if is_valid_source source then Ok source else Err source.

(** ** [contextual_user_message.rs] *)

(** The markers of the other registered fragments: environments, shell commands of the
    user, notifications of subagents and recommended plugins. *)
Definition marked_fragments : list (str * str) :=
  [ (lit "<environment_context>", lit "</environment_context>");
    (lit "<user_shell_command>", lit "</user_shell_command>");
    (lit "<subagent_notification>", lit "</subagent_notification>");
    (lit "<recommended_plugins>", lit "</recommended_plugins>") ].

(** The warnings earlier versions wrote. *)
Definition legacy_process_limit_matches (text : str) : bool :=
  starts_with (lit "Warning: The maximum number of unified exec processes you can keep open is") (trim text).
Definition legacy_apply_patch_matches (text : str) : bool :=
  starts_with (lit "Warning: apply_patch was requested via ") (trim text) &&
  ends_with (lit "Use the apply_patch tool instead of exec_command.") (trim text).
Definition legacy_model_mismatch_matches (text : str) : bool :=
  starts_with (lit "Warning: Your account was flagged for potentially high-risk cyber activity") (trim text).

Definition is_standard_contextual_user_text (text : str) : bool :=
  matches_text UserInstructions text ||
  matches_text AdditionalContextUserFragment text ||
  matches_text SkillInstructions text ||
  matches_text TurnAborted text ||
  matches_text InternalModelContextFragment text ||
  existsb (fun '(start_marker, end_marker) => matches_marked_text start_marker end_marker text) marked_fragments ||
  legacy_process_limit_matches text || legacy_apply_patch_matches text || legacy_model_mismatch_matches text.

(** ** [event_mapping.rs] *)

Definition CONTEXTUAL_DEVELOPER_PREFIXES : list str :=
  [ lit "<permissions instructions>"; lit "<model_switch>"; lit "<apps_instructions>";
    lit "<collaboration_mode>"; lit "<multi_agent_mode>"; lit "<environments_instructions>";
    lit "<plugins_instructions>"; lit "<realtime_conversation>"; lit "<skills_instructions>";
    lit "<personality_spec>"; lit "<token_budget>"; lit "<context_window>";
    lit "<context_window_guidance>"; lit "<rollout_budget>" ].

Definition is_contextual_dev_fragment (content_item : ContentItem) : bool :=
  match content_item with
  | InputText text =>
      existsb (fun prefix => starts_with_ignore_case prefix (trim_start text)) CONTEXTUAL_DEVELOPER_PREFIXES
  | _ => false
  end.

Definition is_contextual_dev_message_content (message : list ContentItem) : bool :=
  existsb is_contextual_dev_fragment message.

Definition has_non_contextual_dev_message_content (message : list ContentItem) : bool :=
  existsb (fun content_item => negb (is_contextual_dev_fragment content_item)) message.

Section user.
(** [parse_hook_prompt_fragment]'s XML parser: the [hook_run_id] of a text that is a hook
    prompt. *)
Context (hook_run_id_of_xml : str → option str).

Definition parse_hook_prompt_fragment (text : str) : option str :=
  hook_run_id ← hook_run_id_of_xml (trim text);
  if seqb (trim hook_run_id) [] then None else Some hook_run_id.

Definition is_contextual_user_fragment (content_item : ContentItem) : bool :=
  match content_item with
  | InputText text =>
      match parse_hook_prompt_fragment text with
      | Some _ => true
      | None => is_standard_contextual_user_text text
      end
  | _ => false
  end.

Definition is_contextual_user_message_content (message : list ContentItem) : bool :=
  existsb is_contextual_user_fragment message.
End user.

(** ** What is injected is recognised *)

#[local] Arguments lit : simpl never.

(** A text that trimming leaves alone, so that a text that begins or ends with it is too. *)
Definition solid (m : str) : Prop := m ≠ [] ∧ trim_start m = m ∧ trim_end m = m.

Ltac solid := split; [discriminate|split; vm_compute; reflexivity].

Lemma trim_start_solid m s : solid m → trim_start (m ++ s) = m ++ s.
Proof.
  intros (Hne & Hs & _). destruct m as [|c m]; [done|]. cbn in *.
  destruct (is_whitespace c); [|done]. exfalso.
  assert (Hle : ∀ u, (length (trim_start u) ≤ length u)%nat).
  { induction u as [|x u IH]; cbn; [lia|]. destruct (is_whitespace x); cbn; lia. }
  specialize (Hle m). rewrite Hs in Hle. cbn in Hle. lia.
Qed.

Lemma trim_end_solid m s : solid m → trim_end (s ++ m) = s ++ m.
Proof. intros (Hne & _ & He). by apply trim_end_app. Qed.

Lemma trim_solid a b s : solid a → solid b → trim (a ++ s ++ b) = a ++ s ++ b.
Proof. intros Ha Hb. unfold trim. rewrite trim_start_solid, app_assoc, trim_end_solid by done. done. Qed.

Lemma starts_with_ignore_case_app m s : starts_with_ignore_case m (m ++ s) = true.
Proof. unfold starts_with_ignore_case. rewrite str_to_app. apply seqb_refl. Qed.

Lemma ends_with_ignore_case_app m s : ends_with_ignore_case m (s ++ m) = true.
Proof.
  unfold ends_with_ignore_case, sat_sub. rewrite blen_app, N.add_sub, str_from_app. apply seqb_refl.
Qed.

Lemma marked_recognised a b s : solid a → solid b → matches_marked_text a b (a ++ s ++ b) = true.
Proof.
  intros Ha Hb. unfold matches_marked_text. destruct (Ha) as (Ha0 & _), (Hb) as (Hb0 & _).
  apply seqb_neq in Ha0, Hb0. rewrite Ha0, Hb0. cbn [orb].
  rewrite trim_start_solid, starts_with_ignore_case_app by done. rewrite app_assoc, trim_end_solid by done.
  apply ends_with_ignore_case_app.
Qed.

Lemma ends_with_app m s : ends_with m (s ++ m) = true.
Proof.
  unfold ends_with. destruct (strip_suffix m (s ++ m)) eqn:E; [done|].
  assert (strip_suffix m (s ++ m) = Some s) by (by apply strip_suffix_Some). congruence.
Qed.

Lemma additional_recognised key value :
  62 ∉ key →
  additional_matches_text (ADDITIONAL_START ++ (key ++ lit ">" ++ value ++ lit "</external_" ++ key) ++ ADDITIONAL_END) = true.
Proof.
  intros Hk. unfold additional_matches_text. rewrite trim_solid by solid.
  rewrite strip_prefix_app, <- !app_assoc.
  unfold ADDITIONAL_END. change (lit ">") with [62]. rewrite (split_once_first 62 [] key) by done.
  apply ends_with_app.
Qed.

Lemma valid_source_no_quote source : is_valid_source source = true → 34 ∉ source.
Proof.
  destruct source as [|x s]; cbn; [done|]. rewrite andb_true_iff, forallb_forall. intros [Hx Hs] [<-|Hin]%elem_of_cons.
  - vm_compute in Hx. discriminate.
  - apply list_elem_of_In, Hs in Hin. vm_compute in Hin. discriminate.
Qed.

Lemma internal_recognised source b :
  is_valid_source source = true →
  internal_matches_text
    (CONTEXT_START_MARKER ++ (SOURCE_ATTR_START ++ source ++ SOURCE_ATTR_END ++ b) ++ CONTEXT_END_MARKER) = true.
Proof.
  intros Hs. unfold internal_matches_text. rewrite trim_solid by solid.
  destruct (matches_legacy_goal_context _); [done|]. rewrite strip_prefix_app, <- !app_assoc, strip_prefix_app.
  change SOURCE_ATTR_END with (34 :: [62]). rewrite split_once_first by by apply valid_source_no_quote.
  rewrite Hs. apply ends_with_app.
Qed.

(** The context that is written into user messages. *)
Inductive InjectedFragment :=
| InjectedInstructions (f : UserInstructions)
| InjectedSkill (f : SkillInstructions)
| InjectedAbort (f : TurnAborted)
| InjectedAdditional (f : AdditionalContextUserFragment)
| InjectedInternal (f : InternalModelContextFragment).

Definition inject (f : InjectedFragment) : option ResponseItem :=
  match f with
  | InjectedInstructions f => into f
  | InjectedSkill f => into f
  | InjectedAbort f => into f
  | InjectedAdditional f => into f
  | InjectedInternal f => into f
  end.

(** The key of additional context closes no tag, and a source label is one. *)
Definition well_labelled (f : InjectedFragment) : Prop :=
  match f with
  | InjectedAdditional f => 62 ∉ additional_key f
  | InjectedInternal f => is_valid_source (internal_source f) = true
  | _ => True
  end.

(** Rendering a fragment that has markers. *)
Lemma into_marked {F} `{ContextualUserFragment F} (f : F) item :
  seqb (fst (type_markers F)) [] = false → into f = Some item →
  ∃ b, body_text f = Some b ∧
    item = Message None (role F) [InputText (fst (type_markers F) ++ b ++ snd (type_markers F))] None None.
Proof.
  unfold into, render. destruct (type_markers F) as [m n]. cbn [fst snd]. intros ->. cbn [andb].
  intros (text & (b & Hb & [= <-])%bind_Some & [= <-])%bind_Some. by exists b.
Qed.

Lemma inject_recognised f item :
  well_labelled f → inject f = Some item →
  ∃ text, item = Message None USER [InputText text] None None ∧ is_standard_contextual_user_text text = true.
Proof.
  intros Hf. unfold is_standard_contextual_user_text.
  destruct f as [f|f|f|f|f]; cbn [inject well_labelled] in *;
    intros (b & Hb & ->)%into_marked; try reflexivity; eexists; (split; [reflexivity|]);
    cbn [type_markers matches_text user_instructions_fragment skill_fragment turn_aborted_fragment
         additional_fragment internal_fragment fst snd].
  1-3: rewrite marked_recognised by solid; by rewrite ?orb_true_r.
  - cbn [body_text additional_fragment] in Hb. unfold additional_context_body in Hb.
    apply bind_Some in Hb as ([v o] & _ & <-%(inj Some)).
    rewrite additional_recognised by done. by rewrite ?orb_true_r.
  - cbn [body_text internal_fragment] in Hb. apply (inj Some) in Hb as <-.
    rewrite internal_recognised by done. by rewrite ?orb_true_r.
Qed.
