(* ===== verification/Compact.v ===== *)
(** * The history after a compaction

    [codex-rs/core/src/compact.rs]: when the history grows too long it is replaced by the
    newest messages of the user, within a budget of tokens, and a summary.  A user message is
    what [parse_turn_item] of [event_mapping.rs] makes of an item. *)

From S2P Require Import Prelude RustStr MachineInt ResponseModel Truncate TruncateFacts ContextFragments.
Open Scope N_scope.

(** ** [event_mapping.rs]: the messages of the user *)

Inductive UserInput :=
| UserText (text : str)
| UserImage (image_url : str) (detail : option Json)
| UserAudio (audio_url : str).

Definition IMAGE_OPEN_TAG : str := lit "<image>".
Definition IMAGE_CLOSE_TAG : str := lit "</image>".
Definition LOCAL_IMAGE_OPEN_TAG_PREFIX : str := lit "<image name=".
Definition LOCAL_IMAGE_OPEN_TAG_SUFFIX : str := lit ">".
Definition AUDIO_OPEN_TAG : str := lit "<audio>".
Definition AUDIO_CLOSE_TAG : str := lit "</audio>".
Definition LOCAL_AUDIO_OPEN_TAG_PREFIX : str := lit "<audio name=".
Definition LOCAL_AUDIO_OPEN_TAG_SUFFIX : str := lit ">".

Definition is_local_open_tag_text (prefix suffix text : str) : bool :=
  match strip_prefix prefix text with Some rest => ends_with suffix rest | None => false end.

Definition is_input_image (c : option ContentItem) : bool :=
  match c with Some (InputImage _ _) => true | _ => false end.
Definition is_input_audio (c : option ContentItem) : bool :=
  match c with Some (InputAudio _) => true | _ => false end.

(** A text that only labels the image or audio next to it; [before] is the item at [idx - 1]. *)
Definition is_image_label (before : option ContentItem) (text : str) (after : option ContentItem) : bool :=
  (is_local_open_tag_text LOCAL_IMAGE_OPEN_TAG_PREFIX LOCAL_IMAGE_OPEN_TAG_SUFFIX text || seqb text IMAGE_OPEN_TAG) &&
    is_input_image after ||
  seqb text IMAGE_CLOSE_TAG && is_input_image before.
Definition is_audio_label (before : option ContentItem) (text : str) (after : option ContentItem) : bool :=
  (is_local_open_tag_text LOCAL_AUDIO_OPEN_TAG_PREFIX LOCAL_AUDIO_OPEN_TAG_SUFFIX text || seqb text AUDIO_OPEN_TAG) &&
    is_input_audio after ||
  seqb text AUDIO_CLOSE_TAG && is_input_audio before.

Fixpoint user_inputs (before : option ContentItem) (message : list ContentItem) : list UserInput :=
  match message with
  | [] => []
  | item :: rest =>
      let inputs := user_inputs (Some item) rest in
      match item with
      | InputText text =>
          if is_image_label before text (head rest) || is_audio_label before text (head rest)
          then inputs else UserText text :: inputs
      | InputImage image_url detail => UserImage image_url detail :: inputs
      | InputAudio audio_url => UserAudio audio_url :: inputs
      | OutputText _ => inputs
      end
  end.

(** [UserMessageItem::message] *)
Definition user_message_text (inputs : list UserInput) : str :=
  concat (map (fun c => match c with UserText text => text | _ => [] end) inputs).

Definition SUMMARY_PREFIX : str :=
  lit "Another language model started to solve this problem and produced a summary of its thinking process. You also have access to the state of the tools that were used by that language model. Use this to build on the work that has already been done and avoid duplicating work. Here is the summary produced by the other language model, use the information in this summary to assist with your own analysis:".

Definition COMPACT_USER_MESSAGE_MAX_TOKENS : N := 20000.

Definition is_summary_message (message : str) : bool := starts_with (SUMMARY_PREFIX ++ [nl]) message.

Definition content_items_to_text (content : list ContentItem) : option str :=
  let pieces := omap (fun item =>
    match item with
    | InputText text | OutputText text => if seqb text [] then None else Some text
    | _ => None
    end) content in
  match pieces with [] => None | _ => Some (join [nl] pieces) end.

Record CompactedUserMessage := mkCompacted {
  compacted_message : str;
  compacted_metadata : option InternalChatMessageMetadataPassthrough
}.

Section compact.
Context (hook_run_id_of_xml : str → option str).

Definition parse_user_message (message : list ContentItem) : option (list UserInput) :=
  if is_contextual_user_message_content hook_run_id_of_xml message then None
  else Some (user_inputs None message).

(** [parse_visible_hook_prompt_message(..).is_some()]: hook prompts and injected context only. *)
Fixpoint hook_prompts (content : list ContentItem) : option nat :=
  match content with
  | [] => Some O
  | InputText text :: content =>
      match parse_hook_prompt_fragment hook_run_id_of_xml text with
      | Some _ => S <$> hook_prompts content
      | None => if is_standard_contextual_user_text text then hook_prompts content else None
      end
  | _ => None
  end.
Definition is_hook_prompt_message (content : list ContentItem) : bool :=
  match hook_prompts content with Some (S _) => true | _ => false end.

(** The items for which [parse_turn_item] answers [TurnItem::UserMessage]. *)
Definition parse_turn_user_message (item : ResponseItem) : option (list UserInput) :=
  match item with
  | Message _ role content _ _ =>
      if seqb role (lit "user")
      then if is_hook_prompt_message content then None else parse_user_message content
      else None
  | _ => None
  end.

Definition collect_user_messages (items : list ResponseItem) : list CompactedUserMessage :=
  omap (fun item =>
    user ← parse_turn_user_message item;
    let message := user_message_text user in
    if is_summary_message message then None
    else Some (mkCompacted message match item with Message _ _ _ _ metadata => metadata | _ => None end)) items.

(** ** Where the initial context goes *)

Definition is_user_message (item : ResponseItem) : bool :=
  match parse_turn_user_message item with Some _ => true | None => false end.
Definition is_real_user_message (item : ResponseItem) : bool :=
  match parse_turn_user_message item with Some user => negb (is_summary_message (user_message_text user)) | None => false end.
Definition is_compaction_item (item : ResponseItem) : bool :=
  match item with Compaction _ _ _ | ContextCompaction _ _ _ => true | _ => false end.

Definition insertion_index (compacted_history : list ResponseItem) : option nat :=
  match rposition is_real_user_message compacted_history with
  | Some i => Some i
  | None =>
      match rposition is_user_message compacted_history with
      | Some i => Some i
      | None => rposition is_compaction_item compacted_history
      end
  end.

Definition insert_initial_context_before_last_real_user_or_summary
    (compacted_history initial_context : list ResponseItem) : list ResponseItem :=
  match insertion_index compacted_history with
  | Some i => take i compacted_history ++ initial_context ++ drop i compacted_history
  | None => compacted_history ++ initial_context
  end.
End compact.

(** ** What is kept *)

Definition user_item (message : str) (metadata : option InternalChatMessageMetadataPassthrough) : ResponseItem :=
  Message None (lit "user") [InputText message] None metadata.

(** The loop over the messages, newest first. *)
Fixpoint select_messages (remaining : N) (newest_first : list CompactedUserMessage) :
    option (list CompactedUserMessage) :=
  match newest_first with
  | [] => Some []
  | message :: older =>
      if remaining =? 0 then Some []
      else
        let tokens := approx_token_count (compacted_message message) in
        if tokens <=? remaining then
          selected ← select_messages (sat_sub remaining tokens) older;
          Some (message :: selected)
        else
          truncated ← truncate_text (compacted_message message) (Tokens remaining);
          Some [mkCompacted truncated (compacted_metadata message)]
  end.

Definition build_compacted_history_with_limit (history : list ResponseItem)
    (user_messages : list CompactedUserMessage) (summary_text : str) (max_tokens : N) : option (list ResponseItem) :=
  selected ← (if 0 <? max_tokens then select_messages max_tokens (rev user_messages) else Some []);
  let summary_text := if seqb summary_text [] then lit "(no summary available)" else summary_text in
  Some (history ++ map (fun m => user_item (compacted_message m) (compacted_metadata m)) (rev selected) ++
        [user_item summary_text None]).

Definition build_compacted_history (initial_context : list ResponseItem) (user_messages : list CompactedUserMessage)
    (summary_text : str) : option (list ResponseItem) :=
  build_compacted_history_with_limit initial_context user_messages summary_text COMPACT_USER_MESSAGE_MAX_TOKENS.

(** ** The budget *)

Definition tokens_of (messages : list CompactedUserMessage) : N :=
  foldr (fun m n => approx_token_count (compacted_message m) + n) 0 messages.

Definition messages_fit (messages : list CompactedUserMessage) : Prop := Forall (fun m => fits (compacted_message m)) messages.

(** The selection, newest first: the messages that fit, and what is left of the next one. *)
Lemma select_messages_spec remaining l :
  messages_fit l →
  ∃ kept cut dropped selected,
    select_messages remaining l = Some selected ∧ l = kept ++ cut ++ dropped ∧ tokens_of kept <= remaining ∧
    (cut = [] ∧ selected = kept ∧ (dropped = [] ∨ tokens_of kept = remaining) ∨
     ∃ m text, cut = [m] ∧ remaining < tokens_of kept + approx_token_count (compacted_message m) ∧
       selected = kept ++ [mkCompacted text (compacted_metadata m)] ∧
       blen text <= 4 * (remaining - tokens_of kept) + marker_max).
Proof.
  revert remaining. induction l as [|m l IH]; intros remaining Hf; cbn [select_messages].
  { exists [], [], [], []. split_and!; try done; try apply N.le_0_l. left. auto. }
  apply Forall_cons in Hf as [Hm Hf]. destruct (N.eqb_spec remaining 0) as [->|Hr].
  { exists [], [], (m :: l), []. split_and!; try done. left. auto. }
  destruct (N.leb_spec (approx_token_count (compacted_message m)) remaining) as [Hle|Hgt].
  - destruct (IH (sat_sub remaining (approx_token_count (compacted_message m))) Hf)
      as (kept & cut & dropped & selected & -> & -> & Hk & H). cbn [mbind option_bind].
    unfold sat_sub in *. exists (m :: kept), cut, dropped, (m :: selected). cbn [tokens_of foldr].
    fold (tokens_of kept). split_and!; try done; [lia|].
    destruct H as [(-> & -> & H)|(m' & text & -> & H1 & -> & H2)].
    + left. split_and!; try done. destruct H as [->|H]; [by left|right; lia].
    + right. exists m', text. split_and!; try done; [lia|].
      etrans; [exact H2|]. apply N.add_le_mono_r, N.mul_le_mono_l. lia.
  - destruct (truncate_text_bound _ (Tokens remaining) Hm) as (text & -> & Hb). cbn [mbind option_bind].
    exists [], [m], l, [mkCompacted text (compacted_metadata m)]. cbn [tokens_of foldr].
    split_and!; try done; try apply N.le_0_l. right. exists m, text. split_and!; try done; try lia.
    cbn [unit_bytes units] in Hb. by rewrite N.sub_0_r.
Qed.

(** After a compaction the history is the given context, the newest messages of the user and
    the summary, in that order.  The messages kept whole are the longest run of newest ones that
    fits the budget of tokens; when a message does not fit any more, it is cut to what is left of
    the budget and everything older is dropped. *)
Theorem compacted_history_spec context messages summary max :
  messages_fit messages →
  ∃ dropped cut kept selected,
    build_compacted_history_with_limit context messages summary max =
      Some (context ++ map (fun m => user_item (compacted_message m) (compacted_metadata m)) selected ++
            [user_item (if seqb summary [] then lit "(no summary available)" else summary) None]) ∧
    messages = dropped ++ cut ++ kept ∧ tokens_of kept <= max ∧
    (cut = [] ∧ selected = kept ∧ (dropped = [] ∨ tokens_of kept = max) ∨
     ∃ m text, cut = [m] ∧ max < tokens_of kept + approx_token_count (compacted_message m) ∧
       selected = mkCompacted text (compacted_metadata m) :: kept ∧
       blen text <= 4 * (max - tokens_of kept) + marker_max).
Proof.
  intros Hf. unfold build_compacted_history_with_limit.
  assert (Hsel : (if 0 <? max then select_messages max (rev messages) else Some []) = select_messages max (rev messages)).
  { destruct (N.ltb_spec 0 max); [done|]. replace max with 0 by lia. by destruct (rev messages). }
  rewrite Hsel. destruct (select_messages_spec max (rev messages)) as (kept & cut & dropped & selected & -> & E & Hk & H).
  { unfold messages_fit in *. rewrite Forall_forall in *. intros x Hx. apply Hf. by apply list_elem_of_In, in_rev, list_elem_of_In. }
  cbn [mbind option_bind]. apply (f_equal (@rev _)) in E. rewrite rev_involutive, !rev_app_distr in E.
  assert (Htok : tokens_of (rev kept) = tokens_of kept).
  { clear. induction kept as [|m kept IH]; [done|]. cbn [rev tokens_of foldr]. fold (tokens_of kept). rewrite <- IH.
    generalize (rev kept). intros l. induction l as [|x l IHl]; cbn [app tokens_of foldr] in *; [done|].
    fold (tokens_of l) in *. fold (tokens_of (l ++ [m])) in *. rewrite IHl. lia. }
  exists (rev dropped), (rev cut), (rev kept), (rev selected). rewrite Htok. split_and!; try done.
  - by rewrite E, <- app_assoc.
  - destruct H as [(-> & -> & H)|(m & text & -> & H1 & -> & H2)].
    + left. split_and!; try done. destruct H as [->|H]; auto.
    + right. exists m, text. split_and!; try done. by rewrite rev_app_distr.
Qed.

Lemma compacted_history_spec_witness :
  let messages := [mkCompacted (lit "first request") None; mkCompacted (lit "second") None; mkCompacted (lit "third") None] in
  ∃ dropped cut kept selected,
    build_compacted_history_with_limit [] messages [] 4 =
      Some (map (fun m => user_item (compacted_message m) (compacted_metadata m)) selected ++
            [user_item (lit "(no summary available)") None]) ∧
    messages = dropped ++ cut ++ kept ∧ tokens_of kept <= 4 ∧
    (cut = [] ∧ selected = kept ∧ (dropped = [] ∨ tokens_of kept = 4) ∨
     ∃ m text, cut = [m] ∧ 4 < tokens_of kept + approx_token_count (compacted_message m) ∧
       selected = mkCompacted text (compacted_metadata m) :: kept ∧
       blen text <= 4 * (4 - tokens_of kept) + marker_max).
Proof.
  intros messages. apply (compacted_history_spec [] messages [] 4).
  repeat constructor; vm_compute; discriminate.
Defined.

(** ** The initial context *)

Section placement.
Context (hook_run_id_of_xml : str → option str).
#[local] Abbreviation real := (is_real_user_message hook_run_id_of_xml).
#[local] Abbreviation user := (is_user_message hook_run_id_of_xml).

(** The item the context is put before, and what may follow it. *)
Definition anchor (x : ResponseItem) (history after : list ResponseItem) : Prop :=
  real x = true ∧ Forall (fun y => real y = false) after ∨
  Forall (fun y => real y = false) history ∧ user x = true ∧ Forall (fun y => user y = false) after ∨
  Forall (fun y => user y = false) history ∧ is_compaction_item x = true ∧
    Forall (fun y => is_compaction_item y = false) after.

(** The initial context is inserted directly before the last real message of the user; if
    there is none, before the last summary; if there is none either, before the last compaction
    item; and at the end otherwise.  Nothing else moves, so that in the first three cases the last
    item of the history stays last. *)
Theorem initial_context_placement history context :
  (∃ before x after, history = before ++ x :: after ∧ anchor x history after ∧
     insert_initial_context_before_last_real_user_or_summary hook_run_id_of_xml history context =
       before ++ context ++ x :: after) ∨
  Forall (fun y => user y = false ∧ is_compaction_item y = false) history ∧
    insert_initial_context_before_last_real_user_or_summary hook_run_id_of_xml history context = history ++ context.
Proof.
  unfold insert_initial_context_before_last_real_user_or_summary, insertion_index.
  destruct (rposition real history) as [i|] eqn:Er;
    [|destruct (rposition user history) as [i|] eqn:Eu; [|destruct (rposition is_compaction_item history) as [i|] eqn:Ec]].
  all: try (left; match goal with E : rposition _ _ = Some _ |- _ =>
      apply rposition_Some in E as (before & x & after & -> & <- & Hx & Ha) end;
    exists before, x, after; split_and!; [done| |by rewrite take_app_length, drop_app_length]).
  - by left.
  - right. left. split; [by apply rposition_None_inv|done].
  - right. right. split; [by apply rposition_None_inv|done].
  - right. split; [|done]. apply Forall_and. split; by apply rposition_None_inv.
Qed.
End placement.
