(* ===== verification/WorldState.v ===== *)
(** * The state of the world the model has been told about

    [codex-rs/core/src/context/world_state/mod.rs]: sections of the prompt (the environment,
    permissions, instructions ...) are compared with what the model saw last and only the
    changes are told again.  What the model saw is a JSON snapshot; the rollout file of a
    thread records a full snapshot first and merge patches (RFC 7386) after that.  A
    [serde_json::Map] keeps its keys in order of insertion, so it is an association list,
    and [==] on values does not look at that order. *)

From stdpp Require Import sorting.
From S2P Require Import Prelude RustStr ResponseModel.

(** ** [serde_json] values *)

Definition is_null (v : Json) : bool := match v with JNull => true | _ => false end.
Definition as_object (v : Json) : option (list (str * Json)) :=
  match v with JObject fields => Some fields | _ => None end.

Definition keys {A} (m : list (str * A)) : list str := map fst m.
Definition contains_key {A} (k : str) (m : list (str * A)) : bool :=
  match assoc k m with Some _ => true | None => false end.

(** [Map::insert]: in place, or at the end. *)
Fixpoint map_insert {A} (k : str) (v : A) (m : list (str * A)) : list (str * A) :=
  match m with
  | [] => [(k, v)]
  | (k', u) :: m => if seqb k k' then (k, v) :: m else (k', u) :: map_insert k v m
  end.

(** [Map::remove], which is [swap_remove]: the last entry takes the place of the removed one. *)
Fixpoint map_remove {A} (k : str) (m : list (str * A)) : list (str * A) :=
  match m with
  | [] => []
  | (k', u) :: m =>
      if seqb k k' then match last m with Some e => e :: removelast m | None => [] end
      else (k', u) :: map_remove k m
  end.

(** [Value::eq] *)
Fixpoint json_eqb (a b : Json) {struct a} : bool :=
  match a, b with
  | JNull, JNull => true
  | JBool x, JBool y => Bool.eqb x y
  | JNumber x, JNumber y | JString x, JString y => seqb x y
  | JArray l, JArray l' =>
      (fix all l l' :=
         match l, l' with
         | [], [] => true
         | x :: l, y :: l' => json_eqb x y && all l l'
         | _, _ => false
         end) l l'
  | JObject f, JObject g =>
      (length f =? length g)%nat &&
      forallb (fun '(k, v) => match assoc k g with Some u => json_eqb v u | None => false end) f
  | _, _ => false
  end.

(** ** Merge patches *)

Fixpoint remove_null_object_fields (value : Json) : Json :=
  match value with
  | JObject values =>
      JObject (foldr (fun '(k, v) rest => if is_null v then rest else (k, remove_null_object_fields v) :: rest)
                 [] values)
  | _ => value
  end.

Fixpoint create_merge_patch (previous current : Json) {struct current} : option Json :=
  if json_eqb previous current then None
  else
    match current with
    | JObject current =>
        let previous := as_object previous in
        let removed :=
          match previous with
          | Some previous =>
              foldl (fun patch '(k, _) => if contains_key k current then patch else map_insert k JNull patch)
                [] previous
          | None => []
          end in
        Some (JObject (fold_left (fun patch '(k, current_value) =>
          match previous ≫= assoc k with
          | None => map_insert k current_value patch
          | Some previous_value =>
              match create_merge_patch previous_value current_value with
              | Some value_patch => map_insert k value_patch patch
              | None => patch
              end
          end) current removed))
    | current => Some current
    end.

Fixpoint apply_merge_patch_value (target patch : Json) {struct patch} : Json :=
  match patch with
  | JObject patch =>
      JObject (fold_left (fun target '(k, value) =>
        if is_null value then map_remove k target
        else map_insert k (apply_merge_patch_value (default JNull (assoc k target)) value) target)
        patch (default [] (as_object target)))
  | _ => patch
  end.

(** ** Snapshots *)

Record WorldStateSnapshot := mkSnapshot { snapshot_sections : gmap str Json }.

(** The order in which a [BTreeMap] lists its keys. *)
Definition entry_le (a b : str * Json) : Prop := str_leb (fst a) (fst b) = true.
#[export] Instance entry_le_dec : RelDecision entry_le.
Proof. intros a b. unfold entry_le. apply _. Defined.

Definition into_value (s : WorldStateSnapshot) : Json :=
  JObject (merge_sort entry_le (map_to_list (snapshot_sections s))).

(** [serde_json::from_value]: a snapshot is any object. *)
Definition snapshot_from_value (v : Json) : option WorldStateSnapshot :=
  fields ← as_object v; Some (mkSnapshot (list_to_map fields)).

Definition merge_patch_from (current previous : WorldStateSnapshot) : option Json :=
  create_merge_patch (into_value previous) (into_value current).

(** [apply_merge_patch]: the snapshot is left alone when the result is not a snapshot. *)
Definition apply_merge_patch (patch : Json) (s : WorldStateSnapshot) : option WorldStateSnapshot :=
  snapshot_from_value (apply_merge_patch_value (into_value s) patch).

Record WorldStateItem := mkWorldStateItem { item_full : bool; item_state : Json }.
Definition full_item (state : Json) : WorldStateItem := mkWorldStateItem true state.
Definition patch_item (state : Json) : WorldStateItem := mkWorldStateItem false state.

(** ** Sections *)

Inductive PreviousSectionState (T : Type) := Absent | Unknown | Known (previous : T).
Arguments Absent {T}. Arguments Unknown {T}. Arguments Known {T}.

Section world.
Context {Fragment : Type}.

(** [dyn ErasedWorldStateSection] *)
Record ErasedSection := mkErased {
  erased_snapshot : option Json;
  matches_legacy_fragment : str → str → bool;
  has_retained_fragment_matcher : bool;
  matches_retained_fragment : str → str → bool;
  erased_render_diff : PreviousSectionState Json → option Fragment
}.

(** A typed section: its snapshot as [serde_json::to_value] gives it, and the decoder of snapshots. *)
Record WorldStateSection (T : Type) := mkSection {
  typed_snapshot : option Json;
  typed_from_value : Json → option T;
  typed_matches_legacy : str → str → bool;
  typed_has_matcher : bool;
  typed_matches_retained : str → str → bool;
  typed_render_diff : PreviousSectionState T → option Fragment
}.
Arguments typed_snapshot {T}. Arguments typed_from_value {T}. Arguments typed_matches_legacy {T}.
Arguments typed_has_matcher {T}. Arguments typed_matches_retained {T}. Arguments typed_render_diff {T}.

Definition clean_snapshot (v : Json) : option Json :=
  let snapshot := remove_null_object_fields v in
  if is_null snapshot then None else Some snapshot.

Definition erase {T} (s : WorldStateSection T) : ErasedSection :=
  mkErased (typed_snapshot s ≫= clean_snapshot) (typed_matches_legacy s) (typed_has_matcher s)
    (typed_matches_retained s)
    (fun previous => typed_render_diff s
       match previous with
       | Known previous => match typed_from_value s previous with Some p => Known p | None => Unknown end
       | Absent => Absent
       | Unknown => Unknown
       end).

(** [ExtensionWorldStateSection]: a section contributed by an extension keeps its snapshot as JSON. *)
Definition erase_extension (s : WorldStateSection Json) : ErasedSection :=
  mkErased (typed_snapshot s ≫= clean_snapshot) (typed_matches_legacy s) (typed_has_matcher s)
    (typed_matches_retained s) (typed_render_diff s).

Record WorldState := mkWorld { world_sections : list (str * ErasedSection) }.

(** [add_section] and [add_extension_section]: a second section with the same id panics. *)
Definition add_section (id : str) (s : ErasedSection) (w : WorldState) : option WorldState :=
  if contains_key id (world_sections w) then None
  else Some (mkWorld (map_insert id s (world_sections w))).

Definition snapshot (w : WorldState) : WorldStateSnapshot :=
  mkSnapshot (list_to_map
    (omap (fun '(id, section) => snapshot ← erased_snapshot section; Some (id, snapshot)) (world_sections w))).

Definition render_with (previous : str → ErasedSection → PreviousSectionState Json) (w : WorldState) : list Fragment :=
  omap (fun '(id, section) => erased_render_diff section (previous id section)) (world_sections w).

Definition render_full (w : WorldState) : list Fragment := render_with (fun _ _ => Absent) w.

Definition render_diff (previous : WorldStateSnapshot) (w : WorldState) : list Fragment :=
  render_with (fun id _ => match snapshot_sections previous !! id with Some p => Known p | None => Absent end) w.

Definition has_fragment (matches : str → str → bool) (items : list ResponseItem) : bool :=
  existsb (fun item =>
    match item with
    | Message _ role content _ _ =>
        existsb (fun c => match c with InputText text => matches role text | _ => false end) content
    | _ => false
    end) items.

Definition has_retained_fragment (items : list ResponseItem) (section : ErasedSection) : bool :=
  has_fragment (matches_retained_fragment section) items.
Definition has_legacy_fragment (items : list ResponseItem) (section : ErasedSection) : bool :=
  has_fragment (matches_legacy_fragment section) items.

Definition render_history_diff (previous : option WorldStateSnapshot) (items : list ResponseItem) (w : WorldState) :
    list Fragment :=
  render_with (fun id section =>
    match previous ≫= (fun previous => snapshot_sections previous !! id) with
    | Some previous =>
        if has_retained_fragment_matcher section && negb (has_retained_fragment items section)
        then Absent else Known previous
    | None => if has_legacy_fragment items section then Unknown else Absent
    end) w.
End world.
Arguments ErasedSection : clear implicits.
Arguments WorldState : clear implicits.
Arguments WorldStateSection : clear implicits.
Arguments typed_snapshot {_ _}. Arguments typed_from_value {_ _}. Arguments typed_matches_legacy {_ _}.
Arguments typed_has_matcher {_ _}. Arguments typed_matches_retained {_ _}. Arguments typed_render_diff {_ _}.
