(* ===== verification/WorldStateFacts.v ===== *)
(** * Merge patches restore what they were made from

    Values are compared up to the order of object keys ([≡]).  The patch between two
    snapshots, applied to the first, gives the second, provided that the second holds no
    [null] in an object: [remove_null_object_fields] sees to that. *)

From stdpp Require Import sorting.
From S2P Require Import Prelude RustStr ResponseModel WorldState.

(** ** Association lists as maps *)

Lemma assoc_Some_in {A} k (v : A) m : assoc k m = Some v → (k, v) ∈ m.
Proof.
  induction m as [|[k' u] m IH]; cbn; [done|]. destruct (seqb k k') eqn:E; [|set_solver].
  apply seqb_eq in E as ->. intros [= ->]. set_solver.
Qed.

Lemma assoc_None {A} k (m : list (str * A)) : assoc k m = None ↔ k ∉ keys m.
Proof.
  induction m as [|[k' u] m IH]; cbn; [set_solver|]. destruct (seqb k k') eqn:E.
  - apply seqb_eq in E as ->. set_solver.
  - apply seqb_neq in E. rewrite IH. set_solver.
Qed.

Lemma assoc_in {A} k (v : A) m : NoDup (keys m) → (k, v) ∈ m → assoc k m = Some v.
Proof.
  induction m as [|[k' u] m IH]; cbn; [set_solver|]. intros [Hk Hm]%NoDup_cons Hin.
  destruct (seqb k k') eqn:E.
  - apply seqb_eq in E as ->. apply elem_of_cons in Hin as [[= ->]|Hin]; [done|].
    exfalso. apply Hk. apply (list_elem_of_fmap_2 fst) in Hin. done.
  - apply seqb_neq in E. apply IH; [done|]. set_solver.
Qed.

Lemma assoc_insert {A} k k' (v : A) m : assoc k (map_insert k' v m) = if decide (k = k') then Some v else assoc k m.
Proof.
  induction m as [|[k0 u] m IH]; cbn.
  - case_decide as E; [by rewrite (proj2 (seqb_eq _ _) E)|by rewrite (proj2 (seqb_neq _ _) E)].
  - destruct (seqb k' k0) eqn:E0; cbn.
    + apply seqb_eq in E0 as ->. case_decide as E; [by rewrite (proj2 (seqb_eq _ _) E)|by rewrite (proj2 (seqb_neq _ _) E)].
    + rewrite IH. apply seqb_neq in E0. case_decide as E; [|done]. subst. by rewrite (proj2 (seqb_neq _ _) E0).
Qed.

Lemma keys_insert {A} k (v : A) m : NoDup (keys m) → NoDup (keys (map_insert k v m)).
Proof.
  assert (Hk : ∀ x (m : list (str * A)), x ∈ keys (map_insert k v m) → x = k ∨ x ∈ keys m).
  { intros x l. destruct (decide (x ∈ keys (map_insert k v l))) as [H|]; [|done]. intros _.
    destruct (decide (x = k)) as [|Hx]; [by left|right]. destruct (decide (x ∈ keys l)) as [|Hn]; [done|].
    apply assoc_None in Hn. exfalso. apply (proj1 (assoc_None x (map_insert k v l))); [|done].
    rewrite assoc_insert. by rewrite decide_False. }
  induction m as [|[k' u] m IH]; cbn; intros Hm; [repeat constructor; set_solver|].
  apply NoDup_cons in Hm as [Hk' Hm]. destruct (seqb k k') eqn:E; cbn; constructor; try done.
  - by apply seqb_eq in E as ->.
  - apply seqb_neq in E. intros [->|?]%Hk; done.
  - by apply IH.
Qed.

Lemma last_removelast {A} (m : list A) e : last m = Some e → Permutation (e :: removelast m) m.
Proof.
  intros [l ->]%last_Some. rewrite removelast_app by done. cbn. rewrite app_nil_r.
  by rewrite Permutation_cons_append.
Qed.

(** Removing a key leaves the other entries, in some order. *)
Lemma map_remove_perm {A} k (v : A) m : assoc k m = Some v → Permutation m ((k, v) :: map_remove k m).
Proof.
  induction m as [|[k' u] m IH]; cbn; [done|]. destruct (seqb k k') eqn:E.
  - apply seqb_eq in E as ->. intros [= ->]. apply perm_skip. destruct (last m) as [e|] eqn:El.
    + by rewrite (last_removelast m e).
    + by apply last_None in El as ->.
  - intros H%IH. by rewrite perm_swap, <- H.
Qed.

Lemma map_remove_absent {A} k (m : list (str * A)) : assoc k m = None → map_remove k m = m.
Proof. induction m as [|[k' u] m IH]; cbn; [done|]. destruct (seqb k k'); [done|]. by intros ->%IH. Qed.

Lemma assoc_perm {A} k (m m' : list (str * A)) : NoDup (keys m) → Permutation m m' → assoc k m = assoc k m'.
Proof.
  intros Hm Hp. assert (Hm' : NoDup (keys m')) by (unfold keys; by rewrite <- Hp).
  destruct (assoc k m') as [v|] eqn:E.
  - apply assoc_in; [done|]. rewrite Hp. by apply assoc_Some_in.
  - apply assoc_None. apply assoc_None in E. unfold keys. by rewrite Hp.
Qed.

Lemma keys_remove {A} k (m : list (str * A)) : NoDup (keys m) → NoDup (keys (map_remove k m)).
Proof.
  intros Hm. destruct (assoc k m) as [v|] eqn:E; [|by rewrite map_remove_absent].
  apply map_remove_perm in E. unfold keys in *. rewrite E in Hm. cbn in Hm. by apply NoDup_cons in Hm as [_ ?].
Qed.

Lemma assoc_remove {A} k k' (m : list (str * A)) :
  NoDup (keys m) → assoc k (map_remove k' m) = if decide (k = k') then None else assoc k m.
Proof.
  intros Hm. destruct (assoc k' m) as [v|] eqn:E.
  - pose proof (map_remove_perm _ _ _ E) as Hp. rewrite (assoc_perm k m _ Hm Hp). cbn.
    assert (Hn : NoDup (k' :: keys (map_remove k' m))) by (unfold keys in *; by rewrite Hp in Hm).
    apply NoDup_cons in Hn as [Hn _]. case_decide as Ek.
    + subst. by apply assoc_None.
    + by rewrite (proj2 (seqb_neq _ _) Ek).
  - rewrite map_remove_absent by done. case_decide; by subst.
Qed.

(** ** Values up to the order of keys *)

Inductive json_equiv : Equiv Json :=
| equiv_null : JNull ≡ JNull
| equiv_bool b : JBool b ≡ JBool b
| equiv_number s : JNumber s ≡ JNumber s
| equiv_string s : JString s ≡ JString s
| equiv_array l l' : Forall2 json_equiv l l' → JArray l ≡ JArray l'
| equiv_object f g : (∀ k, option_Forall2 json_equiv (assoc k f) (assoc k g)) → JObject f ≡ JObject g.
#[export] Existing Instance json_equiv.

(** Induction over values, with the hypothesis for every element and field. *)
Section json_ind.
Context (P : Json → Prop).
Context (Hnull : P JNull) (Hbool : ∀ b, P (JBool b)) (Hnumber : ∀ s, P (JNumber s)) (Hstring : ∀ s, P (JString s)).
Context (Harray : ∀ l, Forall P l → P (JArray l)).
Context (Hobject : ∀ f, (∀ k v, (k, v) ∈ f → P v) → P (JObject f)).

Fixpoint json_induction (v : Json) : P v.
Proof.
  destruct v as [|b|s|s|l|f]; [apply Hnull|apply Hbool|apply Hnumber|apply Hstring|apply Harray|apply Hobject].
  - induction l as [|x l IH]; constructor; [apply json_induction|exact IH].
  - assert (H : Forall (fun e => P (snd e)) f).
    { induction f as [|[k' u] f IH]; constructor; [apply json_induction|exact IH]. }
    clear json_induction. rewrite Forall_forall in H. intros k v Hin. exact (H _ Hin).
Qed.
End json_ind.

Lemma option_Forall2_refl_in (R : relation Json) (o : option Json) : (∀ v, o = Some v → R v v) → option_Forall2 R o o.
Proof. destruct o; constructor; eauto. Qed.

#[export] Instance json_equiv_equivalence : Equivalence (≡@{Json}).
Proof.
  split.
  - intros v. induction v as [|b0|s0|s0|l IH|f IH] using json_induction; constructor.
    + induction IH; constructor; auto.
    + intros k. apply option_Forall2_refl_in. intros v H%assoc_Some_in. by eapply IH.
  - intros a. induction a as [|b0|s0|s0|l IH|f IH] using json_induction; intros b H; inversion H as [| | | |? l' Hl|? g Hg]; subst;
      try by constructor.
    + constructor. clear H. induction Hl; constructor; apply Forall_cons in IH as [Hx IH]; [by apply Hx|by apply IHHl].
    + constructor. intros k. specialize (Hg k). inversion Hg as [x y Hxy Hx Hy|]; constructor.
      eapply IH; [by apply assoc_Some_in|done].
  - intros a. induction a as [|b0|s0|s0|l IH|f IH] using json_induction; intros b c H1 H2;
      inversion H1 as [| | | |? l' Hl|? g Hg]; subst; inversion H2 as [| | | |? l2 Hl2|? h Hh]; subst; try by constructor.
    + constructor. clear H1 H2. revert l2 Hl2. induction Hl; intros l2 Hl2; inversion Hl2; subst; constructor;
        apply Forall_cons in IH as [Hx IH]; [by eapply Hx|by apply IHHl].
    + constructor. intros k. specialize (Hg k). specialize (Hh k).
      inversion Hg as [x y Hxy Hx Hy|Hx Hy]; rewrite <- Hy in Hh; inversion Hh; constructor.
      eapply IH; [by apply assoc_Some_in|done|done].
Qed.

(** A value is well formed when no object has a key twice, as in a [Map]. *)
Fixpoint json_wf (v : Json) : bool :=
  match v with
  | JArray l => forallb json_wf l
  | JObject f => bool_decide (NoDup (keys f)) && forallb (fun '(_, v) => json_wf v) f
  | _ => true
  end.

Lemma json_wf_object f :
  json_wf (JObject f) = true ↔ NoDup (keys f) ∧ ∀ k v, assoc k f = Some v → json_wf v = true.
Proof.
  cbn. rewrite andb_true_iff, bool_decide_eq_true, forallb_forall. split; intros [Hn Hf]; split; try done.
  - intros k v Hv%assoc_Some_in. by apply (Hf (k, v)), list_elem_of_In.
  - intros [k v] Hin%list_elem_of_In. eapply Hf. by apply assoc_in.
Qed.

(** No object holds a [null]; an array may. *)
Fixpoint null_free (v : Json) : bool :=
  match v with
  | JObject f => forallb (fun '(_, v) => negb (is_null v) && null_free v) f
  | _ => true
  end.

Lemma null_free_field f k v :
  null_free (JObject f) = true → assoc k f = Some v → is_null v = false ∧ null_free v = true.
Proof.
  cbn. rewrite forallb_forall. intros Hf Hv%assoc_Some_in%list_elem_of_In.
  specialize (Hf (k, v) Hv). cbn in Hf. by destruct (is_null v).
Qed.

(** [Value::eq] answers [true] only for values that agree up to the order of keys. *)
Lemma json_eqb_sound a b : json_wf a = true → json_wf b = true → json_eqb a b = true → a ≡ b.
Proof.
  revert b. induction a as [|x|s|s|l IH|f IH] using json_induction; intros [|y|t|t|l'|g] Ha Hb H; try discriminate H.
  - constructor.
  - apply Bool.eqb_prop in H as ->. constructor.
  - apply seqb_eq in H as ->. constructor.
  - apply seqb_eq in H as ->. constructor.
  - constructor. revert l' Hb H. cbn in Ha. induction IH as [|x l Hx _ IHl]; intros [|y l'] Hb H; try discriminate H; constructor.
    + cbn in Ha, Hb, H. apply andb_prop in Ha as [Ha _], Hb as [Hb _], H as [H _]. by apply Hx.
    + cbn in Ha, Hb, H. apply andb_prop in Ha as [_ Ha], Hb as [_ Hb], H as [_ H]. by apply IHl.
  - apply json_wf_object in Ha as [Hf Hfw], Hb as [Hg Hgw]. cbn in H. apply andb_prop in H as [Hlen H].
    apply Nat.eqb_eq in Hlen. rewrite forallb_forall in H.
    assert (Hsome : ∀ k v, assoc k f = Some v → ∃ u, assoc k g = Some u ∧ v ≡ u).
    { intros k v Hv. pose proof (assoc_Some_in _ _ _ Hv) as Hin. specialize (H (k, v) (proj1 (list_elem_of_In _ _) Hin)).
      cbn in H. destruct (assoc k g) as [u|] eqn:E; [|done]. exists u. split; [done|]. eapply IH; eauto. }
    assert (Hsub : keys f ⊆ keys g).
    { intros k Hk. destruct (assoc k f) as [v|] eqn:E; [|by apply assoc_None in E].
      destruct (Hsome k v E) as (u & Hu & _). destruct (decide (k ∈ keys g)) as [|Hn]; [done|].
      apply assoc_None in Hn. congruence. }
    constructor. intros k. destruct (assoc k f) as [v|] eqn:E.
    + destruct (Hsome k v E) as (u & -> & Hu). by constructor.
    + destruct (assoc k g) as [u|] eqn:E'; [exfalso|constructor].
      apply assoc_None in E. apply E.
      assert (Hperm : keys f ≡ₚ keys g).
      { apply submseteq_length_Permutation; [by apply NoDup_submseteq|]. unfold keys. rewrite !length_map. lia. }
      rewrite Hperm. destruct (decide (k ∈ keys g)) as [|Hn]; [done|]. apply assoc_None in Hn. congruence.
Qed.

(** ** Applying and creating patches, key by key *)

Section fields.
Context (app : Json → Json → Json).
#[local] Abbreviation step := (fun target '(k, value) =>
  if is_null value then map_remove k target
  else map_insert k (app (default JNull (assoc k target)) value) target) (only parsing).

Lemma assoc_apply_fields patch target k :
  NoDup (keys patch) → NoDup (keys target) →
  assoc k (fold_left step patch target) =
    match assoc k patch with
    | None => assoc k target
    | Some v => if is_null v then None else Some (app (default JNull (assoc k target)) v)
    end.
Proof.
  revert target. induction patch as [|[k' v] patch IH]; cbn [fold_left assoc keys map fst]; intros target; [done|].
  intros [Hk' Hp]%NoDup_cons Ht. rewrite IH; [|done|by destruct (is_null v); [apply keys_remove|apply keys_insert]].
  destruct (seqb k k') eqn:E.
  - apply seqb_eq in E as ->. rewrite (proj2 (assoc_None k' patch)) by done.
    destruct (is_null v); [by rewrite assoc_remove, decide_True|by rewrite assoc_insert, decide_True].
  - apply seqb_neq in E. assert (Ht' : assoc k (if is_null v then map_remove k' target
      else map_insert k' (app (default JNull (assoc k' target)) v) target) = assoc k target).
    { destruct (is_null v); [by rewrite assoc_remove, decide_False|by rewrite assoc_insert, decide_False]. }
    by rewrite Ht'.
Qed.
End fields.

Section patch.
Context (diff : Json → Json → option Json) (previous : option (list (str * Json))).
#[local] Abbreviation step := (fun patch '(k, current_value) =>
  match previous ≫= assoc k with
  | None => map_insert k current_value patch
  | Some previous_value =>
      match diff previous_value current_value with
      | Some value_patch => map_insert k value_patch patch
      | None => patch
      end
  end) (only parsing).

(** What the patch says about a key. *)
Definition field_patch (u v : option Json) (rest : option Json) : option Json :=
  match v, u with
  | None, _ => rest
  | Some v, None => Some v
  | Some v, Some u => match diff u v with Some p => Some p | None => rest end
  end.

Lemma assoc_patch_fields current patch k :
  NoDup (keys current) →
  assoc k (fold_left step current patch) = field_patch (previous ≫= assoc k) (assoc k current) (assoc k patch).
Proof.
  revert patch. induction current as [|[k' v] current IH]; cbn [fold_left assoc keys map fst]; intros patch; [done|].
  intros [Hk' Hc]%NoDup_cons. rewrite IH by done. destruct (seqb k k') eqn:E.
  - apply seqb_eq in E as ->. rewrite (proj2 (assoc_None k' current)) by done. cbn.
    destruct (previous ≫= assoc k') as [u|]; [destruct (diff u v)|]; rewrite ?assoc_insert, ?decide_True by done; done.
  - apply seqb_neq in E. f_equal. destruct (previous ≫= assoc k') as [u|]; [destruct (diff u v)|];
      rewrite ?assoc_insert, ?decide_False by done; done.
Qed.

Lemma keys_patch_fields current patch : NoDup (keys patch) → NoDup (keys (fold_left step current patch)).
Proof.
  revert patch. induction current as [|[k v] current IH]; intros patch Hp; [done|]. apply IH.
  destruct (previous ≫= assoc k) as [u|]; [destruct (diff u v)|]; auto using keys_insert.
Qed.
End patch.

(** The deletions of a patch. *)
Lemma assoc_removed (current previous : list (str * Json)) k :
  assoc k (foldl (fun patch '(k, _) => if contains_key k current then patch else map_insert k JNull patch) [] previous) =
    match assoc k current, assoc k previous with None, Some _ => Some JNull | _, _ => None end.
Proof.
  assert (H : ∀ acc, assoc k (foldl (fun patch '(k, _) => if contains_key k current then patch
      else map_insert k JNull patch) acc previous) =
    match assoc k current, assoc k previous with None, Some _ => Some JNull | _, _ => assoc k acc end).
  { induction previous as [|[k' v] previous IH]; intros acc; [by destruct (assoc k current)|]. cbn [foldl assoc].
    rewrite IH. unfold contains_key. destruct (seqb k k') eqn:E.
    - apply seqb_eq in E as ->. destruct (assoc k' current); [done|]. rewrite assoc_insert, decide_True by done.
      by destruct (assoc k' previous).
    - apply seqb_neq in E. destruct (assoc k' current); [done|]. by rewrite assoc_insert, decide_False by done. }
  rewrite H. by destruct (assoc k current), (assoc k previous).
Qed.

Lemma keys_removed (current previous : list (str * Json)) acc :
  NoDup (keys acc) →
  NoDup (keys (foldl (fun patch '(k, _) => if contains_key k current then patch else map_insert k JNull patch) acc previous)).
Proof.
  revert acc. induction previous as [|[k v] previous IH]; intros acc Ha; [done|]. apply IH.
  case_match; auto using keys_insert.
Qed.

(** A value put where there is none. *)
Lemma apply_fresh v : json_wf v = true → null_free v = true → apply_merge_patch_value JNull v ≡ v.
Proof.
  induction v as [| | | | |f IH] using json_induction; intros Hw Hn; try reflexivity.
  apply json_wf_object in Hw as [Hk Hw]. cbn. constructor. intros k.
  rewrite assoc_apply_fields by (done || constructor). destruct (assoc k f) as [v|] eqn:E; [|constructor].
  destruct (null_free_field _ _ _ Hn E) as [-> Hv]. constructor. eapply IH; eauto using assoc_Some_in.
Qed.

(** The patch from one value to another, applied to the first, gives the second. *)
Lemma apply_create previous current :
  json_wf previous = true → json_wf current = true → null_free current = true →
  match create_merge_patch previous current with
  | None => previous ≡ current
  | Some patch => apply_merge_patch_value previous patch ≡ current ∧ is_null patch = is_null current
  end.
Proof.
  revert previous. induction current as [| | | | |f IH] using json_induction; intros previous Hp Hc Hn;
    cbn [create_merge_patch]; destruct (json_eqb previous _) eqn:Heq; try by split.
  all: try by apply json_eqb_sound.
  split; [|done]. apply json_wf_object in Hc as [Hk Hw].
  assert (Hprev : NoDup (keys (default [] (as_object previous))) ∧
    ∀ k v, assoc k (default [] (as_object previous)) = Some v → json_wf v = true).
  { destruct previous; try (split; [constructor|done]). by apply json_wf_object in Hp. }
  destruct Hprev as [Hpk Hpw]. cbn [apply_merge_patch_value]. constructor. intros k.
  rewrite assoc_apply_fields; [|apply keys_patch_fields|done].
  2: { destruct (as_object previous); [apply keys_removed|]; constructor. }
  rewrite assoc_patch_fields by done.
  assert (Hu : as_object previous ≫= assoc k = assoc k (default [] (as_object previous))) by by destruct (as_object previous).
  rewrite Hu. destruct (assoc k f) as [v|] eqn:Ev; cbn [field_patch].
  - destruct (null_free_field _ _ _ Hn Ev) as [Hv0 Hv].
    destruct (assoc k (default [] (as_object previous))) as [u|] eqn:Eu.
    + specialize (IH k v (assoc_Some_in _ _ _ Ev) u (Hpw _ _ Eu) (Hw _ _ Ev) Hv).
      destruct (create_merge_patch u v) as [p|].
      * destruct IH as [IH ->]. rewrite Hv0. by constructor.
      * destruct (as_object previous) as [fp|]; cbn [default from_option id] in *; [|done].
        rewrite assoc_removed, Ev. by constructor.
    + rewrite Hv0. constructor. by apply apply_fresh; [eapply Hw|].
  - destruct (as_object previous) as [fp|]; cbn [default from_option id] in *; [|constructor].
    rewrite assoc_removed, Ev. destruct (assoc k fp); constructor.
Qed.

(** ** Well-formedness is kept *)

Lemma json_wf_fields (f : list (str * Json)) :
  NoDup (keys f) → (∀ k v, assoc k f = Some v → json_wf v = true) → json_wf (JObject f) = true.
Proof. intros. by apply json_wf_object. Qed.

Lemma object_fields_wf v :
  json_wf v = true → NoDup (keys (default [] (as_object v))) ∧
    ∀ k u, assoc k (default [] (as_object v)) = Some u → json_wf u = true.
Proof. destruct v; try (intros _; split; [constructor|done]). by intros ?%json_wf_object. Qed.

Lemma keys_apply_fields app patch target :
  NoDup (keys target) →
  NoDup (keys (fold_left (fun target '(k, value) =>
    if is_null value then map_remove k target
    else map_insert k (app (default JNull (assoc k target)) value) target) patch target)).
Proof.
  revert target. induction patch as [|[k v] patch IH]; intros target Ht; [done|]. apply IH.
  destruct (is_null v); [by apply keys_remove|by apply keys_insert].
Qed.

Lemma apply_wf t p : json_wf t = true → json_wf p = true → json_wf (apply_merge_patch_value t p) = true.
Proof.
  revert t. induction p as [| | | | |f IH] using json_induction; intros t Ht Hp; try done.
  destruct (object_fields_wf t Ht) as [Hk Hw]. apply json_wf_object in Hp as [Hpk Hpw].
  apply json_wf_fields; [by apply keys_apply_fields|]. intros k v. rewrite assoc_apply_fields by done.
  destruct (assoc k f) as [u|] eqn:E; [|apply Hw]. destruct (is_null u); [done|]. intros [= <-].
  eapply IH; [by apply assoc_Some_in| |by eapply Hpw].
  destruct (assoc k (default [] (as_object t))) eqn:Et; [by eapply Hw|done].
Qed.

Lemma create_wf previous current p :
  json_wf previous = true → json_wf current = true → create_merge_patch previous current = Some p → json_wf p = true.
Proof.
  revert previous p. induction current as [| | | | |f IH] using json_induction; intros previous p Hp Hc;
    cbn [create_merge_patch]; destruct (json_eqb previous _); try done; intros [= <-]; try done.
  destruct (object_fields_wf previous Hp) as [_ Hpw]. apply json_wf_object in Hc as [Hk Hw].
  apply json_wf_fields.
  - apply keys_patch_fields. destruct (as_object previous); [apply keys_removed|]; constructor.
  - intros k v. rewrite assoc_patch_fields by done.
    assert (Hr : ∀ w, assoc k (match as_object previous with
       | Some previous => foldl (fun patch '(k, _) => if contains_key k f then patch else map_insert k JNull patch) [] previous
       | None => [] end) = Some w → json_wf w = true).
    { intros w. destruct (as_object previous) as [fp|]; [|done]. rewrite assoc_removed.
      destruct (assoc k f), (assoc k fp); by intros [= <-]. }
    unfold field_patch. destruct (assoc k f) as [u|] eqn:Eu; [|apply Hr].
    destruct (as_object previous ≫= assoc k) as [u'|] eqn:Eu'; [|intros [= <-]; by eapply Hw].
    destruct (create_merge_patch u' u) as [q|] eqn:Eq; [|apply Hr]. intros [= <-].
    eapply IH; [by apply assoc_Some_in| |by eapply Hw|done].
    apply (Hpw k). by destruct (as_object previous).
Qed.

(** Patches cannot tell values apart that differ in the order of keys. *)
Lemma apply_equiv t t' p :
  json_wf t = true → json_wf t' = true → json_wf p = true → t ≡ t' →
  apply_merge_patch_value t p ≡ apply_merge_patch_value t' p.
Proof.
  revert t t'. induction p as [| | | | |f IH] using json_induction; intros t t' Ht Ht' Hp E; try reflexivity.
  destruct (object_fields_wf t Ht) as [Hk Hw]. destruct (object_fields_wf t' Ht') as [Hk' Hw'].
  apply json_wf_object in Hp as [Hpk Hpw].
  assert (Hf : ∀ k, option_Forall2 (≡) (assoc k (default [] (as_object t))) (assoc k (default [] (as_object t')))).
  { intros k. destruct E; try constructor. apply H. }
  cbn. constructor. intros k. rewrite !assoc_apply_fields by done. specialize (Hf k).
  destruct (assoc k f) as [u|] eqn:Eu; [|done]. destruct (is_null u); constructor.
  assert (Hd : ∀ m, (∀ x v, assoc x m = Some v → json_wf v = true) → json_wf (default JNull (assoc k m)) = true).
  { intros m Hm. destruct (assoc k m) eqn:Em; [by eapply Hm|done]. }
  eapply IH; [by apply assoc_Some_in|by apply Hd|by apply Hd|by eapply Hpw|].
  by destruct Hf.
Qed.

(** Cleaning a value leaves no [null] in an object. *)
Lemma remove_null_assoc (f : list (str * Json)) k :
  NoDup (keys f) →
  assoc k (foldr (fun '(k, v) rest => if is_null v then rest else (k, remove_null_object_fields v) :: rest) [] f) =
    v ← assoc k f; if is_null v then None else Some (remove_null_object_fields v).
Proof.
  induction f as [|[k' v] f IH]; cbn [foldr assoc keys map fst]; [done|]. intros [Hk Hf]%NoDup_cons.
  specialize (IH Hf). destruct (seqb k k') eqn:E.
  - apply seqb_eq in E as ->. destruct (is_null v) eqn:Ev; cbn [assoc mbind option_bind]; rewrite ?Ev.
    + by rewrite IH, (proj2 (assoc_None k' f)).
    + by rewrite seqb_refl.
  - destruct (is_null v); cbn [assoc]; by rewrite ?E, IH.
Qed.

Lemma remove_null_keys (f : list (str * Json)) :
  NoDup (keys f) →
  NoDup (keys (foldr (fun '(k, v) rest => if is_null v then rest else (k, remove_null_object_fields v) :: rest) [] f)).
Proof.
  intros Hf. pose proof (fun k => remove_null_assoc f k Hf) as Ha. induction f as [|[k v] f IH]; [constructor|].
  apply NoDup_cons in Hf as [Hk Hf]. pose proof (IH Hf (fun k => remove_null_assoc f k Hf)) as IH'.
  cbn [foldr]. destruct (is_null v); [done|]. constructor; [|done].
  change (k ∉ keys (foldr (fun '(k, v) rest => if is_null v then rest else (k, remove_null_object_fields v) :: rest) [] f)).
  apply assoc_None. rewrite remove_null_assoc by done. by rewrite (proj2 (assoc_None k f)).
Qed.

Lemma clean_snapshot_ok v c :
  json_wf v = true → clean_snapshot v = Some c → json_wf c = true ∧ null_free c = true ∧ is_null c = false.
Proof.
  unfold clean_snapshot. intros Hv. destruct (is_null (remove_null_object_fields v)) eqn:En; [done|]. intros [= <-].
  cut (json_wf (remove_null_object_fields v) = true ∧ null_free (remove_null_object_fields v) = true); [tauto|].
  clear En. induction v as [| | | | |f IH] using json_induction; try done.
  apply json_wf_object in Hv as [Hk Hw].
  assert (Hf : ∀ k u, assoc k (foldr (fun '(k, v) rest => if is_null v then rest
      else (k, remove_null_object_fields v) :: rest) [] f) = Some u →
    is_null u = false ∧ json_wf u = true ∧ null_free u = true).
  { intros k u. rewrite remove_null_assoc by done. destruct (assoc k f) as [w|] eqn:E; [|done]. cbn.
    destruct (is_null w) eqn:Ew; [done|]. intros [= <-]. split; [by destruct w|].
    eapply IH; [by apply assoc_Some_in|by eapply Hw]. }
  split; [apply json_wf_fields; [by apply remove_null_keys|intros k u Hu; by eapply Hf]|].
  cbn [remove_null_object_fields null_free]. apply forallb_forall. intros [k u] Hin%list_elem_of_In.
  destruct (Hf k u) as (-> & _ & ->); [|done]. by apply assoc_in; [apply remove_null_keys|].
Qed.

(** ** Snapshots *)

#[export] Instance snapshot_equiv : Equiv WorldStateSnapshot := fun a b => snapshot_sections a ≡ snapshot_sections b.
#[export] Instance snapshot_equivalence : Equivalence (≡@{WorldStateSnapshot}).
Proof.
  split; unfold equiv, snapshot_equiv.
  - intros a. reflexivity.
  - intros a b H. by symmetry.
  - intros a b c H1 H2. by etrans.
Qed.

Definition snapshot_wf (s : WorldStateSnapshot) : Prop := map_Forall (fun _ v => json_wf v = true) (snapshot_sections s).

(** What a snapshot of the live state satisfies: no section is or holds a [null]. *)
Definition snapshot_clean (s : WorldStateSnapshot) : Prop :=
  map_Forall (fun _ v => json_wf v = true ∧ null_free v = true ∧ is_null v = false) (snapshot_sections s).

Lemma snapshot_clean_wf s : snapshot_clean s → snapshot_wf s.
Proof. intros H k v E. by destruct (H k v E). Qed.

Lemma into_value_fields s :
  ∃ f, into_value s = JObject f ∧ NoDup (keys f) ∧ ∀ k, assoc k f = snapshot_sections s !! k.
Proof.
  eexists. split; [reflexivity|]. set (f := merge_sort _ _).
  assert (Hp : Permutation f (map_to_list (snapshot_sections s))) by apply merge_sort_Permutation.
  assert (Hk : NoDup (keys f)) by (unfold keys; rewrite Hp; apply NoDup_fst_map_to_list).
  split; [done|]. intros k. apply option_eq. intros v. rewrite <- elem_of_map_to_list, <- Hp. split.
  - apply assoc_Some_in.
  - by apply assoc_in.
Qed.

Lemma into_value_wf s : snapshot_wf s → json_wf (into_value s) = true.
Proof.
  destruct (into_value_fields s) as (f & -> & Hk & Hf). intros Hs. apply json_wf_fields; [done|].
  intros k v. rewrite Hf. apply Hs.
Qed.

Lemma into_value_null_free s : snapshot_clean s → null_free (into_value s) = true.
Proof.
  destruct (into_value_fields s) as (f & -> & Hk & Hf). intros Hs. cbn. apply forallb_forall.
  intros [k v] Hin%list_elem_of_In. apply assoc_in in Hin; [|done]. rewrite Hf in Hin.
  by destruct (Hs k v Hin) as (_ & -> & ->).
Qed.

Lemma into_value_equiv a b : into_value a ≡ into_value b ↔ a ≡ b.
Proof.
  destruct (into_value_fields a) as (f & Ea & _ & Hf). destruct (into_value_fields b) as (g & Eb & _ & Hg).
  rewrite Ea, Eb. split.
  - intros H. inversion H as [| | | | |? ? Hk]; subst. intros k. specialize (Hk k). rewrite Hf, Hg in Hk.
    by destruct Hk; constructor.
  - intros H. constructor. intros k. rewrite Hf, Hg. specialize (H k). by destruct H; constructor.
Qed.

(** Any object that is well formed is a snapshot, and is the JSON of that snapshot. *)
Lemma snapshot_from_object v t :
  json_wf v = true → v ≡ into_value t → ∃ s, snapshot_from_value v = Some s ∧ snapshot_wf s ∧ s ≡ t.
Proof.
  destruct (into_value_fields t) as (g & -> & _ & Hg). intros Hv H. inversion H as [| | | | |f ? Hf]; subst.
  apply json_wf_object in Hv as [Hk Hw]. eexists. split; [reflexivity|].
  assert (Hl : ∀ k, (list_to_map f : gmap str Json) !! k = assoc k f).
  { intros k. apply option_eq. intros v. rewrite <- elem_of_list_to_map by done. split; [by apply assoc_in|apply assoc_Some_in]. }
  split.
  - intros k v. cbn. rewrite Hl. apply Hw.
  - intros k. cbn. rewrite Hl, <- Hg. specialize (Hf k). by destruct Hf; constructor.
Qed.

(** The patch from one snapshot to a later one brings a copy of the first up to date. *)
Lemma patch_restores previous restored current :
  snapshot_wf previous → snapshot_wf restored → snapshot_clean current → restored ≡ previous →
  match merge_patch_from current previous with
  | None => restored ≡ current
  | Some patch => ∃ s, apply_merge_patch patch restored = Some s ∧ snapshot_wf s ∧ s ≡ current
  end.
Proof.
  intros Hp Hr Hc E. unfold merge_patch_from, apply_merge_patch.
  pose proof (into_value_wf _ Hp) as Wp. pose proof (into_value_wf _ Hr) as Wr.
  pose proof (into_value_wf _ (snapshot_clean_wf _ Hc)) as Wc.
  pose proof (apply_create _ _ Wp Wc (into_value_null_free _ Hc)) as H.
  destruct (create_merge_patch (into_value previous) (into_value current)) as [patch|] eqn:Ep.
  - destruct H as [H _]. pose proof (create_wf _ _ _ Wp Wc Ep) as Wpatch. apply snapshot_from_object.
    + by apply apply_wf.
    + rewrite <- H. apply apply_equiv; try done. by apply into_value_equiv.
  - by rewrite E, <- into_value_equiv.
Qed.

(** C33: a thread is resumed by applying the recorded merge patches to the recorded snapshot.
    The patch from one snapshot to a later one, applied to any well-formed snapshot that agrees
    with the first, is accepted and gives a well-formed snapshot that agrees with the later one;
    and when no patch is recorded the two agree. *)
Theorem merge_patch_roundtrip previous restored current :
  snapshot_wf previous → snapshot_wf restored → snapshot_clean current → restored ≡ previous →
  match merge_patch_from current previous with
  | None => restored ≡ current
  | Some patch => ∃ s, apply_merge_patch patch restored = Some s ∧ snapshot_wf s ∧ s ≡ current
  end.
Proof. apply patch_restores. Qed.

Lemma merge_patch_roundtrip_witness :
  let before := mkSnapshot {[ lit "env" := JObject [(lit "cwd", JString (lit "/a")); (lit "shell", JString (lit "sh"))] ]} in
  let after := mkSnapshot {[ lit "env" := JObject [(lit "cwd", JString (lit "/b"))] ]} in
  ∃ s, apply_merge_patch (JObject [(lit "env", JObject [(lit "shell", JNull); (lit "cwd", JString (lit "/b"))])]) before = Some s ∧
    snapshot_wf s ∧ s ≡ after.
Proof.
  intros before after.
  assert (Hb : snapshot_wf before) by (apply map_Forall_singleton; vm_compute; reflexivity).
  assert (Ha : snapshot_clean after) by (apply map_Forall_singleton; vm_compute; auto).
  exact (merge_patch_roundtrip before before after Hb Hb Ha (reflexivity before)).
Defined.

(** The snapshot of the live state is clean when its sections report well-formed values. *)
Definition section_wf {F T} (s : WorldStateSection F T) : Prop := ∀ v, typed_snapshot s = Some v → json_wf v = true.

Definition erased_ok {F} (s : ErasedSection F) : Prop :=
  ∀ v, erased_snapshot s = Some v → json_wf v = true ∧ null_free v = true ∧ is_null v = false.

Lemma erase_ok {F T} (s : WorldStateSection F T) : section_wf s → erased_ok (erase s).
Proof.
  intros Hs v. cbn. destruct (typed_snapshot s) as [u|] eqn:E; [|done]. cbn. apply clean_snapshot_ok. by apply Hs.
Qed.

Lemma snapshot_is_clean {F} (w : WorldState F) :
  Forall (fun '(_, s) => erased_ok s) (world_sections w) → snapshot_clean (snapshot w).
Proof.
  intros Hw k v. cbn. intros H%elem_of_list_to_map_2. apply list_elem_of_omap in H as ([id s] & Hin & Hs).
  rewrite Forall_forall in Hw. specialize (Hw _ Hin). cbn in *. destruct (erased_snapshot s) as [u|] eqn:E; [|done].
  cbn in Hs. injection Hs as _ <-. by apply Hw.
Qed.
