(* ===== verification/NetIp.v ===== *)
(** * Addresses and host names

    [codex-rs/network-proxy/src/policy.rs]: the classification of IP addresses that are
    not public and the normal form of hosts.  An IPv4 address is a 32-bit number, an IPv6
    address a 128-bit one; [parse_ip] is [IpAddr]'s parser of the standard library. *)

From S2P Require Import Prelude RustStr MachineInt ContextFragments.
Open Scope N_scope.

(** ** [std::net] *)

Inductive IpAddr := V4 (ip : N) | V6 (ip : N).
#[export] Instance IpAddr_eq_dec : EqDecision IpAddr.
Proof. solve_decision. Defined.

(** [char::to_digit] *)
Definition to_digit (radix : N) (c : char) : option N :=
  let d := if (48 <=? c) && (c <=? 57) then Some (c - 48)
           else if (97 <=? c) && (c <=? 122) then Some (c - 87)
           else if (65 <=? c) && (c <=? 90) then Some (c - 55)
           else None in
  d ← d; if d <? radix then Some d else None.

(** The digits a text starts with, and the rest. *)
Fixpoint digits (radix : N) (s : str) : list N * str :=
  match s with
  | [] => ([], [])
  | c :: s' =>
      match to_digit radix c with
      | Some d => let '(ds, rest) := digits radix s' in (d :: ds, rest)
      | None => ([], s)
      end
  end.

Definition reader (A : Type) := str → option (A * str).

(** [Parser::read_number] *)
Definition read_number (radix : N) (max_digits : nat) (allow_zero_prefix : bool) (max : N) : reader N := fun s =>
  let '(ds, rest) := digits radix s in
  let result := foldl (fun n d => n * radix + d) 0 ds in
  if (max_digits <? length ds)%nat then None
  else match ds with
       | [] => None
       | d :: ds' =>
           if negb allow_zero_prefix && (d =? 0) && match ds' with [] => false | _ => true end then None
           else if result <=? max then Some (result, rest) else None
       end.

Definition read_given_char (c : char) (s : str) : option str := strip_prefix [c] s.

(** [Parser::read_separator] *)
Definition read_separator {A} (sep : char) (index : nat) (inner : reader A) : reader A := fun s =>
  match index with
  | O => inner s
  | S _ => s ← read_given_char sep s; inner s
  end.

Definition read_octet (index : nat) : reader N := read_separator 46 index (read_number 10 3 false 255).

Definition read_ipv4_addr : reader N := fun s =>
  '(a, s) ← read_octet 0 s;
  '(b, s) ← read_octet 1 s;
  '(c, s) ← read_octet 2 s;
  '(d, s) ← read_octet 3 s;
  Some (a * 2 ^ 24 + b * 2 ^ 16 + c * 2 ^ 8 + d, s).

(** [read_groups]: the groups from the [i]-th on, [todo] of them at most, and whether they
    end with an embedded IPv4 address. *)
Fixpoint read_groups (todo i limit : nat) (s : str) : list N * bool * str :=
  match todo with
  | O => ([], false, s)
  | S todo =>
      match (if (i <? limit - 1)%nat then read_separator 58 i read_ipv4_addr s else None) with
      | Some (v4, s) => ([v4 / 2 ^ 16; v4 mod 2 ^ 16], true, s)
      | None =>
          match read_separator 58 i (read_number 16 4 true 65535) s with
          | Some (g, s) => let '(gs, ipv4, s) := read_groups todo (S i) limit s in (g :: gs, ipv4, s)
          | None => ([], false, s)
          end
      end
  end.

Definition ipv6_of_groups (gs : list N) : N := foldl (fun n g => n * 2 ^ 16 + g) 0 gs.

Definition read_ipv6_addr : reader N := fun s =>
  let '(head, head_ipv4, s) := read_groups 8 0 8 s in
  if (length head =? 8)%nat then Some (ipv6_of_groups head, s)
  else if head_ipv4 : bool then None
  else
    s ← read_given_char 58 s;
    s ← read_given_char 58 s;
    let limit := (8 - S (length head))%nat in
    let '(tail, _, s) := read_groups limit 0 limit s in
    Some (ipv6_of_groups (head ++ replicate (8 - length head - length tail) 0 ++ tail), s).

(** [str::parse::<IpAddr>] *)
Definition parse_ip (s : str) : option IpAddr :=
  match read_ipv4_addr s with
  | Some (ip, rest) => if seqb rest [] then Some (V4 ip) else None
  | None =>
      match read_ipv6_addr s with
      | Some (ip, rest) => if seqb rest [] then Some (V6 ip) else None
      | None => None
      end
  end.

(** The predicates of [Ipv4Addr] and [Ipv6Addr]; [octet] and [segment] count from the left. *)
Definition octet (i : N) (ip : N) : N := N.land (N.shiftr ip (8 * (3 - i))) 255.
Definition segment (i : N) (ip : N) : N := N.land (N.shiftr ip (16 * (7 - i))) 65535.

Definition v4_is_loopback (ip : N) : bool := octet 0 ip =? 127.
Definition v4_is_private (ip : N) : bool :=
  (octet 0 ip =? 10) ||
  (octet 0 ip =? 172) && (16 <=? octet 1 ip) && (octet 1 ip <=? 31) ||
  (octet 0 ip =? 192) && (octet 1 ip =? 168).
Definition v4_is_link_local (ip : N) : bool := (octet 0 ip =? 169) && (octet 1 ip =? 254).
Definition v4_is_unspecified (ip : N) : bool := ip =? 0.
Definition v4_is_multicast (ip : N) : bool := (224 <=? octet 0 ip) && (octet 0 ip <=? 239).
Definition v4_is_broadcast (ip : N) : bool := ip =? 2 ^ 32 - 1.

Definition v6_is_loopback (ip : N) : bool := ip =? 1.
Definition v6_is_unspecified (ip : N) : bool := ip =? 0.
Definition v6_is_multicast (ip : N) : bool := N.shiftr ip 120 =? 255.
Definition v6_is_unique_local (ip : N) : bool := N.land (segment 0 ip) 65024 =? 64512.
Definition v6_is_unicast_link_local (ip : N) : bool := N.land (segment 0 ip) 65472 =? 65152.

(** [Ipv6Addr::to_ipv4]: IPv4-mapped and IPv4-compatible addresses. *)
Definition v6_to_ipv4 (ip : N) : option N :=
  if forallb (fun i => segment i ip =? 0) [0; 1; 2; 3; 4] && ((segment 5 ip =? 0) || (segment 5 ip =? 65535))
  then Some (segment 6 ip * 2 ^ 16 + segment 7 ip)
  else None.

Definition is_loopback (ip : IpAddr) : bool :=
  match ip with V4 ip => v4_is_loopback ip | V6 ip => v6_is_loopback ip end.

(** ** [policy.rs]: addresses *)

Definition ipv4_of (a b c d : N) : N := a * 2 ^ 24 + b * 2 ^ 16 + c * 2 ^ 8 + d.

Definition U32_MAX : N := 2 ^ 32 - 1.

Definition ipv4_in_cidr (ip base prefix : N) : bool :=
  let mask := if prefix =? 0 then 0 else N.land (N.shiftl U32_MAX (32 - prefix)) U32_MAX in
  N.land ip mask =? N.land base mask.

Definition is_non_public_ipv4 (ip : N) : bool :=
  v4_is_loopback ip || v4_is_private ip || v4_is_link_local ip || v4_is_unspecified ip ||
  v4_is_multicast ip || v4_is_broadcast ip ||
  ipv4_in_cidr ip (ipv4_of 0 0 0 0) 8 ||
  ipv4_in_cidr ip (ipv4_of 100 64 0 0) 10 ||
  ipv4_in_cidr ip (ipv4_of 192 0 0 0) 24 ||
  ipv4_in_cidr ip (ipv4_of 192 0 2 0) 24 ||
  ipv4_in_cidr ip (ipv4_of 198 18 0 0) 15 ||
  ipv4_in_cidr ip (ipv4_of 198 51 100 0) 24 ||
  ipv4_in_cidr ip (ipv4_of 203 0 113 0) 24 ||
  ipv4_in_cidr ip (ipv4_of 240 0 0 0) 4.

Definition is_non_public_ipv6 (ip : N) : bool :=
  match v6_to_ipv4 ip with
  | Some v4 => is_non_public_ipv4 v4 || v6_is_loopback ip
  | None =>
      v6_is_loopback ip || v6_is_unspecified ip || v6_is_multicast ip || v6_is_unique_local ip ||
      v6_is_unicast_link_local ip
  end.

Definition is_non_public_ip (ip : IpAddr) : bool :=
  match ip with V4 ip => is_non_public_ipv4 ip | V6 ip => is_non_public_ipv6 ip end.

(** ** [policy.rs]: hosts *)

Definition unscoped_ip_literal (host : str) : option str :=
  '(ip, _) ← split_once [37] host;
  _ ← parse_ip ip;
  Some ip.

Definition normalize_ip_literal (host : str) : option str :=
  match parse_ip host with
  | Some _ => Some host
  | None =>
      let scoped (delimiter : str) :=
        match split_once delimiter host with
        | Some (ip, scope) => match parse_ip ip with Some _ => Some (ip ++ lit "%" ++ scope) | None => None end
        | None => None
        end in
      match scoped (lit "%25") with Some h => Some h | None => scoped (lit "%") end
  end.

Definition normalize_dns_host_or_ip_literal (host : str) : str :=
  let host := trim_end_matches 46 (to_ascii_lowercase host) in
  match normalize_ip_literal host with
  | Some ip => ip
  | None => host
  end.

Definition normalize_host (host : str) : str :=
  let host := trim host in
  let unbracketed :=
    match host with
    | 91 :: rest => fst <$> split_once [93] rest
    | _ => None
    end in
  match unbracketed with
  | Some inner => normalize_dns_host_or_ip_literal inner
  | None =>
      if (count_char 58 host =? 1)%nat
      then match split_on 58 host with
           | h :: _ => normalize_dns_host_or_ip_literal h
           | [] => normalize_dns_host_or_ip_literal []
           end
      else normalize_dns_host_or_ip_literal host
  end.

(** [Host::parse] *)
Definition host_parse (input : str) : option str :=
  let normalized := normalize_host input in
  if seqb normalized [] then None else Some normalized.

Definition is_loopback_host (host : str) : bool :=
  let host := default host (unscoped_ip_literal host) in
  if seqb host (lit "localhost") then true
  else match parse_ip host with
       | Some ip => is_loopback ip
       | None => false
       end.

(** ** The non-public IPv4 addresses as ranges *)

(** First and last address of every block the classification rejects. *)
Definition non_public_blocks : list (N * N) :=
  [ (ipv4_of 0 0 0 0, ipv4_of 0 255 255 255);
    (ipv4_of 10 0 0 0, ipv4_of 10 255 255 255);
    (ipv4_of 100 64 0 0, ipv4_of 100 127 255 255);
    (ipv4_of 127 0 0 0, ipv4_of 127 255 255 255);
    (ipv4_of 169 254 0 0, ipv4_of 169 254 255 255);
    (ipv4_of 172 16 0 0, ipv4_of 172 31 255 255);
    (ipv4_of 192 0 0 0, ipv4_of 192 0 0 255);
    (ipv4_of 192 0 2 0, ipv4_of 192 0 2 255);
    (ipv4_of 192 168 0 0, ipv4_of 192 168 255 255);
    (ipv4_of 198 18 0 0, ipv4_of 198 19 255 255);
    (ipv4_of 198 51 100 0, ipv4_of 198 51 100 255);
    (ipv4_of 203 0 113 0, ipv4_of 203 0 113 255);
    (ipv4_of 224 0 0 0, ipv4_of 239 255 255 255);
    (ipv4_of 240 0 0 0, ipv4_of 255 255 255 255) ].

Lemma octet_div i ip : i <= 3 → octet i ip = (ip / 2 ^ (8 * (3 - i))) mod 2 ^ 8.
Proof. intros _. unfold octet. rewrite N.shiftr_div_pow2. change 255 with (N.ones 8). apply N.land_ones. Qed.

(** A mask of a prefix keeps the upper bits. *)
Lemma in_cidr_div ip base prefix :
  ip < 2 ^ 32 → base < 2 ^ 32 → 0 < prefix <= 32 →
  ipv4_in_cidr ip base prefix = (ip / 2 ^ (32 - prefix) =? base / 2 ^ (32 - prefix)).
Proof.
  intros Hip Hbase Hp. unfold ipv4_in_cidr. rewrite (proj2 (N.eqb_neq prefix 0)) by lia.
  set (k := 32 - prefix).
  assert (Hm : ∀ x, x < 2 ^ 32 → N.land x (N.land (N.shiftl U32_MAX k) U32_MAX) = N.shiftl (x / 2 ^ k) k).
  { intros x Hx. change U32_MAX with (N.ones 32). rewrite <- N.shiftr_div_pow2. apply N.bits_inj. intros i.
    rewrite !N.land_spec. destruct (N.ltb_spec i k) as [Hi|Hi].
    - rewrite !N.shiftl_spec_low by done. by rewrite andb_false_r.
    - rewrite !N.shiftl_spec_high', N.shiftr_spec' by done. replace (i - k + k) with i by lia.
      destruct (N.ltb_spec i 32) as [H32|H32].
      + rewrite (N.ones_spec_low 32 i) by done. rewrite (N.ones_spec_low 32 (i - k)) by lia. by rewrite !andb_true_r.
      + rewrite (N.ones_spec_high 32 i) by done. rewrite andb_false_r.
        destruct (N.eq_dec x 0) as [->|Hx0]; [by rewrite N.bits_0|].
        rewrite N.bits_above_log2; [done|]. apply N.log2_lt_pow2; [lia|].
        eapply N.lt_le_trans; [exact Hx|]. apply N.pow_le_mono_r; [done|lia]. }
  rewrite !Hm by done. rewrite !N.shiftl_mul_pow2.
  destruct (N.eqb_spec (ip / 2 ^ k) (base / 2 ^ k)) as [->|Hne]; [apply N.eqb_refl|].
  apply N.eqb_neq. intros E. apply Hne. apply N.mul_cancel_r in E; [done|]. by apply N.pow_nonzero.
Qed.

Definition in_block (ip : N) (b : N * N) : bool := (fst b <=? ip) && (ip <=? snd b).

Section ranges.
Context (ip : N) (Hip : ip < 2 ^ 32).

Lemma in_cidr_range base prefix size :
  base < 2 ^ 32 → 0 < prefix <= 32 → 2 ^ (32 - prefix) = size → base mod size = 0 →
  ipv4_in_cidr ip base prefix = true ↔ base <= ip <= base + size - 1.
Proof.
  intros Hb Hp <- Hz. rewrite in_cidr_div by done. rewrite N.eqb_eq.
  assert (Hs : 2 ^ (32 - prefix) ≠ 0) by (by apply N.pow_nonzero).
  generalize dependent (2 ^ (32 - prefix)). intros size Hz Hs. split; intros H.
  - pose proof (N.div_mod ip size Hs). pose proof (N.mod_lt ip size Hs). pose proof (N.div_mod base size Hs).
    rewrite H in *. rewrite Hz in *. generalize dependent (size * (base / size)). clear H. generalize dependent (ip mod size). clear Hz. intros r Hr m. lia.
  - pose proof (N.div_mod base size Hs) as Eb. rewrite Hz, N.add_0_r in Eb.
    symmetry. apply (N.div_unique ip size (base / size) (ip - base)); [lia|]. rewrite <- Eb. lia.
Qed.

Lemma octet0_range lo hi : lo <= hi < 256 → (lo <= octet 0 ip <= hi ↔ lo * 2 ^ 24 <= ip <= hi * 2 ^ 24 + (2 ^ 24 - 1)).
Proof.
  intros H. rewrite octet_div by lia. change (8 * (3 - 0)) with 24.
  rewrite N.mod_small by (apply N.Div0.div_lt_upper_bound; exact Hip).
  pose proof (N.div_mod ip (2 ^ 24) ltac:(done)) as E. pose proof (N.mod_lt ip (2 ^ 24) ltac:(done)).
  generalize dependent (ip mod 2 ^ 24). generalize dependent (ip / 2 ^ 24). intros q r E. lia.
Qed.

(** The first two octets together. *)
Lemma octets_range a lo hi :
  a < 256 → lo <= hi < 256 →
  (octet 0 ip = a ∧ lo <= octet 1 ip <= hi ↔ (a * 256 + lo) * 2 ^ 16 <= ip <= (a * 256 + hi) * 2 ^ 16 + (2 ^ 16 - 1)).
Proof.
  intros Ha H. rewrite !octet_div by lia. change (8 * (3 - 0)) with 24. change (8 * (3 - 1)) with 16.
  change (2 ^ 24) with (2 ^ 16 * 2 ^ 8). rewrite <- N.Div0.div_div.
  assert (Hq : ip / 2 ^ 16 < 2 ^ 16) by (apply N.Div0.div_lt_upper_bound; exact Hip).
  pose proof (N.div_mod ip (2 ^ 16) ltac:(done)) as E. pose proof (N.mod_lt ip (2 ^ 16) ltac:(done)).
  generalize dependent (ip mod 2 ^ 16). generalize dependent (ip / 2 ^ 16). intros q Hq r E.
  rewrite (N.mod_small (q / 2 ^ 8)) by (by apply N.Div0.div_lt_upper_bound).
  pose proof (N.div_mod q (2 ^ 8) ltac:(done)) as E'. pose proof (N.mod_lt q (2 ^ 8) ltac:(done)).
  generalize dependent (q mod 2 ^ 8). generalize dependent (q / 2 ^ 8). intros q' r'. lia.
Qed.

Lemma loopback_range : v4_is_loopback ip = true ↔ ipv4_of 127 0 0 0 <= ip <= ipv4_of 127 255 255 255.
Proof. unfold v4_is_loopback, ipv4_of. rewrite N.eqb_eq. pose proof (octet0_range 127 127). lia. Qed.

Lemma private_range :
  v4_is_private ip = true ↔
    (ipv4_of 10 0 0 0 <= ip <= ipv4_of 10 255 255 255 ∨ ipv4_of 172 16 0 0 <= ip <= ipv4_of 172 31 255 255) ∨
    ipv4_of 192 168 0 0 <= ip <= ipv4_of 192 168 255 255.
Proof.
  unfold v4_is_private, ipv4_of. rewrite !orb_true_iff, !andb_true_iff, !N.eqb_eq, !N.leb_le.
  pose proof (octet0_range 10 10). pose proof (octets_range 172 16 31). pose proof (octets_range 192 168 168).
  apply Morphisms_Prop.or_iff_morphism; [apply Morphisms_Prop.or_iff_morphism|]; lia.
Qed.

Lemma link_local_range : v4_is_link_local ip = true ↔ ipv4_of 169 254 0 0 <= ip <= ipv4_of 169 254 255 255.
Proof.
  unfold v4_is_link_local, ipv4_of. rewrite andb_true_iff, !N.eqb_eq. pose proof (octets_range 169 254 254). lia.
Qed.

Lemma multicast_range : v4_is_multicast ip = true ↔ ipv4_of 224 0 0 0 <= ip <= ipv4_of 239 255 255 255.
Proof. unfold v4_is_multicast, ipv4_of. rewrite andb_true_iff, !N.leb_le. pose proof (octet0_range 224 239). lia. Qed.
End ranges.

(** A disjunction of ranges, each of which follows from one of another disjunction. *)
Ltac pick_range :=
  match goal with
  | H : _ ∨ _ |- _ => destruct H as [H|H]; pick_range
  | H : false = true |- _ => discriminate H
  | |- _ ∨ _ => first [left; pick_range|right; pick_range]
  | |- _ => lia
  end.

(** The addresses that are kept from the network are exactly the special-purpose blocks:
    the test with octets and masks accepts an IPv4 address as public exactly if it lies in
    none of the fourteen ranges. *)
Theorem non_public_ipv4_blocks ip :
  ip < 2 ^ 32 → is_non_public_ipv4 ip = existsb (in_block ip) non_public_blocks.
Proof.
  intros Hip. apply eq_iff_eq_true. unfold is_non_public_ipv4. rewrite !orb_true_iff.
  rewrite (in_cidr_range ip Hip _ 8 (2 ^ 24)), (in_cidr_range ip Hip _ 10 (2 ^ 22)), (in_cidr_range ip Hip _ 15 (2 ^ 17)),
    (in_cidr_range ip Hip _ 4 (2 ^ 28)) by (done || lia).
  rewrite !(in_cidr_range ip Hip _ 24 (2 ^ 8)) by (done || lia).
  rewrite loopback_range, private_range, link_local_range, multicast_range by done.
  unfold v4_is_unspecified, v4_is_broadcast. rewrite !N.eqb_eq.
  unfold non_public_blocks. cbn [existsb]. unfold in_block. cbn [fst snd].
  rewrite !orb_true_iff, !andb_true_iff, !N.leb_le. unfold ipv4_of in *.
  split; intros H; pick_range.
Qed.

Lemma non_public_ipv4_blocks_witness : is_non_public_ipv4 (ipv4_of 169 254 169 254) = true.
Proof. rewrite non_public_ipv4_blocks by reflexivity. vm_compute. reflexivity. Defined.
