(* ===== verification/NetPolicy.v ===== *)
(** * The network proxy's policy

    [codex-rs/network-proxy]: which hosts a sandboxed command may reach.  [policy.rs] reads
    domain patterns, [config.rs] keeps the entries, [state.rs] checks them against managed
    constraints and compiles them, [runtime.rs] decides about hosts and changes the lists
    while the proxy runs, [network_policy.rs] asks a decider about hosts that are not
    allowed, [upstream.rs] picks an upstream proxy for a tunnel and [connect_policy.rs] checks the
    address that is connected to directly.  Globs
    ([globset]), URL hosts ([url]), the resolver and the hooks of intercepted requests
    ([mitm_hook.rs]) are parameters.  Of an error only the field it is about is kept. *)

From S2P Require Import Prelude RustStr MachineInt ContextFragments NetIp.
Open Scope N_scope.

(** ** [policy.rs]: domain patterns *)

Inductive DomainPattern :=
| ApexAndSubdomains (domain : str)
| SubdomainsOnly (domain : str)
| Exact (domain : str).

Definition normalize_pattern (pattern : str) : str :=
  let pattern := trim pattern in
  if seqb pattern (lit "*") then lit "*"
  else
    match strip_prefix (lit "**.") pattern with
    | Some domain => lit "**." ++ normalize_host domain
    | None =>
        match strip_prefix (lit "*.") pattern with
        | Some domain => lit "*." ++ normalize_host domain
        | None => normalize_host pattern
        end
    end.

Definition parse_domain (domain : str) (build : str → DomainPattern) : DomainPattern :=
  let domain := trim domain in
  if seqb domain [] then Exact [] else build domain.

Definition domain_pattern_parse (input : str) : DomainPattern :=
  let input := trim input in
  if seqb input [] then Exact []
  else
    match strip_prefix (lit "**.") input with
    | Some domain => parse_domain domain ApexAndSubdomains
    | None =>
        match strip_prefix (lit "*.") input with
        | Some domain => parse_domain domain SubdomainsOnly
        | None => Exact input
        end
    end.

Definition expand_domain_pattern (pattern : str) : list str :=
  match domain_pattern_parse pattern with
  | Exact domain => [domain]
  | SubdomainsOnly domain => [lit "?*." ++ domain]
  | ApexAndSubdomains domain => [domain; lit "?*." ++ domain]
  end.

Definition is_global_wildcard_domain_pattern (pattern : str) : bool :=
  existsb (fun candidate => seqb candidate (lit "*")) (expand_domain_pattern (normalize_pattern pattern)).

Definition normalize_domain (domain : str) : str := to_ascii_lowercase (trim_end_matches 46 domain).

Definition domain_eq (left right : str) : bool := seqb (normalize_domain left) (normalize_domain right).

Definition is_subdomain_or_equal (child parent : str) : bool :=
  let child := normalize_domain child in
  let parent := normalize_domain parent in
  if seqb child parent then true else ends_with (46 :: parent) child.

Definition is_strict_subdomain (child parent : str) : bool :=
  let child := normalize_domain child in
  let parent := normalize_domain parent in
  negb (seqb child parent) && ends_with (46 :: parent) child.

Definition pattern_allows (self candidate : DomainPattern) : bool :=
  match self, candidate with
  | Exact domain, Exact candidate => domain_eq candidate domain
  | Exact _, _ => false
  | SubdomainsOnly domain, Exact candidate => is_strict_subdomain candidate domain
  | SubdomainsOnly domain, SubdomainsOnly candidate => is_subdomain_or_equal candidate domain
  | SubdomainsOnly domain, ApexAndSubdomains candidate => is_strict_subdomain candidate domain
  | ApexAndSubdomains domain, Exact candidate
  | ApexAndSubdomains domain, SubdomainsOnly candidate
  | ApexAndSubdomains domain, ApexAndSubdomains candidate => is_subdomain_or_equal candidate domain
  end.

(** ** [config.rs] *)

Inductive NetworkDomainPermission := PermNone | PermAllow | PermDeny.
#[export] Instance NetworkDomainPermission_eq_dec : EqDecision NetworkDomainPermission.
Proof. solve_decision. Defined.

(** The derived order: deny wins over allow. *)
Definition perm_rank (p : NetworkDomainPermission) : N :=
  match p with PermNone => 0 | PermAllow => 1 | PermDeny => 2 end.

Definition entry : Type := str * NetworkDomainPermission.

Inductive NetworkMode := Limited | Full.
#[export] Instance NetworkMode_eq_dec : EqDecision NetworkMode.
Proof. solve_decision. Defined.

Definition allows_method (mode : NetworkMode) (method : str) : bool :=
  match mode with
  | Full => true
  | Limited => existsb (seqb method) [lit "GET"; lit "HEAD"; lit "OPTIONS"]
  end.

Record NetworkProxyConfig := mkConfig {
  enabled : bool;
  allow_upstream_proxy : bool;
  dangerously_allow_non_loopback_proxy : bool;
  dangerously_allow_all_unix_sockets : bool;
  mode : NetworkMode;
  domains : option (list entry);
  unix_sockets : option (list (str * bool));
  allow_local_binding : bool;
  mitm : bool;
  credential_broker : bool
}.
#[export] Instance NetworkProxyConfig_eq_dec : EqDecision NetworkProxyConfig.
Proof. solve_decision. Defined.

Definition config_default : NetworkProxyConfig := mkConfig false true false false Full None None false false false.

Definition set_domains (d : option (list entry)) (c : NetworkProxyConfig) : NetworkProxyConfig :=
  mkConfig (enabled c) (allow_upstream_proxy c) (dangerously_allow_non_loopback_proxy c)
    (dangerously_allow_all_unix_sockets c) (mode c) d (unix_sockets c) (allow_local_binding c) (mitm c) (credential_broker c).
Definition set_mode (m : NetworkMode) (c : NetworkProxyConfig) : NetworkProxyConfig :=
  mkConfig (enabled c) (allow_upstream_proxy c) (dangerously_allow_non_loopback_proxy c)
    (dangerously_allow_all_unix_sockets c) m (domains c) (unix_sockets c) (allow_local_binding c) (mitm c) (credential_broker c).

(** One entry of the loop of [effective_entries]: the strongest permission of a pattern, at
    the place of its first entry. *)
Fixpoint merge_entry (e : entry) (acc : list entry) : list entry :=
  match acc with
  | [] => [e]
  | (p, perm) :: acc =>
      if seqb p (fst e)
      then (p, if perm_rank perm <? perm_rank (snd e) then snd e else perm) :: acc
      else (p, perm) :: merge_entry e acc
  end.

Definition effective_entries (entries : list entry) : list entry :=
  foldl (fun acc e => merge_entry e acc) [] entries.

Definition domain_entries (permission : NetworkDomainPermission) (c : NetworkProxyConfig) : option (list str) :=
  l ← (fun entries => map fst (List.filter (fun e => bool_decide (snd e = permission)) (effective_entries entries)))
        <$> domains c;
  match l with [] => None | _ => Some l end.

Definition allowed_domains (c : NetworkProxyConfig) : option (list str) := domain_entries PermAllow c.
Definition denied_domains (c : NetworkProxyConfig) : option (list str) := domain_entries PermDeny c.

Definition allow_unix_sockets (c : NetworkProxyConfig) : list str :=
  default [] ((fun l => map fst (List.filter snd l)) <$> unix_sockets c).

Definition some_entries (entries : list entry) : option (list entry) :=
  match entries with [] => None | _ => Some entries end.

Definition upsert_domain_permission (host : str) (permission : NetworkDomainPermission) (normalize : str → str)
    (c : NetworkProxyConfig) : NetworkProxyConfig :=
  let entries := default [] (domains c) in
  let normalized_host := normalize host in
  let entries := List.filter (fun e => negb (seqb (normalize (fst e)) normalized_host)) entries in
  set_domains (some_entries (entries ++ [(host, permission)])) c.

(** [set_domain_entries] *)
Definition set_domain_entries (new : list str) (permission : NetworkDomainPermission) (c : NetworkProxyConfig) :
    NetworkProxyConfig :=
  let entries := List.filter (fun e => negb (bool_decide (snd e = permission))) (default [] (domains c)) in
  let entries :=
    foldl (fun entries e =>
      if existsb (fun existing => seqb (fst existing) e && bool_decide (snd existing = permission)) entries
      then entries else entries ++ [(e, permission)]) entries new in
  set_domains (some_entries entries) c.

(** [validate_unix_socket_allowlist_paths] *)
Definition unix_socket_paths_absolute (c : NetworkProxyConfig) : bool :=
  forallb (fun path => starts_with (lit "/") path) (allow_unix_sockets c).

(** ** [state.rs] *)

Record NetworkProxyConstraints := mkConstraints {
  max_enabled : option bool;
  max_mode : option NetworkMode;
  max_allow_upstream_proxy : option bool;
  max_allow_non_loopback_proxy : option bool;
  max_allow_all_unix_sockets : option bool;
  managed_allowed_domains : option (list str);
  allowlist_expansion_enabled : option bool;
  managed_denied_domains : option (list str);
  denylist_expansion_enabled : option bool;
  managed_unix_sockets : option (list str);
  max_allow_local_binding : option bool
}.
#[export] Instance NetworkProxyConstraints_eq_dec : EqDecision NetworkProxyConstraints.
Proof. solve_decision. Defined.

Inductive ConstraintField :=
| FMitmHooks | FDeniedDomains | FEnabled | FMode | FUpstreamProxy | FNonLoopbackProxy | FAllUnixSockets
| FLocalBinding | FAllowedDomains | FUnixSockets.

Definition check (field : ConstraintField) (ok : bool) : result unit ConstraintField :=
  if ok then Ok tt else Err field.

Definition validate_non_global_wildcard_domain_patterns (field : ConstraintField) (patterns : list str) :
    result unit ConstraintField :=
  check field (negb (existsb is_global_wildcard_domain_pattern patterns)).

Definition network_mode_rank (m : NetworkMode) : N := match m with Limited => 0 | Full => 1 end.

Definition lowercase_set (l : list str) : gset str := list_to_set (map to_ascii_lowercase l).

Section policy.
(** [url::Host::parse] and its display; the hooks of intercepted requests, which are fixed and
    whose validation and compilation look at the [mitm] setting; and [globset]: whether a glob
    compiles and what a compiled one matches. *)
Context (url_host : str → option str) (mitm_hooks_valid mitm_builds : bool → bool).
Context (glob_builds : str → bool) (glob_match : str → str → bool).

Definition parse_domain_for_constraints (domain : str) : str :=
  let domain := trim_end_matches 46 (trim domain) in
  if seqb domain [] then []
  else
    let host := match domain with
                | 91 :: rest => default domain (strip_suffix [93] rest)
                | _ => domain
                end in
    if existsb (fun c => (c =? 42) || (c =? 63) || (c =? 37)) host then domain
    else default [] (url_host host).

Definition parse_for_constraints (input : str) : DomainPattern :=
  let input := trim input in
  if seqb input [] then Exact []
  else
    match strip_prefix (lit "**.") input with
    | Some domain => ApexAndSubdomains (parse_domain_for_constraints domain)
    | None =>
        match strip_prefix (lit "*.") input with
        | Some domain => SubdomainsOnly (parse_domain_for_constraints domain)
        | None => Exact (parse_domain_for_constraints input)
        end
    end.

Definition validate_allowed_domains (c : NetworkProxyConfig) (k : NetworkProxyConstraints) : result unit ConstraintField :=
  match managed_allowed_domains k with
  | None => Ok tt
  | Some managed =>
      let candidate := default [] (allowed_domains c) in
      let overrides := lowercase_set (default [] (denied_domains c)) in
      let? _ := validate_non_global_wildcard_domain_patterns FAllowedDomains managed in
      match allowlist_expansion_enabled k with
      | Some true =>
          check FAllowedDomains (bool_decide (lowercase_set managed ∖ lowercase_set candidate ∖ overrides = ∅))
      | Some false => check FAllowedDomains (bool_decide (lowercase_set candidate = lowercase_set managed ∖ overrides))
      | None =>
          check FAllowedDomains
            (forallb (fun entry => existsb (fun m => pattern_allows (parse_for_constraints m) (parse_for_constraints entry)) managed)
               candidate)
      end
  end.

Definition validate_denied_domains (c : NetworkProxyConfig) (k : NetworkProxyConstraints) : result unit ConstraintField :=
  match managed_denied_domains k with
  | None => Ok tt
  | Some managed =>
      let candidate := default [] (denied_domains c) in
      let? _ := validate_non_global_wildcard_domain_patterns FDeniedDomains managed in
      match denylist_expansion_enabled k with
      | Some false => check FDeniedDomains (bool_decide (lowercase_set candidate = lowercase_set managed))
      | _ => check FDeniedDomains (bool_decide (lowercase_set managed ∖ lowercase_set candidate = ∅))
      end
  end.

(** [Some(true) | None => Ok, Some(false) => !candidate] *)
Definition within_flag (max : option bool) (candidate : bool) : bool :=
  match max with Some false => negb candidate | _ => true end.

Definition validate_policy_against_constraints (c : NetworkProxyConfig) (k : NetworkProxyConstraints) :
    result unit ConstraintField :=
  let? _ := check FMitmHooks (mitm_hooks_valid (mitm c)) in
  let? _ := validate_non_global_wildcard_domain_patterns FDeniedDomains (default [] (denied_domains c)) in
  let? _ := check FEnabled (within_flag (max_enabled k) (enabled c)) in
  let? _ := check FMode (match max_mode k with
                         | Some m => network_mode_rank (mode c) <=? network_mode_rank m
                         | None => true
                         end) in
  let? _ := check FUpstreamProxy (within_flag (max_allow_upstream_proxy k) (allow_upstream_proxy c)) in
  let? _ := check FNonLoopbackProxy
              (within_flag (max_allow_non_loopback_proxy k) (dangerously_allow_non_loopback_proxy c)) in
  let? _ := check FAllUnixSockets
              (negb (dangerously_allow_all_unix_sockets c) ||
               default (bool_decide (managed_unix_sockets k = None)) (max_allow_all_unix_sockets k)) in
  let? _ := check FLocalBinding (within_flag (max_allow_local_binding k) (allow_local_binding c)) in
  let? _ := validate_allowed_domains c k in
  let? _ := validate_denied_domains c k in
  match managed_unix_sockets k with
  | None => Ok tt
  | Some allowed =>
      check FUnixSockets
        (forallb (fun entry => bool_decide (to_ascii_lowercase entry ∈ lowercase_set allowed)) (allow_unix_sockets c))
  end.

(** [GlobSet]: the globs that were added, each once. *)
Definition GlobSet : Type := list str.

Definition is_match (set : GlobSet) (host : str) : bool := existsb (fun glob => glob_match glob host) set.

(** The inner loop of [compile_globset_with_policy] *)
Fixpoint add_candidates (candidates : list str) (set : GlobSet) : option GlobSet :=
  match candidates with
  | [] => Some set
  | c :: cs =>
      if existsb (seqb c) set then add_candidates cs set
      else if glob_builds c then add_candidates cs (set ++ [c]) else None
  end.

Fixpoint compile_from (reject_global : bool) (patterns : list str) (set : GlobSet) : option GlobSet :=
  match patterns with
  | [] => Some set
  | p :: ps =>
      if reject_global && is_global_wildcard_domain_pattern p then None
      else set ← add_candidates (expand_domain_pattern (normalize_pattern p)) set;
           compile_from reject_global ps set
  end.

Definition compile_allowlist_globset (patterns : list str) : option GlobSet := compile_from false patterns [].
Definition compile_denylist_globset (patterns : list str) : option GlobSet := compile_from true patterns [].

Record BlockedRequest := mkBlocked {
  blocked_host : str;
  blocked_reason : str;
  blocked_execution_id : option str;
  blocked_decision : option str;
  blocked_port : option N
}.

Record ConfigState := mkState {
  config : NetworkProxyConfig;
  allow_set : GlobSet;
  deny_set : GlobSet;
  constraints : NetworkProxyConstraints;
  blocked : list BlockedRequest;
  blocked_total : N
}.

Definition build_config_state (c : NetworkProxyConfig) (k : NetworkProxyConstraints) : option ConfigState :=
  if unix_socket_paths_absolute c then
    if negb (credential_broker c) || mitm c then
      let allowed := default [] (allowed_domains c) in
      let denied := default [] (denied_domains c) in
      match validate_non_global_wildcard_domain_patterns FDeniedDomains denied with
      | Err _ => None
      | Ok _ =>
          deny_set ← compile_denylist_globset denied;
          allow_set ← compile_allowlist_globset allowed;
          if mitm_builds (mitm c) then Some (mkState c allow_set deny_set k [] 0) else None
      end
    else None
  else None.

(** ** [runtime.rs] *)

Inductive HostBlockReason := Denied | NotAllowed | NotAllowedLocal.
#[export] Instance HostBlockReason_eq_dec : EqDecision HostBlockReason.
Proof. solve_decision. Defined.
Inductive HostBlockDecision := Allowed | Blocked (reason : HostBlockReason).
#[export] Instance HostBlockDecision_eq_dec : EqDecision HostBlockDecision.
Proof. solve_decision. Defined.

Definition reason_str (r : HostBlockReason) : str :=
  match r with
  | Denied => lit "denied"
  | NotAllowed => lit "not_allowed"
  | NotAllowedLocal => lit "not_allowed_local"
  end.

Definition globset_matches_host_or_unscoped (set : GlobSet) (host : str) : bool :=
  is_match set host || match unscoped_ip_literal host with Some ip => is_match set ip | None => false end.

Definition is_explicit_local_allowlisted (allowed : list str) (host : str) : bool :=
  let unscoped_host := unscoped_ip_literal host in
  existsb (fun pattern =>
    let pattern := trim pattern in
    if seqb pattern (lit "*") || starts_with (lit "*.") pattern || starts_with (lit "**.") pattern then false
    else if existsb (fun c => (c =? 42) || (c =? 63)) pattern then false
    else
      let normalized_pattern := normalize_host pattern in
      seqb normalized_pattern host ||
      match unscoped_host with Some ip => seqb normalized_pattern ip | None => false end) allowed.

(** The resolver: [None] when it fails or takes too long. *)
Context (lookup_host : str → N → option (list IpAddr)).

Definition host_resolves_to_non_public_ip (host : str) (port : N) : bool :=
  match parse_ip host with
  | Some ip => is_non_public_ip ip
  | None =>
      match lookup_host host port with
      | Some addrs => existsb is_non_public_ip addrs
      | None => true
      end
  end.

Definition local_literal (host : str) : bool :=
  if is_loopback_host host then true
  else match parse_ip (default host (unscoped_ip_literal host)) with
       | Some ip => is_non_public_ip ip
       | None => false
       end.

Definition host_blocked (st : ConfigState) (host : str) (port : N) : HostBlockDecision :=
  match host_parse host with
  | None => Blocked NotAllowed
  | Some host =>
      if globset_matches_host_or_unscoped (deny_set st) host then Blocked Denied
      else
        let is_allowlisted := globset_matches_host_or_unscoped (allow_set st) host in
        let blocked_local :=
          if allow_local_binding (config st) then false
          else if local_literal host
          then negb (is_explicit_local_allowlisted (default [] (allowed_domains (config st))) host)
          else host_resolves_to_non_public_ip host port in
        if blocked_local then Blocked NotAllowedLocal
        else if bool_decide (allowed_domains (config st) = None) || negb is_allowlisted then Blocked NotAllowed
        else Allowed
  end.

Definition MAX_BLOCKED_EVENTS : nat := 200.

Definition set_blocked (b : list BlockedRequest) (total : N) (st : ConfigState) : ConfigState :=
  mkState (config st) (allow_set st) (deny_set st) (constraints st) b total.

Definition record_blocked (e : BlockedRequest) (st : ConfigState) : ConfigState :=
  let b := blocked st ++ [e] in
  set_blocked (drop (length b - MAX_BLOCKED_EVENTS) b) (sat_add (blocked_total st) 1) st.

Definition drain_blocked (st : ConfigState) : ConfigState * list BlockedRequest :=
  (set_blocked [] (blocked_total st) st, blocked st).

Definition set_config (c : NetworkProxyConfig) (st : ConfigState) : ConfigState :=
  mkState c (allow_set st) (deny_set st) (constraints st) (blocked st) (blocked_total st).

(** [set_network_mode] releases the lock between what it reads and what it writes; the
    write is tried again from the start when the constraints changed in between. *)
Definition set_network_mode_read (m : NetworkMode) (st : ConfigState) : result NetworkProxyConstraints ConstraintField :=
  let? _ := validate_policy_against_constraints (set_mode m (config st)) (constraints st) in
  Ok (constraints st).

Definition set_network_mode_write (m : NetworkMode) (k : NetworkProxyConstraints) (st : ConfigState) : option ConfigState :=
  if decide (constraints st = k) then Some (set_config (set_mode m (config st)) st) else None.

Inductive DomainListKind := AllowList | DenyList.

Definition permission (target : DomainListKind) : NetworkDomainPermission :=
  match target with AllowList => PermAllow | DenyList => PermDeny end.
Definition target_entries (target : DomainListKind) (c : NetworkProxyConfig) : list str :=
  default [] (domain_entries (permission target) c).
Definition opposite_entries (target : DomainListKind) (c : NetworkProxyConfig) : list str :=
  match target with
  | AllowList => default [] (denied_domains c)
  | DenyList => default [] (allowed_domains c)
  end.

Inductive UpdateError := InvalidHost | Constrained (field : ConstraintField) | CompileFailed.

(** What [update_domain_list] prepares: nothing to do, or a state to put in place of the one
    it was made from. *)
Inductive Update :=
| UpdateDone
| UpdateReady (previous_cfg : NetworkProxyConfig) (k : NetworkProxyConstraints) (new_state : ConfigState).

Definition update_domain_list_read (host : str) (target : DomainListKind) (st : ConfigState) : result Update UpdateError :=
  match host_parse host with
  | None => Err InvalidHost
  | Some normalized_host =>
      let previous_cfg := config st in
      let contains l := existsb (fun e => seqb (normalize_host e) normalized_host) l in
      if contains (target_entries target previous_cfg) && negb (contains (opposite_entries target previous_cfg))
      then Ok UpdateDone
      else
        let candidate := upsert_domain_permission normalized_host (permission target) normalize_host previous_cfg in
        let? _ := map_err Constrained (validate_policy_against_constraints candidate (constraints st)) in
        match build_config_state candidate (constraints st) with
        | None => Err CompileFailed
        | Some new_state =>
            Ok (UpdateReady previous_cfg (constraints st) (set_blocked (blocked st) (blocked_total st) new_state))
        end
  end.

Definition update_domain_list_write (u : Update) (st : ConfigState) : option ConfigState :=
  match u with
  | UpdateDone => Some st
  | UpdateReady previous_cfg k new_state =>
      if decide (constraints st = k ∧ config st = previous_cfg) then Some new_state else None
  end.

(** [reload_if_needed]: a new state from the reloader, with the requests blocked so far as
    they were when they were read. *)
Definition reload_read (broker_enabled : bool) (new_state st : ConfigState) : option ConfigState :=
  if bool_decide (broker_enabled = credential_broker (config new_state))
  then Some (set_blocked (blocked st) (blocked_total st) new_state)
  else None.

(** [force_reload] and [replace_config_state] read and write under one lock. *)
Definition force_reload (broker_enabled : bool) (new_state st : ConfigState) : option ConfigState :=
  if bool_decide (broker_enabled = credential_broker (config new_state))
  then Some (set_blocked (blocked st) (blocked_total new_state) new_state)
  else None.

Definition replace_config_state (broker_enabled : bool) (new_state st : ConfigState) : option ConfigState :=
  if bool_decide (broker_enabled = credential_broker (config new_state))
  then Some (set_blocked (blocked st) (blocked_total st) new_state)
  else None.

(** ** [network_policy.rs] *)

Inductive NetworkDecisionSource := BaselinePolicy | ModeGuard | ProxyState | Decider.
Inductive NetworkPolicyDecision := PolicyDeny | PolicyAsk.
Inductive NetworkDecision :=
| Allow
| Deny (reason : str) (source : NetworkDecisionSource) (decision : NetworkPolicyDecision).

Definition deny_with_source (reason : str) (source : NetworkDecisionSource) : NetworkDecision :=
  Deny (if seqb reason [] then lit "policy_denied" else reason) source PolicyDeny.

Definition ask_with_source (reason : str) (source : NetworkDecisionSource) : NetworkDecision :=
  Deny (if seqb reason [] then lit "policy_denied" else reason) source PolicyAsk.

Definition map_decider_decision (d : NetworkDecision) : NetworkDecision :=
  match d with
  | Allow => Allow
  | Deny reason _ decision => Deny reason Decider decision
  end.

Inductive NetworkProtocol := ProtocolHttp | ProtocolHttpsConnect | ProtocolSocks5Tcp | ProtocolSocks5Udp.

Record NetworkPolicyRequest := mkRequest {
  request_protocol : NetworkProtocol;
  request_host : str;
  request_port : N;
  request_environment_id : option str;
  request_execution_id : option str
}.

(** The decision; the second component is whether the decider overrode the policy. *)
Definition evaluate_host_policy (st : ConfigState) (environment_id execution_id : option str)
    (decider : option (NetworkPolicyRequest → NetworkDecision)) (request : NetworkPolicyRequest) :
    NetworkDecision * bool :=
  match host_blocked st (request_host request) (request_port request) with
  | Allowed => (Allow, false)
  | Blocked NotAllowed =>
      match decider with
      | Some decide_request =>
          let env := match request_environment_id request with Some e => Some e | None => environment_id end in
          let d := map_decider_decision
                     (decide_request (mkRequest (request_protocol request) (request_host request) (request_port request) env
                        execution_id)) in
          (d, match d with Allow => true | _ => false end)
      | None => (deny_with_source (reason_str NotAllowed) BaselinePolicy, false)
      end
  | Blocked reason => (deny_with_source (reason_str reason) BaselinePolicy, false)
  end.

(** ** [connect_policy.rs] *)

Inductive TargetHost := HostAddress (ip : IpAddr) | HostName (name : str).

Definition is_localhost_name (name : str) : bool := eq_ignore_ascii_case (trim_end_matches 46 name) (lit "localhost").

Definition target_matches_non_public_addr (host : TargetHost) (addr : IpAddr) : bool :=
  match host with
  | HostAddress ip => bool_decide (ip = addr)
  | HostName name => is_localhost_name name && is_loopback addr
  end.

(** The display of an address. *)
Context (show_ip : IpAddr → str).

Definition target_str (host : TargetHost) : str :=
  match host with HostAddress ip => show_ip ip | HostName name => name end.

Definition allows_non_public_target (st : ConfigState) (target : TargetHost) (port : N) (addr : IpAddr) : bool :=
  if allow_local_binding (config st) then true
  else if target_matches_non_public_addr target addr
  then bool_decide (host_blocked st (target_str target) port = Allowed)
  else false.

(** Whether [connect] goes on to open the connection. *)
Definition connect_permitted (st : ConfigState) (target : TargetHost) (port : N) (addr : IpAddr) : bool :=
  negb (is_non_public_ip addr && negb (allows_non_public_target st target port addr)).

(** ** [upstream.rs]: proxies that the environment names *)

Definition is_non_public_target (host : TargetHost) : bool :=
  match host with
  | HostAddress ip => is_non_public_ip ip
  | HostName name => is_localhost_name name
  end.

(** The address of an upstream proxy. *)
Definition ProxyAddress : Type := str.

Record ProxyConfig := mkProxyConfig {
  proxy_http : option ProxyAddress;
  proxy_https : option ProxyAddress;
  proxy_all : option ProxyAddress
}.

Definition or_else {A} (a b : option A) : option A := match a with Some _ => a | None => b end.

Definition proxy_for_protocol (p : ProxyConfig) (is_secure : bool) : option ProxyAddress :=
  if is_secure then or_else (or_else (proxy_https p) (proxy_http p)) (proxy_all p)
  else or_else (proxy_http p) (proxy_all p).

Definition proxy_for_target (p : ProxyConfig) (target : TargetHost) (is_secure : bool) : option ProxyAddress :=
  if is_non_public_target target then None else proxy_for_protocol p is_secure.

(** [forward_connect_tunnel] of [http_proxy.rs]: the upstream proxy of a tunnel, if any; [env] is
    what [ProxyConfig::from_env] reads. *)
Definition tunnel_proxy (env : ProxyConfig) (st : ConfigState) (target : TargetHost) : option ProxyAddress :=
  if allow_upstream_proxy (config st) then proxy_for_target env target true else None.

(** [TargetCheckedTcpConnector::serve]: whether it goes on to open a connection to [addr].  With
    an upstream proxy the address is that of the proxy, and is not checked. *)
Definition serve_permitted (proxy : option ProxyAddress) (st : ConfigState) (target : TargetHost) (port : N) (addr : IpAddr) : bool :=
  match proxy with
  | Some _ => true
  | None => connect_permitted st target port addr
  end.
End policy.
