(* ===== verification/NetProxySpec.v ===== *)
(** * The specification of a network proxy

    [core/src/config/network_proxy_spec.rs]: how the configuration of a user and the managed
    requirements ([config/src/config_requirements.rs]) become the configuration and the
    constraints of a proxy, how rules of the execution policy are added to it, and how a proxy is
    started, reloaded and given another configuration.  The addresses that the proxy listens on
    and the hooks of intercepted requests are not part of the configuration that is modelled. *)

From S2P Require Import Prelude RustStr MachineInt ExecPolicy SandboxPolicy ContextFragments NetIp NetPolicy.
Open Scope N_scope.

(** ** [config_requirements.rs] *)

(** A [BTreeMap] of domains or sockets: [true] is to allow. *)
Definition PermissionsToml : Type := list (str * bool).

Record NetworkConstraints := mkRequirements {
  req_enabled : option bool;
  req_allow_upstream_proxy : option bool;
  req_dangerously_allow_non_loopback_proxy : option bool;
  req_dangerously_allow_all_unix_sockets : option bool;
  req_domains : option PermissionsToml;
  req_managed_allowed_domains_only : option bool;
  req_unix_sockets : option PermissionsToml;
  req_allow_local_binding : option bool
}.

(** [NetworkDomainPermissionsToml::allowed_domains] and [denied_domains]. *)
Definition toml_entries (allow : bool) (l : PermissionsToml) : list str :=
  map fst (List.filter (fun e => Bool.eqb (snd e) allow) l).
Definition toml_allowed_domains (l : PermissionsToml) : option (list str) :=
  match toml_entries true l with [] => None | ds => Some ds end.
Definition toml_denied_domains (l : PermissionsToml) : option (list str) :=
  match toml_entries false l with [] => None | ds => Some ds end.

(** ** Setters of [config.rs] *)

(** [BTreeMap::insert]. *)
Fixpoint btree_insert {V} (key : str) (v : V) (l : list (str * V)) : list (str * V) :=
  match l with
  | [] => [(key, v)]
  | (key', v') :: l' =>
      if seqb key key' then (key, v) :: l'
      else if str_leb key key' then (key, v) :: l
      else (key', v') :: btree_insert key v l'
  end.

Definition set_unix_sockets (u : option (list (str * bool))) (c : NetworkProxyConfig) : NetworkProxyConfig :=
  mkConfig (enabled c) (allow_upstream_proxy c) (dangerously_allow_non_loopback_proxy c)
    (dangerously_allow_all_unix_sockets c) (mode c) (domains c) u (allow_local_binding c) (mitm c) (credential_broker c).

(** [set_allow_unix_sockets]. *)
Definition set_allow_unix_sockets (paths : list str) (c : NetworkProxyConfig) : NetworkProxyConfig :=
  let entries := List.filter (fun e => negb (snd e)) (default [] (unix_sockets c)) in
  let entries := foldl (fun entries path => btree_insert path true entries) entries paths in
  set_unix_sockets (match entries with [] => None | _ => Some entries end) c.

(** ** [NetworkProxySpec] *)

Record NetworkProxySpec := mkSpec {
  base_config : NetworkProxyConfig;
  requirements : option NetworkConstraints;
  spec_config : NetworkProxyConfig;
  spec_constraints : NetworkProxyConstraints;
  hard_deny_allowlist_misses : bool
}.

Definition no_constraints : NetworkProxyConstraints := mkConstraints None None None None None None None None None None None.

Definition managed_allowed_domains_only (r : NetworkConstraints) : bool := default false (req_managed_allowed_domains_only r).
Definition managed_sandbox_active (p : PermissionProfile) : bool := match p with Managed _ _ => true | _ => false end.

Definition merge_domain_lists (managed user_entries : list str) : list str :=
  foldl (fun managed e => if existsb (fun m => eq_ignore_ascii_case m e) managed then managed else managed ++ [e])
    managed user_entries.

(** One requirement: the setting, and the bound that the constraints get. *)
Definition require {A} (required : option A) (current : A) : A * option A :=
  match required with Some a => (a, Some a) | None => (current, None) end.

(** A managed list of domains, in place of the entries of the user or before them. *)
Definition require_domains (managed : option (list str)) (expansion : bool) (permission : NetworkDomainPermission)
    (c : NetworkProxyConfig) : NetworkProxyConfig :=
  match managed with
  | Some managed =>
      set_domain_entries
        (if expansion then merge_domain_lists managed (default [] (domain_entries permission c)) else managed) permission c
  | None => c
  end.

Definition apply_requirements (c : NetworkProxyConfig) (r : NetworkConstraints) (profile : PermissionProfile)
    (hard_deny_allowlist_misses : bool) : NetworkProxyConfig * NetworkProxyConstraints :=
  let allowlist_expansion := managed_sandbox_active profile && negb hard_deny_allowlist_misses in
  let denylist_expansion := managed_sandbox_active profile in
  let '(is_enabled, k_enabled) := require (req_enabled r) (enabled c) in
  let '(upstream, k_upstream) := require (req_allow_upstream_proxy r) (allow_upstream_proxy c) in
  let '(non_loopback, k_non_loopback) :=
    require (req_dangerously_allow_non_loopback_proxy r) (dangerously_allow_non_loopback_proxy c) in
  let '(all_sockets, k_all_sockets) :=
    require (req_dangerously_allow_all_unix_sockets r) (dangerously_allow_all_unix_sockets c) in
  let '(local_binding, k_local_binding) := require (req_allow_local_binding r) (allow_local_binding c) in
  let c := mkConfig is_enabled upstream non_loopback all_sockets (mode c) (domains c) (unix_sockets c) local_binding (mitm c)
             (credential_broker c) in
  let managed_allowed :=
    if hard_deny_allowlist_misses then Some (default [] (l ← req_domains r; toml_allowed_domains l))
    else l ← req_domains r; toml_allowed_domains l in
  let c := require_domains managed_allowed allowlist_expansion PermAllow c in
  let managed_denied := l ← req_domains r; toml_denied_domains l in
  let c := require_domains managed_denied denylist_expansion PermDeny c in
  let managed_sockets := toml_entries true <$> req_unix_sockets r in
  let c := match managed_sockets with Some paths => set_allow_unix_sockets paths c | None => c end in
  (c, mkConstraints k_enabled None k_upstream k_non_loopback k_all_sockets
        managed_allowed ((fun _ => allowlist_expansion) <$> managed_allowed)
        managed_denied ((fun _ => denylist_expansion) <$> managed_denied) managed_sockets k_local_binding).

(** What the requirements, if any, make of a configuration. *)
Definition required_policy (c : NetworkProxyConfig) (r : option NetworkConstraints) (profile : PermissionProfile) :
    NetworkProxyConfig * NetworkProxyConstraints :=
  match r with
  | Some r => apply_requirements c r profile (managed_allowed_domains_only r)
  | None => (c, no_constraints)
  end.

(** [upsert_network_domains]: each host once. *)
Fixpoint upsert_network_domains (seen hosts : list str) (permission : NetworkDomainPermission) (c : NetworkProxyConfig) :
    NetworkProxyConfig :=
  match hosts with
  | [] => c
  | h :: hosts =>
      if existsb (seqb h) seen then upsert_network_domains seen hosts permission c
      else upsert_network_domains (h :: seen) hosts permission (upsert_domain_permission h permission normalize_host c)
  end.

Definition apply_exec_policy_network_rules (policy : Policy) (c : NetworkProxyConfig) : NetworkProxyConfig :=
  let '(allowed, denied) := compiled_network_domains policy in
  upsert_network_domains [] denied PermDeny (upsert_network_domains [] allowed PermAllow c).

(** [ConfigReloader]: the reloaders there are. *)
Inductive Reloader :=
| StaticConfigReloader
| StaticNetworkProxyReloader (state : ConfigState).

Definition maybe_reload (r : Reloader) : option ConfigState :=
  match r with StaticConfigReloader | StaticNetworkProxyReloader _ => None end.

Definition reload_now (r : Reloader) : option ConfigState :=
  match r with StaticConfigReloader => None | StaticNetworkProxyReloader state => Some state end.

Section spec.
Context (url_host : str → option str) (mitm_hooks_valid mitm_builds : bool → bool) (glob_builds : str → bool).

Definition from_config_and_constraints (c : NetworkProxyConfig) (r : option NetworkConstraints) (profile : PermissionProfile) :
    result NetworkProxySpec ConstraintField :=
  let '(cfg, constraints) := required_policy c r profile in
  let? _ := validate_policy_against_constraints url_host mitm_hooks_valid cfg constraints in
  Ok (mkSpec c r cfg constraints (match r with Some r => managed_allowed_domains_only r | None => false end)).

Definition recompute_for_permission_profile (spec : NetworkProxySpec) (profile : PermissionProfile) :
    result NetworkProxySpec ConstraintField :=
  from_config_and_constraints (base_config spec) (requirements spec) profile.

Definition with_exec_policy_network_rules (spec : NetworkProxySpec) (policy : Policy) : result NetworkProxySpec ConstraintField :=
  let cfg := apply_exec_policy_network_rules policy (spec_config spec) in
  let? _ := validate_policy_against_constraints url_host mitm_hooks_valid cfg (spec_constraints spec) in
  Ok (mkSpec (base_config spec) (requirements spec) cfg (spec_constraints spec) (hard_deny_allowlist_misses spec)).

Definition build_config_state_for_spec (spec : NetworkProxySpec) : option ConfigState :=
  build_config_state mitm_builds glob_builds (spec_config spec) (spec_constraints spec).

Definition build_state_with_audit_metadata (spec : NetworkProxySpec) : option (ConfigState * Reloader) :=
  state ← build_config_state_for_spec spec; Some (state, StaticNetworkProxyReloader state).

(** [NetworkProxy::replace_config_state] of [proxy.rs], before the state is written: some settings
    of a running proxy stay as they are. *)
Definition replace_permitted (new_state st : ConfigState) : bool := Bool.eqb (enabled (config new_state)) (enabled (config st)).
End spec.
