(* ===== verification/NetPolicyFacts.v ===== *)
(** * What the network policy guarantees

    No decider and no race gets a denied or a local host past the policy; managed
    constraints hold in every state the proxy reaches; a domain that is added to a list is
    decided by it. *)

From S2P Require Import Prelude RustStr MachineInt ContextFragments NetIp NetPolicy NetProxySpec.
#[local] Arguments lit : simpl never.
Open Scope nat_scope.

(** ** Decisions about hosts *)

Section decisions.
Context (glob_match : str → str → bool) (lookup_host : str → N → option (list IpAddr)).
#[local] Abbreviation matches := (globset_matches_host_or_unscoped glob_match).
#[local] Abbreviation decided := (host_blocked glob_match lookup_host).

(** Reaching a host gives no access to the local network: a literal address or [localhost] is
    listed by name, and every address a name resolves to is public. *)
Definition host_reachable (st : ConfigState) (h : str) (port : N) : Prop :=
  if local_literal h
  then is_explicit_local_allowlisted (default [] (allowed_domains (config st))) h = true
  else host_resolves_to_non_public_ip lookup_host h port = false.

Lemma host_blocked_Allowed st host port :
  decided st host port = Allowed ↔
    ∃ h, host_parse host = Some h ∧ matches (deny_set st) h = false ∧
      (allow_local_binding (config st) = false → host_reachable st h port) ∧
      allowed_domains (config st) ≠ None ∧ matches (allow_set st) h = true.
Proof.
  unfold host_blocked, host_reachable. destruct (host_parse host) as [h|]; [|split; [done|by intros (h & ? & _)]].
  split.
  - intros E. exists h. split; [done|]. destruct (matches (deny_set st) h); [done|]. split; [done|].
    destruct (allow_local_binding (config st)).
    + case_bool_decide; cbn in E; [done|]. destruct (matches (allow_set st) h); [|done]. by split_and!.
    + destruct (local_literal h).
      * destruct (is_explicit_local_allowlisted _ h); cbn in E; [|done]. case_bool_decide; cbn in E; [done|].
        destruct (matches (allow_set st) h); [|done]. by split_and!.
      * destruct (host_resolves_to_non_public_ip _ h port); [done|]. case_bool_decide; cbn in E; [done|].
        destruct (matches (allow_set st) h); [|done]. by split_and!.
  - intros (h' & [= <-] & -> & Hl & Ha & ->). rewrite (bool_decide_false (allowed_domains (config st) = None)) by done.
    destruct (allow_local_binding (config st)); [done|]. specialize (Hl eq_refl).
    destruct (local_literal h); rewrite Hl; done.
Qed.

Lemma host_blocked_NotAllowed st host port h :
  host_parse host = Some h → decided st host port = Blocked NotAllowed →
  matches (deny_set st) h = false ∧ (allow_local_binding (config st) = false → host_reachable st h port).
Proof.
  unfold host_blocked, host_reachable. intros ->. destruct (matches (deny_set st) h); [done|].
  intros E. split; [done|]. intros Hb. rewrite Hb in E. destruct (local_literal h).
  - by destruct (is_explicit_local_allowlisted _ h).
  - by destruct (host_resolves_to_non_public_ip _ h port).
Qed.

(** C4: whatever the decider answers, a request is let through only if its host is on no deny
    list and, unless local binding is enabled, gives no access to the local network (fail
    closed: a name that does not resolve is not let through); without a decider, or without
    its override, the host is on the allow list as well. *)
Theorem allowed_request_is_safe st env exec decider request overridden h :
  host_parse (request_host request) = Some h →
  evaluate_host_policy glob_match lookup_host st env exec decider request = (Allow, overridden) →
  matches (deny_set st) h = false ∧
  (allow_local_binding (config st) = false → host_reachable st h (request_port request)) ∧
  (overridden = false → allowed_domains (config st) ≠ None ∧ matches (allow_set st) h = true) ∧
  (decider = None → overridden = false).
Proof.
  intros Hh. unfold evaluate_host_policy.
  destruct (decided st (request_host request) (request_port request)) as [|[]] eqn:E.
  - intros [= <-]. apply host_blocked_Allowed in E as (h' & Hh' & Hd & Hl & Ha & Hm). rewrite Hh in Hh'. injection Hh' as <-. by split_and!.
  - done.
  - destruct (host_blocked_NotAllowed _ _ _ _ Hh E) as [Hd Hl]. destruct decider as [f|]; [|done].
    destruct (map_decider_decision _); [|done]. intros [= <-]. by split_and!.
  - done.
Qed.
End decisions.

Lemma allowed_request_is_safe_witness :
  let st := mkState (mkConfig true true false false Full (Some [(lit "localhost", PermAllow)]) None false false false)
    [lit "localhost"] [lit "evil.example"] (mkConstraints None None None None None None None None None None None) [] 0 in
  globset_matches_host_or_unscoped seqb (deny_set st) (lit "localhost") = false ∧
  host_reachable (fun _ _ => None) st (lit "localhost") 80 ∧
  globset_matches_host_or_unscoped seqb (allow_set st) (lit "localhost") = true.
Proof.
  intros st.
  destruct (allowed_request_is_safe seqb (fun _ _ => None) st None None (Some (fun _ => Allow))
    (mkRequest ProtocolHttp (lit "LocalHost:80") 80 None None) false (lit "localhost")) as (H1 & H2 & H3 & _);
    [vm_compute; reflexivity..|].
  split; [exact H1|]. split; [exact (H2 eq_refl)|]. apply (H3 eq_refl).
Defined.

(** ** Connecting *)

Section connecting.
Context (glob_match : str → str → bool) (lookup_host : str → N → option (list IpAddr)) (show_ip : IpAddr → str).
(** What is displayed of an address is read back as it, and has no scope. *)
Definition displayed (ip : IpAddr) : Prop :=
  host_parse (show_ip ip) = Some (show_ip ip) ∧ parse_ip (show_ip ip) = Some ip ∧ (37%N ∉ show_ip ip).

Lemma show_ip_local ip : displayed ip → is_non_public_ip ip = true → local_literal (show_ip ip) = true.
Proof.
  intros (_ & Hp & Hs). unfold local_literal, unscoped_ip_literal.
  rewrite (split_once_None _ _ Hs). cbn [mbind option_bind default from_option id]. rewrite Hp. intros ->.
  by destruct (is_loopback_host (show_ip ip)).
Qed.

Lemma connect_local st target port addr :
  displayed addr → allow_local_binding (config st) = false → is_non_public_ip addr = true →
  connect_permitted glob_match lookup_host show_ip st target port addr = true →
  host_blocked glob_match lookup_host st (target_str show_ip target) port = Allowed ∧
  match target with
  | HostAddress ip =>
      ip = addr ∧ is_explicit_local_allowlisted (default [] (allowed_domains (config st))) (show_ip addr) = true
  | HostName name => is_localhost_name name = true ∧ is_loopback addr = true
  end.
Proof.
  intros Hd Hb Hn. unfold connect_permitted, allows_non_public_target. rewrite Hn, Hb. cbn [andb negb].
  destruct (target_matches_non_public_addr target addr) eqn:Et; [|done]. rewrite negb_involutive, bool_decide_eq_true.
  intros Ha. split; [done|]. destruct target as [ip|name]; cbn in Et.
  - apply bool_decide_eq_true in Et as ->. split; [done|].
    apply host_blocked_Allowed in Ha as (h & Hh & _ & Hl & _). cbn [target_str] in Hh.
    rewrite (proj1 Hd) in Hh. injection Hh as <-. specialize (Hl Hb). unfold host_reachable in Hl.
    by rewrite (show_ip_local addr Hd Hn) in Hl.
  - by apply andb_true_iff in Et.
Qed.

(** C35: a name cannot be rebound to the local network: unless local binding is enabled, a tunnel
    is opened to an address that is not public only if the request named that very address,
    or [localhost] for a loopback address, and the policy allows that host (a named address
    is then on the allow list literally), or if the connection goes to an upstream proxy
    instead, whose address is not checked: this happens only if upstream proxies are
    allowed, the environment names one and the request named neither an address that is not
    public nor [localhost]. *)
Theorem no_rebinding env st target port addr :
  displayed addr → allow_local_binding (config st) = false → is_non_public_ip addr = true →
  serve_permitted glob_match lookup_host show_ip (tunnel_proxy env st target) st target port addr = true →
  (tunnel_proxy env st target = None ∧
   host_blocked glob_match lookup_host st (target_str show_ip target) port = Allowed ∧
   match target with
   | HostAddress ip =>
       ip = addr ∧ is_explicit_local_allowlisted (default [] (allowed_domains (config st))) (show_ip addr) = true
   | HostName name => is_localhost_name name = true ∧ is_loopback addr = true
   end) ∨
  (∃ proxy, tunnel_proxy env st target = Some proxy ∧ allow_upstream_proxy (config st) = true ∧
     proxy ∈ omap id [proxy_https env; proxy_http env; proxy_all env] ∧
     match target with HostAddress ip => is_non_public_ip ip = false | HostName name => is_localhost_name name = false end).
Proof.
  intros Hd Hb Hn. destruct (tunnel_proxy env st target) as [proxy|] eqn:E; cbn [serve_permitted].
  - intros _. right. exists proxy. split; [done|]. unfold tunnel_proxy in E. destruct (allow_upstream_proxy (config st)); [|done].
    split; [done|]. unfold proxy_for_target in E. destruct (is_non_public_target target) eqn:Et; [done|]. split.
    + unfold proxy_for_protocol, or_else in E. destruct (proxy_https env), (proxy_http env), (proxy_all env); simplify_eq; cbn; set_solver.
    + by destruct target.
  - intros H. left. split; [done|]. by apply connect_local.
Qed.
End connecting.

Lemma no_rebinding_witness :
  let st := mkState (mkConfig true true false false Full (Some [(lit "10.0.0.1", PermAllow)]) None false false false)
    [lit "10.0.0.1"] [] (mkConstraints None None None None None None None None None None None) [] 0 in
  let addr := V4 (ipv4_of 10 0 0 1) in
  host_blocked seqb (fun _ _ => None) st (lit "10.0.0.1") 80 = Allowed ∧
  is_explicit_local_allowlisted (default [] (allowed_domains (config st))) (lit "10.0.0.1") = true.
Proof.
  intros st addr.
  destruct (no_rebinding seqb (fun _ _ => None) (fun _ => lit "10.0.0.1") (mkProxyConfig (Some (lit "http://proxy:3128")) None None)
    st (HostAddress addr) 80 addr) as [(_ & H1 & _ & H2)|(proxy & E & _)].
  - split; [vm_compute; reflexivity|]. split; [vm_compute; reflexivity|]. vm_compute. set_solver.
  - reflexivity.
  - vm_compute. reflexivity.
  - vm_compute. reflexivity.
  - split; [exact H1|exact H2].
  - vm_compute in E. discriminate.
Defined.

(** ** Managed patterns *)

Section patterns.
Implicit Types (p q : DomainPattern) (d h : str).

(** The hosts a pattern stands for. *)
Definition covers p h : Prop :=
  match p with
  | Exact d => h = normalize_domain d
  | SubdomainsOnly d => ∃ x, x ≠ [] ∧ h = x ++ 46%N :: normalize_domain d
  | ApexAndSubdomains d => h = normalize_domain d ∨ ∃ x, x ≠ [] ∧ h = x ++ 46%N :: normalize_domain d
  end.

Definition pattern_domain p : str := match p with Exact d | SubdomainsOnly d | ApexAndSubdomains d => d end.

(** The domain of a pattern does not begin with a dot. *)
Definition labelled p : Prop := head (normalize_domain (pattern_domain p)) ≠ Some 46%N.

Lemma ends_with_Some m s : ends_with m s = true → ∃ r, s = r ++ m.
Proof. unfold ends_with. destruct (strip_suffix m s) as [r|] eqn:E; [|done]. apply strip_suffix_Some in E. eauto. Qed.

(** [c] is properly below [d]. *)
Definition below (c d : str) : Prop := ∃ y, y ≠ [] ∧ normalize_domain c = y ++ 46%N :: normalize_domain d.

Lemma ends_below c d :
  ends_with (46%N :: normalize_domain d) (normalize_domain c) = true → head (normalize_domain c) ≠ Some 46%N → below c d.
Proof. intros (y & Hy)%ends_with_Some Hh. exists y. split; [|done]. intros ->. by rewrite Hy in Hh. Qed.

Lemma subdomain_or_equal c d :
  is_subdomain_or_equal c d = true → head (normalize_domain c) ≠ Some 46%N →
  normalize_domain c = normalize_domain d ∨ below c d.
Proof.
  unfold is_subdomain_or_equal. destruct (seqb _ _) eqn:E; [apply seqb_eq in E; by left|]. intros. right. by apply ends_below.
Qed.

Lemma strict_subdomain c d : is_strict_subdomain c d = true → head (normalize_domain c) ≠ Some 46%N → below c d.
Proof. unfold is_strict_subdomain. intros [_ H]%andb_true_iff. by apply ends_below. Qed.

(** What is below a subdomain is below the domain. *)
Lemma below_covers c d h :
  below c d → covers (ApexAndSubdomains c) h → covers (SubdomainsOnly d) h.
Proof.
  intros (y & Hy & E) [->|(x & Hx & ->)]; cbn; rewrite E; [by exists y|].
  exists (x ++ 46%N :: y). split; [by destruct x|]. by rewrite <- app_assoc.
Qed.

(** A managed pattern that allows a configured one covers every host the configured one covers,
    so an allow list that passes the check is no wider than the managed one. *)
Theorem pattern_allows_sound p q h : pattern_allows p q = true → labelled q → covers q h → covers p h.
Proof.
  unfold labelled. destruct p as [d|d|d], q as [c|c|c]; cbn [pattern_allows pattern_domain]; intros H Hl Hc; try done.
  1-3,5: destruct (subdomain_or_equal c d H Hl) as [E|E]; [by cbn in *; rewrite <- E; auto|].
  1-3: right; apply (below_covers c); [done|]; cbn in *; by auto.
  - apply (below_covers c); [done|]. by right.
  - apply (below_covers c); [by apply strict_subdomain|done].
  - apply (below_covers c); [by apply strict_subdomain|]. by left.
  - apply seqb_eq in H. cbn in *. congruence.
Qed.
End patterns.

Lemma pattern_allows_sound_witness :
  covers (ApexAndSubdomains (lit "Example.com.")) (lit "api.eu.example.com").
Proof.
  apply (pattern_allows_sound _ (SubdomainsOnly (lit "eu.example.com"))).
  - vm_compute. reflexivity.
  - vm_compute. discriminate.
  - exists (lit "api"). split; [discriminate|vm_compute; reflexivity].
Defined.

(** ** Managed constraints *)

Section constraints.
Context (url_host : str → option str) (mitm_hooks_valid mitm_builds : bool → bool) (glob_builds : str → bool).
Implicit Types (c : NetworkProxyConfig) (k : NetworkProxyConstraints) (st : ConfigState).
#[local] Abbreviation validate := (validate_policy_against_constraints url_host mitm_hooks_valid).

Definition mode_ok (m : NetworkMode) k : bool :=
  match max_mode k with Some max => (network_mode_rank m <=? network_mode_rank max)%N | None => true end.

Lemma check_Ok field b u : check field b = Ok u ↔ b = true.
Proof. destruct b, u; done. Qed.

(** The checks but the one of the mode do not look at the mode. *)
Lemma validate_mode c k m : validate c k = Ok tt → mode_ok m k = true → validate (set_mode m c) k = Ok tt.
Proof.
  unfold validate_policy_against_constraints, mode_ok. intros H Hm.
  repeat match goal with H : rbind _ _ = Ok _ |- _ => apply rbind_ok in H as (?u & ?E & H) end.
  unfold set_mode, validate_allowed_domains, validate_denied_domains, allowed_domains, denied_domains, domain_entries,
    allow_unix_sockets in *. cbn [enabled mode mitm domains unix_sockets allow_upstream_proxy dangerously_allow_non_loopback_proxy
    dangerously_allow_all_unix_sockets allow_local_binding] in *.
  repeat match goal with E : ?r = Ok _ |- context [?r] => rewrite E; cbn [rbind] end.
  rewrite Hm. cbn [check rbind].
  repeat match goal with E : ?r = Ok _ |- context [?r] => rewrite E; cbn [rbind] end. done.
Qed.

Lemma validate_mode_ok c k : validate c k = Ok tt → mode_ok (mode c) k = true.
Proof.
  unfold validate_policy_against_constraints. intros H.
  repeat match goal with H : rbind _ _ = Ok _ |- _ => apply rbind_ok in H as (?u & ?E & H) end.
  match goal with E : check FMode _ = Ok _ |- _ => by apply check_Ok in E end.
Qed.

(** The globs are those of the configuration, and the configuration is within its bounds. *)
Definition compiled st : Prop :=
  compile_denylist_globset glob_builds (default [] (denied_domains (config st))) = Some (deny_set st) ∧
  compile_allowlist_globset glob_builds (default [] (allowed_domains (config st))) = Some (allow_set st).

Definition sound st : Prop := compiled st ∧ validate (config st) (constraints st) = Ok tt.

Lemma build_compiled c k st : build_config_state mitm_builds glob_builds c k = Some st → compiled st ∧ config st = c ∧ constraints st = k.
Proof.
  unfold build_config_state. destruct (unix_socket_paths_absolute c); [|done].
  destruct (negb (credential_broker c) || mitm c); [|done].
  destruct (validate_non_global_wildcard_domain_patterns _ _); [|done].
  intros (d & Hd & (allow & Ha & Hs)%bind_Some)%bind_Some. destruct (mitm_builds (mitm c)); [|done]. by injection Hs as <-.
Qed.

Lemma sound_set_blocked b n st : sound st → sound (set_blocked b n st).
Proof. done. Qed.

(** *** Specifications *)

(** The specifications that can be made under some requirements: the fields of one are private. *)
Inductive spec_made (r : option NetworkConstraints) : NetworkProxySpec → Prop :=
| made_from c profile spec : from_config_and_constraints url_host mitm_hooks_valid c r profile = Ok spec → spec_made r spec
| made_again spec profile spec' :
    spec_made r spec → recompute_for_permission_profile url_host mitm_hooks_valid spec profile = Ok spec' → spec_made r spec'
| made_with_rules spec policy spec' :
    spec_made r spec → with_exec_policy_network_rules url_host mitm_hooks_valid spec policy = Ok spec' → spec_made r spec'.

(** The constraints are those of the requirements. *)
Definition managed_by (r : option NetworkConstraints) k : Prop := ∃ c profile, k = snd (required_policy c r profile).

Lemma from_config_ok c r profile spec : from_config_and_constraints url_host mitm_hooks_valid c r profile = Ok spec →
  validate (spec_config spec) (spec_constraints spec) = Ok tt ∧ managed_by r (spec_constraints spec) ∧ requirements spec = r.
Proof.
  unfold from_config_and_constraints. destruct (required_policy c r profile) as [cfg k] eqn:E.
  intros ([] & Hv & [= <-])%rbind_ok. split; [exact Hv|]. split; [|done]. exists c, profile. by rewrite E.
Qed.

Lemma spec_made_ok r spec : spec_made r spec →
  validate (spec_config spec) (spec_constraints spec) = Ok tt ∧ managed_by r (spec_constraints spec) ∧ requirements spec = r.
Proof.
  induction 1 as [c profile spec H|spec profile spec' _ (_ & _ & IH) H|spec policy spec' _ (_ & IH & Hr) H].
  - by eapply from_config_ok.
  - subst r. by eapply from_config_ok.
  - unfold with_exec_policy_network_rules in H. apply rbind_ok in H as ([] & Hv & [= <-]). by split_and!.
Qed.

(** *** The running proxy *)

(** What operations have read and are about to write. *)
Inductive Pending :=
| PSetMode (m : NetworkMode) (k : NetworkProxyConstraints)
| PUpdate (u : Update)
| PReload (new_state : ConfigState)
| PReplace (new_state : ConfigState).

Record Proxy := mkProxy { proxy_state : ConfigState; proxy_reloader : Reloader; pending : list Pending }.

(** A proxy is started from a specification. *)
Definition started_proxy (spec : NetworkProxySpec) : option Proxy :=
  (fun '(st, reloader) => mkProxy st reloader []) <$> build_state_with_audit_metadata mitm_builds glob_builds spec.

(** One step of any of the operations that run concurrently; the lock is held within a step.
    The configuration that replaces the one of a running proxy is that of another
    specification under the same requirements [r]. *)
Inductive proxy_step (r : option NetworkConstraints) (broker : bool) : Proxy → Proxy → Prop :=
| step_mode_read st l ps m k :
    set_network_mode_read url_host mitm_hooks_valid m st = Ok k →
    proxy_step r broker (mkProxy st l ps) (mkProxy st l (PSetMode m k :: ps))
| step_mode_write st st' l ps qs m k :
    set_network_mode_write m k st = Some st' →
    proxy_step r broker (mkProxy st l (ps ++ PSetMode m k :: qs)) (mkProxy st' l (ps ++ qs))
| step_update_read st l ps host target u :
    update_domain_list_read url_host mitm_hooks_valid mitm_builds glob_builds host target st = Ok u →
    proxy_step r broker (mkProxy st l ps) (mkProxy st l (PUpdate u :: ps))
| step_update_write st st' l ps qs u :
    update_domain_list_write u st = Some st' →
    proxy_step r broker (mkProxy st l (ps ++ PUpdate u :: qs)) (mkProxy st' l (ps ++ qs))
| step_reload_read st l ps new_state new_state' :
    maybe_reload l = Some new_state → reload_read broker new_state st = Some new_state' →
    proxy_step r broker (mkProxy st l ps) (mkProxy st l (PReload new_state' :: ps))
| step_reload_write st l ps qs new_state :
    proxy_step r broker (mkProxy st l (ps ++ PReload new_state :: qs)) (mkProxy new_state l (ps ++ qs))
| step_force_reload st st' l ps new_state :
    reload_now l = Some new_state → force_reload broker new_state st = Some st' →
    proxy_step r broker (mkProxy st l ps) (mkProxy st' l ps)
| step_replace_read st l ps spec new_state :
    spec_made r spec → build_config_state_for_spec mitm_builds glob_builds spec = Some new_state →
    replace_permitted new_state st = true →
    proxy_step r broker (mkProxy st l ps) (mkProxy st l (PReplace new_state :: ps))
| step_replace_write st st' l ps qs new_state :
    replace_config_state broker new_state st = Some st' →
    proxy_step r broker (mkProxy st l (ps ++ PReplace new_state :: qs)) (mkProxy st' l (ps ++ qs))
| step_retry st l ps qs p : proxy_step r broker (mkProxy st l (ps ++ p :: qs)) (mkProxy st l (ps ++ qs))
| step_record st l ps e : proxy_step r broker (mkProxy st l ps) (mkProxy (record_blocked e st) l ps)
| step_drain st l ps : proxy_step r broker (mkProxy st l ps) (mkProxy (fst (drain_blocked st)) l ps).

(** Sound, and under the constraints of the requirements. *)
Definition managed (r : option NetworkConstraints) st : Prop := sound st ∧ managed_by r (constraints st).

Definition pending_ok r (p : Pending) : Prop :=
  match p with
  | PSetMode m k => mode_ok m k = true
  | PUpdate UpdateDone => True
  | PUpdate (UpdateReady _ _ new_state) => managed r new_state
  | PReload new_state | PReplace new_state => managed r new_state
  end.

Definition proxy_ok r (p : Proxy) : Prop :=
  managed r (proxy_state p) ∧ (∀ st, reload_now (proxy_reloader p) = Some st → managed r st) ∧ Forall (pending_ok r) (pending p).

Lemma update_read_ok r host target st u :
  managed r st → update_domain_list_read url_host mitm_hooks_valid mitm_builds glob_builds host target st = Ok u → pending_ok r (PUpdate u).
Proof.
  intros [Hs Hm]. unfold update_domain_list_read. destruct (host_parse host) as [h|]; [|done].
  destruct (_ && _); [by intros [= <-]|]. intros (? & Hv & H)%rbind_ok.
  destruct (build_config_state _ _ _ _) as [new|] eqn:E; [|done]. injection H as <-. cbn.
  apply build_compiled in E as (Hc & E1 & E2). split; [|cbn; by rewrite E2]. apply sound_set_blocked. split; [done|]. rewrite E1, E2.
  by destruct (validate _ (constraints st)) as [[]|].
Qed.

Lemma build_for_spec_ok r spec st :
  spec_made r spec → build_config_state_for_spec mitm_builds glob_builds spec = Some st → managed r st.
Proof.
  intros (Hv & Hm & _)%spec_made_ok (Hc & E1 & E2)%build_compiled. split; [split; [done|]|]; by rewrite ?E1, E2.
Qed.

Lemma started_proxy_ok r spec p : spec_made r spec → started_proxy spec = Some p → proxy_ok r p.
Proof.
  unfold started_proxy, build_state_with_audit_metadata. intros Hs.
  destruct (build_config_state_for_spec _ _ spec) as [st|] eqn:E; [|done]. intros [= <-].
  pose proof (build_for_spec_ok _ _ _ Hs E). split; [done|]. split; [|constructor]. by intros st' [= <-].
Qed.

Lemma replaced_ok r b n st : managed r st → managed r (set_blocked b n st).
Proof. done. Qed.

Lemma proxy_step_ok r broker p q : proxy_step r broker p q → proxy_ok r p → proxy_ok r q.
Proof.
  intros [st l ps m k H|st st' l ps qs m k H|st l ps host target u H|st st' l ps qs u H|st l ps new new' Hl H|st l ps qs new
         |st st' l ps new Hl H|st l ps spec new Hs Hb H|st st' l ps qs new H|st l ps qs x|st l ps e|st l ps] (Hst & Hre & Hps);
    cbn [proxy_state proxy_reloader pending] in *.
  all: try (apply Forall_app in Hps as [Hps [Hp Hqs]%Forall_cons]).
  all: try by split_and!; [| |apply Forall_app].
  - apply rbind_ok in H as ([] & Hv & [= <-]). split_and!; [done..|]. constructor; [|done]. exact (validate_mode_ok _ _ Hv).
  - unfold set_network_mode_write in H. case_decide as Hk; [|done]. injection H as <-. subst k. split_and!; [|done|by apply Forall_app].
    destruct Hst as [[Hc Hv] Hm]. split; [split; [exact Hc|]|done]. by apply validate_mode.
  - split_and!; [done..|]. constructor; [|done]. by eapply update_read_ok.
  - split_and!; [|done|by apply Forall_app]. destruct u as [|prev k new]; cbn in H; [by injection H as <-|].
    case_decide; [|done]. injection H as <-. exact Hp.
  - by destruct l.
  - unfold force_reload in H. case_bool_decide; [|done]. injection H as <-. split_and!; [|done..]. by apply replaced_ok, Hre.
  - split_and!; [done..|]. constructor; [|done]. by eapply build_for_spec_ok.
  - unfold replace_config_state in H. case_bool_decide; [|done]. injection H as <-. split_and!; [|done|by apply Forall_app].
    by apply replaced_ok.
  - by split_and!.
  - by split_and!.
Qed.

(** *** What the constraints of requirements say *)

Lemma validate_local_binding c k : validate c k = Ok tt → max_allow_local_binding k = Some false → allow_local_binding c = false.
Proof.
  unfold validate_policy_against_constraints. intros H E.
  repeat match goal with H : rbind _ _ = Ok _ |- _ => apply rbind_ok in H as (?u & ?E & H) end.
  match goal with E : check FLocalBinding _ = Ok _ |- _ => apply check_Ok in E end. rewrite E in *.
  by destruct (allow_local_binding c).
Qed.

Lemma validate_denied c k ds d : validate c k = Ok tt → managed_denied_domains k = Some ds → d ∈ ds →
  to_ascii_lowercase d ∈ lowercase_set (default [] (denied_domains c)).
Proof.
  unfold validate_policy_against_constraints. intros H E Hd.
  repeat match goal with H : rbind _ _ = Ok _ |- _ => apply rbind_ok in H as (?u & ?E & H) end.
  match goal with E : validate_denied_domains _ _ = Ok _ |- _ => unfold validate_denied_domains in E; rename E into Hv end.
  rewrite E in Hv. apply rbind_ok in Hv as (? & _ & Hv).
  assert (to_ascii_lowercase d ∈ lowercase_set ds) as Hin.
  { unfold lowercase_set. apply elem_of_list_to_set, list_elem_of_In, in_map, list_elem_of_In, Hd. }
  assert (∀ A B : gset str, A ∖ B = ∅ → to_ascii_lowercase d ∈ A → to_ascii_lowercase d ∈ B) as Hdiff.
  { intros A B HAB HA. destruct (decide (to_ascii_lowercase d ∈ B)) as [|Hn]; [done|].
    destruct (not_elem_of_empty (C := gset str) (to_ascii_lowercase d)). rewrite <- HAB. by apply elem_of_difference. }
  destruct (denylist_expansion_enabled k) as [[]|]; apply check_Ok, bool_decide_eq_true in Hv; [eauto| |eauto].
  by rewrite Hv.
Qed.

Lemma managed_local_binding r k : managed_by (Some r) k → max_allow_local_binding k = req_allow_local_binding r.
Proof.
  intros (c & profile & ->). cbn [required_policy]. unfold apply_requirements, require. by repeat case_match; simplify_eq.
Qed.

Lemma managed_denied r k l : managed_by (Some r) k → req_domains r = Some l → managed_denied_domains k = toml_denied_domains l.
Proof.
  intros (c & profile & ->) E. cbn [required_policy]. unfold apply_requirements, require. rewrite E.
  by repeat case_match; simplify_eq.
Qed.

Lemma toml_denied l d : (d, false) ∈ l → ∃ ds, toml_denied_domains l = Some ds ∧ d ∈ ds.
Proof.
  intros Hd. unfold toml_denied_domains. assert (d ∈ toml_entries false l) as Hin.
  { unfold toml_entries. apply list_elem_of_In, (in_map fst _ (d, false)), filter_In. by rewrite <- list_elem_of_In. }
  destruct (toml_entries false l) as [|x ds]; [by apply not_elem_of_nil in Hin|]. by eexists.
Qed.

(** C22: managed requirements hold in a running proxy.  However mode changes, updates of the
    domain lists, reloads and replacements of the configuration by other specifications under
    the same requirements interleave with a proxy that was started from a specification under
    them, though their checks and their writes hold different locks: the configuration in
    force passes the checks of the constraints, the globs in force are the ones it compiles
    to, local binding is off if the requirements forbid it, and every domain that they deny is
    on the deny list. *)
Theorem managed_constraints_hold r broker spec p q :
  spec_made r spec → started_proxy spec = Some p → rtc (proxy_step r broker) p q →
  let st := proxy_state q in
  sound st ∧
  ∀ req, r = Some req →
    (req_allow_local_binding req = Some false → allow_local_binding (config st) = false) ∧
    ∀ l d, req_domains req = Some l → (d, false) ∈ l →
      to_ascii_lowercase d ∈ lowercase_set (default [] (denied_domains (config st))).
Proof.
  intros Hs Hp Hr st. assert (proxy_ok r q) as [[Hq Hm] _].
  { apply (started_proxy_ok _ _ _ Hs) in Hp. clear Hs st. induction Hr as [|x y z Hxy Hyz IH]; [done|].
    apply IH. by eapply proxy_step_ok. }
  split; [exact Hq|]. intros req ->. destruct Hq as [_ Hv]. split.
  - intros Hb. eapply validate_local_binding; [exact Hv|]. by rewrite (managed_local_binding _ _ Hm).
  - intros l d Hl (ds & Hds & Hd)%toml_denied. eapply validate_denied; [exact Hv| |exact Hd].
    by rewrite (managed_denied _ _ _ Hm Hl).
Qed.
End constraints.

(** Requirements that deny a domain and local binding; a user adds another domain. *)
Lemma managed_constraints_hold_witness :
  let url h := Some h in let yes (_ : bool) := true in let builds (_ : str) := true in
  let req := mkRequirements (Some true) None None None (Some [(lit "evil.example", false)]) None None (Some false) in
  match from_config_and_constraints url yes config_default (Some req) SandboxPolicy.Disabled with
  | Ok spec => match started_proxy yes builds spec with
    | Some p => ∃ st', rtc (proxy_step url yes yes builds (Some req) false) p (mkProxy st' (proxy_reloader p) []) ∧
        allowed_domains (config st') = Some [lit "ok.example"] ∧ allow_local_binding (config st') = false
    | None => False end
  | Err _ => False
  end.
Proof.
  intros url yes builds req.
  destruct (from_config_and_constraints url yes config_default (Some req) SandboxPolicy.Disabled) as [spec|] eqn:Es;
    [|vm_compute in Es; discriminate].
  destruct (started_proxy yes builds spec) as [p|] eqn:Ep;
    [|vm_compute in Es; injection Es as <-; vm_compute in Ep; discriminate].
  destruct (update_domain_list_read url yes yes builds (lit "ok.example") AllowList (proxy_state p)) as [u|] eqn:Eu.
  2: { vm_compute in Es. injection Es as <-. vm_compute in Ep. injection Ep as <-. vm_compute in Eu. discriminate. }
  destruct (update_domain_list_write u (proxy_state p)) as [st'|] eqn:Ew.
  2: { vm_compute in Es. injection Es as <-. vm_compute in Ep. injection Ep as <-. vm_compute in Eu. injection Eu as <-.
       vm_compute in Ew. discriminate. }
  assert (Hr : rtc (proxy_step url yes yes builds (Some req) false) p (mkProxy st' (proxy_reloader p) [])).
  { destruct p as [st l ps]. assert (ps = []) as -> by (vm_compute in Es; injection Es as <-; vm_compute in Ep; by injection Ep as _ _ <-).
    eapply rtc_l; [apply (step_update_read _ _ _ _ _ _ st l [] (lit "ok.example") AllowList u Eu)|].
    eapply rtc_l; [apply (step_update_write _ _ _ _ _ _ st st' l [] [] u Ew)|]. apply rtc_refl. }
  exists st'. split; [exact Hr|]. split.
  - vm_compute in Es. injection Es as <-. vm_compute in Ep. injection Ep as <-. vm_compute in Eu. injection Eu as <-.
    vm_compute in Ew. injection Ew as <-. vm_compute. reflexivity.
  - destruct (managed_constraints_hold url yes yes builds (Some req) false spec p (mkProxy st' (proxy_reloader p) [])
      (made_from _ _ _ _ _ _ Es) Ep Hr) as [_ H]. destruct (H req eq_refl) as [Hb _]. apply Hb. reflexivity.
Defined.

(** ** Adding a denied domain *)

Section denying.
Context (url_host : str → option str) (mitm_hooks_valid mitm_builds : bool → bool).
Context (glob_builds : str → bool) (glob_match : str → str → bool) (lookup_host : str → N → option (list IpAddr)).

(** A name without the characters that mean something in a glob. *)
Definition plain (h : str) : Prop := ∀ c, c ∈ h → c ∉ lit "*?[]{}\!".

(** A host in normal form. *)
Definition stable (h : str) : Prop := h ≠ [] ∧ normalize_host h = h ∧ trim h = h.

Lemma add_candidates_in cs set set' :
  add_candidates glob_builds cs set = Some set' → ∀ x, x ∈ set ∨ x ∈ cs → x ∈ set'.
Proof.
  revert set. induction cs as [|c cs IH]; intros set; cbn; [intros [= <-]; set_solver|].
  destruct (existsb (seqb c) set) eqn:E.
  - intros H x [Hx|[->|Hx]%elem_of_cons]; [eauto| |eauto]. apply existsb_exists in E as (y & Hy & ->%seqb_eq).
    apply (IH _ H). left. by apply list_elem_of_In.
  - destruct (glob_builds c); [|done]. intros H x Hx. apply (IH _ H). set_solver.
Qed.

Lemma compile_from_in b ps set set' :
  compile_from glob_builds b ps set = Some set' →
  ∀ x, x ∈ set ∨ (∃ p, p ∈ ps ∧ x ∈ expand_domain_pattern (normalize_pattern p)) → x ∈ set'.
Proof.
  revert set. induction ps as [|p ps IH]; intros set; cbn; [intros [= <-]; set_solver|].
  destruct (b && _); [done|]. intros (s1 & H1 & H)%bind_Some x Hx. apply (IH _ H).
  pose proof (add_candidates_in _ _ _ H1 x). set_solver.
Qed.

(** Normal forms keep a leading star. *)
Lemma normalize_ip_literal_star h r : normalize_ip_literal (42%N :: h) = Some r → 42%N ∈ r.
Proof.
  unfold normalize_ip_literal. destruct (parse_ip (42%N :: h)); [intros [= <-]; left|].
  assert (Hs : ∀ delim r', match split_once delim (42%N :: h) with
     | Some (ip, scope) => match parse_ip ip with Some _ => Some (ip ++ lit "%" ++ scope) | None => None end
     | None => None end = Some r' → 42%N ∈ r').
  { intros delim r'. destruct (split_once delim (42%N :: h)) as [[ip scope]|] eqn:E; [|done].
    apply split_once_app in E. destruct ip as [|c ip]; [by vm_compute|]. injection E as <- _.
    destruct (parse_ip _); [|done]. intros [= <-]. left. }
  destruct (match split_once (lit "%25") _ with Some _ => _ | None => _ end) as [r'|] eqn:E.
  - intros [= <-]. by apply (Hs (lit "%25")).
  - intros E2. by apply (Hs (lit "%")).
Qed.

Lemma normalize_dns_star h : 42%N ∈ normalize_dns_host_or_ip_literal (42%N :: h).
Proof.
  unfold normalize_dns_host_or_ip_literal.
  assert (∃ t, trim_end_matches 46 (to_ascii_lowercase (42%N :: h)) = 42%N :: t) as [t ->].
  { cbn. destruct (trim_end_matches 46 _); by eexists. }
  destruct (normalize_ip_literal (42%N :: t)) as [r|] eqn:E; [by eapply normalize_ip_literal_star|left].
Qed.

Lemma normalize_host_star e r : trim e = 42%N :: r → 42%N ∈ normalize_host e.
Proof.
  intros E. unfold normalize_host. rewrite E. destruct (_ =? 1)%nat; [|apply normalize_dns_star].
  cbn [split_on N.eqb Pos.eqb]. destruct (split_on 58 r); apply normalize_dns_star.
Qed.

Lemma plain_no_star h : plain h → 42%N ∉ h.
Proof. intros Hp H. apply (Hp _ H). vm_compute. left. Qed.

Lemma strip_star p s r : strip_prefix (42%N :: p) s = Some r → ∃ t, s = 42%N :: t.
Proof. intros ->%strip_prefix_Some. by eexists. Qed.

Lemma trim_start_idemp s : trim_start (trim_start s) = trim_start s.
Proof. induction s as [|c s IH]; cbn; [done|]. destruct (is_whitespace c) eqn:E; [done|]. cbn. by rewrite E. Qed.

Lemma trim_idemp s : trim (trim s) = trim s.
Proof. unfold trim at 1 2. rewrite trim_start_trim_end. unfold trim. by rewrite trim_start_idemp, trim_end_idemp. Qed.

Lemma normalize_host_trim s : normalize_host (trim s) = normalize_host s.
Proof. unfold normalize_host. by rewrite trim_idemp. Qed.

(** A pattern whose normal form has no star is a host. *)
Lemma normalize_pattern_host e : 42%N ∉ normalize_host e → normalize_pattern e = normalize_host e.
Proof.
  intros Hn. assert (Hs : ∀ t, trim e ≠ 42%N :: t) by (intros t Ht; apply Hn; by eapply normalize_host_star).
  unfold normalize_pattern. destruct (seqb (trim e) (lit "*")) eqn:Es; [apply seqb_eq in Es; by destruct (Hs [])|].
  destruct (strip_prefix (lit "**.") (trim e)) eqn:E1; [apply strip_star in E1 as [t Ht]; by destruct (Hs t)|].
  destruct (strip_prefix (lit "*.") (trim e)) eqn:E2; [apply strip_star in E2 as [t Ht]; by destruct (Hs t)|].
  apply normalize_host_trim.
Qed.

Lemma expand_host h : stable h → 42%N ∉ h → expand_domain_pattern h = [h].
Proof.
  intros (Hne & _ & Ht) Hs. unfold expand_domain_pattern, domain_pattern_parse. rewrite Ht.
  rewrite (proj2 (seqb_neq h [])) by done.
  destruct (strip_prefix (lit "**.") h) eqn:E1; [apply strip_star in E1 as [t ->]; set_solver|].
  destruct (strip_prefix (lit "*.") h) eqn:E2; [apply strip_star in E2 as [t ->]; set_solver|]. done.
Qed.

(** A host on the deny list is denied. *)
Lemma denied_entry st e h :
  compiled glob_builds st → stable h → plain h → glob_match h h = true →
  e ∈ default [] (denied_domains (config st)) → normalize_host e = h →
  globset_matches_host_or_unscoped glob_match (deny_set st) h = true.
Proof.
  intros [Hc _] Hs Hp Hg He Hn. pose proof (plain_no_star h Hp) as Hstar.
  assert (Hin : h ∈ deny_set st).
  { apply (compile_from_in _ _ _ _ Hc). right. exists e. split; [done|].
    rewrite normalize_pattern_host, Hn by (by rewrite Hn). rewrite expand_host by done. left. }
  unfold globset_matches_host_or_unscoped, is_match. apply orb_true_iff. left. apply existsb_exists. exists h.
  split; [by apply list_elem_of_In|done].
Qed.

(** The last entry of its pattern is effective. *)
Lemma merge_entry_new e acc : (∀ x, x ∈ acc → fst x ≠ fst e) → merge_entry e acc = acc ++ [e].
Proof.
  induction acc as [|[p perm] acc IH]; intros H; cbn; [done|].
  rewrite (proj2 (seqb_neq p (fst e))) by (apply (H (p, perm)); left). f_equal. apply IH. intros x Hx. apply H. by right.
Qed.

Lemma merge_entry_keys e acc x : x ∈ merge_entry e acc → fst x = fst e ∨ ∃ y, y ∈ acc ∧ fst x = fst y.
Proof.
  induction acc as [|[p perm] acc IH]; cbn; [intros ->%list_elem_of_singleton; by left|].
  destruct (seqb p (fst e)).
  - intros [->|Hx]%elem_of_cons; right; [exists (p, perm)|exists x]; (split; [|done]); [left|by right].
  - intros [->|Hx]%elem_of_cons; [right; exists (p, perm); split; [left|done]|].
    destruct (IH Hx) as [?|(y & Hy & ?)]; [by left|right; exists y; split; [by right|done]].
Qed.

Lemma effective_keys entries x : x ∈ effective_entries entries → ∃ y, y ∈ entries ∧ fst x = fst y.
Proof.
  unfold effective_entries. revert x. induction entries as [|e entries IH] using rev_ind; intros x; [set_solver|].
  rewrite foldl_snoc. intros [?|(y & Hy & E)]%merge_entry_keys; [exists e; set_solver|].
  rewrite E. destruct (IH y Hy) as (z & Hz & ?). exists z. set_solver.
Qed.

Lemma upsert_denied c h :
  normalize_host h = h → h ∈ default [] (denied_domains (upsert_domain_permission h PermDeny normalize_host c)).
Proof.
  intros Hn. unfold upsert_domain_permission, denied_domains, domain_entries, set_domains. cbn [domains].
  set (l := List.filter _ _). assert (Hl : ∀ x, x ∈ l → fst x ≠ h).
  { intros x [_ Hx]%list_elem_of_In%filter_In E. rewrite E, Hn, seqb_refl in Hx. done. }
  assert (some_entries (l ++ [(h, PermDeny)]) = Some (l ++ [(h, PermDeny)])) as -> by (by destruct l).
  cbn [fmap option_fmap option_map mbind option_bind]. unfold effective_entries. rewrite foldl_snoc, merge_entry_new.
  - rewrite List.filter_app. cbn. rewrite bool_decide_true by done. rewrite map_app. cbn.
    match goal with |- context [?k ++ [h]] => generalize k; intros k'; destruct k' as [|y ys] end;
      cbn; [left|right; apply elem_of_app; right; left].
  - intros x Hx. destruct (effective_keys l x Hx) as (y & Hy & ->). cbn. by apply Hl.
Qed.

(** Denying a domain takes effect at once: when the update of the deny list succeeds, the host
    is denied from then on, whatever the allow list and local settings say. *)
Theorem denied_domain_is_denied st st' host h u port :
  compiled glob_builds st → host_parse host = Some h → stable h → plain h → glob_match h h = true →
  update_domain_list_read url_host mitm_hooks_valid mitm_builds glob_builds host DenyList st = Ok u →
  update_domain_list_write u st = Some st' →
  host_blocked glob_match lookup_host st' host port = Blocked Denied.
Proof.
  intros Hc Hh Hs Hp Hg. unfold update_domain_list_read. rewrite Hh.
  enough (Hden : ∀ st' : ConfigState, globset_matches_host_or_unscoped glob_match (deny_set st') h = true →
    host_blocked glob_match lookup_host st' host port = Blocked Denied).
  2: { intros s Hm. unfold host_blocked. by rewrite Hh, Hm. }
  destruct (_ && _) eqn:E.
  - intros [= <-] [= <-]. apply Hden. apply andb_true_iff in E as [E _]. apply existsb_exists in E as (e & He & Hn%seqb_eq).
    apply (denied_entry st e); try done. by apply list_elem_of_In.
  - intros (? & _ & H)%rbind_ok. destruct (build_config_state _ _ _ _) as [new|] eqn:Eb; [|done]. injection H as <-.
    cbn [update_domain_list_write]. case_decide; [|done]. intros [= <-]. apply Hden. cbn [deny_set set_blocked].
    apply build_compiled in Eb as (Hc' & E1 & _). apply (denied_entry new h); try done; [|by destruct Hs as (_ & ? & _)].
    rewrite E1. apply upsert_denied. by destruct Hs as (_ & ? & _).
Qed.
End denying.

Lemma denied_domain_is_denied_witness :
  let st := mkState (mkConfig true true false false Full (Some [(lit "evil.example", PermAllow)]) None false false false)
    [lit "evil.example"] [] (mkConstraints None None None None None None None None None None None) [] 0 in
  let read := update_domain_list_read (fun h => Some h) (fun _ => true) (fun _ => true) (fun _ => true) (lit "Evil.Example.") DenyList in
  ∃ u st', read st = Ok u ∧ update_domain_list_write u st = Some st' ∧
    host_blocked seqb (fun _ _ => None) st' (lit "Evil.Example.") 443 = Blocked Denied.
Proof.
  intros st read. destruct (read st) as [u|] eqn:Eu; [|vm_compute in Eu; discriminate].
  destruct (update_domain_list_write u st) as [st'|] eqn:Ew; [|vm_compute in Eu; injection Eu as <-; vm_compute in Ew; discriminate].
  exists u, st'. split; [done|]. split; [done|].
  apply (denied_domain_is_denied (fun h => Some h) (fun _ => true) (fun _ => true) (fun _ => true) seqb (fun _ _ => None)
    st st' (lit "Evil.Example.") (lit "evil.example") u 443).
  - split; vm_compute; reflexivity.
  - vm_compute. reflexivity.
  - split; [discriminate|split; vm_compute; reflexivity].
  - intros c Hc. assert (Hb : forallb (fun c => negb (bool_decide (c ∈ lit "*?[]{}\!"))) (lit "evil.example") = true)
      by (vm_compute; reflexivity). rewrite forallb_forall in Hb. apply list_elem_of_In, Hb in Hc.
    by apply negb_true_iff, bool_decide_eq_false in Hc.
  - vm_compute. reflexivity.
  - exact Eu.
  - exact Ew.
Defined.

(** ** Telemetry *)

(** A request that is blocked while a domain is being added is forgotten: the update writes back
    the requests it read before. *)
Lemma blocked_request_lost_in_update :
  let st := mkState config_default [] [] (mkConstraints None None None None None None None None None None None) [] 0 in
  let e := mkBlocked (lit "a.example") (lit "not_allowed") None None None in
  ∃ u st', update_domain_list_read (fun h => Some h) (fun _ => true) (fun _ => true) (fun _ => true) (lit "b.example") AllowList st = Ok u ∧
    update_domain_list_write u (record_blocked e st) = Some st' ∧ blocked (record_blocked e st) = [e] ∧ blocked st' = [].
Proof.
  intros st e.
  destruct (update_domain_list_read (fun h => Some h) (fun _ => true) (fun _ => true) (fun _ => true) (lit "b.example") AllowList st)
    as [u|] eqn:E; vm_compute in E; [|discriminate]. injection E as <-.
  eexists _, _. split; [reflexivity|]. split; [vm_compute; reflexivity|]. split; reflexivity.
Qed.

(** A forced reload keeps the requests but not their count, other than the other ways a state is
    replaced. *)
Lemma force_reload_forgets_total broker new st st1 st2 :
  force_reload broker new st = Some st1 → replace_config_state broker new st = Some st2 →
  blocked st1 = blocked st ∧ blocked_total st1 = blocked_total new ∧
  blocked st2 = blocked st ∧ blocked_total st2 = blocked_total st.
Proof.
  unfold force_reload, replace_config_state. case_bool_decide; [|done]. by intros [= <-] [= <-].
Qed.
