(* ===== verification/ToolTypes.v ===== *)
(** * What tools, reviewers and the network exchange

    The types of [codex-rs/protocol/src] ([approvals.rs], [network_policy.rs],
    [protocol.rs], [error.rs]) that the approval of tools and of network access share, and
    [codex-rs/core/src/network_policy_decision.rs], which translates between them. *)

From S2P Require Import Prelude RustStr NetIp NetPolicy ExecPolicy ExecApproval.

(** ** [approvals.rs] *)

Inductive NetworkApprovalProtocol := ApprovalHttp | ApprovalHttps | ApprovalSocks5Tcp | ApprovalSocks5Udp.

#[export] Instance NetworkApprovalProtocol_eq_dec : EqDecision NetworkApprovalProtocol.
Proof. solve_decision. Defined.

Record NetworkApprovalContext := mkNetworkContext { context_host : str; context_protocol : NetworkApprovalProtocol }.

Inductive NetworkPolicyRuleAction := ActionAllow | ActionDeny.

Record NetworkPolicyAmendment := mkNetworkAmendment { amended_host : str; amended_action : NetworkPolicyRuleAction }.

Inductive ReviewDecision :=
| Approved
| ApprovedExecpolicyAmendment (proposed : ExecPolicyAmendment)
| ApprovedForSession
| AmendNetworkPolicy (amendment : NetworkPolicyAmendment)
| Denied (rejection : str)
| TimedOut
| ReviewAborted.

Definition to_opaque_string (d : ReviewDecision) : str :=
  match d with
  | Approved => lit "approved"
  | ApprovedExecpolicyAmendment _ => lit "approved_with_amendment"
  | ApprovedForSession => lit "approved_for_session"
  | AmendNetworkPolicy amendment =>
      match amended_action amendment with
      | ActionAllow => lit "approved_with_network_policy_allow"
      | ActionDeny => lit "denied_with_network_policy_deny"
      end
  | Denied _ => lit "denied"
  | TimedOut => lit "timed_out"
  | ReviewAborted => lit "abort"
  end.

(** [PermissionRequestDecision] of the hooks. *)
Inductive PermissionRequestDecision := HookAllow | HookDeny (message : str).

Inductive ApprovalsReviewer := ReviewerUser | ReviewerAutoReview.

(** [routes_approval_to_guardian_with_reviewer] of [guardian/review.rs]. *)
Definition routes_approval_to_guardian (policy : AskForApproval) (reviewer : ApprovalsReviewer) : bool :=
  match policy, reviewer with
  | (OnRequest | Granular _), ReviewerAutoReview => true
  | _, _ => false
  end.

Definition guardian_timeout_message : str :=
  lit "The automatic permission approval review did not finish before its deadline. " ++
  lit "Do not assume the action is unsafe based on the timeout alone. " ++
  lit "You may retry once, or ask the user for guidance or explicit approval.".

(** ** [network_policy.rs] *)

Record NetworkPolicyDecisionPayload := mkPayload {
  payload_decision : NetworkPolicyDecision;
  payload_source : NetworkDecisionSource;
  payload_protocol : option NetworkApprovalProtocol;
  payload_host : option str;
  payload_reason : option str;
  payload_port : option N
}.

Definition is_ask_from_decider (p : NetworkPolicyDecisionPayload) : bool :=
  match payload_decision p, payload_source p with PolicyAsk, Decider => true | _, _ => false end.

(** ** Errors of tools *)

(** What the orchestrator distinguishes in [SandboxErr] and [CodexErr]; the output of the
    command is its text. *)
Inductive SandboxErr :=
| SandboxDenied (output : str) (network_policy_decision : option NetworkPolicyDecisionPayload)
| SandboxTimeout (output : str)
| SandboxSignal (signal : N)
| SandboxOther (message : str).

Inductive CodexErr := CodexSandbox (e : SandboxErr) | CodexIo (message : str) | CodexOther (message : str).

Inductive ToolError := Rejected (message : str) | Codex (e : CodexErr).

(** ** [network_policy_decision.rs] *)

Definition parse_network_policy_decision (value : str) : option NetworkPolicyDecision :=
  if seqb value (lit "deny") then Some PolicyDeny
  else if seqb value (lit "ask") then Some PolicyAsk
  else None.

Definition network_approval_context_from_payload (payload : NetworkPolicyDecisionPayload) :
    option NetworkApprovalContext :=
  if negb (is_ask_from_decider payload) then None
  else
    protocol ← payload_protocol payload;
    host ← payload_host payload;
    let host := trim host in
    if seqb host [] then None else Some (mkNetworkContext host protocol).

Definition quote : str := [34%N].

Definition denied_network_policy_message (blocked : BlockedRequest) : option str :=
  match blocked_decision blocked ≫= parse_network_policy_decision with
  | Some PolicyDeny =>
      let host := trim (blocked_host blocked) in
      if seqb host [] then Some (lit "Network access was blocked by policy.")
      else
        let reason := blocked_reason blocked in
        let detail :=
          if seqb reason (lit "denied")
          then lit "domain is explicitly denied by policy and cannot be approved from this prompt"
          else if seqb reason (lit "not_allowed")
          then lit "domain is not on the allowlist for the current sandbox mode"
          else if seqb reason (lit "not_allowed_local")
          then lit "local/private network addresses are blocked by the sandbox policy"
          else if seqb reason (lit "method_not_allowed")
          then lit "request method is blocked by the current network mode"
          else if seqb reason (lit "proxy_disabled") then lit "network proxy is disabled"
          else lit "request is blocked by network policy" in
        Some (lit "Network access to " ++ quote ++ host ++ quote ++ lit " was blocked: " ++ detail ++ lit ".")
  | _ => None
  end.

Record ExecPolicyNetworkRuleAmendment := mkRuleAmendment {
  rule_amendment_protocol : NetworkRuleProtocol;
  rule_amendment_decision : Decision;
  rule_amendment_justification : str
}.

Definition execpolicy_network_rule_amendment (amendment : NetworkPolicyAmendment) (ctx : NetworkApprovalContext)
    (host : str) : ExecPolicyNetworkRuleAmendment :=
  let '(protocol, protocol_label) :=
    match context_protocol ctx with
    | ApprovalHttp => (Http, lit "http")
    | ApprovalHttps => (Https, lit "https_connect")
    | ApprovalSocks5Tcp => (Socks5Tcp, lit "socks5_tcp")
    | ApprovalSocks5Udp => (Socks5Udp, lit "socks5_udp")
    end in
  let '(d, action_verb) :=
    match amended_action amendment with
    | ActionAllow => (ExecPolicy.Allow, lit "Allow")
    | ActionDeny => (Forbidden, lit "Deny")
    end in
  mkRuleAmendment protocol d (action_verb ++ lit " " ++ protocol_label ++ lit " access to " ++ host).

(** [validated_network_policy_amendment_host] of [session/mod.rs]. *)
Definition validated_network_policy_amendment_host (amendment : NetworkPolicyAmendment)
    (ctx : NetworkApprovalContext) : option str :=
  let approved_host := normalize_host (context_host ctx) in
  if seqb (normalize_host (amended_host amendment)) approved_host then Some approved_host else None.
