(* ===== verification/NetworkApproval.v ===== *)
(** * Approval of network access

    [codex-rs/core/src/tools/network_approval.rs]: the service that the network proxy asks
    about hosts that are not on the allowlist.  Requests are handled concurrently; those
    for the same host share one prompt.

    A handler is a program of atomic operations on the service (one for each time that a
    mutex is held), questions to hooks, reviewers and the session, and waits for the
    decision on a pending approval; the requests interleave between them. *)

From S2P Require Import Prelude RustStr Truncate NetPolicy SandboxPolicy ExecApproval ToolTypes.

(** ** Data *)

Inductive NetworkApprovalMode := Immediate | Deferred.

Record HostApprovalKey := mkKey {
  key_environment_id : str;
  key_host : str;
  key_protocol : str;
  key_port : N
}.

#[export] Instance HostApprovalKey_eq_dec : EqDecision HostApprovalKey.
Proof. solve_decision. Defined.
#[export] Instance HostApprovalKey_countable : Countable HostApprovalKey.
Proof.
  apply (inj_countable' (fun k => (key_environment_id k, key_host k, key_protocol k, key_port k))
           (fun '(e, h, p, n) => mkKey e h p n)). by intros [].
Defined.

Definition protocol_key_label (p : NetworkApprovalProtocol) : str :=
  match p with
  | ApprovalHttp => lit "http"
  | ApprovalHttps => lit "https"
  | ApprovalSocks5Tcp => lit "socks5-tcp"
  | ApprovalSocks5Udp => lit "socks5-udp"
  end.

Definition from_request (request : NetworkPolicyRequest) (protocol : NetworkApprovalProtocol) (environment_id : str) :
    HostApprovalKey :=
  mkKey environment_id (to_ascii_lowercase (request_host request)) (protocol_key_label protocol) (request_port request).

Inductive PendingApprovalDecision := AllowOnce | AllowForSession | PendingDeny.

Definition REASON_NOT_ALLOWED : str := lit "not_allowed".
(** [NetworkDecision::deny]. *)
Definition deny (reason : str) : NetworkDecision := deny_with_source reason Decider.

Definition to_network_decision (d : PendingApprovalDecision) : NetworkDecision :=
  match d with AllowOnce | AllowForSession => NetPolicy.Allow | PendingDeny => deny REASON_NOT_ALLOWED end.

Inductive NetworkApprovalOutcome := DeniedByApproval (rejection : str) | DeniedByPolicy (message : str).

Definition REJECTION_MESSAGE_MAX_TOKENS : N := 900.
(** [None] is the panic of an overflow. *)
Definition truncate_rejection_message (message : str) : option str :=
  fst <$> truncate_middle_with_token_budget message REJECTION_MESSAGE_MAX_TOKENS.

Definition network_approval_outcome_to_result (outcome : option NetworkApprovalOutcome) :
    option (result unit ToolError) :=
  match outcome with
  | Some (DeniedByApproval message | DeniedByPolicy message) =>
      (fun m => Err (Rejected m)) <$> truncate_rejection_message message
  | None => Some (Ok tt)
  end.

Definition allows_network_approval_flow (policy : AskForApproval) : bool :=
  negb (bool_decide (policy = Never)).

Definition permission_profile_allows_network_approval_flow (p : PermissionProfile) : bool :=
  match p with Managed _ _ => true | _ => false end.

(** [GuardianNetworkAccessTrigger]: what of it is used here. *)
Record GuardianNetworkAccessTrigger := mkTrigger { trigger_call_id : str; trigger_cwd : str }.

Record ActiveNetworkApprovalCall := mkActiveCall {
  registration_id : str;
  turn_id : str;
  trigger : GuardianNetworkAccessTrigger;
  call_command : str;
  call_environment_id : str
}.

(** [PendingHostApproval], with the key that it was created for. *)
Record PendingHostApproval := mkPendingApproval {
  pending_key : HostApprovalKey;
  pending_decision : option PendingApprovalDecision
}.

(** The service.  The pending approvals are shared: the map holds references to them, and
    so do the requests that wait; a reference is the number of the request that created
    the object.  Cancellation tokens are the registrations whose token is cancelled. *)
Record NetworkApprovalService := mkService {
  active_calls : gmap str ActiveNetworkApprovalCall;
  call_outcomes : gmap str NetworkApprovalOutcome;
  cancelled : gset str;
  pending_host_approvals : gmap HostApprovalKey nat;
  pending_objects : gmap nat PendingHostApproval;
  session_approved_hosts : gset HostApprovalKey;
  session_denied_hosts : gset HostApprovalKey
}.

Definition default_service : NetworkApprovalService := mkService ∅ ∅ ∅ ∅ ∅ ∅ ∅.

(** Updates of the fields. *)
Definition with_calls active outcomes cancelled (s : NetworkApprovalService) : NetworkApprovalService :=
  mkService active outcomes cancelled (pending_host_approvals s) (pending_objects s)
    (session_approved_hosts s) (session_denied_hosts s).
Definition with_pending pending objects (s : NetworkApprovalService) : NetworkApprovalService :=
  mkService (active_calls s) (call_outcomes s) (cancelled s) pending objects
    (session_approved_hosts s) (session_denied_hosts s).
Definition with_hosts approved denied (s : NetworkApprovalService) : NetworkApprovalService :=
  mkService (active_calls s) (call_outcomes s) (cancelled s) (pending_host_approvals s) (pending_objects s)
    approved denied.

(** ** Operations that hold one mutex *)

Definition sync_session_approved_hosts_to (self other : NetworkApprovalService) : NetworkApprovalService :=
  with_hosts (session_approved_hosts self) (session_denied_hosts other) other.

Definition register_call (call : ActiveNetworkApprovalCall) (s : NetworkApprovalService) : NetworkApprovalService :=
  with_calls (<[registration_id call := call]> (active_calls s)) (call_outcomes s) (cancelled s) s.

Definition remove_call (id : str) (s : NetworkApprovalService) :
    NetworkApprovalService * option NetworkApprovalOutcome :=
  (with_calls (delete id (active_calls s)) (delete id (call_outcomes s)) (cancelled s) s, call_outcomes s !! id).

Definition unregister_call (id : str) (s : NetworkApprovalService) : NetworkApprovalService := fst (remove_call id s).

Definition finish_call_outcome := remove_call.

Definition finish_call (id : str) (s : NetworkApprovalService) :
    NetworkApprovalService * option (result unit ToolError) :=
  let '(s, outcome) := finish_call_outcome id s in (s, network_approval_outcome_to_result outcome).

(** The only active call, if there is exactly one. *)
Definition resolve_single_active_call (s : NetworkApprovalService) : option ActiveNetworkApprovalCall :=
  match map_to_list (active_calls s) with [(_, call)] => Some call | _ => None end.

Definition resolve_active_call_by_execution_id (execution_id : str) (s : NetworkApprovalService) :
    option ActiveNetworkApprovalCall := active_calls s !! execution_id.

Inductive ActiveNetworkApprovalAttribution :=
| AttributionNone
| AttributionSingle (call : ActiveNetworkApprovalCall)
| AttributionAmbiguous.

Definition resolve_active_call_attribution (s : NetworkApprovalService) : ActiveNetworkApprovalAttribution :=
  match map_to_list (active_calls s) with
  | [] => AttributionNone
  | [(_, call)] => AttributionSingle call
  | _ => AttributionAmbiguous
  end.

Definition get_or_create_pending_approval (me : nat) (key : HostApprovalKey) (s : NetworkApprovalService) :
    NetworkApprovalService * (nat * bool) :=
  match pending_host_approvals s !! key with
  | Some existing => (s, (existing, false))
  | None =>
      (with_pending (<[key := me]> (pending_host_approvals s)) (<[me := mkPendingApproval key None]> (pending_objects s)) s,
       (me, true))
  end.

Definition remove_pending (key : HostApprovalKey) (s : NetworkApprovalService) : NetworkApprovalService :=
  with_pending (delete key (pending_host_approvals s)) (pending_objects s) s.

Definition set_decision (pending : nat) (d : PendingApprovalDecision) (s : NetworkApprovalService) :
    NetworkApprovalService :=
  with_pending (pending_host_approvals s)
    (alter (fun o => mkPendingApproval (pending_key o) (Some d)) pending (pending_objects s)) s.

(** The part of [record_call_outcome] under the lock: whether the token is to be cancelled. *)
Definition insert_call_outcome (id : str) (outcome : NetworkApprovalOutcome) (s : NetworkApprovalService) :
    NetworkApprovalService * bool :=
  match active_calls s !! id with
  | None => (s, false)
  | Some _ =>
      match call_outcomes s !! id with
      | Some (DeniedByApproval _) => (s, false)
      | _ => (with_calls (active_calls s) (<[id := outcome]> (call_outcomes s)) (cancelled s) s, true)
      end
  end.

Definition cancel (id : str) (s : NetworkApprovalService) : NetworkApprovalService :=
  with_calls (active_calls s) (call_outcomes s) ({[id]} ∪ cancelled s) s.

(** The two critical sections of [record_blocked_request]. *)
Definition blocked_owner (blocked : BlockedRequest) (s : NetworkApprovalService) : option ActiveNetworkApprovalCall :=
  match blocked_execution_id blocked with
  | Some execution_id => resolve_active_call_by_execution_id execution_id s
  | None => resolve_single_active_call s
  end.

Definition insert_blocked_outcome (id message : str) (s : NetworkApprovalService) : NetworkApprovalService * bool :=
  match call_outcomes s !! id with
  | Some _ => (s, false)
  | None => (with_calls (active_calls s) (<[id := DeniedByPolicy message]> (call_outcomes s)) (cancelled s) s, true)
  end.

(** ** Programs *)

(** [TurnContext]: what of it is used here. *)
Record TurnContext := mkTurn {
  turn_sub_id : str;
  turn_environments : list (str * option str);  (** identifiers and directories, the primary one first *)
  turn_cwd : str;
  turn_permission_profile : PermissionProfile;
  turn_approval_policy : AskForApproval;
  turn_approvals_reviewer : ApprovalsReviewer
}.

(** Questions to the rest of the system, about a key where they decide on it. *)
Inductive Question : Type → Type :=
| ActiveTurnContext : Question (option TurnContext)
| RunPermissionRequestHooks (key : HostApprovalKey) (run_id command description : str) :
    Question (option PermissionRequestDecision)
| ReviewApprovalRequest (key : HostApprovalKey) (id turn_id target host : str) (protocol : NetworkApprovalProtocol)
    (trigger : option GuardianNetworkAccessTrigger) (retry_reason : str) : Question ReviewDecision
| RequestCommandApproval (key : HostApprovalKey) (id environment_id : str) (command : list str) (cwd reason : str)
    (ctx : NetworkApprovalContext) : Question ReviewDecision
| PersistNetworkPolicyAmendment (amendment : NetworkPolicyAmendment) (ctx : NetworkApprovalContext) :
    Question (result unit str)
| RecordNetworkPolicyAmendmentMessage (sub_id : str) (amendment : NetworkPolicyAmendment) : Question unit
| SendWarning (sub_id message : str) : Question unit.

Inductive Prog (R : Type) : Type :=
| Ret (r : R)
| Atomic {X : Type} (op : NetworkApprovalService → NetworkApprovalService * X) (k : X → Prog R)
| Query {X : Type} (q : Question X) (k : X → Prog R)
| WaitForDecision (pending : nat) (k : PendingApprovalDecision → Prog R).
Arguments Ret {R}.
Arguments Atomic {R X}.
Arguments Query {R X}.
Arguments WaitForDecision {R}.

Fixpoint pbind {A B} (p : Prog A) (f : A → Prog B) : Prog B :=
  match p with
  | Ret a => f a
  | Atomic op k => Atomic op (fun x => pbind (k x) f)
  | Query q k => Query q (fun x => pbind (k x) f)
  | WaitForDecision i k => WaitForDecision i (fun x => pbind (k x) f)
  end.

Declare Scope prog_scope.
Delimit Scope prog_scope with prog.
Notation "x <- p ;; q" := (pbind p (fun x => q)) (at level 100, p at next level, right associativity) : prog_scope.
Notation "p ;; q" := (pbind p (fun _ => q)) (at level 100, right associativity) : prog_scope.

(** One mutex held, for reading and for writing, and one question. *)
Definition read {X} (f : NetworkApprovalService → X) : Prog X := Atomic (fun s => (s, f s)) Ret.
Definition write (f : NetworkApprovalService → NetworkApprovalService) : Prog unit := Atomic (fun s => (f s, tt)) Ret.
Definition ask {X} (q : Question X) : Prog X := Query q Ret.

(** ** [resolve_request_attribution] *)

#[local] Open Scope prog_scope.

Record NetworkRequestAttribution := mkAttribution {
  owner_call : option ActiveNetworkApprovalCall;
  attributed_environment_id : option str
}.

Definition resolve_request_attribution (request : NetworkPolicyRequest) : Prog (option NetworkRequestAttribution) :=
  match request_execution_id request with
  | Some execution_id =>
      call <- read (resolve_active_call_by_execution_id execution_id) ;;
      Ret (call ← call;
           let environment_id := default (call_environment_id call) (request_environment_id request) in
           if seqb (call_environment_id call) environment_id
           then Some (mkAttribution (Some call) (Some environment_id)) else None)
  | None =>
      match request_environment_id request with
      | Some environment_id =>
          attribution <- read resolve_active_call_attribution ;;
          let owner_call :=
            match attribution with
            | AttributionSingle call => if seqb (call_environment_id call) environment_id then Some call else None
            | AttributionNone | AttributionAmbiguous => None
            end in
          Ret (Some (mkAttribution owner_call (Some environment_id)))
      | None =>
          attribution <- read resolve_active_call_attribution ;;
          Ret match attribution with
              | AttributionNone => Some (mkAttribution None None)
              | AttributionSingle call => Some (mkAttribution (Some call) (Some (call_environment_id call)))
              | AttributionAmbiguous => None
              end
      end
  end.

Definition record_call_outcome (id : str) (outcome : NetworkApprovalOutcome) : Prog unit :=
  to_cancel <- Atomic (insert_call_outcome id outcome) Ret ;;
  if to_cancel : bool then write (cancel id) else Ret tt.

Definition record_blocked_request (blocked : BlockedRequest) : Prog unit :=
  match denied_network_policy_message blocked with
  | None => Ret tt
  | Some message =>
      owner_call <- read (blocked_owner blocked) ;;
      match owner_call with
      | None => Ret tt
      | Some call =>
          to_cancel <- Atomic (insert_blocked_outcome (registration_id call) message) Ret ;;
          if to_cancel : bool then write (cancel (registration_id call)) else Ret tt
      end
  end.

(** ** [handle_inline_policy_request] *)

Definition format_network_target (protocol host : str) (port : N) : str :=
  protocol ++ lit "://" ++ host ++ lit ":" ++ show_N port.

Definition approval_id_for_key (key : HostApprovalKey) : str :=
  lit "network#" ++ key_environment_id key ++ lit "#" ++ key_protocol key ++ lit "#" ++ key_host key ++ lit "#" ++
  show_N (key_port key).

Definition approval_protocol (p : NetworkProtocol) : NetworkApprovalProtocol :=
  match p with
  | ProtocolHttp => ApprovalHttp
  | ProtocolHttpsConnect => ApprovalHttps
  | ProtocolSocks5Tcp => ApprovalSocks5Tcp
  | ProtocolSocks5Udp => ApprovalSocks5Udp
  end.

(** Records an outcome for the call that the request belongs to. *)
Definition record_for_owner (owner : option ActiveNetworkApprovalCall) (outcome : NetworkApprovalOutcome) : Prog unit :=
  match owner with Some call => record_call_outcome (registration_id call) outcome | None => Ret tt end.

Definition settle (me : nat) (key : HostApprovalKey) (d : PendingApprovalDecision) : Prog unit :=
  write (set_decision me d) ;; write (remove_pending key).

(** The early refusals: no turn, no managed permissions, or prompts are off. *)
Definition refuse (me : nat) (key : HostApprovalKey) (owner : option ActiveNetworkApprovalCall) (message : str) :
    Prog NetworkDecision :=
  settle me key PendingDeny ;;
  record_for_owner owner (DeniedByPolicy message) ;;
  Ret (deny REASON_NOT_ALLOWED).

Definition persist_amendment (turn : TurnContext) (amendment : NetworkPolicyAmendment) (ctx : NetworkApprovalContext) :
    Prog unit :=
  saved <- ask (PersistNetworkPolicyAmendment amendment ctx) ;;
  match saved with
  | Ok _ => ask (RecordNetworkPolicyAmendmentMessage (turn_sub_id turn) amendment)
  | Err err => ask (SendWarning (turn_sub_id turn) (lit "Failed to apply network policy amendment: " ++ err))
  end.

(** What the answer of the reviewer means, and whether a refusal is kept for the session. *)
Definition resolve_decision (turn : TurnContext) (owner : option ActiveNetworkApprovalCall)
    (ctx : NetworkApprovalContext) (use_guardian : bool) (d : ReviewDecision) : Prog (PendingApprovalDecision * bool) :=
  match d with
  | Approved | ApprovedExecpolicyAmendment _ => Ret (AllowOnce, false)
  | ApprovedForSession => Ret (AllowForSession, false)
  | AmendNetworkPolicy amendment =>
      match amended_action amendment with
      | ActionAllow => persist_amendment turn amendment ctx ;; Ret (AllowForSession, false)
      | ActionDeny =>
          persist_amendment turn amendment ctx ;;
          record_for_owner owner (DeniedByApproval (lit "rejected by user")) ;;
          Ret (PendingDeny, true)
      end
  | Denied rejection =>
      record_for_owner owner (if use_guardian then DeniedByPolicy rejection else DeniedByApproval rejection) ;;
      Ret (PendingDeny, false)
  | TimedOut =>
      record_for_owner owner (DeniedByPolicy guardian_timeout_message) ;; Ret (PendingDeny, false)
  | ReviewAborted =>
      record_for_owner owner
        (if use_guardian then DeniedByPolicy (lit "automatic approval review was cancelled")
         else DeniedByApproval (lit "rejected by user")) ;;
      Ret (PendingDeny, false)
  end.

Definition approve_host (key : HostApprovalKey) : Prog unit :=
  write (fun s => with_hosts (session_approved_hosts s) (session_denied_hosts s ∖ {[key]}) s) ;;
  write (fun s => with_hosts ({[key]} ∪ session_approved_hosts s) (session_denied_hosts s) s).

Definition deny_host (key : HostApprovalKey) : Prog unit :=
  write (fun s => with_hosts (session_approved_hosts s ∖ {[key]}) (session_denied_hosts s) s) ;;
  write (fun s => with_hosts (session_approved_hosts s) ({[key]} ∪ session_denied_hosts s) s).

(** The question to the guardian or to the user. *)
Definition review_question (key : HostApprovalKey) (request : NetworkPolicyRequest)
    (owner : option ActiveNetworkApprovalCall) (turn : TurnContext) (environment_id target denial prompt_reason : str)
    (use_guardian : bool) : Question ReviewDecision :=
  let protocol := approval_protocol (request_protocol request) in
  if use_guardian then
    ReviewApprovalRequest key (approval_id_for_key key)
      (match owner with Some call => turn_id call | None => turn_sub_id turn end) target (request_host request) protocol
      (trigger <$> owner) denial
  else
    let cwd :=
      match owner with
      | Some call => trigger_cwd (trigger call)
      | None =>
          match List.find (fun e => seqb (fst e) environment_id) (turn_environments turn) with
          | Some (_, Some cwd) => cwd
          | _ => turn_cwd turn
          end
      end in
    RequestCommandApproval key (approval_id_for_key key) environment_id [lit "network-access"; target] cwd prompt_reason
      (mkNetworkContext (request_host request) protocol).

(** The rest of the handler for the request that created the pending approval. *)
Definition review_host (me : nat) (key : HostApprovalKey) (request : NetworkPolicyRequest)
    (owner : option ActiveNetworkApprovalCall) (turn : TurnContext) (environment_id : str) : Prog NetworkDecision :=
  let target := format_network_target (key_protocol key) (request_host request) (key_port key) in
  let denial := lit "Network access to " ++ quote ++ target ++ quote ++ lit " was blocked by policy." in
  let prompt_reason := request_host request ++ lit " is not in the allowed_domains" in
  let ctx := mkNetworkContext (request_host request) (approval_protocol (request_protocol request)) in
  let command := match owner with Some call => call_command call | None => join (lit " ") [lit "network-access"; target] end in
  hook <- ask (RunPermissionRequestHooks key (approval_id_for_key key) command (lit "network-access " ++ target)) ;;
  match hook with
  | Some HookAllow => settle me key AllowOnce ;; Ret NetPolicy.Allow
  | Some (HookDeny message) =>
      record_for_owner owner (DeniedByPolicy message) ;; settle me key PendingDeny ;; Ret (deny REASON_NOT_ALLOWED)
  | None =>
      let use_guardian := routes_approval_to_guardian (turn_approval_policy turn) (turn_approvals_reviewer turn) in
      approval_decision <- ask (review_question key request owner turn environment_id target denial prompt_reason use_guardian) ;;
      outcome <- resolve_decision turn owner ctx use_guardian approval_decision ;;
      let '(resolved, cache_session_deny) := outcome in
      (match resolved with AllowForSession => approve_host key | _ => Ret tt end) ;;
      (if cache_session_deny : bool then deny_host key else Ret tt) ;;
      settle me key resolved ;;
      Ret (to_network_decision resolved)
  end.

Definition handle_inline_policy_request (me : nat) (request : NetworkPolicyRequest) : Prog NetworkDecision :=
  let protocol := approval_protocol (request_protocol request) in
  attribution <- resolve_request_attribution request ;;
  match attribution with
  | None => Ret (deny REASON_NOT_ALLOWED)
  | Some (mkAttribution owner active_environment_id) =>
      turn_context <- ask ActiveTurnContext ;;
      let environment_id :=
        match active_environment_id with
        | Some e => Some e
        | None => turn ← turn_context; fst <$> head (turn_environments turn)
        end in
      match environment_id with
      | None => Ret (deny REASON_NOT_ALLOWED)
      | Some environment_id =>
          let key := from_request request protocol environment_id in
          denied <- read (fun s => bool_decide (key ∈ session_denied_hosts s)) ;;
          if denied : bool then Ret (deny REASON_NOT_ALLOWED) else
          approved <- read (fun s => bool_decide (key ∈ session_approved_hosts s)) ;;
          if approved : bool then Ret NetPolicy.Allow else
          created <- Atomic (get_or_create_pending_approval me key) Ret ;;
          let '(pending, is_owner) := created in
          if negb is_owner then WaitForDecision pending (fun d => Ret (to_network_decision d)) else
          let target := format_network_target (key_protocol key) (request_host request) (key_port key) in
          let denial := lit "Network access to " ++ quote ++ target ++ quote ++ lit " was blocked by policy." in
          match turn_context with
          | None => refuse me key owner denial
          | Some turn =>
              if negb (permission_profile_allows_network_approval_flow (turn_permission_profile turn))
              then refuse me key owner denial
              else if negb (allows_network_approval_flow (turn_approval_policy turn)) then refuse me key owner denial
              else review_host me key request owner turn environment_id
          end
      end
  end.

(** The closure of [build_network_policy_decider]: the session may be gone. *)
Definition decide_network_policy (session_alive : bool) (me : nat) (request : NetworkPolicyRequest) :
    Prog NetworkDecision :=
  if session_alive then handle_inline_policy_request me request
  else Ret (ask_with_source REASON_NOT_ALLOWED Decider).

(** ** Around the run of a tool *)

Record NetworkApprovalSpec := mkSpec {
  spec_network : bool;  (** whether there is a proxy *)
  spec_mode : NetworkApprovalMode;
  spec_trigger : GuardianNetworkAccessTrigger;
  spec_command : str;
  spec_environment_id : str
}.

Record ActiveNetworkApproval := mkActiveApproval {
  approval_registration_id : option str;
  approval_mode : NetworkApprovalMode
}.

(** The cell keeps the outcome once the approval is finished. *)
Record DeferredNetworkApproval := mkDeferred {
  deferred_registration_id : str;
  finish_outcome : option (option NetworkApprovalOutcome)
}.

Definition into_deferred (active : ActiveNetworkApproval) : option DeferredNetworkApproval :=
  match approval_mode active, approval_registration_id active with
  | Deferred, Some id => Some (mkDeferred id None)
  | _, _ => None
  end.

(** [fresh_id] is the new UUID and [for_execution] the outcome of making the proxy. *)
Definition begin_network_approval (turn_id : str) (managed_network_active : bool) (spec : option NetworkApprovalSpec)
    (fresh_id : str) (for_execution : result unit str) (s : NetworkApprovalService) :
    NetworkApprovalService * result (option ActiveNetworkApproval) ToolError :=
  match spec with
  | None => (s, Ok None)
  | Some spec =>
      if negb (spec_network spec) then (s, Ok None)
      else if negb managed_network_active then (s, Ok None)
      else match for_execution with
           | Err err => (s, Err (Codex (CodexIo (lit "failed to create execution-scoped network proxy: " ++ err))))
           | Ok _ =>
               (register_call (mkActiveCall fresh_id turn_id (spec_trigger spec) (spec_command spec)
                                 (spec_environment_id spec)) s,
                Ok (Some (mkActiveApproval (Some fresh_id) (spec_mode spec))))
           end
  end.

Definition finish_immediate_network_approval (active : ActiveNetworkApproval) (s : NetworkApprovalService) :
    NetworkApprovalService * option (result unit ToolError) :=
  match approval_registration_id active with
  | None => (s, Some (Ok tt))
  | Some id => finish_call id s
  end.

(** [DeferredNetworkApproval::finish]. *)
Definition finish_deferred (d : DeferredNetworkApproval) (s : NetworkApprovalService) :
    DeferredNetworkApproval * NetworkApprovalService * option (result unit ToolError) :=
  match finish_outcome d with
  | Some outcome => (d, s, network_approval_outcome_to_result outcome)
  | None =>
      let '(s, outcome) := finish_call_outcome (deferred_registration_id d) s in
      (mkDeferred (deferred_registration_id d) (Some outcome), s, network_approval_outcome_to_result outcome)
  end.

Definition finish_deferred_network_approval (deferred : option DeferredNetworkApproval) (s : NetworkApprovalService) :
    option DeferredNetworkApproval * NetworkApprovalService * option (result unit ToolError) :=
  match deferred with
  | None => (None, s, Some (Ok tt))
  | Some d => let '(d, s, r) := finish_deferred d s in (Some d, s, r)
  end.

(** ** Concurrent requests *)

(** What the service was told: the answer to a question of a request, or the hosts that a parent
    session had approved. *)
Inductive Answered :=
| answered (i : nat) {X : Type} (q : Question X) (x : X)
| hosts_copied (hosts : gset HostApprovalKey).

(** The service, the requests by their number and the state of their handlers, and what it
    was told so far. *)
Record Pool := mkPool {
  service : NetworkApprovalService;
  requests : gmap nat NetworkPolicyRequest;
  threads : gmap nat (Prog NetworkDecision);
  answers : list Answered
}.

(** What other parts do to the calls of the service meanwhile. *)
Inductive outside_step : NetworkApprovalService → NetworkApprovalService → Prop :=
| outside_register call s : outside_step s (register_call call s)
| outside_unregister id s : outside_step s (unregister_call id s)
| outside_blocked id message s : outside_step s (fst (insert_blocked_outcome id message s))
| outside_cancel id s : outside_step s (cancel id s).

(** A step of a handler: an operation, an answer, or the end of a wait. *)
Inductive handler_step : Pool → Pool → Prop :=
| step_atomic s rs ts l i X (op : NetworkApprovalService → NetworkApprovalService * X) k :
    ts !! i = Some (Atomic op k) →
    handler_step (mkPool s rs ts l) (mkPool (fst (op s)) rs (<[i := k (snd (op s))]> ts) l)
| step_answer s rs ts l i X (q : Question X) k x :
    ts !! i = Some (Query q k) →
    handler_step (mkPool s rs ts l) (mkPool s rs (<[i := k x]> ts) (l ++ [answered i q x]))
| step_decided s rs ts l i pending k o d :
    ts !! i = Some (WaitForDecision pending k) → pending_objects s !! pending = Some o → pending_decision o = Some d →
    handler_step (mkPool s rs ts l) (mkPool s rs (<[i := k d]> ts) l).

(** A step of the rest: a new request, a change of the registered calls, or, for the session of a
    guardian, the start of a review, which copies the approved hosts of the parent session. *)
Inductive environment_step : Pool → Pool → Prop :=
| step_request s rs ts l i request :
    ts !! i = None →
    environment_step (mkPool s rs ts l)
      (mkPool s (<[i := request]> rs) (<[i := handle_inline_policy_request i request]> ts) l)
| step_outside s s' rs ts l : outside_step s s' → environment_step (mkPool s rs ts l) (mkPool s' rs ts l)
| step_sync s parent rs ts l :
    environment_step (mkPool s rs ts l)
      (mkPool (sync_session_approved_hosts_to parent s) rs ts (l ++ [hosts_copied (session_approved_hosts parent)])).

Definition pool_step (P P' : Pool) : Prop := handler_step P P' ∨ environment_step P P'.

Definition new_pool : Pool := mkPool default_service ∅ ∅ [].
