(* ===== verification/NetworkApprovalFacts.v ===== *)
(** * What the approval of network access guarantees

    A rely-guarantee logic for the handlers of [NetworkApproval], and with it: access is
    only given on an approval for the same host, there is one prompt at a time for a host,
    and no request waits forever. *)

From S2P Require Import Prelude RustStr NetPolicy SandboxPolicy ExecApproval ToolTypes NetworkApproval.

#[local] Arguments lit _ : simpl never.
#[local] Open Scope nat_scope.
#[local] Open Scope prog_scope.

(** ** Approvals *)

Definition review_allows (d : ReviewDecision) : bool :=
  match d with
  | Approved | ApprovedExecpolicyAmendment _ | ApprovedForSession => true
  | AmendNetworkPolicy amendment => match amended_action amendment with ActionAllow => true | ActionDeny => false end
  | Denied _ | TimedOut | ReviewAborted => false
  end.

(** An answer approves a key. *)
Definition approves (key : HostApprovalKey) (a : Answered) : Prop :=
  match a with
  | answered _ q x =>
      match q in Question X return X → Prop with
      | RunPermissionRequestHooks k _ _ _ => fun x => k = key ∧ x = Some HookAllow
      | ReviewApprovalRequest k _ _ _ _ _ _ _ | RequestCommandApproval k _ _ _ _ _ _ =>
          fun d => k = key ∧ review_allows d = true
      | _ => fun _ => False
      end x
  | hosts_copied _ => False
  end.

(** An answer in [l] approves the key. *)
Definition answered_in (key : HostApprovalKey) (l : list Answered) : Prop := ∃ a, a ∈ l ∧ approves key a.

(** The key was among hosts that were copied from a parent session. *)
Definition copied_in (key : HostApprovalKey) (l : list Answered) : Prop := ∃ hosts, hosts_copied hosts ∈ l ∧ key ∈ hosts.

Definition approved_in (key : HostApprovalKey) (l : list Answered) : Prop := answered_in key l ∨ copied_in key l.

Lemma answered_in_subset key l l' : (∀ x, x ∈ l → x ∈ l') → answered_in key l → answered_in key l'.
Proof. intros Hl (a & Ha & H). exists a. auto. Qed.

Lemma copied_in_subset key l l' : (∀ x, x ∈ l → x ∈ l') → copied_in key l → copied_in key l'.
Proof. intros Hl (a & Ha & H). exists a. auto. Qed.

Lemma approved_in_subset key l l' : (∀ x, x ∈ l → x ∈ l') → approved_in key l → approved_in key l'.
Proof. intros Hl [H|H]; [left; by apply (answered_in_subset key l)|right; by apply (copied_in_subset key l)]. Qed.

(** The key that a question decides on. *)
Definition question_key {X} (q : Question X) : option HostApprovalKey :=
  match q with
  | RunPermissionRequestHooks k _ _ _ | ReviewApprovalRequest k _ _ _ _ _ _ _ | RequestCommandApproval k _ _ _ _ _ _ =>
      Some k
  | _ => None
  end.

(** ** Worlds *)

(** What a handler sees: the service, and what it was told so far. *)
Abbreviation World := (NetworkApprovalService * list Answered)%type.
Abbreviation pending_in w key := (pending_host_approvals (fst w) !! key).
Abbreviation object_in w i := (pending_objects (fst w) !! i).

Record inv (w : World) : Prop := {
  inv_pending : ∀ key i, pending_in w key = Some i → ∃ o, object_in w i = Some o ∧ pending_key o = key;
  inv_decided : ∀ i o d, object_in w i = Some o → pending_decision o = Some d → d ≠ PendingDeny →
    approved_in (pending_key o) (snd w);
  inv_approved : ∀ key, key ∈ session_approved_hosts (fst w) → approved_in key (snd w);
  inv_disjoint : ∀ key, key ∈ session_approved_hosts (fst w) → key ∈ session_denied_hosts (fst w) → copied_in key (snd w)
}.

(** What the handler of request [t] may rely on while the others run. *)
Record rely (t : nat) (w w' : World) : Prop := {
  rely_answers : ∀ x, x ∈ snd w → x ∈ snd w';
  rely_objects : ∀ i o, object_in w i = Some o →
    ∃ o', object_in w' i = Some o' ∧ pending_key o' = pending_key o ∧
      ∀ d, pending_decision o = Some d → pending_decision o' = Some d;
  rely_mine : object_in w' t = object_in w t;
  rely_pending : ∀ key, pending_in w key = Some t ↔ pending_in w' key = Some t;
  rely_hosts : ∀ key, pending_in w key = Some t →
    (key ∈ session_approved_hosts (fst w') → key ∈ session_approved_hosts (fst w) ∨ copied_in key (snd w')) ∧
    (key ∈ session_denied_hosts (fst w) ↔ key ∈ session_denied_hosts (fst w'))
}.

#[export] Instance rely_refl t : Reflexive (rely t).
Proof. intros w. split; eauto; naive_solver. Qed.

#[export] Instance rely_trans t : Transitive (rely t).
Proof.
  intros w1 w2 w3 [A1 O1 M1 P1 H1] [A2 O2 M2 P2 H2]. split.
  - auto.
  - intros i o Ho. destruct (O1 i o Ho) as (o' & Ho' & Hk & Hd). destruct (O2 i o' Ho') as (o2 & Ho2 & Hk2 & Hd2).
    exists o2. split_and!; [done|congruence|auto].
  - congruence.
  - intros key. by rewrite P1, P2.
  - intros key Hk. destruct (H1 key Hk) as [Ha Hb]. apply P1 in Hk. destruct (H2 key Hk) as [Hc Hd].
    split; [|naive_solver]. intros [Hin|Hin]%Hc; [|by right]. destruct (Ha Hin); [by left|right].
    by apply (copied_in_subset key (snd w2)).
Qed.

Lemma approved_in_mono t w w' key : rely t w w' → approved_in key (snd w) → approved_in key (snd w').
Proof. intros Hr. apply approved_in_subset, (rely_answers _ _ _ Hr). Qed.

Lemma approved_in_snoc key l x : approved_in key l → approved_in key (l ++ [x]).
Proof. apply approved_in_subset. set_solver. Qed.

Lemma approved_by key l i X (q : Question X) (x : X) : approves key (answered i q x) → approved_in key (l ++ [answered i q x]).
Proof. intros H. left. exists (answered i q x). split; [set_solver|done]. Qed.

(** An answer changes neither the service nor what was said before. *)
Lemma inv_answer w a : inv w → inv (fst w, snd w ++ [a]).
Proof.
  intros [P D A J]. split; cbn [fst snd]; eauto using approved_in_snoc. intros key Ha Hd.
  apply (copied_in_subset key (snd w)); [set_solver|auto].
Qed.

Lemma rely_answer t w a : rely t w (fst w, snd w ++ [a]).
Proof. split; cbn [fst snd]; [set_solver|eauto|done..|naive_solver]. Qed.

(** ** Programs *)

(** [wp t p Q w]: run by request [t] from [w] among others, [p] keeps the invariant and
    what the others rely on, asks about a key only while it holds it, waits only for the
    objects of others, and ends with [Q]. *)
Fixpoint wp {R} (t : nat) (p : Prog R) (Q : R → World → Prop) (w : World) : Prop :=
  match p with
  | Ret r => Q r w
  | Atomic op k => ∀ w', rely t w w' → inv w' →
      let w'' := (fst (op (fst w')), snd w') in
      inv w'' ∧ (∀ t', t' ≠ t → rely t' w' w'') ∧ wp t (k (snd (op (fst w')))) Q w''
  | Query q k =>
      (∀ key, question_key q = Some key → pending_in w key = Some t) ∧
      ∀ w' x, rely t w w' → inv w' → wp t (k x) Q (fst w', snd w' ++ [answered t q x])
  | WaitForDecision i k =>
      object_in w t = None ∧ is_Some (object_in w i) ∧
      ∀ w' o d, rely t w w' → inv w' → object_in w' i = Some o → pending_decision o = Some d → wp t (k d) Q w'
  end.

(** A claim that survives the steps of others. *)
Definition stable (t : nat) (P : World → Prop) : Prop := ∀ w w', rely t w w' → P w → P w'.

Lemma wp_stable {R} t (p : Prog R) Q : (∀ r, stable t (Q r)) → stable t (wp t p Q).
Proof.
  intros HQ. induction p as [r|X op k IH|X q k IH|i k IH]; intros w w' Hr Hw; cbn [wp] in *.
  - by apply (HQ r w).
  - intros w'' Hr' Hi. apply Hw; [by etransitivity|done].
  - destruct Hw as [Hk Hw]. split.
    + intros key Hq. apply (rely_pending _ _ _ Hr), Hk, Hq.
    + intros w'' x Hr' Hi. apply Hw; [by etransitivity|done].
  - destruct Hw as (Hn & [o Ho] & Hw). split_and!.
    + by rewrite (rely_mine _ _ _ Hr).
    + destruct (rely_objects _ _ _ Hr i o Ho) as (o' & ? & _). by exists o'.
    + intros w'' o' d Hr'. apply Hw. by etransitivity.
Qed.

Lemma wp_mono {R} t (p : Prog R) (Q Q' : R → World → Prop) w : (∀ r w, Q r w → Q' r w) → wp t p Q w → wp t p Q' w.
Proof.
  intros HQ. revert w. induction p as [r|X op k IH|X q k IH|i k IH]; intros w Hw; cbn [wp] in *; [by apply HQ|..].
  - intros w' Hr Hi. destruct (Hw w' Hr Hi) as (? & ? & ?). split_and!; [done..|]. by apply IH.
  - destruct Hw as [Hk Hw]. split; [done|]. intros w' x Hr Hi. by apply IH, Hw.
  - destruct Hw as (? & ? & Hw). split_and!; [done..|]. intros w' o d Hr Hi Ho Hd. by apply IH, (Hw w' o).
Qed.

Lemma wp_bind {A B} t (p : Prog A) (f : A → Prog B) Q w :
  wp t p (fun a w => wp t (f a) Q w) w → wp t (pbind p f) Q w.
Proof.
  revert w. induction p as [r|X op k IH|X q k IH|i k IH]; intros w Hw; cbn [pbind wp] in *; [done|..].
  - intros w' Hr Hi. destruct (Hw w' Hr Hi) as (? & ? & ?). split_and!; [done..|]. by apply IH.
  - destruct Hw as [Hk Hw]. split; [done|]. intros w' x Hr Hi. by apply IH, Hw.
  - destruct Hw as (? & ? & Hw). split_and!; [done..|]. intros w' o d Hr Hi Ho Hd. by apply IH, (Hw w' o).
Qed.

(** [wp_bind] with a claim about the first part. *)
Lemma wp_seq {A B} t (p : Prog A) (f : A → Prog B) P Q w :
  wp t p P w → (∀ a w', P a w' → wp t (f a) Q w') → wp t (pbind p f) Q w.
Proof. intros Hp Hf. apply wp_bind. by apply (wp_mono t p P). Qed.

(** ** Steps that leave the hosts alone *)

(** Services that differ in the registered calls only. *)
Definition same_hosts (s s' : NetworkApprovalService) : Prop :=
  pending_host_approvals s' = pending_host_approvals s ∧ pending_objects s' = pending_objects s ∧
  session_approved_hosts s' = session_approved_hosts s ∧ session_denied_hosts s' = session_denied_hosts s.

Lemma same_hosts_inv s s' l : same_hosts s s' → inv (s, l) → inv (s', l).
Proof. intros (E1 & E2 & E3 & E4) [P D A J]. split; cbn [fst snd] in *; rewrite ?E1, ?E2, ?E3, ?E4; done. Qed.

Lemma same_hosts_rely t s s' l : same_hosts s s' → rely t (s, l) (s', l).
Proof. intros (E1 & E2 & E3 & E4). split; cbn [fst snd]; rewrite ?E1, ?E2, ?E3, ?E4; eauto; naive_solver. Qed.

(** A program that only looks, talks, or changes the registered calls. *)
Definition harmless {R} (t : nat) (p : Prog R) (P : R → Prop) : Prop := ∀ w, wp t p (fun r w' => rely t w w' ∧ P r) w.

Lemma harmless_atomic {X} t (op : NetworkApprovalService → NetworkApprovalService * X) :
  (∀ s, same_hosts s (fst (op s))) → harmless t (Atomic op Ret) (fun _ => True).
Proof.
  intros Hop w [s l] Hr Hi. specialize (Hop s). cbn [fst snd] in *. split_and!.
  - by apply (same_hosts_inv s).
  - intros t' _. by apply same_hosts_rely.
  - cbn [wp]. split; [|done]. etransitivity; [done|]. by apply same_hosts_rely.
Qed.

Lemma harmless_read {X} t (f : NetworkApprovalService → X) : harmless t (read f) (fun _ => True).
Proof. by apply harmless_atomic. Qed.

Lemma harmless_ask {X} t (q : Question X) : question_key q = None → harmless t (ask q) (fun _ => True).
Proof.
  intros Hq w. split; [by rewrite Hq|]. intros w' x Hr Hi. cbn [wp]. split; [|done]. etransitivity; [done|]. apply rely_answer.
Qed.

Lemma harmless_ret {R} t (r : R) (P : R → Prop) : P r → harmless t (Ret r) P.
Proof. intros Hp w. by split. Qed.

Lemma harmless_bind {A B} t (p : Prog A) (f : A → Prog B) P P' :
  harmless t p P → (∀ a, P a → harmless t (f a) P') → harmless t (pbind p f) P'.
Proof.
  intros Hp Hf w. eapply wp_seq; [apply Hp|]. intros a w' [Hr Ha]. eapply wp_mono; [|by apply Hf].
  intros r w'' [? ?]. split; [by etransitivity|done].
Qed.

(** Before a program that goes on from a stable claim. *)
Lemma wp_harmless {A B} t (p : Prog A) (f : A → Prog B) P (J : World → Prop) Q w :
  harmless t p P → stable t J → J w → (∀ a w', J w' → P a → wp t (f a) Q w') → wp t (pbind p f) Q w.
Proof. intros Hp HJ Hw Hf. eapply wp_seq; [apply Hp|]. intros a w' [Hr Ha]. apply Hf; [by apply (HJ w)|done]. Qed.

Lemma harmless_cancel t id : harmless t (write (cancel id)) (fun _ => True).
Proof. by apply harmless_atomic. Qed.

Lemma harmless_record t owner outcome : harmless t (record_for_owner owner outcome) (fun _ => True).
Proof.
  destruct owner as [call|]; [|by apply harmless_ret]. cbn [record_for_owner]. unfold record_call_outcome.
  eapply harmless_bind.
  - apply harmless_atomic. intros s. unfold insert_call_outcome. by repeat case_match.
  - intros [] _; [apply harmless_cancel|by apply harmless_ret].
Qed.

Lemma harmless_attribution t request : harmless t (resolve_request_attribution request) (fun _ => True).
Proof.
  unfold resolve_request_attribution. repeat case_match; (eapply harmless_bind; [apply harmless_read|]);
    intros; by apply harmless_ret.
Qed.

Lemma harmless_persist t turn amendment ctx : harmless t (persist_amendment turn amendment ctx) (fun _ => True).
Proof. eapply harmless_bind; [by apply harmless_ask|]. intros [] _; by apply harmless_ask. Qed.

(** The answer of the reviewer is turned into an allowance only if it is one. *)
Lemma harmless_resolve t turn owner ctx use_guardian d :
  harmless t (resolve_decision turn owner ctx use_guardian d)
    (fun r => (fst r ≠ PendingDeny → review_allows d = true) ∧ (snd r = true → fst r = PendingDeny)).
Proof.
  unfold resolve_decision. destruct d as [| | |amendment|rejection| |]; cbn [review_allows].
  1-3: by apply harmless_ret.
  1: destruct (amended_action amendment); (eapply harmless_bind; [apply harmless_persist|]); intros _ _.
  1: by apply harmless_ret.
  all: (eapply harmless_bind; [apply harmless_record|]); intros _ _; by apply harmless_ret.
Qed.

(** ** Holding a key *)

Definition holds (t : nat) (key : HostApprovalKey) (d : option PendingApprovalDecision) (w : World) : Prop :=
  pending_in w key = Some t ∧ object_in w t = Some (mkPendingApproval key d).

Lemma holds_stable t key d : stable t (holds t key d).
Proof.
  intros w w' Hr [Hp Ho]. split; [by apply (rely_pending _ _ _ Hr)|]. by rewrite (rely_mine _ _ _ Hr).
Qed.

(** The request is done: its object is decided and nobody finds it any more. *)
Definition settled (t : nat) (w : World) : Prop :=
  (∀ o, object_in w t = Some o → is_Some (pending_decision o)) ∧ ∀ key, pending_in w key ≠ Some t.

Lemma settled_stable t : stable t (settled t).
Proof.
  intros w w' Hr [Ho Hp]. split.
  - intros o. rewrite (rely_mine _ _ _ Hr). apply Ho.
  - intros key Hk. apply (rely_pending _ _ _ Hr) in Hk. by apply (Hp key).
Qed.

Lemma approved_stable t key : stable t (fun w => approved_in key (snd w)).
Proof. intros w w' Hr. by apply approved_in_mono with t. Qed.

Lemma and_stable t P P' : stable t P → stable t P' → stable t (fun w => P w ∧ P' w).
Proof. intros H H' w w' Hr [? ?]. split; [by apply (H w)|by apply (H' w)]. Qed.

Create HintDb stable.
#[local] Hint Resolve holds_stable settled_stable approved_stable and_stable : stable.

(** Only the holder of a key changes the sets at it. *)
Lemma hosts_rely t t' key w approved denied :
  pending_in w key = Some t → t' ≠ t →
  (∀ k, k ≠ key → (k ∈ session_approved_hosts (fst w) ↔ k ∈ approved) ∧ (k ∈ session_denied_hosts (fst w) ↔ k ∈ denied)) →
  rely t' w (with_hosts approved denied (fst w), snd w).
Proof.
  intros Hp Hne Hsame. split; cbn; [done|eauto|done..|]. intros k Hk. destruct (Hsame k); [congruence|naive_solver].
Qed.

Lemma holds_hosts t key d w approved denied : holds t key d w → holds t key d (with_hosts approved denied (fst w), snd w).
Proof. done. Qed.

Lemma inv_hosts w approved denied :
  inv w → (∀ k, k ∈ approved → approved_in k (snd w)) → (∀ k, k ∈ approved → k ∈ denied → copied_in k (snd w)) → inv (with_hosts approved denied (fst w), snd w).
Proof. intros [P D A J] HA HJ. by split. Qed.

(** One write of the sets by the holder. *)
Lemma wp_hosts t key d w (fa fd : gset HostApprovalKey → gset HostApprovalKey) (P P' : World → Prop) :
  holds t key d w → stable t P → P w →
  (∀ k A, k ≠ key → (k ∈ A ↔ k ∈ fa A) ∧ (k ∈ A ↔ k ∈ fd A)) →
  (∀ w', inv w' → P w' → holds t key d w' →
     let A := fa (session_approved_hosts (fst w')) in let D := fd (session_denied_hosts (fst w')) in
     (∀ k, k ∈ A → k ∈ D → copied_in k (snd w')) ∧ (∀ k, k ∈ A → approved_in k (snd w')) ∧ P' (with_hosts A D (fst w'), snd w')) →
  wp t (write (fun s => with_hosts (fa (session_approved_hosts s)) (fd (session_denied_hosts s)) s))
    (fun _ w' => holds t key d w' ∧ P' w') w.
Proof.
  intros Hh HP Hw Hsame Hpost w' Hr Hi. pose proof (holds_stable _ _ _ _ _ Hr Hh) as Hh'.
  pose proof (HP _ _ Hr Hw) as Hw'. destruct (Hpost w' Hi Hw' Hh') as (HJ & HA & HP'). cbn [fst snd wp]. split_and!; try done.
  - by apply inv_hosts.
  - intros t' Hne. apply (hosts_rely t t' key); [apply Hh'|done|]. intros k Hk. split; by apply Hsame.
Qed.

Lemma approve_host_spec t key d w :
  holds t key d w → approved_in key (snd w) →
  wp t (approve_host key) (fun _ w' => holds t key d w' ∧ approved_in key (snd w')) w.
Proof.
  intros Hh Ha. eapply wp_seq.
  - apply (wp_hosts t key d w (fun A => A) (fun D => D ∖ {[key]}) (fun w => approved_in key (snd w))
      (fun w => approved_in key (snd w) ∧ holds t key d w ∧ key ∉ session_denied_hosts (fst w))); eauto with stable.
    + set_solver.
    + intros w' Hi Ha' Hh'. cbn [with_hosts session_denied_hosts fst snd]. destruct Hi as [_ _ HA HJ].
      split_and!; try done; set_solver.
  - intros _ w1 (Hh1 & Ha1 & _ & Hn).
    apply (wp_hosts t key d w1 (fun A => {[key]} ∪ A) (fun D => D)
      (fun w => approved_in key (snd w) ∧ holds t key d w ∧ key ∉ session_denied_hosts (fst w))); eauto.
    + intros w2 w3 Hr (Ha2 & Hh2 & Hn2). split_and!; [by apply (approved_stable t key w2)|by apply (holds_stable t key d w2)|].
      by rewrite <- (proj2 (rely_hosts _ _ _ Hr key (proj1 Hh2))).
    + set_solver.
    + intros w' Hi (Ha' & _ & Hn') Hh'. cbn [fst snd]. destruct Hi as [_ _ HA HJ].
      split_and!; [set_solver| |done]. intros k [->%elem_of_singleton|Hk]%elem_of_union; [done|by apply HA].
Qed.

Lemma deny_host_spec t key d w : holds t key d w → wp t (deny_host key) (fun _ w' => holds t key d w' ∧ True) w.
Proof.
  intros Hh. eapply wp_seq.
  - apply (wp_hosts t key d w (fun A => A ∖ {[key]}) (fun D => D) (fun _ => True)
      (fun w => holds t key d w ∧ (key ∈ session_approved_hosts (fst w) → copied_in key (snd w)))); try done.
    + set_solver.
    + intros w' Hi _ Hh'. cbn [with_hosts session_approved_hosts fst snd]. destruct Hi as [_ _ HA HJ].
      split_and!; try done; [set_solver| |set_solver]. intros k Hk. apply HA. set_solver.
  - intros _ w1 (Hh1 & _ & Hn).
    apply (wp_hosts t key d w1 (fun A => A) (fun D => {[key]} ∪ D)
      (fun w => holds t key d w ∧ (key ∈ session_approved_hosts (fst w) → copied_in key (snd w)))); try done.
    + intros w2 w3 Hr (Hh2 & Hn2). split; [by apply (holds_stable t key d w2)|].
      intros [Hin|Hin]%(proj1 (rely_hosts _ _ _ Hr key (proj1 Hh2))); [|done].
      apply (copied_in_subset key (snd w2)); [apply (rely_answers _ _ _ Hr)|auto].
    + set_solver.
    + intros w' Hi (_ & Hn') Hh'. cbn [fst snd]. destruct Hi as [_ _ HA HJ]. split_and!; [|done|done].
      intros k Hk [->%elem_of_singleton|Hd]%elem_of_union; auto.
Qed.

(** Deciding and leaving: the two writes that end the holding of a key. *)
Lemma set_decision_spec t key d w :
  holds t key None w → (d ≠ PendingDeny → approved_in key (snd w)) →
  wp t (write (set_decision t d)) (fun _ w' => holds t key (Some d) w' ∧ (d ≠ PendingDeny → approved_in key (snd w'))) w.
Proof.
  intros Hh Ha w' Hr Hi. pose proof (holds_stable _ _ _ _ _ Hr Hh) as [Hp Ho].
  assert (Ha' : d ≠ PendingDeny → approved_in key (snd w')) by (intros ?; apply (approved_in_mono t w); auto).
  cbn [wp fst snd set_decision with_pending]. split_and!; [| |split|]; cbn; try done.
  - destruct Hi as [P D A J]. split; cbn; try done.
    + intros k i Hk. destruct (P k i Hk) as (o & Hoi & <-). destruct (decide (t = i)) as [<-|];
        [rewrite lookup_alter_eq, Hoi|rewrite lookup_alter_ne, Hoi by done]; cbn; eauto.
    + intros i o d' Hoi Hd Hn. apply lookup_alter_Some in Hoi as [(<- & o' & Ho' & ->)|[_ Hoi]]; [|by apply (D i o d')].
      cbn in *. rewrite Ho in Ho'. injection Ho' as <-. injection Hd as <-. by apply Ha'.
  - intros t' Hne. split; cbn; try done.
    + intros i o Hoi. destruct (decide (t = i)) as [<-|]; [|rewrite lookup_alter_ne by done; by eauto].
      rewrite lookup_alter_eq, Hoi. eexists. split_and!; [done|done|].
      intros d' Hd'. rewrite Ho in Hoi. injection Hoi as <-. done.
    + by rewrite lookup_alter_ne.
    + naive_solver.
  - by rewrite lookup_alter_eq, Ho.
Qed.

Lemma remove_pending_spec t key d w :
  holds t key (Some d) w → (d ≠ PendingDeny → approved_in key (snd w)) →
  wp t (write (remove_pending key)) (fun _ w' => settled t w' ∧ (d ≠ PendingDeny → approved_in key (snd w'))) w.
Proof.
  intros Hh Ha w' Hr Hi. pose proof (holds_stable _ _ _ _ _ Hr Hh) as [Hp Ho].
  assert (Ha' : d ≠ PendingDeny → approved_in key (snd w')) by (intros ?; apply (approved_in_mono t w); auto).
  cbn [wp fst snd remove_pending with_pending]. split_and!; [| |split|]; cbn; try done.
  - destruct Hi as [P D A J]. split; cbn; try done. intros k i [_ Hk]%lookup_delete_Some. by apply P.
  - intros t' Hne. split; cbn; [done|eauto|done| |naive_solver]. intros k. rewrite lookup_delete_Some. naive_solver.
  - rewrite Ho. intros o [= <-]. by eexists.
  - intros k [Hk Hk']%lookup_delete_Some. destruct (inv_pending _ Hi k t Hk') as (o & Ho' & Hko).
    rewrite Ho in Ho'. injection Ho' as <-. done.
Qed.

Lemma settle_spec t key d w :
  holds t key None w → (d ≠ PendingDeny → approved_in key (snd w)) →
  wp t (settle t key d) (fun _ w' => settled t w' ∧ (d ≠ PendingDeny → approved_in key (snd w'))) w.
Proof.
  intros Hh Ha. eapply wp_seq; [by apply (set_decision_spec t key d)|]. intros _ w' [Hh' Ha'].
  by apply (remove_pending_spec t key d).
Qed.

(** ** The handler *)

(** What a request ends with. *)
Definition answer_ok (t : nat) (request : NetworkPolicyRequest) (d : NetworkDecision) (w : World) : Prop :=
  settled t w ∧
  (d = NetPolicy.Allow →
   ∃ environment_id, approved_in (from_request request (approval_protocol (request_protocol request)) environment_id) (snd w)).

Lemma answer_ok_stable t request d : stable t (answer_ok t request d).
Proof.
  intros w w' Hr [Hs Ha]. split; [by apply (settled_stable t w)|]. intros Hd. destruct (Ha Hd) as [e He]. exists e.
  by apply (approved_in_mono t w).
Qed.

Lemma answer_denied t request w : settled t w → answer_ok t request (deny REASON_NOT_ALLOWED) w.
Proof. by split. Qed.

Section request.
Context (t : nat) (request : NetworkPolicyRequest) (environment_id : str).
Let key := from_request request (approval_protocol (request_protocol request)) environment_id.

Lemma refuse_spec owner message w : holds t key None w → wp t (refuse t key owner message) (answer_ok t request) w.
Proof.
  intros Hh. eapply wp_seq; [by apply (settle_spec t key PendingDeny)|]. intros _ w' [Hs _].
  eapply (wp_harmless t _ _ _ (settled t)); [apply harmless_record|auto with stable|done|].
  intros _ w'' Hs' _. by apply answer_denied.
Qed.

(** Asking about a key that is held: what is said is remembered. *)
Lemma ask_spec {X} (q : Question X) d w :
  question_key q = Some key → holds t key d w →
  wp t (ask q) (fun x w' => holds t key d w' ∧ (approves key (answered t q x) → approved_in key (snd w'))) w.
Proof using.
  intros Hq Hh. split.
  - rewrite Hq. intros k [= <-]. apply Hh.
  - intros w' x Hr Hi. split; [|apply approved_by]. apply (holds_stable t key d w'); [apply rely_answer|].
    by apply (holds_stable t key d w).
Qed.

Lemma conclude_spec (d : PendingApprovalDecision) w :
  holds t key None w → (d ≠ PendingDeny → approved_in key (snd w)) →
  wp t (settle t key d ;; Ret (to_network_decision d)) (answer_ok t request) w.
Proof.
  intros Hh Ha. eapply wp_seq; [by apply (settle_spec t key d)|]. intros _ w' [Hs Ha']. split; [done|].
  intros Hd. exists environment_id. apply Ha'. by destruct d.
Qed.

Lemma review_host_spec owner turn w :
  holds t key None w → wp t (review_host t key request owner turn environment_id) (answer_ok t request) w.
Proof.
  intros Hh. unfold review_host. cbv zeta. eapply wp_seq; [by apply (ask_spec _ None)|].
  intros [[|message]|] w1 [Hh1 Ha1].
  - apply (conclude_spec AllowOnce w1 Hh1). intros _. by apply Ha1.
  - eapply (wp_harmless t _ _ _ (holds t key None)); [apply harmless_record|auto with stable|done|].
    intros _ w2 Hh2 _. by apply (conclude_spec PendingDeny w2 Hh2).
  - eapply wp_seq; [apply (ask_spec _ None); [|done]; unfold review_question; by destruct (routes_approval_to_guardian _ _)|].
    intros d w2 [Hh2 Ha2].
    assert (Ha2' : review_allows d = true → approved_in key (snd w2)).
    { intros Hd. apply Ha2. unfold review_question. by destruct (routes_approval_to_guardian _ _). }
    eapply (wp_harmless t _ _ _ (fun w => holds t key None w ∧ (review_allows d = true → approved_in key (snd w))));
      [apply harmless_resolve| |done|].
    { apply and_stable; [auto with stable|]. intros v v' Hr Ha Hd. apply (approved_stable t key v); auto. }
    intros [resolved cache] w3 [Hh3 Ha3] [Hallow Hcache]. cbn [fst snd] in *.
    eapply (wp_seq t _ _ (fun _ w => holds t key None w ∧ (resolved ≠ PendingDeny → approved_in key (snd w)))).
    { destruct resolved; try (split; [done|by auto]). eapply wp_mono; [|apply (approve_host_spec t key None); [done|by auto]].
      intros _ w' [? ?]. auto. }
    intros _ w4 [Hh4 Ha4].
    eapply (wp_seq t _ _ (fun _ w => holds t key None w ∧ (resolved ≠ PendingDeny → approved_in key (snd w)))).
    { destruct cache; [|done]. rewrite Hcache by done. eapply wp_mono; [|by apply (deny_host_spec t key None)].
      intros _ w' [? _]. by split; [|intros []]. }
    intros _ w5 [Hh5 Ha5]. by apply conclude_spec.
Qed.
End request.

(** A request that has created nothing. *)
Definition fresh (t : nat) (w : World) : Prop := object_in w t = None ∧ ∀ key, pending_in w key ≠ Some t.

Lemma fresh_stable t : stable t (fresh t).
Proof.
  intros w w' Hr [Ho Hp]. split; [by rewrite (rely_mine _ _ _ Hr)|].
  intros key Hk. apply (rely_pending _ _ _ Hr) in Hk. by apply (Hp key).
Qed.

Lemma fresh_settled t w : fresh t w → settled t w.
Proof. intros [Ho Hp]. split; [by rewrite Ho|done]. Qed.

Lemma read_spec {X} t (f : NetworkApprovalService → X) (J : World → Prop) w :
  stable t J → J w → wp t (read f) (fun x w' => J w' ∧ inv w' ∧ x = f (fst w')) w.
Proof.
  intros HJ Hw [s l] Hr Hi. cbn [fst snd wp]. split_and!; [done|done|by apply (HJ w)|done|done].
Qed.

Lemma get_or_create_spec t key w :
  fresh t w →
  wp t (Atomic (get_or_create_pending_approval t key) Ret)
    (fun r w' => (r = (t, true) ∧ holds t key None w') ∨
       (snd r = false ∧ fresh t w' ∧ ∃ o, object_in w' (fst r) = Some o ∧ pending_key o = key)) w.
Proof.
  intros Hf [s l] Hr Hi. pose proof (fresh_stable t _ _ Hr Hf) as [Ho Hp]. unfold get_or_create_pending_approval.
  cbn [fst snd] in *. destruct (pending_host_approvals s !! key) as [i|] eqn:E; cbn [fst snd wp].
  { split; [done|]. split; [done|]. right. split; [done|]. split; [done|]. by apply (inv_pending _ Hi). }
  destruct Hi as [P D A J]. cbn [fst snd] in *. split_and!.
  - split; cbn; try done.
    + intros k i. rewrite lookup_insert_Some. intros [[<- <-]|[Hk Hki]]; [rewrite lookup_insert_eq; by eexists|].
      destruct (P k i Hki) as (o & Hoi & <-). exists o. split; [|done]. rewrite lookup_insert_ne; [done|]. congruence.
    + intros i o d. rewrite lookup_insert_Some. intros [[<- <-]|[_ Hoi]] Hd Hn; [done|]. by apply (D i o d).
  - intros t' Hne. split; cbn; try done.
    + intros i o Hoi. exists o. split_and!; [|done|done]. rewrite lookup_insert_ne; [done|]. congruence.
    + by rewrite lookup_insert_ne.
    + intros k. rewrite lookup_insert_Some. naive_solver.
    + naive_solver.
  - left. split; [done|]. split; cbn; by rewrite lookup_insert_eq.
Qed.

Lemma handle_spec t request w : fresh t w → wp t (handle_inline_policy_request t request) (answer_ok t request) w.
Proof.
  intros Hf. unfold handle_inline_policy_request. cbv zeta.
  eapply (wp_harmless t _ _ _ (fresh t)); [apply harmless_attribution|apply fresh_stable|done|].
  intros [[owner active]|] w1 Hf1 _; [|by apply answer_denied, fresh_settled].
  eapply (wp_harmless t _ _ _ (fresh t)); [by apply harmless_ask|apply fresh_stable|done|].
  intros turn w2 Hf2 _. set (environment := match active with Some _ => _ | None => _ end).
  destruct environment as [environment_id|]; [|by apply answer_denied, fresh_settled].
  eapply wp_seq; [by apply (read_spec t _ (fresh t)), Hf2; apply fresh_stable|]. intros denied w3 (Hf3 & _ & _).
  destruct denied; [by apply answer_denied, fresh_settled|].
  eapply wp_seq; [by apply (read_spec t _ (fresh t)), Hf3; apply fresh_stable|]. intros approved w4 (Hf4 & Hi4 & ->).
  case_bool_decide as Hin.
  { split; [by apply fresh_settled|]. intros _. exists environment_id. by apply (inv_approved _ Hi4). }
  eapply wp_seq; [by apply get_or_create_spec|]. intros [pending is_owner] w5 [[[= -> ->] Hh]|(Hno & Hf5 & o & Ho & Hk)].
  - cbn [negb]. destruct turn as [turn|]; [|by apply (refuse_spec t request environment_id)].
    destruct (negb _); [by apply (refuse_spec t request environment_id)|].
    destruct (negb _); [by apply (refuse_spec t request environment_id)|by apply review_host_spec].
  - cbn [fst snd] in *. subst is_owner. cbn [negb wp]. split_and!; [apply Hf5|by exists o|].
    intros w6 o6 d Hr Hi6 Ho6 Hd. split; [by apply fresh_settled, (fresh_stable t w5)|]. intros Hallow. exists environment_id.
    destruct (rely_objects _ _ _ Hr _ _ Ho) as (o' & Ho' & Hk' & _). rewrite Ho6 in Ho'. injection Ho' as <-.
    rewrite <- Hk, <- Hk'. apply (inv_decided _ Hi6 pending o6 d); [done..|]. by destruct d.
Qed.

(** ** The pool *)

Record pool_ok (P : Pool) : Prop := {
  ok_inv : inv (service P, answers P);
  ok_objects : ∀ i, is_Some (pending_objects (service P) !! i) → is_Some (threads P !! i);
  ok_threads : ∀ i p, threads P !! i = Some p →
    ∃ request, requests P !! i = Some request ∧ wp i p (answer_ok i request) (service P, answers P)
}.

(** The step of one handler: the others go on from what they rely on. *)
Lemma pool_ok_move P i p p' s' l' :
  pool_ok P → threads P !! i = Some p → inv (s', l') →
  (∀ j, is_Some (pending_objects s' !! j) → j = i ∨ is_Some (pending_objects (service P) !! j)) →
  (∀ t, t ≠ i → rely t (service P, answers P) (s', l')) →
  (∀ Q, (∀ r, stable i (Q r)) → wp i p Q (service P, answers P) → wp i p' Q (s', l')) →
  pool_ok (mkPool s' (requests P) (<[i := p']> (threads P)) l').
Proof.
  intros [Hi Ho Ht] Hp Hi' Hnew Hr Hwp. split; cbn [service requests threads answers]; [done|..].
  - intros j Hj. destruct (decide (j = i)) as [->|]; [rewrite lookup_insert_eq; by eexists|].
    rewrite lookup_insert_ne by done. apply Ho. by destruct (Hnew j Hj).
  - intros j q. rewrite lookup_insert_Some. intros [[<- <-]|[Hne Hq]].
    + destruct (Ht i p Hp) as (request & Hreq & Hw). exists request. split; [done|].
      apply Hwp; [intros r; apply answer_ok_stable|done].
    + destruct (Ht j q Hq) as (request & Hreq & Hw). exists request. split; [done|].
      apply (wp_stable j q (answer_ok j request)) with (service P, answers P); [intros r; apply answer_ok_stable|by apply Hr|done].
Qed.

(** Only the handler of a request creates its object. *)
Lemma wp_atomic_objects {R X} t op (k : X → Prog R) Q w j :
  wp t (Atomic op k) Q w → inv w → j ≠ t → is_Some (pending_objects (fst (op (fst w))) !! j) →
  is_Some (pending_objects (fst w) !! j).
Proof.
  intros Hw Hi Hne Hj. destruct (Hw w) as (_ & Hg & _); [done|done|].
  pose proof (rely_mine _ _ _ (Hg j Hne)) as E. cbn [fst] in E. by rewrite <- E.
Qed.

Lemma outside_same_hosts s s' : outside_step s s' → same_hosts s s'.
Proof. destruct 1; try done. unfold insert_blocked_outcome. by case_match. Qed.

(** Hosts that are copied from a parent session. *)
Lemma sync_inv s parent l : inv (s, l) → inv (sync_session_approved_hosts_to parent s, l ++ [hosts_copied (session_approved_hosts parent)]).
Proof.
  intros [P D A J]. split; cbn [fst snd] in *; [done| | |].
  - intros i o d Ho Hd Hn. by eapply approved_in_snoc, D.
  - intros key Hk. right. exists (session_approved_hosts parent). split; [set_solver|done].
  - intros key Hk _. exists (session_approved_hosts parent). split; [set_solver|done].
Qed.

Lemma sync_rely t s parent l : rely t (s, l) (sync_session_approved_hosts_to parent s, l ++ [hosts_copied (session_approved_hosts parent)]).
Proof.
  split; cbn [fst snd]; [set_solver|eauto|done..|]. intros key _. split; [|done]. intros Hk. right.
  exists (session_approved_hosts parent). split; [set_solver|done].
Qed.

Lemma pool_ok_step P P' : pool_ok P → pool_step P P' → pool_ok P'.
Proof.
  intros Hok Hstep. pose proof Hok as [Hi Ho Ht].
  destruct Hstep as [Hstep|Hstep];
    [destruct Hstep as [s rs ts l i X op k Hp|s rs ts l i X q k x Hp|s rs ts l i pending k o d Hp Hobj Hd]
    |destruct Hstep as [s rs ts l i request Hn|s s' rs ts l Hs|s parent rs ts l]];
    cbn [service requests threads answers] in *.
  - destruct (Ht i _ Hp) as (request & _ & Hw). pose proof (Hw (s, l) (rely_refl i _) Hi) as (Hi' & Hg & _).
    apply (pool_ok_move (mkPool s rs ts l) i (Atomic op k)); cbn [service answers threads]; try done.
    + intros j Hj. destruct (decide (j = i)) as [|Hne]; [by left|right].
      by apply (wp_atomic_objects i op k _ (s, l) j Hw Hi Hne).
    + intros Q _ HQ. by apply (HQ (s, l)).
  - apply (pool_ok_move (mkPool s rs ts l) i (Query q k)); cbn [service answers threads]; try done.
    + by apply (inv_answer (s, l)).
    + auto.
    + intros t _. apply (rely_answer t (s, l)).
    + intros Q _ [_ HQ]. by apply (HQ (s, l)).
  - apply (pool_ok_move (mkPool s rs ts l) i (WaitForDecision pending k)); cbn [service answers threads]; auto; try done.
    intros Q _ (_ & _ & HQ). by apply (HQ (s, l) o).
  - assert (Hfresh : fresh i (s, l)).
    { assert (pending_objects s !! i = None) as E.
      { destruct (pending_objects s !! i) eqn:E; [|done]. destruct (Ho i) as [? ?]; [by rewrite E|congruence]. }
      split; [done|]. intros key Hk. destruct (inv_pending _ Hi key i Hk) as (o & Hoi & _). cbn in Hoi. congruence. }
    split; cbn [service requests threads answers]; [done|..].
    + intros j Hj. destruct (decide (j = i)) as [->|]; [rewrite lookup_insert_eq; by eexists|].
      rewrite lookup_insert_ne by done. by apply Ho.
    + intros j q. rewrite lookup_insert_Some. intros [[<- <-]|[Hne Hq]].
      * exists request. rewrite lookup_insert_eq. split; [done|by apply handle_spec].
      * destruct (Ht j q Hq) as (r & Hr & Hw). exists r. by rewrite lookup_insert_ne.
  - apply outside_same_hosts in Hs. split; cbn [service requests threads answers].
    + by apply (same_hosts_inv s).
    + destruct Hs as (_ & -> & _). done.
    + intros j q Hq. destruct (Ht j q Hq) as (request & Hr & Hw). exists request. split; [done|].
      apply (wp_stable j q (answer_ok j request)) with (s, l); [intros r; apply answer_ok_stable|by apply same_hosts_rely|done].
  - split; cbn [service requests threads answers]; [by apply sync_inv|done|].
    intros j q Hq. destruct (Ht j q Hq) as (request & Hr & Hw). exists request. split; [done|].
    apply (wp_stable j q (answer_ok j request)) with (s, l); [intros r; apply answer_ok_stable|apply sync_rely|done].
Qed.

Lemma pool_ok_reachable P : rtc pool_step new_pool P → pool_ok P.
Proof.
  apply (rtc_ind_r (R := pool_step) pool_ok new_pool); [|intros x y _ Hs Hx; by apply (pool_ok_step x)].
  split; cbn; [|intros i [? H]; by rewrite lookup_empty in H|intros i p H; by rewrite lookup_empty in H].
  split; cbn; [intros ? ? H; by rewrite lookup_empty in H|intros ? ? ? H; by rewrite lookup_empty in H|set_solver..].
Qed.

(** C10: access is given only on an approval.  However requests, calls, answers and copies of the
    approved hosts of a parent session interleave, a request that ends with access was approved, for
    the same host, protocol and port, by an answer of a hook, the automatic reviewer or the user, or
    its host was among those copied from the parent; at most one request at a time asks about a host;
    a host that is kept as approved for the session was approved by an answer or copied; and one that
    is kept both as approved and as denied was copied. *)
Theorem network_access_is_approved P :
  rtc pool_step new_pool P →
  (∀ i, threads P !! i = Some (Ret NetPolicy.Allow) →
     ∃ request environment_id, requests P !! i = Some request ∧
       let key := from_request request (approval_protocol (request_protocol request)) environment_id in
       answered_in key (answers P) ∨ copied_in key (answers P)) ∧
  (∀ i j X Y (q : Question X) (q' : Question Y) k k' key,
     threads P !! i = Some (Query q k) → threads P !! j = Some (Query q' k') →
     question_key q = Some key → question_key q' = Some key → i = j) ∧
  (∀ key, key ∈ session_approved_hosts (service P) → answered_in key (answers P) ∨ copied_in key (answers P)) ∧
  (∀ key, key ∈ session_approved_hosts (service P) → key ∈ session_denied_hosts (service P) → copied_in key (answers P)).
Proof.
  intros [Hi _ Ht]%pool_ok_reachable. split_and!.
  - intros i Hp. destruct (Ht i _ Hp) as (request & Hr & _ & Ha). destruct (Ha eq_refl) as [e He]. by exists request, e.
  - intros i j X Y q q' k k' key Hp Hp' Hq Hq'.
    destruct (Ht i _ Hp) as (_ & _ & Hk & _). destruct (Ht j _ Hp') as (_ & _ & Hk' & _).
    apply Hk in Hq. apply Hk' in Hq'. cbn in Hq, Hq'. congruence.
  - apply (inv_approved _ Hi).
  - apply (inv_disjoint _ Hi).
Qed.

(** ** Every request ends *)

(** The program takes at most [n] steps of its own, whatever it sees. *)
Fixpoint within {R} (n : nat) (p : Prog R) {struct p} : Prop :=
  match p with
  | Ret _ => True
  | Atomic _ k => match n with 0 => False | S n => ∀ x, within n (k x) end
  | Query _ k => match n with 0 => False | S n => ∀ x, within n (k x) end
  | WaitForDecision _ k => match n with 0 => False | S n => ∀ d, within n (k d) end
  end.

Lemma within_le {R} n m (p : Prog R) : n ≤ m → within n p → within m p.
Proof.
  revert n m. induction p as [r|X op k IH|X q k IH|i k IH]; intros n m Hle; [done|..];
    (destruct n; [done|]); (destruct m; [lia|]); cbn [within]; intros H x; (apply (IH x n); [lia|apply H]).
Qed.

Lemma within_bind {A B} n m (p : Prog A) (f : A → Prog B) :
  within n p → (∀ a, within m (f a)) → within (n + m) (pbind p f).
Proof.
  revert n. induction p as [r|X op k IH|X q k IH|i k IH]; intros n H Hf; cbn [pbind];
    [apply (within_le m); [lia|apply Hf]|..]; (destruct n; [done|]); intros x; by apply IH.
Qed.

Lemma within_ret {R} n (r : R) : within n (Ret r).
Proof. done. Qed.
Lemma within_wait {R} n i (f : PendingApprovalDecision → R) : within (S n) (WaitForDecision i (fun d => Ret (f d))).
Proof. done. Qed.
#[local] Hint Resolve within_ret within_wait : core.

(** Bounds of the parts. *)
Lemma within_one {X} (op : NetworkApprovalService → NetworkApprovalService * X) : within 1 (Atomic op Ret).
Proof. done. Qed.
Lemma within_ask {X} (q : Question X) : within 1 (ask q).
Proof. done. Qed.
#[local] Hint Resolve within_one within_ask : core.

Ltac step n m := apply (within_bind n m); [|intros ?].

Lemma within_record owner outcome : within 2 (record_for_owner owner outcome).
Proof. destruct owner as [call|]; [|cbn; eauto]. step 1 1; [eauto|]. destruct a; [apply within_one|eauto]. Qed.

Lemma within_settle t key d : within 2 (settle t key d).
Proof. step 1 1; apply within_one. Qed.

Lemma within_persist turn amendment ctx : within 2 (persist_amendment turn amendment ctx).
Proof. step 1 1; [eauto|]. destruct a; eauto. Qed.

Lemma within_hosts key d : within 2 (match d with AllowForSession => approve_host key | _ => Ret tt end).
Proof. destruct d; [eauto| |eauto]. step 1 1; apply within_one. Qed.

Lemma within_resolve turn owner ctx g d : within 4 (resolve_decision turn owner ctx g d).
Proof.
  destruct d as [| | |amendment| | |]; cbn [resolve_decision]; eauto.
  1: destruct (amended_action amendment); (step 2 2; [apply within_persist|]); [eauto|].
  2-4: step 2 2; [apply within_record|eauto].
  step 2 0; [apply within_record|eauto].
Qed.

Definition MAX_STEPS : nat := 17.

Lemma within_review t key request owner turn e : within 12 (review_host t key request owner turn e).
Proof.
  unfold review_host. cbv zeta. step 1 11; [eauto|]. destruct a as [[|message]|].
  - step 2 9; [apply within_settle|eauto].
  - step 2 9; [apply within_record|]. step 2 7; [apply within_settle|eauto].
  - step 1 10; [eauto|]. step 4 6; [apply within_resolve|]. destruct a0 as [resolved cache].
    step 2 4; [apply within_hosts|].
    step 2 2; [destruct cache; [step 1 1; apply within_one|eauto]|].
    step 2 0; [apply within_settle|eauto].
Qed.

Lemma within_refuse t key owner message : within 12 (refuse t key owner message).
Proof. step 2 10; [apply within_settle|]. step 2 8; [apply within_record|eauto]. Qed.

Lemma within_handle t request : within MAX_STEPS (handle_inline_policy_request t request).
Proof.
  unfold handle_inline_policy_request. cbv zeta. change MAX_STEPS with (1 + 16).
  step 1 16; [unfold resolve_request_attribution; repeat case_match; (step 1 0; [apply within_one|]); eauto|].
  destruct a as [[owner active]|]; [|eauto]. step 1 15; [eauto|].
  set (environment := match active with Some _ => _ | None => _ end). destruct environment as [e|]; [|eauto].
  step 1 14; [apply within_one|]. destruct a0; [eauto|]. step 1 13; [apply within_one|]. destruct a0; [eauto|].
  step 1 12; [apply within_one|]. destruct a0 as [pending []]; cbn [negb]; [|eauto]. repeat case_match;
    first [apply within_refuse|apply within_review].
Qed.

(** Runs, with the number of steps that the handlers took. *)
Inductive pool_run : nat → Pool → Prop :=
| run_new : pool_run 0 new_pool
| run_handler n P P' : pool_run n P → handler_step P P' → pool_run (S n) P'
| run_environment n P P' : pool_run n P → environment_step P P' → pool_run n P'.

Lemma pool_run_reachable n P : pool_run n P → rtc pool_step new_pool P.
Proof. induction 1; [done|..]; eapply rtc_r; eauto; [by left|by right]. Qed.

(** The steps that are left, in all. *)
Definition total (m : gmap nat nat) : nat := map_fold (fun _ n acc => n + acc) 0 m.

Lemma total_insert_new m i n : m !! i = None → total (<[i := n]> m) = n + total m.
Proof. intros H. unfold total. rewrite map_fold_insert_L; [done|lia|done]. Qed.

Lemma total_insert m i n n' : m !! i = Some n → total (<[i := n']> m) + n = total m + n'.
Proof.
  intros H. rewrite <- (insert_delete_id m i n H) at 2. rewrite <- (insert_delete_eq m i n').
  rewrite !total_insert_new by apply lookup_delete_eq. lia.
Qed.

(** How many steps a handler may still take. *)
Definition budget (P : Pool) (m : gmap nat nat) : Prop :=
  ∀ i p, threads P !! i = Some p → ∃ n, m !! i = Some n ∧ within n p.

Lemma budget_move P i p p' m n s l :
  budget P m → m !! i = Some (S n) → threads P !! i = Some p → within n p' →
  budget (mkPool s (requests P) (<[i := p']> (threads P)) l) (<[i := n]> m).
Proof.
  intros Hb Hm Hp Hw j q. cbn [threads]. rewrite lookup_insert_Some. intros [[<- <-]|[Hne Hq]].
  - exists n. by rewrite lookup_insert_eq.
  - rewrite lookup_insert_ne by done. by apply Hb.
Qed.

Lemma budget_step P P' m : handler_step P P' → budget P m →
  ∃ m', budget P' m' ∧ S (total m') = total m ∧ requests P' = requests P ∧ (∀ i, m !! i = None ↔ m' !! i = None).
Proof.
  intros Hs Hb. assert (H : ∃ i p p' n, threads P !! i = Some p ∧ threads P' = <[i := p']> (threads P) ∧
    requests P' = requests P ∧ m !! i = Some (S n) ∧ within n p').
  { destruct Hs as [s rs ts l i X op k Hp|s rs ts l i X q k x Hp|s rs ts l i pending k o d Hp _ _];
      destruct (Hb i _ Hp) as ([|n] & Hn & Hw); [done|by eexists i, _, _, n|done|by eexists i, _, _, n|done|by eexists i, _, _, n]. }
  destruct H as (i & p & p' & n & Hp & Ht & Hr & Hn & Hw). exists (<[i := n]> m). split_and!; [| |done|].
  - destruct P' as [s' rs' ts' l']. cbn in Ht, Hr. subst. by apply (budget_move P i p).
  - pose proof (total_insert m i (S n) n Hn). lia.
  - intros j. destruct (decide (j = i)) as [->|]; [rewrite lookup_insert_eq; naive_solver|by rewrite lookup_insert_ne].
Qed.

(** The steps taken and the steps left are paid for by the requests. *)
Lemma run_paid n P : pool_run n P →
  ∃ m, budget P m ∧ n + total m ≤ MAX_STEPS * size (requests P) ∧
    (∀ i, m !! i = None ↔ threads P !! i = None) ∧ (∀ i, requests P !! i = None ↔ threads P !! i = None).
Proof.
  induction 1 as [|n P P' Hrun (m & Hb & Hle & Hd & Hr) Hs|n P P' Hrun (m & Hb & Hle & Hd & Hr) Hs].
  - exists ∅. split_and!; [intros i p H; cbn in H; by rewrite lookup_empty in H|done|done|done].
  - destruct (budget_step P P' m Hs Hb) as (m' & Hb' & Ht & Hrs & Hd'). exists m'.
    assert (∀ i, threads P' !! i = None ↔ threads P !! i = None) as Hdom.
    { destruct Hs as [s rs ts l i X op k Hp|s rs ts l i X q k x Hp|s rs ts l i pending k o d Hp _ _]; cbn [threads] in *;
        intros j; destruct (decide (j = i)) as [->|]; rewrite ?lookup_insert_eq, ?lookup_insert_ne by done; naive_solver. }
    split_and!; [done|rewrite Hrs; lia|intros i; by rewrite <- Hd', Hd, Hdom|intros i; by rewrite Hrs, Hr, Hdom].
  - destruct Hs as [s rs ts l i request Hn|s s' rs ts l Hs|s parent rs ts l]; cbn [requests threads] in *; [|by exists m..].
    exists (<[i := MAX_STEPS]> m). rewrite total_insert_new by (by apply Hd). split_and!.
    + intros j p. cbn [threads]. rewrite lookup_insert_Some. intros [[<- <-]|[Hne Hp]].
      * exists MAX_STEPS. rewrite lookup_insert_eq. split; [done|apply within_handle].
      * rewrite lookup_insert_ne by done. by apply Hb.
    + rewrite map_size_insert_None by (by apply Hr). lia.
    + intros j. destruct (decide (j = i)) as [->|]; rewrite ?lookup_insert_eq, ?lookup_insert_ne by done; [done|apply Hd].
    + intros j. destruct (decide (j = i)) as [->|]; rewrite ?lookup_insert_eq, ?lookup_insert_ne by done; [done|apply Hr].
Qed.

(** Every question has an answer. *)
Lemma question_inhabited X (q : Question X) : inhabited X.
Proof. destruct q; constructor; first [exact None|exact Approved|exact (Ok tt)|exact tt]. Qed.

(** A handler that holds an undecided object can move. *)
Lemma moves P i p :
  threads P !! i = Some p → (∀ d, p ≠ Ret d) → (∀ j k, p ≠ WaitForDecision j k) → ∃ P', handler_step P P'.
Proof.
  destruct P as [s rs ts l]. cbn [threads]. intros Hp Hr Hw. destruct p as [r|X op k|X q k|j k].
  - by destruct (Hr r).
  - eexists. by apply step_atomic with (i := i) (op := op) (k := k).
  - destruct (question_inhabited X q) as [x]. eexists. by apply step_answer with (i := i) (q := q) (k := k) (x := x).
  - by destruct (Hw j k).
Qed.

Lemma can_move P : pool_ok P → (∀ P', ¬ handler_step P P') → ∀ i p, threads P !! i = Some p → ∃ d, p = Ret d.
Proof.
  intros Hok Hstuck i p Hp. destruct p as [r|X op k|X q k|j k]; [by exists r|..].
  1, 2: exfalso; destruct (moves P i _ Hp) as [P' HP']; [done..|by apply (Hstuck P')].
  exfalso. destruct (ok_threads P Hok i _ Hp) as (_ & _ & _ & [o Ho] & _).
  destruct (ok_objects P Hok j) as [p' Hp']; [by exists o|].
  destruct (ok_threads P Hok j p' Hp') as (request & _ & Hw).
  destruct (pending_decision o) as [d|] eqn:Hd.
  { destruct P as [s rs ts l]. cbn [threads service fst] in *. eapply Hstuck. eapply step_decided with (i := i); eassumption. }
  destruct (moves P j p' Hp') as [P' HP']; [| |by apply (Hstuck P')].
  - intros d ->. destruct Hw as [[Hset _] _]. destruct (Hset o Ho) as [? ?]. congruence.
  - intros j' k' ->. destruct Hw as [Hnone _]. congruence.
Qed.

(** C24: no request waits forever.  The handlers of a run take at most seventeen steps for each
    request, whatever else happens, and as long as one of them has not ended some handler
    can move, with an answer if it has asked; so when nothing moves, all requests are
    answered.  In particular no request waits for a decision that nobody is going to take. *)
Theorem every_request_is_answered n P :
  pool_run n P →
  n ≤ MAX_STEPS * size (requests P) ∧
  ((∀ P', ¬ handler_step P P') →
   ∀ i request, requests P !! i = Some request → ∃ d, threads P !! i = Some (Ret d)).
Proof.
  intros Hrun. destruct (run_paid n P Hrun) as (m & _ & Hle & _ & Hr). split; [lia|]. intros Hstuck i request Hreq.
  destruct (threads P !! i) as [p|] eqn:Hp.
  - destruct (can_move P (pool_ok_reachable P (pool_run_reachable n P Hrun)) Hstuck i p Hp) as [d ->]. by exists d.
  - apply Hr in Hp. congruence.
Qed.

(** ** Running one request *)

(** With an answer to each question; the result is missing if the request has to wait. *)
Fixpoint run_alone {R} (answer : ∀ X, Question X → X) (i : nat) (p : Prog R) (s : NetworkApprovalService)
    (l : list Answered) : NetworkApprovalService * list Answered * option R :=
  match p with
  | Ret r => (s, l, Some r)
  | Atomic op k => let '(s, x) := op s in run_alone answer i (k x) s l
  | Query q k => let x := answer _ q in run_alone answer i (k x) s (l ++ [answered i q x])
  | WaitForDecision j k =>
      match pending_objects s !! j ≫= pending_decision with
      | Some d => run_alone answer i (k d) s l
      | None => (s, l, None)
      end
  end.

Lemma run_alone_steps answer i (p : Prog NetworkDecision) s rs ts l n s' l' r :
  pool_run n (mkPool s rs (<[i := p]> ts) l) → run_alone answer i p s l = (s', l', Some r) →
  ∃ n', pool_run n' (mkPool s' rs (<[i := Ret r]> ts) l').
Proof.
  revert s l n. induction p as [r'|X op k IH|X q k IH|j k IH]; intros s l n Hrun; cbn [run_alone].
  - intros [= <- <- <-]. by exists n.
  - destruct (op s) as [s1 x] eqn:Hop. intros H. eapply (IH x); [|exact H]. eapply run_handler; [exact Hrun|].
    pose proof (step_atomic s rs (<[i := Atomic op k]> ts) l i X op k) as E. rewrite Hop, insert_insert_eq in E.
    apply E. by rewrite lookup_insert_eq.
  - intros H. eapply (IH (answer X q)); [|exact H]. eapply run_handler; [exact Hrun|].
    pose proof (step_answer s rs (<[i := Query q k]> ts) l i X q k (answer X q)) as E. rewrite insert_insert_eq in E.
    apply E. by rewrite lookup_insert_eq.
  - destruct (pending_objects s !! j) as [o|] eqn:Ho; [|done]. cbn [mbind option_bind].
    destruct (pending_decision o) as [d|] eqn:Hd; [|done]. intros H. eapply (IH d); [|exact H].
    eapply run_handler; [exact Hrun|].
    pose proof (step_decided s rs (<[i := WaitForDecision j k]> ts) l i j k o d) as E. rewrite insert_insert_eq in E.
    apply E; [by rewrite lookup_insert_eq|done|done].
Qed.

(** ** Samples *)

Module SampleNetwork.
Definition request : NetworkPolicyRequest := mkRequest ProtocolHttpsConnect (lit "API.example") 443 None None.
Definition turn : TurnContext :=
  mkTurn (lit "turn-1") [(lit "local", Some (lit "/work"))] (lit "/work")
    (Managed (ManagedRestricted [] None) NetworkEnabled) OnRequest ReviewerUser.
Definition key : HostApprovalKey := mkKey (lit "local") (lit "api.example") (lit "https") 443.

(** The user approves for the session. *)
Definition answer (X : Type) (q : Question X) : X :=
  match q in Question X return X with
  | ActiveTurnContext => Some turn
  | RunPermissionRequestHooks _ _ _ _ => None
  | ReviewApprovalRequest _ _ _ _ _ _ _ _ => TimedOut
  | RequestCommandApproval _ _ _ _ _ _ _ => ApprovedForSession
  | PersistNetworkPolicyAmendment _ _ => Ok tt
  | RecordNetworkPolicyAmendmentMessage _ _ => tt
  | SendWarning _ _ => tt
  end.

Definition outcome := run_alone answer 0 (handle_inline_policy_request 0 request) default_service [].
Definition final : Pool :=
  mkPool (fst (fst outcome)) {[0 := request]} {[0 := Ret NetPolicy.Allow]} (snd (fst outcome)).

Lemma final_run : ∃ n, pool_run n final.
Proof.
  apply (run_alone_steps answer 0 (handle_inline_policy_request 0 request) default_service {[0 := request]} ∅ [] 0).
  - eapply run_environment; [apply run_new|]. by apply (step_request default_service ∅ ∅ [] 0 request).
  - vm_compute. reflexivity.
Qed.

(** The next request for the host is let through, and one that finds a prompt waits. *)
Example approved_for_session :
  snd (run_alone answer 1 (handle_inline_policy_request 1 request) (service final) []) = Some NetPolicy.Allow ∧
  snd (run_alone answer 1 (handle_inline_policy_request 1 request)
         (fst (get_or_create_pending_approval 0 key default_service)) []) = None.
Proof. split; vm_compute; reflexivity. Qed.

(** A host that this session denied and its parent approved is kept as both. *)
Example denied_host_is_copied :
  let denied := with_hosts ∅ {[key]} default_service in
  let parent := with_hosts {[key]} ∅ default_service in
  let s := sync_session_approved_hosts_to parent denied in
  key ∈ session_approved_hosts s ∧ key ∈ session_denied_hosts s ∧
  snd (run_alone answer 1 (handle_inline_policy_request 1 request) s []) = Some (deny REASON_NOT_ALLOWED).
Proof. cbn [sync_session_approved_hosts_to with_hosts session_approved_hosts session_denied_hosts]. split_and!; [set_solver..|vm_compute; reflexivity]. Qed.
End SampleNetwork.

Lemma network_access_is_approved_witness :
  threads SampleNetwork.final !! 0 = Some (Ret NetPolicy.Allow) ∧
  ∃ request environment_id, requests SampleNetwork.final !! 0 = Some request ∧
    let key := from_request request (approval_protocol (request_protocol request)) environment_id in
    answered_in key (answers SampleNetwork.final) ∨ copied_in key (answers SampleNetwork.final).
Proof.
  destruct SampleNetwork.final_run as [n Hn].
  destruct (network_access_is_approved SampleNetwork.final (pool_run_reachable n _ Hn)) as (H & _).
  split; [vm_compute; reflexivity|]. apply H. vm_compute. reflexivity.
Defined.

Lemma every_request_is_answered_witness :
  ∃ n, pool_run n SampleNetwork.final ∧ n ≤ MAX_STEPS * size (requests SampleNetwork.final).
Proof.
  destruct SampleNetwork.final_run as [n Hn]. exists n. split; [exact Hn|].
  destruct (every_request_is_answered n SampleNetwork.final Hn) as [H _]. exact H.
Defined.
