(* ===== verification/ToolOrchestrator.v ===== *)
(** * Running a tool: approval, sandbox, retry

    [codex-rs/core/src/tools/orchestrator.rs], [approvals.rs] and [sandboxing.rs]: a tool
    call is approved where its requirement asks for it, run in the sandbox that the
    permissions call for, and run once more, usually without the sandbox, when the sandbox
    stopped it.

    The orchestrator is a program that calls hooks, reviewers, the network approval, the
    tool itself and telemetry; a run is the sequence of these calls with their results. *)

From S2P Require Import Prelude RustStr ShellTree SandboxPolicy ExecApproval ToolTypes NetworkApproval.

(** ** [sandboxing.rs]: the cache of approvals *)

(** [None] is a key that does not serialize. *)
Abbreviation ApprovalStore := (gmap str ReviewDecision).

Section store.
Context {K : Type} (to_string : K → option str).

Definition store_get (key : K) (store : ApprovalStore) : option ReviewDecision := s ← to_string key; store !! s.

Definition store_put (key : K) (value : ReviewDecision) (store : ApprovalStore) : ApprovalStore :=
  match to_string key with Some s => <[s := value]> store | None => store end.

(** Whether all keys are approved for the session, and the writing of such an approval. *)
Definition already_approved (keys : list K) (store : ApprovalStore) : bool :=
  forallb (fun key => match store_get key store with Some ApprovedForSession => true | _ => false end) keys.

Definition store_approvals (keys : list K) (store : ApprovalStore) : ApprovalStore :=
  foldl (fun store key => store_put key ApprovedForSession store) store keys.
End store.

(** ** [sandboxing.rs]: requirements and overrides *)

Definition requirement_proposed_amendment (r : ExecApprovalRequirement) : option ExecPolicyAmendment :=
  match r with
  | NeedsApproval _ (Some prefix) | Skip _ (Some prefix) => Some prefix
  | _ => None
  end.

Definition default_exec_approval_requirement (policy : AskForApproval) (fs : FileSystemSandboxPolicy) :
    ExecApprovalRequirement :=
  let needs_approval :=
    match policy with
    | Never => false
    | OnRequest | Granular _ => match fs_kind fs with KindRestricted => true | _ => false end
    | UnlessTrusted => true
    end in
  if needs_approval && match policy with Granular config => negb (sandbox_approval config) | _ => false end
  then RequirementForbidden (lit "approval policy disallowed sandbox approval prompt")
  else if needs_approval then NeedsApproval None None
  else Skip false None.

Inductive SandboxOverride := NoOverride | BypassSandboxFirstAttempt.

Definition unsandboxed_execution_allowed (fs : FileSystemSandboxPolicy) : bool := negb (has_denied_read_restrictions fs).

Definition sandbox_override_for_first_attempt (sandbox_permissions : SandboxPermissions)
    (requirement : ExecApprovalRequirement) (fs : FileSystemSandboxPolicy) : SandboxOverride :=
  if negb (unsandboxed_execution_allowed fs) then NoOverride
  else match requirement with
       | Skip true _ => BypassSandboxFirstAttempt
       | _ => if requires_escalated_permissions sandbox_permissions then BypassSandboxFirstAttempt else NoOverride
       end.

Definition sandbox_permissions_preserving_denied_reads (sandbox_permissions : SandboxPermissions)
    (fs : FileSystemSandboxPolicy) : SandboxPermissions :=
  if requires_escalated_permissions sandbox_permissions && negb (unsandboxed_execution_allowed fs)
  then UseDefault else sandbox_permissions.

Definition managed_network_for_sandbox_permissions {A} (network : option A) (sandbox_permissions : SandboxPermissions) :
    option A := if requires_escalated_permissions sandbox_permissions then None else network.

(** The defaults of the trait [Approvable]. *)
Definition default_should_bypass_approval (policy : AskForApproval) (already_approved : bool) : bool :=
  if already_approved then true else bool_decide (policy = Never).

Definition default_wants_no_sandbox_approval (policy : AskForApproval) : bool :=
  match policy with
  | UnlessTrusted => true
  | Never | OnRequest => false
  | Granular config => sandbox_approval config
  end.

Record SandboxAttempt := mkAttempt {
  attempt_sandbox : SandboxType;
  sandbox_requested : bool;
  attempt_permissions : PermissionProfile;
  exec_server_permissions : PermissionProfile;
  enforce_managed_network : bool;
  codex_linux_sandbox_exe : option str;
  attempt_network : bool  (** whether it has a cancellation token and a proxy of its own *)
}.

Definition with_network (network : bool) (a : SandboxAttempt) : SandboxAttempt :=
  mkAttempt (attempt_sandbox a) (sandbox_requested a) (attempt_permissions a) (exec_server_permissions a)
    (enforce_managed_network a) (codex_linux_sandbox_exe a) network.

(** ** Programs *)

Inductive ApprovalReviewer := Guardian | User.
Inductive ApprovalResolutionSource := SourceHook | SourceGuardian | SourceUser.

(** The calls; the output of a tool is a parameter. *)
Inductive Call (Out : Type) : Type → Type :=
| PermissionHooks (run_id : str) : Call Out (option PermissionRequestDecision)
| GuardianReview (retry_reason : option str) : Call Out ReviewDecision
| AskUser (retry_reason : option str) (ctx : option NetworkApprovalContext) : Call Out ReviewDecision
| LookupApprovals : Call Out bool  (** whether the cache has all keys of the request *)
| StoreApprovals : Call Out unit
| BeginNetworkApproval (managed_network_active : bool) (spec : option NetworkApprovalSpec) :
    Call Out (result (option ActiveNetworkApproval) str)  (** the error is that of the proxy *)
| FinishImmediate (active : ActiveNetworkApproval) : Call Out (result unit str)  (** the error is a rejection *)
| FinishDeferred (deferred : option DeferredNetworkApproval) : Call Out (result unit str)
| RunTool (attempt : SandboxAttempt) : Call Out (result Out ToolError)
| ToolDecision (d : ReviewDecision) (source : ApprovalResolutionSource) : Call Out unit
| SandboxOutcome (outcome : str) (escalated : bool) : Call Out unit.
Arguments PermissionHooks {Out}.
Arguments GuardianReview {Out}.
Arguments AskUser {Out}.
Arguments LookupApprovals {Out}.
Arguments StoreApprovals {Out}.
Arguments BeginNetworkApproval {Out}.
Arguments FinishImmediate {Out}.
Arguments FinishDeferred {Out}.
Arguments RunTool {Out}.
Arguments ToolDecision {Out}.
Arguments SandboxOutcome {Out}.

Inductive Run (Out R : Type) : Type :=
| Done (r : R)
| Do {X : Type} (c : Call Out X) (k : X → Run Out R).
Arguments Done {Out R}.
Arguments Do {Out R X}.

Fixpoint run_bind {Out A B} (p : Run Out A) (f : A → Run Out B) : Run Out B :=
  match p with
  | Done a => f a
  | Do c k => Do c (fun x => run_bind (k x) f)
  end.

Definition call {Out X} (c : Call Out X) : Run Out X := Do c Done.

Declare Scope run_scope.
Delimit Scope run_scope with run.
Notation "x <- p ;; q" := (run_bind p (fun x => q)) (at level 100, p at next level, right associativity) : run_scope.
Notation "p ;; q" := (run_bind p (fun _ => q)) (at level 100, right associativity) : run_scope.

(** The operator [?]. *)
Definition try {Out A B} (p : Run Out (result A ToolError)) (f : A → Run Out (result B ToolError)) :
    Run Out (result B ToolError) :=
  run_bind p (fun r => match r with Ok a => f a | Err e => Done (Err e) end).

#[local] Open Scope run_scope.

Section orchestrator.
Context {Out : Type}.

(** [with_cached_approval]; [fetch] is the prompt. *)
Definition with_cached_approval (no_keys : bool) (fetch : Run Out ReviewDecision) : Run Out ReviewDecision :=
  if no_keys then fetch
  else
    cached <- call LookupApprovals ;;
    if cached : bool then Done ApprovedForSession
    else
      decision <- fetch ;;
      match decision with
      | ApprovedForSession => call StoreApprovals ;; Done decision
      | _ => Done decision
      end.

(** ** Tools *)

(** A tool together with a request: the traits [Approvable], [Sandboxable] and
    [ToolRuntime] at the request. *)
Record ToolRuntime := mkTool {
  tool_workspace_roots : list AbsolutePathBuf;
  tool_requirement : option ExecApprovalRequirement;
  tool_sandbox_permissions : SandboxPermissions;
  tool_sandbox_preference : SandboxablePreference;
  tool_escalate_on_failure : bool;
  tool_should_bypass_approval : AskForApproval → bool → bool;
  tool_wants_no_sandbox_approval : AskForApproval → bool;
  tool_permission_request : bool;  (** whether hooks are to be asked *)
  tool_approval_action : bool;  (** whether the action for the guardian can be built *)
  tool_start_approval : option str → option NetworkApprovalContext → Run Out ReviewDecision;
  tool_network_approval_spec : option NetworkApprovalSpec
}.

(** The runtimes of shell commands: [runtimes/shell.rs] and [runtimes/unified_exec.rs]. *)
Definition shell_tool (roots : list AbsolutePathBuf) (requirement : ExecApprovalRequirement)
    (permissions : SandboxPermissions) (justification : option str) (action_ok : bool)
    (spec : option NetworkApprovalSpec) : ToolRuntime :=
  mkTool roots (Some requirement) permissions Auto true default_should_bypass_approval default_wants_no_sandbox_approval
    true action_ok
    (fun retry_reason ctx =>
       let reason := match retry_reason with Some r => Some r | None => justification end in
       with_cached_approval false (call (AskUser reason ctx)))
    spec.

(** [runtimes/apply_patch.rs]. *)
Definition patch_wants_no_sandbox_approval (policy : AskForApproval) : bool :=
  match policy with
  | Never => false
  | Granular config => sandbox_approval config
  | OnRequest | UnlessTrusted => true
  end.

Definition patch_tool (roots : list AbsolutePathBuf) (requirement : ExecApprovalRequirement) (file_paths : nat)
    (permissions_preapproved : bool) (action_ok : bool) : ToolRuntime :=
  mkTool roots (Some requirement) UseDefault Auto true default_should_bypass_approval patch_wants_no_sandbox_approval
    true action_ok
    (fun retry_reason _ =>
       match retry_reason with
       | None =>
           if permissions_preapproved then Done Approved
           else with_cached_approval (file_paths =? 0) (call (AskUser None None))
       | Some reason => call (AskUser (Some reason) None)
       end)
    None.

(** ** [approvals.rs] *)

Definition into_tool_result (source : ApprovalResolutionSource) (d : ReviewDecision) : result ReviewDecision ToolError :=
  match d with
  | AmendNetworkPolicy amendment =>
      match amended_action amendment with
      | ActionDeny =>
          Err (Rejected (match source with
                         | SourceHook => lit "rejected by configuration"
                         | SourceGuardian => lit "automatic approval review denied the action"
                         | SourceUser => lit "rejected by user"
                         end))
      | ActionAllow => Ok d
      end
  | Denied rejection => Err (Rejected rejection)
  | TimedOut => Err (Rejected guardian_timeout_message)
  | ReviewAborted => Err (Rejected (lit "approval request aborted"))
  | _ => Ok d
  end.

(** Records the resolution and returns it. *)
Definition conclude (source : ApprovalResolutionSource) (d : ReviewDecision) : Run Out (result ReviewDecision ToolError) :=
  call (ToolDecision d source) ;; Done (into_tool_result source d).

Definition review (tool : ToolRuntime) (reviewer : ApprovalReviewer) (retry_reason : option str)
    (ctx : option NetworkApprovalContext) : Run Out (result ReviewDecision ToolError) :=
  match reviewer with
  | Guardian =>
      if tool_approval_action tool
      then (d <- call (GuardianReview retry_reason) ;; conclude SourceGuardian d)
      else conclude SourceGuardian (Denied (lit "automatic approval review could not prepare the action"))
  | User => d <- tool_start_approval tool retry_reason ctx ;; conclude SourceUser d
  end.

Definition resolve_tool_apporval (tool : ToolRuntime) (run_id : str) (reviewer : ApprovalReviewer)
    (retry_reason : option str) (ctx : option NetworkApprovalContext) : Run Out (result ReviewDecision ToolError) :=
  if tool_permission_request tool then
    hook <- call (PermissionHooks run_id) ;;
    match hook with
    | Some HookAllow => conclude SourceHook Approved
    | Some (HookDeny message) => conclude SourceHook (Denied message)
    | None => review tool reviewer retry_reason ctx
    end
  else review tool reviewer retry_reason ctx.

(** ** [orchestrator.rs] *)

Definition is_err {A E} (r : result A E) : bool := match r with Ok _ => false | Err _ => true end.

Definition run_attempt (tool : ToolRuntime) (attempt : SandboxAttempt) (managed_network_active : bool) :
    Run Out (result Out ToolError * option DeferredNetworkApproval) :=
  begun <- call (BeginNetworkApproval managed_network_active (tool_network_approval_spec tool)) ;;
  match begun with
  | Err err => Done (Err (Codex (CodexIo err)), None)
  | Ok network_approval =>
      run_result <- call (RunTool (with_network (bool_decide (is_Some network_approval)) attempt)) ;;
      match network_approval with
      | None => Done (run_result, None)
      | Some active =>
          match approval_mode active with
          | Immediate =>
              finalize_result <- call (FinishImmediate active) ;;
              match finalize_result with Err message => Done (Err (Rejected message), None) | Ok _ => Done (run_result, None) end
          | Deferred =>
              let deferred := into_deferred active in
              if is_err run_result then
                finalize_result <- call (FinishDeferred deferred) ;;
                match finalize_result with Err message => Done (Err (Rejected message), None) | Ok _ => Done (run_result, None) end
              else Done (run_result, deferred)
          end
      end
  end.

Definition sandbox_outcome_from_tool_error (e : ToolError) : option str :=
  match e with
  | Codex (CodexSandbox (SandboxDenied _ _)) => Some (lit "denied")
  | Codex (CodexSandbox (SandboxTimeout _)) => Some (lit "timed_out")
  | Codex (CodexSandbox (SandboxSignal _)) => Some (lit "signal")
  | Rejected _ | Codex _ => None
  end.

Definition build_denial_reason_from_output (output : str) : str := lit "command failed; retry without sandbox?".

(** The turn and the session, as far as they matter here. *)
Record TurnSettings := mkSettings {
  settings_call_id : str;
  settings_permission_profile : PermissionProfile;
  settings_network : bool;  (** whether a managed network is active *)
  settings_linux_sandbox_exe : option str;
  settings_approval_policy : AskForApproval;  (** the policy of the turn *)
  settings_approvals_reviewer : ApprovalsReviewer;
  strict_auto_review : bool;
  settings_os : TargetOs
}.

(** [ApprovalReviewer::for_turn]. *)
Definition reviewer_for_turn (turn : TurnSettings) : ApprovalReviewer :=
  if routes_approval_to_guardian (settings_approval_policy turn) (settings_approvals_reviewer turn)
  then Guardian else User.

Definition reviewer_of (turn : TurnSettings) : ApprovalReviewer :=
  if strict_auto_review turn then Guardian else reviewer_for_turn turn.

Record OrchestratorRunResult := mkRunResult {
  run_output : Out;
  deferred_network_approval : option DeferredNetworkApproval
}.

(** What the run works with: the materialized permissions and what is read off them. *)
Section run.
Context (tool : ToolRuntime) (turn : TurnSettings) (approval_policy : AskForApproval) (permissions : PermissionProfile).

Definition fs_policy : FileSystemSandboxPolicy := fst (to_runtime_permissions permissions).
Definition net_policy : NetworkSandboxPolicy := snd (to_runtime_permissions permissions).

Definition requirement : ExecApprovalRequirement :=
  default (default_exec_approval_requirement approval_policy fs_policy) (tool_requirement tool).

(** Whether the policy calls for a sandbox. *)
Definition policy_wants_sandbox : bool :=
  should_sandbox fs_policy net_policy (tool_sandbox_preference tool) (settings_network turn).

Definition select_sandbox (requested : bool) : SandboxType :=
  if requested
  then select_initial (settings_os turn) fs_policy net_policy (tool_sandbox_preference tool) (settings_network turn)
  else NoSandbox.

(** First the approval; the result says whether the call is already approved. *)
Definition approve : Run Out (result bool ToolError) :=
  match requirement with
  | Skip _ _ =>
      if strict_auto_review turn then
        try (resolve_tool_apporval tool (settings_call_id turn) Guardian None None) (fun _ => Done (Ok true))
      else call (ToolDecision Approved SourceHook) ;; Done (Ok false)
  | RequirementForbidden reason => Done (Err (Rejected reason))
  | NeedsApproval reason _ =>
      try (resolve_tool_apporval tool (settings_call_id turn) (reviewer_of turn) reason None) (fun _ => Done (Ok true))
  end.

Definition first_requested : bool :=
  match sandbox_override_for_first_attempt (tool_sandbox_permissions tool) requirement fs_policy with
  | BypassSandboxFirstAttempt => false
  | NoOverride => policy_wants_sandbox
  end.

Definition initial_attempt : SandboxAttempt :=
  mkAttempt (select_sandbox first_requested) first_requested permissions (settings_permission_profile turn)
    (settings_network turn) (settings_linux_sandbox_exe turn) false.

Definition retry_requested : bool := negb (unsandboxed_execution_allowed fs_policy) && policy_wants_sandbox.

Definition retry_attempt : SandboxAttempt :=
  mkAttempt (select_sandbox retry_requested) retry_requested permissions (settings_permission_profile turn)
    (settings_network turn) (if unsandboxed_execution_allowed fs_policy then None else settings_linux_sandbox_exe turn)
    false.

(** The denial goes to the model as it is. *)
Definition surface_denial (output : str) (decision : option NetworkPolicyDecisionPayload) :
    Run Out (result OrchestratorRunResult ToolError) :=
  call (SandboxOutcome (lit "denied") false) ;;
  Done (Err (Codex (CodexSandbox (SandboxDenied output decision)))).

(** The second attempt. *)
Definition attempt_again : Run Out (result OrchestratorRunResult ToolError) :=
  retried <- run_attempt tool retry_attempt (settings_network turn) ;;
  match retried with
  | (Ok output, deferred) =>
      call (SandboxOutcome (lit "escalated") true) ;; Done (Ok (mkRunResult output deferred))
  | (Err err, _) =>
      match sandbox_outcome_from_tool_error err with
      | Some outcome => call (SandboxOutcome outcome true) ;; Done (Err err)
      | None => Done (Err err)
      end
  end.

(** After a denial by the sandbox. *)
Definition retry (already_approved : bool) (output : str) (decision : option NetworkPolicyDecisionPayload) :
    Run Out (result OrchestratorRunResult ToolError) :=
  let network_ctx := if settings_network turn then decision ≫= network_approval_context_from_payload else None in
  let no_ctx := match network_ctx with None => true | Some _ => false end in
  let unsandboxed_allowed := unsandboxed_execution_allowed fs_policy in
  let allow_on_request_network_prompt :=
    bool_decide (approval_policy = OnRequest) && negb no_ctx &&
    match default_exec_approval_requirement approval_policy fs_policy with NeedsApproval _ _ => true | _ => false end in
  if bool_decide (is_Some decision) && no_ctx then surface_denial output decision
  else if negb (tool_escalate_on_failure tool) then surface_denial output decision
  else if negb (tool_wants_no_sandbox_approval tool approval_policy) && negb allow_on_request_network_prompt
  then surface_denial output decision
  else if negb unsandboxed_allowed && no_ctx then surface_denial output decision
  else
    let retry_reason :=
      match network_ctx with
      | Some ctx => lit "Network access to " ++ quote ++ context_host ctx ++ quote ++ lit " is blocked by policy."
      | None => build_denial_reason_from_output output
      end in
    let bypass_retry_approval :=
      negb (strict_auto_review turn) && tool_should_bypass_approval tool approval_policy already_approved && no_ctx in
    if bypass_retry_approval then attempt_again
    else try (resolve_tool_apporval tool (settings_call_id turn ++ lit ":retry") (reviewer_of turn) (Some retry_reason)
                network_ctx) (fun _ => attempt_again).

Definition run_with_permissions : Run Out (result OrchestratorRunResult ToolError) :=
  try approve (fun already_approved =>
    first <- run_attempt tool initial_attempt (settings_network turn) ;;
    match first with
    | (Ok out, deferred) => Done (Ok (mkRunResult out deferred))
    | (Err (Codex (CodexSandbox (SandboxDenied output decision))), _) => retry already_approved output decision
    | (Err err, _) =>
        match sandbox_outcome_from_tool_error err with
        | Some outcome => call (SandboxOutcome outcome false) ;; Done (Err err)
        | None => Done (Err err)
        end
    end).
End run.

(** [ToolOrchestrator::run]; [None] is the panic of the materialization. *)
Definition run (host : Host) (tool : ToolRuntime) (turn : TurnSettings) (approval_policy : AskForApproval) :
    option (Run Out (result OrchestratorRunResult ToolError)) :=
  permissions ← profile_materialize host (settings_permission_profile turn) (tool_workspace_roots tool);
  Some (run_with_permissions tool turn approval_policy permissions).
End orchestrator.

(** ** [handlers/shell.rs]: a request for more permissions that is turned down at once *)

Definition escalation_rejected (sandbox_permissions : SandboxPermissions) (permissions_preapproved : bool)
    (policy : AskForApproval) : bool :=
  requests_sandbox_override sandbox_permissions && negb permissions_preapproved && negb (bool_decide (policy = OnRequest)).

(** ** Runs *)

Inductive Called (Out : Type) : Type :=
| called {X : Type} (c : Call Out X) (x : X).
Arguments called {Out X}.

(** The calls of a run in order, and its result. *)
Inductive runs {Out R : Type} : Run Out R → list (Called Out) → R → Prop :=
| runs_done r : runs (Done r) [] r
| runs_do X (c : Call Out X) (k : X → Run Out R) x tr r : runs (k x) tr r → runs (Do c k) (called c x :: tr) r.

(** The run up to some point. *)
Inductive starts {Out R : Type} : Run Out R → list (Called Out) → Prop :=
| starts_nil p : starts p []
| starts_do X (c : Call Out X) (k : X → Run Out R) x tr : starts (k x) tr → starts (Do c k) (called c x :: tr).
