(* ===== verification/ToolOrchestratorFacts.v ===== *)
(** * What the orchestrator guarantees

    A tool runs only after the approval that its requirement asks for, at most twice, and
    outside the sandbox that its permissions call for only on a rule, on a request for it,
    or after a denial that was approved; and never while the permissions deny reads. *)

From S2P Require Import Prelude RustStr ShellTree ShellTreeFacts CommandSafety CommandSafetyFacts.
From S2P Require Import SandboxPolicy SandboxPolicyFacts ExecPolicy ExecPolicyParser ExecApproval ExecApprovalFacts.
From S2P Require Import ToolTypes NetworkApproval ToolOrchestrator.

#[local] Arguments lit _ : simpl never.
#[local] Open Scope nat_scope.
#[local] Open Scope run_scope.

Section facts.
Context {Out : Type}.

Abbreviation Trace := (list (Called Out)).

(** ** Approvals in a trace *)

Definition accepted (d : ReviewDecision) : bool := negb (is_err (into_tool_result SourceUser d)).

(** The result of a call that lets the tool go on: of a hook, of a reviewer, or of the
    cache of approvals for the session. *)
Definition approving (c : Called Out) : Prop :=
  match c with
  | called c x =>
      match c in Call _ X return X → Prop with
      | PermissionHooks _ => fun x => x = Some HookAllow
      | GuardianReview _ | AskUser _ _ => fun d => accepted d = true
      | LookupApprovals => fun b => b = true
      | _ => fun _ => False
      end x
  end.

Definition approved (tr : Trace) : Prop := ∃ c, c ∈ tr ∧ approving c.

(** A run of the tool that the sandbox stopped. *)
Definition denied_run (c : Called Out) : Prop :=
  match c with
  | called c x =>
      match c in Call _ X return X → Prop with
      | RunTool _ => fun r => ∃ output decision, r = Err (Codex (CodexSandbox (SandboxDenied output decision)))
      | _ => fun _ => False
      end x
  end.

Definition was_denied (tr : Trace) : Prop := ∃ c, c ∈ tr ∧ denied_run c.

Definition is_run (c : Called Out) : bool := match c with called (RunTool _) _ => true | _ => false end.
Definition run_count (tr : Trace) : nat := length (List.filter is_run tr).

Lemma approved_app tr tr' : approved tr → approved (tr ++ tr').
Proof. intros (c & Hc & Ha). exists c. split; [apply elem_of_app; by left|done]. Qed.

Lemma approved_last tr c : approving c → approved (tr ++ [c]).
Proof. intros Ha. exists c. split; [apply elem_of_app; right; by apply list_elem_of_singleton|done]. Qed.

Lemma was_denied_app tr tr' : was_denied tr → was_denied (tr ++ tr').
Proof. intros (c & Hc & Hd). exists c. split; [apply elem_of_app; by left|done]. Qed.

Lemma was_denied_last tr c : denied_run c → was_denied (tr ++ [c]).
Proof. intros Hd. exists c. split; [apply elem_of_app; right; by apply list_elem_of_singleton|done]. Qed.

Lemma run_count_app tr tr' : run_count (tr ++ tr') = run_count tr + run_count tr'.
Proof. unfold run_count. by rewrite List.filter_app, length_app. Qed.

(** ** Programs *)

(** A condition on each call, given the calls before it. *)
Abbreviation Guard := (Trace → ∀ X, Call Out X → Prop).

(** [wp ok p Q tr]: after [tr], every call of [p] satisfies [ok] and its end [Q]. *)
Fixpoint wp {R} (ok : Guard) (p : Run Out R) (Q : R → Trace → Prop) (tr : Trace) : Prop :=
  match p with
  | Done r => Q r tr
  | Do c k => ok tr _ c ∧ ∀ x, wp ok (k x) Q (tr ++ [called c x])
  end.

Lemma run_wp_bind {A B} ok (p : Run Out A) (f : A → Run Out B) Q tr :
  wp ok p (fun a tr => wp ok (f a) Q tr) tr → wp ok (run_bind p f) Q tr.
Proof.
  revert tr. induction p as [a|X c k IH]; intros tr H; cbn [run_bind wp] in *; [done|].
  destruct H as [Hc Hk]. split; [done|]. intros x. by apply IH.
Qed.

Lemma run_wp_mono {R} (ok ok' : Guard) (p : Run Out R) (Q Q' : R → Trace → Prop) tr :
  (∀ tr X c, ok tr X c → ok' tr X c) → (∀ r tr, Q r tr → Q' r tr) → wp ok p Q tr → wp ok' p Q' tr.
Proof.
  intros Hok HQ. revert tr. induction p as [a|X c k IH]; intros tr H; cbn [wp] in *; [by apply HQ|].
  destruct H as [Hc Hk]. split; [by apply Hok|]. intros x. by apply IH.
Qed.

Lemma run_wp_seq {A B} ok (p : Run Out A) (f : A → Run Out B) P Q tr :
  wp ok p P tr → (∀ a tr', P a tr' → wp ok (f a) Q tr') → wp ok (run_bind p f) Q tr.
Proof. intros Hp Hf. apply run_wp_bind. by apply (run_wp_mono ok ok p P). Qed.

Lemma wp_try {A B} ok (p : Run Out (result A ToolError)) (f : A → Run Out (result B ToolError)) P Q tr :
  wp ok p P tr → (∀ a tr', P (Ok a) tr' → wp ok (f a) Q tr') → (∀ e tr', P (Err e) tr' → Q (Err e) tr') →
  wp ok (try p f) Q tr.
Proof. intros Hp Hf He. eapply run_wp_seq; [exact Hp|]. intros [a|e] tr' Ha; [by apply Hf|by apply He]. Qed.

(** What was established stays. *)
Definition lasting (F : Trace → Prop) : Prop := ∀ tr tr', F tr → F (tr ++ tr').

Lemma wp_frame {R} ok (p : Run Out R) Q (F : Trace → Prop) tr :
  lasting F → F tr → wp ok p Q tr → wp ok p (fun r tr' => Q r tr' ∧ F tr') tr.
Proof.
  intros HF. revert tr. induction p as [a|X c k IH]; intros tr H Hw; cbn [wp] in *; [done|].
  destruct Hw as [Hc Hk]. split; [done|]. intros x. apply IH; [by apply HF|done].
Qed.

(** Calls other than the run of the tool. *)
Definition asking : Guard := fun _ X c => match c with RunTool _ => False | _ => True end.

Lemma no_runs {R} (p : Run Out R) Q tr n :
  run_count tr = n → wp asking p Q tr → wp asking p (fun r tr' => Q r tr' ∧ run_count tr' = n) tr.
Proof.
  revert tr. induction p as [a|X c k IH]; intros tr H Hw; cbn [wp] in *; [done|].
  destruct Hw as [Hc Hk]. split; [done|]. intros x. apply IH; [|done]. rewrite run_count_app.
  destruct c; try done; cbn; lia.
Qed.

(** Every call of a run satisfies the condition that was proved. *)
Definition guarded (ok : Guard) (past : Trace) (e : Called Out) : Prop := match e with called c _ => ok past _ c end.

Lemma wp_starts {R} ok (p : Run Out R) Q past tr e tr' :
  wp ok p Q past → starts p (tr ++ e :: tr') → guarded ok (past ++ tr) e.
Proof.
  intros Hw Hs. remember (tr ++ e :: tr') as l eqn:El. revert past tr Hw El.
  induction Hs as [p|Y d k y l Hs IH]; intros past tr Hw El; [by destruct tr|]. destruct Hw as [Hd Hk].
  destruct tr as [|e' tr]; injection El as He Hl.
  - subst e. by rewrite app_nil_r.
  - subst e'. specialize (IH (past ++ [called d y]) tr (Hk y) Hl). by rewrite <- app_assoc in IH.
Qed.

(** ** Approval *)

(** What a tool promises to the orchestrator: it is let off the second approval only when
    it had one or prompts are off, does not ask out of the sandbox when prompts are off,
    and passes on the approvals that it gets; one whose permissions were granted before may
    count as approved. *)
Class HonestTool (tool : ToolRuntime (Out := Out)) (preapproved : bool) := {
  bypass_approved : ∀ policy already, tool_should_bypass_approval tool policy already = true → already = true ∨ policy = Never;
  never_asks : tool_wants_no_sandbox_approval tool Never = false;
  start_asks : ∀ reason ctx tr,
    wp asking (tool_start_approval tool reason ctx)
      (fun d tr' => accepted d = true → approved tr' ∨ preapproved = true) tr
}.

Lemma cached_approval_asks no_keys fetch (preapproved : bool) tr :
  (∀ tr, wp asking fetch (fun d tr' => accepted d = true → approved tr' ∨ preapproved = true) tr) →
  wp asking (with_cached_approval no_keys fetch) (fun d tr' => accepted d = true → approved tr' ∨ preapproved = true) tr.
Proof.
  intros Hf. unfold with_cached_approval. destruct no_keys; [apply Hf|]. split; [done|]. intros [].
  - intros _. left. by apply approved_last.
  - cbn [call run_bind]. eapply run_wp_seq; [apply Hf|]. intros d tr' Hd. destruct d; try done. split; [done|]. intros [] _.
    destruct (Hd eq_refl) as [Ha|Hp]; [left; by apply approved_app|by right].
Qed.

Lemma ask_user_asks reason ctx (preapproved : bool) tr :
  wp asking (call (AskUser reason ctx) : Run Out _) (fun d tr' => accepted d = true → approved tr' ∨ preapproved = true) tr.
Proof. split; [done|]. intros d Hd. left. by apply approved_last. Qed.

#[export] Instance shell_honest roots requirement permissions justification action_ok spec :
  HonestTool (shell_tool roots requirement permissions justification action_ok spec) false.
Proof.
  split; cbn [shell_tool tool_should_bypass_approval tool_wants_no_sandbox_approval tool_start_approval]; [|done|].
  - intros policy []; unfold default_should_bypass_approval; [by left|]. intros H%bool_decide_eq_true. by right.
  - intros reason ctx tr. apply cached_approval_asks. intros. apply ask_user_asks.
Qed.

#[export] Instance patch_honest roots requirement file_paths preapproved action_ok :
  HonestTool (patch_tool roots requirement file_paths preapproved action_ok) preapproved.
Proof.
  split; cbn [patch_tool tool_should_bypass_approval tool_wants_no_sandbox_approval tool_start_approval]; [|done|].
  - intros policy []; unfold default_should_bypass_approval; [by left|]. intros H%bool_decide_eq_true. by right.
  - intros [reason|] ctx tr; [apply ask_user_asks|]. destruct preapproved; [by right|].
    apply cached_approval_asks. intros. apply ask_user_asks.
Qed.

Lemma accepted_source source d : is_err (into_tool_result source d) = negb (accepted d).
Proof. unfold accepted. destruct d as [| | |a| | |]; try done. unfold into_tool_result. by destruct (amended_action a). Qed.

(** A resolution that is no error comes from an approval. *)
Definition resolved_ok (preapproved : bool) (r : result ReviewDecision ToolError) (tr : Trace) : Prop :=
  is_err r = false → approved tr ∨ preapproved = true.

Lemma run_conclude_spec source d (preapproved : bool) tr :
  (accepted d = true → approved tr ∨ preapproved = true) → wp asking (conclude source d) (resolved_ok preapproved) tr.
Proof.
  intros Hd. split; [done|]. intros []. cbn [run_bind wp]. unfold resolved_ok. rewrite accepted_source. intros Ha%negb_false_iff.
  destruct (Hd Ha); [left; by apply approved_app|by right].
Qed.

Lemma resolve_spec `{HT : HonestTool tool preapproved} run_id reviewer reason ctx tr :
  wp asking (resolve_tool_apporval tool run_id reviewer reason ctx) (resolved_ok preapproved) tr.
Proof.
  assert (Hreview : ∀ tr, wp asking (review tool reviewer reason ctx) (resolved_ok preapproved) tr).
  { intros tr'. unfold review. destruct reviewer.
    - destruct (tool_approval_action tool); [|by apply run_conclude_spec].
      split; [done|]. intros d. apply run_conclude_spec. intros Hd. left. by apply approved_last.
    - eapply run_wp_seq; [apply (start_asks (tool := tool))|]. intros d tr'' Hd. by apply run_conclude_spec. }
  unfold resolve_tool_apporval. destruct (tool_permission_request tool); [|apply Hreview].
  split; [done|]. intros [[|message]|]; [|by apply run_conclude_spec|apply Hreview].
  apply run_conclude_spec. intros _. left. by apply approved_last.
Qed.

(** Programs that only ask do so after any calls. *)
Lemma wp_shift {R} (p : Run Out R) Q past tr :
  wp asking p Q tr → wp asking p (fun r t => ∃ v, t = past ++ v ∧ Q r v) (past ++ tr).
Proof.
  revert tr. induction p as [a|X c k IH]; intros tr H; cbn [wp] in *; [by exists tr|].
  destruct H as [Hc Hk]. split; [done|]. intros x. rewrite <- app_assoc. by apply IH.
Qed.

(** ** The run *)

Section run.
Context (tool : ToolRuntime (Out := Out)) (preapproved : bool) `{HT : !HonestTool tool preapproved}.
Context (turn : TurnSettings) (approval_policy : AskForApproval) (permissions : PermissionProfile).

Abbreviation req := (requirement tool approval_policy permissions).
Abbreviation fs := (fs_policy permissions).
Abbreviation cleared tr := (approved tr ∨ preapproved = true).

(** The tool was stopped and cleared, by an approval after that if reviews are strict. *)
Definition cleared_after_denial (tr : Trace) : Prop :=
  was_denied tr ∧ approval_policy ≠ Never ∧ cleared tr ∧
  (strict_auto_review turn = true → ∃ u v, tr = u ++ v ∧ was_denied u ∧ cleared v).

(** What holds when the tool is run; systems other than macOS and Linux have no sandbox. *)
Definition justified (tr : Trace) (a : SandboxAttempt) : Prop :=
  attempt_permissions a = permissions ∧
  (∀ reason, req ≠ RequirementForbidden reason) ∧
  ((∃ reason proposed, req = NeedsApproval reason proposed) ∨ strict_auto_review turn = true → cleared tr) ∧
  (run_count tr = 0 ∨ (run_count tr = 1 ∧ cleared_after_denial tr)) ∧
  (policy_wants_sandbox tool turn permissions = true → settings_os turn ≠ OtherUnix → attempt_sandbox a = NoSandbox →
   unsandboxed_execution_allowed fs = true ∧
   ((∃ proposed, req = Skip true proposed) ∨
    requires_escalated_permissions (tool_sandbox_permissions tool) = true ∨
    cleared_after_denial tr)).

Definition ok : Guard := fun tr X c => match c with RunTool a => justified tr a | _ => True end.

(** Where the permissions call for a sandbox and the system has one, only an attempt that asks
    for none is without. *)
Lemma no_sandbox_requested requested :
  policy_wants_sandbox tool turn permissions = true → settings_os turn ≠ OtherUnix →
  select_sandbox tool turn permissions requested = NoSandbox → requested = false.
Proof.
  unfold policy_wants_sandbox, select_sandbox, select_initial. intros -> Hos. destruct requested; [|done].
  by destruct (settings_os turn).
Qed.

Lemma asking_ok tr X (c : Call Out X) : asking tr X c → ok tr X c.
Proof. by destruct c. Qed.

Lemma cleared_lasting : lasting (fun tr => cleared tr).
Proof. intros tr tr' [Ha|Hp]; [left; by apply approved_app|by right]. Qed.

Lemma cleared_after_denial_lasting : lasting cleared_after_denial.
Proof.
  intros tr tr' (Hd & Hn & Hc & Hs). split_and!; [by apply was_denied_app|done|by apply cleared_lasting|].
  intros (u & v & -> & Hu & Hv)%Hs. exists u, (v ++ tr'). rewrite app_assoc. split_and!; [done|done|by apply cleared_lasting].
Qed.

Lemma lasting_imp (P : Prop) : lasting (fun tr => P → cleared tr).
Proof. intros tr tr' H HP. by apply cleared_lasting, H. Qed.

(** Asking in between changes nothing. *)
Lemma justified_later tr X (c : Call Out X) x b a :
  asking tr X c → justified tr a → justified (tr ++ [called c x]) (with_network b a).
Proof.
  intros Hc (Hp & Hf & Hn & Hr & Hs). split_and!; [done|done|intros H; by apply cleared_lasting, Hn| |].
  - rewrite run_count_app. assert (run_count [called c x] = 0) as -> by (by destruct c). rewrite Nat.add_0_r.
    destruct Hr as [Hr|[Hr Hd]]; [by left|right]. split; [done|by apply cleared_after_denial_lasting].
  - cbn [with_network attempt_sandbox]. intros Hw Hos Hq. destruct (Hs Hw Hos Hq) as [Hu [Hc'|[Hc'|Hc']]]; split; auto.
    right. right. by apply cleared_after_denial_lasting.
Qed.

(** The first of the two parts. *)
Definition approve_result (r : result bool ToolError) (tr : Trace) : Prop :=
  match r with
  | Ok already =>
      (∀ reason, req ≠ RequirementForbidden reason) ∧ (already = true → cleared tr) ∧
      ((∃ reason proposed, req = NeedsApproval reason proposed) ∨ strict_auto_review turn = true → already = true) ∧
      run_count tr = 0
  | Err _ => True
  end.

Lemma approve_spec : wp asking (approve tool turn approval_policy permissions) approve_result [].
Proof using HT.
  unfold approve. destruct req as [bypass proposed|reason proposed|reason] eqn:E; [| |done].
  - destruct (strict_auto_review turn) eqn:Es.
    + eapply wp_try; [apply no_runs; [done|by apply (resolve_spec (tool := tool))]| |done].
      intros d tr' [Hd Hc]. split_and!; [by rewrite E|intros _; by apply Hd|done|done].
    + split; [done|]. intros []. cbn [run_bind wp approve_result]. rewrite E, Es.
      split_and!; [done|done| |done]. intros [(? & ? & ?)|?]; done.
  - eapply wp_try; [apply no_runs; [done|by apply (resolve_spec (tool := tool))]| |done].
    intros d tr' [Hd Hc]. split_and!; [by rewrite E|intros _; by apply Hd|done|done].
Qed.

(** One attempt: if its result is a denial then the tool ran, and was denied. *)
Definition attempt_result (n : nat) (r : result Out ToolError * option DeferredNetworkApproval) (tr : Trace) : Prop :=
  ∀ output decision, fst r = Err (Codex (CodexSandbox (SandboxDenied output decision))) →
  was_denied tr ∧ run_count tr = S n.

Lemma run_attempt_spec a managed tr :
  justified tr a → wp ok (run_attempt tool a managed) (attempt_result (run_count tr)) tr.
Proof.
  intros Hj. unfold run_attempt. split; [done|]. intros [network|err]; [|done]. cbn [run_bind call].
  set (tr1 := tr ++ [_]). assert (run_count tr1 = run_count tr) as Hc by (unfold tr1; rewrite run_count_app; cbn; lia).
  split; [by apply justified_later|]. intros result.
  assert (Hres : ∀ a' deferred tr2, run_count tr2 = 0 →
    attempt_result (run_count tr) (result, deferred) ((tr1 ++ [called (RunTool a') result]) ++ tr2)).
  { intros a' deferred tr2 H2 output decision Hr. cbn [fst] in Hr. subst result. split.
    - apply was_denied_app, was_denied_last. by exists output, decision.
    - rewrite !run_count_app, Hc, H2. cbn. lia. }
  destruct network as [active|].
  2: { cbn [wp]. rewrite <- (app_nil_r (tr1 ++ _)). by apply Hres. }
  destruct (approval_mode active).
  - split; [done|]. intros [[]|message]; [by apply Hres|done].
  - destruct (is_err result).
    + split; [done|]. intros [[]|message]; [by apply Hres|done].
    + cbn [wp]. rewrite <- (app_nil_r (tr1 ++ _)). by apply Hres.
Qed.

(** The second attempt is justified by the denial of the first and a clearance. *)
Lemma retry_justified tr :
  (∀ reason, req ≠ RequirementForbidden reason) → run_count tr = 1 → cleared_after_denial tr →
  justified tr (retry_attempt tool turn permissions).
Proof.
  intros Hf Hc Hd. split_and!; [done|done|intros _; apply Hd|right; done|].
  cbn [retry_attempt attempt_sandbox]. intros Hw Hos Hr%no_sandbox_requested; [|done..]. unfold retry_requested in Hr.
  rewrite Hw, andb_true_r in Hr.
  apply negb_false_iff in Hr. split; [done|]. by right; right.
Qed.

Lemma attempt_again_spec tr :
  justified tr (retry_attempt tool turn permissions) →
  wp ok (attempt_again tool turn permissions) (fun _ _ => True) tr.
Proof.
  intros Hj. eapply run_wp_seq; [by apply run_attempt_spec|]. intros [[out|err] deferred] tr' _.
  - by split.
  - destruct (sandbox_outcome_from_tool_error err); [by split|done].
Qed.

Lemma retry_spec already output decision tr :
  (∀ reason, req ≠ RequirementForbidden reason) → run_count tr = 1 → was_denied tr → (already = true → cleared tr) →
  wp ok (retry tool turn approval_policy permissions already output decision) (fun _ _ => True) tr.
Proof using HT.
  intros Hf Hc Hd Ha. unfold retry. cbv zeta. set (ctx := if settings_network turn then _ else None).
  set (no_ctx := match ctx with None => true | Some _ => false end).
  set (prompt := bool_decide (approval_policy = OnRequest) && _ && _).
  destruct (_ && no_ctx); [by split|]. destruct (negb (tool_escalate_on_failure tool)); [by split|].
  destruct (negb (tool_wants_no_sandbox_approval tool approval_policy) && negb prompt) eqn:Ew; [by split|].
  destruct (negb (unsandboxed_execution_allowed fs) && no_ctx); [by split|].
  assert (Hnever : approval_policy ≠ Never).
  { intros E. revert Ew. unfold prompt. rewrite E, never_asks, bool_decide_false by done. done. }
  destruct (_ && _ && no_ctx) eqn:Eb.
  - apply attempt_again_spec, retry_justified; [done..|].
    apply andb_true_iff in Eb as [[Es Hb]%andb_true_iff _]. apply negb_true_iff in Es.
    apply bypass_approved in Hb as [Hb|Hb]; [|done]. split_and!; [done|done|by apply Ha|by rewrite Es].
  - eapply (wp_try ok _ _ (fun r t => (∃ v, t = tr ++ v ∧ resolved_ok preapproved r v ∧ run_count v = 0))).
    + eapply (run_wp_mono asking ok); [apply asking_ok|intros r t H; exact H|]. rewrite <- (app_nil_r tr) at 1.
      apply wp_shift, no_runs; [done|]. by apply (resolve_spec (tool := tool)).
    + intros d t (v & -> & Hv & Hcv). apply attempt_again_spec, retry_justified; [done|by rewrite run_count_app, Hc, Hcv|].
      specialize (Hv eq_refl). split_and!; [by apply was_denied_app|done| |].
      * destruct Hv as [(c & Hin & Hap)|Hp]; [left; exists c; split; [apply elem_of_app; by right|done]|by right].
      * intros _. by exists tr, v.
    + done.
Qed.

Lemma first_justified already tr :
  approve_result (Ok already) tr → justified tr (initial_attempt tool turn approval_policy permissions).
Proof.
  intros (Hf & Ha & Hn & Hc). split_and!; [done|done|by intros H%Hn; apply Ha|by left|].
  cbn [initial_attempt attempt_sandbox]. intros Hw Hos Hr%no_sandbox_requested; [|done..]. revert Hr.
  unfold first_requested, sandbox_override_for_first_attempt. destruct (unsandboxed_execution_allowed fs); cbn [negb]; [|by rewrite Hw].
  destruct req as [[] proposed|reason proposed|reason] eqn:E.
  - intros _. split; [done|]. left. by eexists.
  - destruct (requires_escalated_permissions _) eqn:Er; [intros _; split; [done|by right; left]|by rewrite Hw].
  - destruct (requires_escalated_permissions _) eqn:Er; [intros _; split; [done|by right; left]|by rewrite Hw].
  - by destruct (Hf reason).
Qed.

Lemma run_spec : wp ok (run_with_permissions tool turn approval_policy permissions) (fun _ _ => True) [].
Proof using HT.
  eapply wp_try; [eapply (run_wp_mono asking ok); [apply asking_ok|intros r t H; exact H|apply approve_spec]| |done].
  intros already tr Ha. pose proof Ha as (Hf & Hal & Hn & Hc).
  eapply run_wp_seq; [apply wp_frame; [apply (lasting_imp (already = true))|exact Hal|by apply run_attempt_spec, (first_justified already)]|].
  intros [[out|err] deferred] tr' [Hres Hal']; [done|].
  destruct err as [message|[e|message|message]]; try done.
  destruct e as [output decision|output|signal|message]; try done; [|by split..].
  destruct (Hres output decision eq_refl) as [Hd Hc']. apply retry_spec; [done|by rewrite Hc', Hc|done|done].
Qed.
End run.
End facts.

(** The materialization of a profile never panics, so there is always a program. *)
Lemma run_total {Out} host (tool : ToolRuntime (Out := Out)) turn approval_policy :
  is_Some (run host tool turn approval_policy).
Proof.
  unfold run. destruct (settings_permission_profile turn) as [[entries depth|] network| |network];
    cbn [profile_materialize mbind option_bind]; by eexists.
Qed.

(** ** The cache *)

Section store.
Context {K : Type} (to_string : K → option str).

(** A key is found as approved exactly if it was stored as such. *)
Lemma store_get_approvals (keys : list K) store key s :
  to_string key = Some s → store !! s ≠ Some ApprovedForSession →
  store_get to_string key (store_approvals to_string keys store) = Some ApprovedForSession ↔
  ∃ key', key' ∈ keys ∧ to_string key' = Some s.
Proof.
  intros Hs Hn. unfold store_get, store_approvals. rewrite Hs. cbn [mbind option_bind]. revert store Hn.
  induction keys as [|k keys IH]; intros store Hn; cbn [foldl]; [set_solver|]. unfold store_put at 2.
  destruct (to_string k) as [s'|] eqn:Ek; [destruct (decide (s' = s)) as [->|Hne]|].
  - split; [exists k; set_solver|]. intros _.
    assert (∀ l st, st !! s = Some ApprovedForSession →
      foldl (fun st key => store_put to_string key ApprovedForSession st) st l !! s = Some ApprovedForSession) as Hkeep.
    { clear. induction l as [|x l IH]; intros st Hst; cbn [foldl]; [done|]. apply IH. unfold store_put.
      destruct (to_string x) as [sx|]; [|done]. destruct (decide (sx = s)) as [->|]; [by rewrite lookup_insert_eq|by rewrite lookup_insert_ne]. }
    apply Hkeep. by rewrite lookup_insert_eq.
  - rewrite IH by (by rewrite lookup_insert_ne). split; intros (k' & Hin & Hk'); exists k'; [set_solver|].
    apply elem_of_cons in Hin as [->|]; [congruence|done].
  - rewrite IH by done. split; intros (k' & Hin & Hk'); exists k'; [set_solver|].
    apply elem_of_cons in Hin as [->|]; [congruence|done].
Qed.
End store.

(** C7: a tool runs only when it may.  Whenever it is run, its requirement does not forbid it; it
    was approved before, where the requirement asks for that or reviews are strict; it is
    the first run, or the second after the sandbox stopped the first and it was cleared for
    that; and if the permissions call for a sandbox, the system has one (macOS and Linux) and the
    run is nevertheless under none, then they deny no reads, and either the rules let it bypass
    the sandbox, or the request asked for it, or it was cleared after the denial.  On a system
    that has no sandbox every run is under none. *)
Theorem tool_runs_are_justified {Out} host (tool : ToolRuntime (Out := Out)) preapproved `{HT : !HonestTool tool preapproved}
    turn approval_policy program before a result after :
  run host tool turn approval_policy = Some program →
  starts program (before ++ called (RunTool a) result :: after) →
  ∃ permissions, profile_materialize host (settings_permission_profile turn) (tool_workspace_roots tool) = Some permissions ∧
    justified tool preapproved turn approval_policy permissions before a.
Proof.
  unfold run. intros (permissions & Hp & [= <-])%bind_Some Hs. exists permissions. split; [done|].
  exact (wp_starts _ _ _ [] before (called (RunTool a) result) after (run_spec tool preapproved turn approval_policy permissions) Hs).
Qed.

(** ** Together with the policy for commands *)

Section shell.
Context (linux : bool) (try_parse_shell : str → option Node) `{TL : TextLibs} `{HP : HostPaths} `{!BashGrammar try_parse_shell}.

(** C8: no command escapes the sandbox unseen.  When, on a system that has a sandbox, a shell
    command of a restricted file system is run under none although its permissions call for one,
    and nobody approved anything before, then each of the commands in it matches rules of the
    policy and all of these allow it. *)
Theorem no_unapproved_escape {Out} p req r host roots justification action_ok spec turn program before a result after permissions :
  let tool := shell_tool (Out := Out) roots r (req_sandbox_permissions req) justification action_ok spec in
  create_exec_approval_requirement_for_command linux try_parse_shell p req = Some r →
  escalation_rejected (req_sandbox_permissions req) false (req_approval_policy req) = false →
  fs_kind (file_system_sandbox_policy (req_permission_profile req)) = KindRestricted →
  profile_materialize host (settings_permission_profile turn) roots = Some permissions →
  run host tool turn (req_approval_policy req) = Some program →
  starts program (before ++ called (RunTool a) result :: after) →
  policy_wants_sandbox tool turn permissions = true → settings_os turn ≠ OtherUnix → attempt_sandbox a = NoSandbox →
  ¬ approved before →
  ∀ c, c ∈ commands (commands_for_exec_policy try_parse_shell (req_command req)) →
    rule_matches_of p c ≠ [] ∧ ∀ m, m ∈ rule_matches_of p c → match_decision m = Allow.
Proof.
  intros tool Hr Hesc Hkind Hperm Hrun Hs Hwants Hos Hout Hno c Hc.
  unfold run in Hrun. cbn [tool shell_tool tool_workspace_roots] in Hrun. rewrite Hperm in Hrun. injection Hrun as <-.
  pose proof (wp_starts _ _ _ [] before (called (RunTool a) result) after
    (run_spec tool false turn (req_approval_policy req) permissions) Hs) as (_ & Hf & Hneeds & _ & Hsand).
  change ([] ++ before) with before in *. change (requirement tool (req_approval_policy req) permissions) with r in *.
  destruct r as [bypass proposed|reason proposed|reason]; [| |by destruct (Hf reason)].
  2: { destruct Hneeds as [?|?]; [left; by eexists _, _|done|done]. }
  destruct (skip_reasons linux try_parse_shell p req bypass proposed Hr) as [Hwhy Hby].
  destruct (Hwhy c Hc) as [?|(Hun & _ & _ & Hrestricted)]; [done|exfalso].
  destruct (Hsand Hwants Hos Hout) as [_ [[pr [= ->]]|[Hreq|(_ & _ & [?|?] & _)]]]; [|  |done|done].
  - by apply (proj1 Hby eq_refl c Hc).
  - cbn [tool shell_tool tool_sandbox_permissions] in Hreq. unfold escalation_rejected in Hesc.
    assert (requests_sandbox_override (req_sandbox_permissions req) = true) as Hov by (by destruct (req_sandbox_permissions req)).
    rewrite Hov in Hesc. cbn [andb negb] in Hesc. apply negb_false_iff, bool_decide_eq_true in Hesc.
    destruct (Hrestricted Hkind Hov); congruence.
Qed.
End shell.

(** ** Samples *)

Module SampleRun.
Import SampleApproval.
Definition make_all : list str := [lit "make"; lit "all"].
Definition settings (profile : PermissionProfile) : TurnSettings :=
  mkSettings (lit "call-1") profile false None OnRequest ReviewerUser false Linux.
Definition restricted_profile : PermissionProfile := Managed (ManagedRestricted [] None) NetworkRestricted.

(** A rule allows [make]. *)
Definition policy : Policy := allowing [lit "make"].
Definition req : ExecApprovalRequest := request make_all OnRequest.
Definition tool : ToolRuntime (Out := nat) := shell_tool [] (Skip true None) UseDefault None true None.
Definition first : SandboxAttempt := mkAttempt NoSandbox false restricted_profile restricted_profile false None false.
Definition before : list (Called nat) :=
  [called (ToolDecision Approved SourceHook) tt; called (BeginNetworkApproval false None) (Ok None)].

Definition program := run_with_permissions tool (settings restricted_profile) OnRequest restricted_profile.

Lemma tool_starts :
  starts program (before ++ [called (RunTool first) (Ok 0)]).
Proof.
  apply (starts_do unit (ToolDecision Approved SourceHook) _ tt).
  apply (starts_do _ (BeginNetworkApproval false None) _ (Ok None)).
  apply (starts_do _ (RunTool first) _ (Ok 0)). apply starts_nil.
Qed.

Lemma nothing_approved : ¬ approved before.
Proof. intros (c & Hin & Ha). unfold before in Hin. rewrite !elem_of_cons, elem_of_nil in Hin. by destruct Hin as [->|[->|[]]]. Qed.
End SampleRun.

Lemma tool_runs_are_justified_witness :
  attempt_permissions SampleRun.first = SampleRun.restricted_profile.
Proof.
  destruct (tool_runs_are_justified SampleSandbox.host SampleRun.tool false (SampleRun.settings SampleRun.restricted_profile)
    OnRequest _ SampleRun.before SampleRun.first (Ok 0) [] eq_refl SampleRun.tool_starts) as (permissions & Hp & Hj & _).
  rewrite Hj. by injection Hp as <-.
Defined.

Lemma no_unapproved_escape_witness :
  Forall (fun m => match_decision m = Allow)
    (matches_for_command_with_options (H := SampleApproval.paths) SampleRun.policy SampleRun.make_all None match_options).
Proof.
  destruct (@no_unapproved_escape true SampleShell.sample_parse SampleApproval.libs SampleApproval.paths
    SampleShell.parse_grammar nat SampleRun.policy SampleRun.req (Skip true None) SampleSandbox.host [] None true None
    (SampleRun.settings SampleRun.restricted_profile) SampleRun.program SampleRun.before SampleRun.first (Ok 0) []
    SampleRun.restricted_profile) with (c := SampleRun.make_all) as [_ H].
  - vm_compute. reflexivity.
  - reflexivity.
  - reflexivity.
  - reflexivity.
  - reflexivity.
  - exact SampleRun.tool_starts.
  - reflexivity.
  - intros E. discriminate E.
  - reflexivity.
  - exact SampleRun.nothing_approved.
  - vm_compute. set_solver.
  - by apply Forall_forall.
Defined.

(** With an unrestricted file system and a restricted network, a command that asks for
    escalated permissions leaves the sandbox that the network restriction calls for, and
    nobody is asked. *)
Example escalation_escapes_network_sandbox :
  let profile := Managed ManagedUnrestricted NetworkRestricted in
  let req := mkExecRequest [lit "curl"; lit "example.com"] OnRequest profile RequireEscalated None in
  let requirement := create_exec_approval_requirement_for_command (TL := SampleApproval.libs) (HP := SampleApproval.paths)
                       true SampleShell.sample_parse empty_policy req in
  let tool := shell_tool (Out := nat) [] (default (Skip false None) requirement) RequireEscalated None true None in
  match requirement with Some (Skip false _) => True | _ => False end ∧
  escalation_rejected RequireEscalated false OnRequest = false ∧
  policy_wants_sandbox tool (SampleRun.settings profile) profile = true ∧
  sandbox_requested (initial_attempt tool (SampleRun.settings profile) OnRequest profile) = false.
Proof. split_and!; vm_compute; done. Qed.

(** On a system without a sandbox a tool runs under none, though its permissions deny reads and
    its attempt asks for one. *)
Example other_systems_have_no_sandbox :
  let profile := Managed (ManagedRestricted [mkFsEntry (FsPath [lit "secret"]) AccessDeny false] None) NetworkRestricted in
  let turn := mkSettings (lit "call-1") profile false None OnRequest ReviewerUser false OtherUnix in
  let attempt := initial_attempt (shell_tool (Out := nat) [] (Skip false None) UseDefault None true None) turn OnRequest profile in
  unsandboxed_execution_allowed (fs_policy profile) = false ∧ sandbox_requested attempt = true ∧ attempt_sandbox attempt = NoSandbox.
Proof. split_and!; vm_compute; reflexivity. Qed.
