(* ===== verification/History.v ===== *)
(** * The conversation history

    [codex-rs/core/src/context_manager]: [ContextManager] keeps what has been said, cuts
    tool output to a budget when it is recorded, and prepares the history for the model
    ([normalize.rs]): every call needs an output and every output a call.  A rollback drops
    the last turns of the user.  [error_or_panic] panics when debug assertions are on,
    which is [None] here, and logs otherwise. *)

From S2P Require Import Prelude RustStr MachineInt ResponseModel Truncate ContextFragments.
From Stdlib Require Import SpecFloat.
Open Scope N_scope.

Inductive InputModality := ModalityText | ModalityImage | ModalityAudio.
#[export] Instance InputModality_eq_dec : EqDecision InputModality.
Proof. solve_decision. Defined.

(** ** [normalize.rs] *)

Definition IMAGE_CONTENT_OMITTED_PLACEHOLDER : str :=
  lit "image content omitted because you do not support image input".
Definition AUDIO_CONTENT_OMITTED_PLACEHOLDER : str :=
  lit "audio content omitted because you do not support audio input".

(** The identifiers the sets of [ensure_call_outputs_present] and [remove_orphan_outputs] hold. *)
Definition function_output_id (item : ResponseItem) : option str :=
  match item with FunctionCallOutput _ call_id _ _ => Some call_id | _ => None end.
Definition tool_search_output_id (item : ResponseItem) : option str :=
  match item with ToolSearchOutput _ (Some call_id) _ _ _ _ => Some call_id | _ => None end.
Definition custom_tool_output_id (item : ResponseItem) : option str :=
  match item with CustomToolCallOutput _ call_id _ _ _ => Some call_id | _ => None end.
Definition function_call_id (item : ResponseItem) : option str :=
  match item with FunctionCall _ _ _ _ call_id _ => Some call_id | _ => None end.
Definition local_shell_call_id (item : ResponseItem) : option str :=
  match item with LocalShellCall _ (Some call_id) _ _ _ => Some call_id | _ => None end.
Definition tool_search_call_id (item : ResponseItem) : option str :=
  match item with ToolSearchCall _ (Some call_id) _ _ _ _ => Some call_id | _ => None end.
Definition custom_tool_call_id (item : ResponseItem) : option str :=
  match item with CustomToolCall _ _ call_id _ _ _ _ => Some call_id | _ => None end.

Definition ids (f : ResponseItem → option str) (items : list ResponseItem) : gset str :=
  list_to_set (omap f items).

(** [Vec::insert] within bounds. *)
Definition insert_at {A} (idx : nat) (x : A) (l : list A) : list A := take idx l ++ x :: drop idx l.

Section normalize.
Context (debug_assertions : bool) (uuid_v5 : str → str).

Definition error_or_panic : option unit := if debug_assertions then None else Some tt.

Definition synthetic_output_id (prefix : str) (item_id : option str) : option str :=
  match item_id with
  | Some (c :: source_id) => Some (prefix ++ lit "_" ++ uuid_v5 (prefix ++ lit ":" ++ (c :: source_id)))
  | _ => None
  end.

Definition aborted : FunctionCallOutputPayload := mkPayload (BodyText (lit "aborted")) None.

Definition aborted_function_output (id : option str) (call_id : str) : ResponseItem :=
  FunctionCallOutput (synthetic_output_id (lit "fco") id) call_id aborted None.

(** The output an item lacks, given the identifiers of the outputs there are. *)
Definition missing_output (function_output_ids tool_search_output_ids custom_tool_output_ids : gset str)
    (item : ResponseItem) : option (option ResponseItem) :=
  match item with
  | FunctionCall id _ _ _ call_id _ =>
      if decide (call_id ∈ function_output_ids) then Some None
      else Some (Some (aborted_function_output id call_id))
  | ToolSearchCall id (Some call_id) _ _ _ _ =>
      if decide (call_id ∈ tool_search_output_ids) then Some None
      else Some (Some (ToolSearchOutput (synthetic_output_id (lit "tso") id) (Some call_id)
                         (lit "completed") (lit "client") [] None))
  | CustomToolCall id _ call_id _ _ _ _ =>
      if decide (call_id ∈ custom_tool_output_ids) then Some None
      else error_or_panic;;
           Some (Some (CustomToolCallOutput (synthetic_output_id (lit "ctco") id) call_id None aborted None))
  | LocalShellCall id (Some call_id) _ _ _ =>
      if decide (call_id ∈ function_output_ids) then Some None
      else error_or_panic;; Some (Some (aborted_function_output id call_id))
  | _ => Some None
  end.

(** The loop that collects the outputs to insert, with their positions. *)
Fixpoint missing_outputs (missing : ResponseItem → option (option ResponseItem)) (idx : nat)
    (items : list ResponseItem) : option (list (nat * ResponseItem)) :=
  match items with
  | [] => Some []
  | item :: items =>
      output ← missing item;
      rest ← missing_outputs missing (S idx) items;
      Some (match output with Some output => (idx, output) :: rest | None => rest end)
  end.

Definition ensure_call_outputs_present (items : list ResponseItem) : option (list ResponseItem) :=
  missing_outputs_to_insert ←
    missing_outputs (missing_output (ids function_output_id items) (ids tool_search_output_id items)
                       (ids custom_tool_output_id items)) 0 items;
  Some (foldr (fun '(idx, output_item) items => insert_at (S idx) output_item items) items
          missing_outputs_to_insert).

Definition matched (has_match : bool) : option bool :=
  if has_match then Some true else error_or_panic;; Some false.

(** [retain]'s test. *)
Definition retained (function_call_ids tool_search_call_ids local_shell_call_ids custom_tool_call_ids : gset str)
    (item : ResponseItem) : option bool :=
  match item with
  | FunctionCallOutput _ call_id _ _ =>
      matched (bool_decide (call_id ∈ function_call_ids) || bool_decide (call_id ∈ local_shell_call_ids))
  | CustomToolCallOutput _ call_id _ _ _ => matched (bool_decide (call_id ∈ custom_tool_call_ids))
  | ToolSearchOutput _ call_id _ execution _ _ =>
      if seqb execution (lit "server") then Some true
      else match call_id with
           | Some call_id => matched (bool_decide (call_id ∈ tool_search_call_ids))
           | None => Some true
           end
  | _ => Some true
  end.

Fixpoint retain (test : ResponseItem → option bool) (items : list ResponseItem) : option (list ResponseItem) :=
  match items with
  | [] => Some []
  | item :: items =>
      keep ← test item;
      rest ← retain test items;
      Some (if keep : bool then item :: rest else rest)
  end.

Definition remove_orphan_outputs (items : list ResponseItem) : option (list ResponseItem) :=
  retain (retained (ids function_call_id items) (ids tool_search_call_id items)
            (ids local_shell_call_id items) (ids custom_tool_call_id items)) items.
End normalize.

Fixpoint remove_first_matching (predicate : ResponseItem → bool) (items : list ResponseItem) : list ResponseItem :=
  match items with
  | [] => []
  | item :: items => if predicate item then items else item :: remove_first_matching predicate items
  end.

(** [matches!(i, .. if existing == call_id)] *)
Definition has_id (f : ResponseItem → option str) (call_id : str) (item : ResponseItem) : bool :=
  bool_decide (f item = Some call_id).

Definition remove_corresponding_for (item : ResponseItem) (items : list ResponseItem) : list ResponseItem :=
  match item with
  | FunctionCall _ _ _ _ call_id _ => remove_first_matching (has_id function_output_id call_id) items
  | FunctionCallOutput _ call_id _ _ =>
      if existsb (has_id function_call_id call_id) items
      then remove_first_matching (has_id function_call_id call_id) items
      else remove_first_matching (has_id local_shell_call_id call_id) items
  | ToolSearchCall _ (Some call_id) _ _ _ _ => remove_first_matching (has_id tool_search_output_id call_id) items
  | ToolSearchOutput _ (Some call_id) _ _ _ _ => remove_first_matching (has_id tool_search_call_id call_id) items
  | CustomToolCall _ _ call_id _ _ _ _ => remove_first_matching (has_id custom_tool_output_id call_id) items
  | CustomToolCallOutput _ call_id _ _ _ => remove_first_matching (has_id custom_tool_call_id call_id) items
  | LocalShellCall _ (Some call_id) _ _ _ => remove_first_matching (has_id function_output_id call_id) items
  | _ => items
  end.

(** *** Unsupported content *)

Definition strip_image (c : ContentItem) : ContentItem :=
  match c with InputImage _ _ => InputText IMAGE_CONTENT_OMITTED_PLACEHOLDER | _ => c end.
Definition strip_output_image (c : FunctionCallOutputContentItem) : FunctionCallOutputContentItem :=
  match c with OutInputImage _ _ => OutInputText IMAGE_CONTENT_OMITTED_PLACEHOLDER | _ => c end.
Definition strip_audio (c : ContentItem) : ContentItem :=
  match c with InputAudio _ => InputText AUDIO_CONTENT_OMITTED_PLACEHOLDER | _ => c end.
Definition strip_output_audio (c : FunctionCallOutputContentItem) : FunctionCallOutputContentItem :=
  match c with OutInputAudio _ => OutInputText AUDIO_CONTENT_OMITTED_PLACEHOLDER | _ => c end.

(** [content_items_mut] *)
Definition map_content_items (f : FunctionCallOutputContentItem → FunctionCallOutputContentItem)
    (output : FunctionCallOutputPayload) : FunctionCallOutputPayload :=
  match body output with
  | BodyText _ => output
  | BodyContentItems items => mkPayload (BodyContentItems (map f items)) (success output)
  end.

Definition strip_item_images (item : ResponseItem) : ResponseItem :=
  match item with
  | Message id role content phase m => Message id role (map strip_image content) phase m
  | FunctionCallOutput id call_id output m =>
      FunctionCallOutput id call_id (map_content_items strip_output_image output) m
  | CustomToolCallOutput id call_id name output m =>
      CustomToolCallOutput id call_id name (map_content_items strip_output_image output) m
  | ImageGenerationCall id status revised_prompt _ m => ImageGenerationCall id status revised_prompt [] m
  | _ => item
  end.

Definition strip_item_audio (item : ResponseItem) : ResponseItem :=
  match item with
  | Message id role content phase m => Message id role (map strip_audio content) phase m
  | FunctionCallOutput id call_id output m =>
      FunctionCallOutput id call_id (map_content_items strip_output_audio output) m
  | CustomToolCallOutput id call_id name output m =>
      CustomToolCallOutput id call_id name (map_content_items strip_output_audio output) m
  | _ => item
  end.

Definition strip_images_when_unsupported (input_modalities : list InputModality) (items : list ResponseItem) :
    list ResponseItem :=
  if decide (ModalityImage ∈ input_modalities) then items else map strip_item_images items.

Definition strip_audio_when_unsupported (input_modalities : list InputModality) (items : list ResponseItem) :
    list ResponseItem :=
  if decide (ModalityAudio ∈ input_modalities) then items else map strip_item_audio items.

(** ** [protocol.rs]: token usage *)

Record TokenUsageInfo := mkUsageInfo {
  total_token_usage : TokenUsage;
  last_token_usage : TokenUsage;
  model_context_window : option Z
}.

Definition zero_usage : TokenUsage := mkTokenUsage 0 0 0 0 0 0.
Definition total_only (n : Z) : TokenUsage := mkTokenUsage 0 0 0 0 0 n.

Section usage.
Context (overflow_checks : bool).
#[local] Abbreviation add := (i64_add overflow_checks).

Definition usage_add_assign (a b : TokenUsage) : option TokenUsage :=
  i ← add (input_tokens a) (input_tokens b);
  c ← add (cached_input_tokens a) (cached_input_tokens b);
  w ← add (cache_write_input_tokens a) (cache_write_input_tokens b);
  o ← add (output_tokens a) (output_tokens b);
  r ← add (reasoning_output_tokens a) (reasoning_output_tokens b);
  t ← add (total_tokens a) (total_tokens b);
  Some (mkTokenUsage i c w o r t).

Definition append_last_usage (last : TokenUsage) (info : TokenUsageInfo) : option TokenUsageInfo :=
  total ← usage_add_assign (total_token_usage info) last;
  Some (mkUsageInfo total last (model_context_window info)).

Definition new_or_append (info : option TokenUsageInfo) (last : option TokenUsage) (window : option Z) :
    option (option TokenUsageInfo) :=
  match info, last with
  | None, None => Some None
  | _, _ =>
      let info := default (mkUsageInfo zero_usage zero_usage window) info in
      info ← match last with Some last => append_last_usage last info | None => Some info end;
      Some (Some (match window with
                  | Some w => mkUsageInfo (total_token_usage info) (last_token_usage info) (Some w)
                  | None => info
                  end))
  end.

Definition fill_to_context_window (context_window : Z) (info : TokenUsageInfo) : option TokenUsageInfo :=
  d ← i64_sub overflow_checks context_window (total_tokens (total_token_usage info));
  Some (mkUsageInfo (total_only context_window) (total_only (Z.max d 0)) (Some context_window)).

Definition full_context_window (context_window : Z) : option TokenUsageInfo :=
  fill_to_context_window context_window (mkUsageInfo zero_usage zero_usage (Some context_window)).
End usage.

(** ** [history.rs] *)

Definition is_api_message (message : ResponseItem) : bool :=
  match message with
  | Message _ role _ _ _ => negb (seqb role (lit "system"))
  | CompactionTrigger | Other => false
  | _ => true
  end.

Definition is_model_generated_item (item : ResponseItem) : bool :=
  match item with
  | Message _ role _ _ _ => seqb role (lit "assistant")
  | Reasoning _ _ _ _ _ | FunctionCall _ _ _ _ _ _ | ToolSearchCall _ _ _ _ _ _ | WebSearchCall _ _ _ _
  | ImageGenerationCall _ _ _ _ _ | CustomToolCall _ _ _ _ _ _ _ | LocalShellCall _ _ _ _ _
  | Compaction _ _ _ | ContextCompaction _ _ _ => true
  | _ => false
  end.

(** [1.2] in binary64. *)
Definition serialization_budget : spec_float := S754_finite false 5404319552844595 (-52).

(** *** Token estimates *)

Definition RESIZED_IMAGE_BYTES_ESTIMATE : Z := 7373.
Definition ORIGINAL_IMAGE_PATCH_SIZE : Z := 32.
Definition ORIGINAL_IMAGE_MAX_PATCHES : N := 10000.

Definition estimate_reasoning_length (encoded_len : N) : N := sat_sub (sat_mul encoded_len 3 / 4) 650.

(** [div_ceil(16)] *)
Definition estimate_encrypted_function_output_length (encoded_len : N) : N :=
  (sat_mul encoded_len 9 + 15) / 16.

Definition parse_base64_data_url (media_type_prefix url : str) : option str :=
  if starts_with_ignore_case (lit "data:") url then
    '(metadata, payload) ← split_once [44] url;
    let metadata_without_scheme := drop 5 metadata in
    match split_on 59 metadata_without_scheme with
    | [] => None
    | mime_type :: metadata_parts =>
        let has_base64_marker := existsb (fun part => eq_ignore_ascii_case part (lit "base64")) metadata_parts in
        if starts_with_ignore_case media_type_prefix mime_type
        then if has_base64_marker then Some payload else None
        else None
    end
  else None.

Definition parse_base64_image_data_url (url : str) : option str := parse_base64_data_url (lit "image/") url.
Definition parse_base64_audio_data_url (url : str) : option str := parse_base64_data_url (lit "audio/") url.

Definition encrypted_function_output_estimate_adjustment (item : ResponseItem) : Z * Z :=
  match item with
  | FunctionCallOutput _ _ (mkPayload (BodyContentItems items) _) _ =>
      foldl (fun acc item =>
        match item with
        | OutEncryptedContent encrypted_content =>
            (i64_sat_add (fst acc) (i64_of_usize (blen encrypted_content)),
             i64_sat_add (snd acc) (i64_of_usize (estimate_encrypted_function_output_length (blen encrypted_content))))
        | _ => acc
        end) (0, 0)%Z items
  | _ => (0, 0)%Z
  end.

Definition patch_count (width height : Z) : N :=
  let patches n := (i64_sat_add n (i64_sat_sub ORIGINAL_IMAGE_PATCH_SIZE 1) / ORIGINAL_IMAGE_PATCH_SIZE)%Z in
  let count := clamp_i64 (patches width * patches height) in
  N.min (Z.to_N count) ORIGINAL_IMAGE_MAX_PATCHES.

Section history.
Context (debug_assertions : bool) (uuid_v5 : str → str).
(** Third-party decoders: hook prompts in XML, agent messages in JSON, the length of an
    item's JSON, the size of an image given its base64 payload, the length of audio. *)
Context (hook_run_id_of_xml : str → option str) (is_agent_json : str → bool).
Context (serialized_len : ResponseItem → option N) (image_size : str → option (N * N)).
Context (estimate_audio_token_count : str → N).
(** The settings and the world state that are compared between turns are not looked into. *)
Context {TurnContextItem WorldStateSnapshot : Type}.

Record ContextManager := mkContext {
  items : list ResponseItem;
  history_version : N;
  token_info : option TokenUsageInfo;
  reference_context_item : option TurnContextItem;
  world_state_baseline : option WorldStateSnapshot
}.

Definition history_new : option ContextManager :=
  info ← new_or_append debug_assertions None None None;
  Some (mkContext [] 0 info None None).

Definition set_items (l : list ResponseItem) (h : ContextManager) : ContextManager :=
  mkContext l (history_version h) (token_info h) (reference_context_item h) (world_state_baseline h).
Definition set_token_info (info : option TokenUsageInfo) (h : ContextManager) : ContextManager :=
  mkContext (items h) (history_version h) info (reference_context_item h) (world_state_baseline h).
Definition set_reference_context_item (item : option TurnContextItem) (h : ContextManager) : ContextManager :=
  mkContext (items h) (history_version h) (token_info h) item (world_state_baseline h).
Definition set_world_state_baseline (snapshot : option WorldStateSnapshot) (h : ContextManager) : ContextManager :=
  mkContext (items h) (history_version h) (token_info h) (reference_context_item h) snapshot.

Definition set_token_usage_full (context_window : Z) (h : ContextManager) : option ContextManager :=
  info ← match token_info h with
         | Some info => fill_to_context_window debug_assertions context_window info
         | None => full_context_window debug_assertions context_window
         end;
  Some (set_token_info (Some info) h).

Definition update_token_info (usage : TokenUsage) (window : option Z) (h : ContextManager) : option ContextManager :=
  info ← new_or_append debug_assertions (token_info h) (Some usage) window;
  Some (set_token_info info h).

Definition truncate_function_output_payload (output : FunctionCallOutputPayload) (policy : TruncationPolicy) :
    option FunctionCallOutputPayload :=
  b ← match body output with
      | BodyText content => BodyText <$> truncate_text content policy
      | BodyContentItems items =>
          BodyContentItems <$> truncate_function_output_items_with_policy estimate_audio_token_count policy items
      end;
  Some (mkPayload b (success output)).

Definition process_item (item : ResponseItem) (policy : TruncationPolicy) : option ResponseItem :=
  let policy_with_serialization_budget := policy_mul serialization_budget policy in
  match item with
  | FunctionCallOutput id call_id output m =>
      output ← truncate_function_output_payload output policy_with_serialization_budget;
      Some (FunctionCallOutput id call_id output m)
  | CustomToolCallOutput id call_id name output m =>
      output ← truncate_function_output_payload output policy_with_serialization_budget;
      Some (CustomToolCallOutput id call_id name output m)
  | _ => Some item
  end.

Fixpoint record_items (new_items : list ResponseItem) (policy : TruncationPolicy) (h : ContextManager) :
    option ContextManager :=
  match new_items with
  | [] => Some h
  | item :: new_items =>
      if is_api_message item then
        processed ← process_item item policy;
        record_items new_items policy (set_items (items h ++ [processed]) h)
      else record_items new_items policy h
  end.

Definition normalize_history (input_modalities : list InputModality) (h : ContextManager) : option ContextManager :=
  l ← ensure_call_outputs_present debug_assertions uuid_v5 (items h);
  l ← remove_orphan_outputs debug_assertions l;
  let l := strip_images_when_unsupported input_modalities l in
  let l := strip_audio_when_unsupported input_modalities l in
  Some (set_items l h).

Definition for_prompt (input_modalities : list InputModality) (h : ContextManager) : option (list ResponseItem) :=
  items <$> normalize_history input_modalities h.

Definition remove_first_item (h : ContextManager) : ContextManager :=
  match items h with
  | [] => h
  | removed :: rest => set_world_state_baseline None (set_items (remove_corresponding_for removed rest) h)
  end.

Definition replace (l : list ResponseItem) (h : ContextManager) : ContextManager :=
  mkContext l (sat_add (history_version h) 1) (token_info h) (reference_context_item h) None.

(** *** Rollback *)

Definition is_message_content (content : list ContentItem) : bool :=
  match content with
  | [InputText text] | [OutputText text] => is_agent_json text
  | _ => false
  end.

Definition is_user_turn_boundary (item : ResponseItem) : bool :=
  match item with
  | AgentMessage _ _ _ _ _ => true
  | Message _ role content _ _ =>
      seqb role (lit "user") && negb (is_contextual_user_message_content hook_run_id_of_xml content) ||
      seqb role (lit "assistant") && is_message_content content
  | _ => false
  end.

Fixpoint user_message_positions_from (idx : nat) (l : list ResponseItem) : list nat :=
  match l with
  | [] => []
  | item :: l =>
      (if is_user_turn_boundary item then cons idx else id) (user_message_positions_from (S idx) l)
  end.

Definition user_message_positions (l : list ResponseItem) : list nat := user_message_positions_from 0 l.

(** A context update before a turn, and whether text that no update restores is lost with it. *)
Definition pre_turn_context (item : ResponseItem) : option bool :=
  match item with
  | Message _ role content _ _ =>
      if seqb role (lit "developer") && is_contextual_dev_message_content content
      then Some (has_non_contextual_dev_message_content content)
      else if seqb role (lit "user") && is_contextual_user_message_content hook_run_id_of_xml content
      then Some false
      else None
  | _ => None
  end.

(** The [while] loop; the boolean is whether [reference_context_item] is cleared. *)
Fixpoint trim_pre_turn_context_updates (snapshot : list ResponseItem) (first_instruction_turn_idx cut_idx : nat) :
    nat * bool :=
  match cut_idx with
  | O => (O, false)
  | S before =>
      if (cut_idx <=? first_instruction_turn_idx)%nat then (cut_idx, false)
      else match snapshot !! before ≫= pre_turn_context with
           | Some mixed =>
               let '(cut, clear) := trim_pre_turn_context_updates snapshot first_instruction_turn_idx before in
               (cut, mixed || clear)
           | None => (cut_idx, false)
           end
  end.

Definition drop_last_n_user_turns (num_turns : N) (h : ContextManager) : option ContextManager :=
  if num_turns =? 0 then Some h
  else
    let snapshot := items h in
    let user_positions := user_message_positions snapshot in
    match user_positions with
    | [] => Some (replace snapshot h)
    | first_instruction_turn_idx :: _ =>
        cut_idx ← (if vec_len user_positions <=? num_turns then Some first_instruction_turn_idx
                   else user_positions !! (length user_positions - N.to_nat num_turns)%nat);
        let '(cut_idx, clear) := trim_pre_turn_context_updates snapshot first_instruction_turn_idx cut_idx in
        let h := if clear : bool then set_reference_context_item None h else h in
        Some (replace (take cut_idx snapshot) h)
    end.

(** *** Token estimates of items *)

Definition estimate_original_image_bytes (image_url : str) : option Z :=
  payload ← parse_base64_image_data_url image_url;
  '(width, height) ← image_size payload;
  Some (i64_of_usize (approx_bytes_for_tokens (patch_count (Z.of_N width) (Z.of_N height)))).

Definition is_original (detail : option Json) : bool :=
  match detail with Some (JString d) => seqb d (lit "original") | _ => false end.

(** [accumulate] *)
Definition accumulate_image (acc : Z * Z) (image : str * option Json) : Z * Z :=
  let '(image_url, detail) := image in
  match parse_base64_image_data_url image_url with
  | Some payload =>
      (i64_sat_add (fst acc) (i64_of_usize (blen payload)),
       i64_sat_add (snd acc)
         (if is_original detail
          then default RESIZED_IMAGE_BYTES_ESTIMATE (estimate_original_image_bytes image_url)
          else RESIZED_IMAGE_BYTES_ESTIMATE))
  | None => acc
  end.

Definition accumulate_audio (acc : Z * Z) (audio_url : str) : Z * Z :=
  match parse_base64_audio_data_url audio_url with
  | Some payload =>
      (i64_sat_add (fst acc) (i64_of_usize (blen payload)),
       i64_sat_add (snd acc) (i64_of_usize (approx_bytes_for_tokens (estimate_audio_token_count audio_url))))
  | None => acc
  end.

Definition image_urls (item : ResponseItem) : list (str * option Json) :=
  match item with
  | Message _ _ content _ _ =>
      omap (fun c => match c with InputImage url detail => Some (url, detail) | _ => None end) content
  | FunctionCallOutput _ _ (mkPayload (BodyContentItems items) _) _
  | CustomToolCallOutput _ _ _ (mkPayload (BodyContentItems items) _) _ =>
      omap (fun c => match c with OutInputImage url detail => Some (url, detail) | _ => None end) items
  | _ => []
  end.

Definition audio_urls (item : ResponseItem) : list str :=
  match item with
  | Message _ _ content _ _ => omap (fun c => match c with InputAudio url => Some url | _ => None end) content
  | FunctionCallOutput _ _ (mkPayload (BodyContentItems items) _) _
  | CustomToolCallOutput _ _ _ (mkPayload (BodyContentItems items) _) _ =>
      omap (fun c => match c with OutInputAudio url => Some url | _ => None end) items
  | _ => []
  end.

Definition image_data_url_estimate_adjustment (item : ResponseItem) : Z * Z :=
  foldl accumulate_image (0, 0)%Z (image_urls item).
Definition audio_data_url_estimate_adjustment (item : ResponseItem) : Z * Z :=
  foldl accumulate_audio (0, 0)%Z (audio_urls item).

Definition estimate_response_item_model_visible_bytes (item : ResponseItem) : Z :=
  match item with
  | Reasoning _ _ _ (Some content) _ | Compaction _ content _ | ContextCompaction _ (Some content) _ =>
      i64_of_usize (estimate_reasoning_length (blen content))
  | item =>
      let raw := match serialized_len item with Some n => i64_of_usize n | None => 0%Z end in
      let '(image_payload, image_replacement) := image_data_url_estimate_adjustment item in
      let '(audio_payload, audio_replacement) := audio_data_url_estimate_adjustment item in
      let '(encrypted_payload, encrypted_replacement) := encrypted_function_output_estimate_adjustment item in
      let raw := i64_sat_add (i64_sat_sub (i64_sat_add (i64_sat_sub raw image_payload) image_replacement)
                                audio_payload) audio_replacement in
      i64_sat_add (i64_sat_sub raw encrypted_payload) encrypted_replacement
  end.

Definition estimate_item_token_count (item : ResponseItem) : Z :=
  approx_tokens_from_byte_count_i64 (estimate_response_item_model_visible_bytes item).

(** [.map(estimate_item_token_count).fold(0i64, i64::saturating_add)] *)
Definition estimate_items (l : list ResponseItem) : Z :=
  foldl i64_sat_add 0%Z (map estimate_item_token_count l).

Definition estimate_token_count_with_base_instructions (base_instructions : str) (h : ContextManager) : Z :=
  i64_sat_add (i64_of_usize (approx_token_count base_instructions)) (estimate_items (items h)).

Definition get_non_last_reasoning_items_tokens (h : ContextManager) : Z :=
  match rposition is_user_turn_boundary (items h) with
  | None => 0%Z
  | Some last_user_index =>
      estimate_items (List.filter (fun item => match item with Reasoning _ _ _ (Some _) _ => true | _ => false end)
                        (take last_user_index (items h)))
  end.

Definition items_after_last_model_generated_item (h : ContextManager) : list ResponseItem :=
  drop (match rposition is_model_generated_item (items h) with
        | Some index => S index
        | None => length (items h)
        end) (items h).

Definition get_total_token_usage (server_reasoning_included : bool) (h : ContextManager) : Z :=
  let last_tokens := match token_info h with Some info => total_tokens (last_token_usage info) | None => 0%Z end in
  let after := estimate_items (items_after_last_model_generated_item h) in
  if server_reasoning_included then i64_sat_add last_tokens after
  else i64_sat_add (i64_sat_add last_tokens (get_non_last_reasoning_items_tokens h)) after.
End history.
Arguments ContextManager _ _ : clear implicits.
