(* ===== verification/HistoryFacts.v ===== *)
(** * What the history promises

    The prompt made from a history pairs every call with an output, whatever the history
    holds, and changes no more than that takes; removing the oldest item keeps the pairs. *)

From S2P Require Import Prelude RustStr MachineInt ResponseModel Truncate TruncateFacts ContextFragments History.
#[local] Arguments lit : simpl never.
Open Scope nat_scope.

(** ** Calls and outputs *)

(** A shell call is answered by the output of a function call. *)
Inductive CallKind := FunctionKind | ToolSearchKind | CustomKind.
#[export] Instance CallKind_eq_dec : EqDecision CallKind.
Proof. solve_decision. Defined.

Definition call_key (item : ResponseItem) : option (CallKind * str) :=
  match item with
  | FunctionCall _ _ _ _ call_id _ | LocalShellCall _ (Some call_id) _ _ _ => Some (FunctionKind, call_id)
  | ToolSearchCall _ (Some call_id) _ _ _ _ => Some (ToolSearchKind, call_id)
  | CustomToolCall _ _ call_id _ _ _ _ => Some (CustomKind, call_id)
  | _ => None
  end.

Definition output_key (item : ResponseItem) : option (CallKind * str) :=
  match item with
  | FunctionCallOutput _ call_id _ _ => Some (FunctionKind, call_id)
  | ToolSearchOutput _ (Some call_id) _ _ _ _ => Some (ToolSearchKind, call_id)
  | CustomToolCallOutput _ call_id _ _ _ => Some (CustomKind, call_id)
  | _ => None
  end.

(** Searches that the server made need no call. *)
Definition from_server (item : ResponseItem) : bool :=
  match item with ToolSearchOutput _ _ _ execution _ _ => seqb execution (lit "server") | _ => false end.

Definition answered (l : list ResponseItem) : Prop :=
  ∀ item k, item ∈ l → call_key item = Some k → k ∈ omap output_key l.
Definition called (l : list ResponseItem) : Prop :=
  ∀ item k, item ∈ l → output_key item = Some k → from_server item = false → k ∈ omap call_key l.
Definition paired (l : list ResponseItem) : Prop := answered l ∧ called l.

Lemma elem_ids f l c : c ∈ ids f l ↔ ∃ item, item ∈ l ∧ f item = Some c.
Proof. unfold ids. rewrite elem_of_list_to_set, list_elem_of_omap. done. Qed.

(** The sets of identifiers in terms of keys. *)
Lemma key_ids l k c :
  (k, c) ∈ omap output_key l ↔
    match k with
    | FunctionKind => c ∈ ids function_output_id l
    | ToolSearchKind => c ∈ ids tool_search_output_id l
    | CustomKind => c ∈ ids custom_tool_output_id l
    end.
Proof.
  rewrite list_elem_of_omap. destruct k; rewrite elem_ids; apply exist_proper; intros item;
    destruct item as [| | | | | | | | | |? [?|] ? ? ? ?| | | | | |]; cbn; naive_solver.
Qed.

Lemma call_ids l k c :
  (k, c) ∈ omap call_key l ↔
    match k with
    | FunctionKind => c ∈ ids function_call_id l ∨ c ∈ ids local_shell_call_id l
    | ToolSearchKind => c ∈ ids tool_search_call_id l
    | CustomKind => c ∈ ids custom_tool_call_id l
    end.
Proof.
  rewrite list_elem_of_omap. destruct k; rewrite !elem_ids; split.
  all: try (intros (item & Hi & H); destruct item as [| | | |? [?|] ? ? ?| |? [?|] ? ? ? ?| | | | | | | | | |]; cbn in *; naive_solver).
  intros [(item & Hi & H)|(item & Hi & H)];
    destruct item as [| | | |? [?|] ? ? ?| |? [?|] ? ? ? ?| | | | | | | | | |]; cbn in *; naive_solver.
Qed.

Section normal.
Context (debug : bool) (uuid : str → str).
#[local] Abbreviation missing := (fun dbg l => missing_output dbg uuid (ids function_output_id l)
  (ids tool_search_output_id l) (ids custom_tool_output_id l)) (only parsing).
#[local] Abbreviation keep := (fun dbg l => retained dbg (ids function_call_id l) (ids tool_search_call_id l)
  (ids local_shell_call_id l) (ids custom_tool_call_id l)) (only parsing).

(** The output that answers a call. *)
Definition synthetic (item : ResponseItem) : option ResponseItem :=
  match item with
  | FunctionCall id _ _ _ call_id _ | LocalShellCall id (Some call_id) _ _ _ =>
      Some (aborted_function_output uuid id call_id)
  | ToolSearchCall id (Some call_id) _ _ _ _ =>
      Some (ToolSearchOutput (synthetic_output_id uuid (lit "tso") id) (Some call_id) (lit "completed") (lit "client") [] None)
  | CustomToolCall id _ call_id _ _ _ _ =>
      Some (CustomToolCallOutput (synthetic_output_id uuid (lit "ctco") id) call_id None aborted None)
  | _ => None
  end.

Definition absent (l : list ResponseItem) (item : ResponseItem) : option ResponseItem :=
  match call_key item with
  | Some k => if decide (k ∈ omap output_key l) then None else synthetic item
  | None => None
  end.

(** An output without a call. *)
Definition orphan (l : list ResponseItem) (item : ResponseItem) : bool :=
  match output_key item with
  | Some k => negb (from_server item) && negb (bool_decide (k ∈ omap call_key l))
  | None => false
  end.

Lemma missing_release l item : missing false l item = Some (absent l item).
Proof.
  unfold absent. destruct item as [| | | |id [c|] ? ? ?|id n ns a c m|id [c|] ? ? ? ?| |id st c n ns i m| | | | | | | |]; try done;
    cbn [call_key missing_output synthetic].
  all: repeat case_decide; try done; rewrite key_ids in *; done.
Qed.

Lemma missing_debug l item o : missing debug l item = Some o → o = absent l item.
Proof.
  pose proof (missing_release l item) as H. destruct debug; [|congruence]. revert H.
  destruct item as [| | | |id [c|] ? ? ?|id n ns a c m|id [c|] ? ? ? ?| |id st c n ns i m| | | | | | | |]; cbn; try congruence;
    case_decide; congruence.
Qed.

Lemma keep_release l item : keep false l item = Some (negb (orphan l item)).
Proof.
  unfold orphan. destruct item as [| | | | | | |id c out m| |id c n out m|id [c|] st ex ts m| | | | | |]; try done;
    cbn [output_key retained from_server andb negb].
  - rewrite negb_involutive. unfold matched, error_or_panic.
    rewrite (bool_decide_ext _ _ (call_ids l FunctionKind c)), bool_decide_or.
    by destruct (bool_decide (c ∈ ids function_call_id l) || _).
  - rewrite negb_involutive. unfold matched, error_or_panic.
    rewrite (bool_decide_ext _ _ (call_ids l CustomKind c)). by destruct (bool_decide (c ∈ _)).
  - destruct (seqb ex (lit "server")); [done|]. cbn [negb andb]. rewrite negb_involutive. unfold matched, error_or_panic.
    rewrite (bool_decide_ext _ _ (call_ids l ToolSearchKind c)). by destruct (bool_decide (c ∈ _)).
  - by destruct (seqb ex (lit "server")).
Qed.

Lemma keep_debug l item b : keep debug l item = Some b → b = negb (orphan l item).
Proof.
  pose proof (keep_release l item) as H. destruct debug; [|congruence]. revert H.
  destruct item as [| | | | | | |id c out m| |id c n out m|id [c|] st ex ts m| | | | | |]; cbn; try congruence;
    unfold matched, error_or_panic; repeat case_match; try congruence; cbn in *; congruence.
Qed.

(** *** Inserting what is missing *)

Definition with_absent (l items : list ResponseItem) : list ResponseItem :=
  concat (map (fun item => item :: option_list (absent l item)) items).

(** Inserting from the last position to the first leaves the earlier positions valid. *)
Lemma insert_missing (f : ResponseItem → option ResponseItem) pre items ms :
  missing_outputs (fun item => Some (f item)) (length pre) items = Some ms →
  foldr (fun '(idx, o) l => insert_at (S idx) o l) (pre ++ items) ms =
    pre ++ concat (map (fun item => item :: option_list (f item)) items).
Proof.
  revert pre ms. induction items as [|x items IH]; intros pre ms; cbn [missing_outputs map concat].
  - by intros [= <-].
  - cbn [mbind option_bind]. intros (rest & Hr & [= <-])%bind_Some.
    specialize (IH (pre ++ [x]) rest). rewrite length_app, Nat.add_1_r, <- !app_assoc in IH. specialize (IH Hr).
    cbn [app] in IH. destruct (f x) as [o|]; cbn [foldr option_list]; rewrite IH; [|done].
    unfold insert_at. change (pre ++ x :: ?r) with (pre ++ ([x] ++ r)). rewrite app_assoc.
    rewrite take_app_length', drop_app_length' by (rewrite length_app, Nat.add_1_r; done).
    by rewrite <- app_assoc.
Qed.

Lemma missing_outputs_total (f : ResponseItem → option ResponseItem) idx items :
  is_Some (missing_outputs (fun item => Some (f item)) idx items).
Proof.
  revert idx. induction items as [|x items IH]; intros idx; cbn; [done|].
  destruct (IH (S idx)) as [ms ->]. by eexists.
Qed.

Lemma missing_outputs_ext (m : ResponseItem → option (option ResponseItem)) f idx items ms :
  (∀ item o, m item = Some o → o = f item) →
  missing_outputs m idx items = Some ms → missing_outputs (fun item => Some (f item)) idx items = Some ms.
Proof.
  intros Hm. revert idx ms. induction items as [|x items IH]; intros idx ms; cbn; [done|].
  intros (o & Ho & (rest & Hr & Hs)%bind_Some)%bind_Some. apply Hm in Ho as ->. by rewrite (IH _ _ Hr).
Qed.

Lemma ensure_spec l l' : ensure_call_outputs_present debug uuid l = Some l' → l' = with_absent l l.
Proof.
  intros (ms & Hms & [= <-])%bind_Some. eapply missing_outputs_ext in Hms; [|intros item o; apply missing_debug].
  exact (insert_missing _ [] l ms Hms).
Qed.

Lemma missing_outputs_eq (m : ResponseItem → option (option ResponseItem)) f idx items :
  (∀ item, m item = Some (f item)) →
  missing_outputs m idx items = missing_outputs (fun item => Some (f item)) idx items.
Proof. intros Hm. revert idx. induction items as [|x items IH]; intros idx; cbn; [done|]. by rewrite Hm, IH. Qed.

Lemma ensure_release l : ensure_call_outputs_present false uuid l = Some (with_absent l l).
Proof.
  unfold ensure_call_outputs_present. rewrite (missing_outputs_eq _ (absent l)) by (intros; apply missing_release).
  destruct (missing_outputs_total (absent l) 0 l) as [ms Hms]. rewrite Hms. cbn [mbind option_bind]. f_equal.
  exact (insert_missing _ [] l ms Hms).
Qed.

(** *** Removing orphans *)

Lemma retain_spec (t : ResponseItem → option bool) f l l' :
  (∀ item b, t item = Some b → b = f item) → retain t l = Some l' → l' = List.filter f l.
Proof.
  intros Ht. revert l'. induction l as [|x l IH]; intros l'; cbn; [by intros [= <-]|].
  intros (b & Hb & (rest & Hr & [= <-])%bind_Some)%bind_Some. apply Ht in Hb as ->. by rewrite (IH _ Hr).
Qed.

Lemma retain_total (t : ResponseItem → option bool) f l :
  (∀ item, t item = Some (f item)) → retain t l = Some (List.filter f l).
Proof. intros Ht. induction l as [|x l IH]; cbn; [done|]. rewrite Ht, IH. cbn. by destruct (f x). Qed.

Lemma orphans_spec l l' : remove_orphan_outputs debug l = Some l' → l' = List.filter (fun i => negb (orphan l i)) l.
Proof. apply retain_spec. intros item b. apply keep_debug. Qed.

Lemma orphans_release l : remove_orphan_outputs false l = Some (List.filter (fun i => negb (orphan l i)) l).
Proof. apply retain_total. intros item. apply keep_release. Qed.

(** *** Both *)

(** One pass over the history: an orphan goes, a call that lacks its output gets it. *)
Definition repaired (l : list ResponseItem) : list ResponseItem :=
  concat (map (fun item => if orphan l item then [] else item :: option_list (absent l item)) l).

Lemma absent_key l item o : absent l item = Some o → output_key o = call_key item ∧ call_key o = None ∧ from_server o = false.
Proof.
  unfold absent. destruct item as [| | | |id [c|] ? ? ?|id n ns a c m|id [c|] ? ? ? ?| |id st c n ns i m| | | | | | | |]; try done;
    cbn [call_key synthetic]; case_decide; intros [= <-]; done.
Qed.

(** An item is not both a call and an output. *)
Lemma call_not_output item k : call_key item = Some k → output_key item = None.
Proof. by destruct item as [| | | |? [?|] ? ? ?| |? [?|] ? ? ? ?| | | |? [?|] ? ? ? ?| | | | | |]. Qed.

Lemma omap_concat {A B} (f : A → option B) (ls : list (list A)) : omap f (concat ls) = concat (map (omap f) ls).
Proof. induction ls as [|l ls IH]; cbn; [done|]. by rewrite omap_app, IH. Qed.

Lemma with_absent_calls l items : omap call_key (with_absent l items) = omap call_key items.
Proof.
  unfold with_absent. induction items as [|x items IH]; [done|]. cbn [map concat]. rewrite omap_app, IH.
  cbn. destruct (absent l x) as [o|] eqn:Ea; cbn.
  - apply absent_key in Ea as (_ & -> & _). by destruct (call_key x).
  - by destruct (call_key x).
Qed.

Lemma orphan_ext l l' item : omap call_key l = omap call_key l' → orphan l item = orphan l' item.
Proof. unfold orphan. by intros ->. Qed.

Lemma absent_no_orphan l item o : item ∈ l → absent l item = Some o → orphan l o = false.
Proof.
  intros Hi (Ho & _ & Hs)%absent_key. unfold orphan. rewrite Ho, Hs. destruct (call_key item) as [k|] eqn:Hk; [|done].
  rewrite bool_decide_true; [done|]. apply list_elem_of_omap. by exists item.
Qed.

Lemma filter_with_absent l k :
  (∀ x, x ∈ k → x ∈ l) →
  List.filter (fun i => negb (orphan l i)) (with_absent l k) =
    concat (map (fun item => if orphan l item then [] else item :: option_list (absent l item)) k).
Proof.
  unfold with_absent. induction k as [|x k IH]; intros Hk; [done|].
  cbn [map concat]. rewrite List.filter_app, IH by (intros y Hy; apply Hk; by right).
  f_equal. cbn [List.filter]. destruct (absent l x) as [o|] eqn:Ea; cbn.
  - rewrite (absent_no_orphan l x o) by (done || (apply Hk; left)). cbn [negb].
    destruct (orphan l x) eqn:Eo; [|done].
    exfalso. unfold orphan in Eo. unfold absent in Ea. destruct (call_key x) as [k'|] eqn:Hc; [|done].
    by rewrite (call_not_output _ _ Hc) in Eo.
  - by destruct (orphan l x).
Qed.

Lemma repaired_spec l :
  List.filter (fun i => negb (orphan (with_absent l l) i)) (with_absent l l) = repaired l.
Proof.
  erewrite List.filter_ext; [|intros i; rewrite (orphan_ext _ l) by apply with_absent_calls; reflexivity].
  by apply filter_with_absent.
Qed.

(** What is repaired is paired. *)
Lemma elem_repaired l x :
  x ∈ repaired l ↔ ∃ item, item ∈ l ∧ orphan l item = false ∧ (x = item ∨ absent l item = Some x).
Proof.
  unfold repaired. rewrite list_elem_of_In, in_concat. setoid_rewrite in_map_iff. split.
  - intros (y & (item & <- & Hi) & Hx). exists item. apply list_elem_of_In in Hi. destruct (orphan l item); [done|].
    destruct Hx as [<-|Hx]; [by auto|]. destruct (absent l item); cbn in Hx; naive_solver.
  - intros (item & Hi & Ho & Hx). eexists. split; [exists item; split; [reflexivity|by apply list_elem_of_In]|].
    rewrite Ho. destruct Hx as [->|Hx]; [by left|]. right. rewrite Hx. by left.
Qed.

Lemma repaired_key f l item k : item ∈ repaired l → f item = Some k → k ∈ omap (f : _ → option (CallKind * str)) (repaired l).
Proof. intros Hi Hf. apply list_elem_of_omap. by exists item. Qed.

(** Calls are no orphans, and neither is an output whose call is there. *)
Lemma call_no_orphan l item k : call_key item = Some k → orphan l item = false.
Proof. intros Hk%call_not_output. unfold orphan. by rewrite Hk. Qed.

Lemma repaired_calls l k : k ∈ omap call_key l → k ∈ omap call_key (repaired l).
Proof.
  intros (item & Hi & Hk)%list_elem_of_omap. eapply repaired_key; [|exact Hk].
  apply elem_repaired. exists item. split; [done|]. split; [by eapply call_no_orphan|by left].
Qed.

Lemma absent_None l item k : call_key item = Some k → absent l item = None → k ∈ omap output_key l.
Proof.
  unfold absent. intros Hk. rewrite Hk. case_decide; [done|].
  by destruct item as [| | | |? [?|] ? ? ?| |? [?|] ? ? ? ?| | | |? [?|] ? ? ? ?| | | | | |].
Qed.

Lemma repaired_paired l : paired (repaired l).
Proof.
  split.
  - intros x k (item & Hi & Ho & Hx)%elem_repaired Hk.
    destruct Hx as [->|(_ & Hn & _)%absent_key]; [|congruence].
    destruct (absent l item) as [o|] eqn:Ea.
    + apply (repaired_key output_key l o); [apply elem_repaired; exists item; auto|].
      apply absent_key in Ea as (-> & _ & _). done.
    + apply absent_None with (k := k) in Ea; [|done]. apply list_elem_of_omap in Ea as (y & Hy & Hky).
      apply (repaired_key output_key l y); [|done]. apply elem_repaired. exists y. split; [done|]. split; [|by left].
      unfold orphan. rewrite Hky, bool_decide_true; [apply andb_false_r|]. apply list_elem_of_omap. by exists item.
  - intros x k (item & Hi & Ho & Hx)%elem_repaired Hk Hs. apply repaired_calls. destruct Hx as [->|Ha].
    + unfold orphan in Ho. rewrite Hk, Hs in Ho. cbn in Ho. apply negb_false_iff, bool_decide_eq_true in Ho. done.
    + apply absent_key in Ha as (Ha & _ & _). apply list_elem_of_omap. exists item. split; [done|congruence].
Qed.

(** *** What is paired stays as it is *)

Lemma answered_missing l item : answered l → item ∈ l → missing debug l item = Some None.
Proof.
  intros Ha Hi. specialize (Ha item).
  destruct item as [| | | |id [c|] ? ? ?|id n ns a c m|id [c|] ? ? ? ?| |id st c n ns i m| | | | | | | |]; try done;
    cbn [call_key missing_output] in *; specialize (Ha _ Hi eq_refl); rewrite key_ids in Ha; by rewrite decide_True.
Qed.

Lemma answered_ensure l : answered l → ensure_call_outputs_present debug uuid l = Some l.
Proof.
  intros Ha. unfold ensure_call_outputs_present.
  assert (Hm : ∀ idx k, (∀ x, x ∈ k → x ∈ l) → missing_outputs (missing debug l) idx k = Some []).
  { intros idx k. revert idx. induction k as [|x k IH]; intros idx Hk; cbn [missing_outputs]; [done|].
    rewrite answered_missing by (done || (apply Hk; left)). cbn. by rewrite IH by (intros y Hy; apply Hk; by right). }
  by rewrite Hm.
Qed.

Lemma called_keep l item : called l → item ∈ l → keep debug l item = Some true.
Proof.
  intros Hc Hi. specialize (Hc item).
  destruct item as [| | | | | | |id c out m| |id c n out m|id [c|] st ex ts m| | | | | |]; try done;
    cbn [output_key retained from_server] in *.
  - specialize (Hc _ Hi eq_refl eq_refl). rewrite call_ids in Hc.
    destruct Hc as [Hc|Hc]; [by rewrite (bool_decide_true (c ∈ ids function_call_id l))|].
    by rewrite (bool_decide_true (c ∈ ids local_shell_call_id l)), orb_true_r.
  - specialize (Hc _ Hi eq_refl eq_refl). rewrite call_ids in Hc. by rewrite bool_decide_true.
  - destruct (seqb ex (lit "server")); [done|]. specialize (Hc _ Hi eq_refl eq_refl). rewrite call_ids in Hc.
    by rewrite bool_decide_true.
  - by destruct (seqb ex (lit "server")).
Qed.

Lemma called_orphans l : called l → remove_orphan_outputs debug l = Some l.
Proof.
  intros Hc. unfold remove_orphan_outputs.
  assert (Hm : ∀ k, (∀ x, x ∈ k → x ∈ l) → retain (keep debug l) k = Some k).
  { induction k as [|x k IH]; intros Hk; cbn [retain]; [done|].
    rewrite called_keep by (done || (apply Hk; left)). cbn. by rewrite IH by (intros y Hy; apply Hk; by right). }
  by apply Hm.
Qed.
End normal.

(** *** The prompt *)

Section prompt.
Context (debug : bool) (uuid : str → str) {TC WS : Type}.
Implicit Types (h : ContextManager TC WS) (mods : list InputModality).

(** Content the model does not support, item by item. *)
Definition strip_item mods (item : ResponseItem) : ResponseItem :=
  (if decide (ModalityAudio ∈ mods) then id else strip_item_audio)
    ((if decide (ModalityImage ∈ mods) then id else strip_item_images) item).

Lemma strip_spec mods l :
  strip_audio_when_unsupported mods (strip_images_when_unsupported mods l) = map (strip_item mods) l.
Proof.
  unfold strip_audio_when_unsupported, strip_images_when_unsupported, strip_item.
  repeat case_decide; rewrite ?map_map; cbn; rewrite ?map_id; done.
Qed.

Lemma strip_item_keys mods item :
  call_key (strip_item mods item) = call_key item ∧ output_key (strip_item mods item) = output_key item ∧
  from_server (strip_item mods item) = from_server item.
Proof. unfold strip_item. repeat case_decide; by destruct item. Qed.

Lemma strip_item_idemp mods item : strip_item mods (strip_item mods item) = strip_item mods item.
Proof.
  unfold strip_item. repeat case_decide;
    destruct item as [|? ? content| | | | | |? ? [[]]| |? ? ? [[]]| | | | | | |]; cbn; try done;
    rewrite !map_map; do 4 try (first [apply map_ext; by intros []|f_equal]).
Qed.

Lemma strip_paired mods l : paired l → paired (map (strip_item mods) l).
Proof.
  intros [Ha Hc]. split; intros x k (item & -> & Hi)%list_elem_of_fmap; destruct (strip_item_keys mods item) as (E1 & E2 & E3);
    rewrite ?E1, ?E2, ?E3; rewrite omap_redact by (intros y; apply (strip_item_keys mods y)); eauto.
Qed.

Lemma normalize_debug mods h h' :
  normalize_history debug uuid mods h = Some h' → h' = set_items (map (strip_item mods) (repaired uuid (items h))) h.
Proof.
  unfold normalize_history. intros (l & ->%ensure_spec & (l2 & ->%orphans_spec & [= <-])%bind_Some)%bind_Some.
  by rewrite strip_spec, repaired_spec.
Qed.

Lemma normalize_release mods h :
  normalize_history false uuid mods h = Some (set_items (map (strip_item mods) (repaired uuid (items h))) h).
Proof.
  unfold normalize_history. rewrite ensure_release. cbn [mbind option_bind]. rewrite orphans_release. cbn [mbind option_bind].
  by rewrite strip_spec, repaired_spec.
Qed.

Lemma normalize_paired mods h :
  paired (items h) → normalize_history debug uuid mods h = Some (set_items (map (strip_item mods) (items h)) h).
Proof.
  intros [Ha Hc]. unfold normalize_history. rewrite answered_ensure by done. cbn [mbind option_bind].
  rewrite called_orphans by done. cbn [mbind option_bind]. by rewrite strip_spec.
Qed.

End prompt.

(** C16: a prompt is well formed whatever the history holds: in a release build it is always
    made, every call in it that has an id is answered by an output of its kind, and every output
    in it that has an id was called for, except the outputs of tool searches that the server ran,
    which are kept without their call; with debug assertions it is the same prompt or a panic. *)
Theorem prompt_paired {TC WS} debug uuid mods (h : ContextManager TC WS) :
  ∃ l, for_prompt false uuid mods h = Some l ∧ paired l ∧
    (for_prompt debug uuid mods h = Some l ∨ debug = true ∧ for_prompt debug uuid mods h = None).
Proof.
  unfold for_prompt. rewrite normalize_release. eexists. split; [reflexivity|].
  split; [apply strip_paired, repaired_paired|].
  destruct debug; [|left; by rewrite normalize_release].
  destruct (normalize_history true uuid mods h) as [h'|] eqn:E; [left|by right].
  by rewrite (normalize_debug _ _ _ _ _ E).
Qed.

(** Preparing a prompt changes no more than it must: items stay as they are and in their
    order, except that outputs without a call are dropped, a call without an output is
    followed by one that says it was aborted, and content the model does not support is
    replaced. *)
Theorem prompt_is_repaired {TC WS} uuid mods (h : ContextManager TC WS) :
  for_prompt false uuid mods h = Some (map (strip_item mods) (repaired uuid (items h))).
Proof. unfold for_prompt. by rewrite normalize_release. Qed.

(** A history that is paired, and so every prompt, is left alone but for unsupported
    content, and raises no alarm in a debug build: preparing a prompt twice is preparing it
    once. *)
Theorem prompt_stable {TC WS} debug uuid mods (h : ContextManager TC WS) l :
  for_prompt false uuid mods h = Some l → for_prompt debug uuid mods (set_items l h) = Some l.
Proof.
  unfold for_prompt. rewrite normalize_release. intros [= <-].
  rewrite normalize_paired by apply strip_paired, repaired_paired. cbn. f_equal.
  rewrite map_map. apply map_ext, strip_item_idemp.
Qed.

Lemma prompt_stable_witness :
  let h := mkContext (TurnContextItem := unit) (WorldStateSnapshot := unit)
    [FunctionCall None (lit "f") None [] (lit "c1") None; CustomToolCallOutput None (lit "c2") None aborted None] 0 None None None in
  ∃ l, for_prompt false id [ModalityText] h = Some l ∧ for_prompt true id [ModalityText] (set_items l h) = Some l.
Proof.
  intros h. eexists. split; [vm_compute; reflexivity|]. apply prompt_stable. vm_compute. reflexivity.
Defined.

(** ** Removing the oldest item *)

Section remove_first.
Implicit Types (l : list ResponseItem) (key : ResponseItem → option (CallKind * str)).

(** Every call and every output of a history is the only one with its identifier. *)
Definition unique_keys l : Prop := NoDup (omap call_key l) ∧ NoDup (omap output_key l).

Lemma omap_cons_NoDup key x l : NoDup (omap key (x :: l)) → NoDup (omap key l) ∧ ∀ k, key x = Some k → k ∉ omap key l.
Proof. cbn. destruct (key x) as [k|]; [rewrite NoDup_cons|]; naive_solver. Qed.

Lemma elem_remove_first p l x : x ∈ remove_first_matching p l → x ∈ l.
Proof. induction l as [|y l IH]; cbn; [done|]. destruct (p y); [by right|]. rewrite !elem_of_cons. naive_solver. Qed.

Lemma remove_first_elem p l x : x ∈ l → p x = false → x ∈ remove_first_matching p l.
Proof.
  induction l as [|y l IH]; cbn; [done|]. intros [->|Hx]%elem_of_cons Hp; [rewrite Hp; left|].
  destruct (p y); [done|]. right. auto.
Qed.

Lemma omap_remove_first key p l k : k ∈ omap key (remove_first_matching p l) → k ∈ omap key l.
Proof. rewrite !list_elem_of_omap. intros (x & Hx%elem_remove_first & Hk). eauto. Qed.

Lemma remove_first_NoDup key p l : NoDup (omap key l) → NoDup (omap key (remove_first_matching p l)).
Proof.
  induction l as [|y l IH]; intros Hn; [done|]. pose proof (omap_cons_NoDup _ _ _ Hn) as [Hl Hy].
  cbn [remove_first_matching]. destruct (p y); [done|]. cbn. destruct (key y) as [k|]; [|by apply IH].
  constructor; [|by apply IH]. intros H%omap_remove_first. by apply (Hy k).
Qed.

(** Removing the one item that has a key. *)
Definition removes key k l r : Prop :=
  (∀ x, x ∈ r → x ∈ l) ∧ (∀ x, x ∈ l → key x ≠ Some k → x ∈ r) ∧ (k ∉ omap key r) ∧
  ∀ key', NoDup (omap key' l) → NoDup (omap key' r).

Lemma remove_first_removes key k p l :
  (∀ x, p x = true → key x = Some k) → NoDup (omap key l) → (k ∈ omap key l → existsb p l = true) →
  removes key k l (remove_first_matching p l).
Proof.
  intros Hp Hn He. split; [apply elem_remove_first|]. split; [|split; [|intros key'; apply remove_first_NoDup]].
  - intros x Hx Hk. apply remove_first_elem; [done|]. destruct (p x) eqn:E; [|done]. by apply Hp in E.
  - intros Hk. pose proof (He (omap_remove_first _ _ _ _ Hk)) as E. clear He. induction l as [|y l IH]; [done|].
    pose proof (omap_cons_NoDup _ _ _ Hn) as [Hl Hy]. cbn [remove_first_matching existsb] in *.
    destruct (p y) eqn:Ey; [by apply (Hy k); [apply Hp|]|]. cbn in E, Hk.
    destruct (key y) as [k'|] eqn:Ek; [|by apply IH]. apply elem_of_cons in Hk as [->|Hk]; [|by apply IH].
    apply existsb_exists in E as (z & Hz & Hpz). apply (Hy k' eq_refl). apply list_elem_of_omap. exists z.
    split; [by apply list_elem_of_In|by apply Hp].
Qed.

Lemma has_id_spec f c x : has_id f c x = true ↔ f x = Some c.
Proof. apply bool_decide_eq_true. Qed.

Lemma existsb_ids f c l : c ∈ ids f l → existsb (has_id f c) l = true.
Proof.
  rewrite elem_ids. intros (x & Hx & Hf). apply existsb_exists. exists x. by rewrite <- list_elem_of_In, has_id_spec.
Qed.

(** The counterpart of an item. *)
Lemma remove_corresponding_call item k l :
  call_key item = Some k → NoDup (omap output_key l) →
  removes output_key k l (remove_corresponding_for item l).
Proof.
  intros Hk Hn. destruct item as [| | | |? [c|] ? ? ?|? ? ? ? c ?|? [c|] ? ? ? ?| |? ? c ? ? ? ?| | | | | | | |]; try done;
    injection Hk as <-; apply remove_first_removes; try done; rewrite ?key_ids; try apply existsb_ids.
  all: intros x; rewrite has_id_spec; destruct x as [| | | | | | | | | |? [?|] ? ? ? ?| | | | | |]; cbn; congruence.
Qed.

Lemma remove_corresponding_output item k l :
  output_key item = Some k → NoDup (omap call_key l) →
  removes call_key k l (remove_corresponding_for item l).
Proof.
  intros Hk Hn. destruct item as [| | | | | | |? c ? ?| |? c ? ? ?|? [c|] ? ? ? ?| | | | | |]; try done; injection Hk as <-; cbn.
  2-3: apply remove_first_removes; try done; rewrite ?call_ids; try apply existsb_ids.
  2-3: intros x; rewrite has_id_spec; destruct x as [| | | |? [?|] ? ? ?| |? [?|] ? ? ? ?| | | | | | | | | |]; cbn; congruence.
  destruct (existsb (has_id function_call_id c) l) eqn:E; apply remove_first_removes; try done.
  - intros x; rewrite has_id_spec; destruct x; cbn; congruence.
  - intros x; rewrite has_id_spec; destruct x as [| | | |? [?|] ? ? ?| | | | | | | | | | | |]; cbn; congruence.
  - rewrite call_ids. intros [H%existsb_ids|H]; [congruence|by apply existsb_ids].
Qed.

Lemma output_not_call item k : output_key item = Some k → call_key item = None.
Proof. intros H. destruct (call_key item) eqn:E; [|done]. apply call_not_output in E. congruence. Qed.

Lemma omap_skip key x l k : k ∈ omap key (x :: l) → key x ≠ Some k → k ∈ omap key l.
Proof. rewrite !list_elem_of_omap. intros (y & [->|Hy]%elem_of_cons & Hk) Hx; [done|eauto]. Qed.

Lemma removes_keeps key key' k l r x k' :
  removes key k l r → (∀ y, key y = Some k → key' y ≠ Some k') → k' ∈ omap key' (x :: l) → key' x ≠ Some k' →
  k' ∈ omap key' r.
Proof.
  intros (_ & Hkeep & _) Hdis Hin Hx. apply (omap_skip key' x l) in Hin; [|done].
  apply list_elem_of_omap in Hin as (y & Hy & Hk'). apply list_elem_of_omap. exists y. split; [|done].
  apply Hkeep; [done|]. intros H. by apply (Hdis y H).
Qed.

(** Removing the counterpart of an item from the rest of a paired history. *)
Lemma remove_corresponding_paired item l :
  unique_keys (item :: l) → paired (item :: l) →
  let r := remove_corresponding_for item l in unique_keys r ∧ paired r.
Proof.
  intros [Hnc Hno] [Ha Hc] r. destruct (omap_cons_NoDup _ _ _ Hnc) as [Hnc' Hcx], (omap_cons_NoDup _ _ _ Hno) as [Hno' Hox].
  destruct (call_key item) as [k|] eqn:Ek; [|destruct (output_key item) as [k|] eqn:Eo].
  - pose proof (remove_corresponding_call _ _ _ Ek Hno') as R. fold r in R. pose proof R as (Rsub & _ & Rk & Rn).
    split; [by split; apply Rn|]. split.
    + intros x k' Hx Hk'. apply Rsub in Hx. assert (k' ≠ k).
      { intros ->. apply (Hcx k eq_refl). apply list_elem_of_omap. eauto. }
      apply (removes_keeps output_key output_key k l r item); [done|intros y; congruence|by apply (Ha x); [right|]|].
      by rewrite (call_not_output _ _ Ek).
    + intros x k' Hx Hk' Hs. assert (k' ≠ k).
      { intros ->. apply Rk. apply list_elem_of_omap. eauto. }
      apply (removes_keeps output_key call_key k l r item); [done| |by apply (Hc x); [right; apply Rsub| |]|congruence].
      intros y Hy. by rewrite (output_not_call _ _ Hy).
  - pose proof (remove_corresponding_output _ _ _ Eo Hnc') as R. fold r in R. pose proof R as (Rsub & _ & Rk & Rn).
    split; [by split; apply Rn|]. split.
    + intros x k' Hx Hk'. assert (k' ≠ k).
      { intros ->. apply Rk. apply list_elem_of_omap. eauto. }
      apply (removes_keeps call_key output_key k l r item); [done| |by apply (Ha x); [right; apply Rsub|]|congruence].
      intros y Hy. by rewrite (call_not_output _ _ Hy).
    + intros x k' Hx Hk' Hs. apply Rsub in Hx. assert (k' ≠ k).
      { intros ->. apply (Hox k eq_refl). apply list_elem_of_omap. eauto. }
      apply (removes_keeps call_key call_key k l r item); [done|intros y; congruence|by apply (Hc x); [right| |]|congruence].
  - assert (r = l) as ->.
    { unfold r. by destruct item as [| | | |? [c|] ? ? ?|? ? ? ? c ?|? [c|] ? ? ? ?| |? ? c ? ? ? ?| |? [?|] ? ? ? ?| | | | | |]. }
    split; [done|]. split; intros x k Hx Hk.
    + apply (omap_skip _ item); [by apply (Ha x); [right|]|congruence].
    + intros Hs. apply (omap_skip _ item); [by apply (Hc x); [right| |]|congruence].
Qed.

(** Dropping the oldest item keeps the history paired without preparing it again: with
    the item goes its counterpart. *)
Theorem remove_first_keeps_pairs {TC WS} (h : ContextManager TC WS) :
  unique_keys (items h) → paired (items h) →
  unique_keys (items (remove_first_item h)) ∧ paired (items (remove_first_item h)).
Proof.
  unfold remove_first_item. destruct (items h) as [|item l] eqn:E; [by rewrite E|]. cbn.
  apply remove_corresponding_paired.
Qed.
End remove_first.

Lemma remove_first_keeps_pairs_witness :
  let h := mkContext (TurnContextItem := unit) (WorldStateSnapshot := unit)
    [FunctionCallOutput None (lit "c1") aborted None; FunctionCall None (lit "f") None [] (lit "c1") None; Other] 0 None None None in
  unique_keys (items (remove_first_item h)) ∧ paired (items (remove_first_item h)).
Proof.
  intros h. apply remove_first_keeps_pairs.
  - split; apply (bool_decide_eq_true_1 _); vm_compute; reflexivity.
  - split; intros x k Hx; repeat (apply elem_of_cons in Hx as [->|Hx]; [cbn; intros [= <-]; intros; by left|]); by apply not_elem_of_nil in Hx.
Defined.
