(* ===== verification/HistoryTurns.v ===== *)
(** * Turns, budgets and token counts of a history

    A rollback drops the turns it is asked to drop, and injected context is no turn; what
    is recorded of a tool's output is bounded; token counts saturate. *)

From S2P Require Import Prelude RustStr MachineInt ResponseModel Truncate TruncateFacts ContextFragments History HistoryFacts.
#[local] Arguments lit : simpl never.
Open Scope nat_scope.

(** ** Rollback *)

Section rollback.
Context (xml : str → option str) (json : str → bool).
Implicit Types l : list ResponseItem.
#[local] Abbreviation boundary := (is_user_turn_boundary xml json).
#[local] Abbreviation positions := (user_message_positions xml json).
#[local] Abbreviation context := (pre_turn_context xml).
#[local] Abbreviation trim_context := (trim_pre_turn_context_updates xml).

(** How many turns a history has. *)
Definition turns l : nat := length (List.filter boundary l).

Lemma context_no_turn item b : context item = Some b → boundary item = false.
Proof.
  destruct item as [|id role content ph m| | | | | | | | | | | | | | |]; try done. cbn.
  destruct (seqb role (lit "developer") && _) eqn:E1.
  - apply andb_true_iff in E1 as [->%seqb_eq _]. intros _. vm_compute. done.
  - destruct (seqb role (lit "user")) eqn:E2; cbn; [|done]. apply seqb_eq in E2 as ->.
    destruct (is_contextual_user_message_content xml content); [|done]. by vm_compute.
Qed.

Lemma turns_app l l' : turns (l ++ l') = turns l + turns l'.
Proof. unfold turns. by rewrite List.filter_app, length_app. Qed.

Lemma turns_take_S l i item : l !! i = Some item → turns (take (S i) l) = turns (take i l) + (if boundary item then 1 else 0).
Proof.
  intros H. rewrite (take_S_r _ _ _ H), turns_app. unfold turns at 2. cbn. by destruct (boundary item).
Qed.

Lemma turns_take_mono l i j : i ≤ j → turns (take i l) ≤ turns (take j l).
Proof.
  intros H. replace (take i l) with (take i (take j l)) by (rewrite take_take; f_equal; lia).
  rewrite <- (take_drop i (take j l)) at 2. rewrite turns_app. lia.
Qed.

(** *** Positions *)

Lemma positions_length idx l : length (user_message_positions_from xml json idx l) = turns l.
Proof.
  revert idx. induction l as [|x l IH]; intros idx; [done|]. unfold turns in *. cbn.
  destruct (boundary x); cbn; by rewrite IH.
Qed.

Lemma positions_lookup idx l j p :
  user_message_positions_from xml json idx l !! j = Some p →
  ∃ i item, p = idx + i ∧ l !! i = Some item ∧ boundary item = true ∧ turns (take i l) = j.
Proof.
  revert idx j. induction l as [|x l IH]; intros idx j; cbn; [done|]. destruct (boundary x) eqn:Ex; cbn.
  - destruct j as [|j]; cbn; [intros [= <-]; exists 0, x; split; [lia|done]|].
    intros (i & item & -> & Hi & Hb & <-)%IH. exists (S i), item. split; [lia|]. split; [done|]. split; [done|].
    unfold turns. cbn. by rewrite Ex.
  - intros (i & item & -> & Hi & Hb & <-)%IH. exists (S i), item. split; [lia|]. split; [done|]. split; [done|].
    unfold turns. cbn. by rewrite Ex.
Qed.

Lemma positions_take idx l c :
  user_message_positions_from xml json idx (take c l) =
    take (turns (take c l)) (user_message_positions_from xml json idx l).
Proof.
  revert idx c. induction l as [|x l IH]; intros idx [|c]; cbn; [done..|]. rewrite IH. unfold turns. cbn.
  by destruct (boundary x).
Qed.

(** *** Trimming *)

Lemma trim_spec l f cut :
  cut ≤ length l →
  let '(c, clear) := trim_context l f cut in
  c ≤ cut ∧ (f ≤ cut → f ≤ c) ∧ turns (take c l) = turns (take cut l) ∧
  (f < c → l !! (c - 1) ≫= context = None) ∧
  clear = existsb (fun item => bool_decide (context item = Some true)) (take (cut - c) (drop c l)).
Proof.
  induction cut as [|cut IH]; intros Hcut; cbn [trim_pre_turn_context_updates].
  { rewrite take_0. by repeat split; intros; lia. }
  destruct (Nat.leb_spec (S cut) f).
  { rewrite Nat.sub_diag, take_0. by repeat split; intros; lia. }
  destruct (lookup_lt_is_Some_2 l cut) as [item Hi]; [lia|]. rewrite Hi. cbn [mbind option_bind].
  destruct (context item) as [mixed|] eqn:Ec.
  - specialize (IH ltac:(lia)). destruct (trim_context l f cut) as [c clear]. destruct IH as (I1 & I2 & I3 & I4 & I5).
    split; [lia|]. split; [intros; apply I2; lia|]. split; [|split; [done|]].
    + rewrite I3, (turns_take_S _ _ _ Hi), (context_no_turn _ _ Ec). lia.
    + replace (S cut - c) with (S (cut - c)) by lia.
      assert (Hd : drop c l !! (cut - c) = Some item) by (rewrite lookup_drop; replace (c + (cut - c)) with cut by lia; done).
      rewrite (take_S_r _ _ _ Hd), existsb_app, <- I5. cbn. rewrite Ec, orb_false_r, orb_comm. f_equal. by destruct mixed.
  - rewrite Nat.sub_diag, take_0. split; [lia|]. split; [done|]. split; [done|]. split; [|done].
    intros _. cbn. rewrite Nat.sub_0_r, Hi. done.
Qed.

Lemma trim_take l c f cut : cut ≤ c → trim_context (take c l) f cut = trim_context l f cut.
Proof.
  induction cut as [|cut IH]; intros Hc; cbn [trim_pre_turn_context_updates]; [done|].
  rewrite lookup_take_lt, IH by lia. done.
Qed.

(** *** Dropping turns *)

Context {TC WS : Type}.
Implicit Types h : ContextManager TC WS.
#[local] Abbreviation drop_turns := (drop_last_n_user_turns xml json).

(** Where the history is cut, and whether the settings it was diffed against are forgotten. *)
Definition cut_of l (n : nat) : option (nat * bool) :=
  f ← positions l !! 0; p ← positions l !! (turns l - n); Some (trim_context l f p).

Lemma cut_of_Some l n c clear :
  cut_of l n = Some (c, clear) →
  ∃ f p, positions l !! 0 = Some f ∧ positions l !! (turns l - n) = Some p ∧ trim_context l f p = (c, clear) ∧
    f ≤ p ∧ p < length l ∧ turns (take p l) = turns l - n.
Proof.
  unfold cut_of. intros (f & Hf & (p & Hp & [= H])%bind_Some)%bind_Some.
  exists f, p. split; [done|]. split; [done|]. split; [done|].
  destruct (positions_lookup 0 l _ _ Hf) as (i & x & -> & Hi & Hx & Ti).
  destruct (positions_lookup 0 l _ _ Hp) as (j & y & -> & Hj & Hy & Tj). cbn in *.
  split; [|split; [by apply lookup_lt_Some in Hj|done]].
  destruct (decide (i ≤ j)) as [|Hlt]; [done|].
  pose proof (turns_take_mono l (S j) i ltac:(lia)) as H1. rewrite (turns_take_S _ _ _ Hj), Hy in H1. lia.
Qed.

Lemma drop_turns_spec n h :
  n ≠ 0%N →
  drop_turns n h =
    match cut_of (items h) (N.to_nat n) with
    | Some (c, clear) =>
        Some (replace (take c (items h)) (if clear : bool then set_reference_context_item None h else h))
    | None => Some (replace (items h) h)
    end.
Proof.
  intros Hn. unfold drop_last_n_user_turns, cut_of. rewrite (proj2 (N.eqb_neq n 0) Hn).
  pose proof (positions_length 0 (items h)) as Hlen. fold (positions (items h)) in Hlen.
  destruct (positions (items h)) as [|f ps] eqn:Ep; [done|]. cbn [lookup list_lookup mbind option_bind] in *.
  destruct (N.leb_spec (vec_len (f :: ps)) n) as [Hle|Hlt]; unfold vec_len in *.
  - replace (turns (items h) - N.to_nat n) with 0 by lia. cbn. by destruct (trim_context _ _ _).
  - rewrite Hlen. destruct (lookup_lt_is_Some_2 (f :: ps) (turns (items h) - N.to_nat n)) as [p Hp]; [lia|].
    rewrite Hp. cbn. by destruct (trim_context _ _ _).
Qed.

Lemma cut_of_None l n : n ≠ 0 → cut_of l n = None → turns l = 0.
Proof.
  intros Hn. unfold cut_of. pose proof (positions_length 0 l) as Hlen. fold (positions l) in Hlen.
  destruct (positions l) as [|f ps]; [done|]. cbn [lookup list_lookup mbind option_bind].
  destruct (lookup_lt_is_Some_2 (f :: ps) (turns l - n)) as [p Hp]; [cbn in *; lia|]. by rewrite Hp.
Qed.

Lemma cut_of_no_turns l n : turns l = 0 → cut_of l n = None.
Proof.
  unfold cut_of. rewrite <- (positions_length 0 l). fold (positions l). by destruct (positions l).
Qed.

Lemma drop_turns_total n h : is_Some (drop_turns n h).
Proof.
  destruct (decide (n = 0%N)) as [->|Hn]; [by eexists|]. rewrite drop_turns_spec by done.
  by destruct (cut_of _ _) as [[c []]|]; eexists.
Qed.

(** A rollback always succeeds and drops exactly the turns it is asked to drop, or all there
    are: what is left is a beginning of the history that has that many turns less; nothing
    before the first turn is lost; no context update for a dropped turn is left at the end
    (unless the first turn is reached); and the version moves on. *)
Theorem rollback_drops_turns n h :
  ∃ h' c, drop_turns n h = Some h' ∧ items h' = take c (items h) ∧
    turns (items h') = turns (items h) - N.to_nat n ∧
    (∀ f, positions (items h) !! 0 = Some f → f ≤ c ∧ (n ≠ 0%N → f < c → items h !! (c - 1) ≫= context = None)) ∧
    history_version h' = (if (n =? 0)%N then history_version h else sat_add (history_version h) 1) ∧
    token_info h' = token_info h.
Proof.
  destruct (N.eqb_spec n 0) as [->|Hn].
  - exists h, (length (items h)). rewrite firstn_all. split; [done|]. split; [done|]. split; [lia|]. split; [|done].
    intros f (i & x & -> & Hi%lookup_lt_Some & _)%positions_lookup. split; [cbn; lia|done].
  - rewrite drop_turns_spec by done. destruct (cut_of (items h) (N.to_nat n)) as [[c clear]|] eqn:E.
    + destruct (cut_of_Some _ _ _ _ E) as (f & p & Hf & Hp & Ht & Hle & Hlt & Htp).
      pose proof (trim_spec (items h) f p ltac:(lia)) as Hs. rewrite Ht in Hs. destruct Hs as (S1 & S2 & S3 & S4 & _).
      eexists _, c. split; [reflexivity|]. split; [done|]. split; [by rewrite <- Htp, <- S3|]. split; [|by destruct clear].
      intros f'. rewrite Hf. intros [= <-]. split; [by apply S2|]. intros _. exact S4.
    + pose proof (cut_of_None _ (N.to_nat n) ltac:(lia) E) as Hz. eexists _, (length (items h)). split; [reflexivity|]. rewrite firstn_all.
      split; [done|]. split; [cbn [items replace]; lia|]. split; [|done]. intros f Hf%lookup_lt_Some.
      fold (positions (items h)) in Hf. unfold user_message_positions in Hf. rewrite positions_length in Hf. lia.
Qed.

(** Two rollbacks are one. *)
Lemma cut_of_compose l n m c clear :
  n ≠ 0 → m ≠ 0 → cut_of l n = Some (c, clear) →
  match cut_of (take c l) m, cut_of l (n + m) with
  | Some (c', _), Some (c'', _) => take c' (take c l) = take c'' l
  | None, Some (c'', _) => take c l = take c'' l
  | _, None => False
  end.
Proof.
  intros Hn Hm Hc. destruct (cut_of_Some _ _ _ _ Hc) as (f & p & Hf & Hp & Ht & Hle & Hlt & Htp).
  pose proof (trim_spec l f p ltac:(lia)) as Hs. rewrite Ht in Hs. destruct Hs as (S1 & S2 & S3 & _).
  rewrite Htp in S3. set (k := turns l) in *.
  assert (Hk : k ≠ 0).
  { apply lookup_lt_Some in Hf. unfold user_message_positions in Hf. rewrite positions_length in Hf. unfold k. lia. }
  assert (Hpos : positions (take c l) = take (k - n) (positions l))
    by (unfold user_message_positions; rewrite positions_take, S3; done).
  destruct (decide (k - n = 0)) as [H0|H0].
  - assert (E1 : cut_of (take c l) m = None) by (unfold cut_of; by rewrite Hpos, H0, take_0).
    assert (E2 : cut_of l (n + m) = Some (c, clear)).
    { unfold cut_of in *. replace (turns l - (n + m)) with (turns l - n) by (fold k; lia). done. }
    by rewrite E1, E2.
  - destruct (lookup_lt_is_Some_2 (positions l) (k - (n + m))) as [q Hq].
    { unfold user_message_positions. rewrite positions_length. fold k. lia. }
    destruct (positions_lookup 0 l _ _ Hq) as (i & x & -> & Hi & Hx & Ti). cbn [Nat.add] in Hq.
    assert (Hic : i < c).
    { destruct (decide (i < c)) as [|Hge]; [done|]. pose proof (turns_take_mono l c i ltac:(lia)). lia. }
    assert (E1 : cut_of (take c l) m = Some (trim_context l f i)).
    { unfold cut_of. rewrite Hpos, S3, !lookup_take_lt by lia. rewrite Hf. cbn [mbind option_bind].
      replace (k - n - m) with (k - (n + m)) by lia. rewrite Hq. cbn [mbind option_bind]. f_equal. apply trim_take. lia. }
    assert (E2 : cut_of l (n + m) = Some (trim_context l f i)).
    { unfold cut_of. rewrite Hf. cbn [mbind option_bind]. fold k. by rewrite Hq. }
    rewrite E1, E2. pose proof (trim_spec l f i ltac:(apply lookup_lt_Some in Hi; lia)) as Hs.
    destruct (trim_context l f i) as [c' ?]. destruct Hs as (? & _). rewrite take_take. f_equal. lia.
Qed.

(** Rolling back twice leaves the items that rolling back once by the sum leaves. *)
Theorem rollback_composes n m h :
  ∃ h1 h2 h3, drop_turns n h = Some h1 ∧ drop_turns m h1 = Some h2 ∧ drop_turns (n + m)%N h = Some h3 ∧
    items h2 = items h3.
Proof.
  destruct (decide (n = 0%N)) as [->|Hn].
  { destruct (drop_turns_total m h) as [h' E]. exists h, h', h'. done. }
  destruct (drop_turns_total n h) as [h1 E1], (drop_turns_total (n + m) h) as [h3 E3].
  destruct (decide (m = 0%N)) as [->|Hm]; [rewrite N.add_0_r in *; exists h1, h1, h1; done|].
  destruct (drop_turns_total m h1) as [h2 E2]. exists h1, h2, h3. split; [done|]. split; [done|]. split; [done|].
  rewrite drop_turns_spec in E1, E2, E3 by lia. rewrite N2Nat.inj_add in E3.
  destruct (cut_of (items h) (N.to_nat n)) as [[c clear]|] eqn:Ec.
  - injection E1 as <-. pose proof (cut_of_compose _ (N.to_nat n) (N.to_nat m) _ _ ltac:(lia) ltac:(lia) Ec) as Hcomp. cbn [items replace] in *.
    destruct (cut_of (take c (items h)) (N.to_nat m)) as [[c' ?]|], (cut_of (items h) (N.to_nat n + N.to_nat m)) as [[c'' ?]|];
      try done; injection E2 as <-; injection E3 as <-; exact Hcomp.
  - injection E1 as <-. pose proof (cut_of_None _ (N.to_nat n) ltac:(lia) Ec) as Hz. cbn [items replace] in *.
    rewrite cut_of_no_turns in E2, E3 by done. injection E2 as <-. injection E3 as <-. done.
Qed.
End rollback.

(** Where the documentation of a rollback has "no-op", the version moves and the world state
    is sent again. *)
Lemma rollback_without_turns_bumps_version :
  let h := mkContext (TurnContextItem := unit) (WorldStateSnapshot := unit) [Other] 7 None None (Some tt) in
  drop_last_n_user_turns (fun _ => None) (fun _ => false) 1 h = Some (mkContext [Other] 8 None None None).
Proof. vm_compute. reflexivity. Qed.

(** ** Injected context *)

(** What the harness writes into user messages is never taken for a turn of the user: every
    fragment whose label is well formed is recognised by its markers, whatever its body, so
    it is no turn to roll back and is trimmed with the turn it precedes. *)
Theorem injected_context_is_no_turn xml json f item :
  well_labelled f → inject f = Some item →
  is_user_turn_boundary xml json item = false ∧ pre_turn_context xml item = Some false.
Proof.
  intros Hf Hi. destruct (inject_recognised f item Hf Hi) as (text & -> & Ht).
  assert (Hc : is_contextual_user_message_content xml [InputText text] = true).
  { unfold is_contextual_user_message_content, is_contextual_user_fragment. cbn [existsb].
    by destruct (parse_hook_prompt_fragment xml text); rewrite ?Ht. }
  unfold is_user_turn_boundary, pre_turn_context. rewrite Hc.
  change (seqb USER (lit "user")) with true. change (seqb USER (lit "assistant")) with false.
  change (seqb USER (lit "developer")) with false. done.
Qed.

Lemma injected_context_is_no_turn_witness :
  ∃ item, inject (InjectedAdditional (mkAdditional (lit "editor") (lit "a>b"))) = Some item ∧
    is_user_turn_boundary (fun _ => None) (fun _ => false) item = false ∧
    pre_turn_context (fun _ => None) item = Some false.
Proof.
  eexists. split; [vm_compute; reflexivity|].
  apply (injected_context_is_no_turn _ _ (InjectedAdditional (mkAdditional (lit "editor") (lit "a>b")))).
  - intros H. cbn in H. vm_compute in H. set_solver.
  - vm_compute. reflexivity.
Defined.

(** A key with [>] in it is read back as a shorter one, so the context it labels counts as
    something the user said. *)
Lemma additional_context_key_not_recognised :
  ∃ item, inject (InjectedAdditional (mkAdditional (lit "a>b") (lit "x"))) = Some item ∧
    is_user_turn_boundary (fun _ => None) (fun _ => false) item = true.
Proof. eexists. split; [vm_compute; reflexivity|]. vm_compute. reflexivity. Qed.

(** ** Recording *)

Section record.
Context (estimate : str → N) (policy : TruncationPolicy) {TC WS : Type}.

Definition payload_fits (p : FunctionCallOutputPayload) : Prop :=
  match body p with
  | BodyText t => fits t
  | BodyContentItems l => Forall item_fits l ∧ (vec_len l <= USIZE_MAX)%N
  end.

Definition payload_bytes (p : FunctionCallOutputPayload) : N :=
  match body p with BodyText t => blen t | BodyContentItems l => text_bytes l end.

(** The output an item carries. *)
Definition payload (item : ResponseItem) : option FunctionCallOutputPayload :=
  match item with FunctionCallOutput _ _ p _ | CustomToolCallOutput _ _ _ p _ => Some p | _ => None end.

(** What of the output of a tool is kept: the policy with a fifth more for its encoding, and
    the markers. *)
Definition recorded_budget : N :=
  let p := policy_mul serialization_budget policy in (unit_bytes p * units p + items_overhead)%N.

Definition within_budget (item : ResponseItem) : Prop :=
  match payload item with Some p => (payload_bytes p <= recorded_budget)%N | None => True end.

Lemma truncate_payload_bound p :
  payload_fits p →
  ∃ q, truncate_function_output_payload estimate p (policy_mul serialization_budget policy) = Some q ∧
    (payload_bytes q <= recorded_budget)%N ∧ success q = success p.
Proof.
  unfold payload_fits, truncate_function_output_payload, payload_bytes, recorded_budget.
  set (pol := policy_mul serialization_budget policy). destruct p as [[t|l] s]; cbn [body success].
  - intros Hf. destruct (truncate_text_bound t pol Hf) as (r & -> & Hb). eexists. split; [reflexivity|]. cbn [body success].
    split; [|done]. unfold items_overhead. lia.
  - intros [Hf Hn]. destruct (truncate_items_text estimate pol l Hf Hn) as (st & _ & -> & Hb & _).
    eexists. split; [reflexivity|]. done.
Qed.

(** An item as it is recorded: bounded, and still the call or output it was. *)
Definition same_item (a b : ResponseItem) : Prop :=
  call_key a = call_key b ∧ output_key a = output_key b ∧ (payload a = None → b = a).

Lemma process_item_bound item :
  (∀ p, payload item = Some p → payload_fits p) →
  ∃ r, process_item estimate item policy = Some r ∧ within_budget r ∧ same_item item r.
Proof.
  intros Hf. destruct item as [| | | | | | |id c p m| |id c n p m| | | | | | |];
    try (eexists; split; [reflexivity|]; split; [done|by repeat split]).
  all: destruct (truncate_payload_bound p (Hf p eq_refl)) as (q & E & Hb & _); cbn [process_item]; rewrite E;
    eexists; split; [reflexivity|]; split; [exact Hb|by repeat split].
Qed.

Lemma recorded_items_append new_items (h : ContextManager TC WS) :
  (∀ item p, item ∈ new_items → payload item = Some p → payload_fits p) →
  ∃ recorded, record_items estimate new_items policy h = Some (set_items (items h ++ recorded) h) ∧
    Forall within_budget recorded ∧ Forall2 same_item (List.filter is_api_message new_items) recorded.
Proof.
  revert h. induction new_items as [|x l IH]; intros h Hf.
  { exists []. rewrite app_nil_r. by destruct h. }
  cbn [record_items List.filter]. destruct (is_api_message x).
  - destruct (process_item_bound x) as (r & -> & Hr & Hs); [intros p; apply Hf; left|]. cbn [mbind option_bind].
    destruct (IH (set_items (items h ++ [r]) h)) as (rec & E & Hb & H2); [intros item p Hi; apply Hf; by right|].
    exists (r :: rec). rewrite E. cbn [items set_items]. rewrite <- app_assoc. split; [done|]. by split; constructor.
  - apply IH. intros item p Hi. apply Hf. by right.
Qed.

(** Recording never panics, and however much a tool prints, the text of its output that
    the history keeps is bounded by the policy: items that are for the model are appended in
    order, each the call or output it was and unchanged unless it is a tool's output. *)
Theorem recorded_output_bounded new_items (h : ContextManager TC WS) :
  (∀ item p, item ∈ new_items → payload item = Some p → payload_fits p) →
  ∃ recorded, record_items estimate new_items policy h = Some (set_items (items h ++ recorded) h) ∧
    Forall within_budget recorded ∧ Forall2 same_item (List.filter is_api_message new_items) recorded.
Proof. apply recorded_items_append. Qed.
End record.

Lemma recorded_output_bounded_witness :
  let h := mkContext (TurnContextItem := unit) (WorldStateSnapshot := unit) [] 0 None None None in
  let out := FunctionCallOutput None (lit "c1") (mkPayload (BodyText (lit "abcdefghijklmnopqrstuvwxyz")) None) None in
  ∃ recorded, record_items (fun _ => 0%N) [out; Other] (Bytes 10) h = Some (set_items ([] ++ recorded) h) ∧
    Forall (within_budget (Bytes 10)) recorded ∧ Forall2 same_item [out] recorded.
Proof.
  intros h out. apply (recorded_output_bounded (fun _ => 0%N) (Bytes 10) [out; Other] h).
  intros item p [->|[->|Hi%not_elem_of_nil]%elem_of_cons]%elem_of_cons; cbn; [|done|done].
  intros [= <-]. vm_compute. discriminate.
Defined.

(** ** Token estimates *)

Section estimates.
Context (xml : str → option str) (json : str → bool).
Context (serialized_len : ResponseItem → option N) (image_size : str → option (N * N)) (audio : str → N).
Context {TC WS : Type}.
#[local] Abbreviation cost := (estimate_item_token_count serialized_len image_size audio).
#[local] Abbreviation estimate := (estimate_items serialized_len image_size audio).
Open Scope Z_scope.

Definition sum (l : list Z) : Z := foldr Z.add 0 l.

Lemma cost_range item : 0 <= cost item <= I64_MAX.
Proof.
  unfold estimate_item_token_count, approx_tokens_from_byte_count_i64, i64_of_usize, I64_MAX.
  destruct (_ <=? 0)%Z; lia.
Qed.

Lemma sat_sum l acc :
  Forall (fun z => 0 <= z <= I64_MAX) l → 0 <= acc <= I64_MAX →
  foldl i64_sat_add acc l = Z.min I64_MAX (acc + sum l).
Proof.
  intros Hl. revert acc. induction Hl as [|z l Hz Hl IH]; intros acc Hacc; cbn [foldl sum foldr]; [lia|].
  assert (Hs : 0 <= sum l) by (clear IH; induction Hl; cbn [sum foldr]; unfold sum in *; lia).
  unfold sum in *. rewrite IH; unfold i64_sat_add, clamp_i64, I64_MIN, I64_MAX in *; lia.
Qed.

Lemma estimate_sum l : estimate l = Z.min I64_MAX (sum (map cost l)).
Proof.
  unfold estimate_items. rewrite sat_sum; [done| |unfold I64_MAX; lia].
  apply Forall_forall. intros z Hz. apply list_elem_of_fmap in Hz as (item & -> & _). apply cost_range.
Qed.

(** Items after which the model has said nothing. *)
Lemma items_after_spec (h : ContextManager TC WS) :
  ∃ before, items h = before ++ items_after_last_model_generated_item h ∧
    Forall (fun item => is_model_generated_item item = false) (items_after_last_model_generated_item h) ∧
    (before = items h ∨ ∃ item, last before = Some item ∧ is_model_generated_item item = true).
Proof.
  unfold items_after_last_model_generated_item.
  assert (H : ∀ l : list ResponseItem, match rposition is_model_generated_item l with
    | Some i => Forall (fun item => is_model_generated_item item = false) (drop (S i) l) ∧
                ∃ item, l !! i = Some item ∧ is_model_generated_item item = true
    | None => Forall (fun item => is_model_generated_item item = false) l end).
  { induction l as [|x l IH]; cbn [rposition]; [done|].
    destruct (rposition is_model_generated_item l) as [i|]; [done|].
    destruct (is_model_generated_item x) eqn:Ex; [by split; [|exists x]|by constructor]. }
  specialize (H (items h)). destruct (rposition is_model_generated_item (items h)) as [i|].
  - destruct H as (Hf & item & Hi & Hm). exists (take (S i) (items h)). rewrite take_drop. split; [done|]. split; [done|].
    right. exists item. split; [|done]. rewrite (take_S_r _ _ _ Hi). apply last_snoc.
  - exists (items h). rewrite drop_all, app_nil_r. split; [done|]. split; [constructor|by left].
Qed.

Lemma items_after_app (h : ContextManager TC WS) l :
  Forall (fun item => is_model_generated_item item = false) l →
  rposition is_model_generated_item (items h) ≠ None →
  items_after_last_model_generated_item (set_items (items h ++ l) h) = items_after_last_model_generated_item h ++ l.
Proof.
  intros Hl Hgen. unfold items_after_last_model_generated_item. cbn [items set_items].
  rewrite rposition_app, (rposition_None _ _ Hl).
  destruct (rposition is_model_generated_item (items h)) as [i|] eqn:E; [|done].
  apply rposition_bound in E. by rewrite drop_app_le by lia.
Qed.

Lemma sum_app a b : sum (a ++ b) = sum a + sum b.
Proof. unfold sum. induction a as [|z a IH]; cbn [app foldr]; [done|]. rewrite IH. lia. Qed.

Lemma sum_cost_nonneg l : 0 <= sum (map cost l).
Proof.
  induction l as [|x l IH]; [done|]. pose proof (cost_range x) as [H _].
  change (sum (map cost (x :: l))) with (cost x + sum (map cost l)). by apply Z.add_nonneg_nonneg.
Qed.

(** The token count that decides when to compact is what the server reported for the last
    response plus an estimate for every item after it, and never wraps around: it saturates
    at the ends of its range, and more items never make it smaller. *)
Theorem total_token_usage_saturates (h : ContextManager TC WS) l :
  let last_tokens := match token_info h with Some info => total_tokens (last_token_usage info) | None => 0 end in
  0 <= last_tokens <= I64_MAX → Forall (fun item => is_model_generated_item item = false) l →
  rposition is_model_generated_item (items h) ≠ None →
  let total := get_total_token_usage xml json serialized_len image_size audio true in
  total h = clamp_i64 (last_tokens + sum (map cost (items_after_last_model_generated_item h))) ∧
  total h <= total (set_items (items h ++ l) h) <= I64_MAX.
Proof.
  cbv zeta. intros Hlast Hl Hgen. unfold get_total_token_usage. cbn [token_info set_items].
  set (last := match token_info h with Some _ => _ | None => _ end) in *. clearbody last.
  rewrite items_after_app, !estimate_sum, map_app, sum_app by done.
  pose proof (sum_cost_nonneg l). pose proof (sum_cost_nonneg (items_after_last_model_generated_item h)).
  set (a := sum (map cost (items_after_last_model_generated_item h))) in *. set (b := sum (map cost l)) in *.
  clearbody a b. unfold i64_sat_add, clamp_i64, I64_MIN, I64_MAX in *. lia.
Qed.
End estimates.

Lemma total_token_usage_saturates_witness :
  let h := mkContext (TurnContextItem := unit) (WorldStateSnapshot := unit)
    [Message None (lit "assistant") [] None None; Message None (lit "user") [] None None] 0
    (Some (mkUsageInfo zero_usage (total_only I64_MAX) None)) None None in
  let total := get_total_token_usage (fun _ => None) (fun _ => false) (fun _ => Some 40%N) (fun _ => None) (fun _ => 0%N) true in
  total h = I64_MAX ∧
  (total h <= total (set_items (items h ++ [Message None (lit "user") [] None None]) h) <= I64_MAX)%Z.
Proof.
  intros h total.
  destruct (total_token_usage_saturates (fun _ => None) (fun _ => false) (fun _ => Some 40%N) (fun _ => None) (fun _ => 0%N)
    h [Message None (lit "user") [] None None]) as [H1 H2].
  - split; vm_compute; discriminate.
  - repeat constructor.
  - vm_compute. discriminate.
  - split; [etransitivity; [exact H1|vm_compute; reflexivity]|exact H2].
Defined.
