(* ===== verification/RolloutReplay.v ===== *)
(** * Resuming a thread from its rollout

    [codex-rs/core/src/session/rollout_reconstruction.rs]: the rollout file of a thread is the
    list of what happened in it, and [reconstruct_history_from_rollout] rebuilds the state of
    the session from it when the thread is resumed, forked or rolled back.  The list is scanned
    from its end, turn by turn, until the newest surviving checkpoint of the history and the
    settings of the last turn are known; the history is then replayed forward from there. *)

From S2P Require Import Prelude RustStr MachineInt ResponseModel Truncate ContextFragments Compact WorldState History.
Open Scope N_scope.

(** ** What a rollout records *)

Record CompactedItem := mkCompactedItem {
  summary_message : str;
  replacement_history : option (list ResponseItem);
  window_number : option N;
  first_window_id : option str;
  previous_window_id : option str;
  window_id : option str
}.

Record InterAgentCommunication := mkCommunication {
  communication_id : option str;
  author : str;
  recipient : str;
  communication_content : str;
  communication_encrypted_content : option str;
  communication_metadata : option InternalChatMessageMetadataPassthrough;
  trigger_turn : bool
}.

Definition to_model_input_item (c : InterAgentCommunication) : ResponseItem :=
  let content :=
    match communication_encrypted_content c with
    | Some encrypted_content =>
        let message_type := if trigger_turn c then lit "NEW_TASK" else lit "MESSAGE" in
        [AgentInputText (lit "Message Type: " ++ message_type ++ [nl] ++ lit "Task name: " ++ recipient c ++ [nl] ++
                         lit "Sender: " ++ author c ++ [nl] ++ lit "Payload:" ++ [nl]);
         AgentEncryptedContent encrypted_content]
    | None => [AgentInputText (communication_content c)]
    end in
  AgentMessage (communication_id c) (author c) (recipient c) content (communication_metadata c).

(** The events that reconstruction passes over: those the persistence policy names, and the
    transient ones together. *)
Inductive PassedOverEvent :=
| ItemCompleted (plan_or_sleep : bool)
| TokenCount | ThreadGoalUpdated | ThreadSettingsApplied
| AgentMessageEvent | AgentReasoning | AgentReasoningRawContent | EnteredReviewMode | ExitedReviewMode
| PatchApplyEnd | ContextCompacted | McpToolCallEnd | WebSearchEnd | ImageGenerationEnd | SubAgentActivity
| TransientEvent.

Inductive EventMsg :=
| ThreadRolledBack (num_turns : N)
| TurnComplete (turn_id : str)
| TurnAborted (turn_id : option str)
| UserMessageEvent
| TurnStarted (turn_id : str)
| OtherEvent (event : PassedOverEvent).

Record PreviousTurnSettings := mkSettings {
  settings_model : str;
  settings_comp_hash : option str;
  settings_realtime_active : option bool
}.

Section replay.
Context (debug_assertions : bool) (hook_run_id_of_xml : str → option str) (is_agent_json : str → bool).
Context (estimate_audio_token_count : str → N).
(** The [uuid] crate. *)
Context {Uuid : Type} (uuid_parse_str : str → option Uuid) (get_version_num : Uuid → N).
(** The settings of a turn that are only handed on. *)
Context {OtherSettings : Type}.

Record TurnContextItem := mkTurnContext {
  context_turn_id : option str;
  context_model : str;
  context_comp_hash : option str;
  context_realtime_active : option bool;
  context_other : OtherSettings
}.

(** [SessionMeta] carries the id of the first context window, if it has one. *)
Inductive RolloutItem :=
| SessionMeta (context_window : option str)
| RolloutResponse (item : ResponseItem)
| RolloutCommunication (communication : InterAgentCommunication)
| RolloutCommunicationMetadata (trigger_turn : bool)
| Compacted (compacted : CompactedItem)
| RolloutTurnContext (ctx : TurnContextItem)
| RolloutWorldState (item : WorldStateItem)
| RolloutEvent (event : EventMsg).

Record ReconstructedWindow := mkWindow {
  win_number : N;
  win_first_id : option Uuid;
  win_previous_id : option Uuid;
  win_id : option Uuid
}.

Inductive TurnReferenceContextItem := NeverSet | Cleared | Latest (item : TurnContextItem).

Definition is_never_set (r : TurnReferenceContextItem) : bool := match r with NeverSet => true | _ => false end.

Record ActiveReplaySegment := mkSegment {
  seg_turn_id : option str;
  counts_as_user_turn : bool;
  seg_settings : option PreviousTurnSettings;
  seg_reference : TurnReferenceContextItem;
  seg_world : list RolloutItem;
  seg_base : option (list ResponseItem);
  seg_window : option ReconstructedWindow
}.

Definition segment_default : ActiveReplaySegment := mkSegment None false None NeverSet [] None None.

Definition turn_ids_are_compatible (active_turn_id item_turn_id : option str) : bool :=
  match active_turn_id, item_turn_id with Some a, Some b => seqb b a | _, _ => true end.

Definition parse_uuid_v7 (value : str) : option Uuid :=
  uuid ← uuid_parse_str value; if get_version_num uuid =? 7 then Some uuid else None.

Definition reconstructed_window_from_session_context_window (window_id : str) : option ReconstructedWindow :=
  id ← parse_uuid_v7 window_id; Some (mkWindow 0 (Some id) None (Some id)).

(** ** The scan from the end *)

Record Scan := mkScan {
  base : option (list ResponseItem);
  settings : option PreviousTurnSettings;
  reference : TurnReferenceContextItem;
  world_replay : list RolloutItem;
  window : option ReconstructedWindow;
  pending_rollback_turns : N;
  rollout_suffix : list RolloutItem;
  active : option ActiveReplaySegment
}.

Definition finalize_active_segment (seg : ActiveReplaySegment) (s : Scan) : Scan :=
  if 0 <? pending_rollback_turns s then
    mkScan (base s) (settings s) (reference s) (world_replay s) (window s)
      (if counts_as_user_turn seg then pending_rollback_turns s - 1 else pending_rollback_turns s)
      (rollout_suffix s) (active s)
  else
    mkScan
      (match base s with Some b => Some b | None => seg_base seg end)
      (match settings s with
       | Some p => Some p
       | None => if counts_as_user_turn seg then seg_settings seg else None
       end)
      (if is_never_set (reference s) &&
          (counts_as_user_turn seg || match seg_reference seg with Cleared => true | _ => false end)
       then seg_reference seg else reference s)
      (world_replay s ++ seg_world seg)
      (match window s with Some w => Some w | None => seg_window seg end)
      (pending_rollback_turns s) (rollout_suffix s) (active s).

Definition set_active (seg : option ActiveReplaySegment) (s : Scan) : Scan :=
  mkScan (base s) (settings s) (reference s) (world_replay s) (window s) (pending_rollback_turns s)
    (rollout_suffix s) seg.
Definition set_suffix (suffix : list RolloutItem) (s : Scan) : Scan :=
  mkScan (base s) (settings s) (reference s) (world_replay s) (window s) (pending_rollback_turns s)
    suffix (active s).
Definition set_pending (n : N) (s : Scan) : Scan :=
  mkScan (base s) (settings s) (reference s) (world_replay s) (window s) n (rollout_suffix s) (active s).

(** [active_segment.get_or_insert_with(ActiveReplaySegment::default)] and a change of it. *)
Definition on_active (f : ActiveReplaySegment → ActiveReplaySegment) (s : Scan) : Scan :=
  set_active (Some (f (default segment_default (active s)))) s.

Definition seg_compacted (item : RolloutItem) (compacted : CompactedItem) (seg : ActiveReplaySegment) :
    ActiveReplaySegment :=
  mkSegment (seg_turn_id seg) (counts_as_user_turn seg) (seg_settings seg)
    (if is_never_set (seg_reference seg) then Cleared else seg_reference seg)
    (seg_world seg ++ [item])
    (match seg_base seg with Some b => Some b | None => replacement_history compacted end)
    (match seg_window seg, window_number compacted with
     | None, Some number =>
         Some (mkWindow number (first_window_id compacted ≫= parse_uuid_v7)
                 (previous_window_id compacted ≫= parse_uuid_v7) (window_id compacted ≫= parse_uuid_v7))
     | w, _ => w
     end).

Definition seg_world_state (item : RolloutItem) (seg : ActiveReplaySegment) : ActiveReplaySegment :=
  mkSegment (seg_turn_id seg) (counts_as_user_turn seg) (seg_settings seg) (seg_reference seg)
    (seg_world seg ++ [item]) (seg_base seg) (seg_window seg).

Definition seg_with_turn_id (id : option str) (seg : ActiveReplaySegment) : ActiveReplaySegment :=
  mkSegment (match seg_turn_id seg with Some t => Some t | None => id end) (counts_as_user_turn seg)
    (seg_settings seg) (seg_reference seg) (seg_world seg) (seg_base seg) (seg_window seg).

Definition seg_counts (counts : bool) (seg : ActiveReplaySegment) : ActiveReplaySegment :=
  mkSegment (seg_turn_id seg) (counts_as_user_turn seg || counts) (seg_settings seg) (seg_reference seg)
    (seg_world seg) (seg_base seg) (seg_window seg).

Definition settings_of (ctx : TurnContextItem) : PreviousTurnSettings :=
  mkSettings (context_model ctx) (context_comp_hash ctx) (context_realtime_active ctx).

Definition seg_turn_context (ctx : TurnContextItem) (seg : ActiveReplaySegment) : ActiveReplaySegment :=
  let seg := seg_with_turn_id (context_turn_id ctx) seg in
  if turn_ids_are_compatible (seg_turn_id seg) (context_turn_id ctx) then
    mkSegment (seg_turn_id seg) (counts_as_user_turn seg) (Some (settings_of ctx))
      (if is_never_set (seg_reference seg) then Latest ctx else seg_reference seg)
      (seg_world seg) (seg_base seg) (seg_window seg)
  else seg.

#[local] Abbreviation boundary := (is_user_turn_boundary hook_run_id_of_xml is_agent_json).

(** One item; [newer] is [rollout_items[index + 1..]]. *)
Definition scan_item (item : RolloutItem) (newer : list RolloutItem) (s : Scan) : Scan :=
  match item with
  | Compacted compacted =>
      let seg := default segment_default (active s) in
      let s := on_active (seg_compacted item compacted) s in
      match seg_base seg, replacement_history compacted with
      | None, Some _ => set_suffix newer s
      | _, _ => s
      end
  | RolloutEvent (ThreadRolledBack num_turns) => set_pending (sat_add (pending_rollback_turns s) num_turns) s
  | RolloutEvent (TurnComplete turn_id) => on_active (seg_with_turn_id (Some turn_id)) s
  | RolloutEvent (TurnAborted turn_id) =>
      match active s, turn_id with
      | Some seg, _ => set_active (Some (seg_with_turn_id turn_id seg)) s
      | None, Some turn_id => set_active (Some (seg_with_turn_id (Some turn_id) segment_default)) s
      | None, None => s
      end
  | RolloutEvent UserMessageEvent => on_active (seg_counts true) s
  | RolloutTurnContext ctx => on_active (seg_turn_context ctx) s
  | RolloutWorldState _ => on_active (seg_world_state item) s
  | RolloutEvent (TurnStarted turn_id) =>
      match active s with
      | Some seg =>
          if turn_ids_are_compatible (seg_turn_id seg) (Some turn_id)
          then finalize_active_segment seg (set_active None s)
          else s
      | None => s
      end
  | RolloutResponse response_item => on_active (seg_counts (boundary response_item)) s
  | RolloutCommunication _ => on_active (seg_counts true) s
  | RolloutEvent (OtherEvent _) | SessionMeta _ | RolloutCommunicationMetadata _ => s
  end.

(** Whether the loop breaks. *)
Definition scan_done (s : Scan) : bool :=
  match base s, settings s with Some _, Some _ => negb (is_never_set (reference s)) | _, _ => false end.

Fixpoint scan (newer older : list RolloutItem) (s : Scan) : Scan :=
  match older with
  | [] => s
  | item :: older =>
      let s := scan_item item newer s in
      if scan_done s then s else scan (item :: newer) older s
  end.

Definition scan_finish (s : Scan) : Scan :=
  match active s with
  | Some seg => finalize_active_segment seg (set_active None s)
  | None => s
  end.

Definition scan_start (rollout_items : list RolloutItem) : Scan :=
  mkScan None None NeverSet [] None 0 rollout_items None.

Definition scanned (rollout_items : list RolloutItem) : Scan :=
  scan_finish (scan [] (rev rollout_items) (scan_start rollout_items)).

(** ** The replay forward *)

Abbreviation History := (ContextManager TurnContextItem WorldStateSnapshot).

Definition replay_item (policy : TruncationPolicy) (h : History) (item : RolloutItem) : option History :=
  match item with
  | RolloutResponse response_item => record_items estimate_audio_token_count [response_item] policy h
  | RolloutCommunication communication =>
      record_items estimate_audio_token_count [to_model_input_item communication] policy h
  | Compacted compacted =>
      match replacement_history compacted with
      | Some replacement_history => Some (replace replacement_history h)
      | None =>
          let user_messages := collect_user_messages hook_run_id_of_xml (items h) in
          rebuilt ← build_compacted_history [] user_messages (summary_message compacted);
          Some (replace rebuilt h)
      end
  | RolloutEvent (ThreadRolledBack num_turns) =>
      drop_last_n_user_turns hook_run_id_of_xml is_agent_json num_turns h
  | _ => Some h
  end.

Fixpoint replay_items (policy : TruncationPolicy) (l : list RolloutItem) (h : History) : option History :=
  match l with
  | [] => Some h
  | item :: l => h ← replay_item policy h item; replay_items policy l h
  end.

Definition is_legacy_compaction (item : RolloutItem) : bool :=
  match item with Compacted c => match replacement_history c with None => true | Some _ => false end | _ => false end.
Definition is_compacted (item : RolloutItem) : bool := match item with Compacted _ => true | _ => false end.

(** ** The world state *)

Definition replay_world_item (baseline : option WorldStateSnapshot) (item : RolloutItem) : option WorldStateSnapshot :=
  match item with
  | Compacted _ => None
  | RolloutWorldState world_state =>
      if item_full world_state then snapshot_from_value (item_state world_state)
      else match baseline with
           | None => None
           | Some baseline => apply_merge_patch (item_state world_state) baseline
           end
  | _ => baseline
  end.

Definition replay_world (l : list RolloutItem) : option WorldStateSnapshot := foldl replay_world_item None l.

(** ** The result *)

Record RolloutReconstruction := mkReconstruction {
  r_history : list ResponseItem;
  r_settings : option PreviousTurnSettings;
  r_reference : option TurnContextItem;
  r_world : option WorldStateSnapshot;
  r_window_number : N;
  r_first_window_id : option Uuid;
  r_previous_window_id : option Uuid;
  r_window_id : option Uuid
}.

Definition initial_window (rollout_items : list RolloutItem) : option ReconstructedWindow :=
  let has_legacy_compaction_without_window_number :=
    existsb (fun item => match item with
                         | Compacted c => match window_number c with None => true | Some _ => false end
                         | _ => false
                         end) rollout_items in
  if has_legacy_compaction_without_window_number then None
  else head (omap (fun item => match item with
                               | SessionMeta (Some id) => reconstructed_window_from_session_context_window id
                               | _ => None
                               end) rollout_items).

Definition fallback_window_number (rollout_items : list RolloutItem) : N :=
  vec_len (List.filter is_compacted rollout_items).

(** [reconstruct_history_from_rollout], given what the scan found. *)
Definition reconstruct (policy : TruncationPolicy) (rollout_items : list RolloutItem) (s : Scan) :
    option RolloutReconstruction :=
  history ← history_new debug_assertions;
  let history := match base s with Some b => replace b history | None => history end in
  history ← replay_items policy (rollout_suffix s) history;
  let saw_legacy_compaction_without_replacement_history := existsb is_legacy_compaction (rollout_suffix s) in
  let reference_context_item :=
    if saw_legacy_compaction_without_replacement_history then None
    else match reference s with Latest item => Some item | _ => None end in
  let w := match window s, initial_window rollout_items with
           | Some w, _ | None, Some w => w
           | None, None => mkWindow (fallback_window_number rollout_items) None None None
           end in
  Some (mkReconstruction (items history) (settings s) reference_context_item (replay_world (rev (world_replay s)))
          (win_number w) (win_first_id w) (win_previous_id w) (win_id w)).

Definition reconstruct_history_from_rollout (policy : TruncationPolicy) (rollout_items : list RolloutItem) :
    option RolloutReconstruction :=
  reconstruct policy rollout_items (scanned rollout_items).
End replay.
