(* ===== verification/RolloutReplayFacts.v ===== *)
(** * Resuming finds the history that was

    The scan from the end and its early stop are an optimisation: what they leave to replay
    gives the same history as replaying the whole rollout, as long as a checkpoint survives. *)

From S2P Require Import Prelude RustStr MachineInt ResponseModel Truncate TruncateFacts ContextFragments.
From S2P Require Import Compact WorldState WorldStateFacts History HistoryFacts HistoryTurns RolloutReplay.
Open Scope nat_scope.

Section facts.
Context (debug_assertions : bool) (xml : str → option str) (json : str → bool) (audio : str → N).
Context {Uuid : Type} (uuid_parse_str : str → option Uuid) (get_version_num : Uuid → N).
Context {Other : Type} (policy : TruncationPolicy).

#[local] Abbreviation Item := (RolloutItem (OtherSettings := Other)).
#[local] Abbreviation Hist := (ContextManager (TurnContextItem (OtherSettings := Other)) WorldStateSnapshot).
#[local] Abbreviation State := (Scan (Uuid := Uuid) (OtherSettings := Other)).
#[local] Abbreviation Seg := (ActiveReplaySegment (Uuid := Uuid) (OtherSettings := Other)).
#[local] Abbreviation replay1 := (replay_item xml json audio policy).
#[local] Abbreviation replay := (replay_items xml json audio policy).
#[local] Abbreviation visit := (scan_item xml json uuid_parse_str get_version_num).
#[local] Abbreviation loop := (scan xml json uuid_parse_str get_version_num).
#[local] Abbreviation found := (scanned xml json uuid_parse_str get_version_num).

(** ** Replaying forward *)

(** An item whose replay cannot fail: tool output of a size a string can have, and no
    compaction of the format without a replacement history. *)
Definition storable (item : Item) : Prop :=
  match item with
  | RolloutResponse item => ∀ p, payload item = Some p → payload_fits p
  | Compacted c => replacement_history c ≠ None
  | _ => True
  end.

Lemma replay1_total item (h : Hist) : storable item → is_Some (replay1 h item).
Proof.
  destruct item as [w|item|c|b|c|ctx|w|e]; cbn [storable replay_item]; intros H; try by eexists.
  - cbn [record_items]. destruct (is_api_message item); [|by eexists].
    destruct (process_item_bound audio policy item H) as (r & -> & _). by eexists.
  - destruct (replacement_history c); [by eexists|done].
  - destruct e; try by eexists. apply drop_turns_total.
Qed.

Lemma replay_total l (h : Hist) : Forall storable l → is_Some (replay l h).
Proof.
  intros Hl. revert h. induction Hl as [|x l Hx _ IH]; intros h; cbn [replay_items]; [by eexists|].
  destruct (replay1_total x h Hx) as [h' ->]. apply IH.
Qed.

Lemma replay_app l l' (h : Hist) : replay (l ++ l') h = replay l h ≫= replay l'.
Proof.
  revert h. induction l as [|x l IH]; intros h; cbn [replay_items app]; [done|].
  destruct (replay1 h x) as [h'|]; cbn [mbind option_bind]; [apply IH|done].
Qed.

(** The items after a replay depend on the items before it only. *)
Lemma replay1_items item (h h' : Hist) : items h = items h' → items <$> replay1 h item = items <$> replay1 h' item.
Proof.
  intros E. destruct item as [w|item|c|b|c|ctx|w|e]; cbn [replay_item fmap option_fmap option_map]; try by rewrite E.
  - cbn [record_items]. destruct (is_api_message item); [|by cbn; rewrite E].
    destruct (process_item audio item policy); [|done]. cbn. by rewrite E.
  - cbn. by rewrite E.
  - destruct (replacement_history c); [done|]. rewrite E. by destruct (build_compacted_history _ _ _).
  - destruct e as [n|t|t| |t|]; cbn; try by rewrite E. unfold drop_last_n_user_turns. rewrite E. destruct (n =? 0)%N; [by cbn; rewrite E|].
    destruct (user_message_positions xml json (items h')); [done|]. destruct (if _ : bool then _ else _); [|done].
    cbn [mbind option_bind]. by destruct (trim_pre_turn_context_updates _ _ _ _).
Qed.

Lemma replay_items_ext l (h h' : Hist) : items h = items h' → items <$> replay l h = items <$> replay l h'.
Proof.
  revert h h'. induction l as [|x l IH]; intros h h' E; cbn [replay_items]; [cbn; by rewrite E|].
  pose proof (replay1_items x h h' E) as Hx. destruct (replay1 h x), (replay1 h' x); try done.
  cbn [mbind option_bind]. apply IH. by injection Hx.
Qed.

(** A checkpoint makes what came before it irrelevant. *)
Lemma replay_checkpoint l c l' b (h h' : Hist) :
  Forall storable l → replacement_history c = Some b →
  items <$> replay (l ++ Compacted c :: l') h = items <$> replay l' (replace b h').
Proof.
  intros Hl Hc. rewrite replay_app. destruct (replay_total l h Hl) as [h1 ->]. cbn [mbind option_bind replay_items replay_item].
  rewrite Hc. cbn [mbind option_bind]. by apply replay_items_ext.
Qed.

(** ** What the scan finds *)

Definition is_checkpoint (item : Item) : bool :=
  match item with Compacted c => match replacement_history c with Some _ => true | None => false end | _ => false end.

(** [b] is the replacement history of a compaction among the visited items, and the suffix to
    replay starts behind it or contains it. *)
Definition checkpoint_at (visited suffix : list Item) (b : list ResponseItem) : Prop :=
  ∃ c l1 l2, replacement_history c = Some b ∧ visited = l1 ++ Compacted c :: l2 ∧
    (suffix = l2 ∨ ∃ l3, suffix = l3 ++ Compacted c :: l2).

Lemma checkpoint_visit x visited suffix b : checkpoint_at visited suffix b → checkpoint_at (x :: visited) suffix b.
Proof. intros (c & l1 & l2 & Hc & -> & H). exists c, (x :: l1), l2. by split_and!. Qed.

Lemma checkpoint_restart x visited suffix b : checkpoint_at visited suffix b → checkpoint_at (x :: visited) visited b.
Proof. intros (c & l1 & l2 & Hc & -> & H). exists c, (x :: l1), l2. split_and!; [done|done|right; eauto]. Qed.

Record scan_ok (whole visited : list Item) (s : State) : Prop := mkScanOk {
  ok_base b : base s = Some b → checkpoint_at visited (rollout_suffix s) b;
  ok_active seg b : active s = Some seg → seg_base seg = Some b → checkpoint_at visited (rollout_suffix s) b;
  ok_suffix : (∀ x, x ∈ visited → is_checkpoint x = false) → rollout_suffix s = whole;
  ok_sub x : x ∈ rollout_suffix s → x ∈ whole
}.

(** A visit that leaves the suffix alone and takes no base from nowhere. *)
Lemma scan_ok_same whole visited x s s' :
  scan_ok whole visited s → rollout_suffix s' = rollout_suffix s →
  (∀ b, base s' = Some b → base s = Some b ∨ ∃ seg, active s = Some seg ∧ seg_base seg = Some b) →
  (∀ seg' b, active s' = Some seg' → seg_base seg' = Some b → ∃ seg, active s = Some seg ∧ seg_base seg = Some b) →
  scan_ok whole (x :: visited) s'.
Proof.
  intros [Hb Ha Hs Hsub] Es Eb Ea. split.
  - intros b H. rewrite Es. apply checkpoint_visit. destruct (Eb b H) as [?|(seg & ? & ?)]; eauto.
  - intros seg b H1 H2. rewrite Es. apply checkpoint_visit. destruct (Ea seg b H1 H2) as (seg0 & ? & ?). eauto.
  - intros Hx. rewrite Es. apply Hs. intros y Hy. apply Hx. by right.
  - rewrite Es. apply Hsub.
Qed.

Lemma on_active_ok whole visited x f s :
  (∀ seg, seg_base (f seg) = seg_base seg) → scan_ok whole visited s → scan_ok whole (x :: visited) (on_active f s).
Proof.
  intros Hf Hs. apply (scan_ok_same _ _ _ _ _ Hs); cbn; [done|auto|]. intros seg b [= <-]. rewrite Hf.
  destruct (active s) as [seg|]; cbn; [eauto|done].
Qed.

Lemma finalize_base seg s b :
  base (finalize_active_segment seg s) = Some b → base s = Some b ∨ seg_base (Uuid := Uuid) (OtherSettings := Other) seg = Some b.
Proof. unfold finalize_active_segment. case_match; cbn; [auto|]. destruct (base s); auto. Qed.

Lemma finalize_suffix (seg : Seg) s : rollout_suffix (finalize_active_segment seg s) = rollout_suffix s.
Proof. unfold finalize_active_segment. by case_match. Qed.

Lemma finalize_active (seg : Seg) s : active (finalize_active_segment seg s) = active s.
Proof. unfold finalize_active_segment. by case_match. Qed.

Lemma visit_ok whole visited x s :
  (∀ y, y ∈ visited → y ∈ whole) → scan_ok whole visited s → scan_ok whole (x :: visited) (visit x visited s).
Proof.
  intros Hw Hs. pose proof (scan_ok_same whole visited x s s Hs eq_refl) as Hid.
  assert (Hsame : scan_ok whole (x :: visited) s) by (apply Hid; eauto). clear Hid.
  destruct x as [w|item|c|t|c|ctx|w|e]; cbn [scan_item]; try done; try by apply on_active_ok.
  - (* a compaction *)
    destruct Hs as [Hb Ha Hsuf Hsub].
    destruct (seg_base (default segment_default (active s))) as [b0|] eqn:Eb0.
    { apply (scan_ok_same _ visited _ s); [by split|done|by left|]. cbn. intros seg b [= <-]. cbn. rewrite Eb0.
      intros [= <-]. destruct (active s) as [seg|]; cbn in Eb0; [by exists seg|done]. }
    destruct (replacement_history c) as [b0|] eqn:Ec.
    + split; cbn.
      * intros b H. eapply checkpoint_restart; eauto.
      * intros seg b [= <-]. cbn. rewrite Eb0, Ec. intros [= <-]. exists c, [], visited. auto.
      * intros Hno. exfalso. assert (is_checkpoint (Compacted c) = true) by (cbn; by rewrite Ec).
        rewrite (Hno (Compacted c)) in H by left. done.
      * apply Hw.
    + apply (scan_ok_same _ visited _ s); [by split|done|by left|]. cbn. intros seg b [= <-]. cbn. by rewrite Eb0, Ec.
  - apply on_active_ok; [|done]. intros seg. unfold seg_turn_context. by case_match.
  - destruct e as [n|t|[t|]| |t|]; try done; try by apply on_active_ok.
    + by apply (scan_ok_same _ _ _ _ _ Hs); cbn; eauto.
    + destruct (active s) as [seg|] eqn:Ea.
      * apply (scan_ok_same _ _ _ _ _ Hs); cbn; [done|auto|]. intros seg' b [= <-]. cbn. eauto.
      * apply (scan_ok_same _ _ _ _ _ Hs); cbn; [done|auto|]. by intros seg' b [= <-].
    + destruct (active s) as [seg|] eqn:Ea; [|done].
      apply (scan_ok_same _ _ _ _ _ Hs); cbn; [done|auto|]. intros seg' b [= <-]. cbn. eauto.
    + destruct (active s) as [seg|] eqn:Ea; [|done]. destruct (turn_ids_are_compatible _ _); [|done].
      apply (scan_ok_same _ _ _ _ _ Hs).
      * by rewrite finalize_suffix.
      * intros b [H|H]%finalize_base; eauto.
      * rewrite finalize_active. done.
Qed.

(** The loop keeps what every visit keeps, and stops at the beginning of the rollout or with a
    checkpoint. *)
Lemma loop_invariant (P : list Item → State → Prop) whole newer older s :
  (∀ x visited s, x ∈ whole → (∀ y, y ∈ visited → y ∈ whole) → P visited s → P (x :: visited) (visit x visited s)) →
  whole = rev older ++ newer → P newer s →
  ∃ l visited, whole = l ++ visited ∧ P visited (loop newer older s) ∧ (l = [] ∨ base (loop newer older s) ≠ None).
Proof.
  intros HP. revert newer s. induction older as [|x older IH]; intros newer s Hw Hs; cbn [scan rev app] in *.
  { exists [], newer. auto. }
  rewrite <- app_assoc in Hw. cbn [app] in Hw.
  assert (Hx : P (x :: newer) (visit x newer s)).
  { apply HP; [|intros y Hy|done]; rewrite Hw; set_solver. }
  destruct (scan_done (visit x newer s)) eqn:Ed; [|by apply IH].
  exists (rev older), (x :: newer). split_and!; [done|done|]. right. unfold scan_done in Ed.
  by destruct (base (visit x newer s)).
Qed.

Lemma start_ok whole : scan_ok whole [] (scan_start whole).
Proof. by split; cbn. Qed.

Lemma scan_finish_ok whole visited s : scan_ok whole visited s → scan_ok whole visited (scan_finish s).
Proof.
  intros Hok. unfold scan_finish. destruct (active s) as [seg|] eqn:Ea; [|done]. destruct Hok as [Hb Ha Hs Hsub].
  split; rewrite ?finalize_suffix, ?finalize_active; cbn; try done.
  intros b [H|H]%finalize_base; eauto.
Qed.

(** What the scan leaves behind: a checkpoint of the rollout, or the whole rollout. *)
Lemma found_spec whole :
  (∀ b, base (found whole) = Some b → checkpoint_at whole (rollout_suffix (found whole)) b) ∧
  ((∀ x, x ∈ whole → is_checkpoint x = false) → rollout_suffix (found whole) = whole) ∧
  (∀ x, x ∈ rollout_suffix (found whole) → x ∈ whole).
Proof.
  unfold scanned.
  destruct (loop_invariant (scan_ok whole) whole [] (rev whole) (scan_start whole)) as (l & visited & Hw & Hok & _).
  { intros x visited s _. apply visit_ok. }
  { by rewrite rev_involutive, app_nil_r. }
  { apply start_ok. }
  apply scan_finish_ok in Hok. destruct Hok as [Hb _ Hs Hsub]. split_and!; [|intros Hno; apply Hs; intros x Hx; apply Hno; set_solver|done].
  intros b Hbase. destruct (Hb b Hbase) as (c & l1 & l2 & Hc & Hv & H). exists c, (l ++ l1), l2.
  split_and!; [done| |done]. by rewrite Hw at 1; rewrite Hv, <- app_assoc.
Qed.

(** ** Rollouts without a rollback *)

Definition is_rollback (item : Item) : bool :=
  match item with RolloutEvent (ThreadRolledBack _) => true | _ => false end.
Definition is_world (item : Item) : bool :=
  match item with Compacted _ | RolloutWorldState _ => true | _ => false end.

(** Without a rollback every segment survives: nothing of the world state is skipped, and a
    checkpoint that was seen is kept. *)
Record plain_ok (visited : list Item) (s : State) : Prop := mkPlain {
  plain_pending : pending_rollback_turns s = 0%N;
  plain_world : world_replay s ++ default [] (seg_world <$> active s) = rev (List.filter is_world visited);
  plain_base : existsb is_checkpoint visited = true →
    base s ≠ None ∨ ∃ seg, active s = Some seg ∧ seg_base seg ≠ None
}.

Lemma finalize_plain visited (s : State) seg :
  active s = Some seg → plain_ok visited s → plain_ok visited (finalize_active_segment seg (set_active None s)).
Proof.
  intros Ea [Hp Hw Hb]. rewrite Ea in Hw, Hb. cbn in Hw. unfold finalize_active_segment. cbn [pending_rollback_turns set_active].
  rewrite Hp. cbn. split; cbn; [done|by rewrite app_nil_r|]. intros Hc. left.
  destruct (base s); [done|]. destruct (Hb Hc) as [?|(seg' & [= <-] & Hseg)]; done.
Qed.

Lemma on_active_plain visited x f (s : State) :
  is_world x = false → is_checkpoint x = false → (∀ seg, seg_base (f seg) = seg_base seg ∧ seg_world (f seg) = seg_world seg) →
  plain_ok visited s → plain_ok (x :: visited) (on_active f s).
Proof.
  intros Hx Hc Hf [Hp Hw Hb]. split; cbn [on_active set_active pending_rollback_turns world_replay active base].
  - done.
  - cbn [List.filter]. rewrite Hx, <- Hw. cbn. destruct (Hf (default segment_default (active s))) as [_ ->].
    by destruct (active s).
  - cbn [existsb]. rewrite Hc. intros [?|(seg & Ea & Hseg)]%Hb; [by left|right].
    eexists. split; [done|]. destruct (Hf (default segment_default (active s))) as [-> _]. by rewrite Ea.
Qed.

Lemma visit_plain visited x (s : State) :
  is_rollback x = false → plain_ok visited s → plain_ok (x :: visited) (visit x visited s).
Proof.
  intros Hr Hs.
  assert (Hsame : is_world x = false → is_checkpoint x = false → plain_ok (x :: visited) s).
  { intros Hx Hc. destruct Hs as [Hp Hw Hb]. split; [done|cbn; by rewrite Hx|cbn; by rewrite Hc]. }
  destruct x as [w|item|c|t|c|ctx|w|e]; cbn [scan_item]; try by apply Hsame.
  - by apply on_active_plain.
  - by apply on_active_plain.
  - destruct Hs as [Hp Hw Hb].
    assert (Hbase : ∃ seg, active (on_active (seg_compacted uuid_parse_str get_version_num (Compacted c) c) s) = Some seg ∧
      seg_world seg = default [] (seg_world <$> active s) ++ [Compacted c] ∧
      (seg_base (default segment_default (active s)) ≠ None ∨ replacement_history c ≠ None → seg_base seg ≠ None)).
    { eexists. split; [reflexivity|]. cbn. split; [by destruct (active s)|].
      destruct (seg_base (default segment_default (active s))); [done|]. naive_solver. }
    destruct Hbase as (seg & Eseg & Hsw & Hsb).
    assert (Hres : plain_ok (Compacted c :: visited) (on_active (seg_compacted uuid_parse_str get_version_num (Compacted c) c) s)).
    { split; [done| |].
      - rewrite Eseg. cbn. rewrite Hsw, <- Hw. by rewrite app_assoc.
      - intros Hc. rewrite Eseg. cbn [existsb is_checkpoint] in Hc.
        destruct (replacement_history c) eqn:Ec; [right; exists seg; split; [done|]; apply Hsb; by right|].
        destruct (Hb Hc) as [?|(seg0 & Ea & Hseg)]; [by left|right]. exists seg. split; [done|]. apply Hsb. left. by rewrite Ea. }
    destruct (seg_base _); [done|]. destruct (replacement_history c); [|done]. by destruct Hres as [? ? ?]; split.
  - apply on_active_plain; try done. intros seg. unfold seg_turn_context. by case_match.
  - destruct Hs as [Hp Hw Hb]. split; cbn [on_active set_active pending_rollback_turns world_replay active base]; [done| |].
    + cbn. rewrite <- Hw, <- app_assoc. by destruct (active s).
    + cbn [existsb is_checkpoint orb]. intros [?|(seg & Ea & Hseg)]%Hb; [by left|right]. eexists. split; [done|]. by rewrite Ea.
  - destruct e as [n|t|t| |t|]; try done; try by apply on_active_plain.
    + destruct (active s) as [seg|] eqn:Ea.
      * assert (E : set_active (Some (seg_with_turn_id t seg)) s = on_active (seg_with_turn_id t) s).
        { unfold on_active. by rewrite Ea. }
        rewrite E. by apply on_active_plain.
      * destruct t as [t|]; [|by apply Hsame].
        assert (E : set_active (Some (seg_with_turn_id (Some t) segment_default)) s = on_active (seg_with_turn_id (Some t)) s).
        { unfold on_active. by rewrite Ea. }
        rewrite E. by apply on_active_plain.
    + destruct (active s) as [seg|] eqn:Ea; [|by apply Hsame]. destruct (turn_ids_are_compatible _ _); [|by apply Hsame].
      apply finalize_plain; [done|]. by apply Hsame.
    + by apply Hsame.
Qed.

(** The world state of a rollout, from any point before a compaction. *)
Lemma replay_world_compacted (l1 : list Item) c l2 w w' :
  foldl replay_world_item w (l1 ++ Compacted c :: l2) = foldl replay_world_item w' (Compacted c :: l2).
Proof. rewrite foldl_app. done. Qed.

Lemma replay_world_filter (l : list Item) w :
  foldl replay_world_item w (List.filter is_world l) = foldl replay_world_item w l.
Proof.
  revert w. induction l as [|x l IH]; intros w; cbn; [done|]. destruct x; cbn; apply IH.
Qed.

Lemma found_plain whole :
  Forall (fun x => is_rollback x = false) whole →
  (existsb is_checkpoint whole = true → base (found whole) ≠ None) ∧
  replay_world (rev (world_replay (found whole))) = replay_world whole.
Proof.
  intros Hr. unfold scanned.
  destruct (loop_invariant (fun v s => scan_ok whole v s ∧ plain_ok v s) whole [] (rev whole) (scan_start whole))
    as (l & visited & Hw & [Hok Hp] & Hl).
  { intros x visited s Hx Hv [H1 H2]. rewrite Forall_forall in Hr. split; [by apply visit_ok|apply visit_plain; auto]. }
  { by rewrite rev_involutive, app_nil_r. }
  { split; [apply start_ok|]. by split. }
  set (s := loop _ _ _) in *.
  assert (Hfin : plain_ok visited (scan_finish s) ∧ active (scan_finish s) = None).
  { unfold scan_finish. destruct (active s) as [seg|] eqn:Ea; [|done].
    split; [by apply finalize_plain|]. by rewrite finalize_active. }
  destruct Hfin as [[_ Hworld Hbase] Hnone]. rewrite Hnone in Hworld, Hbase. cbn in Hworld. rewrite app_nil_r in Hworld.
  assert (Hb : base s ≠ None → base (scan_finish s) ≠ None).
  { unfold scan_finish. destruct (active s); [|done]. unfold finalize_active_segment. case_match; cbn; [done|]. by destruct (base s). }
  split.
  - intros Hc. destruct Hl as [->|Hl]; [|auto]. cbn in Hw. subst visited.
    destruct (Hbase Hc) as [?|(seg & ? & _)]; done.
  - rewrite Hworld, rev_involutive. unfold replay_world. rewrite replay_world_filter.
    destruct Hl as [->|Hl]; [by rewrite Hw|]. destruct (base s) as [b|] eqn:Eb; [|done].
    destruct (ok_base _ _ _ Hok b Eb) as (c & l1 & l2 & _ & -> & _). rewrite Hw, app_assoc.
    by rewrite !(replay_world_compacted _ c l2 _ None).
Qed.

(** ** The history *)

(** A checkpoint can be resumed from: there is none, or none was rolled back. *)
Definition resumable (whole : list Item) : Prop :=
  existsb is_checkpoint whole = false ∨ Forall (fun x => is_rollback x = false) whole ∨ base (found whole) ≠ None.

Lemma found_replay whole (h : Hist) :
  Forall storable whole → resumable whole →
  ∃ h1 h2, replay whole h = Some h1 ∧
    replay (rollout_suffix (found whole)) match base (found whole) with Some b => replace b h | None => h end = Some h2 ∧
    items h1 = items h2.
Proof.
  intros Hst Hr. destruct (found_spec whole) as (Hb & Hs & Hsub).
  assert (Hsuf : Forall storable (rollout_suffix (found whole))).
  { rewrite Forall_forall in *. auto. }
  assert (Hno : base (found whole) = None → existsb is_checkpoint whole = false).
  { intros En. destruct Hr as [?|[Hr|Hr]]; [done| |done]. destruct (found_plain whole Hr) as [Hf _].
    destruct (existsb is_checkpoint whole); [|done]. by destruct (Hf eq_refl). }
  destruct (replay_total whole h Hst) as [h1 E1]. exists h1.
  destruct (base (found whole)) as [b|].
  - destruct (replay_total (rollout_suffix (found whole)) (replace b h) Hsuf) as [h2 E2]. exists h2. split_and!; [done|done|].
    destruct (Hb b eq_refl) as (c & l1 & l2 & Hc & Hw & H). apply (inj Some).
    change (Some (items h1)) with (items <$> Some h1). change (Some (items h2)) with (items <$> Some h2).
    assert (E : items <$> replay whole h = items <$> replay l2 (replace b h)).
    { rewrite Hw in Hst |- *. apply Forall_app in Hst as [Hst _]. by apply replay_checkpoint. }
    rewrite <- E1, <- E2, E. destruct H as [->|(l3 & E3)]; [done|].
    rewrite E3 in Hsuf |- *. apply Forall_app in Hsuf as [Hsuf _]. by rewrite (replay_checkpoint l3 c l2 b _ h).
  - exists h1. split_and!; [done| |done]. rewrite Hs; [done|]. specialize (Hno eq_refl).
    intros x Hx. destruct (is_checkpoint x) eqn:Ex; [|done].
    rewrite <- Hno. symmetry. apply existsb_exists. exists x. split; [by apply list_elem_of_In|done].
Qed.
End facts.

(** C32: resuming replays only what comes behind the newest surviving checkpoint, and finds the
    same history as a replay of the whole rollout.  This needs that every recorded item can be
    recorded again, and that a checkpoint, if there is one, survives: the rollout has no rollback,
    or the scan finds a checkpoint that was not rolled back. *)
Theorem resumed_history_is_replayed debug xml json audio {Uuid} uuid_parse_str (version : Uuid → N) {Other} policy
    (whole : list (RolloutItem (OtherSettings := Other))) :
  Forall storable whole → resumable xml json uuid_parse_str version whole →
  ∃ h0 h r, history_new debug = Some h0 ∧ replay_items xml json audio policy whole h0 = Some h ∧
    reconstruct_history_from_rollout debug xml json audio uuid_parse_str version policy whole = Some r ∧
    r_history r = items h.
Proof.
  intros Hs Hr.
  destruct (found_replay xml json audio uuid_parse_str version policy whole
    (mkContext [] 0 None None None) Hs Hr) as (h1 & h2 & E1 & E2 & E).
  exists (mkContext [] 0 None None None), h1. eexists. split; [reflexivity|]. split; [exact E1|].
  split.
  { unfold reconstruct_history_from_rollout, reconstruct. cbn [history_new new_or_append mbind option_bind].
    rewrite E2. reflexivity. }
  symmetry. exact E.
Qed.

(** *** A thread with two turns, the second of which compacts the history *)

Definition user_says (s : str) : ResponseItem := Message None (lit "user") [InputText s] None None.
Definition reply (s : str) : ResponseItem := Message None (lit "assistant") [OutputText s] None None.

Definition compacted_turn : list (RolloutItem (OtherSettings := unit)) :=
  [RolloutEvent (TurnStarted (lit "1")); RolloutResponse (user_says (lit "hello")); RolloutResponse (reply (lit "hi"));
   RolloutEvent (TurnComplete (lit "1"));
   RolloutEvent (TurnStarted (lit "2")); RolloutResponse (user_says (lit "more"));
   Compacted (mkCompactedItem [] (Some [user_says (lit "hello"); user_says (lit "more")]) (Some 1%N) None None None);
   RolloutResponse (reply (lit "done")); RolloutEvent (TurnComplete (lit "2"))].

Lemma resumed_history_is_replayed_witness :
  ∃ h0 h r, history_new true = Some h0 ∧
    replay_items (fun _ => None) (fun _ => false) (fun _ => 0%N) (Bytes 100) compacted_turn h0 = Some h ∧
    reconstruct_history_from_rollout true (fun _ => None) (fun _ => false) (fun _ => 0%N) (fun _ => None)
      (fun _ : unit => 7%N) (Bytes 100) compacted_turn = Some r ∧
    r_history r = items h.
Proof.
  apply (resumed_history_is_replayed true (fun _ => None) (fun _ => false) (fun _ => 0%N) (fun _ => None)
    (fun _ : unit => 7%N) (Bytes 100) compacted_turn).
  - repeat (apply Forall_cons_2; [try exact I; try (intros ? [=]); discriminate|]). constructor.
  - right. left. repeat (apply Forall_cons_2; [reflexivity|]). constructor.
Defined.

(** When the turn with the checkpoint is rolled back, the scan still cuts the rollout behind the
    checkpoint but has no history to start from: the first turn is lost, and what the second one
    said behind the checkpoint is kept. *)
Lemma rolled_back_checkpoint_loses_history :
  let whole := compacted_turn ++ [RolloutEvent (ThreadRolledBack 1)] in
  (∃ r, reconstruct_history_from_rollout true (fun _ => None) (fun _ => false) (fun _ => 0%N) (fun _ => None)
      (fun _ : unit => 7%N) (Bytes 100) whole = Some r ∧ r_history r = [reply (lit "done")]) ∧
  (∃ h0 h, history_new true = Some h0 ∧
    replay_items (fun _ => None) (fun _ => false) (fun _ => 0%N) (Bytes 100) whole h0 = Some h ∧
    items h = [user_says (lit "hello")]).
Proof.
  split.
  - eexists. split; [vm_compute; reflexivity|]. vm_compute. reflexivity.
  - eexists. eexists. split; [reflexivity|]. split; [vm_compute; reflexivity|]. vm_compute. reflexivity.
Qed.
