(* ===== verification/ThreadSession.v ===== *)
(** * A thread and its rollout

    [codex-rs/core/src/session/mod.rs]: the operations of a session that change the history of
    its thread and append to its rollout, and the theorem that resuming from the rollout finds
    the history and the world state of the live thread. *)

From S2P Require Import Prelude RustStr MachineInt ResponseModel Truncate TruncateFacts ContextFragments.
From S2P Require Import Compact WorldState WorldStateFacts History HistoryFacts HistoryTurns RolloutReplay RolloutReplayFacts.
Open Scope nat_scope.

(** ** [context_manager/updates.rs] *)

(** A [dyn ContextualUserFragment], by its role and what it renders to. *)
Record Rendered := mkRendered { fragment_role : str; fragment_text : str }.

Definition push_fragment (messages : list (str * list str)) (f : Rendered) : list (str * list str) :=
  match last messages with
  | Some (previous_role, text_sections) =>
      if seqb previous_role (fragment_role f)
      then removelast messages ++ [(previous_role, text_sections ++ [fragment_text f])]
      else messages ++ [(fragment_role f, [fragment_text f])]
  | None => messages ++ [(fragment_role f, [fragment_text f])]
  end.

Definition build_text_message (role : str) (text_sections : list str) : option ResponseItem :=
  match text_sections with
  | [] => None
  | _ => Some (Message None role (map InputText text_sections) None None)
  end.

Definition merge_contextual_fragments (fragments : list Rendered) : list ResponseItem :=
  omap (fun '(role, text_sections) => build_text_message role text_sections) (foldl push_fragment [] fragments).

(** ** [rollout/src/policy.rs]: what is kept in a rollout *)

Inductive ThreadHistoryMode := Legacy | Paginated.

Definition should_persist_response_item (item : ResponseItem) : bool :=
  match item with
  | Message _ _ _ _ _ | AgentMessage _ _ _ _ _ | Reasoning _ _ _ _ _ | LocalShellCall _ _ _ _ _
  | FunctionCall _ _ _ _ _ _ | ToolSearchCall _ _ _ _ _ _ | FunctionCallOutput _ _ _ _ | ToolSearchOutput _ _ _ _ _ _
  | CustomToolCall _ _ _ _ _ _ _ | CustomToolCallOutput _ _ _ _ _ | WebSearchCall _ _ _ _
  | ImageGenerationCall _ _ _ _ _ | Compaction _ _ _ | ContextCompaction _ _ _ => true
  | AdditionalTools _ _ _ | CompactionTrigger | ResponseModel.Other => false
  end.

Definition should_persist_event_msg (ev : EventMsg) (history_mode : ThreadHistoryMode) : bool :=
  match ev with
  | OtherEvent (ItemCompleted plan_or_sleep) =>
      match history_mode with Paginated => true | Legacy => false end || plan_or_sleep
  | OtherEvent (TokenCount | ThreadGoalUpdated | ThreadSettingsApplied)
  | ThreadRolledBack _ | TurnAborted _ | TurnStarted _ | TurnComplete _ => true
  | UserMessageEvent
  | OtherEvent (AgentMessageEvent | AgentReasoning | AgentReasoningRawContent | EnteredReviewMode | ExitedReviewMode
      | PatchApplyEnd | ContextCompacted | McpToolCallEnd | WebSearchEnd | ImageGenerationEnd | SubAgentActivity) =>
      match history_mode with Legacy => true | Paginated => false end
  | OtherEvent TransientEvent => false
  end.

Section thread.
Context (history_mode : ThreadHistoryMode) (policy : TruncationPolicy) (audio : str → N).
Context {Other : Type} `{!EqDecision Other}.
#[local] Abbreviation Ctx := (TurnContextItem (OtherSettings := Other)).
#[local] Abbreviation Item := (RolloutItem (OtherSettings := Other)).

Definition is_persisted_rollout_item (item : Item) : bool :=
  match item with
  | RolloutResponse item => should_persist_response_item item
  | RolloutCommunication _ | RolloutCommunicationMetadata _ => true
  | RolloutEvent ev => should_persist_event_msg ev history_mode
  | Compacted _ | RolloutTurnContext _ | RolloutWorldState _ | SessionMeta _ => true
  end.

Definition persisted_rollout_items (l : list Item) : list Item := filter is_persisted_rollout_item l.
#[local] Abbreviation Hist := (ContextManager Ctx WorldStateSnapshot).
#[local] Abbreviation World := (WorldState Rendered).

#[export] Instance TurnContextItem_eq_dec : EqDecision Ctx.
Proof. solve_decision. Defined.

(** [ContextManager::update_world_state] *)
Definition update_world_state (world_state : World) (h : Hist) : list Rendered * option WorldStateItem * Hist :=
  let snap := snapshot world_state in
  let fragments := render_history_diff (world_state_baseline h) (items h) world_state in
  let rollout_item :=
    match world_state_baseline h with
    | None => Some (full_item (into_value snap))
    | Some previous => patch_item <$> merge_patch_from snap previous
    end in
  (fragments, rollout_item, set_world_state_baseline (Some snap) h).

(** ** The live thread: its history, what has been persisted, and the world state [run_turn] holds *)

Record Thread := mkThread {
  history : Hist;
  rollout : list Item;
  turn_world : option World
}.

Definition thread_new (h : Hist) : Thread := mkThread h [] None.

Definition with_history (h : Hist) (t : Thread) : Thread := mkThread h (rollout t) (turn_world t).
(** The append reaches the file: the code logs a failure of the store and goes on. *)
Definition persist_rollout_items (l : list Item) (t : Thread) : Thread :=
  mkThread (history t) (rollout t ++ persisted_rollout_items l) (turn_world t).
Definition with_world (w : option World) (t : Thread) : Thread := mkThread (history t) (rollout t) w.

Definition record_conversation_items (new_items : list ResponseItem) (t : Thread) : option Thread :=
  h ← record_items audio new_items policy (history t);
  Some (persist_rollout_items (map RolloutResponse new_items) (with_history h t)).

(** [if !items.is_empty() { record_conversation_items(..) }] *)
Definition record_unless_empty (new_items : list ResponseItem) (t : Thread) : option Thread :=
  match new_items with [] => Some t | _ => record_conversation_items new_items t end.

Definition persist_world_state (item : option WorldStateItem) (t : Thread) : Thread :=
  match item with Some item => persist_rollout_items [RolloutWorldState item] t | None => t end.

Definition record_context_updates_and_set_reference_context_item (world_state : World) (turn_context_item : Ctx)
    (initial_context settings_updates contributions : list ResponseItem) (t : Thread) : option Thread :=
  let reference := reference_context_item (history t) in
  let turn_context_changed := bool_decide (reference ≠ Some turn_context_item) in
  let '(context_items, world_state_item, h) :=
    match reference with
    | None =>
        let snap := snapshot world_state in
        (initial_context, Some (full_item (into_value snap)), set_world_state_baseline (Some snap) (history t))
    | Some _ =>
        let '(fragments, rollout_item, h) := update_world_state world_state (history t) in
        (settings_updates ++ merge_contextual_fragments fragments, rollout_item, h)
    end in
  let should_inject_full_context := match reference with None => true | Some _ => false end in
  let context_items :=
    if negb should_inject_full_context && turn_context_changed then context_items ++ contributions else context_items in
  let only_world_state_changed := negb turn_context_changed && match context_items with [] => true | _ => false end in
  let t := with_world (Some world_state) (with_history h t) in
  if only_world_state_changed && match world_state_item with None => true | _ => false end then Some t
  else
    t ← record_unless_empty context_items t;
    let t := persist_world_state world_state_item t in
    if only_world_state_changed then Some t
    else
      let t := persist_rollout_items [RolloutTurnContext turn_context_item] t in
      Some (with_history (set_reference_context_item (Some turn_context_item) (history t)) t).

Definition record_step_world_state_if_changed (previous_world_state world_state : World) (t : Thread) : option Thread :=
  let previous_snapshot := snapshot previous_world_state in
  let world_state_snapshot := snapshot world_state in
  let world_state_item := patch_item <$> merge_patch_from world_state_snapshot previous_snapshot in
  t ← record_unless_empty (merge_contextual_fragments (render_diff previous_snapshot world_state)) t;
  let t := with_history (set_world_state_baseline (Some world_state_snapshot) (history t)) t in
  Some (with_world (Some world_state) (persist_world_state world_state_item t)).

Record CompactedHistoryMetadata := mkMetadata {
  metadata_message : str;
  metadata_window_number : N;
  metadata_first_window_id : str;
  metadata_previous_window_id : option str;
  metadata_window_id : str
}.

Definition replace_compacted_history (new_items : list ResponseItem) (reference : option Ctx)
    (world_state_baseline : option World) (metadata : CompactedHistoryMetadata) (t : Thread) : Thread :=
  let compacted_item := mkCompactedItem (metadata_message metadata) (Some new_items)
    (Some (metadata_window_number metadata)) (Some (metadata_first_window_id metadata))
    (metadata_previous_window_id metadata) (Some (metadata_window_id metadata)) in
  let h := set_reference_context_item reference (replace new_items (history t)) in
  let '(h, world_state_item) :=
    match world_state_baseline with
    | Some world_state =>
        let snap := snapshot world_state in
        (set_world_state_baseline (Some snap) h, Some (full_item (into_value snap)))
    | None => (h, None)
    end in
  let t := persist_rollout_items [Compacted compacted_item] (with_history h t) in
  let t := persist_world_state world_state_item t in
  match reference with
  | Some turn_context_item => persist_rollout_items [RolloutTurnContext turn_context_item] t
  | None => t
  end.

(** ** Steps of a thread that is not rolled back *)

Definition recordable (l : list ResponseItem) : Prop := ∀ item p, item ∈ l → payload item = Some p → payload_fits p.
Definition world_ok (w : World) : Prop := Forall (fun '(_, s) => erased_ok s) (world_sections w).

(** [run_turn] records the context once, then steps; it compacts before that without a world
    state and later with the one it holds. *)
Inductive thread_step : Thread → Thread → Prop :=
| step_items l t t' : recordable l → record_conversation_items l t = Some t' → thread_step t t'
| step_context w ctx initial updates contributions t t' :
    world_ok w → recordable (initial ++ updates ++ contributions) →
    record_context_updates_and_set_reference_context_item w ctx initial updates contributions t = Some t' →
    thread_step t t'
| step_world previous w t t' :
    world_ok w → turn_world t = Some previous → record_step_world_state_if_changed previous w t = Some t' →
    thread_step t t'
| step_compact_before_turn l metadata t :
    turn_world t = None → thread_step t (replace_compacted_history l None None metadata t)
| step_compact_in_turn l ctx w metadata t :
    turn_world t = Some w → thread_step t (replace_compacted_history l (Some ctx) (Some w) metadata t)
| step_event e t :
    (∀ n, e ≠ ThreadRolledBack n) → thread_step t (persist_rollout_items [RolloutEvent e] t)
| step_turn_ends t : thread_step t (with_world None t).

(** ** The rollout of a live thread *)

Context (xml : str → option str) (json : str → bool) (h0 : Hist).
#[local] Abbreviation replay := (replay_items xml json audio policy).

(** [found] is [live] with at most items missing that a rollout does not keep. *)
Definition resumes (found live : list ResponseItem) : Prop :=
  found `sublist_of` live ∧ filter should_persist_response_item found = filter should_persist_response_item live.

(** The history is what replaying the rollout gives, but for what is not persisted. *)
Record log_ok (t : Thread) : Prop := mkLogOk {
  log_items : ∃ h, replay (rollout t) h0 = Some h ∧ resumes (items h) (items (history t));
  log_plain : Forall (fun x => is_rollback x = false) (rollout t);
  log_storable : Forall storable (rollout t)
}.

Definition world_sync (replayed live : option WorldStateSnapshot) : Prop :=
  match replayed, live with
  | None, None => True
  | Some r, Some b => snapshot_wf r ∧ snapshot_clean b ∧ r ≡ b
  | _, _ => False
  end.

(** The world state is, and the turn steps from what the model has been told. *)
Record thread_ok (t : Thread) : Prop := mkThreadOk {
  thread_log : log_ok t;
  thread_world : world_sync (replay_world (rollout t)) (world_state_baseline (history t));
  thread_turn w : turn_world t = Some w → world_ok w ∧ world_state_baseline (history t) = Some (snapshot w)
}.

Lemma replay_responses l (h : Hist) : replay (map RolloutResponse l) h = record_items audio l policy h.
Proof.
  revert h. induction l as [|x l IH]; intros h; cbn [map replay_items]; [done|]. cbn [replay_item record_items].
  destruct (is_api_message x); cbn [mbind option_bind]; [|apply IH].
  destruct (process_item audio x policy); cbn [mbind option_bind]; [apply IH|done].
Qed.

Lemma resumes_refl l : resumes l l.
Proof. by split. Qed.

Lemma resumes_app found live found' live' :
  resumes found live → resumes found' live' → resumes (found ++ found') (live ++ live').
Proof. intros [H1 E1] [H2 E2]. split; [by apply sublist_app|]. by rewrite !filter_app, E1, E2. Qed.

Lemma filter_kept l : Forall should_persist_response_item l → filter should_persist_response_item l = l.
Proof. induction 1 as [|x l Hx _ IH]; [done|]. by rewrite filter_cons_True, IH. Qed.

(** Nothing is missing from a history of which everything is kept. *)
Lemma resumes_all found live : resumes found live → Forall should_persist_response_item live → found = live.
Proof.
  intros [Hs E] Hl. rewrite (filter_kept live Hl) in E. rewrite <- E. symmetry.
  apply filter_kept. apply Forall_forall. intros x Hx. rewrite Forall_forall in Hl. apply Hl.
  by eapply sublist_subseteq.
Qed.

Lemma process_keeps_kind item item' :
  process_item audio item policy = Some item' → should_persist_response_item item' = should_persist_response_item item.
Proof.
  destruct item; cbn [process_item]; intros E; try (apply (inj Some) in E; by subst);
    (destruct (truncate_function_output_payload _ _ _); [|done]; cbn [mbind option_bind] in E; apply (inj Some) in E; by subst).
Qed.

(** Recording what a rollout keeps, and recording everything. *)
Lemma record_resumes l (h g : Hist) g' :
  resumes (items h) (items g) → record_items audio l policy g = Some g' →
  ∃ h', record_items audio (filter should_persist_response_item l) policy h = Some h' ∧ resumes (items h') (items g').
Proof.
  revert h g. induction l as [|x l IH]; intros h g Hr E; cbn [record_items] in E.
  { apply (inj Some) in E. subst. by exists h. }
  rewrite filter_cons. destruct (is_api_message x) eqn:Ea.
  - destruct (process_item audio x policy) as [x'|] eqn:Ex; [|done]. cbn [mbind option_bind] in E.
    pose proof (process_keeps_kind _ _ Ex) as Hk. destruct (decide (should_persist_response_item x)) as [Hp|Hp].
    + cbn [record_items]. rewrite Ea, Ex. cbn [mbind option_bind]. eapply IH; [|exact E].
      by apply resumes_app; [|apply resumes_refl].
    + eapply IH; [|exact E]. cbn [items set_items]. rewrite <- (app_nil_r (items h)). apply resumes_app; [done|].
      split; [apply sublist_nil_l|]. rewrite filter_cons_False; [done|]. by rewrite Hk.
  - destruct (decide (should_persist_response_item x)); [cbn [record_items]; rewrite Ea|]; by eapply IH.
Qed.

Lemma persisted_responses l :
  persisted_rollout_items (map RolloutResponse l) = map RolloutResponse (filter should_persist_response_item l).
Proof.
  unfold persisted_rollout_items. induction l as [|x l IH]; [done|]. cbn [map]. rewrite !filter_cons, IH.
  cbn [is_persisted_rollout_item]. by case_decide.
Qed.

Lemma persisted_one x : persisted_rollout_items [x] = if is_persisted_rollout_item x then [x] else [].
Proof. unfold persisted_rollout_items. rewrite filter_cons. by destruct (is_persisted_rollout_item x). Qed.

Lemma log_with_history h t : items h = items (history t) → log_ok t → log_ok (with_history h t).
Proof. intros E [(h' & E1 & E2) Hp Hs]. split; [|done|done]. exists h'. cbn. by rewrite E. Qed.

Lemma log_with_world w t : log_ok t → log_ok (with_world w t).
Proof. by intros [? ? ?]. Qed.

(** Persisting items that the replay of the history passes over. *)
Lemma log_persist x t :
  is_rollback x = false → storable x → (∀ h, replay_item xml json audio policy h x = Some h) →
  log_ok t → log_ok (persist_rollout_items [x] t).
Proof.
  intros Hr Hx Hrep [(h & E1 & E2) Hp Hs]. split; cbn [rollout persist_rollout_items history]; rewrite persisted_one;
    (destruct (is_persisted_rollout_item x); [|by rewrite ?app_nil_r; eauto]).
  - exists h. rewrite replay_app, E1. cbn [mbind option_bind replay_items]. by rewrite Hrep.
  - apply Forall_app; auto.
  - apply Forall_app; auto.
Qed.

Lemma replay_world_app (l l' : list Item) : replay_world (l ++ l') = foldl replay_world_item (replay_world l) l'.
Proof. apply foldl_app. Qed.

Lemma recordable_storable l : recordable l → Forall storable (map (RolloutResponse (OtherSettings := Other)) l).
Proof.
  intros Hl. apply Forall_forall. intros x (item & -> & Hi)%list_elem_of_fmap p Hp. by eapply Hl.
Qed.

(** Recording items, live and in the rollout. *)
Lemma record_ok l t t' :
  recordable l → record_conversation_items l t = Some t' → log_ok t →
  log_ok t' ∧ replay_world (rollout t') = replay_world (rollout t) ∧ turn_world t' = turn_world t ∧
  world_state_baseline (history t') = world_state_baseline (history t) ∧
  reference_context_item (history t') = reference_context_item (history t).
Proof.
  intros Hl E [(h & E1 & E2) Hp Hs]. unfold record_conversation_items in E.
  destruct (record_items audio l policy (history t)) as [g|] eqn:Er; [|done].
  destruct (recorded_items_append audio policy l (history t) Hl) as (rec & Er' & _). rewrite Er in Er'.
  cbn [mbind option_bind] in E. apply (inj Some) in E. subst t'.
  cbn [rollout persist_rollout_items history turn_world with_history]. rewrite persisted_responses.
  apply (inj Some) in Er'. split_and!; [split| | | |]; cbn [rollout persist_rollout_items history with_history]; rewrite ?persisted_responses; try by rewrite Er'.
  - destruct (record_resumes l h (history t) g E2 Er) as (h1 & E3 & Hr). exists h1. rewrite replay_app, E1.
    cbn [mbind option_bind]. by rewrite replay_responses.
  - apply Forall_app. split; [done|]. apply Forall_map, Forall_true. done.
  - apply Forall_app. split; [done|]. apply recordable_storable. intros item p [_ Hi]%list_elem_of_filter. by apply Hl.
  - unfold replay_world. rewrite foldl_app. generalize (foldl replay_world_item None (rollout t)). intros w. clear.
    induction (filter _ l); cbn; done.
  - done.
Qed.

Lemma record_unless_empty_ok l t t' :
  recordable l → record_unless_empty l t = Some t' → log_ok t →
  log_ok t' ∧ replay_world (rollout t') = replay_world (rollout t) ∧ turn_world t' = turn_world t ∧
  world_state_baseline (history t') = world_state_baseline (history t) ∧
  reference_context_item (history t') = reference_context_item (history t).
Proof. destruct l; [|by apply record_ok]. intros _ [= <-] H. done. Qed.

(** *** The world state *)

(** What the replay makes of a persisted item, if there is one. *)
Definition world_after (replayed : option WorldStateSnapshot) (item : option WorldStateItem) : option WorldStateSnapshot :=
  match item with Some item => replay_world_item (OtherSettings := Other) replayed (RolloutWorldState item) | None => replayed end.

Lemma sync_full replayed b : snapshot_clean b → world_sync (world_after replayed (Some (full_item (into_value b)))) (Some b).
Proof.
  intros Hb. cbn [world_after replay_world_item full_item item_full item_state]. destruct (snapshot_from_object (into_value b) b) as (s & -> & Hs & E); [|reflexivity|done].
  by apply into_value_wf, snapshot_clean_wf.
Qed.

Lemma sync_patch replayed previous b :
  world_sync replayed (Some previous) → snapshot_clean b →
  world_sync (world_after replayed (patch_item <$> merge_patch_from b previous)) (Some b).
Proof.
  intros Hs Hb. destruct replayed as [r|]; [|done]. destruct Hs as (Hr & Hp & E).
  pose proof (patch_restores previous r b (snapshot_clean_wf _ Hp) Hr Hb E) as H.
  destruct (merge_patch_from b previous) as [p|]; cbn [fmap option_fmap option_map world_after]; [|done].
  destruct H as (s & E' & ? & ?). cbn [replay_world_item patch_item item_full item_state]. by rewrite E'.
Qed.

Lemma world_clean w : world_ok w → snapshot_clean (snapshot w).
Proof. apply snapshot_is_clean. Qed.

Lemma persist_world_ok item t :
  log_ok t → log_ok (persist_world_state item t) ∧
    replay_world (rollout (persist_world_state item t)) = world_after (replay_world (rollout t)) item ∧
    history (persist_world_state item t) = history t ∧ turn_world (persist_world_state item t) = turn_world t.
Proof.
  intros Hl. destruct item as [item|]; [|done]. split; [by apply log_persist|]. split; [|done].
  unfold replay_world. cbn [persist_world_state persist_rollout_items rollout]. by rewrite foldl_app.
Qed.

(** The fragments of a turn are messages. *)
Lemma fragments_recordable l : recordable (merge_contextual_fragments l).
Proof.
  intros item p ([role texts] & _ & E)%list_elem_of_omap. destruct texts; [done|]. apply (inj Some) in E. by subst.
Qed.

Lemma recordable_app l l' : recordable (l ++ l') ↔ recordable l ∧ recordable l'.
Proof. unfold recordable. setoid_rewrite elem_of_app. naive_solver. Qed.

Lemma recordable_app_3 a b c : recordable (a ++ b ++ c) → recordable a ∧ recordable b ∧ recordable c.
Proof. by rewrite !recordable_app. Qed.

Lemma world_sync_some replayed b : world_sync replayed (Some b) → snapshot_clean b.
Proof. destruct replayed; [|done]. by intros (_ & ? & _). Qed.

(** *** Every step keeps them *)

Lemma step_context_ok w ctx initial updates contributions t t' :
  world_ok w → recordable (initial ++ updates ++ contributions) →
  record_context_updates_and_set_reference_context_item w ctx initial updates contributions t = Some t' →
  thread_ok t → thread_ok t'.
Proof.
  intros Hw (Hi & Hu & Hc)%recordable_app_3 E [Hl Hworld _].
  unfold record_context_updates_and_set_reference_context_item in E.
  (* what is told, and that the rollout will agree with it *)
  assert (Hstart : ∃ context_items item h,
    (match reference_context_item (history t) with
     | None => (initial, Some (full_item (into_value (snapshot w))), set_world_state_baseline (Some (snapshot w)) (history t))
     | Some _ => let '(fragments, rollout_item, h) := update_world_state w (history t) in
                 (updates ++ merge_contextual_fragments fragments, rollout_item, h)
     end) = (context_items, item, h) ∧ recordable context_items ∧
    world_sync (world_after (replay_world (rollout t)) item) (Some (snapshot w)) ∧
    items h = items (history t) ∧ world_state_baseline h = Some (snapshot w)).
  { pose proof (world_clean w Hw) as Hclean. destruct (reference_context_item (history t)).
    - do 3 eexists. split; [reflexivity|]. split; [apply recordable_app; split; [done|apply fragments_recordable]|].
      split; [|done]. destruct (world_state_baseline (history t)) as [b|] eqn:Eb; [by apply sync_patch|by apply sync_full].
    - do 3 eexists. split; [reflexivity|]. split; [done|]. split; [by apply sync_full|done]. }
  destruct Hstart as (context_items & item & h & Es & Hrec & Hsync & Hitems & Hbase). rewrite Es in E. clear Es.
  set (told := if _ : bool then context_items ++ contributions else context_items) in E.
  assert (Htold : recordable told).
  { assert (Ht : ∀ b : bool, recordable (if b then context_items ++ contributions else context_items)); [|apply Ht].
    intros []; [by apply recordable_app|done]. }
  set (t1 := with_world (Some w) (with_history h t)) in E.
  assert (H1 : log_ok t1) by by apply log_with_world, log_with_history.
  clearbody told. set (only := _ && match told with [] => true | _ => false end) in E. clearbody only.
  assert (Hdone : ∀ t2, log_ok t2 → replay_world (rollout t2) = world_after (replay_world (rollout t)) item →
    world_state_baseline (history t2) = Some (snapshot w) → turn_world t2 = Some w → thread_ok t2).
  { intros t2 Hl2 Hr2 Hb2 Ht2. split; [done|by rewrite Hr2, Hb2|]. rewrite Ht2, Hb2. by intros w' [= <-]. }
  destruct (only && match item with None => true | _ => false end) eqn:Equiet.
  { apply (inj Some) in E. subst t'. apply Hdone; try done. destruct item; [by destruct only|done]. }
  clear Equiet. destruct (record_unless_empty told t1) as [t2|] eqn:E2; [|done]. cbn [mbind option_bind] in E.
  destruct (record_unless_empty_ok told t1 t2 Htold E2 H1) as (Hl2 & Hr2 & Ht2 & Hb2 & _).
  change (world_state_baseline (history t1)) with (world_state_baseline h) in Hb2. rewrite Hbase in Hb2.
  change (turn_world t1) with (Some w) in Ht2. change (rollout t1) with (rollout t) in Hr2.
  destruct (persist_world_ok item t2 Hl2) as (Hl3 & Hr3 & Hh3 & Ht3). rewrite Hr2 in Hr3.
  set (t3 := persist_world_state item t2) in *. clearbody t3. rewrite Ht2 in Ht3. rewrite <- Hh3 in Hb2.
  destruct only; apply (inj Some) in E; subst t'; [by apply Hdone|].
  apply Hdone; [|unfold replay_world; cbn [rollout with_history persist_rollout_items]; by rewrite foldl_app|done|done].
  apply log_with_history; [done|]. by apply log_persist.
Qed.

Lemma step_world_ok previous w t t' :
  world_ok w → turn_world t = Some previous → record_step_world_state_if_changed previous w t = Some t' →
  thread_ok t → thread_ok t'.
Proof.
  intros Hw Hp E [Hl Hworld Hturn]. destruct (Hturn previous Hp) as [_ Hb]. rewrite Hb in Hworld.
  unfold record_step_world_state_if_changed in E.
  destruct (record_unless_empty _ t) as [t1|] eqn:E1; [|done]. cbn [mbind option_bind] in E. apply (inj Some) in E.
  destruct (record_unless_empty_ok _ t t1 (fragments_recordable _) E1 Hl) as (Hl1 & Hr1 & _ & Hb1 & _).
  set (t2 := with_history _ t1) in E. assert (Hl2 : log_ok t2) by by apply log_with_history.
  destruct (persist_world_ok (patch_item <$> merge_patch_from (snapshot w) (snapshot previous)) t2 Hl2) as (Hl3 & Hr3 & Hh3 & _).
  change (rollout t2) with (rollout t1) in Hr3. rewrite Hr1 in Hr3. subst t'.
  set (t3 := persist_world_state _ t2) in *. clearbody t3.
  split; [by apply log_with_world| |]; cbn [rollout history turn_world with_world].
  - rewrite Hr3, Hh3. by apply sync_patch; [|apply world_clean].
  - intros w' [= <-]. by rewrite Hh3.
Qed.

Lemma step_compact_ok l reference world metadata t :
  (∀ w, world = Some w → turn_world t = Some w) → (world = None → turn_world t = None) →
  thread_ok t → thread_ok (replace_compacted_history l reference world metadata t).
Proof.
  intros Hsome Hnone [Hl _ Hturn]. unfold replace_compacted_history.
  set (c := mkCompactedItem _ _ _ _ _ _).
  set (h := set_reference_context_item reference (replace l (history t))).
  assert (Hc : ∀ h', items h' = l → log_ok (persist_rollout_items [Compacted c] (with_history h' t)) ∧
      replay_world (rollout (persist_rollout_items [Compacted c] (with_history h' t))) = None).
  { intros h' Eh. destruct Hl as [(h1 & E1 & _) Hp Hs].
    split; [split|]; cbn [rollout persist_rollout_items history with_history];
      rewrite persisted_one; cbn [is_persisted_rollout_item].
    - exists (replace l h1). rewrite replay_app, E1. split; [done|]. rewrite Eh. apply resumes_refl.
    - apply Forall_app; auto.
    - apply Forall_app. split; [done|]. by repeat constructor.
    - unfold replay_world. by rewrite foldl_app. }
  assert (Hend : ∀ t2, log_ok t2 → world_sync (replay_world (rollout t2)) (world_state_baseline (history t2)) →
    (∀ w, turn_world t2 = Some w → world_ok w ∧ world_state_baseline (history t2) = Some (snapshot w)) →
    thread_ok match reference with Some ctx => persist_rollout_items [RolloutTurnContext ctx] t2 | None => t2 end).
  { intros t2 H1 H2 H3. destruct reference as [ctx|]; [|done]. split; [by apply log_persist| |done].
    unfold replay_world in *. cbn [rollout persist_rollout_items history]. by rewrite foldl_app. }
  destruct world as [w|]; apply Hend; cbn [persist_world_state].
  - destruct (Hturn w (Hsome w eq_refl)) as [Hw _].
    destruct (Hc (set_world_state_baseline (Some (snapshot w)) h) eq_refl) as [H1 H2].
    by apply (persist_world_ok (Some (full_item (into_value (snapshot w))))).
  - destruct (Hturn w (Hsome w eq_refl)) as [Hw _].
    destruct (Hc (set_world_state_baseline (Some (snapshot w)) h) eq_refl) as [H1 _].
    destruct (persist_world_ok (Some (full_item (into_value (snapshot w)))) _ H1) as (_ & Hr & Hh & _).
    cbn [persist_world_state] in Hr, Hh. rewrite Hr, Hh. by apply sync_full, world_clean.
  - cbn. rewrite (Hsome w eq_refl). intros w' [= <-]. split; [by apply (Hturn w); rewrite (Hsome w eq_refl)|done].
  - by apply (Hc h).
  - by rewrite (proj2 (Hc h eq_refl)).
  - cbn. rewrite (Hnone eq_refl). done.
Qed.

Lemma thread_step_ok t t' : thread_step t t' → thread_ok t → thread_ok t'.
Proof.
  intros Hstep Hok. destruct Hstep.
  - destruct Hok as [Hl Hw Ht]. destruct (record_ok l t t') as (H1 & H2 & H3 & H4 & _); [done|done|done|].
    split; [done|by rewrite H2, H4|]. by rewrite H3, H4.
  - by eapply step_context_ok.
  - by eapply step_world_ok.
  - by apply step_compact_ok.
  - apply step_compact_ok; [|done|done]. by intros w' [= <-].
  - destruct Hok as [Hl Hw Ht]. split; [| |done].
    + apply log_persist; [|done| |done]; destruct e as [n|?|?| |?|?]; try done; by destruct (H n).
    + cbn [rollout persist_rollout_items history]. rewrite persisted_one. unfold replay_world.
      destruct (is_persisted_rollout_item _); by rewrite foldl_app.
  - destruct Hok as [Hl Hw Ht]. split; [by apply log_with_world|done|done].
Qed.
End thread.

(** C1: a thread that has not been rolled back can be resumed.  However its turns recorded items,
    context, changes of the world state and compactions, with every append reaching the rollout and
    one truncation policy in all turns and in the reconstruction, reconstruction from its rollout
    succeeds and finds the items of the live history in order, of which only such can be missing
    as a rollout never keeps (lists of additional tools), all of them if there is none such; and it
    finds the world state the model was last told about, up to the order of JSON keys, or none if
    there is none. *)
Theorem resumed_thread_is_live debug xml json audio {Uuid} uuid_parse_str (version : Uuid → N)
    {Other} `{!EqDecision Other} mode policy h0 (t : Thread (Other := Other)) :
  history_new debug = Some h0 → rtc (thread_step mode policy audio) (thread_new h0) t →
  ∃ r, reconstruct_history_from_rollout debug xml json audio uuid_parse_str version policy (rollout t) = Some r ∧
    r_history r `sublist_of` items (history t) ∧
    filter should_persist_response_item (r_history r) = filter should_persist_response_item (items (history t)) ∧
    (Forall should_persist_response_item (items (history t)) → r_history r = items (history t)) ∧
    r_world r ≡ world_state_baseline (history t).
Proof.
  intros Hnew Hrun.
  assert (Hok : thread_ok policy audio xml json h0 t).
  { assert (Hstart : thread_ok policy audio xml json h0 (thread_new h0)).
    { cbn in Hnew. apply (inj Some) in Hnew. subst h0. split; [split|done|done]; [by eexists|constructor|constructor]. }
    clear Hnew. induction Hrun as [|? ? ? Hs _ IH]; [done|]. apply IH. by eapply thread_step_ok. }
  destruct Hok as [[(h & E & Ei) Hp Hs] Hw _].
  destruct (found_replay xml json audio uuid_parse_str version policy (rollout t) h0 Hs) as (h1 & h2 & E1 & E2 & E12).
  { by right; left. }
  unfold reconstruct_history_from_rollout, reconstruct. rewrite Hnew. cbn [mbind option_bind]. rewrite E2.
  cbn [mbind option_bind]. eexists. split; [reflexivity|]. cbn [r_history r_world].
  assert (Eh : items h2 = items h) by congruence. rewrite Eh. destruct Ei as [Hsub Hsame].
  split; [done|]. split; [done|]. split; [by intros; apply resumes_all|].
  rewrite (proj2 (found_plain xml json uuid_parse_str version (rollout t) Hp)).
  destruct (replay_world (rollout t)) as [r|], (world_state_baseline (history t)) as [b|]; try done; constructor.
  by destruct Hw as (_ & _ & ?).
Qed.

(** *** A turn that changes directory *)

Definition environment (cwd : str) : WorldState Rendered :=
  mkWorld [(lit "environment",
    erase (mkSection (Fragment := Rendered) Json (Some (JObject [(lit "cwd", JString cwd); (lit "shell", JNull)])) Some
      (fun _ _ => false) false (fun _ _ => false) (fun _ => Some (mkRendered (lit "user") cwd))))].

Lemma environment_ok cwd : world_ok (environment cwd).
Proof. apply Forall_singleton. intros v H. apply (inj Some) in H. by subst. Qed.

Lemma resumed_thread_is_live_witness :
  ∃ (h0 : ContextManager (TurnContextItem (OtherSettings := unit)) WorldStateSnapshot) t, history_new true = Some h0 ∧
    rtc (thread_step Legacy (Bytes 100) (fun _ => 0%N)) (thread_new h0) t ∧ length (rollout t) = 5 ∧
    ∃ r, reconstruct_history_from_rollout true (fun _ => None) (fun _ => false) (fun _ => 0%N) (fun _ => None)
        (fun _ : unit => 7%N) (Bytes 100) (rollout t) = Some r ∧
      r_history r = items (history t) ∧ r_world r ≡ world_state_baseline (history t).
Proof.
  set (h0 := mkContext [] 0 None None None : ContextManager (TurnContextItem (OtherSettings := unit)) WorldStateSnapshot).
  set (ctx := mkTurnContext (Some (lit "1")) (lit "m") None None tt).
  destruct (record_context_updates_and_set_reference_context_item Legacy (Bytes 100) (fun _ => 0%N) (environment (lit "/a")) ctx
    [user_says (lit "cwd /a")] [] [] (thread_new h0)) as [t1|] eqn:E1; [|vm_compute in E1; discriminate E1].
  destruct (record_step_world_state_if_changed Legacy (Bytes 100) (fun _ => 0%N) (environment (lit "/a")) (environment (lit "/b")) t1)
    as [t2|] eqn:E2; [|vm_compute in E1; injection E1 as <-; vm_compute in E2; discriminate E2].
  assert (Hrun : rtc (thread_step Legacy (Bytes 100) (fun _ => 0%N)) (thread_new h0) t2).
  { eapply rtc_l; [eapply step_context; [apply environment_ok| |exact E1]|].
    - intros item p [->|Hi%not_elem_of_nil]%elem_of_cons; done.
    - eapply rtc_l; [|apply rtc_refl]. eapply step_world; [apply environment_ok| |exact E2].
      vm_compute in E1. injection E1 as <-. reflexivity. }
  exists h0, t2. split; [reflexivity|]. split; [exact Hrun|].
  destruct (resumed_thread_is_live true (fun _ => None) (fun _ => false) (fun _ => 0%N) (fun _ => None)
      (fun _ : unit => 7%N) Legacy (Bytes 100) h0 t2 eq_refl Hrun) as (r & Er & _ & _ & Hall & Hw).
  assert (Hend : length (rollout t2) = 5 ∧ Forall should_persist_response_item (items (history t2))).
  { clear Hall Hw Er Hrun. vm_compute in E1. injection E1 as <-. vm_compute in E2. injection E2 as <-.
    split; [reflexivity|]. by repeat constructor. }
  destruct Hend as [Hlen Hkept]. split; [exact Hlen|]. exists r. split; [exact Er|]. split; [exact (Hall Hkept)|exact Hw].
Defined.

(** *** Additional tools are lost *)

(** A list of additional tools is part of the live history, and of no resumed one. *)
Lemma additional_tools_are_lost :
  let h0 := mkContext [] 0 None None None : ContextManager (TurnContextItem (OtherSettings := unit)) WorldStateSnapshot in
  ∃ t, record_conversation_items Legacy (Bytes 100) (fun _ => 0%N)
      [AdditionalTools None (lit "developer") []; user_says (lit "hi")] (thread_new h0) = Some t ∧
    items (history t) = [AdditionalTools None (lit "developer") []; user_says (lit "hi")] ∧
    rollout t = [RolloutResponse (user_says (lit "hi"))].
Proof. eexists. split; [vm_compute; reflexivity|]. by split; vm_compute. Qed.
