(* ===== verification/ChatTranslate.v ===== *)
(** * Responses to Chat Completions

    [codex-api/src/chat_translate.rs], the request side of the product's
    [wire_api = "chat"] providers: the conversation ([responses_input_to_chat_messages])
    and the tools ([responses_tools_to_chat_tools]) of a Responses request become
    a Chat Completions request, and the map from flattened wire names back to
    tool identities ([endpoint/chat.rs]) restores the calls the provider makes.
    The message list is a Rust [Vec] changed in place; each [push_...] operation
    is a function from the list to the list. *)

From S2P Require Import Prelude RustStr ResponseModel.
Open Scope N_scope.

(** ** Wire types *)

Inductive ChatReasoningEffort := ChatLow | ChatMedium | ChatHigh.

Record ChatToolCallFunction := mkCallFunction { call_name : str; call_arguments : str }.
Record ChatToolCall := mkToolCall {
  tool_call_id : str;
  tool_call_type : str;
  tool_call_function : ChatToolCallFunction
}.

Inductive ChatMessage :=
| Text (role content : str)
| AssistantWithToolCalls (role : str) (content : option str) (tool_calls : list ChatToolCall)
| ToolResult (role tool_call_id content : str).

Record ChatToolTarget := mkTarget { target_name : str; target_namespace : option str }.
Record ChatToolFunction := mkToolFunction {
  function_name : str;
  description : str;
  strict : bool;
  parameters : Json
}.
Record ChatTool := mkChatTool {
  tool_type : str;
  tool_function : ChatToolFunction;
  target : ChatToolTarget
}.

Record ChatStreamOptions := mkStreamOptions { include_usage : bool }.

(** The two [f32] fields, which the translation leaves unset, are kept as bit patterns. *)
Record ChatCompletionsApiRequest := mkChatRequest {
  chat_model : str;
  messages : list ChatMessage;
  chat_tools : list ChatTool;
  chat_tool_choice : str;
  chat_stream : bool;
  chat_stream_options : ChatStreamOptions;
  reasoning_effort : option ChatReasoningEffort;
  max_tokens : option N;
  temperature : option N;
  top_p : option N;
  chat_service_tier : option str;
  user : option str
}.

(** ** Tools *)

(** [format!("{namespace}__{name}")], or the bare name. *)
Definition wire_name (namespace : option str) (name : str) : str :=
  match namespace with
  | Some namespace => namespace ++ lit "__" ++ name
  | None => name
  end.

Definition convert_function_tool (tool : Json) (namespace namespace_description : option str) :
    option ChatTool :=
  name ← get (lit "name") tool ≫= as_str;
  let tool_description := default [] (get (lit "description") tool ≫= as_str) in
  let description :=
    match namespace_description, seqb tool_description [] with
    | Some namespace_description, false => namespace_description ++ [nl; nl] ++ tool_description
    | Some namespace_description, true => namespace_description
    | None, _ => tool_description
    end in
  let strict := default false (get (lit "strict") tool ≫= as_bool) in
  let parameters := default (JObject []) (get (lit "parameters") tool) in
  Some (mkChatTool (lit "function")
          (mkToolFunction (wire_name namespace name) description strict parameters)
          (mkTarget name namespace)).

Definition tool_kind (tool : Json) : option str := get (lit "type") tool ≫= as_str.
Definition is_kind (kind : str) (tool : Json) : bool :=
  match tool_kind tool with Some k => seqb k kind | None => false end.

(** What [convert_namespace_tool] appends to [out]. *)
Definition convert_namespace_tool (tool : Json) : list ChatTool :=
  match get (lit "name") tool ≫= as_str with
  | None => []
  | Some namespace =>
      let namespace_description :=
        match get (lit "description") tool ≫= as_str with
        | Some d => if seqb d [] then None else Some d
        | None => None
        end in
      match get (lit "tools") tool ≫= as_array with
      | None => []
      | Some tools =>
          omap (fun nested_tool =>
            if is_kind (lit "function") nested_tool
            then convert_function_tool nested_tool (Some namespace) namespace_description
            else None) tools
      end
  end.

(** One iteration of the loop over the request's tools. *)
Definition convert_tool (tool : Json) : list ChatTool :=
  if is_kind (lit "function") tool then option_list (convert_function_tool tool None None)
  else if is_kind (lit "namespace") tool then convert_namespace_tool tool
  else [].

(** [out.retain(|tool| seen_names.insert(tool.function.name.clone()))] *)
Fixpoint retain_unseen (seen : gset str) (l : list ChatTool) : list ChatTool :=
  match l with
  | [] => []
  | tool :: l =>
      let n := function_name (tool_function tool) in
      if bool_decide (n ∈ seen) then retain_unseen seen l
      else tool :: retain_unseen ({[n]} ∪ seen) l
  end.

Definition responses_tools_to_chat_tools (tools : list Json) : list ChatTool :=
  retain_unseen ∅ (flat_map convert_tool tools).

(** [endpoint/chat.rs]: [tools.map(|t| (t.function.name, t.target)).collect::<HashMap>()],
    where a later entry replaces an earlier one with the same key. *)
Definition tool_targets (tools : list ChatTool) : gmap str ChatToolTarget :=
  foldl (fun m tool => <[function_name (tool_function tool) := target tool]> m) ∅ tools.

(** ** Messages *)

Definition normalize_role (role : str) : str :=
  if seqb role (lit "developer") || seqb role (lit "system") then lit "system"
  else if seqb role (lit "user") then lit "user"
  else if seqb role (lit "assistant") then lit "assistant"
  else role.

Definition content_item_to_text (item : ContentItem) : option str :=
  match item with
  | InputText text | OutputText text => if seqb text [] then None else Some text
  | InputImage _ _ | InputAudio _ => None
  end.

Definition agent_content_to_text (c : AgentMessageInputContent) : option str :=
  match c with
  | AgentInputText text => Some text
  | AgentEncryptedContent _ => None
  end.

Definition push_or_merge_text (messages : list ChatMessage) (role text : str) : list ChatMessage :=
  match last messages with
  | Some (Text last_role content) =>
      if seqb last_role role
      then update_last (fun _ => Text last_role (content ++ [nl] ++ text)) messages
      else messages ++ [Text role text]
  | _ => messages ++ [Text role text]
  end.

Definition push_assistant_tool_call (messages : list ChatMessage) (tool_call : ChatToolCall) :
    list ChatMessage :=
  match last messages with
  | Some (AssistantWithToolCalls role content tool_calls) =>
      update_last (fun _ => AssistantWithToolCalls role content (tool_calls ++ [tool_call])) messages
  | _ => messages ++ [AssistantWithToolCalls (lit "assistant") None [tool_call]]
  end.

Definition is_assistant_calls (m : ChatMessage) : bool :=
  match m with AssistantWithToolCalls _ _ _ => true | _ => false end.
Definition is_tool_result (m : ChatMessage) : bool :=
  match m with ToolResult _ _ _ => true | _ => false end.

(** The [while] loop that moves [insert_at] past the tool results; [fuel] bounds
    the iterations by the distance to the end of the list. *)
Fixpoint skip_results (fuel : nat) (messages : list ChatMessage) (insert_at : nat) : nat :=
  match fuel with
  | O => insert_at
  | S fuel =>
      match messages !! insert_at with
      | Some m => if is_tool_result m then skip_results fuel messages (S insert_at) else insert_at
      | None => insert_at
      end
  end.

(** [Vec::insert] at an index that is not past the end. *)
Definition insert_message {A} (i : nat) (x : A) (l : list A) : list A := take i l ++ x :: drop i l.

Definition push_tool_result (messages : list ChatMessage) (tool_call_id content : str) :
    list ChatMessage :=
  let insert_at :=
    match rposition is_assistant_calls messages with
    | Some idx => S idx
    | None => length messages
    end in
  let insert_at := skip_results (length messages) messages insert_at in
  insert_message insert_at (ToolResult (lit "tool") tool_call_id content) messages.

(** The body of the loop over the input items. *)
Definition push_item (messages : list ChatMessage) (item : ResponseItem) : list ChatMessage :=
  match item with
  | Message _ role content _ _ =>
      let normalized_role := normalize_role role in
      let text := join [nl] (omap content_item_to_text content) in
      if blank text then messages else push_or_merge_text messages normalized_role text
  | AgentMessage _ _ _ content _ =>
      let text := join [nl] (omap agent_content_to_text content) in
      if blank text then messages else push_or_merge_text messages (lit "assistant") text
  | FunctionCall _ name namespace arguments call_id _ =>
      push_assistant_tool_call messages
        (mkToolCall call_id (lit "function") (mkCallFunction (wire_name namespace name) arguments))
  | FunctionCallOutput _ call_id output _ =>
      push_tool_result messages call_id (default [] (to_text (body output)))
  | LocalShellCall _ call_id _ _ _ =>
      match call_id with
      | Some call_id =>
          push_assistant_tool_call messages
            (mkToolCall call_id (lit "function") (mkCallFunction (lit "local_shell") (lit "{}")))
      | None => messages
      end
  | Reasoning _ _ _ _ _ | AdditionalTools _ _ _ | CustomToolCall _ _ _ _ _ _ _
  | CustomToolCallOutput _ _ _ _ _ | ToolSearchCall _ _ _ _ _ _ | ToolSearchOutput _ _ _ _ _ _
  | WebSearchCall _ _ _ _ | ImageGenerationCall _ _ _ _ _ | Compaction _ _ _
  | CompactionTrigger | ContextCompaction _ _ _ | Other => messages
  end.

Definition preamble (instructions : str) : list ChatMessage :=
  if seqb instructions [] then [] else [Text (lit "system") instructions].

Definition responses_input_to_chat_messages (input : list ResponseItem) (instructions : str) :
    list ChatMessage :=
  foldl push_item (preamble instructions) input.

(** ** The request *)

Definition chat_reasoning_effort (effort : ReasoningEffort) : option ChatReasoningEffort :=
  match effort with
  | EffortNone => None
  | EffortMinimal | EffortLow => Some ChatLow
  | EffortMedium => Some ChatMedium
  | EffortHigh | EffortXHigh | EffortMax | EffortUltra => Some ChatHigh
  | EffortCustom value =>
      if seqb value (lit "low") then Some ChatLow
      else if seqb value (lit "medium") then Some ChatMedium
      else if seqb value (lit "high") then Some ChatHigh
      else None
  end.

Definition responses_request_to_chat_completions_request (request : ResponsesApiRequest) :
    ChatCompletionsApiRequest :=
  let tools := default [] (responses_tools_to_chat_tools <$> tools request) in
  let tool_choice := match tools with [] => lit "none" | _ => tool_choice request end in
  let reasoning_effort := (reasoning request ≫= effort) ≫= chat_reasoning_effort in
  {| chat_model := model request;
     messages := responses_input_to_chat_messages (input request) (instructions request);
     chat_tools := tools;
     chat_tool_choice := tool_choice;
     chat_stream := true;
     chat_stream_options := mkStreamOptions true;
     reasoning_effort := reasoning_effort;
     max_tokens := None;
     temperature := None;
     top_p := None;
     chat_service_tier := service_tier request;
     user := None |}.
