(* ===== verification/ChatTranslateFacts.v ===== *)
(** * The Chat translation keeps the conversation

    What a Chat provider is sent: nothing a Chat message can carry is lost or
    reordered, the message list has the shape Chat Completions servers demand, and
    the flattened tool names are unique and lead back to the tools they stand for. *)

From S2P Require Import Prelude RustStr ResponseModel ChatTranslate.
Open Scope N_scope.

(** ** List lemmas *)

Lemma split_on_cons_app c a b :
  split_on c (a ++ c :: b) = split_on c a ++ split_on c b.
Proof.
  induction a as [|x a IH]; simpl.
  - by rewrite N.eqb_refl.
  - destruct (x =? c)%N eqn:E; simpl; [by rewrite IH|].
    rewrite IH. destruct (split_on c a) eqn:Ea; simpl; [by apply split_on_nonempty in Ea|done].
Qed.

Lemma insert_message_app {A} (l1 l2 : list A) x : insert_message (length l1) x (l1 ++ l2) = l1 ++ x :: l2.
Proof. unfold insert_message. by rewrite take_app_length, drop_app_length. Qed.

(** ** The layout the message list keeps

    After the last group of tool calls come its results and then text; before
    the first group there is text and, for a history that starts with results,
    results. *)

Definition is_text (m : ChatMessage) : bool := match m with Text _ _ => true | _ => false end.

Definition plain (strict : bool) (m : ChatMessage) : Prop :=
  is_assistant_calls m = false ∧ (strict = true → is_tool_result m = false).

Inductive layout (strict : bool) : list ChatMessage → Prop :=
| layout_plain ms : Forall (plain strict) ms → layout strict ms
| layout_calls pre a rs ts :
    is_assistant_calls a = true →
    Forall (fun m => is_tool_result m = true) rs →
    Forall (fun m => is_text m = true) ts →
    layout strict (pre ++ a :: rs ++ ts).

Lemma text_not_calls ts :
  Forall (fun m => is_text m = true) ts → Forall (fun m => is_assistant_calls m = false) ts.
Proof. intros H. eapply Forall_impl; [exact H|]. by intros []. Qed.

Lemma results_not_calls rs :
  Forall (fun m => is_tool_result m = true) rs → Forall (fun m => is_assistant_calls m = false) rs.
Proof. intros H. eapply Forall_impl; [exact H|]. by intros []. Qed.

Lemma skip_results_past rs : ∀ fuel pre ts,
  Forall (fun m => is_tool_result m = true) rs → Forall (fun m => is_text m = true) ts →
  (length rs ≤ fuel)%nat →
  skip_results fuel (pre ++ rs ++ ts) (length pre) = (length pre + length rs)%nat.
Proof.
  induction rs as [|r rs IH]; intros fuel pre ts Hrs Hts Hf; simpl in *.
  - rewrite Nat.add_0_r. destruct fuel; simpl; [done|].
    rewrite lookup_app_r, Nat.sub_diag by done.
    destruct ts as [|t ts]; simpl; [done|]. apply Forall_cons in Hts as [Ht _]. by destruct t.
  - destruct fuel as [|fuel]; [lia|]. simpl. apply Forall_cons in Hrs as [Hr Hrs].
    rewrite lookup_app_r, Nat.sub_diag by done. simpl. rewrite Hr.
    specialize (IH fuel (pre ++ [r]) ts Hrs Hts ltac:(lia)).
    rewrite length_app, <- app_assoc in IH. simpl in IH.
    replace (S (length pre)) with (length pre + 1)%nat by lia. rewrite IH. lia.
Qed.

(** A result lands behind the results of the last group of calls... *)
Lemma push_tool_result_calls pre a rs ts id c :
  is_assistant_calls a = true →
  Forall (fun m => is_tool_result m = true) rs → Forall (fun m => is_text m = true) ts →
  push_tool_result (pre ++ a :: rs ++ ts) id c =
    pre ++ a :: (rs ++ [ToolResult (lit "tool") id c]) ++ ts.
Proof.
  intros Ha Hrs Hts. unfold push_tool_result.
  rewrite rposition_last; [|done|by apply Forall_app_2; [apply results_not_calls|apply text_not_calls]].
  assert (Hs : S (length pre) = length (pre ++ [a])) by (rewrite length_app; simpl; lia).
  change (pre ++ a :: rs ++ ts) with (pre ++ [a] ++ (rs ++ ts)). rewrite app_assoc, Hs.
  rewrite skip_results_past by (try done; rewrite !length_app; simpl; lia).
  rewrite <- length_app, (app_assoc (pre ++ [a])), insert_message_app.
  by rewrite <- !app_assoc.
Qed.

(** ... and at the end when there is no call to attach it to. *)
Lemma push_tool_result_plain ms id c :
  Forall (fun m => is_assistant_calls m = false) ms →
  push_tool_result ms id c = ms ++ [ToolResult (lit "tool") id c].
Proof.
  intros H. unfold push_tool_result. rewrite rposition_None by done.
  assert (Hs : ∀ fuel, skip_results fuel ms (length ms) = length ms).
  { intros [|fuel]; simpl; [done|]. by rewrite lookup_ge_None_2. }
  rewrite Hs. rewrite <- (app_nil_r ms) at 2. by rewrite insert_message_app.
Qed.

Lemma push_text_cases ms role text :
  push_or_merge_text ms role text = ms ++ [Text role text] ∧
    (∀ ms' c, ms ≠ ms' ++ [Text role c]) ∨
  ∃ ms' c, ms = ms' ++ [Text role c] ∧
    push_or_merge_text ms role text = ms' ++ [Text role (c ++ [nl] ++ text)].
Proof.
  unfold push_or_merge_text. destruct (list_snoc_case ms) as [->|(ms' & m & ->)].
  - left. split; [done|]. intros ? ? ?%(f_equal length). rewrite length_app in H. simpl in H. lia.
  - rewrite last_snoc. destruct m as [r c| |].
    1: destruct (seqb r role) eqn:E.
    { apply seqb_eq in E as ->. right. exists ms', c. by rewrite update_last_snoc. }
    all: left; split; [done|]; intros ms0 c0 [_ ?]%app_inj_tail; simplify_eq.
    by rewrite seqb_refl in E.
Qed.

Lemma push_call_cases ms call :
  push_assistant_tool_call ms call =
    ms ++ [AssistantWithToolCalls (lit "assistant") None [call]] ∧
    (∀ ms' m, ms = ms' ++ [m] → is_assistant_calls m = false) ∨
  ∃ ms' r c calls, ms = ms' ++ [AssistantWithToolCalls r c calls] ∧
    push_assistant_tool_call ms call = ms' ++ [AssistantWithToolCalls r c (calls ++ [call])].
Proof.
  unfold push_assistant_tool_call. destruct (list_snoc_case ms) as [->|(ms' & m & ->)].
  - left. split; [done|]. intros ? ? ?%(f_equal length). rewrite length_app in H. simpl in H. lia.
  - rewrite last_snoc. destruct m as [| r c calls |].
    2:{ right. exists ms', r, c, calls. by rewrite update_last_snoc. }
    all: left; split; [done|]; intros ms0 m0 [_ <-]%app_inj_tail; done.
Qed.

Lemma layout_push_text strict ms role text :
  layout strict ms → layout strict (push_or_merge_text ms role text).
Proof.
  intros Hl. destruct (push_text_cases ms role text) as [[-> _]|(ms' & c & -> & ->)].
  - destruct Hl as [ms H|pre a rs ts Ha Hrs Hts].
    + apply layout_plain, Forall_app_2; [done|]. by repeat constructor.
    + rewrite <- app_assoc, <- app_comm_cons, <- app_assoc. apply layout_calls; try done.
      by apply Forall_app_2; repeat constructor.
  - inversion Hl as [? H|pre a rs ts Ha Hrs Hts E]; subst.
    + apply layout_plain. apply Forall_app in H as [H _].
      apply Forall_app_2; [done|]. by repeat constructor.
    + destruct (list_snoc_case ts) as [->|(ts' & t & ->)].
      * rewrite app_nil_r in E. destruct (list_snoc_case rs) as [->|(rs' & t & ->)].
        { apply app_inj_tail in E as [_ ->]. done. }
        rewrite app_comm_cons, app_assoc in E. apply app_inj_tail in E as [_ ->].
        apply Forall_app in Hrs as [_ Hrs]. by inversion Hrs.
      * rewrite app_assoc, app_comm_cons, app_assoc in E. apply app_inj_tail in E as [<- ->].
        rewrite <- app_assoc, <- app_comm_cons, <- app_assoc. apply layout_calls; try done.
        apply Forall_app in Hts as [Hts _]. apply Forall_app_2; by repeat constructor.
Qed.

Lemma layout_push_call strict ms call :
  layout strict ms → layout strict (push_assistant_tool_call ms call).
Proof.
  intros _. destruct (push_call_cases ms call) as [[-> _]|(ms' & r & c & calls & _ & ->)].
  - by apply (layout_calls strict ms _ [] []).
  - by apply (layout_calls strict ms' _ [] []).
Qed.

Lemma layout_push_result strict ms id c :
  layout strict ms → (strict = true → ¬ Forall (plain strict) ms) →
  layout strict (push_tool_result ms id c).
Proof.
  intros [ms' H|pre a rs ts Ha Hrs Hts] Hn.
  - rewrite push_tool_result_plain by (eapply Forall_impl; [exact H|]; by intros m []).
    apply layout_plain, Forall_app_2; [done|]. repeat constructor.
    intros ->. by destruct Hn.
  - rewrite push_tool_result_calls by done. apply layout_calls; try done.
    apply Forall_app_2; by repeat constructor.
Qed.

(** ** Nothing is lost or reordered *)

(** The lines of text a message carries, with the role that speaks them. *)
Definition message_lines (m : ChatMessage) : list (str * str) :=
  match m with Text role content => map (pair role) (split_on nl content) | _ => [] end.
Definition message_calls (m : ChatMessage) : list ChatToolCall :=
  match m with AssistantWithToolCalls _ _ calls => calls | _ => [] end.
Definition message_results (m : ChatMessage) : list (str * str) :=
  match m with ToolResult _ id content => [(id, content)] | _ => [] end.

(** What an input item says, calls and answers, by the rules of the translation's contract. *)
Definition spoken (role text : str) : list (str * str) :=
  if blank text then [] else map (pair role) (split_on nl text).
Definition item_lines (item : ResponseItem) : list (str * str) :=
  match item with
  | Message _ role content _ _ =>
      spoken (normalize_role role) (join [nl] (omap content_item_to_text content))
  | AgentMessage _ _ _ content _ =>
      spoken (lit "assistant") (join [nl] (omap agent_content_to_text content))
  | _ => []
  end.
Definition item_calls (item : ResponseItem) : list ChatToolCall :=
  match item with
  | FunctionCall _ name namespace arguments call_id _ =>
      [mkToolCall call_id (lit "function") (mkCallFunction (wire_name namespace name) arguments)]
  | LocalShellCall _ (Some call_id) _ _ _ =>
      [mkToolCall call_id (lit "function") (mkCallFunction (lit "local_shell") (lit "{}"))]
  | _ => []
  end.
Definition item_results (item : ResponseItem) : list (str * str) :=
  match item with
  | FunctionCallOutput _ call_id output _ => [(call_id, default [] (to_text (body output)))]
  | _ => []
  end.

(** The three projections of a message list. *)
Definition content_of (ms : list ChatMessage) : list (str * str) * list ChatToolCall * list (str * str) :=
  (flat_map message_lines ms, flat_map message_calls ms, flat_map message_results ms).

Lemma texts_no_results ts :
  Forall (fun m => is_text m = true) ts → flat_map message_results ts = [].
Proof. induction 1 as [|[] ts]; simpl; done. Qed.

Lemma content_push_text ms role text :
  content_of (push_or_merge_text ms role text) =
    (flat_map message_lines ms ++ map (pair role) (split_on nl text),
     flat_map message_calls ms, flat_map message_results ms).
Proof.
  unfold content_of. destruct (push_text_cases ms role text) as [[-> _]|(ms' & c & -> & ->)].
  - rewrite !flat_map_app. simpl. by rewrite !app_nil_r.
  - rewrite !flat_map_app. cbn [flat_map message_lines message_calls message_results app].
    by rewrite split_on_cons_app, map_app, !app_nil_r, app_assoc.
Qed.

Lemma content_push_call ms call :
  content_of (push_assistant_tool_call ms call) =
    (flat_map message_lines ms, flat_map message_calls ms ++ [call], flat_map message_results ms).
Proof.
  unfold content_of. destruct (push_call_cases ms call) as [[-> _]|(ms' & r & c & calls & -> & ->)];
    rewrite !flat_map_app; simpl; by rewrite !app_nil_r, ?app_assoc.
Qed.

Lemma content_push_result ms id c :
  layout false ms →
  content_of (push_tool_result ms id c) =
    (flat_map message_lines ms, flat_map message_calls ms, flat_map message_results ms ++ [(id, c)]).
Proof.
  intros [ms' H|pre a rs ts Ha Hrs Hts]; unfold content_of.
  - rewrite push_tool_result_plain by (eapply Forall_impl; [exact H|]; by intros m []).
    rewrite !flat_map_app. simpl. by rewrite !app_nil_r.
  - rewrite push_tool_result_calls by done.
    assert (Hr : message_results a = []) by by destruct a.
    pose proof (texts_no_results _ Hts) as Ht.
    change (pre ++ a :: rs ++ ts) with (pre ++ [a] ++ rs ++ ts).
    change (pre ++ a :: (rs ++ [ToolResult (lit "tool") id c]) ++ ts)
      with (pre ++ [a] ++ (rs ++ [ToolResult (lit "tool") id c]) ++ ts).
    rewrite !flat_map_app. cbn [flat_map message_lines message_calls message_results app].
    by rewrite Ht, Hr, !app_nil_r, <- ?app_assoc.
Qed.

Lemma layout_push_item strict ms item :
  layout strict ms → (strict = true → item_results item ≠ [] → ¬ Forall (plain strict) ms) →
  layout strict (push_item ms item).
Proof.
  intros Hl Hn. destruct item; simpl; try done.
  - case_match; [done|]. by apply layout_push_text.
  - case_match; [done|]. by apply layout_push_text.
  - case_match; [|done]. by apply layout_push_call.
  - by apply layout_push_call.
  - apply layout_push_result; [done|]. intros Hs. by apply Hn.
Qed.

Lemma content_push_item ms item :
  layout false ms →
  content_of (push_item ms item) =
    (flat_map message_lines ms ++ item_lines item,
     flat_map message_calls ms ++ item_calls item,
     flat_map message_results ms ++ item_results item).
Proof.
  intros Hl. unfold item_lines, item_calls, item_results, spoken.
  destruct item; unfold push_item; rewrite ?app_nil_r; try done.
  1,2: destruct (blank _); rewrite ?app_nil_r; [done|]; apply content_push_text.
  - destruct call_id; rewrite ?app_nil_r; [|done]. apply content_push_call.
  - apply content_push_call.
  - by apply content_push_result.
Qed.

Lemma layout_preamble strict i : layout strict (preamble i).
Proof. apply layout_plain. unfold preamble. case_match; by repeat constructor. Qed.

Lemma content_run input : ∀ ms,
  layout false ms →
  content_of (foldl push_item ms input) =
    (flat_map message_lines ms ++ flat_map item_lines input,
     flat_map message_calls ms ++ flat_map item_calls input,
     flat_map message_results ms ++ flat_map item_results input).
Proof.
  induction input as [|item input IH]; intros ms Hl; simpl; [by rewrite !app_nil_r|].
  rewrite IH by (by apply layout_push_item).
  pose proof (content_push_item ms item Hl) as Hc. unfold content_of in Hc.
  injection Hc as -> -> ->. by rewrite !app_assoc.
Qed.

(** C31: translating a conversation to Chat messages keeps, in order, every line of the text of
    messages that are not blank with the role that speaks it (the instructions first, as the
    system), every function call with its flattened name, arguments and call id, every local
    shell call that has an id (as a call of [local_shell] without its arguments), and every
    result of a function call with its call id.  Nothing else is sent: images, and the calls
    and results of custom tools, tool searches, web searches and image generation are
    dropped. *)
Theorem chat_messages_conserve input instructions :
  let ms := responses_input_to_chat_messages input instructions in
  flat_map message_lines ms =
    (if seqb instructions [] then [] else map (pair (lit "system")) (split_on nl instructions)) ++
    flat_map item_lines input ∧
  flat_map message_calls ms = flat_map item_calls input ∧
  flat_map message_results ms = flat_map item_results input.
Proof.
  intros ms.
  pose proof (content_run input (preamble instructions) (layout_preamble false _)) as Hc.
  unfold content_of in Hc. injection Hc as H1 H2 H3. unfold ms, responses_input_to_chat_messages.
  rewrite H1, H2, H3. unfold preamble. destruct (seqb instructions []); simpl; by rewrite ?app_nil_r.
Qed.

(** A call of a custom tool and its result are dropped although both carry a usable call id. *)
Example custom_calls_are_dropped name call_id input output :
  responses_input_to_chat_messages
    [CustomToolCall None None call_id name None input None; CustomToolCallOutput None call_id None output None] [] = [].
Proof. reflexivity. Qed.

(** ** The shape of the message list *)

(** Whether [b] may follow [a]: texts of one role and groups of calls are merged, and
    ([strict]) a result only follows calls or another result. *)
Definition may_follow (strict : bool) (a b : ChatMessage) : bool :=
  match a, b with
  | Text r _, Text r' _ => negb (seqb r r')
  | AssistantWithToolCalls _ _ _, AssistantWithToolCalls _ _ _ => false
  | Text _ _, ToolResult _ _ _ => negb strict
  | _, _ => true
  end.

Fixpoint chained (strict : bool) (ms : list ChatMessage) : bool :=
  match ms with
  | a :: (b :: _) as ms' => may_follow strict a b && chained strict ms'
  | _ => true
  end.

Definition starts_well (strict : bool) (ms : list ChatMessage) : bool :=
  match ms with ToolResult _ _ _ :: _ => negb strict | _ => true end.

Definition well_formed_message (m : ChatMessage) : bool :=
  match m with
  | Text _ content => negb (seqb content [])
  | AssistantWithToolCalls role content calls =>
      seqb role (lit "assistant") && bool_decide (content = None) && negb (bool_decide (length calls = 0%nat))
  | ToolResult role _ _ => seqb role (lit "tool")
  end.

Definition well_shaped (strict : bool) (ms : list ChatMessage) : bool :=
  starts_well strict ms && chained strict ms && forallb well_formed_message ms.

(** A history whose first call precedes its first result, as an agent loop produces it. *)
Fixpoint calls_first (input : list ResponseItem) : bool :=
  match input with
  | [] => true
  | item :: input =>
      match item_calls item, item_results item with
      | _ :: _, _ => true
      | [], _ :: _ => false
      | [], [] => calls_first input
      end
  end.

Lemma chained_app s l1 x l2 :
  chained s (l1 ++ x :: l2) = chained s (l1 ++ [x]) && chained s (x :: l2).
Proof.
  induction l1 as [|a l1 IH]; [done|].
  destruct l1 as [|b l1]; simpl in *; [by rewrite andb_true_r|].
  rewrite IH. by rewrite andb_assoc.
Qed.

Lemma chained_replace_last s l x y :
  (∀ a, may_follow s a x = may_follow s a y) → chained s (l ++ [x]) = chained s (l ++ [y]).
Proof.
  intros H. induction l as [|a l IH]; [done|].
  destruct l as [|b l]; simpl in *; [by rewrite H|]. by rewrite IH.
Qed.

Lemma starts_well_replace s l x y l' :
  is_tool_result x = is_tool_result y → starts_well s (l ++ x :: l') = starts_well s (l ++ y :: l').
Proof. intros H. destruct l; [|done]. by destruct x, y. Qed.

Lemma well_shaped_snoc s ms x :
  well_shaped s ms = true →
  (∀ ms' m, ms = ms' ++ [m] → may_follow s m x = true) →
  (ms = [] → starts_well s [x] = true) → well_formed_message x = true →
  well_shaped s (ms ++ [x]) = true.
Proof.
  unfold well_shaped. rewrite !andb_true_iff. intros [[Hs Hc] Hw] Hf H0 Hx.
  rewrite forallb_app. simpl. rewrite Hw, Hx.
  destruct (list_snoc_case ms) as [->|(ms' & m & ->)].
  - specialize (H0 eq_refl). simpl in *. by rewrite H0.
  - rewrite <- app_assoc. simpl. rewrite chained_app. simpl. rewrite Hc, (Hf ms' m eq_refl).
    repeat split; try done. by destruct ms'.
Qed.

Lemma well_shaped_replace_last s ms x y :
  well_shaped s (ms ++ [x]) = true → (∀ a, may_follow s a x = may_follow s a y) →
  is_tool_result x = is_tool_result y → well_formed_message y = true →
  well_shaped s (ms ++ [y]) = true.
Proof.
  unfold well_shaped. rewrite !andb_true_iff. intros [[Hs Hc] Hw] Hf Ht Hy.
  rewrite forallb_app in *. simpl in *. apply andb_true_iff in Hw as [-> _]. rewrite Hy.
  rewrite <- (chained_replace_last s ms x y Hf), <- (starts_well_replace s ms x y [] Ht). done.
Qed.

Lemma shape_push_text s ms role text :
  text ≠ [] → well_shaped s ms = true → well_shaped s (push_or_merge_text ms role text) = true.
Proof.
  intros Ht Hw. destruct (push_text_cases ms role text) as [[-> Hn]|(ms' & c & -> & ->)].
  - apply well_shaped_snoc; [done| |done|].
    + intros ms' [r c| |] ->; simpl; try done. apply negb_true_iff, seqb_neq. intros ->. by eapply Hn.
    + simpl. by apply negb_true_iff, seqb_neq.
  - eapply well_shaped_replace_last; [done|by intros []|done|].
    simpl. apply negb_true_iff, seqb_neq. by destruct c.
Qed.

Lemma shape_push_call s ms call :
  well_shaped s ms = true → well_shaped s (push_assistant_tool_call ms call) = true.
Proof.
  intros Hw. destruct (push_call_cases ms call) as [[-> Hn]|(ms' & r & c & calls & -> & ->)].
  - apply well_shaped_snoc; [done| |done|done]. intros ms' m ->. specialize (Hn ms' m eq_refl). by destruct m.
  - eapply well_shaped_replace_last; [done|by intros []|done|].
    unfold well_shaped in Hw. rewrite forallb_app, !andb_true_iff in Hw.
    destruct Hw as (_ & _ & Hw). cbn [forallb well_formed_message] in *.
    apply andb_true_iff in Hw as [Hw _]. apply andb_true_iff in Hw as [Hw _]. rewrite Hw. rewrite length_app. simpl.
    rewrite bool_decide_false; [done|lia].
Qed.

Lemma chained_insert_result s pre a rs ts id c :
  is_assistant_calls a = true →
  Forall (fun m => is_tool_result m = true) rs → Forall (fun m => is_text m = true) ts →
  chained s (pre ++ a :: rs ++ ts) = true →
  chained s (pre ++ a :: (rs ++ [ToolResult (lit "tool") id c]) ++ ts) = true.
Proof.
  intros Ha Hrs Hts H.
  assert (Hz : ∃ q z, pre ++ a :: rs = q ++ [z] ∧ is_text z = false).
  { destruct (list_snoc_case rs) as [->|(rs' & z & ->)].
    - exists pre, a. split; [done|]. by destruct a.
    - exists (pre ++ a :: rs'), z. rewrite <- app_assoc. split; [done|].
      apply Forall_app in Hrs as [_ Hz]. apply Forall_cons in Hz as [Hz _]. by destruct z. }
  destruct Hz as (q & z & Hq & Hz).
  rewrite app_comm_cons, app_assoc, Hq, <- app_assoc in H. cbn [app] in H. rewrite chained_app in H.
  apply andb_true_iff in H as [H1 H2].
  rewrite <- app_assoc, app_comm_cons, app_assoc, Hq, <- app_assoc.
  cbn [app]. rewrite chained_app, H1. cbn [andb chained]. apply andb_true_iff. split; [by destruct z|].
  destruct ts as [|t ts]; [done|]. apply andb_true_iff in H2 as [_ H2].
  apply andb_true_iff. split; [done|]. exact H2.
Qed.

Lemma shape_push_result s ms id c :
  layout s ms → (s = true → ¬ Forall (plain s) ms) →
  well_shaped s ms = true → well_shaped s (push_tool_result ms id c) = true.
Proof.
  intros [ms' H|pre a rs ts Ha Hrs Hts] Hn Hw.
  - destruct s; [by destruct Hn|].
    rewrite push_tool_result_plain by (eapply Forall_impl; [exact H|]; by intros m []).
    apply well_shaped_snoc; [done| |done|done]. by intros ? [].
  - rewrite push_tool_result_calls by done. unfold well_shaped in *.
    rewrite !andb_true_iff in Hw. destruct Hw as [[Hs Hc] Hf].
    rewrite !andb_true_iff. repeat split.
    + destruct pre; [by destruct a|done].
    + by apply chained_insert_result.
    + rewrite !forallb_app in *. cbn [forallb] in *. rewrite !forallb_app in *. rewrite !andb_true_iff in *.
      cbn [forallb]. tauto.
Qed.

Lemma plain_push_item s ms item :
  item_calls item = [] → item_results item = [] → ¬ Forall (plain s) ms → ¬ Forall (plain s) (push_item ms item).
Proof.
  intros Hc Hr Hn H. apply Hn. destruct item; simpl in *; try done.
  3: by destruct call_id.
  all: destruct (blank _); [done|].
  all: match type of H with Forall _ (push_or_merge_text _ ?r ?t) =>
    destruct (push_text_cases ms r t) as [[E _]|(ms' & c & -> & E)] end.
  all: rewrite E in H; apply Forall_app in H as [H _]; try done.
  all: apply Forall_app; split; [done|]; by repeat constructor.
Qed.

Lemma push_call_not_plain s ms call : ¬ Forall (plain s) (push_assistant_tool_call ms call).
Proof.
  destruct (push_call_cases ms call) as [[-> _]|(ms' & r & c & calls & _ & ->)];
    intros [_ H]%Forall_app; inversion H as [|? ? [Hp _]]; done.
Qed.

Lemma result_not_plain s ms id c : layout s ms → ¬ Forall (plain s) ms → ¬ Forall (plain s) (push_tool_result ms id c).
Proof.
  intros [ms' H|pre a rs ts Ha Hrs Hts] Hn; [done|]. rewrite push_tool_result_calls by done.
  intros [_ H]%Forall_app. inversion H as [|? ? [Hp _]]. congruence.
Qed.

(** Once there is a group of calls there always is one. *)
Lemma not_plain_push_item s ms item :
  layout s ms → ¬ Forall (plain s) ms → ¬ Forall (plain s) (push_item ms item).
Proof.
  intros Hl Hn. destruct (item_calls item) as [|call [|]] eqn:Ec, (item_results item) as [|r [|]] eqn:Er;
    try (by apply plain_push_item); destruct item; simplify_eq/=; try case_match; simplify_eq/=;
    try apply push_call_not_plain; by apply result_not_plain.
Qed.

Lemma shape_push_item s ms item :
  layout s ms → (s = true → item_results item ≠ [] → ¬ Forall (plain s) ms) →
  well_shaped s ms = true → well_shaped s (push_item ms item) = true.
Proof.
  intros Hl Hn Hw. destruct item; simpl; try done.
  1,2: destruct (blank _) eqn:E; [done|]; apply shape_push_text; [|done].
  1,2: intros E'; by rewrite E' in E.
  - case_match; [|done]. by apply shape_push_call.
  - by apply shape_push_call.
  - apply shape_push_result; [done| |done]. intros Hs. by apply Hn.
Qed.

Lemma shape_run s input : ∀ ms,
  layout s ms → well_shaped s ms = true →
  (s = true → ¬ Forall (plain s) ms ∨ calls_first input = true) →
  well_shaped s (foldl push_item ms input) = true.
Proof.
  induction input as [|item input IH]; intros ms Hl Hw Hc; simpl in *; [done|].
  assert (Hres : s = true → item_results item ≠ [] → ¬ Forall (plain s) ms).
  { intros Hs Hr. destruct (Hc Hs) as [|H]; [done|]. destruct item; done. }
  apply IH; [by apply layout_push_item|by apply shape_push_item|].
  intros Hs. destruct (Hc Hs) as [Hn|H]; [left; by apply not_plain_push_item|].
  destruct (item_calls item) as [|call calls] eqn:Ec.
  - destruct (item_results item) eqn:Er; [by right|done].
  - left. destruct item; simplify_eq/=; try case_match; simplify_eq/=; apply push_call_not_plain.
Qed.

(** The translated messages have the shape Chat servers accept: no two
    neighbouring texts have the same role and no two neighbouring messages are
    call groups, no message is empty, and, when the history's first call precedes
    its first result, every tool result stands directly behind a group of calls or
    another result, never behind text and never first. *)
Theorem chat_messages_well_shaped input instructions :
  well_shaped (calls_first input) (responses_input_to_chat_messages input instructions) = true.
Proof.
  apply shape_run; [apply layout_preamble| |by right].
  unfold preamble. destruct (seqb instructions []) eqn:E; [done|].
  unfold well_shaped. simpl. by rewrite E.
Qed.

(** ** Tools *)

Definition tool_wire_name (tool : ChatTool) : str := function_name (tool_function tool).

Lemma retain_unseen_sub seen l tool : tool ∈ retain_unseen seen l → tool ∈ l.
Proof.
  revert seen. induction l as [|x l IH]; intros seen; simpl; [done|].
  case_bool_decide; rewrite ?elem_of_cons; [eauto|]. intros [->|]; eauto.
Qed.

Lemma retain_unseen_names seen l :
  NoDup (map tool_wire_name (retain_unseen seen l)) ∧
  (∀ n, n ∈ map tool_wire_name (retain_unseen seen l) → n ∉ seen).
Proof.
  revert seen. induction l as [|x l IH]; intros seen; simpl; [split; [constructor|set_solver]|].
  case_bool_decide as Hx; [apply IH|]. destruct (IH ({[tool_wire_name x]} ∪ seen)) as [Hd Hn].
  split; simpl.
  - constructor; [|exact Hd]. intros Hin. apply Hn in Hin. set_solver.
  - intros n. rewrite elem_of_cons. intros [->|Hin]; [done|]. apply Hn in Hin. set_solver.
Qed.

(** Every name of the list survives the pass that removes repetitions. *)
Lemma retain_unseen_complete seen l n :
  n ∈ map tool_wire_name l → n ∈ seen ∨ n ∈ map tool_wire_name (retain_unseen seen l).
Proof.
  revert seen. induction l as [|x l IH]; intros seen; simpl; [by intros ?%elem_of_nil|].
  rewrite elem_of_cons. intros [->|Hin]; case_bool_decide as Hx; [by left| | |].
  - right. simpl. apply elem_of_cons. by left.
  - by apply IH.
  - destruct (IH ({[function_name (tool_function x)]} ∪ seen) Hin) as [H|H]; [|right; set_solver].
    apply elem_of_union in H as [->%elem_of_singleton|H]; [right; set_solver|by left].
Qed.

Lemma tool_targets_lookup tools n :
  NoDup (map tool_wire_name tools) →
  tool_targets tools !! n = target <$> find_first (fun tool => seqb (tool_wire_name tool) n) tools.
Proof.
  unfold tool_targets. intros Hd.
  assert (Hg : ∀ (m : gmap str ChatToolTarget),
    foldl (fun m tool => <[function_name (tool_function tool) := target tool]> m) m tools !! n =
    match find_first (fun tool => seqb (tool_wire_name tool) n) tools with
    | Some tool => Some (target tool) | None => m !! n end); [|by rewrite Hg; case_match].
  induction tools as [|x tools IH]; intros m; simpl; [done|].
  inversion Hd as [|? ? Hx Hd']; subst. rewrite IH by done.
  destruct (find_first _ tools) as [tool|] eqn:E.
  - apply find_first_Some in E as [Hin <-%seqb_eq]. destruct (seqb _ _) eqn:Es; [|done].
    apply seqb_eq in Es. destruct Hx. rewrite Es. by apply list_elem_of_fmap_2.
  - destruct (seqb (tool_wire_name x) n) eqn:Es.
    + apply seqb_eq in Es as <-. by rewrite lookup_insert_eq.
    + apply seqb_neq in Es. by rewrite lookup_insert_ne.
Qed.

Lemma convert_function_tool_name tool ns d t :
  convert_function_tool tool ns d = Some t →
  tool_wire_name t = wire_name (target_namespace (target t)) (target_name (target t)).
Proof.
  unfold convert_function_tool. intros H. apply bind_Some in H as (name & _ & H).
  by apply (inj Some) in H as <-.
Qed.

Lemma convert_tool_name tool t :
  t ∈ convert_tool tool →
  tool_wire_name t = wire_name (target_namespace (target t)) (target_name (target t)).
Proof.
  unfold convert_tool, convert_namespace_tool. repeat case_match; intros Hin;
    try (by apply elem_of_nil in Hin).
  { destruct (convert_function_tool _ _ _) eqn:E; [|by apply elem_of_nil in Hin].
    apply list_elem_of_singleton in Hin as ->. by eapply convert_function_tool_name. }
  all: apply list_elem_of_omap in Hin as (y & _ & Hy); case_match; [|done];
    by eapply convert_function_tool_name.
Qed.

(** The tools sent to a Chat provider have pairwise distinct wire names, each
    wire name is the flattening of the tool's own namespace and name, every
    convertible tool's wire name is offered, and looking a wire name up in the
    request's target map gives the identity of the one tool that is called so. *)
Theorem chat_tools_addressable tools :
  let out := responses_tools_to_chat_tools tools in
  NoDup (map tool_wire_name out) ∧
  (∀ t, t ∈ out →
     t ∈ flat_map convert_tool tools ∧
     tool_wire_name t = wire_name (target_namespace (target t)) (target_name (target t)) ∧
     tool_targets out !! tool_wire_name t = Some (target t)) ∧
  (∀ t, t ∈ flat_map convert_tool tools → tool_wire_name t ∈ map tool_wire_name out).
Proof.
  intros out. subst out. unfold responses_tools_to_chat_tools. destruct (retain_unseen_names ∅ (flat_map convert_tool tools)) as [Hd _].
  split; [exact Hd|]. split.
  - intros t Ht. pose proof (retain_unseen_sub _ _ _ Ht) as Hin. split; [done|]. split.
    + apply list_elem_of_In, in_flat_map in Hin as (x & _ & Hx).
      apply list_elem_of_In in Hx. by eapply convert_tool_name.
    + rewrite tool_targets_lookup by exact Hd. destruct (find_first _ _) as [t'|] eqn:E.
      * apply find_first_Some in E as [Hin' E%seqb_eq]. simpl.
        apply list_elem_of_lookup in Ht as [i Hi], Hin' as [j Hj].
        assert (i = j) as ->; [|congruence].
        eapply (NoDup_lookup _ i j _ Hd); rewrite list_lookup_fmap; [by rewrite Hi|].
        rewrite Hj. simpl. by rewrite E.
      * pose proof (proj1 (find_first_None _ _) E t Ht) as Hf. simpl in Hf. by rewrite seqb_refl in Hf.
  - intros t Ht. destruct (retain_unseen_complete ∅ (flat_map convert_tool tools) (tool_wire_name t))
      as [H|H]; [by apply list_elem_of_fmap_2| |done]. by apply elem_of_empty in H.
Qed.

(** ** What a Chat provider never sees *)

Definition redact_content (c : ContentItem) : ContentItem :=
  match c with
  | InputImage _ _ => InputImage [] None
  | InputAudio _ => InputAudio []
  | InputText _ | OutputText _ => c
  end.
Definition redact_agent (c : AgentMessageInputContent) : AgentMessageInputContent :=
  match c with AgentEncryptedContent _ => AgentEncryptedContent [] | AgentInputText _ => c end.
Definition redact_output (c : FunctionCallOutputContentItem) : FunctionCallOutputContentItem :=
  match c with
  | OutInputImage _ _ => OutInputImage [] None
  | OutInputAudio _ => OutInputAudio []
  | OutEncryptedContent _ => OutEncryptedContent []
  | OutInputText _ => c
  end.
Definition redact_body (b : FunctionCallOutputBody) : FunctionCallOutputBody :=
  match b with
  | BodyText content => BodyText content
  | BodyContentItems items => BodyContentItems (map redact_output items)
  end.

(** Erases everything that is to stay on this side: item ids and turn metadata, reasoning,
    encrypted content, pictures and sound, shell actions and the items of tools a
    Chat provider does not run. *)
Definition redact (item : ResponseItem) : ResponseItem :=
  match item with
  | Message _ role content _ _ => Message None role (map redact_content content) None None
  | AgentMessage _ _ _ content _ => AgentMessage None [] [] (map redact_agent content) None
  | Reasoning _ _ _ _ _ => Reasoning None [] None None None
  | LocalShellCall _ call_id _ _ _ => LocalShellCall None call_id [] JNull None
  | FunctionCall _ name namespace arguments call_id _ =>
      FunctionCall None name namespace arguments call_id None
  | FunctionCallOutput _ call_id output _ =>
      FunctionCallOutput None call_id (mkPayload (redact_body (body output)) None) None
  | _ => Other
  end.

Lemma push_item_redact ms item : push_item ms (redact item) = push_item ms item.
Proof.
  destruct item; try done; cbn [redact push_item body].
  - by rewrite (omap_redact content_item_to_text redact_content) by by intros [].
  - by rewrite (omap_redact agent_content_to_text redact_agent) by by intros [].
  - destruct output as [[text|items] s]; [done|]. cbn [body redact_body to_text].
    unfold function_call_output_content_items_to_text.
    by rewrite omap_redact by by intros [].
Qed.

(** A Chat provider learns nothing of what is to stay on this side: the messages
    are the same when item ids, turn metadata, reasoning, encrypted content,
    images, audio, shell actions and foreign tool items are erased from the
    conversation first. *)
Theorem chat_messages_hide_private input instructions :
  responses_input_to_chat_messages (map redact input) instructions =
    responses_input_to_chat_messages input instructions.
Proof.
  unfold responses_input_to_chat_messages. generalize (preamble instructions).
  induction input as [|item input IH]; intros ms; simpl; [done|]. by rewrite push_item_redact, IH.
Qed.
