(* ===== verification/ChatStream.v ===== *)
(** * Chat Completions streams to response events

    [codex-api/src/sse/chat.rs], the response side of [wire_api = "chat"]: the
    server-sent events of a streamed completion become the [ResponseEvent]s the
    agent loop consumes.  The task sends into a channel whose receiver may go away
    at any time; a failed [send] makes most sends return early.  The sending task
    is written in a monad over the channel, [Sender], whose [None] is the early
    [return].  Deserializing a chunk ([serde_json::from_str]) is a parameter;
    timers and telemetry are not modelled, except that a poll may time out. *)

From S2P Require Import Prelude RustStr ResponseModel ChatTranslate.
Open Scope N_scope.

(** ** Events *)

Inductive ResponseEvent :=
| Created
| SafetyBuffering (payload : Json)
| OutputItemDone (item : ResponseItem)
| OutputItemAdded (item : ResponseItem)
| ServerModel (model : str)
| ModelVerifications (payload : Json)
| TurnModerationMetadata (payload : Json)
| ServerReasoningIncluded (included : bool)
| Completed (response_id : str) (token_usage : option TokenUsage) (end_turn : option bool)
| OutputTextDelta (delta : str)
| ToolCallInputDelta (item_id : str) (call_id : option str) (delta : str)
| ReasoningSummaryDelta (delta : str) (summary_index : Z)
| ReasoningSummaryDone (item_id text : str) (summary_index : Z)
| ReasoningContentDelta (delta : str) (content_index : Z)
| ReasoningSummaryPartAdded (summary_index : Z)
| RateLimits (payload : Json)
| ModelsEtag (etag : str).

Inductive ApiError :=
| Transport (error : str)
| Api (status : N) (message : str)
| Stream (message : str)
| ContextWindowExceeded
| QuotaExceeded
| UsageNotIncluded
| Retryable (message : str) (delay : option N)
| RateLimit (message : str)
| InvalidRequest (message : str)
| CyberPolicy (message : str)
| ServerOverloaded.

(** ** Chunks *)

Record ChatToolCallFunctionDelta := mkFunctionDelta {
  delta_name : option str;
  delta_arguments : option str
}.
Record ChatToolCallDelta := mkCallDelta {
  delta_index : option nat;
  delta_id : option str;
  delta_function : option ChatToolCallFunctionDelta
}.
Record ChatDelta := mkDelta { delta_content : option str; delta_tool_calls : list ChatToolCallDelta }.
Record ChatChoice := mkChoice { choice_delta : ChatDelta }.

Record ChatInputTokensDetails := mkInputDetails { cached_tokens : Z }.
Record ChatOutputTokensDetails := mkOutputDetails { reasoning_tokens : Z }.
Record ChatUsage := mkUsage {
  usage_input_tokens : Z;
  input_tokens_details : option ChatInputTokensDetails;
  usage_output_tokens : Z;
  output_tokens_details : option ChatOutputTokensDetails;
  usage_total_tokens : Z
}.

Definition usage_into (value : ChatUsage) : TokenUsage :=
  {| input_tokens := usage_input_tokens value;
     cached_input_tokens := default 0%Z (cached_tokens <$> input_tokens_details value);
     cache_write_input_tokens := 0%Z;
     output_tokens := usage_output_tokens value;
     reasoning_output_tokens := default 0%Z (reasoning_tokens <$> output_tokens_details value);
     total_tokens := usage_total_tokens value |}.

Record ChatCompletionChunk := mkChunk {
  chunk_id : option str;
  chunk_model : option str;
  choices : list ChatChoice;
  usage : option ChatUsage
}.

(** [serde_json::from_str::<ChatCompletionChunk>] *)
Class ChunkFormat := parse_chunk : str → option ChatCompletionChunk.

(** What one [timeout(idle_timeout, stream.next())] yields; the end of a list of
    polls is a stream that is closed. *)
Inductive Poll :=
| PollEvent (data : str)
| PollError (message : str)
| PollClosed
| PollTimeout.

(** ** The channel *)

(** [room]: how many more events the receiver takes before it goes away; [None] when it stays. *)
Record Channel := mkChannel { sent : list (result ResponseEvent ApiError); room : option nat }.

Definition send (ch : Channel) (e : result ResponseEvent ApiError) : Channel * bool :=
  match room ch with
  | None => (mkChannel (sent ch ++ [e]) None, true)
  | Some O => (ch, false)
  | Some (S n) => (mkChannel (sent ch ++ [e]) (Some n), true)
  end.

Definition Sender (A : Type) : Type := Channel → Channel * option A.

Definition done_ {A} (a : A) : Sender A := fun ch => (ch, Some a).
Definition and_then {A B} (m : Sender A) (k : A → Sender B) : Sender B := fun ch =>
  match m ch with
  | (ch, Some a) => k a ch
  | (ch, None) => (ch, None)
  end.

Notation "'let!' x ':=' m 'in' k" := (and_then m (fun x => k))
  (at level 10, x name, m at level 100, k at level 200) : rust_scope.

(** [if tx.send(e).await.is_err() { return; }] *)
Definition emit (e : result ResponseEvent ApiError) : Sender unit := fun ch =>
  let (ch, ok) := send ch e in (ch, if ok then Some tt else None).

(** [let _ = tx.send(e).await;] *)
Definition emit_ignoring (e : result ResponseEvent ApiError) : Sender unit := fun ch =>
  (fst (send ch e), Some tt).

(** A [for] loop that threads a state. *)
Fixpoint for_each {A S} (f : S → A → Sender S) (s : S) (l : list A) : Sender S :=
  match l with
  | [] => done_ s
  | x :: l => let! s := f s x in for_each f s l
  end.

(** ** The state of a stream *)

Record AccumulatedToolCallFunction := mkAccFunction { acc_name : str; acc_arguments : str }.
Record AccumulatedToolCall := mkAcc { acc_id : str; acc_function : AccumulatedToolCallFunction }.
Definition default_call : AccumulatedToolCall := mkAcc [] (mkAccFunction [] []).

Record ChatStreamState := mkState {
  response_id : option str;
  assistant_text : str;
  assistant_item_started : bool;
  tool_calls : list AccumulatedToolCall;
  token_usage : option TokenUsage
}.
Definition default_state : ChatStreamState := mkState None [] false [] None.

(** The changes one delta makes to the call it addresses. *)
Definition apply_delta (call : AccumulatedToolCall) (delta : ChatToolCallDelta) : AccumulatedToolCall :=
  let id := default (acc_id call) (delta_id delta) in
  let function :=
    match delta_function delta with
    | Some f =>
        mkAccFunction (default (acc_name (acc_function call)) (delta_name f))
          (acc_arguments (acc_function call) ++ default [] (delta_arguments f))
    | None => acc_function call
    end in
  mkAcc id function.

(** [merge_tool_call] on the vector of calls; the [while] loop pushes default calls
    until [index] is in range. *)
Definition merge_calls (calls : list AccumulatedToolCall) (delta : ChatToolCallDelta) :
    list AccumulatedToolCall :=
  let index := default (length calls) (delta_index delta) in
  let calls := calls ++ replicate (S index - length calls) default_call in
  alter (fun call => apply_delta call delta) index calls.

Definition merge_tool_call (st : ChatStreamState) (delta : ChatToolCallDelta) : ChatStreamState :=
  mkState (response_id st) (assistant_text st) (assistant_item_started st)
    (merge_calls (tool_calls st) delta) (token_usage st).

Definition assistant_message_item (response_id : option str) (text : str)
    (phase : option MessagePhase) : ResponseItem :=
  let id := default (lit "chatcmpl") response_id ++ lit "-message" in
  Message (Some id) (lit "assistant") (if seqb text [] then [] else [OutputText text]) phase None.

(** ** Processing *)

(** Text of one choice: announce the message on the first text, then pass the delta on. *)
Definition on_content (st : ChatStreamState) (content : option str) : Sender ChatStreamState :=
  match content with
  | None => done_ st
  | Some delta =>
      if seqb delta [] then done_ st
      else
        let! st :=
          (if assistant_item_started st then done_ st
           else
             let! _ := emit (Ok (OutputItemAdded (assistant_message_item (response_id st) [] None))) in
             done_ (mkState (response_id st) (assistant_text st) true (tool_calls st) (token_usage st)))
        in
        let! _ := emit (Ok (OutputTextDelta delta)) in
        done_ (mkState (response_id st) (assistant_text st ++ delta) (assistant_item_started st)
                 (tool_calls st) (token_usage st))
  end.

Definition on_choice (st : ChatStreamState) (choice : ChatChoice) : Sender ChatStreamState :=
  let! st := on_content st (delta_content (choice_delta choice)) in
  done_ (foldl merge_tool_call st (delta_tool_calls (choice_delta choice))).

Definition on_chunk (st : ChatStreamState) (event : ChatCompletionChunk) : Sender ChatStreamState :=
  let rid := match response_id st with Some id => Some id | None => chunk_id event end in
  let! _ :=
    match chunk_model event with
    | Some model => emit_ignoring (Ok (ServerModel model))
    | None => done_ tt
    end in
  let token_usage :=
    match usage event with
    | Some usage => Some (usage_into usage)
    | None => token_usage st
    end in
  for_each on_choice
    (mkState rid (assistant_text st) (assistant_item_started st) (tool_calls st) token_usage)
    (choices event).

(** The function call an accumulated tool call stands for, with its tool's identity restored. *)
Definition restored_call (targets : gmap str ChatToolTarget) (call : AccumulatedToolCall) : ResponseItem :=
  let wire_name := acc_name (acc_function call) in
  let target := targets !! wire_name in
  FunctionCall (Some (acc_id call))
    (default wire_name (target_name <$> target)) (target ≫= target_namespace)
    (acc_arguments (acc_function call)) (acc_id call) None.

Definition emit_call (targets : gmap str ChatToolTarget) (_ : unit) (call : AccumulatedToolCall) :
    Sender unit :=
  let item := restored_call targets call in
  let! _ := emit (Ok (OutputItemAdded item)) in
  emit (Ok (OutputItemDone item)).

Definition finish_chat_stream (st : ChatStreamState) (targets : gmap str ChatToolTarget) : Sender unit :=
  let assistant_phase := match tool_calls st with [] => FinalAnswer | _ => Commentary end in
  let! _ := for_each (emit_call targets) tt (tool_calls st) in
  let! _ :=
    (if seqb (assistant_text st) [] then done_ tt
     else emit (Ok (OutputItemDone
            (assistant_message_item (response_id st) (assistant_text st) (Some assistant_phase))))) in
  emit_ignoring (Ok (Completed (default (lit "chatcmpl") (response_id st)) (token_usage st) None)).

Definition DONE : str := lit "[DONE]".

Section process.
Context `{CF : !ChunkFormat}.

Fixpoint process_loop (targets : gmap str ChatToolTarget) (st : ChatStreamState) (polls : list Poll) :
    Sender unit :=
  match polls with
  | [] | PollClosed :: _ =>
      emit_ignoring (Err (Stream (lit "stream closed before chat completion finished")))
  | PollError message :: _ => emit_ignoring (Err (Stream message))
  | PollTimeout :: _ => emit_ignoring (Err (Stream (lit "idle timeout waiting for SSE")))
  | PollEvent data :: polls =>
      if seqb (trim data) DONE then finish_chat_stream st targets
      else
        match parse_chunk data with
        | None => process_loop targets st polls
        | Some event => let! st := on_chunk st event in process_loop targets st polls
        end
  end.

Definition process_chat_sse (targets : gmap str ChatToolTarget) (polls : list Poll) : Sender unit :=
  process_loop targets default_state polls.

(** The spawned task; [server_model] is the [openai-model] response header. *)
Definition spawn_chat_response_stream (server_model : option str) (targets : gmap str ChatToolTarget)
    (polls : list Poll) : Sender unit :=
  let! _ :=
    match server_model with
    | Some model => emit_ignoring (Ok (ServerModel model))
    | None => done_ tt
    end in
  process_chat_sse targets polls.

(** The events a receiver that takes [room] events gets. *)
Definition stream_events (room : option nat) (server_model : option str)
    (targets : gmap str ChatToolTarget) (polls : list Poll) : list (result ResponseEvent ApiError) :=
  sent (fst (spawn_chat_response_stream server_model targets polls (mkChannel [] room))).
End process.
