(* ===== verification/ChatStreamFacts.v ===== *)
(** * What a streamed Chat completion delivers

    Delivery under a receiver that goes away, the event protocol (one terminal
    event, one message with its text in order, every tool call announced and
    completed), the assembly of fragmented tool calls, and the round trip of a
    tool call through the provider. *)

From S2P Require Import Prelude RustStr ResponseModel ChatTranslate ChatTranslateFacts ChatStream.
Open Scope N_scope.

Abbreviation Event := (result ResponseEvent ApiError).

(** ** Receivers that go away *)

(** [m] sends the same events whatever the channel: a receiver with room for [n] gets the
    first [n] of them, and a task that was not cut short ends with the same value. *)
Class Streaming {A} (m : Sender A) : Prop := streaming : ∃ evs a,
  (∀ acc, m (mkChannel acc None) = (mkChannel (acc ++ evs) None, Some a)) ∧
  ∀ acc n,
    fst (m (mkChannel acc (Some n))) = mkChannel (acc ++ take n evs) (Some (n - length evs)%nat) ∧
    ((length evs ≤ n)%nat → snd (m (mkChannel acc (Some n))) = Some a).

#[export] Instance streaming_done {A} (a : A) : Streaming (done_ a).
Proof.
  exists [], a. unfold done_. split; [intros; by rewrite app_nil_r|].
  intros acc n. rewrite take_nil, app_nil_r. simpl. by rewrite Nat.sub_0_r.
Qed.

Lemma send_room acc n e :
  send (mkChannel acc (Some n)) e =
    (mkChannel (acc ++ take n [e]) (Some (n - 1)%nat), negb (n =? 0)%nat).
Proof. destruct n; simpl; [by rewrite app_nil_r|]. by rewrite Nat.sub_0_r, take_nil. Qed.

#[export] Instance streaming_emit e : Streaming (emit e).
Proof.
  exists [e], tt. split; [done|]. intros acc n. unfold emit. rewrite send_room. simpl. split; [done|].
  intros Hn. destruct n; [lia|done].
Qed.

#[export] Instance streaming_emit_ignoring e : Streaming (emit_ignoring e).
Proof.
  exists [e], tt. split; [done|]. intros acc n. unfold emit_ignoring. rewrite send_room. by simpl.
Qed.

#[export] Instance streaming_and_then {A B} (m : Sender A) (k : A → Sender B) :
  Streaming m → (∀ a, Streaming (k a)) → Streaming (and_then m k).
Proof.
  intros (evs & a & Hm & Hr) Hk. destruct (Hk a) as (evs' & b & Hm' & Hr').
  exists (evs ++ evs'), b. unfold and_then. split.
  - intros acc. by rewrite Hm, Hm', app_assoc.
  - intros acc n. destruct (Hr acc n) as [H1 H2].
    destruct (m (mkChannel acc (Some n))) as [ch r] eqn:E. simpl in *. subst ch.
    destruct (decide (length evs ≤ n)%nat) as [Hl|Hl].
    + rewrite (H2 Hl). destruct (Hr' (acc ++ take n evs) (n - length evs)%nat) as [H3 H4].
      rewrite H3. split.
      * rewrite take_app, length_app, <- app_assoc. f_equal. f_equal. lia.
      * rewrite length_app. intros ?. apply H4. lia.
    + assert (Ha : take n (evs ++ evs') = take n evs) by (rewrite take_app_le; [done|lia]).
      assert (Hz : (n - length evs = 0)%nat) by lia.
      rewrite length_app, Ha, Hz. split; [|lia].
      replace (n - (length evs + length evs'))%nat with 0%nat by lia.
      destruct r as [a'|]; [|done]. destruct (Hk a') as (evs2 & b2 & _ & Hr2).
      destruct (Hr2 (acc ++ take n evs) 0%nat) as [-> _]. by rewrite take_0, app_nil_r.
Qed.

#[export] Instance streaming_for_each {A S} (f : S → A → Sender S) s l :
  (∀ s x, Streaming (f s x)) → Streaming (for_each f s l).
Proof. intros Hf. revert s. induction l as [|x l IH]; intros s; simpl; apply _. Qed.

#[export] Instance streaming_on_content st c : Streaming (on_content st c).
Proof. unfold on_content. repeat case_match; apply _. Qed.

#[export] Instance streaming_on_choice st c : Streaming (on_choice st c).
Proof. apply _. Qed.

#[export] Instance streaming_on_chunk st c : Streaming (on_chunk st c).
Proof. unfold on_chunk. repeat case_match; apply _. Qed.

#[export] Instance streaming_finish st targets : Streaming (finish_chat_stream st targets).
Proof. unfold finish_chat_stream, emit_call. repeat case_match; apply _. Qed.

#[export] Instance streaming_process `{CF : !ChunkFormat} targets st polls :
  Streaming (process_loop targets st polls).
Proof.
  revert st. induction polls as [|[] polls IH]; intros st; simpl; repeat case_match; apply _.
Qed.

(** A consumer that drops its receiver after [n] events has seen exactly the first
    [n] events of the stream a patient consumer sees; nothing is skipped, repeated
    or sent after the drop. *)
Theorem chat_stream_cut `{CF : !ChunkFormat} n server_model targets polls :
  stream_events (Some n) server_model targets polls =
    take n (stream_events None server_model targets polls).
Proof.
  assert (H : Streaming (spawn_chat_response_stream server_model targets polls)).
  { unfold spawn_chat_response_stream, process_chat_sse. case_match; apply _. }
  destruct H as (evs & a & H1 & H2). unfold stream_events. rewrite H1.
  by destruct (H2 [] n) as [-> _].
Qed.

(** ** Fragmented tool calls *)

(** The position each delta addresses: its index, or the next free one. *)
Fixpoint addressed (len : nat) (deltas : list ChatToolCallDelta) : list (nat * ChatToolCallDelta) :=
  match deltas with
  | [] => []
  | d :: deltas =>
      let index := default len (delta_index d) in
      (index, d) :: addressed (Nat.max len (S index)) deltas
  end.

Definition deltas_at (i : nat) (l : list (nat * ChatToolCallDelta)) : list ChatToolCallDelta :=
  omap (fun p => if (fst p =? i)%nat then Some (snd p) else None) l.

(** The last value given, or the empty string. *)
Definition latest (l : list (option str)) : str := default [] (last (omap id l)).

(** The call a list of fragments spells. *)
Definition spelled (ds : list ChatToolCallDelta) : AccumulatedToolCall :=
  mkAcc (latest (map delta_id ds))
    (mkAccFunction (latest (map (fun d => delta_function d ≫= delta_name) ds))
       (concat (map (fun d => default [] (delta_function d ≫= delta_arguments)) ds))).

Lemma latest_snoc l x : latest (l ++ [x]) = default (latest l) x.
Proof.
  unfold latest. rewrite omap_app. destruct x as [x|]; simpl.
  - by rewrite last_snoc.
  - by rewrite app_nil_r.
Qed.

Lemma spelled_snoc ds d : spelled (ds ++ [d]) = apply_delta (spelled ds) d.
Proof.
  unfold spelled, apply_delta. rewrite !map_app, concat_app. cbn [map concat].
  rewrite !latest_snoc, app_nil_r. cbn [acc_id acc_function acc_name acc_arguments].
  destruct (delta_function d) as [f|]; simpl; [done|]. by rewrite app_nil_r.
Qed.

Lemma deltas_at_app i l1 l2 : deltas_at i (l1 ++ l2) = deltas_at i l1 ++ deltas_at i l2.
Proof. apply omap_app. Qed.

Lemma deltas_at_unused i l : Forall (fun p => (fst p < i)%nat) l → deltas_at i l = [].
Proof.
  induction 1 as [|p l Hp _ IH]; [done|]. unfold deltas_at in *. simpl.
  destruct (Nat.eqb_spec (fst p) i); [lia|done].
Qed.

(** [calls] is what the fragments [l] spell. *)
Definition spells (calls : list AccumulatedToolCall) (l : list (nat * ChatToolCallDelta)) : Prop :=
  Forall (fun p => (fst p < length calls)%nat) l ∧
  ∀ i, (i < length calls)%nat → calls !! i = Some (spelled (deltas_at i l)).

Lemma merge_calls_length calls d :
  length (merge_calls calls d) = Nat.max (length calls) (S (default (length calls) (delta_index d))).
Proof. unfold merge_calls. rewrite length_alter, length_app, length_replicate. lia. Qed.

Lemma merge_calls_spells calls l d :
  spells calls l → spells (merge_calls calls d) (l ++ [(default (length calls) (delta_index d), d)]).
Proof.
  intros [Hl Hs]. unfold spells. rewrite merge_calls_length.
  set (index := default (length calls) (delta_index d)). split.
  { apply Forall_app_2; [|constructor; [simpl; lia|constructor]].
    eapply Forall_impl; [exact Hl|]. simpl. lia. }
  intros i Hi.
  assert (Hg : (calls ++ replicate (S index - length calls) default_call) !! i =
               Some (spelled (deltas_at i l))).
  { destruct (decide (i < length calls)%nat) as [Hc|Hc].
    - rewrite lookup_app_l by done. by apply Hs.
    - rewrite lookup_app_r by lia. rewrite lookup_replicate_2 by lia.
      rewrite deltas_at_unused; [done|]. eapply Forall_impl; [exact Hl|]. simpl. lia. }
  unfold merge_calls. fold index. rewrite deltas_at_app. unfold deltas_at at 2. simpl.
  destruct (Nat.eqb_spec index i) as [<-|Hne].
  - by rewrite list_lookup_alter_eq, Hg, spelled_snoc.
  - by rewrite list_lookup_alter_ne, Hg, app_nil_r.
Qed.

Lemma merge_calls_run deltas : ∀ calls l,
  spells calls l → spells (foldl merge_calls calls deltas) (l ++ addressed (length calls) deltas).
Proof.
  induction deltas as [|d deltas IH]; intros calls l Hs; simpl; [by rewrite app_nil_r|].
  apply (merge_calls_spells _ _ d) in Hs. apply IH in Hs.
  by rewrite merge_calls_length, <- app_assoc in Hs.
Qed.

(** Tool calls streamed in fragments are put together per position: the call at a
    position has the last id and the last name given for it and the concatenation,
    in order, of all its argument fragments; a fragment without an index starts a
    new call, and interleaved calls do not mix. *)
Theorem tool_call_fragments_assembled deltas i :
  let calls := foldl merge_calls [] deltas in
  (i < length calls)%nat → calls !! i = Some (spelled (deltas_at i (addressed 0 deltas))).
Proof.
  assert (H0 : spells [] []) by (split; [constructor|simpl; lia]).
  intros calls Hi. destruct (merge_calls_run deltas [] [] H0) as [_ Hs]. by apply Hs.
Qed.

(** Two calls whose arguments arrive interleaved. *)
Lemma tool_call_fragments_assembled_witness :
  let d i n a := mkCallDelta (Some i) (Some (lit "id")) (Some (mkFunctionDelta n (Some a))) in
  foldl merge_calls []
    [d 0%nat (Some (lit "f")) (lit "{"); d 1%nat (Some (lit "g")) (lit "["); d 0%nat None (lit "}")] !! 0%nat =
  Some (mkAcc (lit "id") (mkAccFunction (lit "f") (lit "{}"))).
Proof. apply tool_call_fragments_assembled. vm_compute. lia. Defined.

(** ** The events of a run *)

(** With a receiver that stays, [m] sends [evs] and yields [a]. *)
Definition delivers {A} (m : Sender A) (evs : list Event) (a : A) : Prop :=
  ∀ acc, m (mkChannel acc None) = (mkChannel (acc ++ evs) None, Some a).

Lemma delivers_done {A} (a : A) : delivers (done_ a) [] a.
Proof. intros acc. unfold done_. by rewrite app_nil_r. Qed.

Lemma delivers_emit e : delivers (emit e) [e] tt.
Proof. done. Qed.

Lemma delivers_ignoring e : delivers (emit_ignoring e) [e] tt.
Proof. done. Qed.

Lemma delivers_and_then {A B} (m : Sender A) (k : A → Sender B) e1 e2 a b :
  delivers m e1 a → delivers (k a) e2 b → delivers (and_then m k) (e1 ++ e2) b.
Proof. intros H1 H2 acc. unfold and_then. by rewrite H1, H2, app_assoc. Qed.

#[export] Hint Resolve delivers_done delivers_emit delivers_ignoring : codex.

(** Events about the assistant's message, and those about function calls. *)
Definition message_event (e : Event) : option ResponseEvent :=
  match e with
  | Ok (OutputItemAdded (Message _ _ _ _ _) as ev) | Ok (OutputItemDone (Message _ _ _ _ _) as ev)
  | Ok (OutputTextDelta _ as ev) => Some ev
  | _ => None
  end.
Definition call_event (e : Event) : option ResponseEvent :=
  match e with
  | Ok (OutputItemAdded (FunctionCall _ _ _ _ _ _) as ev)
  | Ok (OutputItemDone (FunctionCall _ _ _ _ _ _) as ev) => Some ev
  | _ => None
  end.
Definition terminal (e : Event) : bool :=
  match e with Err _ | Ok (Completed _ _ _) => true | _ => false end.

(** While chunks arrive nothing is terminal and no call is announced. *)
Definition body_event (e : Event) : Prop := terminal e = false ∧ call_event e = None.

Definition first_some {A} (l : list (option A)) : option A := head (omap id l).

Definition is_nil {A} (l : list A) : bool := match l with [] => true | _ => false end.

(** What the task has done between two states: the ids, usages, texts and tool-call
    fragments it heard, and the events [evs] it sent for them. *)
Record heard (ids : list (option str)) (us : list (option ChatUsage)) (texts : list str)
    (deltas : list ChatToolCallDelta) (st st' : ChatStreamState) (evs : list Event) : Prop := {
  heard_id : response_id st' = first_some (response_id st :: ids);
  heard_usage : token_usage st' =
    match last (omap id us) with Some u => Some (usage_into u) | None => token_usage st end;
  heard_calls : tool_calls st' = foldl merge_calls (tool_calls st) deltas;
  heard_text : assistant_text st' = assistant_text st ++ concat texts;
  heard_started : assistant_item_started st' = assistant_item_started st || negb (is_nil texts);
  heard_body : Forall body_event evs;
  heard_events : ∃ rid, (rid = response_id st' ∨ rid = None) ∧
    omap message_event evs =
      (if assistant_item_started st || is_nil texts then []
       else [OutputItemAdded (assistant_message_item rid [] None)]) ++ map OutputTextDelta texts
}.

Lemma first_some_app {A} (a : option A) l1 l2 :
  first_some (first_some (a :: l1) :: l2) = first_some (a :: l1 ++ l2).
Proof.
  unfold first_some. destruct a as [a|]; [done|]. cbn [omap list_omap id].
  rewrite omap_app. change (list_omap _ _ id) with (omap (M:=list) (@id (option A))).
  by destruct (omap id l1).
Qed.

Lemma heard_refl st : heard [] [] [] [] st st [].
Proof.
  split; simpl; try done.
  - by destruct (response_id st).
  - by rewrite app_nil_r.
  - by rewrite orb_false_r.
  - exists None. split; [by right|]. by rewrite orb_true_r.
Qed.

Lemma heard_trans ids1 us1 t1 d1 ids2 us2 t2 d2 st st1 st2 e1 e2 :
  heard ids1 us1 t1 d1 st st1 e1 → heard ids2 us2 t2 d2 st1 st2 e2 →
  heard (ids1 ++ ids2) (us1 ++ us2) (t1 ++ t2) (d1 ++ d2) st st2 (e1 ++ e2).
Proof.
  intros [Hi Hu Hc Ht Hs Hb (rid & Hr & He)] [Hi' Hu' Hc' Ht' Hs' Hb' (rid' & Hr' & He')]. split.
  - by rewrite Hi', Hi, first_some_app.
  - rewrite Hu', omap_app, last_app. destruct (last (omap id us2)); [done|]. by rewrite Hu.
  - by rewrite Hc', Hc, foldl_app.
  - by rewrite Ht', Ht, concat_app, app_assoc.
  - rewrite Hs', Hs. by destruct t1, (assistant_item_started st); simpl; rewrite ?orb_false_r.
  - by apply Forall_app_2.
  - rewrite omap_app, He, He', map_app. destruct t1 as [|t t1].
    + exists rid'. split; [done|]. simpl in Hs. rewrite orb_false_r in Hs.
      by rewrite orb_true_r, Hs.
    + exists rid. split.
      * destruct Hr as [->|]; [|by right]. rewrite Hi'. destruct (response_id st1); [by left|by right].
      * rewrite Hs, orb_true_r. simpl. by rewrite <- app_assoc.
Qed.

(** ** Hearing chunks *)

Definition choice_texts (c : ChatChoice) : list str :=
  match delta_content (choice_delta c) with
  | Some t => if seqb t [] then [] else [t]
  | None => []
  end.
Definition choice_deltas (c : ChatChoice) : list ChatToolCallDelta := delta_tool_calls (choice_delta c).
Definition chunk_texts (c : ChatCompletionChunk) : list str := flat_map choice_texts (choices c).
Definition chunk_deltas (c : ChatCompletionChunk) : list ChatToolCallDelta :=
  flat_map choice_deltas (choices c).

Lemma on_content_delivers st c texts :
  texts = match c with Some t => if seqb t [] then [] else [t] | None => [] end →
  ∃ evs st', delivers (on_content st c) evs st' ∧ heard [] [] texts [] st st' evs.
Proof.
  intros ->. unfold on_content. destruct c as [t|]; [destruct (seqb t []) eqn:E|].
  1,3: eexists _, _; split; [apply delivers_done|apply heard_refl].
  destruct (assistant_item_started st) eqn:Es.
  - eexists _, _. split.
    { eapply delivers_and_then; [apply delivers_done|].
      eapply delivers_and_then; [apply delivers_emit|apply delivers_done]. }
    split; simpl; rewrite ?Es, ?app_nil_r; try done; [by destruct (response_id st)| |by exists None; auto].
    by repeat constructor.
  - eexists _, _. split.
    { eapply delivers_and_then.
      - eapply delivers_and_then; [apply delivers_emit|apply delivers_done].
      - eapply delivers_and_then; [apply delivers_emit|apply delivers_done]. }
    split; simpl; rewrite ?Es, ?app_nil_r; try done.
    + by destruct (response_id st).
    + by repeat constructor.
    + exists (response_id st). auto.
Qed.

Lemma merge_tool_calls_heard deltas : ∀ st,
  heard [] [] [] deltas st (foldl merge_tool_call st deltas) [].
Proof.
  induction deltas as [|d deltas IH]; intros st; simpl; [apply heard_refl|].
  apply (heard_trans [] [] [] [d] [] [] [] deltas st (merge_tool_call st d) _ [] []); [|apply IH].
  split; simpl; try done; [by destruct (response_id st)|by rewrite app_nil_r|by rewrite orb_false_r|].
  exists None. split; [by right|]. by rewrite orb_true_r.
Qed.

Lemma on_choice_delivers st c :
  ∃ evs st', delivers (on_choice st c) evs st' ∧
    heard [] [] (choice_texts c) (choice_deltas c) st st' evs.
Proof.
  destruct (on_content_delivers st (delta_content (choice_delta c)) (choice_texts c) eq_refl)
    as (evs & st1 & Hd & Hh).
  eexists _, _. split; [eapply delivers_and_then; [exact Hd|apply delivers_done]|].
  pose proof (heard_trans _ _ _ _ _ _ _ _ _ _ _ _ _ Hh (merge_tool_calls_heard (choice_deltas c) st1)) as H.
  by rewrite (app_nil_r (choice_texts c)) in H.
Qed.

Lemma on_choices_delivers cs : ∀ st,
  ∃ evs st', delivers (for_each on_choice st cs) evs st' ∧
    heard [] [] (flat_map choice_texts cs) (flat_map choice_deltas cs) st st' evs.
Proof.
  induction cs as [|c cs IH]; intros st; simpl.
  - eexists _, _. split; [apply delivers_done|apply heard_refl].
  - destruct (on_choice_delivers st c) as (e1 & st1 & Hd & Hh).
    destruct (IH st1) as (e2 & st2 & Hd' & Hh').
    eexists _, _. split; [by eapply delivers_and_then|]. by apply (heard_trans [] [] _ _ [] []  _ _ _ st1).
Qed.

Lemma on_chunk_delivers st c :
  ∃ evs st', delivers (on_chunk st c) evs st' ∧
    heard [chunk_id c] [usage c] (chunk_texts c) (chunk_deltas c) st st' evs.
Proof.
  unfold on_chunk.
  match goal with |- context [for_each on_choice ?s _] => set (st0 := s) end.
  destruct (on_choices_delivers (choices c) st0) as (e2 & st2 & Hd & Hh).
  set (e1 := match chunk_model c with Some m => [Ok (ServerModel m)] | None => [] end : list Event).
  exists (e1 ++ e2), st2. split.
  - eapply delivers_and_then; [|exact Hd]. unfold e1. destruct (chunk_model c); auto with codex.
  - apply (heard_trans [chunk_id c] [usage c] [] [] [] [] _ _ st st0); [|exact Hh].
    split; simpl; try done; [by destruct (response_id st), (chunk_id c)|by destruct (usage c)| | | |].
    + by rewrite app_nil_r.
    + by rewrite orb_false_r.
    + unfold e1. destruct (chunk_model c); by repeat constructor.
    + exists None. split; [by right|]. rewrite orb_true_r. unfold e1. by destruct (chunk_model c).
Qed.

Lemma on_chunks_delivers cs : ∀ st,
  ∃ evs st', delivers (for_each on_chunk st cs) evs st' ∧
    heard (map chunk_id cs) (map usage cs) (flat_map chunk_texts cs) (flat_map chunk_deltas cs) st st' evs.
Proof.
  induction cs as [|c cs IH]; intros st; simpl.
  - eexists _, _. split; [apply delivers_done|apply heard_refl].
  - destruct (on_chunk_delivers st c) as (e1 & st1 & Hd & Hh).
    destruct (IH st1) as (e2 & st2 & Hd' & Hh').
    eexists _, _. split; [by eapply delivers_and_then|].
    by apply (heard_trans [chunk_id c] [usage c] _ _ _ _ _ _ _ st1).
Qed.

Section protocol.
Context `{CF : !ChunkFormat}.

(** The chunks a task hears and how the stream ends: [None] at [[DONE]], else the error. *)
Fixpoint received (polls : list Poll) : list ChatCompletionChunk * option str :=
  match polls with
  | [] | PollClosed :: _ => ([], Some (lit "stream closed before chat completion finished"))
  | PollError message :: _ => ([], Some message)
  | PollTimeout :: _ => ([], Some (lit "idle timeout waiting for SSE"))
  | PollEvent data :: polls =>
      if seqb (trim data) DONE then ([], None)
      else
        let (chunks, ending) := received polls in
        match parse_chunk data with
        | Some chunk => (chunk :: chunks, ending)
        | None => (chunks, ending)
        end
  end.

Definition call_events (targets : gmap str ChatToolTarget) (call : AccumulatedToolCall) :
    list ResponseEvent :=
  [OutputItemAdded (restored_call targets call); OutputItemDone (restored_call targets call)].

Definition final_message (rid : option str) (text : str) (calls : list AccumulatedToolCall) :
    list ResponseEvent :=
  if seqb text [] then []
  else [OutputItemDone (assistant_message_item rid text (Some (if is_nil calls then FinalAnswer else Commentary)))].

(** What is sent once the stream has ended in state [st]. *)
Definition tail_events (targets : gmap str ChatToolTarget) (st : ChatStreamState) (ending : option str) :
    list Event :=
  match ending with
  | None =>
      map Ok (flat_map (call_events targets) (tool_calls st) ++
              final_message (response_id st) (assistant_text st) (tool_calls st) ++
              [Completed (default (lit "chatcmpl") (response_id st)) (token_usage st) None])
  | Some message => [Err (Stream message)]
  end.

Lemma emit_calls_delivers targets calls :
  delivers (for_each (emit_call targets) tt calls) (map Ok (flat_map (call_events targets) calls)) tt.
Proof.
  induction calls as [|c calls IH]; cbn [for_each flat_map]; [apply delivers_done|].
  rewrite map_app. eapply delivers_and_then; [|exact IH].
  apply (delivers_and_then _ _ [_] [_] tt tt); apply delivers_emit.
Qed.

Lemma finish_delivers targets st :
  delivers (finish_chat_stream st targets) (tail_events targets st None) tt.
Proof.
  unfold finish_chat_stream, tail_events. rewrite !map_app.
  eapply delivers_and_then; [apply emit_calls_delivers|].
  eapply delivers_and_then; [|apply delivers_ignoring].
  unfold final_message. destruct (seqb _ _); [apply delivers_done|].
  destruct (tool_calls st); apply delivers_emit.
Qed.

(** The run, from any state: events of the chunks, then the tail. *)
Lemma process_loop_delivers targets polls : ∀ st,
  let (cs, ending) := received polls in
  ∃ body st', delivers (process_loop targets st polls) (body ++ tail_events targets st' ending) tt ∧
    heard (map chunk_id cs) (map usage cs) (flat_map chunk_texts cs) (flat_map chunk_deltas cs) st st' body.
Proof.
  induction polls as [|[data|m| |] polls IH]; intros st; simpl;
    try (exists [], st; split; [apply delivers_ignoring|apply heard_refl]).
  destruct (seqb (trim data) DONE).
  { exists [], st. split; [apply finish_delivers|apply heard_refl]. }
  destruct (parse_chunk data) as [c|].
  - destruct (on_chunk_delivers st c) as (e1 & st1 & Hd & Hh). specialize (IH st1).
    destruct (received polls) as [cs ending]. destruct IH as (body & st' & Hd' & Hh').
    exists (e1 ++ body), st'. split.
    + rewrite <- app_assoc. by eapply delivers_and_then.
    + by apply (heard_trans [chunk_id c] [usage c] _ _ _ _ _ _ _ st1).
  - specialize (IH st). by destruct (received polls).
Qed.

Lemma stream_events_split server_model targets polls :
  let (cs, ending) := received polls in
  ∃ body st,
    stream_events None server_model targets polls =
      option_list (Ok ∘ ServerModel <$> server_model) ++ body ++ tail_events targets st ending ∧
    heard (map chunk_id cs) (map usage cs) (flat_map chunk_texts cs) (flat_map chunk_deltas cs)
      default_state st body.
Proof.
  pose proof (process_loop_delivers targets polls default_state) as H.
  destruct (received polls) as [cs ending]. destruct H as (body & st & Hd & Hh).
  exists body, st. split; [|done].
  assert (Hs : delivers (spawn_chat_response_stream server_model targets polls)
    (option_list (Ok ∘ ServerModel <$> server_model) ++ body ++ tail_events targets st ending) tt).
  { eapply delivers_and_then; [|exact Hd]. destruct server_model; auto with codex. }
  unfold stream_events. by rewrite (Hs []).
Qed.

Lemma omap_none {A B} (f : A → option B) l : Forall (fun x => f x = None) l → omap f l = [].
Proof. induction 1 as [|x l Hx _ IH]; simpl; [done|]. by rewrite Hx. Qed.

Lemma body_no_calls body : Forall body_event body → omap call_event body = [].
Proof. intros H. apply omap_none. eapply Forall_impl; [exact H|]. by intros e []. Qed.

(** Every stream delivers exactly one terminal event and delivers it last: the
    completion, with the first id the provider gave and its last usage report,
    when [[DONE]] arrived, and otherwise the error that ended the stream. *)
Theorem chat_stream_terminates_once server_model targets polls :
  let (cs, ending) := received polls in
  ∃ pre,
    stream_events None server_model targets polls = pre ++
      [match ending with
       | None => Ok (Completed (default (lit "chatcmpl") (first_some (map chunk_id cs)))
                       (usage_into <$> last (omap id (map usage cs))) None)
       | Some message => Err (Stream message)
       end] ∧
    Forall (fun e => terminal e = false) pre.
Proof.
  pose proof (stream_events_split server_model targets polls) as H.
  destruct (received polls) as [cs ending]. destruct H as (body & st & -> & Hh).
  pose proof (heard_body _ _ _ _ _ _ _ Hh) as Hb.
  assert (Hs : Forall (fun e => terminal e = false)
                 (option_list (Ok ∘ ServerModel <$> server_model) ++ body)).
  { apply Forall_app_2; [destruct server_model; by repeat constructor|].
    eapply Forall_impl; [exact Hb|]. by intros e []. }
  destruct ending as [m|]; simpl.
  - eexists. by rewrite app_assoc.
  - rewrite !map_app, !app_assoc. simpl.
    rewrite (heard_id _ _ _ _ _ _ _ Hh), (heard_usage _ _ _ _ _ _ _ Hh). cbn [default_state response_id token_usage].
    eexists. split; [f_equal; f_equal; f_equal; f_equal; by destruct (last _)|].
    repeat apply Forall_app_2; try (by apply Forall_app in Hs as []).
    + apply Forall_map. induction (tool_calls st) as [|c l IH]; simpl; by repeat constructor.
    + unfold final_message. destruct (seqb _ _); by repeat constructor.
Qed.

Lemma message_events_of_tail targets st ending :
  omap message_event (tail_events targets st ending) =
    match ending with
    | None => final_message (response_id st) (assistant_text st) (tool_calls st)
    | Some _ => []
    end.
Proof.
  destruct ending as [m|]; [done|]. unfold tail_events. rewrite !map_app, !omap_app. simpl.
  rewrite app_nil_r. rewrite omap_none.
  2:{ induction (tool_calls st) as [|c l IH]; simpl; by repeat constructor. }
  unfold final_message. by destruct (seqb _ _).
Qed.

Lemma call_events_of_tail targets st ending :
  omap call_event (tail_events targets st ending) =
    match ending with None => flat_map (call_events targets) (tool_calls st) | Some _ => [] end.
Proof.
  destruct ending as [m|]; [done|]. unfold tail_events. rewrite !map_app, !omap_app. simpl.
  assert (Hm : ∀ rid text calls, omap call_event (map Ok (final_message rid text calls)) = []).
  { intros rid text calls. unfold final_message. by destruct (seqb text []). }
  rewrite Hm, app_nil_r. induction (tool_calls st) as [|c l IH]; simpl; [done|]. unfold omap in IH. by rewrite IH.
Qed.

Lemma concat_nil_texts texts : Forall (fun t => t ≠ []) texts → seqb (concat texts) [] = is_nil texts.
Proof. intros H. destruct H as [|t texts Ht _]; [done|]. simpl. by destruct t. Qed.

Lemma chunk_texts_nonempty cs : Forall (fun t => t ≠ []) (flat_map chunk_texts cs).
Proof.
  apply Forall_flat_map, Forall_true. intros c. apply Forall_flat_map, Forall_true. intros ch.
  unfold choice_texts. destruct (delta_content _) as [t|]; [|constructor].
  destruct (seqb t []) eqn:E; [constructor|]. apply seqb_neq in E. by repeat constructor.
Qed.

(** The text of a completion reaches the client as one message: nothing about a
    message is sent when the provider sent no text; otherwise the message is
    announced once, empty, before its text, then every non-empty fragment follows in
    order, and a completed stream closes it with one item that holds exactly the
    concatenation of the fragments and is the final answer iff no tool was called.
    The announced id is the final one or the fallback used before an id was known. *)
Theorem chat_stream_text server_model targets polls :
  let (cs, ending) := received polls in
  let texts := flat_map chunk_texts cs in
  let rid := first_some (map chunk_id cs) in
  let calls := foldl merge_calls [] (flat_map chunk_deltas cs) in
  ∃ rid0, (rid0 = rid ∨ rid0 = None) ∧
  omap message_event (stream_events None server_model targets polls) =
    match texts with
    | [] => []
    | _ =>
        OutputItemAdded (assistant_message_item rid0 [] None) :: map OutputTextDelta texts ++
        match ending with
        | None => [OutputItemDone (assistant_message_item rid (concat texts)
                     (Some (if is_nil calls then FinalAnswer else Commentary)))]
        | Some _ => []
        end
    end.
Proof.
  pose proof (stream_events_split server_model targets polls) as H.
  destruct (received polls) as [cs ending]. destruct H as (body & st & -> & Hh).
  destruct Hh as [Hi Hu Hc Ht _ Hb (rid0 & Hr & He)]. cbn [default_state response_id tool_calls assistant_text
    assistant_item_started orb app] in *.
  exists rid0. split; [by rewrite Hi in Hr|].
  rewrite !omap_app, He, message_events_of_tail.
  replace (omap message_event _) with (@nil ResponseEvent) by by destruct server_model.
  unfold final_message. rewrite Hc, Ht, Hi, (concat_nil_texts _ (chunk_texts_nonempty cs)).
  destruct (flat_map chunk_texts cs); [by destruct ending|]. simpl. by destruct ending.
Qed.

(** The tool calls of a completed stream are announced and completed one after the
    other, in the order of their positions, each as one function call item under
    the tool's restored identity, before the message is closed; a stream that ends
    in an error offers no tool call for execution. *)
Theorem chat_stream_tool_calls server_model targets polls :
  let (cs, ending) := received polls in
  omap call_event (stream_events None server_model targets polls) =
    match ending with
    | None => flat_map (call_events targets) (foldl merge_calls [] (flat_map chunk_deltas cs))
    | Some _ => []
    end.
Proof.
  pose proof (stream_events_split server_model targets polls) as H.
  destruct (received polls) as [cs ending]. destruct H as (body & st & -> & Hh).
  rewrite !omap_app, call_events_of_tail, (body_no_calls body) by apply (heard_body _ _ _ _ _ _ _ Hh).
  rewrite (heard_calls _ _ _ _ _ _ _ Hh). by destruct server_model.
Qed.
End protocol.

(** A tool call survives the round trip through a Chat provider: the function call
    item a stream yields for a call, put back into the conversation and translated
    for the next request, is the call the provider made, with the same wire name,
    arguments and id, whatever tools were offered. *)
Theorem tool_call_roundtrip tools call :
  item_calls (restored_call (tool_targets (responses_tools_to_chat_tools tools)) call) =
    [mkToolCall (acc_id call) (lit "function")
       (mkCallFunction (acc_name (acc_function call)) (acc_arguments (acc_function call)))].
Proof.
  set (out := responses_tools_to_chat_tools tools).
  assert (Hn : NoDup (map tool_wire_name out)) by apply retain_unseen_names.
  unfold restored_call. rewrite (tool_targets_lookup _ _ Hn).
  destruct (find_first _ out) as [t|] eqn:E; [|done].
  apply find_first_Some in E as [Hin E%seqb_eq]. cbn [item_calls default fmap option_fmap option_map mbind option_bind].
  rewrite <- E. do 3 f_equal. symmetry.
  apply retain_unseen_sub, list_elem_of_In, in_flat_map in Hin as (x & _ & Hx).
  apply list_elem_of_In in Hx. by eapply convert_tool_name.
Qed.

Lemma merge_first_call n d :
  delta_index d = Some n →
  merge_calls [] d = replicate n default_call ++ [apply_delta default_call d].
Proof.
  intros Hd. unfold merge_calls. rewrite Hd.
  change (alter (fun call => apply_delta call d) n (replicate (S n) default_call) =
          replicate n default_call ++ [apply_delta default_call d]).
  rewrite replicate_S_end, alter_app_r_alt by (rewrite length_replicate; lia).
  by rewrite length_replicate, Nat.sub_diag.
Qed.

(** A first fragment that addresses position [n] makes the completed stream offer
    [n] function calls before it that no fragment described, each with an empty call id
    and, unless a tool is called so, an empty name. *)
Theorem sparse_tool_index_invents_calls n d targets :
  delta_index d = Some n → targets !! [] = None →
  flat_map (call_events targets) (foldl merge_calls [] [d]) =
    concat (replicate n
      [OutputItemAdded (FunctionCall (Some []) [] None [] [] None);
       OutputItemDone (FunctionCall (Some []) [] None [] [] None)]) ++
    call_events targets (apply_delta default_call d).
Proof.
  intros Hd Ht. cbn [foldl]. rewrite (merge_first_call n d Hd), flat_map_app. f_equal.
  assert (Hc : call_events targets default_call =
        [OutputItemAdded (FunctionCall (Some []) [] None [] [] None);
         OutputItemDone (FunctionCall (Some []) [] None [] [] None)]).
  { unfold call_events, restored_call. cbn [default_call acc_function acc_name acc_id]. by rewrite Ht. }
  induction n as [|n IH] in |- *; cbn [replicate flat_map concat]; [done|]. by rewrite IH, Hc.
Qed.

Lemma sparse_tool_index_invents_calls_witness :
  flat_map (call_events ∅) (foldl merge_calls [] [mkCallDelta (Some 1%nat) (Some (lit "c")) None]) =
    [OutputItemAdded (FunctionCall (Some []) [] None [] [] None);
     OutputItemDone (FunctionCall (Some []) [] None [] [] None)] ++
    call_events ∅ (mkAcc (lit "c") (mkAccFunction [] [])).
Proof.
  exact (sparse_tool_index_invents_calls 1 (mkCallDelta (Some 1%nat) (Some (lit "c")) None) ∅
           eq_refl eq_refl).
Defined.

(** A provider that names the response only in its second chunk. *)
Definition late_id_format : ChunkFormat := fun data =>
  if seqb data (lit "first")
  then Some (mkChunk None None [mkChoice (mkDelta (Some (lit "Hel")) [])] None)
  else if seqb data (lit "second")
  then Some (mkChunk (Some (lit "r1")) None [mkChoice (mkDelta (Some (lit "lo")) [])] None)
  else None.

(** When the provider gives the response id only after the first text, the one
    message is announced under the fallback id and completed under another id. *)
Theorem message_id_changes_midway :
  omap message_event
    (@stream_events late_id_format None None ∅
       [PollEvent (lit "first"); PollEvent (lit "second"); PollEvent (lit "[DONE]")]) =
  [OutputItemAdded (Message (Some (lit "chatcmpl-message")) (lit "assistant") [] None None);
   OutputTextDelta (lit "Hel");
   OutputTextDelta (lit "lo");
   OutputItemDone (Message (Some (lit "r1-message")) (lit "assistant") [OutputText (lit "Hello")]
     (Some FinalAnswer) None)].
Proof. vm_compute. reflexivity. Qed.
