(* ===== verification/Approval.v ===== *)
(** * The approval service

    [apps/web/crates/approval-service/src/lib.rs]: approval requests of the Codex
    runtime are stored, shown to the owner of the profile they belong to, decided
    once, dispatched to the runtime and settled.  The tables the queries touch
    ([profiles], [runs], [approvals], [audit_log]) are a record of finite maps and
    lists; every public method is one transaction, a function from the database to
    the database and a result, in which an error return rolls back.  The [state]
    and [decision] columns are inductive types with the values their CHECK
    constraints admit.  The clock, fresh row ids and the JSON text format are
    arguments. *)

From stdpp Require Import sorting.
From S2P Require Import Prelude RustStr MachineInt ResponseModel.
Open Scope N_scope.

Abbreviation Uuid := N (only parsing).
Abbreviation Timestamp := Z (only parsing).

(** ** Rows *)

Inductive ApprovalState :=
| SPending | SDispatching | SDeliveryUnknown
| SApproved | SRejected | SAnswered | SExpired | SCancelled.
#[export] Instance ApprovalState_eq_dec : EqDecision ApprovalState.
Proof. solve_decision. Defined.

Inductive StoredDecision := DApproved | DRejected | DAnswered.
#[export] Instance StoredDecision_eq_dec : EqDecision StoredDecision.
Proof. solve_decision. Defined.

Record Profile := mkProfile {
  profile_organization : Uuid;
  owner_user_id : Uuid;
  runtime_key : str;
  profile_active : bool
}.
Record Run := mkRun {
  run_id : Uuid;
  run_organization : Uuid;
  codex_thread_id : option str;
  run_created_at : Timestamp
}.
Record Approval := mkApproval {
  approval_run : Uuid;
  request_type : str;
  request_payload : Json;
  organization_id : Uuid;
  profile_id : Uuid;
  thread_id : option str;
  runtime_instance_id : option Uuid;
  runtime_request_id : str;
  state : ApprovalState;
  version : Z;
  decision : option StoredDecision;
  decided_by : option Uuid;
  decided_at : option Timestamp;
  created_at : Timestamp
}.
Record AuditEntry := mkAudit {
  audit_organization : Uuid;
  audit_actor : Uuid;
  audit_target : Uuid;
  audit_decision : StoredDecision;
  audit_delivered : bool
}.

Record Db := mkDb {
  profiles : gmap Uuid Profile;
  runs : list Run;
  approvals : gmap Uuid Approval;
  audit_log : list AuditEntry
}.

Definition with_approvals (db : Db) (a : gmap Uuid Approval) : Db :=
  mkDb (profiles db) (runs db) a (audit_log db).

(** ** Service types *)

Inductive ApprovalServiceError := NotFound | Conflict | Invalid.

Record ApprovalActor := mkActor { actor_user : Uuid; actor_organization : Uuid }.

Record ApprovalDispatch := mkDispatch {
  dispatch_approval : Uuid;
  dispatch_runtime : Uuid;
  dispatch_request : Json;
  dispatch_response : Json;
  dispatch_version : Z;
  terminal_state : ApprovalState;
  dispatch_decision : StoredDecision
}.

Inductive ApprovalOutcome := Accepted | Declined | OutcomeAnswered | OutcomeCancelled.

Record ResolvedApproval := mkResolved {
  resolved_approval : Uuid;
  resolved_thread : str;
  resolved_turn : option str;
  resolved_item : option str;
  resolved_outcome : ApprovalOutcome
}.

Inductive ApprovalDecision := Accept | AcceptForSession | Decline | Cancel.
Record DecideApprovalRequest := mkDecide { decide_decision : ApprovalDecision; decide_version : Z }.
Record RespondUserInputRequest := mkRespond {
  answers : gmap str (list str);
  respond_version : Z
}.

(** JSON text and uuids, by third-party crates. *)
Class JsonText := {
  json_to_string : Json → str;
  json_from_str : str → option Json;
  parse_uuid : str → option Uuid
}.

(** [Map::insert]; without the feature [preserve_order] a map is sorted by its keys. *)
Fixpoint obj_insert (k : str) (v : Json) (o : list (str * Json)) : list (str * Json) :=
  match o with
  | [] => [(k, v)]
  | (k', v') :: o =>
      if seqb k k' then (k, v) :: o
      else if str_leb k k' then (k, v) :: (k', v') :: o
      else (k', v') :: obj_insert k v o
  end.

Definition as_object (v : Json) : option (list (str * Json)) :=
  match v with JObject o => Some o | _ => None end.

Definition COMMAND_APPROVAL : str := lit "item/commandExecution/requestApproval".
Definition FILE_APPROVAL : str := lit "item/fileChange/requestApproval".
Definition MCP_ELICITATION_REQUEST : str := lit "mcpServer/elicitation/request".
Definition PERMISSIONS_APPROVAL : str := lit "item/permissions/requestApproval".
Definition USER_INPUT_REQUEST : str := lit "item/tool/requestUserInput".

(** ** Pure helpers *)

Definition is_active (s : ApprovalState) : bool :=
  match s with SPending | SDispatching | SDeliveryUnknown => true | _ => false end.

Definition resolved_terminal_state (s : ApprovalState) (d : option StoredDecision) :
    option ApprovalState :=
  if negb (is_active s) then None
  else Some match d with
       | Some DRejected => SRejected
       | Some DAnswered => SAnswered
       | Some DApproved => SApproved
       | None => SCancelled
       end.

Definition approval_outcome (s : ApprovalState) : option ApprovalOutcome :=
  match s with
  | SApproved => Some Accepted
  | SRejected => Some Declined
  | SAnswered => Some OutcomeAnswered
  | SCancelled => Some OutcomeCancelled
  | _ => None
  end.

Definition copy_keys (params : Json) (keys : list str) (payload : list (str * Json)) :
    list (str * Json) :=
  foldl (fun payload key =>
    match get key params with Some value => obj_insert key value payload | None => payload end)
    payload keys.

Definition approval_payload (request_type : str) (params : Json) : Json :=
  let payload :=
    copy_keys params [lit "threadId"; lit "turnId"; lit "itemId"; lit "reason"; lit "startedAtMs"] [] in
  let payload :=
    if seqb request_type COMMAND_APPROVAL then copy_keys params [lit "command"] payload else payload in
  let payload :=
    if seqb request_type PERMISSIONS_APPROVAL then copy_keys params [lit "permissions"] payload
    else payload in
  let payload :=
    if seqb request_type MCP_ELICITATION_REQUEST
    then copy_keys params
           [lit "serverName"; lit "mode"; lit "message"; lit "requestedSchema"; lit "url"] payload
    else payload in
  let payload :=
    if seqb request_type USER_INPUT_REQUEST
    then copy_keys params [lit "questions"; lit "autoResolutionMs"] payload
    else payload in
  JObject payload.

(** The ids of the questions a stored payload asks. *)
Definition question_ids (questions : list Json) : gset str :=
  list_to_set (omap (fun question =>
    match get (lit "id") question ≫= as_str with
    | Some id => if seqb id [] then None else Some id
    | None => None
    end) questions).

Definition answer_ok (value : str) : bool := negb (existsb (N.eqb 0) value) && (byte_len value <=? 4096)%nat.

(** [usize::saturating_add] over all the values. *)
Definition total_bytes (answers : gmap str (list str)) : N :=
  foldl (fun total value => N.min USIZE_MAX (total + N.of_nat (byte_len value))) 0
    (concat (map snd (map_to_list answers))).

Definition validate_user_input_answers (payload : Json) (request : RespondUserInputRequest) :
    result unit ApprovalServiceError :=
  match get (lit "questions") payload ≫= as_array with
  | None => Err Invalid
  | Some questions =>
      let ids := question_ids questions in
      if bool_decide (ids = ∅) || negb (size (answers request) =? size ids)%nat ||
         negb (forallb (fun p => bool_decide (fst p ∈ ids)) (map_to_list (answers request)))
      then Err Invalid
      else if negb (forallb (fun p =>
                let values := snd p in
                negb (length values =? 0)%nat && (length values <=? 20)%nat && forallb answer_ok values)
                (map_to_list (answers request)))
      then Err Invalid
      else if 65536 <? total_bytes (answers request) then Err Invalid
      else Ok tt
  end.

(** The value an accepted form field is given. *)
Definition field_value (property : list (str * Json)) : result Json ApprovalServiceError :=
  match assoc (lit "const") property with
  | Some value => Ok value
  | None =>
      match assoc (lit "default") property with
      | Some value => Ok value
      | None =>
          if bool_decide ((assoc (lit "type") property ≫= as_str) = Some (lit "boolean"))
          then Ok (JBool true)
          else
            match assoc (lit "enum") property ≫= as_array with
            | Some [value] => Ok value
            | _ => Err Invalid
            end
      end
  end.

Definition accept_field (properties content : list (str * Json)) (field : Json) :
    result (list (str * Json)) ApprovalServiceError :=
  match as_str field with
  | None => Err Invalid
  | Some field =>
      match assoc field properties ≫= as_object with
      | None => Err Invalid
      | Some property => let? value := field_value property in Ok (obj_insert field value content)
      end
  end.

Definition mcp_elicitation_accept_content (payload : Json) : result Json ApprovalServiceError :=
  match get (lit "mode") payload ≫= as_str with
  | None => Err Invalid
  | Some mode =>
      if seqb mode (lit "url") then Ok JNull
      else if negb (seqb mode (lit "form")) then Err Invalid
      else
        match get (lit "requestedSchema") payload ≫= as_object with
        | None => Err Invalid
        | Some schema =>
            match assoc (lit "properties") schema ≫= as_object with
            | None => Err Invalid
            | Some properties =>
                let required := default [] (assoc (lit "required") schema ≫= as_array) in
                let? content := try_fold (accept_field properties) [] required in
                Ok (JObject content)
            end
        end
  end.

Definition command_decision (d : ApprovalDecision) : str :=
  match d with
  | Accept => lit "accept"
  | AcceptForSession => lit "acceptForSession"
  | Decline => lit "decline"
  | Cancel => lit "cancel"
  end.

Definition permissions_response (permissions : Json) (scope : str) : Json :=
  JObject [(lit "permissions", permissions); (lit "scope", JString scope)].

Definition elicitation_response (action : str) (content : Json) : Json :=
  JObject [(lit "action", JString action); (lit "content", content); (lit "_meta", JNull)].

Definition approval_response (request_type : str) (payload : Json) (d : ApprovalDecision) :
    result (Json * ApprovalState * StoredDecision) ApprovalServiceError :=
  let '(terminal_state, stored_decision) :=
    match d with
    | Accept | AcceptForSession => (SApproved, DApproved)
    | Decline => (SRejected, DRejected)
    | Cancel => (SCancelled, DRejected)
    end in
  let? response :=
    (if seqb request_type COMMAND_APPROVAL || seqb request_type FILE_APPROVAL
     then Ok (JObject [(lit "decision", JString (command_decision d))])
     else if seqb request_type PERMISSIONS_APPROVAL
     then
       let requested := default (JObject []) (get (lit "permissions") payload) in
       Ok match d with
          | Accept => permissions_response requested (lit "turn")
          | AcceptForSession => permissions_response requested (lit "session")
          | Decline | Cancel => permissions_response (JObject []) (lit "turn")
          end
     else if seqb request_type MCP_ELICITATION_REQUEST
     then
       match d with
       | Accept | AcceptForSession =>
           let? content := mcp_elicitation_accept_content payload in
           Ok (elicitation_response (lit "accept") content)
       | Decline => Ok (elicitation_response (lit "decline") JNull)
       | Cancel => Ok (elicitation_response (lit "cancel") JNull)
       end
     else Err Invalid)
  in Ok (response, terminal_state, stored_decision).

(** [is_u64() || is_i64()] of a number literal. *)
Definition is_integer (literal : str) : bool :=
  let digits l := negb (seqb l []) && forallb (fun c => (48 <=? c) && (c <=? 57)) l in
  let value l := foldl (fun n c => 10 * n + (c - 48)) 0 l in
  match literal with
  | 45 :: l => digits l && (value l <=? 2 ^ 63)
  | l => digits l && (value l <? 2 ^ 64)
  end.

Definition valid_request_id (v : Json) : bool :=
  match v with JString _ => true | JNumber literal => is_integer literal | _ => false end.

Definition handled_method (method : str) : bool :=
  existsb (seqb method)
    [COMMAND_APPROVAL; FILE_APPROVAL; MCP_ELICITATION_REQUEST; PERMISSIONS_APPROVAL; USER_INPUT_REQUEST].

(** ** Operations *)

Section service.
Context `{JT : !JsonText}.
(** The runtime key the service was built for. *)
Context (key : str).

Definition Op (A : Type) : Type := Db → Db * result A ApprovalServiceError.

(** The profile of a row, when its runtime key is the service's. *)
Definition row_profile (db : Db) (a : Approval) : option Profile :=
  match profiles db !! profile_id a with
  | Some p => if seqb (runtime_key p) key then Some p else None
  | None => None
  end.

(** [p JOIN runs r ... WHERE p.runtime_key = $6 AND p.status = 'active' ORDER BY r.created_at DESC LIMIT 1] *)
Definition later_run (a b : Uuid * Profile * Run) : Uuid * Profile * Run :=
  if (run_created_at (snd a) <? run_created_at (snd b))%Z then b else a.

Definition capture_target (db : Db) (thread : str) : option (Uuid * Profile * Run) :=
  let candidates :=
    flat_map (fun '(pid, p) =>
      if seqb (runtime_key p) key && profile_active p
      then omap (fun r =>
             if (run_organization r =? profile_organization p) &&
                bool_decide (codex_thread_id r = Some thread)
             then Some (pid, p, r) else None) (runs db)
      else []) (map_to_list (profiles db)) in
  match candidates with
  | [] => None
  | c :: cs => Some (foldl later_run c cs)
  end.

(** The row the unique index on profile, runtime instance and runtime request holds. *)
Definition same_request (pid runtime : Uuid) (request : str) (a : Approval) : bool :=
  (profile_id a =? pid) && bool_decide (runtime_instance_id a = Some runtime) &&
  seqb (runtime_request_id a) request.

Definition find_approval (db : Db) (p : Approval → bool) : option Uuid :=
  fst <$> find_first (fun e => p (snd e)) (map_to_list (approvals db)).

Definition capture_message (now : Timestamp) (fresh runtime : Uuid) (message : Json) : Op (option Uuid) :=
  fun db =>
  match get (lit "method") message ≫= as_str with
  | None => (db, Ok None)
  | Some method =>
      if negb (handled_method method) then (db, Ok None)
      else
        match get (lit "id") message, get (lit "params") message with
        | Some request_id, Some params =>
            if negb (valid_request_id request_id) then (db, Err Invalid)
            else
              match get (lit "threadId") params ≫= as_str with
              | None => (db, Err Invalid)
              | Some thread =>
                  if seqb thread [] then (db, Err Invalid)
                  else
                    let request := json_to_string request_id in
                    let existing :=
                      find_approval db (fun a =>
                        match row_profile db a with
                        | Some _ => bool_decide (runtime_instance_id a = Some runtime) &&
                                    seqb (runtime_request_id a) request
                        | None => false
                        end) in
                    let fallback :=
                      match existing with Some id => Ok (Some id) | None => Err NotFound end in
                    match capture_target db thread with
                    | None => (db, fallback)
                    | Some (pid, p, r) =>
                        match find_approval db (same_request pid runtime request) with
                        | Some _ => (db, fallback)
                        | None =>
                            (with_approvals db (<[fresh :=
                               mkApproval (run_id r) method (approval_payload method params)
                                 (profile_organization p) pid (Some thread) (Some runtime) request
                                 SPending 0 None None None now]> (approvals db)),
                             Ok (Some fresh))
                        end
                    end
              end
        | _, _ => (db, Err Invalid)
        end
  end.

Definition capture_event_frame (now : Timestamp) (fresh : Uuid) (frame : str) : Op (option Uuid) :=
  fun db =>
  match ((strip_prefix (lit "data: ") frame ≫= strip_suffix [nl; nl]) ≫= json_from_str) with
  | None => (db, Err Invalid)
  | Some envelope =>
      let params := get (lit "params") envelope in
      match ((params ≫= get (lit "runtime_instance_id")) ≫= as_str) ≫= parse_uuid,
            params ≫= get (lit "message") with
      | Some runtime, Some message => capture_message now fresh runtime message db
      | _, _ => (db, Err Invalid)
      end
  end.

(** [a.state IN (...) AND a.runtime_instance_id IS DISTINCT FROM $2] *)
Definition is_stale (db : Db) (runtime : Uuid) (a : Approval) : bool :=
  match row_profile db a with
  | Some _ => is_active (state a) && negb (bool_decide (runtime_instance_id a = Some runtime))
  | None => false
  end.

(** A row with its [state] changed, its version counted up and its decision time filled in. *)
Definition settle (now : Timestamp) (s : ApprovalState) (a : Approval) : Approval :=
  mkApproval (approval_run a) (request_type a) (request_payload a) (organization_id a) (profile_id a)
    (thread_id a) (runtime_instance_id a) (runtime_request_id a) s (version a + 1) (decision a)
    (decided_by a) (Some (default now (decided_at a))) (created_at a).

Definition with_state (s : ApprovalState) (a : Approval) : Approval :=
  mkApproval (approval_run a) (request_type a) (request_payload a) (organization_id a) (profile_id a)
    (thread_id a) (runtime_instance_id a) (runtime_request_id a) s (version a + 1) (decision a)
    (decided_by a) (decided_at a) (created_at a).

Definition cancel_stale_runtime_requests (now : Timestamp) (runtime : Uuid) : Op nat := fun db =>
  let stale a := is_stale db runtime a in
  (with_approvals db ((fun a => if stale a then settle now SCancelled a else a) <$> approvals db),
   Ok (size (filter (fun e => stale (snd e) = true) (approvals db)))).

(** [ORDER BY a.created_at, a.id] *)
Definition listed_before (x y : Uuid * Approval) : Prop :=
  (created_at (snd x) < created_at (snd y))%Z ∨
  created_at (snd x) = created_at (snd y) ∧ fst x ≤ fst y.
#[export] Instance listed_before_dec x y : Decision (listed_before x y).
Proof. unfold listed_before. apply _. Defined.

Definition list_pending (now : Timestamp) (actor : ApprovalActor) (runtime : Uuid) :
    Op (list (Uuid * Approval)) := fun db =>
  let db := fst (cancel_stale_runtime_requests now runtime db) in
  (db, Ok (merge_sort listed_before (filter (fun e =>
         match row_profile db (snd e) with
         | Some p =>
             (organization_id (snd e) =? actor_organization actor) &&
             (owner_user_id p =? actor_user actor) && is_active (state (snd e)) &&
             bool_decide (runtime_instance_id (snd e) = Some runtime)
         | None => false
         end = true) (map_to_list (approvals db))))).

Definition nonempty_field (field : str) (payload : Json) : option str :=
  match get field payload ≫= as_str with
  | Some s => if seqb s [] then None else Some s
  | None => None
  end.

Definition resolve_runtime_request (now : Timestamp) (runtime : Uuid) (thread : str) (request : Json) :
    Op (option ResolvedApproval) := fun db =>
  if blank thread then (db, Err Invalid)
  else if negb (valid_request_id request) then (db, Err Invalid)
  else
    let request := json_to_string request in
    match find_first (fun e =>
            match row_profile db (snd e) with
            | Some _ =>
                bool_decide (runtime_instance_id (snd e) = Some runtime) &&
                bool_decide (thread_id (snd e) = Some thread) &&
                seqb (runtime_request_id (snd e)) request
            | None => false
            end) (map_to_list (approvals db)) with
    | None => (db, Ok None)
    | Some (id, a) =>
        match thread_id a with
        | None => (db, Err Invalid)
        | Some thread =>
            if seqb thread [] then (db, Err Invalid)
            else
              let '(db', resolved) :=
                match resolved_terminal_state (state a) (decision a) with
                | Some s => (with_approvals db (<[id := settle now s a]> (approvals db)), s)
                | None => (db, state a)
                end in
              match approval_outcome resolved with
              | None => (db, Err Invalid)
              | Some outcome =>
                  (db', Ok (Some (mkResolved id thread (nonempty_field (lit "turnId") (request_payload a))
                                    (nonempty_field (lit "itemId") (request_payload a)) outcome)))
              end
        end
    end.

(** [WHERE a.id = $1 AND a.organization_id = $2 AND p.owner_user_id = $3 AND p.runtime_key = $4] *)
Definition owned_row (db : Db) (actor : ApprovalActor) (id : Uuid) : option Approval :=
  match approvals db !! id with
  | Some a =>
      match row_profile db a with
      | Some p =>
          if (organization_id a =? actor_organization actor) && (owner_user_id p =? actor_user actor)
          then Some a else None
      | None => None
      end
  | None => None
  end.

Definition dispatching (now : Timestamp) (actor : ApprovalActor) (d : StoredDecision) (a : Approval) :
    Approval :=
  mkApproval (approval_run a) (request_type a) (request_payload a) (organization_id a) (profile_id a)
    (thread_id a) (runtime_instance_id a) (runtime_request_id a) SDispatching (version a + 1)
    (Some d) (Some (actor_user actor)) (Some now) (created_at a).

(** A row that may be dispatched with decision [d]: undecided, or a retry of the same decision. *)
Definition may_dispatch (a : Approval) (d : StoredDecision) : bool :=
  match state a with
  | SPending => true
  | SDeliveryUnknown => bool_decide (decision a = Some d)
  | _ => false
  end.

(** The committed row becomes a dispatch once its request id is read back. *)
Definition dispatch_of (id runtime : Uuid) (a : Approval) (response : Json) (s : ApprovalState)
    (d : StoredDecision) : result ApprovalDispatch ApprovalServiceError :=
  match json_from_str (runtime_request_id a) with
  | Some request => Ok (mkDispatch id runtime request response (version a + 1) s d)
  | None => Err Invalid
  end.

Definition begin_decision (now : Timestamp) (actor : ApprovalActor) (id runtime : Uuid)
    (request : DecideApprovalRequest) : Op ApprovalDispatch := fun db =>
  match owned_row db actor id with
  | None => (db, Err NotFound)
  | Some a =>
      if negb (bool_decide (runtime_instance_id a = Some runtime)) ||
         negb (version a =? decide_version request)%Z
      then (db, Err Conflict)
      else
        match approval_response (request_type a) (request_payload a) (decide_decision request) with
        | Err e => (db, Err e)
        | Ok (response, s, d) =>
            if negb (may_dispatch a d) then (db, Err Conflict)
            else
              (with_approvals db (<[id := dispatching now actor d a]> (approvals db)),
               dispatch_of id runtime a response s d)
        end
  end.

(** [json!({ "answers": request.answers })]; the order of an object's keys carries no meaning. *)
Definition answers_json (answers : gmap str (list str)) : Json :=
  JObject [(lit "answers", JObject (map (fun '(id, values) =>
    (id, JObject [(lit "answers", JArray (map JString values))])) (map_to_list answers)))].

Definition begin_user_input_response (now : Timestamp) (actor : ApprovalActor) (id runtime : Uuid)
    (request : RespondUserInputRequest) : Op ApprovalDispatch := fun db =>
  match owned_row db actor id with
  | None => (db, Err NotFound)
  | Some a =>
      if negb (bool_decide (runtime_instance_id a = Some runtime)) ||
         negb (version a =? respond_version request)%Z || negb (may_dispatch a DAnswered)
      then (db, Err Conflict)
      else if negb (seqb (request_type a) USER_INPUT_REQUEST) then (db, Err Invalid)
      else
        match validate_user_input_answers (request_payload a) request with
        | Err e => (db, Err e)
        | Ok _ =>
            (with_approvals db (<[id := dispatching now actor DAnswered a]> (approvals db)),
             dispatch_of id runtime a (answers_json (answers request)) SAnswered DAnswered)
        end
  end.

(** [insert_audit] *)
Definition insert_audit (actor : ApprovalActor) (d : ApprovalDispatch) (delivered : bool) (db : Db) : Db :=
  mkDb (profiles db) (runs db) (approvals db)
    (audit_log db ++ [mkAudit (actor_organization actor) (actor_user actor) (dispatch_approval d)
                        (dispatch_decision d) delivered]).

(** [WHERE id = $2 AND organization_id = $3 AND state = 'dispatching' AND version = $4] *)
Definition in_flight (actor : ApprovalActor) (d : ApprovalDispatch) (a : Approval) : bool :=
  (organization_id a =? actor_organization actor) && bool_decide (state a = SDispatching) &&
  (version a =? dispatch_version d)%Z.

Definition complete_decision (actor : ApprovalActor) (d : ApprovalDispatch) : Op unit := fun db =>
  match approvals db !! dispatch_approval d with
  | None => (db, Err Conflict)
  | Some a =>
      if in_flight actor d a
      then (insert_audit actor d true
              (with_approvals db (<[dispatch_approval d := with_state (terminal_state d) a]> (approvals db))),
            Ok tt)
      else if (organization_id a =? actor_organization actor) &&
              bool_decide (state a = terminal_state d) &&
              bool_decide (decision a = Some (dispatch_decision d))
      then (insert_audit actor d true db, Ok tt)
      else (db, Err Conflict)
  end.

Definition mark_delivery_unknown (actor : ApprovalActor) (d : ApprovalDispatch) : Op unit := fun db =>
  let db' :=
    match approvals db !! dispatch_approval d with
    | Some a =>
        if in_flight actor d a
        then with_approvals db (<[dispatch_approval d := with_state SDeliveryUnknown a]> (approvals db))
        else db
    | None => db
    end in
  (insert_audit actor d false db', Ok tt).
End service.
