(* ===== verification/ApprovalFacts.v ===== *)
(** * Approvals are decided once, by their owner

    The approval service as a transition system: browsers, the runtime's event
    stream and crashed or slow request handlers interleave their transactions in
    any order.  A handler holds a dispatch between its two transactions, so the
    world keeps the dispatches issued so far. *)

From stdpp Require Import sorting.
From S2P Require Import Prelude RustStr ResponseModel Approval.
Open Scope N_scope.

Section world.
Context `{JT : !JsonText}.
Context (key : str).

Record World := mkWorld { db : Db; issued : list (ApprovalActor * ApprovalDispatch) }.

Definition issue (w : World) (actor : ApprovalActor)
    (out : Db * result ApprovalDispatch ApprovalServiceError) : World :=
  mkWorld (fst out) match snd out with Ok d => (actor, d) :: issued w | Err _ => issued w end.

(** Other services change runs and profiles, but a profile keeps its owner. *)
Definition same_owners (ps ps' : gmap Uuid Profile) : Prop :=
  ∀ pid p, ps !! pid = Some p → ∃ p', ps' !! pid = Some p' ∧ owner_user_id p' = owner_user_id p.

Inductive step (w : World) : World → Prop :=
| step_other ps rs :
    same_owners (profiles (db w)) ps →
    step w (mkWorld (mkDb ps rs (approvals (db w)) (audit_log (db w))) (issued w))
| step_capture now fresh runtime message :
    approvals (db w) !! fresh = None →
    step w (mkWorld (fst (capture_message key now fresh runtime message (db w))) (issued w))
| step_list now actor runtime :
    step w (mkWorld (fst (list_pending key now actor runtime (db w))) (issued w))
| step_resolve now runtime thread request :
    step w (mkWorld (fst (resolve_runtime_request key now runtime thread request (db w))) (issued w))
| step_decide now actor id runtime request :
    step w (issue w actor (begin_decision key now actor id runtime request (db w)))
| step_answer now actor id runtime request :
    step w (issue w actor (begin_user_input_response key now actor id runtime request (db w)))
| step_complete actor d :
    (actor, d) ∈ issued w →
    step w (mkWorld (fst (complete_decision actor d (db w))) (issued w))
| step_unknown actor d :
    (actor, d) ∈ issued w →
    step w (mkWorld (fst (mark_delivery_unknown actor d (db w))) (issued w)).

(** ** What a step does to one row *)

Inductive row_change (w : World) (id : Uuid) (a : Approval) : Approval → Prop :=
| change_settle now s :
    is_active (state a) = true →
    s = SCancelled ∨ resolved_terminal_state (state a) (decision a) = Some s →
    row_change w id a (settle now s a)
| change_dispatch now actor d p :
    may_dispatch a d = true →
    profiles (db w) !! profile_id a = Some p → owner_user_id p = actor_user actor →
    row_change w id a (dispatching now actor d a)
| change_complete actor d s :
    (actor, d) ∈ issued w → dispatch_approval d = id →
    state a = SDispatching → version a = dispatch_version d →
    s = terminal_state d ∨ s = SDeliveryUnknown →
    row_change w id a (with_state s a).

Definition row_outcome (w : World) (id : Uuid) (new : option Approval) : Prop :=
  new = approvals (db w) !! id ∨
  (approvals (db w) !! id = None ∧ ∃ a, new = Some a ∧ state a = SPending ∧ decision a = None) ∨
  ∃ a a', approvals (db w) !! id = Some a ∧ new = Some a' ∧ row_change w id a a'.

Lemma outcome_same w id : row_outcome w id (approvals (db w) !! id).
Proof. by left. Qed.

Lemma outcome_insert w id id' a a' :
  approvals (db w) !! id' = Some a → row_change w id' a a' →
  row_outcome w id (<[id' := a']> (approvals (db w)) !! id).
Proof.
  intros Ha Hc. destruct (decide (id = id')) as [->|Hne].
  - right. right. exists a, a'. by rewrite lookup_insert_eq.
  - left. by rewrite lookup_insert_ne.
Qed.
#[local] Hint Resolve outcome_same outcome_insert : codex.

Lemma capture_outcome w now fresh runtime message id :
  approvals (db w) !! fresh = None →
  row_outcome w id (approvals (fst (capture_message key now fresh runtime message (db w))) !! id).
Proof.
  intros Hf. unfold capture_message. repeat case_match; simpl; auto with codex.
  destruct (decide (id = fresh)) as [->|Hne].
  - right. left. split; [done|]. rewrite lookup_insert_eq. eauto.
  - left. by rewrite lookup_insert_ne.
Qed.

Lemma list_outcome w now actor runtime id :
  row_outcome w id (approvals (fst (list_pending key now actor runtime (db w))) !! id).
Proof.
  simpl. rewrite lookup_fmap. destruct (approvals (db w) !! id) as [a|] eqn:Ha; simpl; [|by left].
  destruct (is_stale key (db w) runtime a) eqn:Hs; [|by left; rewrite Ha].
  right. right. exists a, (settle now SCancelled a). split; [done|]. split; [done|].
  apply change_settle; [|by left]. unfold is_stale in Hs. case_match; [|done].
  by apply andb_true_iff in Hs as [Hs _].
Qed.

Lemma resolve_outcome w now runtime thread request id :
  row_outcome w id (approvals (fst (resolve_runtime_request key now runtime thread request (db w))) !! id).
Proof.
  unfold resolve_runtime_request. destruct (blank thread); simpl; auto with codex.
  destruct (negb (valid_request_id request)); simpl; auto with codex.
  destruct (find_first _ _) as [[id' a]|] eqn:E; simpl; auto with codex.
  apply find_first_Some in E as [Hin _]. apply elem_of_map_to_list in Hin.
  destruct (thread_id a) as [t|]; simpl; auto with codex.
  destruct (seqb t []); simpl; auto with codex.
  destruct (resolved_terminal_state (state a) (decision a)) as [s|] eqn:Er.
  - destruct (approval_outcome s); simpl; auto with codex.
    eapply outcome_insert; [done|]. apply change_settle; [|by right].
    unfold resolved_terminal_state in Er. by destruct (is_active (state a)).
  - destruct (approval_outcome (state a)); simpl; auto with codex.
Qed.

Lemma owned_row_Some d actor id a :
  owned_row key d actor id = Some a →
  approvals d !! id = Some a ∧
  organization_id a = actor_organization actor ∧
  ∃ p, profiles d !! profile_id a = Some p ∧ runtime_key p = key ∧ owner_user_id p = actor_user actor.
Proof.
  unfold owned_row, row_profile. intros H. repeat case_match; simplify_eq.
  rewrite andb_true_iff, !N.eqb_eq in *. split; [done|]. split; [tauto|].
  eexists. split; [done|]. split; [by apply seqb_eq|tauto].
Qed.

(** A dispatch begins for an owned row at the version and runtime the caller saw. *)
Lemma begin_decision_ok now actor id runtime request d :
  let out := begin_decision key now actor id runtime request d in
  fst out = d ∧ is_ok (snd out) = false ∨
  ∃ a response s dec,
    owned_row key d actor id = Some a ∧ runtime_instance_id a = Some runtime ∧
    version a = decide_version request ∧ may_dispatch a dec = true ∧
    approval_response (request_type a) (request_payload a) (decide_decision request) = Ok (response, s, dec) ∧
    out = (with_approvals d (<[id := dispatching now actor dec a]> (approvals d)),
           dispatch_of id runtime a response s dec).
Proof.
  unfold begin_decision. destruct (owned_row key d actor id) as [a|] eqn:Ho; [|by left].
  destruct (_ || _) eqn:Hg; [by left|]. apply orb_false_iff in Hg as [Hr Hv].
  destruct (approval_response _ _ _) as [[[response s] dec]|e] eqn:Ea; [|by left].
  destruct (negb (may_dispatch a dec)) eqn:Hm; [by left|]. right.
  exists a, response, s, dec. apply negb_false_iff in Hr, Hv, Hm.
  apply bool_decide_eq_true in Hr. apply Z.eqb_eq in Hv. repeat split; done.
Qed.

Lemma begin_user_input_ok now actor id runtime request d :
  let out := begin_user_input_response key now actor id runtime request d in
  fst out = d ∧ is_ok (snd out) = false ∨
  ∃ a,
    owned_row key d actor id = Some a ∧ runtime_instance_id a = Some runtime ∧
    version a = respond_version request ∧ may_dispatch a DAnswered = true ∧
    validate_user_input_answers (request_payload a) request = Ok tt ∧
    out = (with_approvals d (<[id := dispatching now actor DAnswered a]> (approvals d)),
           dispatch_of id runtime a (answers_json (answers request)) SAnswered DAnswered).
Proof.
  unfold begin_user_input_response. destruct (owned_row key d actor id) as [a|] eqn:Ho; [|by left].
  destruct (_ || _) eqn:Hg; [by left|]. apply orb_false_iff in Hg as [[Hr Hv]%orb_false_iff Hm].
  destruct (negb (seqb _ _)); [by left|].
  destruct (validate_user_input_answers _ _) as [[]|e] eqn:Ea; [|by left]. right.
  exists a. apply negb_false_iff in Hr, Hv, Hm.
  apply bool_decide_eq_true in Hr. apply Z.eqb_eq in Hv. repeat split; done.
Qed.

Lemma dispatching_outcome w now actor id a dec id' :
  owned_row key (db w) actor id = Some a → may_dispatch a dec = true →
  row_outcome w id' (<[id := dispatching now actor dec a]> (approvals (db w)) !! id').
Proof.
  intros (Ha & _ & p & Hp & _ & Ho)%owned_row_Some Hm.
  eapply outcome_insert; [done|]. by eapply change_dispatch.
Qed.

Lemma in_flight_true actor d a :
  in_flight actor d a = true →
  organization_id a = actor_organization actor ∧ state a = SDispatching ∧ version a = dispatch_version d.
Proof.
  unfold in_flight. rewrite !andb_true_iff, N.eqb_eq, bool_decide_eq_true, Z.eqb_eq. tauto.
Qed.

Lemma step_outcome w w' id : step w w' → row_outcome w id (approvals (db w') !! id).
Proof.
  destruct 1 as [ps rs|now fresh runtime message Hf|now actor runtime|now runtime thread request
    |now actor i runtime request|now actor i runtime request|actor d Hi|actor d Hi].
  - by left.
  - by apply capture_outcome.
  - apply list_outcome.
  - apply resolve_outcome.
  - destruct (begin_decision_ok now actor i runtime request (db w))
      as [[E _]|(a & response & s & dec & Ho & _ & _ & Hm & _ & E)];
      unfold issue; cbn [db]; rewrite E; [by left|]. by apply dispatching_outcome.
  - destruct (begin_user_input_ok now actor i runtime request (db w))
      as [[E _]|(a & Ho & _ & _ & Hm & _ & E)];
      unfold issue; cbn [db]; rewrite E; [by left|]. by apply dispatching_outcome.
  - simpl. unfold complete_decision. destruct (approvals (db w) !! dispatch_approval d) as [a|] eqn:Ha;
      [|by left].
    destruct (in_flight actor d a) eqn:Hf; [|destruct (_ && _); by left]. simpl.
    apply in_flight_true in Hf as (_ & Hs & Hv).
    eapply outcome_insert; [done|]. eapply change_complete; eauto.
  - simpl. unfold mark_delivery_unknown. destruct (approvals (db w) !! dispatch_approval d) as [a|] eqn:Ha;
      [|by left].
    destruct (in_flight actor d a) eqn:Hf; [|by left]. simpl.
    apply in_flight_true in Hf as (_ & Hs & Hv).
    eapply outcome_insert; [done|]. eapply change_complete; eauto.
Qed.

Lemma row_change_version w id a a' : row_change w id a a' → version a' = (version a + 1)%Z.
Proof. by destruct 1. Qed.

Lemma row_change_active w id a a' : row_change w id a a' → is_active (state a) = true.
Proof.
  destruct 1 as [now s H|now actor d p H|actor d s _ _ H]; [done| |by rewrite H].
  unfold may_dispatch in H. by destruct (state a).
Qed.

Lemma row_change_profile w id a a' : row_change w id a a' → profile_id a' = profile_id a.
Proof. by destruct 1. Qed.

Lemma step_version w w' id a :
  step w w' → approvals (db w) !! id = Some a →
  ∃ a', approvals (db w') !! id = Some a' ∧ (a' = a ∨ version a' = version a + 1)%Z.
Proof.
  intros Hs Ha. destruct (step_outcome w w' id Hs) as [H|[[H _]|(b & a' & Hb & H & Hc)]].
  - rewrite H, Ha. eauto.
  - congruence.
  - simplify_eq. eexists. split; [done|]. right. by eapply row_change_version.
Qed.

(** An approval is never lost and its version identifies its content: whatever
    interleaving of transactions follows, the row is still there with a version at
    least as high, and a row found at the version a client saw is the row the
    client saw, so that a decision made on a version applies to what was shown. *)
Theorem approval_version_identifies_row w w' id a :
  rtc step w w' → approvals (db w) !! id = Some a →
  ∃ a', approvals (db w') !! id = Some a' ∧ (version a ≤ version a')%Z ∧
        (version a' = version a → a' = a).
Proof.
  intros Hr. revert a. induction Hr as [w|w w1 w' Hs _ IH]; intros a Ha.
  - exists a. split; [done|]. split; [lia|done].
  - destruct (step_version _ _ _ _ Hs Ha) as (a1 & Ha1 & H1).
    destruct (IH a1 Ha1) as (a' & Ha' & Hv & He). exists a'. split; [done|].
    destruct H1 as [->|H1]; [done|]. split; [lia|]. intros. lia.
Qed.

(** A settled approval is final: once approved, rejected, answered, expired or
    cancelled, no later transaction of any client or of the runtime changes the row. *)
Theorem approval_settled_final w w' id a :
  rtc step w w' → approvals (db w) !! id = Some a → is_active (state a) = false →
  approvals (db w') !! id = Some a.
Proof.
  intros Hr. induction Hr as [w|w w1 w' Hs _ IH]; intros Ha Hn; [done|].
  apply IH; [|done]. destruct (step_outcome w w1 id Hs) as [H|[[H _]|(b & a' & Hb & _ & Hc)]].
  - by rewrite H.
  - congruence.
  - simplify_eq. apply row_change_active in Hc. congruence.
Qed.

(** ** The invariant *)

(** State and decision of a row fit together. *)
Definition consistent (a : Approval) : Prop :=
  match state a with
  | SPending => decision a = None
  | SDispatching | SDeliveryUnknown => decision a ≠ None
  | SApproved => decision a = Some DApproved
  | SRejected => decision a = Some DRejected
  | SAnswered => decision a = Some DAnswered
  | SCancelled => True
  | SExpired => False
  end.

(** A decision was made by the owner of the row's profile. *)
Definition decided_by_owner (ps : gmap Uuid Profile) (a : Approval) : Prop :=
  decision a ≠ None →
  ∃ p, ps !! profile_id a = Some p ∧ decided_by a = Some (owner_user_id p).

(** The terminal states a dispatch may carry for its decision. *)
Definition dispatch_fits (d : ApprovalDispatch) : Prop :=
  match terminal_state d with
  | SApproved => dispatch_decision d = DApproved
  | SRejected | SCancelled => dispatch_decision d = DRejected
  | SAnswered => dispatch_decision d = DAnswered
  | _ => False
  end.

(** A dispatch is not ahead of its row, and is its row's decision while the versions agree. *)
Definition dispatch_ok (as_ : gmap Uuid Approval) (d : ApprovalDispatch) : Prop :=
  dispatch_fits d ∧
  ∃ a, as_ !! dispatch_approval d = Some a ∧ (dispatch_version d ≤ version a)%Z ∧
       (version a = dispatch_version d → decision a = Some (dispatch_decision d)).

Definition slot (e : ApprovalActor * ApprovalDispatch) : Uuid * Z :=
  (dispatch_approval (snd e), dispatch_version (snd e)).

Record sound (w : World) : Prop := {
  sound_rows : ∀ id a, approvals (db w) !! id = Some a → consistent a;
  sound_owner : ∀ id a, approvals (db w) !! id = Some a → decided_by_owner (profiles (db w)) a;
  sound_issued : ∀ actor d, (actor, d) ∈ issued w → dispatch_ok (approvals (db w)) d;
  sound_slots : NoDup (map slot (issued w))
}.

Lemma consistent_change w id a a' :
  sound w → row_change w id a a' → approvals (db w) !! id = Some a → consistent a → consistent a'.
Proof.
  intros Hw Hc Ha Hok. destruct Hc as [now s Hact Hs|now actor d p _ _ _|actor d s Hi <- Hst Hv Hs].
  - unfold consistent, settle in *. cbn [state decision]. destruct Hs as [->|Hs]; [done|].
    unfold resolved_terminal_state in Hs. rewrite Hact in Hs. simpl in Hs.
    apply (inj Some) in Hs as <-. by destruct (decision a) as [[]|].
  - done.
  - destruct (sound_issued w Hw actor d Hi) as (Hf & b & Hb & _ & Hd). simplify_eq.
    specialize (Hd Hv). unfold consistent, with_state. cbn [state decision].
    destruct Hs as [->| ->]; [|by rewrite Hd].
    unfold dispatch_fits in Hf. by destruct (terminal_state d); rewrite ?Hd, ?Hf.
Qed.

Lemma owner_change w id a a' :
  row_change w id a a' → decided_by_owner (profiles (db w)) a → decided_by_owner (profiles (db w)) a'.
Proof.
  intros Hc Ho. destruct Hc as [now s _ _|now actor d p _ Hp Hu|actor d s _ _ _ _ _]; [done| |done].
  intros _. exists p. split; [done|]. simpl. by rewrite Hu.
Qed.

Lemma dispatch_ok_change w w' d :
  step w w' → dispatch_ok (approvals (db w)) d → dispatch_ok (approvals (db w')) d.
Proof.
  intros Hs (Hf & a & Ha & Hv & Hd). split; [done|].
  destruct (step_version _ _ _ _ Hs Ha) as (a' & Ha' & [->|H]).
  - by exists a.
  - exists a'. split; [done|]. split; [lia|]. intros. lia.
Qed.

Lemma same_owners_refl ps : same_owners ps ps.
Proof. intros pid p Hp. eauto. Qed.

(** No operation of the service touches the profiles. *)
Lemma step_profiles w w' : step w w' → same_owners (profiles (db w)) (profiles (db w')).
Proof.
  destruct 1 as [ps rs Ho|now fresh runtime message Hf|now actor runtime|now runtime thread request
    |now actor i runtime request|now actor i runtime request|actor d Hi|actor d Hi]; [done|..];
    match goal with |- same_owners ?a ?b => assert (b = a) as ->; [|apply same_owners_refl] end.
  - simpl. unfold capture_message. by repeat case_match.
  - done.
  - simpl. unfold resolve_runtime_request. by repeat case_match; simplify_eq/=.
  - destruct (begin_decision_ok now actor i runtime request (db w))
      as [[E _]|(a & response & s & dec & _ & _ & _ & _ & _ & E)]; unfold issue; cbn [db]; by rewrite E.
  - destruct (begin_user_input_ok now actor i runtime request (db w))
      as [[E _]|(a & _ & _ & _ & _ & _ & E)]; unfold issue; cbn [db]; by rewrite E.
  - simpl. unfold complete_decision. by repeat case_match.
  - simpl. unfold mark_delivery_unknown. by repeat case_match.
Qed.

Lemma approval_response_fits rt payload d response s dec id runtime a n :
  approval_response rt payload d = Ok (response, s, dec) →
  dispatch_fits (mkDispatch id runtime n response a s dec).
Proof.
  unfold approval_response. intros H.
  destruct d; apply rbind_ok in H as (r & _ & H); injection H as <- <- <-; done.
Qed.

(** Issuing a dispatch for a row whose new version no dispatch has yet. *)
Lemma issue_sound w w' actor id runtime a response s dec now :
  sound w → step w w' →
  owned_row key (db w) actor id = Some a →
  dispatch_fits (mkDispatch id runtime JNull response (version a + 1) s dec) →
  w' = issue w actor
    (with_approvals (db w) (<[id := dispatching now actor dec a]> (approvals (db w))),
     dispatch_of id runtime a response s dec) →
  (∀ actor d, (actor, d) ∈ issued w' → dispatch_ok (approvals (db w')) d) ∧ NoDup (map slot (issued w')).
Proof.
  intros Hw Hs (Ha & _)%owned_row_Some Hf ->.
  unfold issue, dispatch_of in *. simpl in *. destruct (json_from_str _) as [n|]; simpl in *.
  - split.
    + intros actor' d [?|Hd]%elem_of_cons; [|apply (dispatch_ok_change _ _ d Hs); by eapply (sound_issued w Hw)].
      simplify_eq. split; [done|]. exists (dispatching now actor dec a). simpl.
      rewrite lookup_insert_eq. split; [done|]. split; [lia|done].
    + constructor; [|apply (sound_slots w Hw)]. intros Hin.
      apply list_elem_of_fmap in Hin as ([actor' d'] & E & Hd').
      apply (sound_issued w Hw) in Hd' as (_ & b & Hb & Hv & _).
      unfold slot in E. simpl in E. injection E as E1 E2. rewrite <- E1 in Hb. simplify_eq. lia.
  - split; [|apply (sound_slots w Hw)].
    intros actor' d Hd. apply (dispatch_ok_change _ _ d Hs). by eapply (sound_issued w Hw).
Qed.

Lemma step_issued w w' :
  sound w → step w w' →
  (∀ actor d, (actor, d) ∈ issued w' → dispatch_ok (approvals (db w')) d) ∧ NoDup (map slot (issued w')).
Proof.
  intros Hw Hs.
  assert (Hsame : issued w' = issued w →
    (∀ actor d, (actor, d) ∈ issued w' → dispatch_ok (approvals (db w')) d) ∧ NoDup (map slot (issued w'))).
  { intros ->. split; [|apply (sound_slots w Hw)].
    intros actor d Hd. eapply dispatch_ok_change; [exact Hs|]. by eapply (sound_issued w Hw). }
  pose proof Hs as Hs'.
  destruct Hs' as [| | | |now actor i runtime request|now actor i runtime request| |]; auto.
  - destruct (begin_decision_ok now actor i runtime request (db w))
      as [[_ E]|(a & response & s & dec & Ho & _ & _ & _ & Hr & E)].
    + apply Hsame. unfold issue. simpl. by destruct (snd _).
    + eapply issue_sound; [done|exact Hs|exact Ho|by eapply approval_response_fits|by rewrite E].
  - destruct (begin_user_input_ok now actor i runtime request (db w))
      as [[_ E]|(a & Ho & _ & _ & _ & _ & E)].
    + apply Hsame. unfold issue. simpl. by destruct (snd _).
    + eapply issue_sound; [done|exact Hs|exact Ho| |by rewrite E]. done.
Qed.

Lemma step_sound w w' : sound w → step w w' → sound w'.
Proof.
  intros Hw Hs. destruct (step_issued w w' Hw Hs) as [Hi Hn].
  assert (Hrow : ∀ id a', approvals (db w') !! id = Some a' →
    consistent a' ∧ decided_by_owner (profiles (db w)) a').
  { intros id a' Ha'. destruct (step_outcome w w' id Hs) as [H|[[H (a & Ha & Hst & Hd)]|(a & b & Ha & Hb & Hc)]].
    - rewrite Ha' in H. symmetry in H. split; [by eapply sound_rows|by eapply sound_owner].
    - assert (a' = a) as -> by congruence. unfold consistent, decided_by_owner. rewrite Hst, Hd. done.
    - assert (a' = b) as -> by congruence. split.
      + eapply consistent_change; [done..|]. by eapply sound_rows.
      + eapply owner_change; [done|]. by eapply sound_owner. }
  split; [|  |exact Hi|exact Hn].
  - intros id a' Ha'. by apply Hrow in Ha' as [].
  - intros id a' Ha' Hd. apply Hrow in Ha' as [_ Ho]. destruct (Ho Hd) as (p & Hp & Hb).
    destruct (step_profiles w w' Hs _ _ Hp) as (p' & Hp' & Hq). exists p'. by rewrite Hq.
Qed.

(** A database without approvals and no handler under way. *)
Definition fresh_world (w : World) : Prop := approvals (db w) = ∅ ∧ issued w = [].

Lemma reachable_sound w0 w : fresh_world w0 → rtc step w0 w → sound w.
Proof.
  intros [H1 H2] Hr. assert (H0 : sound w0).
  { split; rewrite ?H1, ?H2; [..|constructor]; intros ? ? Ha;
      [by rewrite lookup_empty in Ha..|by apply elem_of_nil in Ha]. }
  clear H1 H2. induction Hr as [|w0 w1 w Hs _ IH]; [done|]. apply IH. by eapply step_sound.
Qed.

(** C17: whatever the interleaving, an approval is only ever approved, rejected or
    answered with that very decision on record, and the decision on record was made
    by the user who owns the profile the request came from. *)
Theorem approval_decided_by_owner w0 w id a :
  fresh_world w0 → rtc step w0 w → approvals (db w) !! id = Some a →
  state a = SApproved ∨ state a = SRejected ∨ state a = SAnswered →
  (∃ p, profiles (db w) !! profile_id a = Some p ∧ decided_by a = Some (owner_user_id p)) ∧
  decision a = match state a with
               | SApproved => Some DApproved
               | SRejected => Some DRejected
               | _ => Some DAnswered
               end.
Proof.
  intros H0 Hr Ha Hs. pose proof (reachable_sound _ _ H0 Hr) as Hw.
  pose proof (sound_rows w Hw id a Ha) as Hc. pose proof (sound_owner w Hw id a Ha) as Ho.
  unfold consistent, decided_by_owner in *.
  destruct Hs as [E|[E|E]]; rewrite E in *; rewrite Hc in *; split; try done; by apply Ho.
Qed.

(** No decision is dispatched twice: all dispatches ever handed out for an approval
    have different versions, and at most one of them, the one at the row's current
    version, can still change the row; it carries the decision on record. *)
Theorem approval_dispatched_once w0 w :
  fresh_world w0 → rtc step w0 w →
  NoDup (map slot (issued w)) ∧
  ∀ actor d a, (actor, d) ∈ issued w → approvals (db w) !! dispatch_approval d = Some a →
    (dispatch_version d ≤ version a)%Z ∧
    (in_flight actor d a = true → decision a = Some (dispatch_decision d)) ∧
    ((dispatch_version d < version a)%Z → fst (mark_delivery_unknown actor d (db w)) = insert_audit actor d false (db w) ∧
       approvals (fst (complete_decision actor d (db w))) = approvals (db w)).
Proof.
  intros H0 Hr. pose proof (reachable_sound _ _ H0 Hr) as Hw. split; [apply Hw|].
  intros actor d a Hi Ha. destruct (sound_issued w Hw actor d Hi) as (_ & b & Hb & Hv & Hd). simplify_eq.
  split; [done|]. split; [intros (_ & _ & E)%in_flight_true; by apply Hd|].
  intros Hlt. assert (Hf : in_flight actor d a = false).
  { destruct (in_flight actor d a) eqn:E; [|done]. apply in_flight_true in E as (_ & _ & E). lia. }
  unfold mark_delivery_unknown, complete_decision. rewrite Ha, Hf. split; [done|]. by destruct (_ && _).
Qed.

#[local] Instance listed_before_total : Total listed_before.
Proof. intros [i a] [j b]. unfold listed_before. simpl. lia. Qed.

(** After a client lists its approvals, every approval still open under the
    service's runtime key belongs to the running runtime instance, and the list
    holds exactly the open approvals of profiles the client owns, in its organization,
    oldest first. *)
Theorem list_pending_isolated now actor runtime d :
  let (d', r) := list_pending key now actor runtime d in
  (∀ id a p, approvals d' !! id = Some a → profiles d' !! profile_id a = Some p → runtime_key p = key →
     is_active (state a) = true → runtime_instance_id a = Some runtime) ∧
  ∃ l, r = Ok l ∧ Sorted listed_before l ∧ ∀ id a, (id, a) ∈ l ↔
     approvals d' !! id = Some a ∧ is_active (state a) = true ∧ runtime_instance_id a = Some runtime ∧
     organization_id a = actor_organization actor ∧
     ∃ p, profiles d' !! profile_id a = Some p ∧ runtime_key p = key ∧ owner_user_id p = actor_user actor.
Proof.
  simpl. split.
  - intros id a p Ha Hp Hk Hact. rewrite lookup_fmap in Ha.
    destruct (approvals d !! id) as [b|]; [|done]. simpl in Ha. apply (inj Some) in Ha.
    destruct (is_stale key d runtime b) eqn:Hs; subst a; [done|].
    unfold is_stale, row_profile in Hs. rewrite Hp, (proj2 (seqb_eq _ _) Hk), Hact in Hs.
    apply negb_false_iff, bool_decide_eq_true in Hs. done.
  - eexists. split; [done|]. split; [apply (Sorted_merge_sort _)|]. intros id a.
    rewrite merge_sort_Permutation, list_elem_of_filter, elem_of_map_to_list. simpl.
    unfold row_profile. simpl. destruct (profiles d !! profile_id a) as [p|] eqn:Hp.
    2:{ split; [by intros []|]. intros (_ & _ & _ & _ & p & Hp' & _). congruence. }
    destruct (seqb (runtime_key p) key) eqn:Hk.
    2:{ split; [by intros []|]. intros (_ & _ & _ & _ & p' & Hp' & Hk' & _). simplify_eq.
        by rewrite seqb_refl in Hk. }
    apply seqb_eq in Hk. rewrite !andb_true_iff, !N.eqb_eq, bool_decide_eq_true. split.
    + intros ([[[? ?] ?] ?] & ?). repeat split; try done. by exists p.
    + intros (? & ? & ? & ? & p' & ? & ? & ?). by simplify_eq.
Qed.

(** ** Races with the runtime *)

Lemma dispatch_of_Ok id runtime a response s dec d :
  dispatch_of id runtime a response s dec = Ok d →
  dispatch_approval d = id ∧ terminal_state d = s ∧ dispatch_decision d = dec.
Proof. unfold dispatch_of. destruct (json_from_str _); intros H; by simplify_eq. Qed.

(** Resolving a request of an open row settles the row by its decision. *)
Lemma resolve_row now runtime thread request d d' res a :
  resolve_runtime_request key now runtime thread request d = (d', Ok (Some res)) →
  approvals d !! resolved_approval res = Some a → is_active (state a) = true →
  ∃ s, resolved_terminal_state (state a) (decision a) = Some s ∧
       approvals d' !! resolved_approval res = Some (settle now s a).
Proof.
  unfold resolve_runtime_request. intros H Ha Hact. repeat case_match; simplify_eq/=.
  all: match goal with E : find_first _ _ = Some _ |- _ => apply find_first_Some in E as [Hin _] end.
  all: apply elem_of_map_to_list in Hin; simplify_eq.
  - eexists. split; [done|]. apply lookup_insert_eq.
  - match goal with E : resolved_terminal_state _ _ = None |- _ =>
      unfold resolved_terminal_state in E; rewrite Hact in E; done end.
Qed.

Lemma response_terminal rt payload d response s dec :
  approval_response rt payload d = Ok (response, s, dec) →
  s = match d with Accept | AcceptForSession => SApproved | Decline => SRejected | Cancel => SCancelled end ∧
  dec = match d with Accept | AcceptForSession => DApproved | Decline | Cancel => DRejected end.
Proof.
  unfold approval_response. intros H.
  destruct d; apply rbind_ok in H as (r & _ & H); injection H as <- <- <-; done.
Qed.

(** The runtime may report a request resolved before the handler that delivered the
    decision has recorded its completion.  The handler then succeeds for every
    acceptance and refusal, but a delivered cancellation fails with a conflict: the
    resolution has stored it as a rejection. *)
Theorem resolution_race now now' actor id runtime request d d1 dispatch d2 thread req res :
  begin_decision key now actor id runtime request d = (d1, Ok dispatch) →
  resolve_runtime_request key now' runtime thread req d1 = (d2, Ok (Some res)) →
  resolved_approval res = id →
  snd (complete_decision actor dispatch d2) =
    match decide_decision request with Cancel => Err Conflict | _ => Ok tt end.
Proof.
  intros Hb Hr Hid.
  destruct (begin_decision_ok now actor id runtime request d)
    as [[_ E]|(a & response & s & dec & Ho & _ & _ & _ & Hresp & E)]; rewrite Hb in E; [done|].
  injection E as -> Hd. symmetry in Hd. apply dispatch_of_Ok in Hd as (H1 & H2 & H3).
  apply owned_row_Some in Ho as (_ & Horg & _).
  destruct (resolve_row _ _ _ _ _ _ _ (dispatching now actor dec a) Hr) as (s' & Hs & Hrow);
    [rewrite Hid; apply lookup_insert_eq|done|].
  apply response_terminal in Hresp as [-> ->]. simpl in Hs. apply (inj Some) in Hs.
  unfold complete_decision. rewrite H1, <- Hid, Hrow. unfold in_flight.
  rewrite H2, H3. cbn [settle dispatching organization_id state decision]. rewrite Horg, N.eqb_refl.
  subst s'. by destruct (decide_decision request).
Qed.

(** ** What a response grants *)

(** Whether the runtime reads a response as consent. *)
Definition consents (response : Json) : bool :=
  match get (lit "decision") response, get (lit "permissions") response, get (lit "action") response with
  | Some (JString s), _, _ => seqb s (lit "accept") || seqb s (lit "acceptForSession")
  | _, Some permissions, _ => negb match permissions with JObject [] => true | _ => false end
  | _, _, Some (JString s) => seqb s (lit "accept")
  | _, _, _ => false
  end.

(** A refused or cancelled request never yields a consenting response, whatever kind
    of request it was, and the permissions a response grants are none or exactly
    those that were requested. *)
Theorem approval_response_grants rt payload d response s dec :
  approval_response rt payload d = Ok (response, s, dec) →
  (consents response = true → dec = DApproved ∧ s = SApproved ∧ (d = Accept ∨ d = AcceptForSession)) ∧
  (∀ permissions, get (lit "permissions") response = Some permissions →
     permissions = JObject [] ∨ get (lit "permissions") payload = Some permissions).
Proof.
  intros H. pose proof (response_terminal _ _ _ _ _ _ H) as [-> ->]. unfold approval_response in H.
  assert (Hp : ∀ p scope permissions, get (lit "permissions") (permissions_response p scope) = Some permissions → p = permissions)
    by (intros p scope ps Hps; by apply (inj Some) in Hps).
  assert (Hi : ∀ (x y : Json), @Ok Json ApprovalServiceError x = Ok y → y = x) by (intros x y E; by injection E).
  assert (Hx : ∀ action content, get (lit "permissions") (elicitation_response action content) = None) by done.
  destruct (match d with Decline => _ | Cancel => _ | _ => _ end) as [ts sd] eqn:Ed in H.
  apply rbind_ok in H as (r & H & Hr). injection Hr as <- _ _. clear Ed.
  destruct (_ || _).
  { apply Hi in H as ->. split; [intros Hc|done]. by destruct d; vm_compute in Hc; auto. }
  destruct (seqb rt PERMISSIONS_APPROVAL).
  { apply Hi in H as ->. split; [intros Hc; by destruct d; vm_compute in Hc; auto|].
    intros ps Hg. destruct d; apply Hp in Hg as <-; auto; destruct (get _ payload); auto. }
  destruct (seqb rt MCP_ELICITATION_REQUEST); [|done].
  assert (Hr : ∃ action content, r = elicitation_response action content).
  { destruct d; try (apply rbind_ok in H as (c & _ & H)); apply Hi in H; eauto. }
  destruct Hr as (action & content & ->). split; [|by intros ps; rewrite Hx].
  intros Hc. destruct d; auto; apply Hi in H; rewrite H in Hc; by vm_compute in Hc.
Qed.
End world.

(** ** A run of the service *)

Module Sample.
#[export] Instance sample_text : JsonText := {
  json_to_string v := match v with JString s => s | _ => [] end;
  json_from_str s := Some (JString s);
  parse_uuid _ := None
}.
Definition key : str := lit "runtime".
Definition owner : ApprovalActor := mkActor 7 3.
Definition message : Json :=
  JObject [(lit "method", JString COMMAND_APPROVAL); (lit "id", JString (lit "r1"));
           (lit "params", JObject [(lit "threadId", JString (lit "t1"))])].

(** One active profile with one run; a command approval arrives, is accepted and completed,
    and then the runtime restarts and the client lists again. *)
Definition w0 : World :=
  mkWorld (mkDb {[1 := mkProfile 3 7 key true]} [mkRun 5 3 (Some (lit "t1")) 0] ∅ []) [].
Definition w1 : World := mkWorld (fst (capture_message key 10 9 2 message (db w0))) [].
Definition accepted := begin_decision key 11 owner 9 2 (mkDecide Accept 0) (db w1).
Definition w2 : World := issue w1 owner accepted.
Definition dispatch : ApprovalDispatch :=
  mkDispatch 9 2 (JString (lit "r1")) (JObject [(lit "decision", JString (lit "accept"))]) 1 SApproved DApproved.
Definition w3 : World := mkWorld (fst (complete_decision owner dispatch (db w2))) (issued w2).
Definition w4 : World := mkWorld (fst (list_pending key 12 owner 4 (db w3))) (issued w3).
Definition row (s : ApprovalState) (v : Z) : Approval :=
  mkApproval 5 COMMAND_APPROVAL (JObject [(lit "threadId", JString (lit "t1"))]) 3 1 (Some (lit "t1"))
    (Some 2) (lit "r1") s v (Some DApproved) (Some 7) (Some 11%Z) 10.

Lemma w0_w2 : rtc (step key) w0 w2.
Proof.
  eapply rtc_l; [apply (step_capture key w0 10 9 2 message); vm_compute; reflexivity|].
  eapply rtc_l; [apply (step_decide key w1 11 owner 9 2 (mkDecide Accept 0))|]. apply rtc_refl.
Qed.

Lemma w2_w3 : rtc (step key) w2 w3.
Proof.
  apply rtc_once, (step_complete key w2 owner dispatch). vm_compute. left.
Qed.

Lemma w3_w4 : rtc (step key) w3 w4.
Proof. apply rtc_once, (step_list key w3 12 owner 4). Qed.
End Sample.
#[local] Existing Instance Sample.sample_text.

Lemma approval_version_identifies_row_witness :
  ∃ a', approvals (db Sample.w3) !! 9 = Some a' ∧ (1 ≤ version a')%Z ∧
        (version a' = 1%Z → a' = Sample.row SDispatching 1).
Proof.
  apply (approval_version_identifies_row Sample.key Sample.w2 Sample.w3 9 (Sample.row SDispatching 1));
    [exact Sample.w2_w3|vm_compute; reflexivity].
Defined.

Lemma approval_settled_final_witness :
  approvals (db Sample.w4) !! 9 = Some (Sample.row SApproved 2).
Proof.
  apply (approval_settled_final Sample.key Sample.w3 Sample.w4 9 (Sample.row SApproved 2));
    [exact Sample.w3_w4|vm_compute; reflexivity..].
Defined.

Lemma approval_decided_by_owner_witness :
  (∃ p, profiles (db Sample.w3) !! 1 = Some p ∧ Some 7 = Some (owner_user_id p)) ∧ Some DApproved = Some DApproved.
Proof.
  apply (approval_decided_by_owner Sample.key Sample.w0 Sample.w3 9 (Sample.row SApproved 2)).
  - split; vm_compute; reflexivity.
  - transitivity Sample.w2; [exact Sample.w0_w2|exact Sample.w2_w3].
  - vm_compute. reflexivity.
  - by left.
Defined.

Lemma approval_dispatched_once_witness : NoDup (map slot (issued Sample.w2)) ∧ length (issued Sample.w2) = 1%nat.
Proof.
  split; [|vm_compute; reflexivity].
  apply (approval_dispatched_once Sample.key Sample.w0 Sample.w2); [|exact Sample.w0_w2].
  split; vm_compute; reflexivity.
Defined.

(** A delivered cancellation that the runtime resolves first ends in a conflict. *)
Lemma resolution_race_witness :
  let cancelled := begin_decision Sample.key 11 Sample.owner 9 2 (mkDecide Cancel 0) (db Sample.w1) in
  let dispatch := mkDispatch 9 2 (JString (lit "r1")) (JObject [(lit "decision", JString (lit "cancel"))]) 1
                    SCancelled DRejected in
  let resolved := resolve_runtime_request Sample.key 12 2 (lit "t1") (JString (lit "r1")) (fst cancelled) in
  snd (complete_decision Sample.owner dispatch (fst resolved)) = Err Conflict.
Proof.
  eapply (resolution_race Sample.key 11 12 Sample.owner 9 2 (mkDecide Cancel 0) (db Sample.w1) _ _ _
            (lit "t1") (JString (lit "r1")) (mkResolved 9 (lit "t1") None None Declined));
    vm_compute; reflexivity.
Defined.

Lemma approval_response_grants_witness :
  let payload := JObject [(lit "permissions", JBool true)] in
  (consents (permissions_response (JObject []) (lit "turn")) = true →
     DRejected = DApproved ∧ SRejected = SApproved ∧ (Decline = Accept ∨ Decline = AcceptForSession)) ∧
  (∀ permissions, get (lit "permissions") (permissions_response (JObject []) (lit "turn")) = Some permissions →
     permissions = JObject [] ∨ get (lit "permissions") payload = Some permissions).
Proof.
  intros payload. apply (approval_response_grants PERMISSIONS_APPROVAL payload Decline).
  vm_compute. reflexivity.
Defined.
