(* ===== verification/Projection.v ===== *)
(** * What browsers get to see of the runtime's events

    The pure half of [apps/web/server/src/event_projection.rs]: a frame of the Codex
    runtime is reduced to the fields that a browser may see, with secrets redacted, paths
    cut to their last part and embedded data left out; results of tools that describe a
    map are checked field by field and kept as artifacts that a message can embed.
    [project_turn] of [routes/threads.rs], which shows the items of a stored thread, is
    here too.  Objects are [serde_json::Map]s without [preserve_order]: lists of fields
    sorted by key. *)

From S2P Require Import Prelude RustStr Utf8 MachineInt ResponseModel Approval WorldState.
Open Scope nat_scope.

(** Numbers of JSON as binary64, by [serde_json]: [as_f64], the literals in the code,
    [is_finite], the comparison and [json!] of the result. *)
Class Float64 := {
  f64 : Type;
  as_f64 : str → option f64;
  f64_of : Z → f64;
  is_finite : f64 → bool;
  f64_leb : f64 → f64 → bool;
  f64_literal : f64 → str
}.

(** ** Fields of objects *)

Abbreviation Fields := (list (str * Json)).

Definition field_str (values : Fields) (key : str) : option str := assoc key values ≫= as_str.

Definition string_field (values : Fields) (key : str) : option str := field_str values key.

Definition nested_string_field (values : Fields) (object_key field_key : str) : option str :=
  nested ← assoc object_key values ≫= as_object; string_field nested field_key.

Definition nonempty_string (values : Fields) (key : str) : option str :=
  value ← field_str values key;
  let value := trim value in if seqb value [] then None else Some value.

(** [None] is a value of the wrong type, [Some None] an absent one. *)
Definition optional_string (values : Fields) (key : str) : option (option str) :=
  match assoc key values with
  | None | Some JNull => Some None
  | Some (JString value) => let value := trim value in if seqb value [] then None else Some (Some value)
  | Some _ => None
  end.

(** [map.keys().any(|key| !matches!(key, ...))] *)
Definition other_keys (allowed : list str) (values : Fields) : bool :=
  existsb (fun key => negb (existsb (seqb key) allowed)) (keys values).

(** ** Redaction *)

Definition without_separators (key : str) : str :=
  List.filter (fun c => negb ((c =? 95)%N || (c =? 45)%N)) (to_ascii_lowercase key).

Definition USAGE_KEYS : list str :=
  [lit "tokenusage"; lit "inputtokens"; lit "cachedinputtokens"; lit "cachewriteinputtokens"; lit "outputtokens";
   lit "reasoningoutputtokens"; lit "totaltokens"; lit "modelcontextwindow"].

Definition SENSITIVE_PARTS : list str :=
  [lit "authorization"; lit "cookie"; lit "credential"; lit "password"; lit "secret"; lit "token"; lit "apikey";
   lit "stdin"; lit "chars"].

Definition is_sensitive_key (key : str) : bool :=
  let normalized := without_separators key in
  if existsb (seqb normalized) USAGE_KEYS then false
  else existsb (fun candidate => contains candidate normalized) SENSITIVE_PARTS.

Definition is_path_key (key : str) : bool :=
  existsb (seqb key) [lit "path"; lit "cwd"; lit "savedPath"; lit "agentPath"].

Definition backslash : char := 92%N.

(** [path.as_bytes().get(1) == Some(&b':')]: a character before it has one byte. *)
Definition drive_letter (path : str) : bool :=
  match path with c :: 58%N :: _ => (c <? 128)%N | _ => false end.

Definition path_is_absolute (path : str) : bool :=
  starts_with (lit "/") path || starts_with [backslash] path || drive_letter path.

(** [path.rsplit(['/', '\\'])] *)
Definition path_parts (path : str) : list str :=
  rev (split_on 47%N (map (fun c => if (c =? backslash)%N then 47%N else c) path)).

Definition path_name (path : str) : str :=
  default (lit "path") (find_first (fun part => negb (seqb part [])) (path_parts path)).

Definition safe_path (path : str) : str :=
  if negb (path_is_absolute path) then path else lit "[workspace-path]/" ++ path_name path.

Definition REDACTED : Json := JString (lit "[redacted]").

Fixpoint sanitize_value (value : Json) (key : str) : Json :=
  if is_sensitive_key key then REDACTED
  else match value with
       | JArray values => JArray (map (fun value => sanitize_value value key) values)
       | JObject values => JObject (map (fun '(entry_key, value) => (entry_key, sanitize_value value entry_key)) values)
       | JString value =>
           if is_path_key key then JString (safe_path value)
           else if starts_with (lit "data:") value then JString (lit "[embedded-data]")
           else JString value
       | _ => value
       end.

(** Copies the listed fields, sanitized. *)
Definition copy_sanitized (source : Fields) (keys : list str) (data : Fields) : Fields :=
  foldl (fun data key =>
    match assoc key source with Some value => obj_insert key (sanitize_value value key) data | None => data end)
    data keys.

(** ** Events *)

Definition classify_method (method : str) : str * str :=
  let same m := seqb method (lit m) in
  if same "platform/approvalRequested"%string then (lit "platform.approval.requested", lit "requested")
  else if same "serverRequest/resolved"%string then (lit "platform.approval.resolved", lit "resolved")
  else if same "item/started"%string then (lit "codex.item.started", lit "started")
  else if same "item/completed"%string then (lit "codex.item.completed", lit "completed")
  else if same "turn/started"%string then (lit "codex.turn.started", lit "started")
  else if same "turn/completed"%string then (lit "codex.turn.completed", lit "completed")
  else if same "thread/started"%string then (lit "codex.thread.started", lit "started")
  else if same "thread/archived"%string then (lit "codex.thread.archived", lit "archived")
  else if same "thread/unarchived"%string then (lit "codex.thread.unarchived", lit "unarchived")
  else if same "thread/name/updated"%string then (lit "codex.thread.name.updated", lit "updated")
  else if same "thread/tokenUsage/updated"%string then (lit "codex.thread.token_usage.updated", lit "updated")
  else if same "thread/completed"%string then (lit "codex.thread.completed", lit "completed")
  else if same "thread/failed"%string then (lit "codex.thread.failed", lit "failed")
  else if starts_with (lit "item/") method && (ends_with (lit "/delta") method || ends_with (lit "Delta") method)
  then (lit "codex.item.delta", lit "delta")
  else (lit "codex.unknown", lit "unknown").

Definition EVENT_DATA_KEYS : list str :=
  [lit "approvalId"; lit "approvalStatus"; lit "requestMethod"; lit "requestParams"; lit "error"; lit "message";
   lit "additionalDetails"; lit "codexErrorInfo"; lit "failureReason"; lit "name"; lit "status"; lit "thread";
   lit "turn"; lit "delta"; lit "summaryIndex"; lit "contentIndex"; lit "startedAtMs"; lit "completedAtMs";
   lit "startedAt"; lit "started_at"; lit "explanation"; lit "plan"; lit "steps"; lit "diff"; lit "threadName";
   lit "tokenUsage"; lit "model"; lit "reasoningEffort"; lit "sandbox"; lit "approvalPolicy"; lit "goal";
   lit "rateLimits"; lit "command"; lit "stdin"].

Definition project_event_data `{JsonText} (method : str) (params : Fields) : Json :=
  let data := [(lit "sourceType", JString method)] in
  let data :=
    if seqb method (lit "serverRequest/resolved") then
      match field_str params (lit "requestId") with
      | Some request_id =>
          if bool_decide (is_Some (parse_uuid request_id)) then obj_insert (lit "requestId") (JString request_id) data
          else data
      | None => data
      end
    else data in
  JObject (copy_sanitized params EVENT_DATA_KEYS data).

(** The fields of an item by its type; [None] is a type that is not supported. *)
Definition item_fields (item_type : str) : option (list str) :=
  let same t := seqb item_type (lit t) in
  if same "userMessage"%string then Some [lit "content"]
  else if same "hookPrompt"%string then Some [lit "fragments"]
  else if same "agentMessage"%string then Some [lit "text"]
  else if same "plan"%string then Some [lit "text"]
  else if same "reasoning"%string then Some [lit "summary"; lit "content"]
  else if same "commandExecution"%string
  then Some [lit "command"; lit "aggregatedOutput"; lit "exitCode"; lit "durationMs"; lit "commandActions"]
  else if same "fileChange"%string then Some [lit "changes"]
  else if same "mcpToolCall"%string then Some [lit "server"; lit "tool"; lit "arguments"; lit "result"; lit "error"]
  else if same "dynamicToolCall"%string
  then Some [lit "namespace"; lit "tool"; lit "arguments"; lit "contentItems"; lit "success"]
  else if same "collabAgentToolCall"%string || same "collabToolCall"%string
  then Some [lit "tool"; lit "prompt"; lit "senderThreadId"; lit "receiverThreadIds"; lit "agentsStates"]
  else if same "subAgentActivity"%string then Some [lit "kind"; lit "agentThreadId"; lit "agentPath"]
  else if same "webSearch"%string then Some [lit "query"; lit "action"]
  else if same "imageView"%string then Some [lit "path"]
  else if same "imageGeneration"%string then Some [lit "revisedPrompt"; lit "result"; lit "savedPath"]
  else if same "sleep"%string then Some [lit "durationMs"]
  else if same "enteredReviewMode"%string || same "exitedReviewMode"%string then Some [lit "review"]
  else if same "contextCompaction"%string then Some []
  else None.

(** ** Items *)

(** [Map::remove] and a change of one value in place. *)
Definition obj_remove (k : str) (o : Fields) : Fields := List.filter (fun e => negb (seqb k (fst e))) o.
Definition obj_update (k : str) (f : Json → Json) (o : Fields) : Fields :=
  map (fun '(k', v) => (k', if seqb k k' then f v else v)) o.

Definition ARTIFACT_TYPE : str := lit "open-web-artifact".
Definition ARTIFACT_KIND : str := lit "inline-visualization.v1".

Definition or_null (s : option str) : Json := match s with Some s => JString s | None => JNull end.

(** The description of an artifact is reduced to its name, its renderer and its code. *)
Definition redact_structured (structured : Fields) : Fields :=
  let structured :=
    if bool_decide (field_str structured (lit "type") = Some ARTIFACT_TYPE) &&
       bool_decide (field_str structured (lit "kind") = Some ARTIFACT_KIND)
    then
      let artifact := assoc (lit "artifact") structured ≫= as_object in
      let artifact_ref := artifact ≫= fun a => field_str a (lit "ref") in
      let renderer_kind :=
        ((artifact ≫= assoc (lit "renderer")) ≫= as_object) ≫= fun renderer => field_str renderer (lit "kind") in
      [(lit "artifact", JObject [(lit "ref", or_null artifact_ref);
                                 (lit "renderer", JObject [(lit "kind", or_null renderer_kind)])]);
       (lit "embed", default JNull (assoc (lit "embed") structured));
       (lit "kind", JString ARTIFACT_KIND);
       (lit "type", JString ARTIFACT_TYPE)]
    else structured in
  if bool_decide ((assoc (lit "data_ref") structured ≫= as_object) ≫= (fun d => field_str d (lit "type"))
                  = Some (lit "mcp_resource"))
  then obj_remove (lit "data_ref") structured else structured.

Definition redact_link (item : Json) : Json :=
  match item with
  | JObject fields =>
      if bool_decide (field_str fields (lit "type") = Some (lit "resource_link"))
      then JObject (obj_remove (lit "_meta") (obj_remove (lit "uri") fields)) else item
  | _ => item
  end.

Definition on_object (f : Fields → Fields) (v : Json) : Json :=
  match v with JObject o => JObject (f o) | _ => v end.
Definition on_array (f : Json → Json) (v : Json) : Json :=
  match v with JArray l => JArray (map f l) | _ => v end.

Definition redact_mcp_resource_metadata (result : Json) : Json :=
  on_object (fun result =>
    obj_update (lit "content") (on_array redact_link)
      (obj_update (lit "structuredContent") (on_object redact_structured) result)) result.

Definition copy_status (item projected : Fields) : Fields :=
  match assoc (lit "status") item with
  | Some status => obj_insert (lit "status") (sanitize_value status (lit "status")) projected
  | None => projected
  end.

Definition copy_item_fields (item_type : str) (item projected : Fields) : Fields :=
  match item_fields item_type with
  | Some fields => copy_sanitized item fields projected
  | None => obj_insert (lit "summary") (JString (lit "Unsupported runtime item")) projected
  end.

Definition copy_phase (item projected : Fields) : Fields :=
  match field_str item (lit "phase") with
  | Some phase =>
      if existsb (seqb phase) [lit "commentary"; lit "final_answer"]
      then obj_insert (lit "phase") (JString phase) projected else projected
  | None => projected
  end.

Definition project_item (item : Fields) : Json :=
  let item_type := default (lit "unknown") (string_field item (lit "type")) in
  let projected := copy_status item [(lit "type", JString item_type)] in
  let projected := copy_item_fields item_type item projected in
  let projected := if seqb item_type (lit "agentMessage") then copy_phase item projected else projected in
  JObject (if seqb item_type (lit "mcpToolCall")
           then obj_update (lit "result") redact_mcp_resource_metadata projected else projected).

(** ** Names *)

Definition is_identifier_char (c : char) : bool :=
  is_ascii_alphanumeric c || existsb (N.eqb c) [45%N; 95%N; 46%N].

Definition valid_card_identifier (value : str) : bool :=
  negb (seqb value []) && (byte_len value <=? 128) && forallb is_identifier_char value.

Definition valid_mapbox_identifier (value : str) : bool :=
  negb (seqb (trim value) []) && negb (existsb is_control value).

Definition valid_geojson_resource_uri (value : str) : bool :=
  match strip_prefix (lit "maps-data://geojson/") value with
  | Some name => valid_card_identifier name
  | None => false
  end.

Definition GEOJSON_TYPES : list str :=
  [lit "FeatureCollection"; lit "Feature"; lit "GeometryCollection"; lit "Point"; lit "MultiPoint"; lit "LineString";
   lit "MultiLineString"; lit "Polygon"; lit "MultiPolygon"].

Definition valid_geojson_root (value : Json) : bool :=
  match get (lit "type") value ≫= as_str with
  | Some t => existsb (seqb t) GEOJSON_TYPES
  | None => false
  end.

(** ** Links to resources *)

(** [Value::as_u64] and [i64::try_from]. *)
Definition as_u64 (v : Json) : option N :=
  match v with
  | JNumber literal =>
      let n := foldl (fun n c => (10 * n + (c - 48))%N) 0%N literal in
      if negb (seqb literal []) && forallb is_ascii_digit literal && (n <? 2 ^ 64)%N then Some n else None
  | _ => None
  end.

Definition i64_try_from (n : N) : option Z := if (n <? 2 ^ 63)%N then Some (Z.of_N n) else None.

Record ReplyArtifactCandidate := mkReplyCandidate {
  candidate_uri : str;
  candidate_mime : option str;
  candidate_size : option Z
}.

Definition JSON_MIME_TYPES : list str := [lit "application/geo+json"; lit "application/json"].

Definition reply_artifact_link (content : Json) : option (str * option str * option Z) :=
  content ← as_object content;
  t ← field_str content (lit "type");
  if negb (seqb t (lit "resource_link")) then None
  else
    uri ← field_str content (lit "uri");
    let uri := trim uri in
    if negb (valid_geojson_resource_uri uri) then None
    else
      let mime_type :=
        m ← field_str content (lit "mimeType"); let m := trim m in if seqb m [] then None else Some m in
      match mime_type with
      | Some m =>
          if existsb (seqb m) JSON_MIME_TYPES
          then Some (uri, mime_type, (assoc (lit "size") content ≫= as_u64) ≫= i64_try_from)
          else None
      | None => None
      end.

Definition reply_artifact_candidates (item : Fields) : list ReplyArtifactCandidate :=
  let content := default [] (((assoc (lit "result") item ≫= as_object) ≫= assoc (lit "content")) ≫= as_array) in
  map (fun '(uri, mime, size) => mkReplyCandidate uri mime size) (omap reply_artifact_link content).

(** ** Maps *)

(** A loop that returns [None] at the first failure. *)
Fixpoint ofold {A B} (f : A → B → option A) (a : A) (l : list B) : option A :=
  match l with
  | [] => Some a
  | x :: l => a ← f a x; ofold f a l
  end.

Definition oguard (b : bool) : option unit := if b then Some tt else None.

Section map_cards.
Context `{F64 : !Float64}.

Definition bounded_number (value : Json) (minimum maximum : Z) : option f64 :=
  match value with
  | JNumber literal =>
      value ← as_f64 literal;
      if is_finite value && f64_leb (f64_of minimum) value && f64_leb value (f64_of maximum) then Some value else None
  | _ => None
  end.

Definition json_f64 (x : f64) : Json := JNumber (f64_literal x).

Definition project_source_data (data : Fields) : option Json :=
  t ← field_str data (lit "type");
  if seqb t (lit "mcp_resource") then
    if other_keys [lit "type"; lit "server"; lit "uri"; lit "format"] data then None
    else
      format ← field_str data (lit "format");
      if negb (seqb format (lit "geojson")) then None
      else
        server ← nonempty_string data (lit "server");
        uri ← nonempty_string data (lit "uri");
        if negb (valid_card_identifier server) || starts_with (lit "mcp__") server || negb (valid_geojson_resource_uri uri)
        then None
        else Some (JObject [(lit "format", JString (lit "geojson")); (lit "server", JString server);
                            (lit "type", JString (lit "mcp_resource")); (lit "uri", JString uri)])
  else if seqb t (lit "inline") then
    if other_keys [lit "type"; lit "format"; lit "geojson"] data then None
    else
      format ← field_str data (lit "format");
      if negb (seqb format (lit "geojson")) then None
      else
        geojson ← assoc (lit "geojson") data;
        if negb (valid_geojson_root geojson) then None
        else Some (JObject [(lit "format", JString (lit "geojson"));
                            (lit "geojson", sanitize_value geojson (lit "geojson"));
                            (lit "type", JString (lit "inline"))])
  else None.

Definition project_map_source (id : str) (source : Json) : option (str * Json) :=
  if negb (valid_mapbox_identifier id) then None
  else
    source ← as_object source;
    t ← field_str source (lit "type");
    if negb (seqb t (lit "geojson")) then None
    else
      let source_options := obj_remove (lit "data") source in
      if negb (json_eqb (sanitize_value (JObject source_options) (lit "source")) (JObject source_options)) then None
      else
        data ← assoc (lit "data") source ≫= as_object;
        data ← project_source_data data;
        Some (id, JObject (obj_insert (lit "data") data source)).

Definition project_map_v3_sources (value : Json) : option Fields :=
  sources ← as_object value;
  match sources with
  | [] => None
  | _ => mapM (fun '(id, source) => project_map_source id source) sources
  end.

(** A layer: its id, unique among the ids so far, with those that have a source. *)
Definition check_layer (source_ids : gset str) (ids : gset str * gset str) (layer : Json) : option (gset str * gset str) :=
  let '(layer_ids, source_backed) := ids in
  fields ← as_object layer;
  if negb (json_eqb (sanitize_value layer (lit "layer")) layer) then None
  else
    id ← nonempty_string fields (lit "id");
    if negb (valid_mapbox_identifier id) || bool_decide (id ∈ layer_ids) then None
    else
      _ ← nonempty_string fields (lit "type");
      match assoc (lit "source") fields with
      | None => Some ({[id]} ∪ layer_ids, source_backed)
      | Some source =>
          source ← as_str source;
          if bool_decide (source ∈ source_ids) then Some ({[id]} ∪ layer_ids, {[id]} ∪ source_backed) else None
      end.

Definition check_hover_field (field : Json) : option unit :=
  match as_str field with
  | Some property => oguard (negb (seqb (trim property) []))
  | None =>
      field ← as_object field;
      if other_keys [lit "property"; lit "label"] field || bool_decide (nonempty_string field (lit "property") = None)
      then None
      else match assoc (lit "label") field with
           | Some _ => label ← optional_string field (lit "label"); oguard (bool_decide (is_Some label))
           | None => Some tt
           end
  end.

Definition check_hover_layer (layer_ids source_backed : gset str) (layer : Json) : option unit :=
  layer ← as_object layer;
  if other_keys [lit "layer"; lit "title_property"; lit "fields"] layer then None
  else
    layer_id ← nonempty_string layer (lit "layer");
    if negb (bool_decide (layer_id ∈ layer_ids)) || negb (bool_decide (layer_id ∈ source_backed)) then None
    else
      _ ← match assoc (lit "title_property") layer with
          | Some title => title ← as_str title; oguard (negb (seqb (trim title) []))
          | None => Some tt
          end;
      fields ← assoc (lit "fields") layer ≫= as_array;
      ofold (fun _ => check_hover_field) tt fields.

Definition check_legend_item (item : Json) : option unit :=
  item ← as_object item;
  if other_keys [lit "label"; lit "color"; lit "type"] item || bool_decide (nonempty_string item (lit "label") = None) ||
     bool_decide (nonempty_string item (lit "color") = None)
  then None
  else match assoc (lit "type") item with
       | Some kind => kind ← as_str kind; oguard (existsb (seqb kind) [lit "circle"; lit "line"; lit "fill"])
       | None => Some tt
       end.

Definition project_map_v3_extensions (value : Json) (layer_ids source_backed : gset str) : option Json :=
  extensions ← as_object value;
  if other_keys [lit "hover"; lit "legend"] extensions then None
  else
    _ ← match assoc (lit "hover") extensions with
        | Some hover =>
            layers ← get (lit "layers") hover ≫= as_array;
            ofold (fun _ => check_hover_layer layer_ids source_backed) tt layers
        | None => Some tt
        end;
    _ ← match assoc (lit "legend") extensions with
        | Some legend =>
            items ← get (lit "items") legend ≫= as_array;
            match items with [] => None | _ => ofold (fun _ => check_legend_item) tt items end
        | None => Some tt
        end;
    Some value.

Definition CARD_FIELDS : list str :=
  [lit "title"; lit "intent"; lit "status"; lit "fallback_text"; lit "summary"; lit "sources"; lit "layers"; lit "center";
   lit "zoom"; lit "bearing"; lit "pitch"; lit "extensions"].

(** [fallback_text] and [summary]. *)
Definition copy_optional (card : Fields) (projected : Fields) (key : str) : option Fields :=
  value ← optional_string card key;
  Some (match value with Some value => obj_insert key (JString value) projected | None => projected end).

(** [center] and [zoom] come together. *)
Definition copy_view (card : Fields) (projected : Fields) : option Fields :=
  match assoc (lit "center") card, assoc (lit "zoom") card with
  | None, None => Some projected
  | Some center, Some zoom =>
      center ← as_array center;
      match center with
      | [longitude; latitude] =>
          longitude ← bounded_number longitude (-180) 180;
          latitude ← bounded_number latitude (-90) 90;
          zoom ← bounded_number zoom 0 24;
          Some (obj_insert (lit "zoom") (json_f64 zoom)
                  (obj_insert (lit "center") (JArray [json_f64 longitude; json_f64 latitude]) projected))
      | _ => None
      end
  | _, _ => None
  end.

(** [bearing] and [pitch]. *)
Definition copy_number (card : Fields) (projected : Fields) (bounds : str * Z * Z) : option Fields :=
  let '(key, minimum, maximum) := bounds in
  match assoc key card with
  | Some value => x ← bounded_number value minimum maximum; Some (obj_insert key (json_f64 x) projected)
  | None => Some projected
  end.

Definition project_map_card_v3 (card : Fields) : option Json :=
  if other_keys CARD_FIELDS card then None
  else
    title ← nonempty_string card (lit "title");
    intent ← nonempty_string card (lit "intent");
    status ← nonempty_string card (lit "status");
    if negb (existsb (seqb status) [lit "loading"; lit "ready"; lit "error"]) then None
    else
      let projected := [(lit "intent", JString intent); (lit "status", JString status); (lit "title", JString title)] in
      projected ← ofold (copy_optional card) projected [lit "fallback_text"; lit "summary"];
      sources ← assoc (lit "sources") card ≫= project_map_v3_sources;
      let source_ids : gset str := list_to_set (keys sources) in
      layers ← assoc (lit "layers") card ≫= as_array;
      match layers with
      | [] => None
      | _ =>
          '(layer_ids, source_backed) ← ofold (check_layer source_ids) (∅, ∅) layers;
          let projected := obj_insert (lit "sources") (JObject sources) projected in
          let projected := obj_insert (lit "layers") (JArray layers) projected in
          projected ← copy_view card projected;
          projected ← ofold (copy_number card) projected [(lit "bearing", (-180)%Z, 180%Z); (lit "pitch", 0%Z, 85%Z)];
          match assoc (lit "extensions") card with
          | Some extensions =>
              extensions ← project_map_v3_extensions extensions layer_ids source_backed;
              Some (JObject (obj_insert (lit "extensions") extensions projected))
          | None => Some (JObject projected)
          end
      end.

Definition project_inline_renderer (kind : str) (payload : Fields) : option Json :=
  if seqb kind (lit "map.v3") then project_map_card_v3 payload else None.

(** ** Artifacts *)

Record InlineVisualizationArtifactCandidate := mkInlineCandidate {
  artifact_ref : str;
  renderer_kind : str;
  renderer_payload : Json
}.

Definition bounded_text (limit : nat) (s : str) : bool :=
  negb (seqb s []) && (length s <=? limit) && negb (existsb is_control s).

Definition check_warning (warning : Json) : option unit :=
  warning ← as_object warning;
  if other_keys [lit "code"; lit "path"; lit "message"] warning || (length warning <? 2) || (3 <? length warning) then None
  else
    code ← field_str warning (lit "code");
    if negb (existsb (seqb code) [lit "ignored_extra_input"; lit "mapbox_style_warning"]) then None
    else
      path ← field_str warning (lit "path");
      if negb (bounded_text 512 path) then None
      else match assoc (lit "message") warning with
           | Some message => message ← as_str message; oguard (bounded_text 1024 message)
           | None => Some tt
           end.

Definition validate_inline_visualization_warnings (value : Json) : option unit :=
  warnings ← as_array value; ofold (fun _ => check_warning) tt warnings.

(** The code that embeds an artifact in a message: [::codex-inline-vis{artifact="..."}]. *)
Definition EMBED_PREFIX : str := lit "::codex-inline-vis{artifact=" ++ [34%N].
Definition EMBED_SUFFIX : str := [34%N; 125%N].
Definition embed_code (artifact_ref : str) : str := EMBED_PREFIX ++ artifact_ref ++ EMBED_SUFFIX.

Definition project_inline_visualization_artifact (item : Fields) : option InlineVisualizationArtifactCandidate :=
  result ← assoc (lit "result") item ≫= as_object;
  structured ← assoc (lit "structuredContent") result ≫= as_object;
  t ← field_str structured (lit "type");
  if negb (seqb t ARTIFACT_TYPE) then None
  else
    kind ← field_str structured (lit "kind");
    if negb (seqb kind ARTIFACT_KIND) ||
       other_keys [lit "type"; lit "kind"; lit "artifact"; lit "embed"; lit "warnings"] structured
    then None
    else
      _ ← match assoc (lit "warnings") structured with
          | Some warnings => validate_inline_visualization_warnings warnings
          | None => Some tt
          end;
      artifact ← assoc (lit "artifact") structured ≫= as_object;
      if other_keys [lit "ref"; lit "renderer"] artifact then None
      else
        artifact_ref ← field_str artifact (lit "ref");
        let artifact_ref := trim artifact_ref in
        if negb (valid_card_identifier artifact_ref) then None
        else
          renderer ← assoc (lit "renderer") artifact ≫= as_object;
          if other_keys [lit "kind"; lit "payload"] renderer then None
          else
            renderer_kind ← field_str renderer (lit "kind");
            let renderer_kind := trim renderer_kind in
            payload ← assoc (lit "payload") renderer ≫= as_object;
            renderer_payload ← project_inline_renderer renderer_kind payload;
            embed ← assoc (lit "embed") structured ≫= as_object;
            if other_keys [lit "syntax"; lit "code"] embed then None
            else
              syntax ← field_str embed (lit "syntax");
              if negb (seqb syntax (lit "codex-inline-vis.artifact.v1")) then None
              else
                code ← field_str embed (lit "code");
                if negb (seqb code (embed_code artifact_ref)) then None
                else Some (mkInlineCandidate artifact_ref renderer_kind renderer_payload).
End map_cards.

(** ** References to artifacts in messages *)

(** How many characters a text starts with that satisfy a test. *)
Fixpoint count_while (p : char → bool) (s : str) : nat :=
  match s with
  | c :: s => if p c then S (count_while p s) else 0
  | [] => 0
  end.

(** A line that is no fence: a reference, unless it is in a fence or is indented code. *)
Definition inline_directive (fence : option (char * nat)) (refs : list str) (leading_spaces : nat) (line : str) :
    option (char * nat) * list str :=
  if bool_decide (is_Some fence) || (4 <=? leading_spaces) || starts_with [9%N] line then (fence, refs)
  else match strip_prefix EMBED_PREFIX (trim line) ≫= strip_suffix EMBED_SUFFIX with
       | Some value =>
           if valid_card_identifier value && negb (existsb (seqb value) refs) then (fence, refs ++ [value])
           else (fence, refs)
       | None => (fence, refs)
       end.

(** One line of a message, with the fence it is in and the references so far. *)
Definition inline_ref_line (state : option (char * nat) * list str) (source_line : str) : option (char * nat) * list str :=
  let '(fence, refs) := state in
  let line := trim_end_matches cr source_line in
  let leading_spaces := count_while (N.eqb 32) line in
  let trimmed_start := drop leading_spaces line in
  let marker := match head trimmed_start with
                | Some c => if existsb (N.eqb c) [96%N; 126%N] then Some c else None
                | None => None
                end in
  let marker_len := match marker with Some m => count_while (N.eqb m) trimmed_start | None => 0 end in
  match (if leading_spaces <=? 3 then marker else None) with
  | Some m =>
      if 3 <=? marker_len then
        (match fence with
         | Some (active, minimum) => if (active =? m)%N && (minimum <=? marker_len) then None else fence
         | None => Some (m, marker_len)
         end, refs)
      else inline_directive fence refs leading_spaces line
  | None => inline_directive fence refs leading_spaces line
  end.

Definition inline_artifact_refs (markdown : str) : list str :=
  snd (foldl inline_ref_line (None, []) (lines markdown)).

(** ** Resources that a map refers to *)

Definition source_resource_ref (source : Json) : option (str * str) :=
  data ← get (lit "data") source;
  if bool_decide (get (lit "type") data ≫= as_str = Some (lit "mcp_resource")) then
    server ← get (lit "server") data ≫= as_str;
    uri ← get (lit "uri") data ≫= as_str;
    Some (server, uri)
  else None.

Definition map_payload_resource_refs (map_payload : Json) : option (list (str * str)) :=
  sources ← get (lit "sources") map_payload ≫= as_object;
  match omap (fun e => source_resource_ref (snd e)) sources with
  | [] => None
  | refs => Some refs
  end.

(** The data of a source once its resource is an artifact. *)
Definition artifact_data (show_uuid : Uuid → str) (run_id artifact_id : Uuid) (mime_type : option str) : Json :=
  JObject [(lit "artifact_id", JString (show_uuid artifact_id));
           (lit "format", JString (lit "geojson"));
           (lit "mime_type", or_null mime_type);
           (lit "type", JString (lit "artifact"));
           (lit "url", JString (lit "/api/runs/" ++ show_uuid run_id ++ lit "/artifacts/" ++ show_uuid artifact_id))].

Definition replace_source_data (show_uuid : Uuid → str) (run_id : Uuid) (resolved : gmap (str * str) (Uuid * option str))
    (source : Json) : Json :=
  match source_resource_ref source with
  | Some key =>
      match resolved !! key with
      | Some (artifact_id, mime_type) =>
          on_object (obj_update (lit "data") (fun _ => artifact_data show_uuid run_id artifact_id mime_type)) source
      | None => source
      end
  | None => source
  end.

Definition replace_map_payload_resource_refs (show_uuid : Uuid → str) (run_id : Uuid)
    (resolved : gmap (str * str) (Uuid * option str)) (map_payload : Json) : Json :=
  on_object (obj_update (lit "sources")
    (on_object (map (fun '(id, source) => (id, replace_source_data show_uuid run_id resolved source))))) map_payload.

(** ** Frames *)

Record ProjectedEvent := mkEvent {
  event_type : str;
  event_thread : str;
  event_turn : option str;
  event_item : option str;
  event_payload : Json;
  reply_artifacts : list ReplyArtifactCandidate;
  inline_artifact : option InlineVisualizationArtifactCandidate
}.

Definition PROJECTION_VERSION : Json := JNumber (lit "1").

Inductive ProjectionError := InvalidUtf8 | InvalidJson | InvalidBase64.

(** [o.or_else(|| ...)] *)
Definition or_else {A} (a b : option A) : option A := match a with Some _ => a | None => b end.

Section frames.
Context `{JT : !JsonText} `{F64 : !Float64}.

(** The JSON text of a frame: its [data:] lines, or the whole of it. *)
Definition frame_json_text (text : str) : option str :=
  let joined := join [nl] (map trim_start (omap (strip_prefix (lit "data:")) (lines text))) in
  if seqb joined [] then
    let raw := trim text in
    if starts_with (lit "{") raw || starts_with (lit "[") raw then Some raw else None
  else
    let joined := trim joined in if seqb joined [] then None else Some joined.

Definition envelope_message (value : Json) : option Fields :=
  if bool_decide (get (lit "method") value ≫= as_str = Some (lit "app-server-event"))
  then (get (lit "params") value ≫= get (lit "message")) ≫= as_object
  else None.

Definition internal_message (data : list N) : result (option Fields) ProjectionError :=
  match from_utf8 data with
  | Err _ => Err InvalidUtf8
  | Ok text =>
      match frame_json_text text with
      | None => Ok None
      | Some json_text =>
          match json_from_str json_text with
          | None => Err InvalidJson
          | Some value => Ok (envelope_message value)
          end
      end
  end.

Definition message_params (message : Fields) : Fields := default [] (assoc (lit "params") message ≫= as_object).

Definition project_message (message : Fields) : option ProjectedEvent :=
  let runtime_method := default (lit "unknown") (field_str message (lit "method")) in
  let params := message_params message in
  thread_id ← or_else (string_field params (lit "threadId")) (string_field params (lit "thread_id"));
  let turn_id := or_else (string_field params (lit "turnId"))
                   (or_else (string_field params (lit "turn_id")) (nested_string_field params (lit "turn") (lit "id"))) in
  let item := assoc (lit "item") params ≫= as_object in
  let item_id := or_else (string_field params (lit "itemId"))
                   (or_else (string_field params (lit "item_id")) (item ≫= fun item => string_field item (lit "id"))) in
  let '(event_type, lifecycle) := classify_method runtime_method in
  let item_type := item ≫= fun item => string_field item (lit "type") in
  let data := match item with Some item => project_item item | None => project_event_data runtime_method params end in
  let payload :=
    JObject [(lit "data", data); (lit "itemId", or_null item_id); (lit "itemType", or_null item_type);
             (lit "lifecycle", JString lifecycle); (lit "schemaVersion", PROJECTION_VERSION);
             (lit "threadId", JString thread_id); (lit "turnId", or_null turn_id)] in
  Some (mkEvent event_type thread_id turn_id item_id payload
          (match item with Some item => reply_artifact_candidates item | None => [] end)
          (item ≫= project_inline_visualization_artifact)).

Definition project_frame (data : list N) : result (option ProjectedEvent) ProjectionError :=
  let? message := internal_message data in
  Ok (message ≫= project_message).
End frames.

(** ** Stored threads: [routes/threads.rs] *)

Record ThreadHistoryError := mkHistoryError { error_message : str; additional_details : option str }.

Record ThreadHistoryTurn := mkHistoryTurn {
  history_turn_id : str;
  history_status : str;
  history_items : list Json;
  history_error : option ThreadHistoryError;
  started_at : option Z;
  completed_at : option Z;
  duration_ms : option Z
}.

(** [Value::as_i64] *)
Definition as_i64 (v : Json) : option Z :=
  match v with
  | JNumber (45%N :: digits) =>
      n ← as_u64 (JNumber digits); if (n <=? 2 ^ 63)%N then Some (- Z.of_N n)%Z else None
  | _ => as_u64 v ≫= i64_try_from
  end.

(** An item of a turn, with its id. *)
Definition project_turn_item (item : Json) : option Json :=
  source ← as_object item;
  let projected := project_item source in
  Some (match field_str source (lit "id") with
        | Some id => on_object (obj_insert (lit "id") (JString id)) projected
        | None => projected
        end).

Inductive TurnError := TurnInvalid | TurnOmittedId.

Definition project_turn (value : Json) : result ThreadHistoryTurn TurnError :=
  match as_object value with
  | None => Err TurnInvalid
  | Some object =>
      match field_str object (lit "id") with
      | None | Some [] => Err TurnOmittedId
      | Some id =>
          let items := omap project_turn_item (default [] (assoc (lit "items") object ≫= as_array)) in
          let error :=
            error ← assoc (lit "error") object ≫= as_object;
            Some (mkHistoryError (default (lit "Turn failed") (field_str error (lit "message")))
                    (field_str error (lit "additionalDetails"))) in
          Ok (mkHistoryTurn id (default (lit "completed") (field_str object (lit "status"))) items error
                (assoc (lit "startedAt") object ≫= as_i64) (assoc (lit "completedAt") object ≫= as_i64)
                (assoc (lit "durationMs") object ≫= as_i64))
      end
  end.
