(* ===== verification/ProjectionFacts.v ===== *)
(** * What the projection of events hides, and what messages can embed *)

From S2P Require Import Prelude RustStr Utf8 ResponseModel Approval WorldState WorldStateFacts Projection.
Open Scope nat_scope.
#[local] Arguments lit _ : simpl never.

(** ** Values that look the same from outside *)

(** The keys whose texts name things; they are copied as they are. *)
Definition is_naming_key (key : str) : bool :=
  existsb (seqb key)
    [lit "method"; lit "threadId"; lit "thread_id"; lit "turnId"; lit "turn_id"; lit "itemId"; lit "item_id"; lit "id";
     lit "type"; lit "requestId"].

(** Two values under a key that differ only in secrets, in where absolute paths lead to the
    same name, and in embedded data. *)
Inductive alike : str → Json → Json → Prop :=
| alike_secret k v w : is_sensitive_key k = true → alike k v w
| alike_path k p q :
    is_path_key k = true → path_is_absolute p = true → path_is_absolute q = true → path_name p = path_name q →
    alike k (JString p) (JString q)
| alike_data k s t :
    is_path_key k = false → is_naming_key k = false → starts_with (lit "data:") s = true →
    starts_with (lit "data:") t = true → alike k (JString s) (JString t)
| alike_same k v : (match v with JArray _ | JObject _ => False | _ => True end) → alike k v v
| alike_array k l l' : Forall2 (alike k) l l' → alike k (JArray l) (JArray l')
| alike_object k f g : Forall2 (fun e e' => fst e = fst e' ∧ alike (fst e) (snd e) (snd e')) f g →
    alike k (JObject f) (JObject g).

Definition alike_fields (f g : Fields) : Prop := Forall2 (fun e e' => fst e = fst e' ∧ alike (fst e) (snd e) (snd e')) f g.

Lemma sanitize_sensitive v k : is_sensitive_key k = true → sanitize_value v k = REDACTED.
Proof. intros H. destruct v; cbn [sanitize_value]; by rewrite H. Qed.

Lemma sanitize_alike v : ∀ k w, alike k v w → sanitize_value v k = sanitize_value w k.
Proof.
  induction v as [|b|s|s|l IH|f IH] using json_induction; intros k w H;
    (destruct (is_sensitive_key k) eqn:E; [by rewrite !sanitize_sensitive|]);
    inversion H as [? ? ? HS|? ? ? Hp Hs Ht Hn|? ? ? Hp Hk Hs Ht|? ? Hv|? ? ? HF|? ? ? HF]; subst; try congruence; try done;
    cbn [sanitize_value]; rewrite E; clear H.
  - unfold safe_path. by rewrite Hp, Hs, Ht, Hn.
  - by rewrite Hp, Hs, Ht.
  - f_equal. induction HF as [|x y l l' Hxy HF IHF]; [done|]. apply Forall_cons in IH as [IHx IH].
    cbn [map]. f_equal; [by apply IHx|by apply IHF].
  - f_equal. induction HF as [|[k' x] [k'' y] f g [Hk Hxy] HF IHF]; [done|]. cbn [fst snd map] in *. subst k''.
    f_equal; [f_equal; apply (IH k'); [set_solver|done]|]. apply IHF. intros k'' v Hin. apply (IH k''). set_solver.
Qed.

(** ** Reading values that look the same *)

(** A key under which nothing is hidden. *)
Definition plain_key (k : str) : Prop := is_sensitive_key k = false.
Definition raw_key (k : str) : Prop := is_sensitive_key k = false ∧ is_path_key k = false ∧ is_naming_key k = true.

Lemma assoc_alike k f g : alike_fields f g → option_Forall2 (alike k) (assoc k f) (assoc k g).
Proof.
  induction 1 as [|[k1 x] [k2 y] f g [Hk Hxy] HF IH]; cbn; [constructor|]. cbn in Hk, Hxy. subst k2.
  destruct (seqb k k1) eqn:E; [|exact IH]. apply seqb_eq in E as ->. by constructor.
Qed.

Lemma field_str_alike k f g : raw_key k → alike_fields f g → field_str f k = field_str g k.
Proof.
  intros (Hs & Hp & Hn) H%(assoc_alike k). unfold field_str.
  destruct H as [x y Hxy|]; [|done]. cbn. inversion Hxy; subst; congruence || done.
Qed.

Lemma as_object_alike k f g : plain_key k → alike_fields f g →
  option_Forall2 alike_fields (assoc k f ≫= as_object) (assoc k g ≫= as_object).
Proof.
  intros Hs H%(assoc_alike k). destruct H as [x y Hxy|]; [|constructor]. unfold plain_key in Hs. cbn.
  inversion Hxy; subst; try congruence; try (by constructor). by destruct y; constructor.
Qed.

Lemma copy_sanitized_alike ks f g data : alike_fields f g → copy_sanitized f ks data = copy_sanitized g ks data.
Proof.
  intros H. unfold copy_sanitized. revert data. induction ks as [|k ks IH]; intros data; cbn [foldl]; [done|].
  destruct (assoc_alike k f g H) as [x y Hxy|]; [|apply IH]. rewrite (sanitize_alike _ _ _ Hxy). apply IH.
Qed.

Ltac raw := solve [vm_compute; repeat split; reflexivity].

Lemma copy_status_alike f g p : alike_fields f g → copy_status f p = copy_status g p.
Proof.
  intros H%(assoc_alike (lit "status")). unfold copy_status. destruct H as [x y Hxy|]; [|done].
  by rewrite (sanitize_alike _ _ _ Hxy).
Qed.

Lemma copy_item_fields_alike t f g p : alike_fields f g → copy_item_fields t f p = copy_item_fields t g p.
Proof. intros H. unfold copy_item_fields. destruct (item_fields t); [by apply copy_sanitized_alike|done]. Qed.

(** Embedded data is no phase. *)
Lemma copy_phase_alike f g p : alike_fields f g → copy_phase f p = copy_phase g p.
Proof.
  intros H%(assoc_alike (lit "phase")). unfold copy_phase, field_str. destruct H as [x y Hxy|]; [|done].
  cbn [mbind option_bind].
  assert (∀ s, starts_with (lit "data:") s = true → existsb (seqb s) [lit "commentary"; lit "final_answer"] = false) as Hd.
  { intros s Hs. destruct (existsb _ _) eqn:E; [|done]. apply existsb_exists in E as (x' & Hin & ->%seqb_eq).
    destruct Hin as [<-|[<-|[]]]; vm_compute in Hs; discriminate. }
  inversion Hxy as [? ? ? HS|? ? ? Hp|? ? ? ? ? Ha Hb| | |]; subst; try (vm_compute in HS; discriminate);
    try (vm_compute in Hp; discriminate); try done.
  cbn [as_str]. by rewrite (Hd _ Ha), (Hd _ Hb).
Qed.

Lemma project_item_alike f g : alike_fields f g → project_item f = project_item g.
Proof.
  intros H. unfold project_item, string_field. rewrite (field_str_alike (lit "type") f g) by (done || raw).
  rewrite (copy_status_alike f g), (copy_item_fields_alike _ f g) by done.
  by rewrite (copy_phase_alike f g).
Qed.

(** ** Whole messages *)

Lemma project_event_data_alike `{JsonText} m f g : alike_fields f g → project_event_data m f = project_event_data m g.
Proof.
  intros Hfg. unfold project_event_data. rewrite (field_str_alike (lit "requestId") f g) by (done || raw). f_equal.
  by apply copy_sanitized_alike.
Qed.

(** An event without the card of a map: its ids, its payload and the resources it announces. *)
Definition shown (e : ProjectedEvent) : str * str * option str * option str * Json * list ReplyArtifactCandidate :=
  (event_type e, event_thread e, event_turn e, event_item e, event_payload e, reply_artifacts e).

(** Embedded data starts with a [d], also when trimmed. *)
Lemma data_trimmed s : starts_with (lit "data:") s = true → ∃ t, trim s = 100%N :: t.
Proof. intros [t ->]%starts_with_spec. change (lit "data:" ++ t) with (100%N :: lit "ata:" ++ t). rewrite trim_cons by done. by apply trim_end_cons. Qed.

Lemma data_is_no_resource s : starts_with (lit "data:") s = true → valid_geojson_resource_uri (trim s) = false.
Proof.
  intros [t Ht]%data_trimmed. rewrite Ht. unfold valid_geojson_resource_uri.
  destruct (strip_prefix _ _) eqn:E; [|done]. by apply strip_prefix_Some in E.
Qed.

Lemma data_is_no_mime s : starts_with (lit "data:") s = true → existsb (seqb (trim s)) JSON_MIME_TYPES = false.
Proof.
  intros [t Ht]%data_trimmed. rewrite Ht. destruct (existsb _ _) eqn:E; [|done].
  by apply existsb_exists in E as (m & [<-|[<-|[]]] & [=]%seqb_eq).
Qed.

(** A text under a key that names no path is the same, or embedded data on both sides. *)
Lemma field_str_data k f g : plain_key k → is_path_key k = false → alike_fields f g →
  field_str f k = field_str g k ∨
  ∃ a b, field_str f k = Some a ∧ field_str g k = Some b ∧ starts_with (lit "data:") a = true ∧ starts_with (lit "data:") b = true.
Proof.
  intros Hk Hp H%(assoc_alike k). unfold field_str, plain_key in *. destruct H as [x y Hxy|]; [|by left]. cbn [mbind option_bind].
  inversion Hxy; subst; try congruence; try (by left). right. by do 2 eexists.
Qed.

Lemma size_alike k f g : plain_key k → alike_fields f g →
  assoc k f ≫= as_u64 = assoc k g ≫= as_u64 ∧ assoc k f ≫= as_i64 = assoc k g ≫= as_i64.
Proof.
  intros Hk H%(assoc_alike k). unfold plain_key in Hk. destruct H as [x y Hxy|]; [|done]. cbn [mbind option_bind].
  inversion Hxy; subst; congruence || done.
Qed.

Section hiding.
Context `{JT : !JsonText} `{F64 : !Float64}.

Lemma message_params_alike m m' : alike_fields m m' → alike_fields (message_params m) (message_params m').
Proof.
  intros H. unfold message_params. destruct (as_object_alike (lit "params") m m') as [x y Hxy|]; [raw|done|done|constructor].
Qed.

Lemma nested_alike f g k k' : plain_key k → raw_key k' → alike_fields f g →
  nested_string_field f k k' = nested_string_field g k k'.
Proof.
  intros Hk Hk' H. unfold nested_string_field, string_field.
  destruct (as_object_alike k f g Hk H) as [x y Hxy|]; [|done]. cbn. by apply field_str_alike.
Qed.

Lemma reply_link_alike k x y : plain_key k → alike k x y → reply_artifact_link x = reply_artifact_link y.
Proof.
  intros Hk Hxy. unfold plain_key in Hk. inversion Hxy as [| | | | |? f g Hfg]; subst; try congruence; try done.
  unfold reply_artifact_link. cbn [as_object mbind option_bind].
  rewrite (field_str_alike (lit "type") f g) by (done || raw). destruct (field_str g (lit "type")) as [t|]; [|done].
  cbn [mbind option_bind]. destruct (negb (seqb t _)); [done|].
  destruct (field_str_data (lit "uri") f g) as [->|(a & b & -> & -> & Ha & Hb)]; [raw|raw|done| |];
    [|cbn [mbind option_bind]; by rewrite (data_is_no_resource a), (data_is_no_resource b)].
  destruct (field_str g (lit "uri")) as [uri|]; [|done]. cbn [mbind option_bind].
  destruct (negb (valid_geojson_resource_uri (trim uri))); [done|].
  destruct (size_alike (lit "size") f g) as [-> _]; [raw|done|].
  destruct (field_str_data (lit "mimeType") f g) as [->|(a & b & -> & -> & Ha & Hb)]; [raw|raw|done|done|].
  cbn [mbind option_bind]. pose proof (data_is_no_mime _ Ha) as Ea. pose proof (data_is_no_mime _ Hb) as Eb.
  destruct (seqb (trim a) []), (seqb (trim b) []); by rewrite ?Ea, ?Eb.
Qed.

Lemma omap_Forall2 {A B} (h : A → option B) l l' : Forall2 (fun x y => h x = h y) l l' → omap h l = omap h l'.
Proof. induction 1 as [|x y l l' Hxy _ IH]; [done|]. cbn. rewrite Hxy. by case_match; rewrite IH. Qed.

(** What is made of the elements of a list. *)
Lemma omap_alike {B} (h : Json → option B) k f g :
  plain_key k → (∀ x y, alike k x y → h x = h y) → alike_fields f g →
  omap h (default [] (assoc k f ≫= as_array)) = omap h (default [] (assoc k g ≫= as_array)).
Proof.
  intros Hk Hh H%(assoc_alike k). unfold plain_key in Hk. destruct H as [x y Hxy|]; [|done]. cbn [mbind option_bind].
  inversion Hxy as [? ? ? HS| | | |? l l' HF|]; subst; try congruence; try done.
  cbn [as_array default option_bind]. apply omap_Forall2. eapply Forall2_impl; [exact HF|]. done.
Qed.

Lemma reply_candidates_alike f g : alike_fields f g → reply_artifact_candidates f = reply_artifact_candidates g.
Proof.
  intros H. unfold reply_artifact_candidates. f_equal.
  destruct (as_object_alike (lit "result") f g) as [x y Hxy|]; [raw|done| |done]. cbn [mbind option_bind].
  apply (omap_alike _ (lit "content")); [raw| |done]. intros a b. apply reply_link_alike. raw.
Qed.

Lemma project_message_alike m m' : alike_fields m m' → shown <$> project_message m = shown <$> project_message m'.
Proof.
  intros H. pose proof (message_params_alike _ _ H) as Hp. unfold project_message.
  rewrite (field_str_alike (lit "method") m m') by (done || raw). set (p := message_params m) in *.
  set (p' := message_params m') in *. unfold string_field.
  rewrite !(field_str_alike _ p p') by (done || raw).
  rewrite (nested_alike p p') by (done || raw).
  destruct (or_else (field_str p' (lit "threadId")) _) as [thread|]; [|done]. cbn [mbind option_bind].
  destruct (classify_method _) as [t lifecycle].
  destruct (as_object_alike (lit "item") p p') as [f g Hfg|]; [raw|done| |]; cbn [mbind option_bind fmap option_fmap option_map].
  - unfold shown; cbn. by rewrite !(field_str_alike _ f g), (project_item_alike f g), (reply_candidates_alike f g) by (done || raw).
  - unfold shown; cbn. by rewrite (project_event_data_alike _ p p').
Qed.

(** ** Stored turns *)

Lemma project_turn_item_alike k x y : plain_key k → alike k x y → project_turn_item x = project_turn_item y.
Proof.
  intros Hk Hxy. unfold plain_key in Hk. inversion Hxy as [| | | | |? f g Hfg]; subst; try congruence; try done.
  unfold project_turn_item. cbn [as_object mbind option_bind].
  by rewrite (project_item_alike f g), (field_str_alike (lit "id") f g) by (done || raw).
Qed.

(** The texts of a turn that are copied as they are: its status and its error. *)
Definition turn_texts (f : Fields) : list str :=
  let error := default [] (assoc (lit "error") f ≫= as_object) in
  omap id [field_str f (lit "status"); field_str error (lit "message"); field_str error (lit "additionalDetails")].

Definition embeds_no_data (texts : list str) : Prop := Forall (fun s => starts_with (lit "data:") s = false) texts.

Lemma text_alike k f g :
  plain_key k → is_path_key k = false → alike_fields f g →
  (∀ s, field_str f k = Some s → starts_with (lit "data:") s = false) → field_str f k = field_str g k.
Proof.
  intros Hk Hp H Hs. destruct (field_str_data k f g) as [|(a & b & E & _ & Ha & _)]; [done..|].
  by rewrite (Hs a E) in Ha.
Qed.

Lemma turn_text (o : option str) l : o ∈ l → embeds_no_data (omap id l) →
  ∀ s, o = Some s → starts_with (lit "data:") s = false.
Proof. intros Ho Hl s ->. unfold embeds_no_data in Hl. rewrite Forall_forall in Hl. apply Hl, list_elem_of_omap. by exists (Some s). Qed.

Lemma turn_time_alike k f g : plain_key k → alike_fields f g → assoc k f ≫= as_i64 = assoc k g ≫= as_i64.
Proof. intros Hk H. by apply size_alike. Qed.

Lemma turn_error_alike f g : alike_fields f g → embeds_no_data (turn_texts f) →
  (error ← assoc (lit "error") f ≫= as_object;
   Some (mkHistoryError (default (lit "Turn failed") (field_str error (lit "message"))) (field_str error (lit "additionalDetails")))) =
  (error ← assoc (lit "error") g ≫= as_object;
   Some (mkHistoryError (default (lit "Turn failed") (field_str error (lit "message"))) (field_str error (lit "additionalDetails")))).
Proof.
  intros H Hn. unfold turn_texts in Hn.
  destruct (as_object_alike (lit "error") f g) as [x y Hxy|]; [raw|done| |done]. cbn [mbind option_bind default] in *.
  by rewrite !(text_alike _ x y) by (done || raw || (eapply turn_text; [|exact Hn]; set_solver)).
Qed.

Lemma project_turn_alike f g : alike_fields f g → embeds_no_data (turn_texts f) →
  project_turn (JObject f) = project_turn (JObject g).
Proof.
  intros H Hn. unfold project_turn. cbn [as_object].
  rewrite (field_str_alike (lit "id") f g) by (done || raw). destruct (field_str g (lit "id")) as [[|c i]|]; [done| |done].
  rewrite (turn_error_alike f g H Hn).
  rewrite (text_alike (lit "status") f g) by (done || raw || (eapply turn_text; [|exact Hn]; set_solver)).
  rewrite (omap_alike _ (lit "items") f g) by (done || raw || (intros ? ?; apply project_turn_item_alike; raw)).
  by rewrite (turn_time_alike (lit "startedAt") f g), (turn_time_alike (lit "completedAt") f g), (turn_time_alike (lit "durationMs") f g) by (done || raw).
Qed.

(** What a turn shows apart from its status and its error. *)
Definition turn_shown (r : result ThreadHistoryTurn TurnError) : result (str * list Json * option Z * option Z * option Z) TurnError :=
  match r with
  | Ok t => Ok (history_turn_id t, history_items t, started_at t, completed_at t, duration_ms t)
  | Err e => Err e
  end.

(** C5: secrets do not reach browsers.  Two messages of the runtime that differ only in values
    under keys that name secrets, at any depth, in the directories of absolute paths and in
    embedded data, are projected to the same event: type, ids, payload and the resources it
    announces (the card of a map, which is checked and kept as it is, apart).  The ids, items and
    times of a stored turn are shown the same likewise, and so is the whole turn, its status and its
    error with it, if these texts are not embedded data. *)
Theorem projection_hides_secrets :
  (∀ m m', alike_fields m m' → shown <$> project_message m = shown <$> project_message m') ∧
  (∀ f g, alike_fields f g →
     turn_shown (project_turn (JObject f)) = turn_shown (project_turn (JObject g)) ∧
     (embeds_no_data (turn_texts f) → project_turn (JObject f) = project_turn (JObject g))).
Proof.
  split; [exact project_message_alike|]. intros f g H. split; [|by apply project_turn_alike]. unfold project_turn. cbn [as_object].
  rewrite (field_str_alike (lit "id") f g) by (done || raw). destruct (field_str g (lit "id")) as [[|c i]|]; [done| |done].
  cbn [turn_shown history_turn_id history_items started_at completed_at duration_ms].
  rewrite (omap_alike _ (lit "items") f g) by (done || raw || (intros ? ?; apply project_turn_item_alike; raw)).
  by rewrite (turn_time_alike (lit "startedAt") f g), (turn_time_alike (lit "completedAt") f g), (turn_time_alike (lit "durationMs") f g) by (done || raw).
Qed.
End hiding.

(** ** Links to resources *)

Lemma assoc_obj_update k f (o : Fields) : assoc k (obj_update k f o) = f <$> assoc k o.
Proof.
  induction o as [|[k' v] o IH]; [done|]. cbn [obj_update map assoc]. destruct (seqb k k') eqn:E; [done|exact IH].
Qed.

Lemma assoc_obj_update_ne k k' f (o : Fields) : k ≠ k' → assoc k (obj_update k' f o) = assoc k o.
Proof.
  intros Hne. induction o as [|[k1 v] o IH]; [done|]. cbn [obj_update map assoc]. destruct (seqb k k1) eqn:E; [|exact IH].
  apply seqb_eq in E as ->. destruct (seqb k' k1) eqn:E'; [apply seqb_eq in E'; congruence|done].
Qed.

Lemma assoc_obj_remove k k' (o : Fields) : assoc k (obj_remove k' o) = if seqb k k' then None else assoc k o.
Proof.
  induction o as [|[k1 v] o IH]; cbn [obj_remove List.filter assoc]; [by case_match|]. cbn [fst].
  destruct (seqb k' k1) eqn:E; cbn [negb].
  - apply seqb_eq in E as <-. etransitivity; [exact IH|]. by destruct (seqb k k').
  - cbn [assoc]. destruct (seqb k k1) eqn:E1; [|exact IH]. apply seqb_eq in E1 as ->.
    destruct (seqb k1 k') eqn:E2; [|done]. apply seqb_eq in E2 as ->. by rewrite seqb_refl in E.
Qed.

(** The content of the result that an item shows. *)
Definition shown_content (item : Json) : list Json :=
  default [] (((get (lit "result") item ≫= get (lit "content"))) ≫= as_array).

(** Where a tool's resources are is not shown: no link in its result has an address. *)
Theorem resource_links_are_hidden f link :
  field_str f (lit "type") = Some (lit "mcpToolCall") → link ∈ shown_content (project_item f) →
  get (lit "type") link = Some (JString (lit "resource_link")) →
  get (lit "uri") link = None ∧ get (lit "_meta") link = None.
Proof.
  intros Ht Hin Hlink. unfold shown_content, project_item, string_field in Hin. rewrite Ht in Hin.
  cbn [default] in Hin. rewrite seqb_refl in Hin. cbn [get] in Hin. rewrite assoc_obj_update in Hin.
  destruct (assoc (lit "result") _) as [[| | | | |result]|]; try (by apply not_elem_of_nil in Hin).
  cbn [fmap option_fmap option_map redact_mcp_resource_metadata on_object mbind option_bind get] in Hin.
  rewrite assoc_obj_update in Hin. destruct (assoc (lit "content") _) as [[| | | |content|]|];
    try (by apply not_elem_of_nil in Hin).
  cbn in Hin. apply list_elem_of_In, in_map_iff in Hin as (x & <- & _).
  destruct x as [| | | | |fields]; try done. cbn [redact_link] in *. case_bool_decide as Hl; cbn [get] in *.
  - by rewrite !assoc_obj_remove.
  - unfold field_str in Hl. by rewrite Hlink in Hl.
Qed.

(** ** Embedding an artifact *)

(** The fence that a text leaves open. *)
Definition open_fence (text : str) : option (char * nat) := fst (foldl inline_ref_line (None, []) (lines text)).

Lemma inline_directive_keeps fence refs n line :
  ∃ more, inline_directive fence refs n line = (fence, refs ++ more).
Proof.
  unfold inline_directive. repeat case_match; try (by exists []; rewrite app_nil_r). by eexists.
Qed.

Lemma inline_ref_line_keeps state line : ∃ more, snd (inline_ref_line state line) = snd state ++ more.
Proof.
  destruct state as [fence refs]. unfold inline_ref_line.
  destruct (inline_directive_keeps fence refs (count_while (N.eqb 32) (trim_end_matches cr line)) (trim_end_matches cr line))
    as [more Hmore]. cbn zeta. rewrite Hmore. repeat case_match; cbn [snd]; eauto; by exists []; rewrite app_nil_r.
Qed.

Lemma inline_refs_keep ls state r : r ∈ snd state → r ∈ snd (foldl inline_ref_line state ls).
Proof.
  revert state. induction ls as [|l ls IH]; intros state Hr; [done|]. cbn [foldl]. apply IH.
  destruct (inline_ref_line_keeps state l) as [more ->]. set_solver.
Qed.

Lemma identifier_chars r : valid_card_identifier r = true → r ≠ [] ∧ Forall (fun c => is_identifier_char c = true) r.
Proof.
  unfold valid_card_identifier. rewrite !andb_true_iff, negb_true_iff. intros [[H1 _] H2].
  split; [by intros ->|]. by apply List.Forall_forall, List.forallb_forall.
Qed.

Lemma embed_code_no_nl r : valid_card_identifier r = true → nl ∉ embed_code r.
Proof.
  intros [_ H]%identifier_chars Hin. unfold embed_code in Hin. rewrite !elem_of_app in Hin.
  destruct Hin as [Hin|[Hin|Hin]].
  - vm_compute in Hin. set_solver.
  - rewrite Forall_forall in H. by specialize (H _ Hin).
  - vm_compute in Hin. set_solver.
Qed.

Lemma trim_end_matches_last c s x : x ≠ c → trim_end_matches c (s ++ [x]) = s ++ [x].
Proof.
  intros Hx. induction s as [|y s IH]; cbn [app trim_end_matches].
  - destruct (N.eqb_spec x c); [done|done].
  - rewrite IH. by destruct s.
Qed.

Lemma embed_code_snoc r : embed_code r = (EMBED_PREFIX ++ r ++ [34%N]) ++ [125%N].
Proof. unfold embed_code, EMBED_SUFFIX. by rewrite <- !app_assoc. Qed.

Lemma embed_code_no_cr r : strip_cr (embed_code r) = embed_code r.
Proof.
  rewrite embed_code_snoc. unfold strip_cr. destruct (strip_suffix [cr] _) as [s|] eqn:E; [|done].
  apply strip_suffix_Some, app_inj_tail in E as [_ E]. discriminate.
Qed.

Lemma embed_code_line refs r : valid_card_identifier r = true →
  ∃ refs', inline_ref_line (None, refs) (embed_code r) = (None, refs') ∧ r ∈ refs'.
Proof.
  intros Hr. unfold inline_ref_line.
  pose proof (embed_code_snoc r) as Hsnoc.
  assert (trim_end_matches cr (embed_code r) = embed_code r) as -> by (rewrite Hsnoc; by apply trim_end_matches_last).
  assert (trim (embed_code r) = embed_code r) as Htrim.
  { unfold trim. rewrite Hsnoc. change (EMBED_PREFIX ++ r ++ [34%N]) with (58%N :: drop 1 EMBED_PREFIX ++ r ++ [34%N]).
    cbn [app trim_start]. change (is_whitespace 58) with false. cbn match. apply (trim_end_last 125%N (58%N :: _)). done. }
  set (line := embed_code r) in *. change (count_while (N.eqb 32) line) with 0. rewrite drop_0.
  change (head line) with (Some 58%N). cbn [existsb N.eqb orb Nat.leb]. cbn match.
  unfold inline_directive. rewrite Htrim. change (starts_with [9%N] line) with false.
  rewrite bool_decide_eq_false_2 by (intros [? ?]; done). cbn [orb Nat.leb].
  unfold line, embed_code. rewrite strip_prefix_app. cbn [mbind option_bind].
  assert (strip_suffix EMBED_SUFFIX (r ++ EMBED_SUFFIX) = Some r) as -> by (by apply strip_suffix_Some).
  rewrite Hr. cbn [andb]. destruct (existsb (seqb r) refs) eqn:E; cbn [negb]; eexists; (split; [reflexivity|]); [|set_solver].
  apply existsb_exists in E as (r' & Hin & <-%seqb_eq). by apply list_elem_of_In.
Qed.

(** The code that comes with the result of a tool. *)
Definition item_embed_code (item : Fields) : option str :=
  result ← assoc (lit "result") item ≫= as_object;
  structured ← assoc (lit "structuredContent") result ≫= as_object;
  embed ← assoc (lit "embed") structured ≫= as_object;
  field_str embed (lit "code").

Lemma inline_candidate_spec `{F64 : !Float64} item c : project_inline_visualization_artifact item = Some c →
  valid_card_identifier (artifact_ref c) = true ∧ item_embed_code item = Some (embed_code (artifact_ref c)).
Proof.
  unfold project_inline_visualization_artifact, item_embed_code. intros H.
  repeat first [apply bind_Some in H as (? & ? & H) | match type of H with (if ?b then _ else _) = _ => destruct b eqn:? end; [done|]].
  injection H as <-. cbn [artifact_ref].
  repeat match goal with E : negb _ = false |- _ => apply negb_false_iff in E end.
  split; [done|]. repeat (apply bind_Some; eexists; split; [eassumption|]).
  match goal with E : seqb _ (embed_code _) = true |- _ => apply seqb_eq in E as <- end. done.
Qed.

(** An artifact can be embedded where its tool says.  If the result of a tool is kept as an
    artifact, the code that came with it is the one for its name, and a message with this
    code on a line of its own, outside code blocks, refers to the artifact. *)
Theorem embed_code_is_recognised `{F64 : !Float64} item c before after :
  project_inline_visualization_artifact item = Some c → open_fence (before ++ [nl]) = None →
  item_embed_code item = Some (embed_code (artifact_ref c)) ∧
  artifact_ref c ∈ inline_artifact_refs (before ++ nl :: embed_code (artifact_ref c) ++ nl :: after).
Proof.
  intros [Hv Hcode]%inline_candidate_spec Hf. split; [done|].
  unfold inline_artifact_refs. rewrite lines_app_nl, foldl_app.
  unfold open_fence in Hf. rewrite lines_app_nl, foldl_app in Hf. cbn [foldl lines split_on lines_of] in Hf.
  destruct (foldl inline_ref_line (None, []) (map strip_cr (split_on nl before))) as [fence refs]. cbn in Hf. subst fence.
  rewrite lines_app_nl, split_on_no_sep by by apply embed_code_no_nl. cbn [map app foldl].
  rewrite embed_code_no_cr. destruct (embed_code_line refs _ Hv) as (refs' & -> & Hin). by apply inline_refs_keep.
Qed.

(** ** Samples *)

Module SampleProjection.
(** Whole numbers stand for binary64 here. *)
#[export] Instance float64 : Float64 := {
  f64 := Z;
  as_f64 := fun l => as_i64 (JNumber l);
  f64_of := id;
  is_finite := fun _ => true;
  f64_leb := Z.leb;
  f64_literal := fun z => if (z <? 0)%Z then 45%N :: show_N (Z.to_N (- z)) else show_N (Z.to_N z)
}.
#[export] Instance text : JsonText := {|
  json_to_string := fun _ => []; json_from_str := fun _ => None; parse_uuid := fun _ => None
|}.

Definition s (t : string) : Json := JString (lit t).

(** A map with one layer of inline data, and a tool call that returns it. *)
Definition source : Json :=
  JObject [(lit "data", JObject [(lit "format", s "geojson");
                                 (lit "geojson", JObject [(lit "coordinates", JArray [JNumber (lit "1"); JNumber (lit "2")]);
                                                          (lit "type", s "Point")]);
                                 (lit "type", s "inline")]);
           (lit "type", s "geojson")].
Definition card (extensions : Json) : Json :=
  JObject [(lit "center", JArray [JNumber (lit "-3"); JNumber (lit "50")]); (lit "extensions", extensions);
           (lit "intent", s "show"); (lit "layers", JArray [JObject [(lit "id", s "l"); (lit "source", s "src"); (lit "type", s "circle")]]);
           (lit "sources", JObject [(lit "src", source)]); (lit "status", s "ready"); (lit "title", s "Map");
           (lit "zoom", JNumber (lit "9"))].
Definition map_item (extensions : Json) : Fields :=
  [(lit "id", s "item-1");
   (lit "result", JObject [(lit "structuredContent", JObject
      [(lit "artifact", JObject [(lit "ref", s "map-1");
                                 (lit "renderer", JObject [(lit "kind", s "map.v3"); (lit "payload", card extensions)])]);
       (lit "embed", JObject [(lit "code", JString (embed_code (lit "map-1"))); (lit "syntax", s "codex-inline-vis.artifact.v1")]);
       (lit "kind", JString ARTIFACT_KIND); (lit "type", JString ARTIFACT_TYPE)])]);
   (lit "type", s "mcpToolCall")].

Definition plain_item : Fields := map_item (JObject []).
Definition plain_artifact : InlineVisualizationArtifactCandidate :=
  mkInlineCandidate (lit "map-1") (lit "map.v3")
    (default JNull (as_object (card (JObject [])) ≫= project_map_card_v3)).

(** A message about a command; the password and the home directory are not shown. *)
Definition command_message (password home : string) : Fields :=
  [(lit "method", s "item/completed");
   (lit "params", JObject
      [(lit "item", JObject
          [(lit "command", s "make"); (lit "commandActions", JArray [JObject [(lit "path", JString (lit home ++ lit "/src/main.c"));
                                                                           (lit "db_password", s password)]]);
           (lit "id", s "item-2"); (lit "type", s "commandExecution")]);
       (lit "threadId", s "thread-1")])].
End SampleProjection.
#[local] Existing Instances SampleProjection.float64 SampleProjection.text.

Example secrets_hidden_example :
  let one := SampleProjection.command_message "hunter2" "/home/ann" in
  let two := SampleProjection.command_message "swordfish" "/srv/bob" in
  one ≠ two ∧ shown <$> project_message one = shown <$> project_message two ∧ is_Some (project_message one).
Proof. split_and!; [intros E; vm_compute in E; discriminate E|vm_compute; reflexivity|by eexists]. Qed.

Lemma embed_code_is_recognised_witness :
  lit "map-1" ∈ inline_artifact_refs (lit "Here it is:" ++ nl :: embed_code (lit "map-1") ++ nl :: lit "Zoom in.").
Proof.
  refine (proj2 (embed_code_is_recognised SampleProjection.plain_item SampleProjection.plain_artifact
    (lit "Here it is:") (lit "Zoom in.") _ _)); vm_compute; reflexivity.
Defined.

(** The extensions of a map are kept as they came: a value under a key that names a secret
    stays readable in the artifact. *)
Example map_extensions_are_not_sanitized :
  let hover := JObject [(lit "apiKey", SampleProjection.s "sk-1"); (lit "layers", JArray [])] in
  is_sensitive_key (lit "apiKey") = true ∧
  (((renderer_payload <$> project_inline_visualization_artifact (SampleProjection.map_item (JObject [(lit "hover", hover)])))
     ≫= get (lit "extensions")) ≫= get (lit "hover")) ≫= get (lit "apiKey") = Some (SampleProjection.s "sk-1").
Proof. split; vm_compute; reflexivity. Qed.

(** The error of a stored turn is copied as it is: embedded data in it is shown. *)
Example turn_errors_are_not_sanitized :
  let turn details := JObject [(lit "error", JObject [(lit "message", JString details)]); (lit "id", SampleProjection.s "turn-1")] in
  let error r := match r with Ok t => error_message <$> history_error t | Err _ => None end in
  error (project_turn (turn (lit "data:text/plain,x"))) = Some (lit "data:text/plain,x") ∧
  sanitize_value (JString (lit "data:text/plain,x")) (lit "message") = JString (lit "[embedded-data]").
Proof. split; vm_compute; reflexivity. Qed.
