(* ===== verification/RunScheduler.v ===== *)
(** * The run orchestrator

    [apps/web/crates/run-orchestrator]: runs are enqueued for a task, claimed by a
    worker under a lease, given a workspace and a Codex thread, and recovered,
    cancelled or retired ([scheduler.rs], [execution.rs]); turns and the end of a
    thread reach a run through [server/src/event_projection.rs].  The tables are a
    record of finite maps; each transaction, and each single statement outside a
    transaction, is a function on it.  A row of [runs] is split into the columns
    that are written once, when the run is enqueued, and those that change.
    [updated_at] and [heartbeat_at], which no query reads, are left out; the clock,
    fresh ids and lease tokens are arguments; Git checks are a parameter. *)

From S2P Require Import Prelude RustStr.
Open Scope N_scope.

Abbreviation Uuid := N (only parsing).
Abbreviation Timestamp := Z (only parsing).

(** ** Tables *)

Inductive RunStatus :=
| RPending | RProvisioning | RRunning | RCancelling | RRecoveryPending
| RCompleted | RCancelled | RFailed.
#[export] Instance RunStatus_eq_dec : EqDecision RunStatus.
Proof. solve_decision. Defined.

Inductive WorkspaceState := WProvisioning | WReady | WBusy | WCleanupPending | WFailed | WRetired.
#[export] Instance WorkspaceState_eq_dec : EqDecision WorkspaceState.
Proof. solve_decision. Defined.

Inductive TaskStatus := TPending | TRunning | TCompleted | TCancelled | TArchived | TFailed.
#[export] Instance TaskStatus_eq_dec : EqDecision TaskStatus.
Proof. solve_decision. Defined.

Inductive JobState := JPending | JRunning | JCompleted | JFailed.
#[export] Instance JobState_eq_dec : EqDecision JobState.
Proof. solve_decision. Defined.

(** The text of the column [status]. *)
Definition status_text (s : RunStatus) : str :=
  match s with
  | RPending => lit "pending"
  | RProvisioning => lit "provisioning"
  | RRunning => lit "running"
  | RCancelling => lit "cancelling"
  | RRecoveryPending => lit "recovery_pending"
  | RCompleted => lit "completed"
  | RCancelled => lit "cancelled"
  | RFailed => lit "failed"
  end.

(** The columns written by [enqueue_run]. *)
Record RunOrder := mkOrder {
  order_organization : Uuid;
  order_task : Uuid;
  requested_by : option Uuid;
  requested_profile_id : Uuid;
  source_ref : str;
  idempotency_key : str;
  workspace_kind : str;
  workspace_name : option str;
  workspace_parent_run_id : option Uuid;
  workspace_group_run_id : option Uuid;
  workspace_copy_agents_md : bool;
  fork_thread_id : option str;
  fork_source_run_id : option Uuid;
  run_created_at : Timestamp
}.

Record Lease := mkLease { lease_owner : str; lease_token : Uuid; lease_expires_at : Timestamp }.

(** The columns that change; the three lease columns are set and cleared together. *)
Record RunProgress := mkProgress {
  status : RunStatus;
  codex_thread_id : option str;
  active_turn_id : option str;
  workspace_id : option Uuid;
  attempt : Z;
  failure_code : option str;
  lease : option Lease
}.

Record RunRow := mkRunRow { order : RunOrder; progress : RunProgress }.

Record Task := mkTask { task_organization : Uuid; task_project : Uuid; task_status : TaskStatus }.
Record Project := mkProject { project_organization : Uuid; git_url : str; default_branch : str }.
Record ProfileRow := mkProfileRow {
  profile_row_organization : Uuid;
  profile_owner : Uuid;
  profile_runtime_key : str;
  profile_is_active : bool
}.
Record Workspace := mkWorkspace {
  workspace_organization : Uuid;
  workspace_run : Uuid;
  root_path : str;
  workspace_state : WorkspaceState
}.

(** A clean-up job; [UNIQUE (workspace_id, kind)] with one kind keys jobs by workspace. *)
Record Job := mkJob {
  job_state : JobState;
  job_attempt : Z;
  run_after : Timestamp;
  job_lease : option (Uuid * Timestamp);
  job_created_at : Timestamp
}.

Record RunDb := mkRunDb {
  tasks : gmap Uuid Task;
  projects : gmap Uuid Project;
  profile_rows : gmap Uuid ProfileRow;
  runs : gmap Uuid RunRow;
  workspaces : gmap Uuid Workspace;
  jobs : gmap Uuid Job
}.

Definition set_runs (r : gmap Uuid RunRow) (db : RunDb) : RunDb :=
  mkRunDb (tasks db) (projects db) (profile_rows db) r (workspaces db) (jobs db).

Definition update_run (id : Uuid) (f : RunProgress → RunProgress) (db : RunDb) : RunDb :=
  set_runs (alter (fun r => mkRunRow (order r) (f (progress r))) id (runs db)) db.

Definition set_workspace_state (id : Uuid) (f : WorkspaceState → WorkspaceState) (db : RunDb) : RunDb :=
  mkRunDb (tasks db) (projects db) (profile_rows db) (runs db)
    (alter (fun w => mkWorkspace (workspace_organization w) (workspace_run w) (root_path w)
                       (f (workspace_state w))) id (workspaces db)) (jobs db).

Definition set_task_status (id : Uuid) (f : TaskStatus → TaskStatus) (db : RunDb) : RunDb :=
  mkRunDb (alter (fun t => mkTask (task_organization t) (task_project t) (f (task_status t))) id (tasks db))
    (projects db) (profile_rows db) (runs db) (workspaces db) (jobs db).

(** [INSERT INTO runner_jobs ... ON CONFLICT (workspace_id, kind) DO UPDATE SET state = 'pending',
    run_after = now(), ...]; [reset] also clears the lease, as [retire_workspace] does. *)
Definition enqueue_cleanup (now : Timestamp) (reset : bool) (ws : Uuid) (db : RunDb) : RunDb :=
  let job :=
    match jobs db !! ws with
    | Some j => mkJob JPending (job_attempt j) now (if reset then None else job_lease j) (job_created_at j)
    | None => mkJob JPending 0 now None now
    end in
  mkRunDb (tasks db) (projects db) (profile_rows db) (runs db) (workspaces db) (<[ws := job]> (jobs db)).

(** ** Requests and errors *)

Inductive RunOrchestratorError :=
| Invalid (message : str)
| NotFound
| Conflict (message : str)
| LeaseLost
| Database (message : str)
| Git (message : str)
| Adapter (message : str).

Record EnqueueRunRequest := mkEnqueue {
  enqueue_organization : Uuid;
  enqueue_actor : Uuid;
  enqueue_task : Uuid;
  enqueue_key : str;
  git_ref : option str;
  enqueue_kind : str;
  enqueue_name : option str;
  enqueue_parent : option Uuid;
  enqueue_group : option Uuid;
  copy_agents_md : bool;
  enqueue_fork_thread : option str;
  enqueue_fork_source : option Uuid
}.

(** [CancelRunRequest], [RecoverRunRequest] and [RetireWorkspaceRequest]. *)
Record RunRequest := mkRunRequest {
  request_organization : Uuid;
  request_actor : Uuid;
  allow_organization_admin : bool;
  request_run : Uuid
}.

Record RunLease := mkRunLease {
  leased_run : Uuid;
  leased_token : Uuid;
  leased_order : RunOrder;
  leased_git_url : str;
  leased_attempt : Z
}.

(** [GitRuntime::validate_source] and [validate_ref]: the error, if any. *)
Class GitChecks := {
  validate_source : str → option str;
  validate_ref : str → option str
}.

Definition is_alphanumeric (c : N) : bool :=
  ((48 <=? c) && (c <=? 57)) || ((65 <=? c) && (c <=? 90)) || ((97 <=? c) && (c <=? 122)).

Definition validate_idempotency_key (key : str) : result unit RunOrchestratorError :=
  if negb ((8 <=? byte_len key) && (byte_len key <=? 128))%nat ||
     negb (forallb (fun c => is_alphanumeric c || existsb (N.eqb c) (lit "-._:")) key)
  then Err (Invalid (lit "idempotency key must contain 8 to 128 safe ASCII characters"))
  else Ok tt.

(** The statuses under the index [idx_runs_one_active_per_task]. *)
Definition is_active_status (s : RunStatus) : bool :=
  match s with
  | RPending | RProvisioning | RRunning | RCancelling | RRecoveryPending => true
  | _ => false
  end.

(** [status IN ('provisioning', 'running', 'cancelling')] *)
Definition is_leased_status (s : RunStatus) : bool :=
  match s with RProvisioning | RRunning | RCancelling => true | _ => false end.

Definition is_terminal_status (s : RunStatus) : bool :=
  match s with RCompleted | RCancelled | RFailed => true | _ => false end.

Definition progress_status (r : RunRow) : RunStatus := status (progress r).

(** Another run of [task] that the unique index forbids beside an active one. *)
Definition active_elsewhere (db : RunDb) (task : Uuid) (id : Uuid) : bool :=
  existsb (fun e => negb (fst e =? id) && (order_task (order (snd e)) =? task) &&
                    is_active_status (progress_status (snd e))) (map_to_list (runs db)).

Definition require (b : bool) (e : RunOrchestratorError) : result unit RunOrchestratorError :=
  if b then Ok tt else Err e.

Definition or_not_found {A} (o : option A) : result A RunOrchestratorError :=
  match o with Some a => Ok a | None => Err NotFound end.

Definition or_git (e : option str) : result unit RunOrchestratorError :=
  match e with None => Ok tt | Some m => Err (Git m) end.

(** ** Scheduling *)

Section scheduler.
Context `{GC : !GitChecks}.
(** The orchestrator's runtime key, worker id and lease duration. *)
Context (runtime_key worker_id : str) (lease_ttl : Z).

(** The task, its project and the active profile of the actor under the runtime key. *)
Definition enqueue_row (db : RunDb) (r : EnqueueRunRequest) : option (Task * Project * Uuid) :=
  t ← tasks db !! enqueue_task r;
  p ← projects db !! task_project t;
  prof ← find_first (fun e =>
           (profile_row_organization (snd e) =? enqueue_organization r) &&
           (profile_owner (snd e) =? enqueue_actor r) &&
           seqb (profile_runtime_key (snd e)) runtime_key && profile_is_active (snd e))
           (map_to_list (profile_rows db));
  if (task_organization t =? enqueue_organization r) && (project_organization p =? task_organization t)
  then Some (t, p, fst prof) else None.

(** A run of the actor in the same organization and project whose workspace is not retired. *)
Definition usable_run (db : RunDb) (r : EnqueueRunRequest) (project : Uuid) (id : Uuid) : option RunRow :=
  row ← runs db !! id;
  t ← tasks db !! order_task (order row);
  ws ← workspace_id (progress row);
  w ← workspaces db !! ws;
  if (order_organization (order row) =? enqueue_organization r) && (task_project t =? project) &&
     bool_decide (requested_by (order row) = Some (enqueue_actor r)) &&
     negb (bool_decide (workspace_state w = WRetired))
  then Some row else None.

Definition group_root_ok (r : EnqueueRunRequest) (root : RunRow) : bool :=
  seqb (workspace_kind (order root)) (enqueue_kind r) &&
  negb (seqb (workspace_kind (order root)) (lit "main")) &&
  bool_decide (workspace_group_run_id (order root) = None).

Definition check_fork (db : RunDb) (r : EnqueueRunRequest) : result unit RunOrchestratorError :=
  match enqueue_fork_thread r, enqueue_fork_source r with
  | Some thread, source =>
      let? _ := require (negb (seqb (trim thread) []) && (byte_len thread <=? 256)%nat)
                  (Invalid (lit "fork source Thread id is invalid")) in
      match source with
      | None => Err (Invalid (lit "forked Runs require their source parent Run"))
      | Some id =>
          let? row := or_not_found (runs db !! id) in
          require ((order_organization (order row) =? enqueue_organization r) &&
                   bool_decide (requested_by (order row) = Some (enqueue_actor r)) &&
                   bool_decide (codex_thread_id (progress row) = Some thread)) NotFound
      end
  | None, Some _ => Err (Invalid (lit "fork source Run requires a source Thread id"))
  | None, None => Ok tt
  end.

Definition trimmed_name (name : option str) : option str :=
  match name with
  | Some n => if seqb (trim n) [] then None else Some (trim n)
  | None => None
  end.

(** The checks of [enqueue_run]: the columns to insert. *)
Definition checked_order (now : Timestamp) (db : RunDb) (r : EnqueueRunRequest) :
    result RunOrder RunOrchestratorError :=
  let? _ := validate_idempotency_key (enqueue_key r) in
  let? _ := require (existsb (seqb (enqueue_kind r)) [lit "main"; lit "worktree"; lit "clone"])
              (Invalid (lit "workspace kind is invalid")) in
  let name := trimmed_name (enqueue_name r) in
  let? _ := require (byte_len (default [] name) <=? 128)%nat (Invalid (lit "workspace name is too long")) in
  let? '(t, p, profile) := or_not_found (enqueue_row db r) in
  let? _ := or_git (validate_source (git_url p)) in
  let source := default (default_branch p) (git_ref r) in
  let? _ := or_git (validate_ref source) in
  let main := seqb (enqueue_kind r) (lit "main") in
  let? _ := require (negb (main && bool_decide (is_Some (enqueue_parent r))))
              (Invalid (lit "main workspaces cannot have a parent Run")) in
  let? _ := require (negb (main && bool_decide (is_Some (enqueue_group r))))
              (Invalid (lit "main workspaces cannot have a derived workspace group")) in
  let? _ := require (negb (seqb (enqueue_kind r) (lit "worktree") && bool_decide (enqueue_parent r = None)))
              (Invalid (lit "worktree workspaces require a parent Run")) in
  let? _ := match enqueue_parent r with
            | Some id => rmap (fun _ => tt) (or_not_found (usable_run db r (task_project t) id))
            | None => Ok tt
            end in
  let? _ := match enqueue_group r with
            | Some id =>
                let? root := or_not_found (usable_run db r (task_project t) id) in
                require (group_root_ok r root) NotFound
            | None => Ok tt
            end in
  let? _ := check_fork db r in
  Ok (mkOrder (enqueue_organization r) (enqueue_task r) (Some (enqueue_actor r)) profile source
        (enqueue_key r) (enqueue_kind r) name (enqueue_parent r) (enqueue_group r) (copy_agents_md r)
        (enqueue_fork_thread r) (enqueue_fork_source r) now).

Definition pending_progress : RunProgress := mkProgress RPending None None None 0 None None.

(** The run the idempotency index holds for an actor's key. *)
Definition with_key (db : RunDb) (r : EnqueueRunRequest) : option (Uuid * RunRow) :=
  find_first (fun e =>
    (order_organization (order (snd e)) =? enqueue_organization r) &&
    bool_decide (requested_by (order (snd e)) = Some (enqueue_actor r)) &&
    seqb (idempotency_key (order (snd e))) (enqueue_key r)) (map_to_list (runs db)).

Definition enqueue_run (now : Timestamp) (fresh : Uuid) (r : EnqueueRunRequest) (db : RunDb) :
    RunDb * result (Uuid * RunRow) RunOrchestratorError :=
  match checked_order now db r with
  | Err e => (db, Err e)
  | Ok o =>
      match with_key db r with
      | Some (id, row) =>
          (db, if order_task (order row) =? enqueue_task r then Ok (id, row)
               else Err (Conflict (lit "idempotency key was already used for another Task")))
      | None =>
          if active_elsewhere db (enqueue_task r) fresh
          then (db, Err (Conflict (lit "Task already has an active Run")))
          else
            let row := mkRunRow o pending_progress in
            (set_runs (<[fresh := row]> (runs db)) db, Ok (fresh, row))
      end
  end.

(** ** Leases *)

(** A pending run a worker may claim: its task, project and active profile exist. *)
Definition claimable (now : Timestamp) (db : RunDb) (row : RunRow) : bool :=
  let o := order row in
  bool_decide (progress_status row = RPending) &&
  match lease (progress row) with None => true | Some l => (lease_expires_at l <? now)%Z end &&
  match tasks db !! order_task o with
  | Some t =>
      (task_organization t =? order_organization o) &&
      match projects db !! task_project t with
      | Some p => project_organization p =? order_organization o
      | None => false
      end
  | None => false
  end &&
  match profile_rows db !! requested_profile_id o with
  | Some p => seqb (profile_runtime_key p) runtime_key && profile_is_active p
  | None => false
  end.

(** [ORDER BY r.created_at, r.id] *)
Definition older (a b : Uuid * RunRow) : bool :=
  let ta := run_created_at (order (snd a)) in
  let tb := run_created_at (order (snd b)) in
  ((ta <? tb) || ((ta =? tb) && (Z.of_N (fst a) <=? Z.of_N (fst b))))%Z.

Definition oldest (l : list (Uuid * RunRow)) : option (Uuid * RunRow) :=
  match l with
  | [] => None
  | e :: l => Some (foldl (fun a b => if older a b then a else b) e l)
  end.

(** The Git source of a run's project. *)
Definition run_git_url (db : RunDb) (o : RunOrder) : str :=
  default [] (t ← tasks db !! order_task o; git_url <$> projects db !! task_project t).

Definition claim_next (now : Timestamp) (token : Uuid) (db : RunDb) : RunDb * option RunLease :=
  match oldest (filter (fun e => claimable now db (snd e) = true) (map_to_list (runs db))) with
  | None => (db, None)
  | Some (id, row) =>
      let p := progress row in
      (update_run id (fun p =>
         mkProgress RProvisioning (codex_thread_id p) (active_turn_id p) (workspace_id p) (attempt p + 1) None
           (Some (mkLease worker_id token (now + lease_ttl)))) db,
       Some (mkRunLease id token (order row) (run_git_url db (order row)) (attempt p + 1)))
  end.

(** [lease_owner = $3 AND lease_token = $4] *)
Definition holds (l : RunLease) (p : RunProgress) : bool :=
  match lease p with
  | Some x => seqb (lease_owner x) worker_id && (lease_token x =? leased_token l)
  | None => false
  end.

Definition extend (now : Timestamp) (p : RunProgress) : RunProgress :=
  mkProgress (status p) (codex_thread_id p) (active_turn_id p) (workspace_id p) (attempt p) (failure_code p)
    match lease p with
    | Some x => Some (mkLease (lease_owner x) (lease_token x) (now + lease_ttl))
    | None => None
    end.

Definition heartbeat (now : Timestamp) (l : RunLease) (db : RunDb) : RunDb * result unit RunOrchestratorError :=
  match runs db !! leased_run l with
  | Some row =>
      if holds l (progress row) && is_leased_status (progress_status row)
      then (update_run (leased_run l) (extend now) db, Ok tt)
      else (db, Err LeaseLost)
  | None => (db, Err LeaseLost)
  end.

Definition owned_by_worker (p : RunProgress) : bool :=
  match lease p with Some x => seqb (lease_owner x) worker_id | None => false end && is_leased_status (status p).

Definition map_runs (f : RunProgress → RunProgress) (db : RunDb) : RunDb :=
  set_runs ((fun r => mkRunRow (order r) (f (progress r))) <$> runs db) db.

Definition heartbeat_owned_runs (now : Timestamp) (db : RunDb) : RunDb :=
  map_runs (fun p => if owned_by_worker p then extend now p else p) db.

Definition is_expired (now : Timestamp) (p : RunProgress) : bool :=
  is_leased_status (status p) && match lease p with Some x => (lease_expires_at x <? now)%Z | None => false end.

Definition reaped (p : RunProgress) : RunProgress :=
  mkProgress RRecoveryPending (codex_thread_id p) (active_turn_id p) (workspace_id p) (attempt p)
    (Some (lit "lease_expired")) None.

(** Clean-up for the workspace of an expired run that never got a thread. *)
Definition reap_workspace (now : Timestamp) (db : RunDb) (p : RunProgress) : RunDb :=
  match workspace_id p, codex_thread_id p with
  | Some ws, None => enqueue_cleanup now false ws (set_workspace_state ws (fun _ => WCleanupPending) db)
  | _, _ => db
  end.

Definition reap_expired (now : Timestamp) (db : RunDb) : RunDb * nat :=
  let expired := filter (fun p => is_expired now p = true) (map (fun e => progress (snd e)) (map_to_list (runs db))) in
  (foldl (reap_workspace now) (map_runs (fun p => if is_expired now p then reaped p else p) db) expired,
   length expired).
End scheduler.

(** ** Owners' requests *)

(** [requested_by != Some(actor) && !allow_organization_admin] is refused. *)
Definition may_manage (r : RunRequest) (row : RunRow) : bool :=
  bool_decide (requested_by (order row) = Some (request_actor r)) || allow_organization_admin r.

Definition managed_run (db : RunDb) (r : RunRequest) : result RunRow RunOrchestratorError :=
  let? row := or_not_found (runs db !! request_run r) in
  let? _ := require (order_organization (order row) =? request_organization r) NotFound in
  let? _ := require (may_manage r row) NotFound in
  Ok row.

Definition cancelled (p : RunProgress) : RunProgress :=
  mkProgress RCancelled (codex_thread_id p) None (workspace_id p) (attempt p) None None.

Definition unless_retired (s : WorkspaceState) (old : WorkspaceState) : WorkspaceState :=
  if bool_decide (old = WRetired) then WRetired else s.

(** The transaction of [cancel_run]; the result is the turn to interrupt, if one is active. *)
Definition cancel_run (r : RunRequest) (db : RunDb) :
    RunDb * result (option (str * str * Uuid * str)) RunOrchestratorError :=
  match managed_run db r with
  | Err e => (db, Err e)
  | Ok row =>
      let p := progress row in
      if is_terminal_status (status p)
      then (db, Err (Conflict (lit "Run is already in a terminal state")))
      else
        let db1 := update_run (request_run r) cancelled db in
        let db2 := match workspace_id p with
                   | Some ws => set_workspace_state ws (unless_retired WReady) db1
                   | None => db1
                   end in
        let root := workspace_id p ≫= fun ws => root_path <$> workspaces db !! ws in
        (set_task_status (order_task (order row)) (fun _ => TCancelled) db2,
         Ok (match codex_thread_id p, active_turn_id p, workspace_id p, root with
             | Some thread, Some turn, Some ws, Some root => Some (thread, turn, ws, root)
             | _, _, _, _ => None
             end))
  end.

(** The statement that follows a failed interrupt; the unique index may refuse it. *)
Definition interrupt_failed (id : Uuid) (db : RunDb) : RunDb * result unit RunOrchestratorError :=
  match runs db !! id with
  | Some row =>
      if bool_decide (progress_status row = RCancelled)
      then
        if active_elsewhere db (order_task (order row)) id
        then (db, Err (Database (lit "unique violation")))
        else (update_run id (fun p =>
                mkProgress RRecoveryPending (codex_thread_id p) (active_turn_id p) (workspace_id p) (attempt p)
                  (Some (lit "interrupt_failed")) (lease p)) db, Ok tt)
      else (db, Ok tt)
  | None => (db, Ok tt)
  end.

(** The read before the transaction of [retire_workspace]: [None] when there is nothing
    left to do, else the workspace and the turn to interrupt first. *)
Definition retire_read (r : RunRequest) (db : RunDb) :
    result (option (Uuid * option (str * str))) RunOrchestratorError :=
  let? row := or_not_found (runs db !! request_run r) in
  let? _ := require (order_organization (order row) =? request_organization r) NotFound in
  let? ws := or_not_found (workspace_id (progress row)) in
  let? w := or_not_found (workspaces db !! ws) in
  let? _ := require (may_manage r row) NotFound in
  let? _ := require (negb (seqb (workspace_kind (order row)) (lit "main")))
              (Conflict (lit "the main Run workspace cannot be removed")) in
  if bool_decide (workspace_state w = WRetired) then Ok None
  else Ok (Some (ws, match codex_thread_id (progress row), active_turn_id (progress row) with
                     | Some thread, Some turn => Some (thread, turn)
                     | _, _ => None
                     end)).

(** The locking transaction of [retire_workspace], for the workspace read before it. *)
Definition retire_workspace (now : Timestamp) (r : RunRequest) (ws : Uuid) (db : RunDb) :
    RunDb * result unit RunOrchestratorError :=
  match managed_run db r with
  | Err e => (db, Err e)
  | Ok row =>
      match workspaces db !! ws with
      | None => (db, Err NotFound)
      | Some w =>
          if negb (bool_decide (workspace_id (progress row) = Some ws)) then (db, Err NotFound)
          else if seqb (workspace_kind (order row)) (lit "main")
          then (db, Err (Conflict (lit "the main Run workspace cannot be removed")))
          else if bool_decide (workspace_state w = WRetired) then (db, Ok tt)
          else
            let db := update_run (request_run r) cancelled db in
            let db := set_task_status (order_task (order row)) (fun _ => TArchived) db in
            let db := set_workspace_state ws (fun _ => WCleanupPending) db in
            (enqueue_cleanup now true ws db, Ok tt)
      end
  end.

(** The run as an organization sees it. *)
Definition get_run (organization id : Uuid) (db : RunDb) : result RunRow RunOrchestratorError :=
  let? row := or_not_found (runs db !! id) in
  let? _ := require (order_organization (order row) =? organization) NotFound in
  Ok row.

(** The whole handlers of [cancel_run] and [retire_workspace], with what the adapter
    answers when it is told to interrupt a turn. *)
Definition cancel_request (interrupt : str → str → option str) (r : RunRequest) (db : RunDb) :
    RunDb * result RunRow RunOrchestratorError :=
  match cancel_run r db with
  | (db, Err e) => (db, Err e)
  | (db, Ok (Some (thread, turn, ws, root))) =>
      match interrupt thread turn with
      | Some m =>
          match interrupt_failed (request_run r) db with
          | (db, Err e) => (db, Err e)
          | (db, Ok _) => (db, Err (Adapter m))
          end
      | None => (db, get_run (request_organization r) (request_run r) db)
      end
  | (db, Ok None) => (db, get_run (request_organization r) (request_run r) db)
  end.

Definition retire_request (now : Timestamp) (interrupt : str → str → option str) (r : RunRequest) (db : RunDb) :
    RunDb * result RunRow RunOrchestratorError :=
  match retire_read r db with
  | Err e => (db, Err e)
  | Ok None => (db, get_run (request_organization r) (request_run r) db)
  | Ok (Some (ws, turn)) =>
      match turn ≫= (fun '(thread, turn) => interrupt thread turn) with
      | Some m => (db, Err (Adapter m))
      | None =>
          match retire_workspace now r ws db with
          | (db, Err e) => (db, Err e)
          | (db, Ok _) => (db, get_run (request_organization r) (request_run r) db)
          end
      end
  end.

Section workers.
(** The orchestrator's runtime key, worker id and lease duration. *)
Context (runtime_key worker_id : str) (lease_ttl : Z).

Definition recovered (now : Timestamp) (token : Uuid) (p : RunProgress) : RunProgress :=
  mkProgress RRunning (codex_thread_id p) None (workspace_id p) (attempt p) None
    (Some (mkLease worker_id token (now + lease_ttl))).

Definition recover_run (now : Timestamp) (token : Uuid) (r : RunRequest) (db : RunDb) :
    RunDb * result unit RunOrchestratorError :=
  match managed_run db r with
  | Err e => (db, Err e)
  | Ok row =>
      let p := progress row in
      match workspace_id p, codex_thread_id p, profile_rows db !! requested_profile_id (order row) with
      | Some ws, Some _, Some profile =>
          match workspaces db !! ws with
          | None => (db, Err NotFound)
          | Some w =>
              if negb (workspace_organization w =? request_organization r) ||
                 negb (seqb (profile_runtime_key profile) runtime_key) ||
                 bool_decide (workspace_state w = WRetired)
              then (db, Err NotFound)
              else
                match status p with
                | RRunning => (db, Ok tt)
                | RRecoveryPending =>
                    let db := update_run (request_run r) (recovered now token) db in
                    let db := set_workspace_state ws (unless_retired WBusy) db in
                    (set_task_status (order_task (order row)) (fun _ => TRunning) db, Ok tt)
                | other =>
                    (db, Err (Conflict (lit "Run cannot recover from status '" ++ status_text other ++ lit "'")))
                end
          end
      | _, _, _ => (db, Err NotFound)
      end
  end.

(** ** Executing a lease *)

(** The run is still provisioning under this lease. *)
Definition provisioning_under (l : RunLease) (p : RunProgress) : bool :=
  holds worker_id l p && bool_decide (status p = RProvisioning).

Definition with_workspace (ws : Uuid) (p : RunProgress) : RunProgress :=
  mkProgress (status p) (codex_thread_id p) (active_turn_id p) (Some ws) (attempt p) (failure_code p) (lease p).

(** The unique index on [workspaces.run_id] admits one workspace for a run. *)
Definition has_workspace (db : RunDb) (id : Uuid) : bool :=
  existsb (fun e => workspace_run (snd e) =? id) (map_to_list (workspaces db)).

(** [record_workspace] looks whether the lease is held without locking the row, and then writes
    without looking again: other transactions may commit between the two. *)
Definition record_workspace_check (l : RunLease) (db : RunDb) : result unit RunOrchestratorError :=
  match runs db !! leased_run l with
  | Some row => if provisioning_under l (progress row) then Ok tt else Err LeaseLost
  | None => Err LeaseLost
  end.

(** The two statements that write, which are committed together. *)
Definition record_workspace_write (l : RunLease) (ws : Uuid) (root : str) (db : RunDb) :
    RunDb * result unit RunOrchestratorError :=
  match runs db !! leased_run l with
  | Some _ =>
      if has_workspace db (leased_run l) then (db, Err (Database (lit "unique violation")))
      else
        let db := mkRunDb (tasks db) (projects db) (profile_rows db) (runs db)
                    (<[ws := mkWorkspace (order_organization (leased_order l)) (leased_run l) root WReady]>
                       (workspaces db)) (jobs db) in
        (update_run (leased_run l) (with_workspace ws) db, Ok tt)
  | None => (db, Err (Database (lit "foreign key violation")))
  end.

(** Both, when nothing happens between them. *)
Definition record_workspace (l : RunLease) (ws : Uuid) (root : str) (db : RunDb) :
    RunDb * result unit RunOrchestratorError :=
  match record_workspace_check l db with
  | Ok _ => record_workspace_write l ws root db
  | Err e => (db, Err e)
  end.

Definition started (now : Timestamp) (thread : str) (p : RunProgress) : RunProgress :=
  extend lease_ttl now
    (mkProgress RRunning (Some thread) (active_turn_id p) (workspace_id p) (attempt p) (failure_code p) (lease p)).

(** The statement that makes a run running once its thread exists; what it counts are
    the rows of its last part, the update of [tasks]. *)
Definition mark_running (now : Timestamp) (l : RunLease) (thread : str) (db : RunDb) : RunDb * bool :=
  match runs db !! leased_run l with
  | Some row =>
      if provisioning_under l (progress row)
      then
        let db1 := update_run (leased_run l) (started now thread) db in
        let db2 := match workspace_id (progress row) with
                   | Some ws => set_workspace_state ws (fun _ => WBusy) db1
                   | None => db1
                   end in
        (set_task_status (order_task (order row)) (fun _ => TRunning) db2,
         bool_decide (is_Some (tasks db !! order_task (order row))))
      else (db, false)
  | None => (db, false)
  end.

Definition uncertain (thread : str) (p : RunProgress) : RunProgress :=
  mkProgress (if bool_decide (status p = RCancelled) then RCancelled else RRecoveryPending)
    (match codex_thread_id p with Some t => Some t | None => Some thread end)
    (active_turn_id p) (workspace_id p) (attempt p)
    (if bool_decide (status p = RCancelled) then failure_code p
     else Some (lit "thread_delivery_unknown")) None.

Definition record_delivery_uncertainty (l : RunLease) (ws : Uuid) (thread : str) (db : RunDb) :
    RunDb * result unit RunOrchestratorError :=
  match runs db !! leased_run l with
  | Some row =>
      if bool_decide (workspace_id (progress row) = Some ws)
      then
        if negb (bool_decide (progress_status row = RCancelled)) &&
           active_elsewhere db (order_task (order row)) (leased_run l)
        then (db, Err (Database (lit "unique violation")))
        else (set_workspace_state ws (fun _ => WReady) (update_run (leased_run l) (uncertain thread) db), Ok tt)
      else (set_workspace_state ws (fun _ => WReady) db, Ok tt)
  | None => (set_workspace_state ws (fun _ => WReady) db, Ok tt)
  end.

Definition failed (code : str) (p : RunProgress) : RunProgress :=
  mkProgress RFailed (codex_thread_id p) (active_turn_id p) (workspace_id p) (attempt p) (Some code) None.

Definition fail_lease (l : RunLease) (code : str) (db : RunDb) : RunDb :=
  match runs db !! leased_run l with
  | Some row =>
      if holds worker_id l (progress row) &&
         (bool_decide (progress_status row = RProvisioning) || bool_decide (progress_status row = RCancelling))
      then update_run (leased_run l) (failed code) db
      else db
  | None => db
  end.

Definition queue_cleanup (now : Timestamp) (ws : Uuid) (db : RunDb) : RunDb :=
  enqueue_cleanup now false ws (set_workspace_state ws (fun _ => WCleanupPending) db).
End workers.

Definition run_failure_code (e : RunOrchestratorError) : str :=
  match e with
  | Invalid _ => lit "invalid_run"
  | NotFound => lit "resource_not_found"
  | Conflict _ => lit "run_conflict"
  | LeaseLost => lit "lease_lost"
  | Database _ => lit "database_error"
  | Git _ => lit "git_workspace_error"
  | Adapter _ => lit "codex_unavailable"
  end.

(** ** One pass of a worker

    What the world does between the statements: the checkout of a workspace, the
    branch of a worktree, the removal of a workspace that is given up and the start of
    the thread, each with its error; and the time at which each of the four statements
    that read the clock runs.  Copying [AGENTS.md] from the parent's workspace changes
    no row and its failure is only logged. *)
Record Outcomes := mkOutcomes {
  checkout : result (Uuid * str) str;
  switch_branch : option str;
  removal : option str;
  thread_start : result str str;
  first_heartbeat : Timestamp;
  second_heartbeat : Timestamp;
  start_time : Timestamp
}.

(** [self.git.remove_workspace(workspace_id).await?; return Err(error)] *)
Definition abandon (out : Outcomes) (e : RunOrchestratorError) : RunOrchestratorError :=
  match removal out with
  | Some m => Git m
  | None => e
  end.

Section execute.
Context `{GC : !GitChecks}.
Context (runtime_key worker_id : str) (lease_ttl : Z).

(** The run a fork copies its thread from must still have its workspace. *)
Definition fork_source_ok (l : RunLease) (db : RunDb) : bool :=
  match fork_thread_id (leased_order l) with
  | None => true
  | Some thread =>
      match fork_source_run_id (leased_order l) ≫= (fun id => runs db !! id) with
      | Some row =>
          (order_organization (order row) =? order_organization (leased_order l)) &&
          bool_decide (codex_thread_id (progress row) = Some thread) &&
          match workspace_id (progress row) ≫= (fun ws => workspaces db !! ws) with
          | Some w => negb (bool_decide (workspace_state w = WRetired))
          | None => false
          end
      | None => false
      end
  end.

(** From the recorded workspace to the running thread. *)
Definition start_run (now : Timestamp) (l : RunLease) (ws : Uuid) (thread : result str str) (db : RunDb) :
    RunDb * result unit RunOrchestratorError :=
  if negb (fork_source_ok l db) then (db, Err NotFound)
  else
    match thread with
    | Err m => (queue_cleanup now ws db, Err (Adapter m))
    | Ok thread =>
        match mark_running worker_id lease_ttl now l thread db with
        | (db, true) => (db, Ok tt)
        | (db, false) =>
            match record_delivery_uncertainty l ws thread db with
            | (db, Ok _) => (db, Err LeaseLost)
            | (db, Err e) => (db, Err e)
            end
        end
    end.

Definition execute_lease (l : RunLease) (out : Outcomes) (db : RunDb) :
    RunDb * result unit RunOrchestratorError :=
  match heartbeat worker_id lease_ttl (first_heartbeat out) l db with
  | (db, Err e) => (db, Err e)
  | (db, Ok _) =>
      match validate_source (leased_git_url l), validate_ref (source_ref (leased_order l)), checkout out with
      | Some m, _, _ | None, Some m, _ | None, None, Err m => (db, Err (Git m))
      | None, None, Ok (ws, root) =>
          match (if seqb (workspace_kind (leased_order l)) (lit "worktree") then switch_branch out else None) with
          | Some m => (db, Err (abandon out (Git m)))
          | None =>
              match heartbeat worker_id lease_ttl (second_heartbeat out) l db with
              | (db, Err e) => (db, Err e)
              | (db, Ok _) =>
                  match record_workspace worker_id l ws root db with
                  | (db, Err e) => (db, Err (abandon out e))
                  | (db, Ok _) => start_run (start_time out) l ws (thread_start out) db
                  end
              end
          end
      end
  end.

Definition run_once (now : Timestamp) (token : Uuid) (out : Outcomes) (db : RunDb) :
    RunDb * result bool RunOrchestratorError :=
  match claim_next runtime_key worker_id lease_ttl now token db with
  | (db, None) => (db, Ok false)
  | (db, Some l) =>
      match execute_lease l out db with
      | (db, Ok _) => (db, Ok true)
      | (db, Err e) => (fail_lease worker_id l (run_failure_code e) db, Err e)
      end
  end.
End execute.

(** ** Clean-up *)

Definition job_due (now : Timestamp) (j : Job) : bool :=
  (bool_decide (job_state j = JPending) ||
   bool_decide (job_state j = JRunning) &&
     match job_lease j with Some (_, expires) => (expires <? now)%Z | None => false end) &&
  (run_after j <=? now)%Z.

Definition set_jobs (js : gmap Uuid Job) (db : RunDb) : RunDb :=
  mkRunDb (tasks db) (projects db) (profile_rows db) (runs db) (workspaces db) js.

(** [ORDER BY job.created_at, job.id]; the id of a job is that of its workspace here. *)
Definition older_job (a b : Uuid * Job) : bool :=
  ((job_created_at (snd a) <? job_created_at (snd b)) ||
   ((job_created_at (snd a) =? job_created_at (snd b)) && (Z.of_N (fst a) <=? Z.of_N (fst b))))%Z.

(** The first transaction of [run_cleanup_once]: the workspace whose directory to remove. *)
Definition claim_cleanup (now : Timestamp) (token : Uuid) (db : RunDb) : RunDb * option Uuid :=
  match filter (fun e => job_due now (snd e) = true) (map_to_list (jobs db)) with
  | [] => (db, None)
  | e :: l =>
      let '(ws, j) := foldl (fun a b => if older_job a b then a else b) e l in
      (set_jobs (<[ws := mkJob JRunning (job_attempt j + 1) (run_after j) (Some (token, (now + 60)%Z))
                           (job_created_at j)]> (jobs db)) db, Some ws)
  end.

Definition holds_job (token : Uuid) (j : Job) : bool :=
  match job_lease j with Some (t, _) => t =? token | None => false end.

Definition update_job (token ws : Uuid) (f : Job → Job) (db : RunDb) : RunDb :=
  match jobs db !! ws with
  | Some j => if holds_job token j then set_jobs (<[ws := f j]> (jobs db)) db else db
  | None => db
  end.

(** After [remove_workspace] failed. *)
Definition cleanup_failed (now : Timestamp) (token ws : Uuid) (db : RunDb) : RunDb :=
  update_job token ws (fun j =>
    mkJob (if (5 <=? job_attempt j)%Z then JFailed else JPending) (job_attempt j) (now + 30)%Z None
      (job_created_at j)) db.

(** After the directory was removed. *)
Definition cleanup_done (token ws : Uuid) (db : RunDb) : RunDb :=
  update_job token ws (fun j => mkJob JCompleted (job_attempt j) (run_after j) None (job_created_at j))
    (set_workspace_state ws (fun _ => WRetired) db).

(** [run_cleanup_once]: what removing the directory of the claimed workspace gives, and
    when the failure is recorded. *)
Definition run_cleanup_once (now later : Timestamp) (token : Uuid) (remove : Uuid → option str) (db : RunDb) :
    RunDb * result bool RunOrchestratorError :=
  match claim_cleanup now token db with
  | (db, None) => (db, Ok false)
  | (db, Some ws) =>
      match remove ws with
      | Some m => (cleanup_failed later token ws db, Err (Git m))
      | None => (cleanup_done token ws db, Ok true)
      end
  end.

(** ** Events of the runtime *)

(** [event_projection.rs]: what the events of a thread do to the run it belongs to and
    to the run's task. *)

Definition with_turn (turn : option str) (p : RunProgress) : RunProgress :=
  mkProgress (status p) (codex_thread_id p) turn (workspace_id p) (attempt p) (failure_code p) (lease p).

(** [codex.turn.started] *)
Definition project_turn_started (id : Uuid) (turn : option str) (db : RunDb) : RunDb :=
  update_run id (fun p => if bool_decide (status p = RRunning) then with_turn turn p else p) db.

(** [codex.turn.completed]: an event without a turn id matches no row. *)
Definition project_turn_completed (id : Uuid) (turn : option str) (db : RunDb) : RunDb :=
  update_run id (fun p =>
    match active_turn_id p, turn with
    | Some active, Some turn => if seqb active turn then with_turn None p else p
    | _, _ => p
    end) db.

(** [codex.thread.archived] and [codex.thread.unarchived] *)
Definition project_archived (id : Uuid) (archived : bool) (db : RunDb) : RunDb :=
  match runs db !! id with
  | Some row =>
      set_task_status (order_task (order row))
        (fun t => if archived then TArchived
                  else if bool_decide (t = TArchived) then TPending else t) db
  | None => db
  end.

(** [codex.thread.completed] and [codex.thread.failed] *)
Definition ended (s : RunStatus) (p : RunProgress) : RunProgress :=
  mkProgress s (codex_thread_id p) None (workspace_id p) (attempt p) (failure_code p) None.

Definition project_thread_end (id : Uuid) (completed : bool) (db : RunDb) : RunDb :=
  match runs db !! id with
  | Some row =>
      if bool_decide (progress_status row = RRunning)
      then
        let db := update_run id (ended (if completed then RCompleted else RFailed)) db in
        let db := match workspace_id (progress row) with
                  | Some ws => set_workspace_state ws (fun _ => WReady) db
                  | None => db
                  end in
        set_task_status (order_task (order row))
          (fun t => if bool_decide (t ∈ [TCompleted; TCancelled; TArchived]) then t
                    else if completed then TCompleted else TPending) db
      else db
  | None => db
  end.
