(* ===== verification/RunSchedulerFacts.v ===== *)
(** * Leases of the run orchestrator

    A run is executed under at most one live lease: the lease columns are set
    exactly while a run is being executed, a lease that was lost is fenced off for
    good, the queue is served in order and a request is enqueued once. *)

From S2P Require Import Prelude RustStr RunScheduler.
Open Scope N_scope.

(** ** The transition system

    Workers, owners and the runtime's event stream interleave; a worker may hold a
    lease for any time, so the operations on a lease take an arbitrary lease.  New
    lease tokens are fresh: [used] remembers those handed out.  The write of a workspace
    does not look at the lease, which was looked at before, so any lease that was handed
    out may still write. *)

Section system.
Context `{GC : !GitChecks}.

Record RunWorld := mkRunWorld { rdb : RunDb; used : gset Uuid }.

Inductive rstep (w : RunWorld) : RunWorld → Prop :=
| rstep_enqueue key now fresh r :
    runs (rdb w) !! fresh = None →
    rstep w (mkRunWorld (fst (enqueue_run key now fresh r (rdb w))) (used w))
| rstep_claim key worker ttl now token :
    token ∉ used w →
    rstep w (mkRunWorld (fst (claim_next key worker ttl now token (rdb w))) ({[token]} ∪ used w))
| rstep_heartbeat worker ttl now l :
    rstep w (mkRunWorld (fst (heartbeat worker ttl now l (rdb w))) (used w))
| rstep_heartbeats worker ttl now :
    rstep w (mkRunWorld (heartbeat_owned_runs worker ttl now (rdb w)) (used w))
| rstep_reap now :
    rstep w (mkRunWorld (fst (reap_expired now (rdb w))) (used w))
| rstep_cancel r :
    rstep w (mkRunWorld (fst (cancel_run r (rdb w))) (used w))
| rstep_interrupt id :
    rstep w (mkRunWorld (fst (interrupt_failed id (rdb w))) (used w))
| rstep_retire now r ws :
    rstep w (mkRunWorld (fst (retire_workspace now r ws (rdb w))) (used w))
| rstep_recover key worker ttl now token r :
    token ∉ used w →
    rstep w (mkRunWorld (fst (recover_run key worker ttl now token r (rdb w))) ({[token]} ∪ used w))
| rstep_record l ws root :
    leased_token l ∈ used w →
    rstep w (mkRunWorld (fst (record_workspace_write l ws root (rdb w))) (used w))
| rstep_started worker ttl now l thread :
    rstep w (mkRunWorld (fst (mark_running worker ttl now l thread (rdb w))) (used w))
| rstep_uncertain l ws thread :
    rstep w (mkRunWorld (fst (record_delivery_uncertainty l ws thread (rdb w))) (used w))
| rstep_fail worker l code :
    rstep w (mkRunWorld (fail_lease worker l code (rdb w)) (used w))
| rstep_queue_cleanup now ws :
    rstep w (mkRunWorld (queue_cleanup now ws (rdb w)) (used w))
| rstep_claim_cleanup now token :
    rstep w (mkRunWorld (fst (claim_cleanup now token (rdb w))) (used w))
| rstep_cleanup_failed now token ws :
    rstep w (mkRunWorld (cleanup_failed now token ws (rdb w)) (used w))
| rstep_cleanup_done token ws :
    rstep w (mkRunWorld (cleanup_done token ws (rdb w)) (used w))
| rstep_turn_started id turn :
    rstep w (mkRunWorld (project_turn_started id turn (rdb w)) (used w))
| rstep_turn_completed id turn :
    rstep w (mkRunWorld (project_turn_completed id turn (rdb w)) (used w))
| rstep_archived id archived :
    rstep w (mkRunWorld (project_archived id archived (rdb w)) (used w))
| rstep_thread_end id completed :
    rstep w (mkRunWorld (project_thread_end id completed (rdb w)) (used w)).

(** ** What a step does to one run *)

(** The changes the statements on [runs] make. *)
Inductive run_change (w : RunWorld) (w' : RunWorld) (p : RunProgress) : RunProgress → Prop :=
| run_claimed worker ttl now token :
    token ∉ used w → token ∈ used w' → status p = RPending →
    run_change w w' p (mkProgress RProvisioning (codex_thread_id p) (active_turn_id p) (workspace_id p)
      (attempt p + 1) None (Some (mkLease worker token (now + ttl))))
| run_extended ttl now : is_leased_status (status p) = true → run_change w w' p (extend ttl now p)
| run_reaped : run_change w w' p (reaped p)
| run_cancelled : run_change w w' p (cancelled p)
| run_interrupt :
    status p = RCancelled →
    run_change w w' p (mkProgress RRecoveryPending (codex_thread_id p) (active_turn_id p) (workspace_id p)
      (attempt p) (Some (lit "interrupt_failed")) (lease p))
| run_recovered worker ttl now token :
    token ∉ used w → token ∈ used w' → status p = RRecoveryPending →
    run_change w w' p (recovered worker ttl now token p)
| run_recorded ws : run_change w w' p (with_workspace ws p)
| run_started ttl now thread : status p = RProvisioning → run_change w w' p (started ttl now thread p)
| run_uncertain thread : run_change w w' p (uncertain thread p)
| run_failed code : run_change w w' p (failed code p)
| run_turn turn : run_change w w' p (with_turn turn p)
| run_ended s : is_terminal_status s = true → run_change w w' p (ended s p).

Definition run_outcome (w w' : RunWorld) (id : Uuid) : Prop :=
  runs (rdb w') !! id = runs (rdb w) !! id ∨
  (runs (rdb w) !! id = None ∧ ∃ o, runs (rdb w') !! id = Some (mkRunRow o pending_progress)) ∨
  ∃ r p', runs (rdb w) !! id = Some r ∧ runs (rdb w') !! id = Some (mkRunRow (order r) p') ∧
          run_change w w' (progress r) p'.

Lemma runs_set_workspace ws f d : runs (set_workspace_state ws f d) = runs d.
Proof. done. Qed.
Lemma runs_set_task t f d : runs (set_task_status t f d) = runs d.
Proof. done. Qed.
Lemma runs_enqueue_cleanup now reset ws d : runs (enqueue_cleanup now reset ws d) = runs d.
Proof. done. Qed.
Lemma runs_update_job token ws f d : runs (update_job token ws f d) = runs d.
Proof. unfold update_job. by repeat case_match. Qed.

(** A statement that updates the one run [id']. *)
Lemma outcome_update w w' id id' r f :
  runs (rdb w') = runs (update_run id' f (rdb w)) → runs (rdb w) !! id' = Some r →
  run_change w w' (progress r) (f (progress r)) → run_outcome w w' id.
Proof.
  intros Hw Hr Hc. unfold run_outcome. rewrite Hw. simpl.
  destruct (decide (id = id')) as [->|Hne].
  - right. right. exists r, (f (progress r)). by rewrite lookup_alter_eq, Hr.
  - left. by rewrite lookup_alter_ne.
Qed.

(** A statement that at most changes the turn of the run [id']. *)
Lemma outcome_turn w f id id' :
  (∀ p, f p = p ∨ ∃ turn, f p = with_turn turn p) →
  run_outcome w (mkRunWorld (update_run id' f (rdb w)) (used w)) id.
Proof.
  intros Hf. destruct (runs (rdb w) !! id') as [r|] eqn:Hr.
  - destruct (Hf (progress r)) as [E|[turn E]].
    + left. simpl. destruct (decide (id = id')) as [->|Hne]; [|by apply lookup_alter_ne].
      rewrite lookup_alter_eq, Hr. simpl. rewrite E. by destruct r.
    + eapply (outcome_update _ _ _ _ r); [reflexivity|done|]. rewrite E. apply run_turn.
  - left. simpl. destruct (decide (id = id')) as [->|Hne]; [|by apply lookup_alter_ne].
    by rewrite lookup_alter_eq, Hr.
Qed.

(** A statement that updates every run that satisfies a condition. *)
Lemma outcome_map w w' id (c : RunProgress → bool) f :
  runs (rdb w') = runs (map_runs (fun p => if c p then f p else p) (rdb w)) →
  (∀ p, c p = true → run_change w w' p (f p)) → run_outcome w w' id.
Proof.
  intros Hw Hc. unfold run_outcome. rewrite Hw. simpl. rewrite lookup_fmap.
  destruct (runs (rdb w) !! id) as [r|] eqn:Hr; simpl; [|by left].
  destruct (c (progress r)) eqn:E.
  - right. right. exists r, (f (progress r)). auto.
  - left. by destruct r.
Qed.

Lemma managed_run_Ok d r row :
  managed_run d r = Ok row →
  runs d !! request_run r = Some row ∧ order_organization (order row) = request_organization r ∧
  may_manage r row = true.
Proof.
  unfold managed_run, or_not_found, require. intros H. simp_ok. repeat case_match; simp_ok.
  by rewrite N.eqb_eq in *.
Qed.

Lemma older_spec a b :
  older a b = true ↔
  (run_created_at (order (snd a)) < run_created_at (order (snd b)) ∨
   run_created_at (order (snd a)) = run_created_at (order (snd b)) ∧ (Z.of_N (fst a) ≤ Z.of_N (fst b)))%Z.
Proof. unfold older. rewrite orb_true_iff, andb_true_iff, Z.ltb_lt, Z.eqb_eq, Z.leb_le. done. Qed.

Lemma older_trans a b c : older a b = true → older b c = true → older a c = true.
Proof. rewrite !older_spec. lia. Qed.

Lemma older_total a b : older a b = false → older b a = true.
Proof.
  intros H. apply older_spec. destruct (older a b) eqn:E; [done|].
  assert (Hn : ¬ older a b = true) by congruence. rewrite older_spec in Hn. lia.
Qed.

Lemma older_refl a : older a a = true.
Proof. apply older_spec. lia. Qed.

Lemma oldest_spec l e :
  oldest l = Some e → e ∈ l ∧ ∀ x, x ∈ l → older e x = true.
Proof.
  destruct l as [|a l]; [done|]. simpl. intros H. apply (inj Some) in H.
  revert a H. induction l as [|b l IH]; intros a H; simpl in H.
  - subst e. split; [left|]. intros x ->%list_elem_of_singleton. apply older_refl.
  - destruct (older a b) eqn:E; apply IH in H as [Hin Hle]; split.
    + apply elem_of_cons in Hin as [->|]; [left|]. by do 2 right.
    + intros x [->|[->|Hx]%elem_of_cons]%elem_of_cons.
      * apply Hle. left.
      * eapply older_trans; [|exact E]. apply Hle. left.
      * apply Hle. by right.
    + apply elem_of_cons in Hin as [->|]; [by right; left|]. by do 2 right.
    + apply older_total in E. intros x [->|[->|Hx]%elem_of_cons]%elem_of_cons.
      * eapply older_trans; [|exact E]. apply Hle. left.
      * apply Hle. left.
      * apply Hle. by right.
Qed.

Lemma oldest_None l : oldest l = None → l = [].
Proof. by destruct l. Qed.

Lemma claimable_pending key now d row : claimable key now d row = true → progress_status row = RPending.
Proof. unfold claimable. rewrite !andb_true_iff, bool_decide_eq_true. tauto. Qed.

Lemma claimable_task key now d row :
  claimable key now d row = true → is_Some (tasks d !! order_task (order row)).
Proof. unfold claimable. destruct (tasks d !! _); [eauto|]. by rewrite !andb_false_r. Qed.

Lemma provisioning_under_true worker l p :
  provisioning_under worker l p = true → holds worker l p = true ∧ status p = RProvisioning.
Proof. unfold provisioning_under. by rewrite andb_true_iff, bool_decide_eq_true. Qed.

Lemma runs_reap_workspace now ps d : runs (foldl (reap_workspace now) d ps) = runs d.
Proof.
  revert d. induction ps as [|p ps IH]; intros d; simpl; [done|]. rewrite IH.
  unfold reap_workspace. by repeat case_match.
Qed.

(** Folds the accessors so that [outcome_update] applies. *)
Ltac run_update r := eapply (outcome_update _ _ _ _ r); [reflexivity|done|].

Lemma claim_outcome w key worker ttl now token id :
  token ∉ used w →
  run_outcome w (mkRunWorld (fst (claim_next key worker ttl now token (rdb w))) ({[token]} ∪ used w)) id.
Proof.
  intros Ht. unfold claim_next. destruct (oldest _) as [[i row]|] eqn:E; [|by left].
  apply oldest_spec in E as [[Hc Hin]%list_elem_of_filter _]. apply elem_of_map_to_list in Hin. simpl in Hc.
  run_update row. apply claimable_pending in Hc. apply run_claimed; [done| |done]. simpl. set_solver.
Qed.

Lemma recover_outcome w key worker ttl now token r id :
  token ∉ used w →
  run_outcome w (mkRunWorld (fst (recover_run key worker ttl now token r (rdb w))) ({[token]} ∪ used w)) id.
Proof.
  intros Ht. unfold recover_run. destruct (managed_run (rdb w) r) as [row|e] eqn:E; [|by left].
  apply managed_run_Ok in E as (Hr & _ & _). repeat case_match; try (by left).
  run_update row. apply run_recovered; [done| |done]. simpl. set_solver.
Qed.

Lemma owner_outcome w r now ws id :
  run_outcome w (mkRunWorld (fst (cancel_run r (rdb w))) (used w)) id ∧
  run_outcome w (mkRunWorld (fst (retire_workspace now r ws (rdb w))) (used w)) id.
Proof.
  unfold cancel_run, retire_workspace. destruct (managed_run (rdb w) r) as [row|e] eqn:E; [|by split; left].
  apply managed_run_Ok in E as (Hr & _ & _). split; repeat case_match; try (by left);
    run_update row; apply run_cancelled.
Qed.

Lemma lease_outcome w worker ttl now l ws root thread code id :
  run_outcome w (mkRunWorld (fst (heartbeat worker ttl now l (rdb w))) (used w)) id ∧
  run_outcome w (mkRunWorld (fst (record_workspace_write l ws root (rdb w))) (used w)) id ∧
  run_outcome w (mkRunWorld (fst (mark_running worker ttl now l thread (rdb w))) (used w)) id ∧
  run_outcome w (mkRunWorld (fst (record_delivery_uncertainty l ws thread (rdb w))) (used w)) id ∧
  run_outcome w (mkRunWorld (fail_lease worker l code (rdb w)) (used w)) id.
Proof.
  unfold heartbeat, record_workspace_write, mark_running, record_delivery_uncertainty, fail_lease.
  destruct (runs (rdb w) !! leased_run l) as [row|] eqn:Hr; [|by repeat split; left].
  repeat split.
  - destruct (_ && _) eqn:E; [|by left]. apply andb_true_iff in E as [_ E]. run_update row. by apply run_extended.
  - repeat case_match; try (by left). run_update row. apply run_recorded.
  - destruct (provisioning_under _ _ _) eqn:E; [|by left]. apply provisioning_under_true in E as [_ E].
    destruct (workspace_id (progress row)); run_update row; by apply run_started.
  - destruct (bool_decide _); [|by left]. destruct (_ && _); [by left|]. run_update row. apply run_uncertain.
  - destruct (_ && _); [|by left]. run_update row. apply run_failed.
Qed.

Lemma rstep_outcome w w' id : rstep w w' → run_outcome w w' id.
Proof.
  destruct 1 as [key now fresh r Hf|key worker ttl now token Ht|worker ttl now l|worker ttl now|now|r|i
    |now r ws|key worker ttl now token r Ht|l ws root _|worker ttl now l thread|l ws thread
    |worker l code|now ws|now token|now token ws|token ws|i turn|i turn|i archived|i completed].
  - unfold enqueue_run. repeat case_match; try (by left).
    destruct (decide (id = fresh)) as [->|Hne].
    + right. left. split; [done|]. eexists. apply lookup_insert_eq.
    + left. by apply lookup_insert_ne.
  - by apply claim_outcome.
  - apply (lease_outcome w worker ttl now l 0 [] [] [] id).
  - eapply (outcome_map _ _ _ (owned_by_worker worker)); [reflexivity|].
    intros p Hp. apply andb_true_iff in Hp as [_ Hp]. by apply run_extended.
  - eapply (outcome_map _ _ _ (is_expired now)); [apply runs_reap_workspace|].
    intros p _. apply run_reaped.
  - apply (owner_outcome w r 0 0 id).
  - unfold interrupt_failed. destruct (runs (rdb w) !! i) as [row|] eqn:Hr; [|by left].
    destruct (bool_decide _) eqn:E; [|by left]. apply bool_decide_eq_true in E.
    destruct (active_elsewhere _ _ _); [by left|]. run_update row. by apply run_interrupt.
  - apply (owner_outcome w r now ws id).
  - by apply recover_outcome.
  - apply (lease_outcome w [] 0 0 l ws root [] [] id).
  - apply (lease_outcome w worker ttl now l 0 [] thread [] id).
  - apply (lease_outcome w [] 0 0 l ws [] thread [] id).
  - apply (lease_outcome w worker 0 0 l 0 [] [] code id).
  - by left.
  - unfold claim_cleanup. destruct (filter _ _) as [|e l]; [by left|]. destruct (foldl _ e l). by left.
  - left. unfold cleanup_failed. simpl. by rewrite runs_update_job.
  - left. unfold cleanup_done. simpl. by rewrite runs_update_job.
  - by apply (outcome_turn w _ id i); intros p; case_match; eauto.
  - by apply (outcome_turn w _ id i); intros p; repeat case_match; eauto.
  - left. unfold project_archived. by case_match.
  - unfold project_thread_end. destruct (runs (rdb w) !! i) as [row|] eqn:Hr; [|by left].
    destruct (bool_decide _); [|by left].
    destruct (workspace_id (progress row)); run_update row; apply run_ended; by destruct completed.
Qed.

(** ** The lease invariant *)

Definition has_lease (p : RunProgress) : bool := match lease p with Some _ => true | None => false end.

Definition leases_ok (w : RunWorld) : Prop :=
  ∀ id r, runs (rdb w) !! id = Some r → has_lease (progress r) = is_leased_status (progress_status r).

Lemma has_lease_extend ttl now p : has_lease (extend ttl now p) = has_lease p.
Proof. unfold has_lease, extend. simpl. by destruct (lease p). Qed.

Lemma run_change_lease w w' p p' :
  run_change w w' p p' → has_lease p = is_leased_status (status p) →
  has_lease p' = is_leased_status (status p').
Proof.
  intros Hc Hp. destruct Hc as [| | | |Hs| | |ttl now thread Hs|thread| |turn|s Hs]; try done.
  - rewrite has_lease_extend, Hp. done.
  - unfold has_lease in *. simpl. rewrite Hs in Hp. by destruct (lease p).
  - unfold started. rewrite has_lease_extend. unfold has_lease in *. simpl. rewrite Hs in Hp. done.
  - unfold uncertain. simpl. by case_bool_decide.
  - unfold ended. simpl. by destruct s.
Qed.

(** Whatever the interleaving of workers, owners and events, a run carries a lease
    exactly while it is provisioning, running or being cancelled; a waiting, settled
    or recoverable run belongs to no worker. *)
Theorem run_lease_iff_executing w w' :
  leases_ok w → rtc rstep w w' → leases_ok w'.
Proof.
  intros H0 Hr. induction Hr as [|w w1 w' Hs _ IH]; [done|]. apply IH. intros id r Hr.
  destruct (rstep_outcome w w1 id Hs) as [H|[[_ (o & H)]|(r0 & p' & Hr0 & H & Hc)]]; rewrite Hr in H.
  - by eapply H0.
  - by injection H as ->.
  - injection H as ->. simpl. eapply run_change_lease; [exact Hc|]. by apply (H0 id).
Qed.

(** ** Lost leases *)

Definition current_token (d : RunDb) (id : Uuid) : option Uuid :=
  r ← runs d !! id; lease_token <$> lease (progress r).

Lemma run_change_token w w' p p' token :
  run_change w w' p p' → token ∈ used w →
  lease_token <$> lease p ≠ Some token → lease_token <$> lease p' ≠ Some token.
Proof.
  intros Hc Ht Hp. destruct Hc; simpl; try done.
  - intros [= ->]. done.
  - by destruct (lease p).
  - intros [= ->]. done.
  - unfold started, extend. simpl. by destruct (lease p).
Qed.

Lemma lost_stays_lost w w' id token :
  rtc rstep w w' → token ∈ used w → current_token (rdb w) id ≠ Some token →
  current_token (rdb w') id ≠ Some token.
Proof.
  intros Hr. induction Hr as [|w w1 w' Hs _ IH]; [done|]. intros Ht Hl. apply IH.
  - destruct Hs; simpl; set_solver.
  - unfold current_token in *.
    destruct (rstep_outcome w w1 id Hs) as [H|[[_ (o & H)]|(r & p' & Hr & H & Hc)]]; rewrite H.
    + done.
    + done.
    + rewrite Hr in Hl. simpl in *. by eapply run_change_token.
Qed.

Lemma not_held worker l d :
  current_token d (leased_run l) ≠ Some (leased_token l) →
  ∀ row, runs d !! leased_run l = Some row → holds worker l (progress row) = false.
Proof.
  intros Hl row Hr. unfold current_token in Hl. rewrite Hr in Hl. simpl in Hl. unfold holds.
  destruct (lease (progress row)) as [x|]; [|done]. apply andb_false_iff. right.
  apply N.eqb_neq. simpl in Hl. congruence.
Qed.

(** The write of a workspace leaves the status, the lease and all else of every run but the
    workspace of its own. *)
Lemma record_write_keeps l ws root d id row :
  runs (fst (record_workspace_write l ws root d)) !! id = Some row →
  ∃ row0, runs d !! id = Some row0 ∧ order row = order row0 ∧
    (progress row = progress row0 ∨ id = leased_run l ∧ progress row = with_workspace ws (progress row0)).
Proof.
  unfold record_workspace_write. destruct (runs d !! leased_run l) as [r|] eqn:Hr; [|by eauto].
  destruct (has_workspace d (leased_run l)); [by eauto|]. cbn. destruct (decide (id = leased_run l)) as [->|Hne].
  - rewrite lookup_alter_eq, Hr. intros [= <-]. exists r. auto.
  - rewrite lookup_alter_ne by done. eauto.
Qed.

(** A report of an uncertain start changes at most the run of the lease, and only while this run
    has the workspace of the report. *)
Lemma uncertainty_keeps l ws thread d id :
  id ≠ leased_run l ∨ (∀ row, runs d !! leased_run l = Some row → workspace_id (progress row) ≠ Some ws) →
  runs (fst (record_delivery_uncertainty l ws thread d)) !! id = runs d !! id.
Proof.
  intros H. unfold record_delivery_uncertainty. destruct (runs d !! leased_run l) as [row|] eqn:Hr; [|done].
  case_bool_decide as Hw; [|done]. destruct (_ && _); [done|]. cbn. destruct H as [Hne|Hn]; [by apply lookup_alter_ne|].
  by destruct (Hn row eq_refl).
Qed.

(** C27: a worker that lost its lease is fenced off for good, but for two writes that do not ask
    for the lease.  Whatever happened since, even if the run was recovered or is executed by
    another worker: its heartbeats, the check before it records a workspace, its start
    report and its failure report change no row, and the first three tell it that the lease is
    lost; if the lease was lost after that check, the record that follows changes of all runs at
    most the workspace of its own, not its status or lease; and its report of an uncertain
    start changes of all runs at most its own, and only while this has the workspace that the
    worker checked out. *)
Theorem lost_lease_is_fenced w w' worker ttl l now ws root thread code :
  rtc rstep w w' → leased_token l ∈ used w →
  current_token (rdb w) (leased_run l) ≠ Some (leased_token l) →
  heartbeat worker ttl now l (rdb w') = (rdb w', Err LeaseLost) ∧
  record_workspace_check worker l (rdb w') = Err LeaseLost ∧
  mark_running worker ttl now l thread (rdb w') = (rdb w', false) ∧
  fail_lease worker l code (rdb w') = rdb w' ∧
  (∀ id row, runs (fst (record_workspace_write l ws root (rdb w'))) !! id = Some row →
     ∃ row0, runs (rdb w') !! id = Some row0 ∧ order row = order row0 ∧
       (progress row = progress row0 ∨ id = leased_run l ∧ progress row = with_workspace ws (progress row0))) ∧
  (∀ id, id ≠ leased_run l ∨ (∀ row, runs (rdb w') !! leased_run l = Some row → workspace_id (progress row) ≠ Some ws) →
     runs (fst (record_delivery_uncertainty l ws thread (rdb w'))) !! id = runs (rdb w') !! id).
Proof.
  intros Hr Ht Hl. pose proof (lost_stays_lost _ _ _ _ Hr Ht Hl) as Hl'.
  pose proof (not_held worker l (rdb w') Hl') as Hn.
  assert (heartbeat worker ttl now l (rdb w') = (rdb w', Err LeaseLost) ∧ record_workspace_check worker l (rdb w') = Err LeaseLost ∧
    mark_running worker ttl now l thread (rdb w') = (rdb w', false) ∧ fail_lease worker l code (rdb w') = rdb w') as (H1 & H2 & H3 & H4).
  { unfold heartbeat, record_workspace_check, mark_running, fail_lease, provisioning_under.
    destruct (runs (rdb w') !! leased_run l) as [row|]; [|done]. by rewrite (Hn row eq_refl). }
  split_and!; [done..| |]; intros; [by eapply record_write_keeps|by apply uncertainty_keeps].
Qed.

(** ** The queue *)

(** Claiming serves the queue in order: when no pending run of an active profile of
    the worker's runtime can be claimed nothing changes; otherwise the claimed run
    is the oldest of them, it becomes provisioning under a lease with the token the
    worker gets, its attempts are counted, and no other run changes. *)
Theorem claim_next_serves_oldest key worker ttl now token d :
  let (d', r) := claim_next key worker ttl now token d in
  match r with
  | None => d' = d ∧ ∀ id row, runs d !! id = Some row → claimable key now d row = false
  | Some l =>
      ∃ row, runs d !! leased_run l = Some row ∧ claimable key now d row = true ∧
        (∀ id row', runs d !! id = Some row' → claimable key now d row' = true →
           older (leased_run l, row) (id, row') = true) ∧
        runs d' !! leased_run l = Some (mkRunRow (order row)
          (mkProgress RProvisioning (codex_thread_id (progress row)) (active_turn_id (progress row))
             (workspace_id (progress row)) (attempt (progress row) + 1) None
             (Some (mkLease worker (leased_token l) (now + ttl))))) ∧
        leased_token l = token ∧
        ∀ id, id ≠ leased_run l → runs d' !! id = runs d !! id
  end.
Proof.
  unfold claim_next. destruct (oldest _) as [[i row]|] eqn:E.
  - apply oldest_spec in E as [[Hc Hin]%list_elem_of_filter Hle]. apply elem_of_map_to_list in Hin.
    simpl in *. exists row. split; [done|]. split; [done|]. split.
    { intros id row' Hr' Hc'. apply Hle, list_elem_of_filter. split; [done|]. by apply elem_of_map_to_list. }
    split; [by rewrite lookup_alter_eq, Hin|]. split; [done|].
    intros id Hne. by rewrite lookup_alter_ne.
  - split; [done|]. intros id row Hr. destruct (claimable key now d row) eqn:Hc; [|done].
    apply oldest_None in E. assert (Hin : (id, row) ∈ filter (fun e => claimable key now d e.2 = true) (map_to_list (runs d))).
    { apply list_elem_of_filter. split; [done|]. by apply elem_of_map_to_list. }
    rewrite E in Hin. by apply elem_of_nil in Hin.
Qed.

(** A request for a run that is in another organization, or that belongs to another user
    and does not come from an administrator, is answered like one for a run that
    does not exist, whether it is to cancel, recover or retire, and changes nothing. *)
Theorem foreign_run_untouched r d key worker ttl now token interrupt :
  (∀ row, runs d !! request_run r = Some row →
     order_organization (order row) ≠ request_organization r ∨
     requested_by (order row) ≠ Some (request_actor r) ∧ allow_organization_admin r = false) →
  cancel_request interrupt r d = (d, Err NotFound) ∧
  recover_run key worker ttl now token r d = (d, Err NotFound) ∧
  retire_request now interrupt r d = (d, Err NotFound).
Proof.
  intros H. assert (Hm : managed_run d r = Err NotFound ∧ retire_read r d = Err NotFound).
  { unfold managed_run, retire_read, or_not_found, require, may_manage.
    destruct (runs d !! request_run r) as [row|] eqn:Hr; [|done]. simpl.
    destruct (H row eq_refl) as [Ho|[Hb Ha]].
    - by rewrite (proj2 (N.eqb_neq _ _) Ho).
    - destruct (_ =? _); [|done]. simpl. rewrite bool_decide_false, Ha by done. split; [done|].
      destruct (workspace_id _) as [ws|]; [|done]. simpl. by destruct (workspaces d !! ws). }
  destruct Hm as [Hm Hr]. unfold cancel_request, cancel_run, recover_run, retire_request. by rewrite Hm, Hr.
Qed.
End system.

(** ** Enqueueing once *)

Section enqueue.
Context `{GC : !GitChecks}.
Context (key : str).

Lemma usable_run_insert d r project id fresh row x :
  runs d !! fresh = None → usable_run d r project id = Some x →
  usable_run (set_runs (<[fresh := row]> (runs d)) d) r project id = Some x.
Proof.
  unfold usable_run. intros Hf H. simpl.
  destruct (runs d !! id) as [y|] eqn:Hy; [|done].
  rewrite lookup_insert_ne by congruence. by rewrite Hy.
Qed.

Lemma check_fork_insert d r fresh row :
  runs d !! fresh = None → check_fork d r = Ok tt →
  check_fork (set_runs (<[fresh := row]> (runs d)) d) r = Ok tt.
Proof.
  unfold check_fork. intros Hf H. destruct (enqueue_fork_thread r) as [t|]; [|done].
  destruct (require _ _); [|done]. simpl in *. destruct (enqueue_fork_source r) as [i|]; [|done].
  destruct (runs d !! i) as [y|] eqn:Hy; [|done].
  rewrite lookup_insert_ne by congruence. by rewrite Hy.
Qed.

(** A request that passed its checks passes them again once its run is in the table. *)
Lemma checked_order_insert now now' d r fresh row o :
  runs d !! fresh = None → checked_order key now d r = Ok o →
  ∃ o', checked_order key now' (set_runs (<[fresh := row]> (runs d)) d) r = Ok o'.
Proof.
  unfold checked_order. intros Hf H. simp_ok.
  change (enqueue_row key (set_runs (<[fresh:=row]> (runs d)) d) r) with (enqueue_row key d r).
  repeat match goal with E : ?a = Ok _ |- context [rbind ?a _] => rewrite E; cbn [rbind] end.
  repeat match goal with x : _ * _ |- _ => destruct x end. simp_ok.
  repeat match goal with E : ?a = Ok _ |- context [rbind ?a _] => rewrite E; cbn [rbind] end.
  destruct x9. rewrite (check_fork_insert d r fresh row Hf) by done.
  assert (Hu : ∀ id x, or_not_found (usable_run d r (task_project t) id) = Ok x →
    or_not_found (usable_run (set_runs (<[fresh := row]> (runs d)) d) r (task_project t) id) = Ok x).
  { intros id y0 Hx. unfold or_not_found in *. destruct (usable_run d r _ id) as [y|] eqn:Hy; [|done].
    by rewrite (usable_run_insert _ _ _ _ _ _ _ Hf Hy). }
  match goal with |- ∃ o', rbind ?a _ = _ => assert (Ha : a = Ok tt) end.
  { destruct (enqueue_parent r) as [i|]; [|done]. destruct (or_not_found (usable_run d r _ i)) eqn:Ei; [|done].
    by rewrite (Hu _ _ Ei). }
  rewrite Ha. cbn [rbind].
  match goal with |- ∃ o', rbind ?a _ = _ => assert (Hb : a = Ok tt) end.
  { destruct (enqueue_group r) as [j|]; [|done]. simp_ok. rewrite (Hu _ _ ltac:(eassumption)). cbn [rbind].
    by destruct x8. }
  rewrite Hb. cbn [rbind]. eauto.
Qed.

Lemma with_key_Some d r id row :
  with_key d r = Some (id, row) → runs d !! id = Some row.
Proof. intros [Hin _]%find_first_Some. by apply elem_of_map_to_list in Hin. Qed.

(** The request's own row is the one its key finds. *)
Lemma with_key_insert d r fresh row :
  with_key d r = None → runs d !! fresh = None →
  order_organization (order row) = enqueue_organization r →
  requested_by (order row) = Some (enqueue_actor r) → idempotency_key (order row) = enqueue_key r →
  with_key (set_runs (<[fresh := row]> (runs d)) d) r = Some (fresh, row).
Proof.
  intros Hk Hf H1 H2 H3. unfold with_key in *. simpl.
  pose proof (proj1 (find_first_None _ _) Hk) as Hn. clear Hk.
  destruct (find_first _ _) as [[id x]|] eqn:E.
  - apply find_first_Some in E as [Hin Hx]. apply elem_of_map_to_list in Hin.
    destruct (decide (id = fresh)) as [->|Hne]; [by rewrite lookup_insert_eq in Hin; simplify_eq|].
    rewrite lookup_insert_ne in Hin by done. specialize (Hn (id, x)).
    rewrite Hn in Hx by by apply elem_of_map_to_list. done.
  - pose proof (proj1 (find_first_None _ _) E (fresh, row)) as Hr. simpl in Hr.
    rewrite H1, H2, H3, N.eqb_refl, bool_decide_true, seqb_refl in Hr by done.
    discriminate Hr. apply elem_of_map_to_list, lookup_insert_eq.
Qed.

Lemma checked_order_Ok now d r o :
  checked_order key now d r = Ok o →
  order_organization o = enqueue_organization r ∧ order_task o = enqueue_task r ∧
  requested_by o = Some (enqueue_actor r) ∧ idempotency_key o = enqueue_key r.
Proof.
  unfold checked_order. intros H. simp_ok. repeat match goal with x : _ * _ |- _ => destruct x end.
  by simp_ok.
Qed.

(** Enqueueing is idempotent: a client that repeats an accepted request, not knowing
    whether it arrived, gets the same run back and no second one is queued,
    whatever the time and the id the database would have chosen. *)
Theorem enqueue_run_idempotent now now' fresh fresh' r d d' id row :
  runs d !! fresh = None →
  enqueue_run key now fresh r d = (d', Ok (id, row)) →
  enqueue_run key now' fresh' r d' = (d', Ok (id, row)).
Proof.
  intros Hf. unfold enqueue_run. destruct (checked_order key now d r) as [o|] eqn:Ho; [|by intros [=]].
  destruct (with_key d r) as [[i x]|] eqn:Hk.
  - destruct (_ =? _) eqn:Et; [|by intros [=]]. intros [= <- <- <-].
    assert (Hc : ∃ o', checked_order key now' d r = Ok o').
    { unfold checked_order in *. simp_ok.
      repeat match goal with E : ?a = Ok _ |- context [rbind ?a _] => rewrite E; cbn [rbind] end.
      repeat match goal with x : _ * _ |- _ => destruct x end. simp_ok.
      repeat match goal with E : ?a = Ok _ |- context [rbind ?a _] => rewrite E; cbn [rbind] end. eauto. }
    destruct Hc as [o' ->]. by rewrite Hk, Et.
  - destruct (active_elsewhere _ _ _); [by intros [=]|]. intros [= <- <- <-].
    destruct (checked_order_insert now now' d r fresh (mkRunRow o pending_progress) o Hf Ho) as [o' ->].
    apply checked_order_Ok in Ho as (H1 & H2 & H3 & H4).
    rewrite with_key_insert by done. simpl. by rewrite H2, N.eqb_refl.
Qed.
End enqueue.

(** ** One undisturbed pass of a worker *)

Section pass.
Context `{GC : !GitChecks}.
Context (key worker : str) (ttl : Z).

(** The run is provisioning under the lease. *)
Definition held (l : RunLease) (d : RunDb) (ws : option Uuid) : Prop :=
  ∃ row, runs d !! leased_run l = Some row ∧ holds worker l (progress row) = true ∧
         progress_status row = RProvisioning ∧ workspace_id (progress row) = ws ∧
         is_Some (tasks d !! order_task (order row)).

Lemma holds_extend l now p : holds worker l (extend ttl now p) = holds worker l p.
Proof. unfold holds, extend. simpl. by destruct (lease p). Qed.

Lemma heartbeat_held now l d ws :
  held l d ws → ∃ d', heartbeat worker ttl now l d = (d', Ok tt) ∧ held l d' ws.
Proof.
  intros (row & Hr & Hh & Hs & Hw & Ht). unfold heartbeat. rewrite Hr, Hh, Hs. simpl.
  eexists. split; [done|]. exists (mkRunRow (order row) (extend ttl now (progress row))).
  simpl. rewrite lookup_alter_eq, Hr, holds_extend. by split_and!.
Qed.

Lemma record_held l ws root d w :
  held l d w →
  (∃ d', record_workspace worker l ws root d = (d', Ok tt) ∧ held l d' (Some ws) ∧
         ∃ x, workspaces d' !! ws = Some x) ∨
  ∃ e, record_workspace worker l ws root d = (d, Err e).
Proof.
  intros (row & Hr & Hh & Hs & Hw & Ht). unfold record_workspace, record_workspace_check, record_workspace_write, provisioning_under.
  unfold progress_status in Hs. rewrite Hr, Hh, Hs, bool_decide_true by done. simpl. destruct (has_workspace d (leased_run l)); [right; eauto|].
  left. eexists. split; [done|]. split; [|eexists; apply lookup_insert_eq].
  exists (mkRunRow (order row) (with_workspace ws (progress row))).
  simpl. rewrite lookup_alter_eq, Hr. by split_and!.
Qed.

Lemma fail_held l d ws code :
  held l d ws →
  ∃ row, runs (fail_lease worker l code d) !! leased_run l = Some row ∧
    progress_status row = RFailed ∧ failure_code (progress row) = Some code ∧ lease (progress row) = None.
Proof.
  intros (row & Hr & Hh & Hs & Hw & Ht). unfold fail_lease. rewrite Hr, Hh, Hs. simpl.
  eexists. rewrite lookup_alter_eq, Hr. by split_and!.
Qed.

(** What a started run looks like. *)
Definition running_with (l : RunLease) (ws : Uuid) (thread : str) (d : RunDb) : Prop :=
  ∃ row x, runs d !! leased_run l = Some row ∧ progress_status row = RRunning ∧
    codex_thread_id (progress row) = Some thread ∧ workspace_id (progress row) = Some ws ∧
    holds worker l (progress row) = true ∧ workspaces d !! ws = Some x ∧ workspace_state x = WBusy.

Lemma start_held now l ws out d x :
  held l d (Some ws) → workspaces d !! ws = Some x →
  (∃ d' thread, out = Ok thread ∧ start_run worker ttl now l ws out d = (d', Ok tt) ∧ running_with l ws thread d') ∨
  ∃ d' e, start_run worker ttl now l ws out d = (d', Err e) ∧ held l d' (Some ws).
Proof.
  intros Hh Hx. unfold start_run. destruct (negb (fork_source_ok l d)); [right; eauto|].
  destruct out as [thread|m]; [|by right; eauto].
  left. destruct Hh as (row & Hr & Hh & Hs & Hw & Ht). unfold mark_running, provisioning_under.
  unfold progress_status in Hs. rewrite Hr, Hh, Hs, bool_decide_true by done. simpl. rewrite Hw.
  rewrite bool_decide_true by done.
  eexists _, _. split; [done|]. split; [done|]. unfold running_with. simpl.
  rewrite lookup_alter_eq, Hr. simpl. rewrite lookup_alter_eq, Hx.
  eexists _, _. split; [done|]. cbn [progress]. unfold started. rewrite holds_extend. by split_and!.
Qed.

Lemma execute_held l out d ws0 :
  held l d ws0 →
  (∃ d' ws root thread, checkout out = Ok (ws, root) ∧ thread_start out = Ok thread ∧
     execute_lease worker ttl l out d = (d', Ok tt) ∧ running_with l ws thread d') ∨
  ∃ d' e ws, execute_lease worker ttl l out d = (d', Err e) ∧ held l d' ws.
Proof.
  intros Hh. unfold execute_lease.
  destruct (heartbeat_held (first_heartbeat out) l d ws0 Hh) as (d1 & -> & H1).
  destruct (validate_source _); [right; eauto|]. destruct (validate_ref _); [right; eauto|].
  destruct (checkout out) as [[ws root]|m]; [|right; eauto].
  match goal with |- context [if ?b then switch_branch out else None] =>
    destruct (if b then switch_branch out else None) end; [right; eauto|].
  destruct (heartbeat_held (second_heartbeat out) l d1 ws0 H1) as (d2 & -> & H2).
  destruct (record_held l ws root d2 ws0 H2) as [(d3 & -> & H3 & x & Hx)|(e & ->)]; [|right; eauto].
  destruct (start_held (start_time out) l ws (thread_start out) d3 x H3 Hx)
    as [(d4 & thread & Ht & -> & H4)|(d4 & e & -> & H4)]; [left|right]; eauto 10.
Qed.

(** A pass of a worker that nothing disturbs always settles what it claimed: either no
    run was waiting and nothing changed, or the claimed run is running with the
    thread that was started, in the workspace that was checked out, under the
    worker's lease; or the pass reports an error and the run has failed with that
    error's code and no lease. *)
Theorem run_once_settles now token out d :
  let (d', r) := run_once key worker ttl now token out d in
  let claimed := snd (claim_next key worker ttl now token d) in
  match r with
  | Ok false => claimed = None ∧ d' = d
  | Ok true => ∃ l ws root thread,
      claimed = Some l ∧ leased_token l = token ∧ checkout out = Ok (ws, root) ∧ thread_start out = Ok thread ∧
      running_with l ws thread d'
  | Err e => ∃ l row, claimed = Some l ∧ runs d' !! leased_run l = Some row ∧ progress_status row = RFailed ∧
      failure_code (progress row) = Some (run_failure_code e) ∧ lease (progress row) = None
  end.
Proof.
  unfold run_once, claim_next. destruct (oldest _) as [[i row]|] eqn:E; [|done].
  apply oldest_spec in E as [[Hc Hin]%list_elem_of_filter _]. apply elem_of_map_to_list in Hin.
  apply claimable_task in Hc. simpl in Hc. simpl snd.
  match goal with |- context [execute_lease _ _ ?x _ ?y] => set (l := x); set (d1 := y) end.
  assert (Hh : held l d1 (workspace_id (progress row))).
  { eexists. split; [unfold d1; simpl; by rewrite lookup_alter_eq, Hin|]. simpl.
    unfold holds. simpl. rewrite seqb_refl, N.eqb_refl. by split_and!. }
  destruct (execute_held l out d1 _ Hh) as [(d' & ws & root & thread & H1 & H2 & -> & H3)|(d' & e & ws & -> & H3)].
  - exists l, ws, root, thread. done.
  - destruct (fail_held l d' ws (run_failure_code e) H3) as (x & Hx). eauto.
Qed.
End pass.

(** ** A lease that expires while its thread starts *)

Module SampleRuns.
#[export] Instance any_git : GitChecks := { validate_source _ := None; validate_ref _ := None }.
Definition key : str := lit "runtime".
Definition worker : str := lit "worker-1".
Definition ask : EnqueueRunRequest :=
  mkEnqueue 3 7 1 (lit "request-1") None (lit "main") None None None false None None.
Definition manage : RunRequest := mkRunRequest 3 7 false 5.

(** One task of one project, and the active profile of its user. *)
Definition d0 : RunDb :=
  mkRunDb {[1 := mkTask 3 2 TPending]} {[2 := mkProject 3 (lit "https://host/repo") (lit "main")]}
    {[4 := mkProfileRow 3 7 key true]} ∅ ∅ ∅.
Definition d1 : RunDb := fst (enqueue_run key 0 5 ask d0).
(** The worker claims the run at time 100 for 10 seconds and checks out a workspace. *)
Definition d2 : RunDb := fst (claim_next key worker 10 100 50 d1).
Definition the_lease : RunLease :=
  mkRunLease 5 50 (mkOrder 3 1 (Some 7) 4 (lit "main") (lit "request-1") (lit "main") None None None false
                     None None 0) (lit "https://host/repo") 1.
Definition d3 : RunDb := fst (record_workspace worker the_lease 9 (lit "/w/9") d2).
(** Starting the thread takes longer than the lease: the run is reaped. *)
Definition d4 : RunDb := fst (reap_expired 200 d3).
(** The thread has started; the worker finds its lease lost and reports the uncertainty. *)
Definition d5 : RunDb := fst (record_delivery_uncertainty the_lease 9 (lit "thread") d4).
(** The owner recovers the run, and then the clean-up job that the reaper queued is due. *)
Definition d6 : RunDb := fst (recover_run key worker 10 201 51 manage d5).
Definition d7 : RunDb := fst (claim_cleanup 202 60 d6).
Definition d8 : RunDb := cleanup_done 60 9 d7.

Definition run_view (d : RunDb) : option (RunStatus * option Uuid) :=
  (fun r => (progress_status r, workspace_id (progress r))) <$> runs d !! 5.
Definition workspace_view (d : RunDb) : option WorkspaceState := workspace_state <$> workspaces d !! 9.

Lemma d0_d2 : rtc rstep (mkRunWorld d0 ∅) (mkRunWorld d2 {[50]}).
Proof.
  eapply rtc_l; [apply (rstep_enqueue _ key 0 5 ask); reflexivity|]. simpl.
  eapply rtc_l; [apply (rstep_claim _ key worker 10 100 50); set_solver|]. simpl.
  rewrite (right_id_L ∅ union). apply rtc_refl.
Qed.

Lemma d2_d4 : rtc rstep (mkRunWorld d2 {[50]}) (mkRunWorld d4 {[50]}).
Proof.
  eapply rtc_l; [apply (rstep_record _ the_lease 9 (lit "/w/9")); set_solver|].
  eapply rtc_l; [apply (rstep_reap _ 200)|]. apply rtc_refl.
Qed.

Lemma d4_d8 : rtc rstep (mkRunWorld d4 {[50]}) (mkRunWorld d8 ({[51]} ∪ {[50]})).
Proof.
  eapply rtc_l; [apply (rstep_uncertain _ the_lease 9 (lit "thread"))|].
  eapply rtc_l; [apply (rstep_recover _ key worker 10 201 51 manage); set_solver|].
  eapply rtc_l; [apply (rstep_claim_cleanup _ 202 60)|].
  eapply rtc_l; [apply (rstep_cleanup_done _ 60 9)|]. apply rtc_refl.
Qed.
End SampleRuns.
#[local] Existing Instance SampleRuns.any_git.

(** A run whose lease expires while its thread is starting can be recovered and then
    lose its workspace: the reaper queues the workspace for removal, the late start
    report makes it ready again without withdrawing the job, the owner recovers the
    run, and the job removes the workspace of a run that is running. *)
Theorem recovered_run_loses_workspace :
  rtc rstep (mkRunWorld SampleRuns.d0 ∅) (mkRunWorld SampleRuns.d8 ({[51]} ∪ {[50]})) ∧
  SampleRuns.run_view SampleRuns.d4 = Some (RRecoveryPending, Some 9) ∧
  SampleRuns.workspace_view SampleRuns.d4 = Some WCleanupPending ∧
  snd (mark_running SampleRuns.worker 10 200 SampleRuns.the_lease (lit "thread") SampleRuns.d4) = false ∧
  SampleRuns.workspace_view SampleRuns.d5 = Some WReady ∧
  SampleRuns.run_view SampleRuns.d6 = Some (RRunning, Some 9) ∧
  snd (claim_cleanup 202 60 SampleRuns.d6) = Some 9 ∧
  SampleRuns.run_view SampleRuns.d8 = Some (RRunning, Some 9) ∧
  SampleRuns.workspace_view SampleRuns.d8 = Some WRetired.
Proof.
  split.
  - transitivity (mkRunWorld SampleRuns.d2 {[50]}); [apply SampleRuns.d0_d2|].
    transitivity (mkRunWorld SampleRuns.d4 {[50]}); [apply SampleRuns.d2_d4|apply SampleRuns.d4_d8].
  - repeat split; vm_compute; reflexivity.
Qed.

(** The check of the lease and the write of the workspace are apart: a worker whose run is
    cancelled after it looked at its lease still attaches a workspace to the cancelled run. *)
Theorem cancelled_run_gets_workspace :
  let cancelled_db := fst (cancel_run SampleRuns.manage SampleRuns.d2) in
  record_workspace_check SampleRuns.worker SampleRuns.the_lease SampleRuns.d2 = Ok tt ∧
  SampleRuns.run_view cancelled_db = Some (RCancelled, None) ∧
  record_workspace_check SampleRuns.worker SampleRuns.the_lease cancelled_db = Err LeaseLost ∧
  (let d := fst (record_workspace_write SampleRuns.the_lease 9 (lit "/w/9") cancelled_db) in
   SampleRuns.run_view d = Some (RCancelled, Some 9) ∧ SampleRuns.workspace_view d = Some WReady).
Proof. repeat split; vm_compute; reflexivity. Qed.

Lemma run_lease_iff_executing_witness :
  leases_ok (mkRunWorld SampleRuns.d2 {[50]}) ∧ SampleRuns.run_view SampleRuns.d2 = Some (RProvisioning, None).
Proof.
  split; [|vm_compute; reflexivity].
  apply (run_lease_iff_executing (mkRunWorld SampleRuns.d0 ∅)); [|exact SampleRuns.d0_d2].
  intros id r Hr. simpl in Hr. by rewrite lookup_empty in Hr.
Defined.

Lemma lost_lease_is_fenced_witness :
  heartbeat SampleRuns.worker 10 300 SampleRuns.the_lease SampleRuns.d8 = (SampleRuns.d8, Err LeaseLost) ∧
  record_workspace_check SampleRuns.worker SampleRuns.the_lease SampleRuns.d8 = Err LeaseLost ∧
  mark_running SampleRuns.worker 10 300 SampleRuns.the_lease [] SampleRuns.d8 = (SampleRuns.d8, false) ∧
  fail_lease SampleRuns.worker SampleRuns.the_lease [] SampleRuns.d8 = SampleRuns.d8.
Proof.
  destruct (lost_lease_is_fenced (mkRunWorld SampleRuns.d4 {[50]}) (mkRunWorld SampleRuns.d8 ({[51]} ∪ {[50]}))
    SampleRuns.worker 10 SampleRuns.the_lease 300 10 [] [] []) as (H1 & H2 & H3 & H4 & _).
  - exact SampleRuns.d4_d8.
  - vm_compute. reflexivity.
  - vm_compute. discriminate.
  - split_and!; [exact H1|exact H2|exact H3|exact H4].
Defined.

Lemma foreign_run_untouched_witness :
  let r := mkRunRequest 3 8 false 5 in
  cancel_request (fun _ _ => None) r SampleRuns.d2 = (SampleRuns.d2, Err NotFound) ∧
  recover_run SampleRuns.key SampleRuns.worker 10 300 70 r SampleRuns.d2 = (SampleRuns.d2, Err NotFound) ∧
  retire_request 300 (fun _ _ => None) r SampleRuns.d2 = (SampleRuns.d2, Err NotFound).
Proof.
  intros r. apply (foreign_run_untouched r SampleRuns.d2). intros row Hr. right.
  vm_compute in Hr. apply (inj Some) in Hr as <-. split; [|reflexivity]. vm_compute. discriminate.
Defined.

Lemma enqueue_run_idempotent_witness :
  enqueue_run SampleRuns.key 33 6 SampleRuns.ask SampleRuns.d1 =
    (SampleRuns.d1, Ok (5, mkRunRow (leased_order SampleRuns.the_lease) pending_progress)).
Proof.
  apply (enqueue_run_idempotent SampleRuns.key 0 33 5 6 SampleRuns.ask SampleRuns.d0);
    vm_compute; reflexivity.
Defined.
