(* ===== verification/EventBridge.v ===== *)
(** * From the runtime's events to browsers

    The stateful half of [apps/web/server/src/event_projection.rs], the loop of
    [server/src/main.rs] that feeds it, the live channel of [routes/events.rs], the replay of
    [routes/tasks.rs] and the artifacts of [routes/artifacts.rs].  A frame of the runtime is
    stored with what it changes in one transaction, and only then sent to the browsers of
    its organization.  The tables that these transactions touch are a record; a transaction
    is a function on it.  Ids, the clock, base64, URLs and JSON text are arguments. *)

From S2P Require Import Prelude RustStr Utf8 MachineInt ResponseModel Approval WorldState Projection GitSource RunScheduler RunSchedulerFacts.
Open Scope nat_scope.

(** ** Tables *)

(** A row of [run_events], which is also what browsers get of it. *)
Record RunEvent := mkRunEvent {
  row_id : Uuid;
  sequence : Z;
  row_run : Uuid;
  row_type : str;
  row_thread : option str;
  row_turn : option str;
  row_item : option str;
  row_payload : Json;
  row_created_at : Timestamp
}.

Inductive ReplyState := ReplyPending | ReplyReady | ReplyFailed.
#[export] Instance ReplyState_eq_dec : EqDecision ReplyState.
Proof. solve_decision. Defined.

(** The key of [reply_artifacts]: run, thread, server and address. *)
Abbreviation ReplyKey := (Uuid * str * str * str)%type.

Record ReplyArtifact := mkReply {
  reply_id : Uuid;
  reply_organization : Uuid;
  reply_turn : str;
  reply_producer : str;
  reply_mime : option str;
  reply_size : option Z;
  reply_content : option (list N);
  reply_state : ReplyState
}.

Record InlineArtifact := mkInline {
  inline_organization : Uuid;
  inline_thread : str;
  inline_turn : str;
  inline_producer : str;
  inline_kind : str;
  inline_payload : Json
}.

Inductive TerminalState := TerminalStarting | TerminalRunning | TerminalClosing | TerminalClosed | TerminalFailed.

Record TerminalSession := mkTerminal {
  terminal_id : str;
  browser_workspace_id : Uuid;
  terminal_run : Uuid;
  terminal_organization : Uuid;
  session_state : TerminalState
}.

Record EventDb := mkEventDb {
  run_db : RunDb;
  titles : gmap Uuid str;
  run_events : list RunEvent;
  next_sequence : Z;
  replies : gmap ReplyKey ReplyArtifact;
  inlines : gmap (Uuid * str) InlineArtifact;
  terminals : gmap str TerminalSession
}.

Definition set_run_db (f : RunDb → RunDb) (db : EventDb) : EventDb :=
  mkEventDb (f (run_db db)) (titles db) (run_events db) (next_sequence db) (replies db) (inlines db) (terminals db).
Definition set_replies (r : gmap ReplyKey ReplyArtifact) (db : EventDb) : EventDb :=
  mkEventDb (run_db db) (titles db) (run_events db) (next_sequence db) r (inlines db) (terminals db).
Definition set_inlines (i : gmap (Uuid * str) InlineArtifact) (db : EventDb) : EventDb :=
  mkEventDb (run_db db) (titles db) (run_events db) (next_sequence db) (replies db) i (terminals db).

(** [INSERT INTO run_events ... RETURNING id, sequence, created_at] *)
Definition insert_event (now : Timestamp) (id run : Uuid) (event_type : str) (thread turn item : option str)
    (payload : Json) (db : EventDb) : EventDb * RunEvent :=
  let row := mkRunEvent id (next_sequence db) run event_type thread turn item payload now in
  (mkEventDb (run_db db) (titles db) (run_events db ++ [row]) (next_sequence db + 1) (replies db) (inlines db)
     (terminals db), row).

(** [SELECT id, organization_id FROM runs WHERE codex_thread_id = $1 ORDER BY created_at DESC LIMIT 1] *)
Definition run_of_thread (thread : str) (db : RunDb) : option (Uuid * RunRow) :=
  max_by (fun a b => (run_created_at (order (snd a)) <=? run_created_at (order (snd b)))%Z) None
    (List.filter (fun e => bool_decide (codex_thread_id (progress (snd e)) = Some thread)) (map_to_list (runs db))).

(** ** Artifacts *)

Inductive ArtifactError := ArtifactDatabase | ResourceUnavailable | RendererUnsupported | RefRegistered.

Section projection.
Context `{JT : !JsonText} `{F64 : !Float64}.
Context (show_uuid : Uuid → str) (base64_decode : str → option (list N)).

Definition is_completed_tool_call (event : ProjectedEvent) : bool :=
  seqb (event_type event) (lit "codex.item.completed") &&
  bool_decide (get (lit "itemType") (event_payload event) ≫= as_str = Some (lit "mcpToolCall")).

(** [INSERT INTO reply_artifacts ... ON CONFLICT ... DO UPDATE]: an address that two items
    claim is unusable. *)
Definition register_reply (organization : Uuid) (key : ReplyKey) (turn item : str) (fresh : Uuid)
    (artifact : ReplyArtifactCandidate) (db : EventDb) : EventDb :=
  set_replies
    (<[key := match replies db !! key with
              | None => mkReply fresh organization turn item (candidate_mime artifact) (candidate_size artifact) None ReplyPending
              | Some r =>
                  mkReply (reply_id r) (reply_organization r) (reply_turn r) (reply_producer r) (reply_mime r) (reply_size r)
                    (reply_content r) (if seqb (reply_producer r) item then reply_state r else ReplyFailed)
              end]> (replies db)) db.

Definition event_server (event : ProjectedEvent) : option str :=
  server ← (get (lit "data") (event_payload event) ≫= get (lit "server")) ≫= as_str;
  let server := trim server in if seqb server [] then None else Some server.

Definition register_reply_artifacts (fresh : str → Uuid) (event : ProjectedEvent) (run organization : Uuid)
    (db : EventDb) : EventDb :=
  if negb (is_completed_tool_call event) then db
  else match event_turn event, event_item event, event_server event with
       | Some turn, Some item, Some server =>
           foldl (fun db artifact =>
             register_reply organization (run, event_thread event, server, candidate_uri artifact) turn item
               (fresh (candidate_uri artifact)) artifact db) db (Projection.reply_artifacts event)
       | _, _, _ => db
       end.

(** [SELECT id, mime_type FROM reply_artifacts WHERE ... AND producer_item_id <> $5 AND state IN ('pending', 'ready')] *)
Definition usable_reply (db : EventDb) (run : Uuid) (thread item : str) (ref : str * str) : option (Uuid * option str) :=
  r ← replies db !! (run, thread, fst ref, snd ref);
  if negb (seqb (reply_producer r) item) && negb (bool_decide (reply_state r = ReplyFailed))
  then Some (reply_id r, reply_mime r) else None.

Definition resolve_map_resource_refs (db : EventDb) (run : Uuid) (thread item : str) (payload : Json) :
    result Json ArtifactError :=
  match map_payload_resource_refs payload with
  | None => Ok payload
  | Some refs =>
      let? resolved :=
        try_fold (fun resolved ref =>
          match usable_reply db run thread item ref with
          | Some found => Ok (<[ref := found]> resolved)
          | None => Err ResourceUnavailable
          end) (∅ : gmap (str * str) (Uuid * option str)) refs in
      Ok (replace_map_payload_resource_refs show_uuid run resolved payload)
  end.

Definition resolve_inline_renderer_resources (db : EventDb) (run : Uuid) (thread item kind : str) (payload : Json) :
    result Json ArtifactError :=
  if seqb kind (lit "map.v3") then resolve_map_resource_refs db run thread item payload else Err RendererUnsupported.

Definition register_inline_visualization_artifact (event : ProjectedEvent) (run organization : Uuid) (db : EventDb) :
    result EventDb ArtifactError :=
  if negb (is_completed_tool_call event) then Ok db
  else match inline_artifact event, event_turn event, event_item event with
       | Some candidate, Some turn, Some item =>
           let? payload :=
             resolve_inline_renderer_resources db run (event_thread event) item (renderer_kind candidate)
               (renderer_payload candidate) in
           match inlines db !! (run, artifact_ref candidate) with
           | None =>
               Ok (set_inlines (<[(run, artifact_ref candidate) :=
                     mkInline organization (event_thread event) turn item (renderer_kind candidate) payload]> (inlines db)) db)
           | Some existing =>
               if seqb (inline_producer existing) item && seqb (inline_kind existing) (renderer_kind candidate) &&
                  json_eqb (inline_payload existing) payload
               then Ok db else Err RefRegistered
           end
       | _, _, _ => Ok db
       end.

(** What a message embeds: artifacts of its run and thread. *)
Definition embedded_artifact (db : EventDb) (run : Uuid) (thread ref : str) : option Json :=
  a ← inlines db !! (run, ref);
  if seqb (inline_thread a) thread
  then Some (JObject [(lit "ref", JString ref);
                      (lit "renderer", JObject [(lit "kind", JString (inline_kind a)); (lit "payload", inline_payload a)])])
  else None.

Definition resolve_inline_artifacts_in_transaction (db : EventDb) (run : Uuid) (payload : Json) : Json :=
  if negb (bool_decide (get (lit "itemType") payload ≫= as_str = Some (lit "agentMessage"))) then payload
  else match get (lit "threadId") payload ≫= as_str, (get (lit "data") payload ≫= get (lit "text")) ≫= as_str with
       | Some thread, Some text =>
           match omap (embedded_artifact db run thread) (inline_artifact_refs text) with
           | [] => payload
           | artifacts =>
               on_object (obj_update (lit "data") (on_object (obj_insert (lit "inlineArtifacts") (JArray artifacts)))) payload
           end
       | _, _ => payload
       end.

(** The work between the savepoint and its release; [failed] is an error of the database. *)
Definition artifact_stage (failed : bool) (fresh : str → Uuid) (event : ProjectedEvent) (run organization : Uuid)
    (db : EventDb) : result (EventDb * Json) ArtifactError :=
  if failed then Err ArtifactDatabase
  else
    let db := register_reply_artifacts fresh event run organization db in
    let? db := register_inline_visualization_artifact event run organization db in
    Ok (db, resolve_inline_artifacts_in_transaction db run (event_payload event)).

Definition without_inline_artifacts (payload : Json) : Json :=
  on_object (obj_update (lit "data") (on_object (obj_remove (lit "inlineArtifacts")))) payload.

(** ** Storing a frame *)

Definition set_title (run : Uuid) (title : str) (db : EventDb) : EventDb :=
  match runs (run_db db) !! run with
  | Some row =>
      let task := order_task (order row) in
      if bool_decide (is_Some (tasks (run_db db) !! task))
      then mkEventDb (run_db db) (<[task := title]> (titles db)) (run_events db) (next_sequence db) (replies db) (inlines db)
             (terminals db)
      else db
  | None => db
  end.

(** What an event changes in its run and task. *)
Definition apply_lifecycle (event : ProjectedEvent) (run : Uuid) (db : EventDb) : EventDb :=
  let same t := seqb (event_type event) (lit t) in
  if same "codex.turn.started"%string then set_run_db (project_turn_started run (event_turn event)) db
  else if same "codex.turn.completed"%string then set_run_db (project_turn_completed run (event_turn event)) db
  else if same "codex.thread.archived"%string then set_run_db (project_archived run true) db
  else if same "codex.thread.unarchived"%string then set_run_db (project_archived run false) db
  else if same "codex.thread.name.updated"%string then
    match (get (lit "data") (event_payload event) ≫= get (lit "threadName")) ≫= as_str with
    | Some name =>
        let name := trim name in
        if negb (seqb name []) && (byte_len name <=? 200) then set_title run name db else db
    | None => db
    end
  else if same "codex.thread.completed"%string then set_run_db (project_thread_end run true) db
  else if same "codex.thread.failed"%string then set_run_db (project_thread_end run false) db
  else db.

Record LiveEvent := mkLive { live_organization : Uuid; live_payload : str }.

(** [show_time] is the display of a [DateTime<Utc>]. *)
Context (show_time : Timestamp → str).

Definition show_Z (z : Z) : str := if (z <? 0)%Z then 45%N :: show_N (Z.to_N (- z)) else show_N (Z.to_N z).

Definition run_event_json (e : RunEvent) : Json :=
  JObject [(lit "created_at", JString (show_time (row_created_at e))); (lit "event_type", JString (row_type e));
           (lit "id", JString (show_uuid (row_id e))); (lit "item_id", or_null (row_item e)); (lit "payload", row_payload e);
           (lit "projection_version", PROJECTION_VERSION); (lit "run_id", JString (show_uuid (row_run e)));
           (lit "sequence", JNumber (show_Z (sequence e))); (lit "thread_id", or_null (row_thread e));
           (lit "turn_id", or_null (row_turn e))].

Definition live_text (e : RunEvent) : str :=
  json_to_string (JObject [(lit "event", run_event_json e); (lit "type", JString (lit "run.event"));
                           (lit "version", JNumber (lit "1"))]).

(** The ids and the time that a transaction uses, and whether the database fails in the
    artifact stage. *)
Record Draws := mkDraws {
  draw_now : Timestamp;
  draw_event : Uuid;
  draw_artifact : str → Uuid;
  draw_artifact_failure : bool
}.

Definition persist_event (d : Draws) (event : ProjectedEvent) (db : EventDb) : EventDb * option (Uuid * RunEvent) :=
  match run_of_thread (event_thread event) (run_db db) with
  | None => (db, None)
  | Some (run, row) =>
      let organization := order_organization (order row) in
      let '(db, payload) :=
        match artifact_stage (draw_artifact_failure d) (draw_artifact d) event run organization db with
        | Ok (db', payload) => (db', payload)
        | Err _ => (db, without_inline_artifacts (event_payload event))
        end in
      let '(db, e) := insert_event (draw_now d) (draw_event d) run (event_type event) (Some (event_thread event))
                        (event_turn event) (event_item event) payload db in
      (apply_lifecycle event run db, Some (organization, e))
  end.

(** ** Terminals *)

Definition MAX_TERMINAL_BYTES : nat := N.to_nat (256 * 1024).

Definition close_terminal (process : str) (failed : bool) (db : EventDb) : EventDb :=
  mkEventDb (run_db db) (titles db) (run_events db) (next_sequence db) (replies db) (inlines db)
    (alter (fun t => mkTerminal (terminal_id t) (browser_workspace_id t) (terminal_run t) (terminal_organization t)
                       (if failed then TerminalFailed else TerminalClosed)) process (terminals db)).

(** A session with its run, [JOIN runs run ON run.id = session.run_id]. *)
Definition terminal_of_process (process : str) (db : EventDb) : option (TerminalSession * RunRow) :=
  session ← terminals db !! process;
  row ← runs (run_db db) !! terminal_run session;
  Some (session, row).

Definition terminal_payload (session : TerminalSession) (key : str) (value : Json) : Json :=
  JObject (obj_insert key value
    [(lit "schemaVersion", PROJECTION_VERSION); (lit "terminalId", JString (terminal_id session));
     (lit "workspaceId", JString (show_uuid (browser_workspace_id session)))]).

Definition persist_terminal_message (d : Draws) (message : Fields) (db : EventDb) :
    result (EventDb * option (Uuid * RunEvent)) ProjectionError :=
  let method := default [] (field_str message (lit "method")) in
  let is_output := seqb method (lit "command/exec/outputDelta") in
  if negb is_output && negb (seqb method (lit "platform/terminalExited")) then Ok (db, None)
  else
    let params := message_params message in
    match (process ← string_field params (lit "processId"); s ← terminal_of_process process db; Some (process, s)) with
    | None => Ok (db, None)
    | Some (process, (session, row)) =>
        let? '(db, event_type, payload) :=
          if is_output then
            match base64_decode (default [] (field_str params (lit "deltaBase64"))) with
            | None => Err InvalidBase64
            | Some decoded =>
                let decoded := take MAX_TERMINAL_BYTES decoded in
                Ok (db, lit "terminal.output",
                    terminal_payload session (lit "data") (JString (from_utf8_lossy decoded)))
            end
          else
            let failed := default false (assoc (lit "failed") params ≫= as_bool) in
            Ok (close_terminal process failed db, lit "terminal.exit",
                terminal_payload session (lit "exitCode") (default JNull (assoc (lit "exitCode") params))) in
        let '(db, e) := insert_event (draw_now d) (draw_event d) (terminal_run session) event_type
                          (codex_thread_id (progress row)) None None payload db in
        Ok (db, Some (terminal_organization session, e))
    end.

(** [persist_frame]: the row it stored, with the organization that may see it. *)
Definition persist_frame (d : Draws) (data : list N) (db : EventDb) : result (EventDb * option (Uuid * RunEvent)) ProjectionError :=
  let? message := internal_message data in
  match message with
  | None => Ok (db, None)
  | Some message =>
      let? '(db', stored) := persist_terminal_message d message db in
      match stored with
      | Some _ => Ok (db', stored)
      | None =>
          Ok (match project_message message with
              | Some event => persist_event d event db
              | None => (db, None)
              end)
      end
  end.
End projection.

(** ** The loop of [main.rs] *)

Definition outcome_text (o : ApprovalOutcome) : str :=
  match o with
  | Accepted => lit "accepted"
  | Declined => lit "declined"
  | OutcomeAnswered => lit "answered"
  | OutcomeCancelled => lit "cancelled"
  end.

Section bridge.
Context `{JT : !JsonText} `{F64 : !Float64}.
Context (show_uuid : Uuid → str) (parse_url : str → option Url).

Definition safe_maps_credential_url (value : str) : option str :=
  parsed ← parse_url value;
  if negb (seqb (url_scheme parsed) (lit "http")) || negb (bool_decide (url_host parsed = Some (lit "127.0.0.1"))) ||
     bool_decide (url_port parsed = None) || negb (seqb (url_username parsed) []) ||
     bool_decide (is_Some (url_password parsed)) || bool_decide (is_Some (url_query parsed)) ||
     bool_decide (is_Some (url_fragment parsed)) || (byte_len (url_path parsed) <=? 1)
  then None else Some value.

(** [serde_json::from_slice] of a frame without its [data: ] and its empty line; bytes that
    are no UTF-8 are no JSON. *)
Definition frame_text (frame : list N) : option str :=
  match from_utf8 frame with Ok text => Some text | Err _ => None end.

Definition frame_envelope (frame : list N) : option Json :=
  text ← frame_text frame;
  payload ← strip_prefix (lit "data: ") text ≫= strip_suffix [nl; nl];
  json_from_str payload.

Definition frame_runtime_instance_id (frame : list N) : option Uuid :=
  envelope ← frame_envelope frame;
  value ← (get (lit "params") envelope ≫= get (lit "runtime_instance_id")) ≫= as_str;
  parse_uuid value.

Definition frame_message (envelope : Json) : option Fields :=
  (get (lit "params") envelope ≫= get (lit "message")) ≫= as_object.

(** [Err] is a frame that is logged and dropped. *)
Definition runtime_resolved_request (frame : list N) : result (option (str * Json)) unit :=
  match frame_envelope frame with
  | None => Err tt
  | Some envelope =>
      match frame_message envelope with
      | None => Ok None
      | Some message =>
          if negb (bool_decide (field_str message (lit "method") = Some (lit "serverRequest/resolved"))) then Ok None
          else match assoc (lit "params") message ≫= as_object with
               | None => Err tt
               | Some params =>
                   match field_str params (lit "threadId"), assoc (lit "requestId") params with
                   | Some thread_id, Some request_id =>
                       if negb (seqb thread_id []) && valid_request_id request_id then Ok (Some (thread_id, request_id))
                       else Err tt
                   | _, _ => Err tt
                   end
               end
      end
  end.

(** [data: ... ] with the JSON of a message to browsers. *)
Definition public_frame (envelope : Json) (method : str) (params : Fields) : list N :=
  let public :=
    JObject [(lit "method", JString (lit "app-server-event"));
             (lit "params", JObject
               [(lit "message", JObject [(lit "method", JString method); (lit "params", JObject params)]);
                (lit "workspace_id", default JNull (get (lit "params") envelope ≫= get (lit "workspace_id")))])] in
  encode (lit "data: " ++ json_to_string public ++ [nl; nl]).

Definition insert_some (key : str) (value : option str) (o : Fields) : Fields :=
  match value with Some v => obj_insert key (JString v) o | None => o end.

Definition public_resolved_approval_frame (envelope : Json) (resolved : ResolvedApproval) : list N :=
  public_frame envelope (lit "serverRequest/resolved")
    (insert_some (lit "itemId") (resolved_item resolved)
      (insert_some (lit "turnId") (resolved_turn resolved)
        [(lit "approvalStatus", JString (outcome_text (resolved_outcome resolved)));
         (lit "requestId", JString (show_uuid (resolved_approval resolved)));
         (lit "threadId", JString (resolved_thread resolved))])).

(** The parameters of a request for approval that browsers may see. *)
Definition public_request_params (request_method : str) (params : Json) : Fields :=
  let shown := copy_keys params [lit "threadId"; lit "turnId"; lit "itemId"; lit "reason"; lit "startedAtMs"] [] in
  let shown := if seqb request_method COMMAND_APPROVAL then copy_keys params [lit "command"] shown else shown in
  let shown :=
    if seqb request_method MCP_ELICITATION_REQUEST then
      insert_some (lit "url") ((get (lit "url") params ≫= as_str) ≫= safe_maps_credential_url)
        (copy_keys params [lit "serverName"; lit "mode"; lit "message"; lit "requestedSchema"] shown)
    else shown in
  if seqb request_method USER_INPUT_REQUEST then copy_keys params [lit "questions"; lit "autoResolutionMs"] shown else shown.

Definition public_approval_frame (envelope : Json) (approval_id : Uuid) : option (list N) :=
  message ← frame_message envelope;
  request_method ← field_str message (lit "method");
  params ← assoc (lit "params") message ≫= as_object;
  thread_id ← field_str params (lit "threadId");
  let request_params := public_request_params request_method (JObject params) in
  let or_null v := default JNull v in
  Some (public_frame envelope (lit "platform/approvalRequested")
    [(lit "approvalId", JString (show_uuid approval_id)); (lit "itemId", or_null (assoc (lit "itemId") request_params));
     (lit "requestMethod", JString request_method); (lit "requestParams", JObject request_params);
     (lit "threadId", JString thread_id); (lit "turnId", or_null (assoc (lit "turnId") request_params))]).

(** One turn of the loop up to the frame that is stored and sent: the requests of earlier
    runtimes are cancelled once, resolutions and requests for approval go through the
    service and are replaced by what browsers may see.  Every call is a transaction. *)
Definition prepare_frame (key : str) (now : Timestamp) (fresh : Uuid) (data : list N) (reconciled : option Uuid) (db : Db) :
    option Uuid * Db * option (list N) :=
  match frame_runtime_instance_id data, frame_envelope data, frame_text data with
  | Some runtime, Some envelope, Some text =>
      let db := if bool_decide (reconciled = Some runtime) then db else fst (cancel_stale_runtime_requests key now runtime db) in
      let reconciled := Some runtime in
      match runtime_resolved_request data with
      | Err _ => (reconciled, db, None)
      | Ok (Some (thread, request)) =>
          match resolve_runtime_request key now runtime thread request db with
          | (db, Ok (Some resolved)) => (reconciled, db, Some (public_resolved_approval_frame envelope resolved))
          | (db, _) => (reconciled, db, None)
          end
      | Ok None =>
          match capture_event_frame key now fresh text db with
          | (db, Err _) => (reconciled, db, None)
          | (db, Ok (Some approval_id)) => (reconciled, db, public_approval_frame envelope approval_id)
          | (db, Ok None) => (reconciled, db, Some data)
          end
      end
  | _, _, _ => (reconciled, db, None)
  end.
End bridge.

(** ** Replay: [list_task_events] *)

Definition event_organization (db : EventDb) (e : RunEvent) : option Uuid :=
  row ← runs (run_db db) !! row_run e; Some (order_organization (order row)).

(** [JOIN runs r ON r.id = e.run_id WHERE r.task_id = $1 AND r.organization_id = $2] *)
Definition is_task_event (db : EventDb) (task organization : Uuid) (e : RunEvent) : bool :=
  match runs (run_db db) !! row_run e with
  | Some row => (order_task (order row) =? task)%N && (order_organization (order row) =? organization)%N
  | None => false
  end.

(** [ORDER BY e.sequence ASC] *)
Definition task_events (db : EventDb) (task organization : Uuid) : list RunEvent :=
  sort_by (fun a b => (sequence a <=? sequence b)%Z) (List.filter (is_task_event db task organization) (run_events db)).

(** The database refuses a negative limit. *)
Definition list_task_events (db : EventDb) (task organization : Uuid) (limit after_sequence : option Z) :
    option (list RunEvent) :=
  let limit := Z.min (default 50%Z limit) 200 in
  if (limit <? 0)%Z then None
  else
    let rows := task_events db task organization in
    Some match after_sequence with
    | Some after => take (Z.to_nat limit) (List.filter (fun e => (after <? sequence e)%Z) rows)
    | None => drop (length rows - Z.to_nat limit) rows
    end.

(** ** The live channel *)

Definition EVENT_BUS_CAPACITY : nat := N.to_nat 1024.

Inductive SocketMessage := MsgReady | MsgEvent (payload : str) | MsgResyncRequired.

(** A connection: its receiver on the bus, which lost messages if it lagged behind, and what
    was written to its socket. *)
Record Connection := mkConn {
  conn_organization : Uuid;
  conn_queue : list LiveEvent;
  conn_lagged : bool;
  conn_sent : list SocketMessage
}.

(** [event_bus.send]: a receiver that is a capacity behind loses its oldest message. *)
Definition receive (e : LiveEvent) (c : Connection) : Connection :=
  let queue := conn_queue c ++ [e] in
  if EVENT_BUS_CAPACITY <? length queue
  then mkConn (conn_organization c) (drop 1 queue) true (conn_sent c)
  else mkConn (conn_organization c) queue (conn_lagged c) (conn_sent c).

(** One turn of the loop of [serve] with an event or the news that some were lost. *)
Definition serve_event (c : Connection) : Connection :=
  if conn_lagged c then mkConn (conn_organization c) (conn_queue c) false (conn_sent c ++ [MsgResyncRequired])
  else match conn_queue c with
       | [] => c
       | e :: queue =>
           mkConn (conn_organization c) queue false
             (if (live_organization e =? conn_organization c)%N then conn_sent c ++ [MsgEvent (live_payload e)] else conn_sent c)
       end.

(** ** [routes/artifacts.rs] *)

Definition MAX_MCP_RESOURCE_BYTES : Z := (128 * 1024 * 1024)%Z.

Record AuthenticatedUser := mkUser { user_id : Uuid; user_organization : Uuid; user_role : str }.

Inductive ReadError := ReadNotFound | ReadTooLarge | ReadBadGateway.

Definition reply_of_id (db : EventDb) (id run : Uuid) : option (ReplyKey * ReplyArtifact) :=
  find_first (fun '((run', _, _, _), r) => (run' =? run)%N && (reply_id r =? id)%N) (map_to_list (replies db)).

(** The first statement: a row that the user may read. *)
Definition readable_artifact (db : EventDb) (user : AuthenticatedUser) (run id : Uuid) : option (ReplyKey * ReplyArtifact) :=
  '(key, r) ← reply_of_id db id run;
  row ← runs (run_db db) !! run;
  ws ← workspace_id (progress row);
  workspace ← workspaces (run_db db) !! ws;
  if (reply_organization r =? user_organization user)%N && (order_organization (order row) =? user_organization user)%N &&
     (workspace_organization workspace =? user_organization user)%N && negb (bool_decide (reply_state r = ReplyFailed)) &&
     negb (bool_decide (workspace_state workspace = WRetired)) &&
     (bool_decide (requested_by (order row) = Some (user_id user)) || existsb (seqb (user_role user)) [lit "owner"; lit "admin"])
  then Some (key, r) else None.

(** The content of a resource in the runtime's answer. *)
Definition resource_bytes (base64_decode : str → option (list N)) (response : Json) (expected_uri : str) :
    option (list N) :=
  contents ← get (lit "contents") response ≫= as_array;
  content ← find_first (fun content => bool_decide (get (lit "uri") content ≫= as_str = Some expected_uri)) contents;
  if match get (lit "mimeType") content ≫= as_str with
     | None => true
     | Some m => existsb (seqb m) JSON_MIME_TYPES
     end
  then match get (lit "text") content ≫= as_str with
       | Some text => Some (encode text)
       | None => blob ← get (lit "blob") content ≫= as_str; base64_decode blob
       end
  else None.

(** The last statement: [UPDATE reply_artifacts SET content = $1, ..., state = 'ready' ... WHERE ... state = 'pending'] *)
Definition store_content (key : ReplyKey) (bytes : list N) (db : EventDb) : EventDb :=
  set_replies (alter (fun r =>
    if bool_decide (reply_state r = ReplyPending)
    then mkReply (reply_id r) (reply_organization r) (reply_turn r) (reply_producer r) (reply_mime r) (reply_size r)
           (Some bytes) ReplyReady
    else r) key (replies db)) db.

(** What is fetched from the runtime, when nothing is stored; the response is an argument. *)
Definition fetch_content (base64_decode : str → option (list N)) (key : ReplyKey) (r : ReplyArtifact) (response : option Json) :
    result (list N) ReadError :=
  let? _ :=
    match reply_size r with
    | Some size => if (size <? 0)%Z || (MAX_MCP_RESOURCE_BYTES <? size)%Z then Err ReadTooLarge else Ok tt
    | None => Ok tt
    end in
  match response with
  | None => Err ReadBadGateway
  | Some response =>
      match resource_bytes base64_decode response (snd key) with
      | None => Err ReadBadGateway
      | Some bytes => if (MAX_MCP_RESOURCE_BYTES <? Z.of_nat (length bytes))%Z then Err ReadTooLarge else Ok bytes
      end
  end.

(** What is shown of the bytes. *)
Definition artifact_value `{JsonText} (r : ReplyArtifact) (bytes : list N) : result Json ReadError :=
  if (MAX_MCP_RESOURCE_BYTES <? Z.of_nat (length bytes))%Z then Err ReadTooLarge
  else if negb (existsb (seqb (default (lit "application/geo+json") (reply_mime r))) JSON_MIME_TYPES) then Err ReadBadGateway
  else match from_utf8 bytes with
       | Err _ => Err ReadBadGateway
       | Ok text =>
           match json_from_str text with
           | Some value => if valid_geojson_root value then Ok value else Err ReadBadGateway
           | None => Err ReadBadGateway
           end
       end.

(** A request that nothing disturbs; [response] is the answer of the runtime. *)
Definition read_artifact `{JsonText} (base64_decode : str → option (list N)) (user : AuthenticatedUser) (run id : Uuid)
    (response : option Json) (db : EventDb) : EventDb * result Json ReadError :=
  match readable_artifact db user run id with
  | None => (db, Err ReadNotFound)
  | Some (key, r) =>
      match reply_content r with
      | Some bytes => (db, artifact_value r bytes)
      | None =>
          match fetch_content base64_decode key r response with
          | Err e => (db, Err e)
          | Ok bytes => (store_content key bytes db, artifact_value r bytes)
          end
      end
  end.

(** ** Deleting a project: [routes/projects.rs]

    The foreign keys of the tables ([migrations/]) delete with a project its tasks, their runs and
    what belongs to these, and clear the columns that refer to a deleted run or workspace.  The
    workspace of a run is one of the run's project. *)

Inductive DeleteError := DeleteForbidden | DeleteNotFound.

Definition task_in (project : Uuid) (db : RunDb) (task : Uuid) : bool :=
  match tasks db !! task with Some t => (task_project t =? project)%N | None => false end.

Definition run_in (project : Uuid) (db : RunDb) (run : Uuid) : bool :=
  match runs db !! run with Some row => task_in project db (order_task (order row)) | None => false end.

Definition workspace_in (project : Uuid) (db : RunDb) (workspace : Uuid) : bool :=
  match workspaces db !! workspace with Some w => run_in project db (workspace_run w) | None => false end.

(** [ON DELETE SET NULL] *)
Definition null_if (gone : Uuid → bool) (id : option Uuid) : option Uuid :=
  match id with Some x => if gone x then None else id | None => None end.

Definition clear_references (gone_run gone_workspace : Uuid → bool) (row : RunRow) : RunRow :=
  let o := order row in
  let p := progress row in
  mkRunRow
    (mkOrder (order_organization o) (order_task o) (requested_by o) (requested_profile_id o) (source_ref o) (idempotency_key o)
       (workspace_kind o) (workspace_name o) (null_if gone_run (workspace_parent_run_id o)) (null_if gone_run (workspace_group_run_id o))
       (workspace_copy_agents_md o) (fork_thread_id o) (null_if gone_run (fork_source_run_id o)) (run_created_at o))
    (mkProgress (status p) (codex_thread_id p) (active_turn_id p) (null_if gone_workspace (workspace_id p)) (attempt p)
       (failure_code p) (lease p)).

Definition delete_runs_of (project : Uuid) (db : RunDb) : RunDb :=
  let gone_run := run_in project db in
  let gone_workspace := workspace_in project db in
  mkRunDb (filter (fun x => negb (task_in project db (fst x))) (tasks db)) (delete project (projects db)) (profile_rows db)
    (clear_references gone_run gone_workspace <$> filter (fun x => negb (gone_run (fst x))) (runs db))
    (filter (fun x => negb (gone_workspace (fst x))) (workspaces db))
    (filter (fun x => negb (gone_workspace (fst x))) (jobs db)).

Definition delete_cascade (project : Uuid) (db : EventDb) : EventDb :=
  let gone := run_in project (run_db db) in
  mkEventDb (delete_runs_of project (run_db db)) (filter (fun x => negb (task_in project (run_db db) (fst x))) (titles db))
    (List.filter (fun e => negb (gone (row_run e))) (run_events db)) (next_sequence db)
    (filter (fun x => negb (gone (fst (fst (fst (fst x)))))) (replies db))
    (filter (fun x => negb (gone (fst (fst x)))) (inlines db))
    (filter (fun x => negb (gone (terminal_run (snd x)))) (terminals db)).

Definition delete_project (user : AuthenticatedUser) (id : Uuid) (db : EventDb) : EventDb * result unit DeleteError :=
  if negb (existsb (seqb (user_role user)) [lit "owner"; lit "admin"]) then (db, Err DeleteForbidden)
  else match projects (run_db db) !! id with
       | Some p =>
           if (project_organization p =? user_organization user)%N then (delete_cascade id db, Ok tt) else (db, Err DeleteNotFound)
       | None => (db, Err DeleteNotFound)
       end.

(** ** The whole as a transition system

    The bridge holds at most one event that is stored and not yet sent. *)

Record Live := mkLiveSystem {
  live_db : EventDb;
  live_tokens : gset Uuid;
  live_bridge : option (Uuid * RunEvent);
  live_conns : gmap nat Connection
}.

Definition set_next_sequence (n : Z) (db : EventDb) : EventDb :=
  mkEventDb (run_db db) (titles db) (run_events db) n (replies db) (inlines db) (terminals db).

Definition open_terminal (process : str) (t : TerminalSession) (db : EventDb) : EventDb :=
  mkEventDb (run_db db) (titles db) (run_events db) (next_sequence db) (replies db) (inlines db)
    (<[process := t]> (terminals db)).

Section system.
Context `{JT : !JsonText} `{F64 : !Float64} `{GC : !GitChecks}.
Context (show_uuid : Uuid → str) (base64_decode : str → option (list N)) (show_time : Timestamp → str).

Definition to_live (o : Uuid) (e : RunEvent) : LiveEvent := mkLive o (live_text show_uuid show_time e).

(** A connection that is closed is one that is not served any more.  These are the steps as long as
    no project is deleted; [platform_step] has the deletions too. *)
Inductive live_step : Live → Live → Prop :=
| live_persist d data db db' tokens conns stored :
    persist_frame show_uuid base64_decode d data db = Ok (db', stored) →
    live_step (mkLiveSystem db tokens None conns) (mkLiveSystem db' tokens stored conns)
| live_send db tokens conns o e :
    live_step (mkLiveSystem db tokens (Some (o, e)) conns) (mkLiveSystem db tokens None (receive (to_live o e) <$> conns))
| live_subscribe db tokens b conns i o :
    conns !! i = None →
    live_step (mkLiveSystem db tokens b conns) (mkLiveSystem db tokens b (<[i := mkConn o [] false [MsgReady]]> conns))
| live_serve db tokens b conns i c :
    conns !! i = Some c →
    live_step (mkLiveSystem db tokens b conns) (mkLiveSystem db tokens b (<[i := serve_event c]> conns))
| live_skip db tokens b conns n :  (** the sequence of a transaction that was rolled back *)
    (next_sequence db ≤ n)%Z →
    live_step (mkLiveSystem db tokens b conns) (mkLiveSystem (set_next_sequence n db) tokens b conns)
| live_runs db tokens b conns w' :
    rstep (mkRunWorld (run_db db) tokens) w' →
    live_step (mkLiveSystem db tokens b conns) (mkLiveSystem (set_run_db (fun _ => rdb w') db) (used w') b conns)
| live_terminal db tokens b conns process t row :
    runs (run_db db) !! terminal_run t = Some row → order_organization (order row) = terminal_organization t →
    live_step (mkLiveSystem db tokens b conns) (mkLiveSystem (open_terminal process t db) tokens b conns)
| live_store db tokens b conns key bytes :
    live_step (mkLiveSystem db tokens b conns) (mkLiveSystem (store_content key bytes db) tokens b conns).

Definition delete_step (user : AuthenticatedUser) (id : Uuid) (s : Live) : Live :=
  mkLiveSystem (fst (delete_project user id (live_db s))) (live_tokens s) (live_bridge s) (live_conns s).

Inductive platform_step : Live → Live → Prop :=
| platform_live s s' : live_step s s' → platform_step s s'
| platform_delete user id s : platform_step s (delete_step user id s).

(** The same without the deletion of the project of a run. *)
Inductive sparing_step (run : Uuid) : Live → Live → Prop :=
| sparing_live s s' : live_step s s' → sparing_step run s s'
| sparing_delete user id s : run_in id (run_db (live_db s)) run = false → sparing_step run s (delete_step user id s).
End system.
