(* ===== verification/EventBridgeFacts.v ===== *)
(** * Events reach browsers: all of them, in order, and only those they may see *)

From S2P Require Import Prelude RustStr ResponseModel Approval WorldState Projection GitSource RunScheduler RunSchedulerFacts EventBridge.
Open Scope nat_scope.
#[local] Arguments lit _ : simpl never.
#[local] Opaque MAX_TERMINAL_BYTES EVENT_BUS_CAPACITY.

Lemma StronglySorted_snoc {A} (R : A → A → Prop) l x :
  StronglySorted R l → Forall (fun y => R y x) l → StronglySorted R (l ++ [x]).
Proof.
  induction 1 as [|y l Hl IH Hy]; intros Hx; cbn; [repeat constructor|]. apply Forall_cons in Hx as [Hyx Hx].
  constructor; [by apply IH|]. apply Forall_app. split; [done|by repeat constructor].
Qed.

Lemma StronglySorted_weaken {A} (R S : A → A → Prop) l : (∀ x y, R x y → S x y) → StronglySorted R l → StronglySorted S l.
Proof. intros H. induction 1 as [|x l _ IH Hx]; constructor; [done|]. eapply Forall_impl; [exact Hx|auto]. Qed.

(** ** Columns that never change *)

(** Every run keeps the columns it was enqueued with. *)
Definition keeps_orders (d d' : RunDb) : Prop :=
  ∀ id row, runs d !! id = Some row → ∃ row', runs d' !! id = Some row' ∧ order row' = order row.

#[export] Instance keeps_orders_preorder : PreOrder keeps_orders.
Proof.
  split; [intros d id row H; by exists row|]. intros d1 d2 d3 H1 H2 id row (row' & Hr & Ho)%H1.
  destruct (H2 _ _ Hr) as (row'' & ? & ?). exists row''. split; [done|congruence].
Qed.

Section facts.
Context `{GC : !GitChecks}.

Lemma rstep_keeps_orders w w' : rstep w w' → keeps_orders (rdb w) (rdb w').
Proof.
  intros Hs id row Hr. destruct (rstep_outcome w w' id Hs) as [E|[[E _]|(r & p' & E & E' & _)]].
  - exists row. by rewrite E.
  - congruence.
  - assert (r = row) as -> by congruence. by eexists.
Qed.

Lemma rstep_keeps d d' : (∀ u, rstep (mkRunWorld d u) (mkRunWorld d' u)) → keeps_orders d d'.
Proof. intros H. exact (rstep_keeps_orders _ _ (H ∅)). Qed.

(** ** What storing a frame changes *)

(** A terminal belongs to the organization of its run. *)
Definition terminals_ok (db : EventDb) : Prop :=
  ∀ process t, terminals db !! process = Some t →
    ∃ row, runs (run_db db) !! terminal_run t = Some row ∧ order_organization (order row) = terminal_organization t.

(** The log of events is untouched, and what it refers to is still there. *)
Record log_kept (db db' : EventDb) : Prop := mkKept {
  kept_events : run_events db' = run_events db;
  kept_sequence : next_sequence db' = next_sequence db;
  kept_orders : keeps_orders (run_db db) (run_db db');
  kept_terminals : terminals_ok db → terminals_ok db'
}.

#[export] Instance log_kept_preorder : PreOrder log_kept.
Proof.
  split; [by intros db; split|]. intros d1 d2 d3 [] []. split; [congruence|congruence|by etransitivity|auto].
Qed.

Lemma keeps_terminals db db' : keeps_orders (run_db db) (run_db db') → terminals db' = terminals db →
  terminals_ok db → terminals_ok db'.
Proof.
  intros Hk E Hok process t. rewrite E. intros (row & Hr & Ho)%Hok. destruct (Hk _ _ Hr) as (row' & ? & Heq).
  exists row'. split; [done|congruence].
Qed.

Lemma set_run_db_kept f db : keeps_orders (run_db db) (f (run_db db)) → log_kept db (set_run_db f db).
Proof. intros Hk. split; [done..|]. by apply keeps_terminals. Qed.

Lemma other_tables_kept titles' replies' inlines' db :
  log_kept db (mkEventDb (run_db db) titles' (run_events db) (next_sequence db) replies' inlines' (terminals db)).
Proof. by split. Qed.

Lemma apply_lifecycle_kept event run db : log_kept db (apply_lifecycle event run db).
Proof.
  unfold apply_lifecycle, set_title. repeat case_match; try done; try apply other_tables_kept;
    apply set_run_db_kept, rstep_keeps; intros u; econstructor.
Qed.

Lemma close_terminal_kept process failed db : log_kept db (close_terminal process failed db).
Proof.
  split; [done..|]. intros Hok process' t. cbn [terminals close_terminal run_db]. intros Ht.
  apply lookup_alter_Some in Ht as [(<- & t' & Ht & ->)|[_ Ht]]; [|by eapply Hok]. by apply (Hok process t').
Qed.
End facts.

Section projection_facts.
Context `{JT : !JsonText} `{F64 : !Float64} `{GC : !GitChecks}.
Context (show_uuid : Uuid → str) (base64_decode : str → option (list N)) (show_time : Timestamp → str).

Lemma register_reply_artifacts_kept fresh event run o db : log_kept db (register_reply_artifacts fresh event run o db).
Proof.
  unfold register_reply_artifacts. generalize (Projection.reply_artifacts event) as l. intros l.
  repeat case_match; try done. revert db. induction l as [|a l IH]; intros db; [done|]. cbn [foldl]. etransitivity; [|apply IH]. apply other_tables_kept.
Qed.

Lemma register_inline_kept event run o db db' :
  register_inline_visualization_artifact show_uuid event run o db = Ok db' → log_kept db db'.
Proof.
  unfold register_inline_visualization_artifact. case_match; [by intros [= <-]|].
  destruct (inline_artifact event), (event_turn event), (event_item event); try (by intros [= <-]).
  intros (payload & _ & Hr)%rbind_ok. repeat case_match; simplify_eq; [done|apply other_tables_kept].
Qed.

Lemma artifact_stage_kept failed fresh event run o db db' payload :
  artifact_stage show_uuid failed fresh event run o db = Ok (db', payload) → log_kept db db'.
Proof.
  unfold artifact_stage. case_match; [done|]. intros (db1 & H1 & [= <- <-])%rbind_ok.
  etransitivity; [apply register_reply_artifacts_kept|by eapply register_inline_kept].
Qed.

(** One event of the organization [o] was added to the log. *)
Record log_grown (db db' : EventDb) (o : Uuid) (e : RunEvent) : Prop := mkGrown {
  grown_events : run_events db' = run_events db ++ [e];
  grown_sequence : sequence e = next_sequence db;
  grown_next : next_sequence db' = (next_sequence db + 1)%Z;
  grown_orders : keeps_orders (run_db db) (run_db db');
  grown_terminals : terminals_ok db → terminals_ok db';
  grown_organization : terminals_ok db → event_organization db e = Some o
}.

Lemma insert_grown db1 db2 db3 now id run t thread turn item payload o row e :
  log_kept db1 db2 → runs (run_db db1) !! run = Some row → (terminals_ok db1 → order_organization (order row) = o) →
  insert_event now id run t thread turn item payload db2 = (db3, e) → ∀ db4, log_kept db3 db4 → log_grown db1 db4 o e.
Proof.
  intros K Hr Ho [= <- <-] db4 K'. destruct K as [K1 K2 K3 K4], K' as [K1' K2' K3' K4']. cbn in *.
  split; cbn; [congruence|congruence|congruence|by etransitivity|auto|].
  intros Hok. unfold event_organization. cbn [row_run]. rewrite Hr. cbn. by rewrite Ho.
Qed.

Lemma run_of_thread_Some thread d id row : run_of_thread thread d = Some (id, row) → runs d !! id = Some row.
Proof.
  unfold run_of_thread. intros [?|Hin]%max_by_elem; [done|].
  apply list_elem_of_In, filter_In in Hin as [Hin _]. apply list_elem_of_In in Hin. by apply elem_of_map_to_list in Hin.
Qed.

Definition stored_ok (db db' : EventDb) (stored : option (Uuid * RunEvent)) : Prop :=
  match stored with None => db' = db | Some (o, e) => log_grown db db' o e end.

Lemma persist_event_spec d event db db' stored :
  persist_event show_uuid d event db = (db', stored) → stored_ok db db' stored.
Proof.
  unfold persist_event. destruct (run_of_thread _ _) as [[run row]|] eqn:Er; [|by intros [= <- <-]].
  apply run_of_thread_Some in Er.
  destruct (match artifact_stage _ _ _ _ _ _ _ with Ok _ => _ | Err _ => _ end) as [db1 payload] eqn:Ea.
  assert (log_kept db db1) as K.
  { destruct (artifact_stage _ _ _ _ _ _ _) as [[db2 p2]|] eqn:Es; simplify_eq/=; [by eapply artifact_stage_kept|done]. }
  destruct (insert_event _ _ _ _ _ _ _ _ db1) as [db2 e] eqn:Ei. intros [= <- <-]. cbn [stored_ok].
  eapply insert_grown; [exact K|exact Er|done|exact Ei|apply apply_lifecycle_kept].
Qed.

Lemma persist_terminal_spec d message db db' stored :
  persist_terminal_message show_uuid base64_decode d message db = Ok (db', stored) → stored_ok db db' stored.
Proof.
  unfold persist_terminal_message. case_match; [by intros [= <- <-]|].
  destruct (string_field _ _ ≫= _) as [[process [session row]]|] eqn:Es; [|by intros [= <- <-]].
  apply bind_Some in Es as (p & _ & Es). apply bind_Some in Es as ([s r] & Ht & [= <- <- <-]).
  unfold terminal_of_process in Ht. apply bind_Some in Ht as (s' & Hs & Ht). apply bind_Some in Ht as (r' & Hr & [= <- <-]).
  intros ([[db1 t] payload] & H1 & H2)%rbind_ok.
  destruct (insert_event _ _ _ _ _ _ _ _ db1) as [db2 e] eqn:Ei. injection H2 as <- <-. cbn [stored_ok].
  eapply (insert_grown db db1); [|exact Hr| |exact Ei|done].
  - repeat case_match; simplify_eq; [done|]. apply close_terminal_kept.
  - intros Hok. destruct (Hok _ _ Hs) as (row & Hrow & Ho). congruence.
Qed.

Lemma persist_frame_spec d data db db' stored :
  persist_frame show_uuid base64_decode d data db = Ok (db', stored) → stored_ok db db' stored.
Proof.
  unfold persist_frame. intros ([message|] & _ & H)%rbind_ok; [|by injection H as <- <-].
  apply rbind_ok in H as ([db1 stored1] & H1 & H). destruct stored1 as [x|].
  - injection H as <- <-. by eapply persist_terminal_spec.
  - destruct (project_message message) as [event|]; [|by injection H as <- <-].
    apply Ok_inj in H. by eapply persist_event_spec.
Qed.
End projection_facts.

Section system_facts.
Context `{JT : !JsonText} `{F64 : !Float64} `{GC : !GitChecks}.
Context (show_uuid : Uuid → str) (base64_decode : str → option (list N)) (show_time : Timestamp → str).
Abbreviation step := (live_step show_uuid base64_decode show_time).
Abbreviation text := (live_text show_uuid show_time).

(** ** Connections *)

(** Stored and not yet sent. *)
Definition pending (s : Live) : list RunEvent := match live_bridge s with Some (_, e) => [e] | None => [] end.

Definition event_texts (c : Connection) : list str :=
  omap (fun m => match m with MsgEvent t => Some t | _ => None end) (conn_sent c).

Definition queued (db : EventDb) (e : RunEvent) (l : LiveEvent) : Prop :=
  event_organization db e = Some (live_organization l) ∧ live_payload l = text e.

Definition visible (db : EventDb) (o : Uuid) (e : RunEvent) : bool := bool_decide (event_organization db e = Some o).

(** Nothing was lost, or nobody said so. *)
Definition unbroken (c : Connection) : Prop := conn_lagged c = false ∧ MsgResyncRequired ∉ conn_sent c.

(** A connection that gets the events from position [n] of the log on: those it is done with,
    those that wait for it and those the bridge has not sent yet make up the log. *)
Definition conn_at (n : nat) (db : EventDb) (rest : list RunEvent) (c : Connection) : Prop :=
  n ≤ length (run_events db) - length rest ∧
  ∃ done waiting es,
    drop n (run_events db) = done ++ waiting ++ rest ∧ Forall2 (queued db) waiting (conn_queue c) ∧
    event_texts c = map text es ∧ sublist es (List.filter (visible db (conn_organization c)) done) ∧
    (unbroken c → es = List.filter (visible db (conn_organization c)) done).

Record live_ok (s : Live) : Prop := mkLiveOk {
  ok_sorted : StronglySorted (fun a b => (sequence a < sequence b)%Z) (run_events (live_db s));
  ok_next : Forall (fun e => (sequence e < next_sequence (live_db s))%Z) (run_events (live_db s));
  ok_terminals : terminals_ok (live_db s);
  ok_runs : Forall (fun e => is_Some (event_organization (live_db s) e)) (run_events (live_db s));
  ok_bridge : ∀ o e, live_bridge s = Some (o, e) →
    event_organization (live_db s) e = Some o ∧ last (run_events (live_db s)) = Some e;
  ok_conns : ∀ i c, live_conns s !! i = Some c → ∃ n, conn_at n (live_db s) (pending s) c
}.

(** ** Events keep their organization *)

Lemma event_organization_kept db db' e o : keeps_orders (run_db db) (run_db db') →
  event_organization db e = Some o → event_organization db' e = Some o.
Proof.
  unfold event_organization. intros Hk (row & Hr & [= <-])%bind_Some. destruct (Hk _ _ Hr) as (row' & -> & Ho).
  cbn. by rewrite Ho.
Qed.

Lemma visible_kept db db' o l : keeps_orders (run_db db) (run_db db') →
  Forall (fun e => is_Some (event_organization db e)) l →
  List.filter (visible db' o) l = List.filter (visible db o) l.
Proof.
  intros Hk H. apply List.filter_ext_in. intros e Hin%list_elem_of_In. rewrite Forall_forall in H.
  destruct (H e Hin) as [o' Ho]. unfold visible. rewrite Ho, (event_organization_kept db db' e o') by done. done.
Qed.

Lemma queued_kept db db' l q : keeps_orders (run_db db) (run_db db') → Forall2 (queued db) l q → Forall2 (queued db') l q.
Proof.
  intros Hk H. eapply Forall2_impl; [exact H|]. intros e x [Ho Ht]. split; [by eapply event_organization_kept|done].
Qed.

Lemma conn_at_kept n db db' rest c : Forall (fun e => is_Some (event_organization db e)) (run_events db) →
  run_events db' = run_events db → keeps_orders (run_db db) (run_db db') →
  conn_at n db rest c → conn_at n db' rest c.
Proof.
  intros Hok He Hk (Hn & done & waiting & es & Hd & Hq & Ht & Hs & Hu). split; [by rewrite He|].
  assert (Forall (fun e => is_Some (event_organization db e)) done) as Hdone.
  { apply (Forall_drop _ n) in Hok. rewrite Hd in Hok. by apply Forall_app in Hok as [? _]. }
  exists done, waiting, es. rewrite He, (visible_kept db db') by done. split_and!; try done. by eapply queued_kept.
Qed.

(** ** Growth, sending and serving *)

Lemma conn_at_grown n db db' o e c : Forall (fun e => is_Some (event_organization db e)) (run_events db) →
  log_grown db db' o e → conn_at n db [] c → conn_at n db' [e] c.
Proof.
  intros Hok [He _ _ Hk _ _] Hc. assert (conn_at n (mkEventDb (run_db db') (titles db') (run_events db) (next_sequence db')
    (replies db') (inlines db') (terminals db')) [] c) as (Hn & done & waiting & es & Hd & Hq & Ht & Hs & Hu) by by eapply conn_at_kept.
  cbn [run_events] in Hn, Hd. cbn [length] in Hn. split; [rewrite He, length_app; cbn; lia|].
  exists done, waiting, es. split_and!; try done. rewrite He, drop_app_le by lia. rewrite Hd, !app_nil_r. by rewrite app_assoc.
Qed.

Lemma conn_at_receive n db o e c : event_organization db e = Some o →
  conn_at n db [e] c → conn_at n db [] (receive (to_live show_uuid show_time o e) c).
Proof.
  intros Ho (Hn & done & waiting & es & Hd & Hq & Ht & Hs & Hu). split; [cbn; lia|].
  assert (Forall2 (queued db) (waiting ++ [e]) (conn_queue c ++ [to_live show_uuid show_time o e])) as Hq'.
  { apply Forall2_app; [done|]. repeat constructor; done. }
  unfold receive. case_match; cbn [conn_queue conn_organization].
  - destruct waiting as [|w waiting].
    + exists (done ++ [e]), [], es. apply Forall2_nil_inv_l in Hq. rewrite Hq. cbn [app drop].
      rewrite Hd. cbn [app]. split_and!; [by rewrite app_nil_r|constructor|exact Ht| |by intros [? _]].
      rewrite List.filter_app. by apply sublist_inserts_r.
    + destruct (conn_queue c) as [|x q]; [by apply Forall2_nil_inv_r in Hq|]. apply Forall2_cons in Hq' as [_ Hq'].
      exists (done ++ [w]), (waiting ++ [e]), es. cbn [app drop]. rewrite drop_0, Hd.
      split_and!; [by rewrite <- !app_assoc|exact Hq'|exact Ht| |by intros [? _]].
      rewrite List.filter_app. by apply sublist_inserts_r.
  - exists done, (waiting ++ [e]), es. rewrite Hd. split_and!; [by rewrite app_nil_r|done|exact Ht|done|exact Hu].
Qed.

Lemma conn_at_serve n db rest c : conn_at n db rest c → conn_at n db rest (serve_event c).
Proof.
  intros (Hn & done & waiting & es & Hd & Hq & Ht & Hs & Hu). split; [done|]. unfold serve_event.
  destruct (conn_lagged c) eqn:El.
  - exists done, waiting, es. split_and!; try done.
    + unfold event_texts in *. cbn. rewrite omap_app. cbn. by rewrite app_nil_r.
    + intros [_ Hr]. cbn in Hr. set_solver.
  - destruct (conn_queue c) as [|l q] eqn:Eq.
    { exists done, waiting, es. rewrite Eq. done. }
    inversion Hq as [|e ? waiting' ? [Ho Hp] Hq']; subst. exists (done ++ [e]), waiting'.
    assert (visible db (conn_organization c) e = (live_organization l =? conn_organization c)%N) as Hvis.
    { unfold visible. rewrite Ho. destruct (N.eqb_spec (live_organization l) (conn_organization c));
        [apply bool_decide_eq_true_2|apply bool_decide_eq_false_2]; congruence. }
    rewrite List.filter_app. cbn [List.filter conn_organization]. rewrite Hvis.
    destruct (live_organization l =? conn_organization c)%N.
    + exists (es ++ [e]).
      split_and!; [by rewrite Hd, <- app_assoc|done| | |].
      * unfold event_texts in *. cbn. rewrite omap_app, Ht, map_app. cbn. by rewrite Hp.
      * by apply sublist_app.
      * intros [_ Hr]. cbn in Hr. rewrite Hu; [done|]. split; [done|set_solver].
    + exists es. rewrite app_nil_r.
      split_and!; [by rewrite Hd, <- app_assoc|done|exact Ht|done|]. intros [_ Hr]. apply Hu. by split.
Qed.

(** ** Steps *)

(** Steps of the rest of the server leave the log and the organizations alone. *)
Lemma outside_kept s s' : step s s' →
  (∃ o e, live_bridge s = None ∧ live_bridge s' = Some (o, e) ∧ log_grown (live_db s) (live_db s') o e ∧
          live_conns s' = live_conns s) ∨
  run_events (live_db s') = run_events (live_db s) ∧ (next_sequence (live_db s) ≤ next_sequence (live_db s'))%Z ∧
  keeps_orders (run_db (live_db s)) (run_db (live_db s')) ∧ (terminals_ok (live_db s) → terminals_ok (live_db s')).
Proof.
  destruct 1 as [d data db db' tokens conns stored H|db tokens conns o e|db tokens b conns i o Hi|db tokens b conns i c Hi
    |db tokens b conns n Hn|db tokens b conns w' Hw|db tokens b conns process t row Hr Ho|db tokens b conns key bytes]; cbn.
  - apply persist_frame_spec in H. destruct stored as [[o e]|]; cbn in H; [left; eauto 10|right; by subst].
  - right. done.
  - right. done.
  - right. done.
  - right. done.
  - right. split_and!; [done|done|by apply (rstep_keeps_orders _ _ Hw)|]. apply keeps_terminals; [|done].
    by apply (rstep_keeps_orders _ _ Hw).
  - right. split_and!; [done|done|done|]. intros Hok process' t'. cbn. intros [[<- <-]|[_ Ht]]%lookup_insert_Some; [eauto|].
    by apply (Hok process').
  - right. split_and!; [done|done|done|done].
Qed.

(** A step does to a connection what [receive] or [serve_event] does, or nothing. *)
Lemma conn_step s s' i c n : live_ok s → step s s' → live_conns s !! i = Some c → conn_at n (live_db s) (pending s) c →
  ∃ c', live_conns s' !! i = Some c' ∧ conn_organization c' = conn_organization c ∧ conn_at n (live_db s') (pending s') c'.
Proof.
  intros Hok Hs Hi Hc. pose proof (outside_kept _ _ Hs) as [(o & e & Hb & Hb' & Hg & Hconns)|(He & _ & Hk & _)].
  { exists c. rewrite Hconns. split_and!; [done|done|]. unfold pending in *. rewrite Hb in Hc. rewrite Hb'.
    eapply conn_at_grown; [apply Hok|done|done]. }
  apply (conn_at_kept _ _ (live_db s')) in Hc; [|apply Hok|done|done].
  destruct Hs as [d data db db' tokens conns stored H|db tokens conns o e|db tokens b conns j o Hj|db tokens b conns j c' Hj
    |db tokens b conns m Hm|db tokens b conns w' Hw|db tokens b conns process t row Hr Ho|db tokens b conns key bytes];
    cbn [live_conns live_db] in *; try (by exists c).
  - exists c. split_and!; [done|done|]. destruct stored as [[o e]|]; [|done].
    apply persist_frame_spec in H as [He' _ _ _ _ _]. apply (f_equal length) in He'. rewrite He, length_app in He'. cbn in He'. lia.
  - exists (receive (to_live show_uuid show_time o e) c). rewrite lookup_fmap, Hi. split_and!; [done| |].
    + unfold receive. by case_match.
    + eapply conn_at_receive; [|exact Hc]. by apply (ok_bridge _ Hok).
  - exists c. rewrite lookup_insert_ne by congruence. done.
  - destruct (decide (j = i)) as [->|Hne]; [|exists c; by rewrite lookup_insert_ne].
    rewrite Hi in Hj. injection Hj as <-. exists (serve_event c). rewrite lookup_insert_eq. split_and!; [done| |].
    + unfold serve_event. by repeat case_match.
    + by apply conn_at_serve.
Qed.

Lemma conn_at_new db rest o : (∃ l, run_events db = l ++ rest) →
  conn_at (length (run_events db) - length rest) db rest (mkConn o [] false [MsgReady]).
Proof.
  intros [l El]. split; [done|]. exists [], [], []. rewrite El, length_app, Nat.add_sub, drop_app_length. by split_and!.
Qed.

Lemma pending_suffix s : live_ok s → ∃ l, run_events (live_db s) = l ++ pending s.
Proof.
  intros Hok. unfold pending. destruct (live_bridge s) as [[o e]|] eqn:Eb; [|by eexists; rewrite app_nil_r].
  destruct (ok_bridge _ Hok _ _ Eb) as [_ Hl]. by apply last_Some in Hl.
Qed.

Lemma live_ok_conns s s' : live_ok s → step s s' → ∀ i c, live_conns s' !! i = Some c → ∃ n, conn_at n (live_db s') (pending s') c.
Proof.
  intros Hok Hs i c Hc. destruct (live_conns s !! i) as [c0|] eqn:Ei.
  - destruct (ok_conns _ Hok _ _ Ei) as [n Hn]. destruct (conn_step _ _ _ _ _ Hok Hs Ei Hn) as (c' & Hc' & _ & Hn').
    exists n. congruence.
  - destruct Hs; cbn [live_conns] in *; try congruence.
    + rewrite lookup_fmap, Ei in Hc. done.
    + apply lookup_insert_Some in Hc as [[-> <-]|[_ Hc]]; [|congruence]. eexists. by apply conn_at_new, (pending_suffix _ Hok).
    + apply lookup_insert_Some in Hc as [[-> <-]|[_ Hc]]; congruence.
Qed.

Lemma live_ok_step s s' : live_ok s → step s s' → live_ok s'.
Proof.
  intros Hok Hs. pose proof (live_ok_conns _ _ Hok Hs) as Hconns. pose proof Hok as [Hso Hne Hte Hru Hbr _].
  pose proof (outside_kept _ _ Hs) as [(o & e & Hb & Hb' & [He Hse Hnx Hk Ht Ho] & _)|(He & Hnx & Hk & Ht)].
  - split; [| | | |intros o' e' E|exact Hconns].
    + rewrite He. apply StronglySorted_snoc; [done|]. eapply Forall_impl; [exact Hne|]. cbn. lia.
    + rewrite He. apply Forall_app. split; [eapply Forall_impl; [exact Hne|cbn; lia]|]. repeat constructor. lia.
    + by apply Ht.
    + rewrite He. apply Forall_app. split.
      * eapply Forall_impl; [exact Hru|]. intros x [y Hy]. exists y. by eapply event_organization_kept.
      * repeat constructor. exists o. eapply event_organization_kept; [exact Hk|]. by apply Ho.
    + rewrite Hb' in E. injection E as <- <-. split; [|by rewrite He, last_snoc]. eapply event_organization_kept; [exact Hk|]. by apply Ho.
  - split; [| | | |intros o e E|exact Hconns]; rewrite ?He; [done| |by apply Ht| |].
    + eapply Forall_impl; [exact Hne|]. cbn. lia.
    + eapply Forall_impl; [exact Hru|]. intros x [y Hy]. exists y. by eapply event_organization_kept.
    + assert (live_bridge s = Some (o, e)) as Eb.
      { destruct Hs; cbn in *; try done. destruct stored as [[o' e']|]; [|done]. apply persist_frame_spec in H as [He' _ _ _ _ _].
        apply (f_equal length) in He'. rewrite He, length_app in He'. cbn in He'. lia. }
      destruct (Hbr _ _ Eb) as [Ho Hl]. split; [by eapply event_organization_kept|done].
Qed.

(** ** Runs of the system *)

Lemma live_ok_steps s s' : live_ok s → rtc step s s' → live_ok s'.
Proof. intros Hok. induction 1; eauto using live_ok_step. Qed.

Lemma conn_steps s s' i c n : rtc step s s' → live_ok s → live_conns s !! i = Some c → conn_at n (live_db s) (pending s) c →
  ∃ c', live_conns s' !! i = Some c' ∧ conn_organization c' = conn_organization c ∧ conn_at n (live_db s') (pending s') c'.
Proof.
  intros Hs. revert c. induction Hs as [s|s s1 s2 H1 _ IH]; intros c Hok Hi Hc; [eauto|].
  destruct (conn_step _ _ _ _ _ Hok H1 Hi Hc) as (c1 & Hi1 & Ho1 & Hc1).
  destruct (IH c1) as (c2 & ? & ? & ?); [by eapply live_ok_step|done|done|]. exists c2. split_and!; [done|congruence|done].
Qed.

Lemma log_steps s s' : rtc step s s' →
  (∃ more, run_events (live_db s') = run_events (live_db s) ++ more) ∧ keeps_orders (run_db (live_db s)) (run_db (live_db s')).
Proof.
  induction 1 as [s|s s1 s2 H1 _ [[more IH] IHk]]; [split; [exists []; by rewrite app_nil_r|done]|].
  destruct (outside_kept _ _ H1) as [(o & e & _ & _ & [He _ _ Hk _ _] & _)|(He & _ & Hk & _)]; rewrite He in IH.
  - split; [exists (e :: more); by rewrite IH, <- app_assoc|by etransitivity].
  - split; [eauto|by etransitivity].
Qed.

(** ** Pages *)

Abbreviation before_seq := (fun a b : RunEvent => (sequence a < sequence b)%Z).
Definition after_cursor (cursor : Z) (rows : list RunEvent) : list RunEvent :=
  List.filter (fun e => (cursor <? sequence e)%Z) rows.

Lemma sorted_filter (p : RunEvent → bool) l : StronglySorted before_seq l → StronglySorted before_seq (List.filter p l).
Proof.
  induction 1 as [|x l Hl IH Hx]; cbn; [constructor|]. destruct (p x); [|done]. constructor; [done|].
  apply List.Forall_forall. intros y [Hy _]%filter_In. rewrite List.Forall_forall in Hx. by apply Hx.
Qed.

Lemma task_events_sorted db task o : StronglySorted before_seq (run_events db) →
  task_events db task o = List.filter (is_task_event db task o) (run_events db).
Proof.
  intros H%(sorted_filter (is_task_event db task o)). apply sort_by_id. eapply StronglySorted_weaken; [|exact H].
  intros x y Hxy. apply Z.leb_le, Z.lt_le_incl, Hxy.
Qed.

Lemma after_split a e b : StronglySorted before_seq (a ++ e :: b) → after_cursor (sequence e) (a ++ e :: b) = b.
Proof.
  induction a as [|x a IH]; cbn [app]; intros [Hl Hx]%StronglySorted_inv; unfold after_cursor in *; cbn [List.filter].
  - rewrite (proj2 (Z.ltb_ge _ _)) by lia. induction Hx as [|y b Hy _ IHb]; [done|]. cbn.
    rewrite (proj2 (Z.ltb_lt _ _)) by lia. f_equal. apply IHb. by apply StronglySorted_inv in Hl as [? _].
  - apply Forall_app in Hx as [_ [Hxe _]%Forall_cons]. rewrite (proj2 (Z.ltb_ge _ _)) by lia. by apply IH.
Qed.

(** A later cursor looks only at what an earlier one sees. *)
Lemma after_after c c' rows : (c < c')%Z → after_cursor c' rows = after_cursor c' (after_cursor c rows).
Proof.
  intros Hc. unfold after_cursor. induction rows as [|x rows IH]; [done|]. cbn.
  destruct (Z.ltb_spec c (sequence x)), (Z.ltb_spec c' (sequence x)) as [Hx|Hx]; cbn; try lia; rewrite ?IH; try done.
  - by rewrite (proj2 (Z.ltb_lt _ _) Hx).
  - by rewrite (proj2 (Z.ltb_ge _ _) Hx).
Qed.

(** The rest of the rows, from the last one of a page. *)
Lemma page_rest rows cursor k e : StronglySorted before_seq rows → last (take k (after_cursor cursor rows)) = Some e →
  after_cursor cursor rows = take k (after_cursor cursor rows) ++ after_cursor (sequence e) rows.
Proof.
  intros Hr [l' Hl]%last_Some. rewrite <- (take_drop k (after_cursor cursor rows)) at 1. f_equal.
  assert (after_cursor cursor rows = l' ++ e :: drop k (after_cursor cursor rows)) as Hsplit.
  { rewrite <- (take_drop k (after_cursor cursor rows)) at 1. by rewrite Hl, <- app_assoc. }
  rewrite (after_after cursor (sequence e)).
  - pose proof (after_split l' e (drop k (after_cursor cursor rows))) as Hafter. rewrite <- Hsplit in Hafter.
    symmetry. apply Hafter. by apply sorted_filter.
  - assert (e ∈ after_cursor cursor rows) as Hin by (rewrite Hsplit; set_solver).
    apply list_elem_of_In, filter_In in Hin as [_ Hin]. lia.
Qed.

(** A client that asks for page after page, until one is empty. *)
Fixpoint read_pages (fuel : nat) (db : EventDb) (task o : Uuid) (limit : Z) (cursor : Z) : list RunEvent :=
  match fuel with
  | O => []
  | S fuel =>
      match list_task_events db task o (Some limit) (Some cursor) with
      | Some page =>
          match last page with
          | Some e => page ++ read_pages fuel db task o limit (sequence e)
          | None => []
          end
      | None => []
      end
  end.

Lemma read_pages_complete fuel db task o limit cursor : StronglySorted before_seq (run_events db) → (1 ≤ limit)%Z →
  length (after_cursor cursor (task_events db task o)) < fuel →
  read_pages fuel db task o limit cursor = after_cursor cursor (task_events db task o).
Proof.
  intros Hs Hl. assert (StronglySorted before_seq (task_events db task o)) as Hr.
  { rewrite task_events_sorted by done. by apply sorted_filter. }
  revert cursor. induction fuel as [|fuel IH]; intros cursor Hf; [lia|]. cbn [read_pages]. unfold list_task_events.
  change (default 50%Z (Some limit)) with limit. rewrite (proj2 (Z.ltb_ge (Z.min limit 200) 0)) by lia. fold (after_cursor cursor (task_events db task o)).
  set (k := Z.to_nat (Z.min limit 200)). assert (1 ≤ k) as Hk by lia.
  destruct (last (take k (after_cursor cursor (task_events db task o)))) as [e|] eqn:El.
  - pose proof (page_rest _ _ _ _ Hr El) as Hrest. rewrite IH; [by rewrite <- Hrest|].
    apply last_Some in El as [l' El]. apply (f_equal length) in Hrest. rewrite El, !length_app in Hrest. cbn in Hrest. lia.
  - apply last_None in El. destruct k; [lia|]. by destruct (after_cursor cursor (task_events db task o)).
Qed.

(** ** Nothing is missed *)

Lemma sublist_List_filter {A} (p : A → bool) l : sublist (List.filter p l) l.
Proof. induction l as [|x l IH]; cbn; [done|]. destruct (p x); by constructor. Qed.

Lemma sorted_sublist es l : StronglySorted before_seq l → sublist es l → StronglySorted before_seq es.
Proof.
  intros Hl Hs. revert Hl. induction Hs as [|x l1 l2 Hs IH|x l1 l2 Hs IH]; intros Hl; [done| |];
    apply StronglySorted_inv in Hl as [Hl Hx]; [|auto]. constructor; [auto|].
  rewrite Forall_forall in *. intros y Hy. by apply Hx, (elem_of_sublist l1).
Qed.

Lemma length_filter_le {A} (p : A → bool) l : length (List.filter p l) ≤ length l.
Proof. induction l as [|x l IH]; cbn; [done|]. destruct (p x); cbn; lia. Qed.

Lemma is_task_event_kept db db' task o e : keeps_orders (run_db db) (run_db db') →
  is_Some (event_organization db e) → is_task_event db' task o e = is_task_event db task o e.
Proof.
  unfold event_organization, is_task_event. intros Hk [x (row & Hr & _)%bind_Some].
  destruct (Hk _ _ Hr) as (row' & -> & Ho). by rewrite Hr, Ho.
Qed.

Lemma task_event_organization db task o e : is_task_event db task o e = true → event_organization db e = Some o.
Proof.
  unfold is_task_event, event_organization. destruct (runs (run_db db) !! row_run e) as [row|]; [|done].
  intros [_ <-%N.eqb_eq]%andb_true_iff. done.
Qed.

Definition fresh_connection (o : Uuid) : Connection := mkConn o [] false [MsgReady].

Lemma live_ok_start db tokens : run_events db = [] → terminals_ok db → live_ok (mkLiveSystem db tokens None ∅).
Proof. intros He Ht. split; cbn; rewrite ?He; try done; constructor. Qed.

(** C2: a browser misses no event and sees no foreign one.  Whatever else the server does, as long
    as no project is deleted, what a connection gets are events of its organization, in the order of their sequence
    numbers; and if a client connects, then reads the events of a task page by page from a
    cursor, and was not told to start over, then each event of the task behind the cursor
    came in a page or over the connection, or waits for it, or is the one that the bridge is
    about to send. *)
Theorem events_reach_clients db tokens s0 s1 s2 i o c task limit cursor fuel :
  run_events db = [] → terminals_ok db → rtc step (mkLiveSystem db tokens None ∅) s0 →
  live_conns s0 !! i = Some (fresh_connection o) → rtc step s0 s1 → rtc step s1 s2 → live_conns s2 !! i = Some c →
  (1 ≤ limit)%Z → length (run_events (live_db s1)) < fuel →
  (∃ es, event_texts c = map text es ∧ StronglySorted before_seq es ∧
     Forall (fun e => e ∈ run_events (live_db s2) ∧ event_organization (live_db s2) e = Some o) es) ∧
  (unbroken c → ∀ e, e ∈ task_events (live_db s2) task o → (cursor < sequence e)%Z →
     e ∈ read_pages fuel (live_db s1) task o limit cursor ∨ text e ∈ event_texts c ∨
     text e ∈ map live_payload (conn_queue c) ∨ live_bridge s2 = Some (o, e)).
Proof.
  intros He Ht H0 Hi H01 H12 Hc Hl Hf. pose proof (live_ok_steps _ _ (live_ok_start db tokens He Ht) H0) as Hok0.
  pose proof (live_ok_steps _ _ Hok0 H01) as Hok1. pose proof (live_ok_steps _ _ Hok1 H12) as Hok2.
  pose proof (conn_at_new _ _ o (pending_suffix _ Hok0)) as Hnew.
  destruct (conn_steps s0 s2 i _ _ (transitivity H01 H12) Hok0 Hi Hnew) as (c' & Hc' & Ho & Hn & done & waiting & es & Hd & Hq & Htx & Hsub & Hu).
  assert (c' = c) as -> by congruence. cbn in Ho. rewrite Ho in *. clear Hc'. split.
  - exists es. assert (sublist es (run_events (live_db s2))) as Hes.
    { etransitivity; [exact Hsub|]. etransitivity; [apply sublist_List_filter|].
      etransitivity; [|apply (sublist_drop _ (length (run_events (live_db s0)) - length (pending s0)))]. rewrite Hd. by apply sublist_inserts_r. }
    split_and!; [done|by eapply sorted_sublist; [apply Hok2|]|].
    apply Forall_forall. intros e He'. split; [by eapply elem_of_sublist|].
    apply (elem_of_sublist _ _ _ He') in Hsub. apply list_elem_of_In, filter_In in Hsub as [_ Hv]. by apply bool_decide_eq_true in Hv.
  - intros Hun e Hin Hcur. rewrite task_events_sorted in Hin by apply Hok2.
    apply list_elem_of_In, filter_In in Hin as [Hin Htask]. apply list_elem_of_In in Hin.
    destruct (log_steps _ _ H12) as [[more Hlog] Hk]. rewrite Hlog, elem_of_app in Hin. destruct Hin as [Hin|Hin].
    + left. pose proof (ok_runs _ Hok1) as Hru. rewrite Forall_forall in Hru.
      rewrite read_pages_complete; [|apply Hok1|done|].
      * apply list_elem_of_In, filter_In. split; [|lia]. rewrite task_events_sorted by apply Hok1. apply filter_In.
        split; [by apply list_elem_of_In|]. by rewrite <- (is_task_event_kept _ (live_db s2)) by auto.
      * rewrite task_events_sorted by apply Hok1. eapply Nat.le_lt_trans; [|exact Hf].
        etransitivity; apply length_filter_le.
    + right. assert (e ∈ drop (length (run_events (live_db s0)) - length (pending s0)) (run_events (live_db s2))) as Hin'.
      { destruct (log_steps _ _ H01) as [[more0 Hlog0] _]. rewrite Hlog, Hlog0, drop_app_le by (rewrite length_app; lia). set_solver. }
      rewrite Hd, !elem_of_app in Hin'. destruct Hin' as [Hin'|[Hin'|Hin']].
      * left. rewrite Htx, Hu by done. apply list_elem_of_In, in_map, filter_In. split; [by apply list_elem_of_In|].
        by apply bool_decide_eq_true_2, (task_event_organization _ task).
      * right. left. apply list_elem_of_lookup in Hin' as [k Hk']. destruct (Forall2_lookup_l _ _ _ _ _ Hq Hk') as (l & Hl' & _ & Hp).
        rewrite <- Hp. apply list_elem_of_In, in_map, list_elem_of_In. by eapply list_elem_of_lookup_2.
      * right. right. unfold pending in Hin'. destruct (live_bridge s2) as [[o' e']|] eqn:Eb; [|set_solver].
        apply list_elem_of_singleton in Hin' as ->. apply (ok_bridge _ Hok2) in Eb as [Hob _].
        apply task_event_organization in Htask. congruence.
Qed.
End system_facts.

(** ** Requests for approval *)

Section approvals_shown.
Context `{JT : !JsonText}.
Context (show_uuid : Uuid → str) (parse_url : str → option Url) (key : str).

Lemma find_approval_Some d p id : find_approval d p = Some id → ∃ a, approvals d !! id = Some a ∧ p a = true.
Proof.
  unfold find_approval. destruct (find_first _ _) as [[id' a]|] eqn:Hf; [|done]. intros [= ->].
  apply find_first_Some in Hf as [Hin%elem_of_map_to_list Hp]. by exists a.
Qed.

(** The row [id] holds the request of a message: it was there before, or it is the new row [fresh],
    pending, with the method, the thread and the parameters of the message. *)
Definition holds_request (fresh runtime : Uuid) (method : str) (request params : Json) (d d' : Db) (id : Uuid) : Prop :=
  ∃ a, approvals d' !! id = Some a ∧ runtime_instance_id a = Some runtime ∧ runtime_request_id a = json_to_string request ∧
    (approvals d !! id = Some a ∨
     id = fresh ∧ request_type a = method ∧ request_payload a = approval_payload method params ∧
     thread_id a = get (lit "threadId") params ≫= as_str ∧ state a = SPending).

Lemma capture_message_spec now fresh runtime message d d' r :
  capture_message key now fresh runtime message d = (d', Ok r) →
  match r with
  | Some id => ∃ method request params, get (lit "method") message ≫= as_str = Some method ∧ handled_method method = true ∧
      get (lit "id") message = Some request ∧ get (lit "params") message = Some params ∧
      holds_request fresh runtime method request params d d' id
  | None => ∀ method, get (lit "method") message ≫= as_str = Some method → handled_method method = false
  end.
Proof.
  unfold capture_message. destruct (get (lit "method") message ≫= as_str) as [method|]; [|by intros [= <- <-]].
  destruct (handled_method method) eqn:Eh; cbn [negb]; [|by intros [= <- <-] m [= <-]].
  destruct (get (lit "id") message) as [request|]; [|done]. destruct (get (lit "params") message) as [params|]; [|done].
  destruct (valid_request_id request); cbn [negb]; [|done].
  destruct (get (lit "threadId") params ≫= as_str) as [thread|] eqn:Eth; [|done]. destruct (seqb thread []); [done|].
  assert (Hnew : ∀ pid organization run, holds_request fresh runtime method request params d
    (with_approvals d (<[fresh := mkApproval run method (approval_payload method params) organization pid (Some thread)
       (Some runtime) (json_to_string request) SPending 0 None None None now]> (approvals d))) fresh).
  { intros pid organization run. eexists. cbn [with_approvals approvals]. split; [apply lookup_insert_eq|]. cbn.
    rewrite Eth. split_and!; [done|done|by right]. }
  destruct (find_approval d (fun a => match row_profile key d a with Some _ => _ | None => false end)) as [id|] eqn:Ef.
  - apply find_approval_Some in Ef as (a & Ha & Hp). destruct (row_profile key d a) as [owner|]; [|done].
    apply andb_true_iff in Hp as [Hrt%bool_decide_eq_true Hrq%seqb_eq].
    assert (Hold : holds_request fresh runtime method request params d d id) by (exists a; split_and!; [done..|by left]).
    destruct (capture_target key d thread) as [target|]; [|intros [= <- <-]; by exists method, request, params].
    destruct target as [[pid p] run]. case_match; intros [= <- <-]; exists method, request, params; split_and!; (done || apply Hnew).
  - destruct (capture_target key d thread) as [target|]; [|done]. destruct target as [[pid p] run].
    case_match; [done|]. intros [= <- <-]. exists method, request, params. split_and!; (done || apply Hnew).
Qed.

(** What is said of a resolution is what the row has: it is the one of this request, and its state
    is the one that is reported. *)
Definition holds_resolution (runtime : Uuid) (thread : str) (request : Json) (d d' : Db) (resolved : ResolvedApproval) : Prop :=
  ∃ a a', approvals d !! resolved_approval resolved = Some a ∧ approvals d' !! resolved_approval resolved = Some a' ∧
    runtime_instance_id a = Some runtime ∧ thread_id a = Some thread ∧ runtime_request_id a = json_to_string request ∧
    resolved_thread resolved = thread ∧ request_payload a' = request_payload a ∧ is_active (state a') = false ∧
    approval_outcome (state a') = Some (resolved_outcome resolved).

Lemma resolve_runtime_request_spec now runtime thread request d d' resolved :
  resolve_runtime_request key now runtime thread request d = (d', Ok (Some resolved)) →
  holds_resolution runtime thread request d d' resolved.
Proof.
  unfold resolve_runtime_request. case_match; [done|]. case_match; [done|].
  destruct (find_first _ _) as [[id a]|] eqn:Ef; [|done]. apply find_first_Some in Ef as [Hin%elem_of_map_to_list Hp].
  cbn [snd] in Hp. destruct (row_profile key d a); [|done].
  apply andb_true_iff in Hp as [[Hrt%bool_decide_eq_true Ht%bool_decide_eq_true]%andb_true_iff Hrq%seqb_eq]. rewrite Ht.
  destruct (seqb thread []); [done|].
  destruct (resolved_terminal_state (state a) (decision a)) as [st|] eqn:Est.
  - destruct (approval_outcome st) as [outcome|] eqn:Eo; [|done]. intros [= <- <-]. exists a, (settle now st a).
    cbn [resolved_approval resolved_thread resolved_outcome with_approvals approvals]. rewrite lookup_insert_eq.
    split_and!; try done. cbn [settle state]. unfold resolved_terminal_state in Est. case_match; [done|].
    injection Est as <-. by repeat case_match.
  - destruct (approval_outcome (state a)) as [outcome|] eqn:Eo; [|done]. intros [= <- <-]. exists a, a. split_and!; try done.
    unfold resolved_terminal_state in Est. destruct (is_active (state a)); done.
Qed.

Lemma capture_frame_unhandled now fresh data text envelope message method d d' :
  frame_envelope data = Some envelope → frame_text data = Some text → frame_message envelope = Some message →
  field_str message (lit "method") = Some method → capture_event_frame key now fresh text d = (d', Ok None) →
  handled_method method = false.
Proof.
  intros Ee Et Hm Hmethod Hc. unfold frame_envelope in Ee. rewrite Et in Ee. cbn [mbind option_bind] in Ee.
  assert ((strip_prefix (lit "data: ") text ≫= strip_suffix [nl; nl]) ≫= json_from_str = Some envelope) as Hp by exact Ee.
  unfold capture_event_frame in Hc. rewrite Hp in Hc.
  unfold frame_message in Hm. apply bind_Some in Hm as (m & Hm & Ho). destruct m as [| | | | |fields]; try done. injection Ho as ->.
  rewrite Hm in Hc. case_match; [|done]. apply capture_message_spec in Hc. by apply Hc.
Qed.

Lemma capture_frame_stored now fresh data text envelope runtime d d' id public :
  frame_envelope data = Some envelope → frame_text data = Some text → frame_runtime_instance_id data = Some runtime →
  capture_event_frame key now fresh text d = (d', Ok (Some id)) → public_approval_frame show_uuid parse_url envelope id = Some public →
  ∃ message method request params, frame_message envelope = Some message ∧ field_str message (lit "method") = Some method ∧
    handled_method method = true ∧ assoc (lit "id") message = Some request ∧ assoc (lit "params") message = Some params ∧
    holds_request fresh runtime method request params d d' id.
Proof.
  intros Ee Et Hrt Hc Hpub. unfold public_approval_frame in Hpub. apply bind_Some in Hpub as (fields & Hm & _).
  unfold frame_runtime_instance_id in Hrt. rewrite Ee in Hrt. cbn [mbind option_bind] in Hrt.
  unfold frame_envelope in Ee. rewrite Et in Ee. cbn [mbind option_bind] in Ee.
  assert ((strip_prefix (lit "data: ") text ≫= strip_suffix [nl; nl]) ≫= json_from_str = Some envelope) as Hp by exact Ee.
  unfold capture_event_frame in Hc. rewrite Hp in Hc. pose proof Hm as Hm'.
  unfold frame_message in Hm'. apply bind_Some in Hm' as (m & Hm' & Ho). destruct m as [| | | | |fields']; try done. injection Ho as ->.
  assert (((get (lit "params") envelope ≫= get (lit "runtime_instance_id")) ≫= as_str) ≫= parse_uuid = Some runtime) as Hrt' by exact Hrt.
  cbv zeta in Hc. rewrite Hrt', Hm' in Hc.
  apply capture_message_spec in Hc as (method & request & params & Hme & Hh & Hi & Hpa & Hr).
  by exists fields, method, request, params.
Qed.

(** The database once the requests of earlier runtimes are cancelled. *)
Definition reconciled_db (now : Timestamp) (runtime : Uuid) (reconciled : option Uuid) (d : Db) : Db :=
  if bool_decide (reconciled = Some runtime) then d else fst (cancel_stale_runtime_requests key now runtime d).

(** C18: browsers see no request for approval that is not stored.  What the bridge passes on of a
    frame of a runtime is: the public form of the request in it, under the id of a row that holds
    the request (of this runtime and with its number; either a row that was there before or the new
    one, pending, with its method, thread and parameters); or the public form of a resolution, of
    the row of this runtime, thread and request, with the outcome that the row now has; or the frame
    as it came; and a frame that asks for approval or resolves such a request is never passed on as
    it came. *)
Theorem shown_approvals_are_stored now fresh data reconciled d reconciled' d' public :
  prepare_frame show_uuid parse_url key now fresh data reconciled d = (reconciled', d', Some public) →
  ∃ envelope runtime, frame_envelope data = Some envelope ∧ frame_runtime_instance_id data = Some runtime ∧
  let d1 := reconciled_db now runtime reconciled d in
  ((∃ message method request params id, frame_message envelope = Some message ∧
      field_str message (lit "method") = Some method ∧ handled_method method = true ∧
      assoc (lit "id") message = Some request ∧ assoc (lit "params") message = Some params ∧
      holds_request fresh runtime method request params d1 d' id ∧
      public_approval_frame show_uuid parse_url envelope id = Some public) ∨
   (∃ thread request resolved, runtime_resolved_request data = Ok (Some (thread, request)) ∧
      holds_resolution runtime thread request d1 d' resolved ∧
      public = public_resolved_approval_frame show_uuid envelope resolved) ∨
   public = data ∧ ∀ message method, frame_message envelope = Some message → field_str message (lit "method") = Some method →
     handled_method method = false ∧ method ≠ lit "serverRequest/resolved").
Proof.
  unfold prepare_frame. destruct (frame_runtime_instance_id data) as [runtime|] eqn:Ert; [|done].
  destruct (frame_envelope data) as [envelope|] eqn:Ee; [|done]. destruct (frame_text data) as [text|] eqn:Et; [|done].
  fold (reconciled_db now runtime reconciled d). set (d1 := reconciled_db now runtime reconciled d). intros H.
  exists envelope, runtime. split; [done|]. split; [done|]. cbv zeta.
  destruct (runtime_resolved_request data) as [[[thread request]|]|] eqn:Er; [| |done].
  - destruct (resolve_runtime_request key now runtime thread request d1) as [d2 [[resolved|]|]] eqn:Ev; [|done|done].
    injection H as <- <- <-. right. left. exists thread, request, resolved. split_and!; [done|by eapply resolve_runtime_request_spec|done].
  - destruct (capture_event_frame key now fresh text d1) as [d2 [[id|]|]] eqn:Ec; [| |done].
    + injection H as <- <- H. left.
      destruct (capture_frame_stored _ _ _ _ _ _ _ _ _ _ Ee Et Ert Ec H) as (message & method & request & params & Hs).
      exists message, method, request, params, id. naive_solver.
    + injection H as <- <- <-. right. right. split; [done|]. intros message method Hm Hmethod.
      split; [by eapply capture_frame_unhandled|]. intros ->. unfold runtime_resolved_request in Er.
      rewrite Ee, Hm, Hmethod in Er. rewrite bool_decide_eq_true_2 in Er by done. repeat case_match; done.
Qed.
End approvals_shown.

(** ** Samples *)

Module SampleEvents.
Definition envelope : Json :=
  JObject [(lit "method", JString (lit "app-server-event"));
           (lit "params", JObject [(lit "message", JObject
             [(lit "method", JString (lit "turn/started"));
              (lit "params", JObject [(lit "threadId", JString (lit "thread-1")); (lit "turnId", JString (lit "turn-1"))])])])].
#[export] Instance text : JsonText := {|
  json_to_string := fun _ => lit "text"; json_from_str := fun _ => Some envelope; parse_uuid := fun _ => Some 1%N
|}.
#[export] Instance float64 : Float64 := {|
  f64 := unit; as_f64 := fun _ => None; f64_of := fun _ => tt; is_finite := fun _ => true; f64_leb := fun _ _ => true;
  f64_literal := fun _ => lit "0"
|}.
Definition show_uuid (u : Uuid) : str := show_N u.
Definition show_time (_ : Timestamp) : str := lit "now".
Definition base64 (_ : str) : option (list N) := None.

(** A running run 5 of task 3 of organization 7. *)
Definition order5 : RunOrder :=
  mkOrder 7 3 (Some 2%N) 4 (lit "main") (lit "key") (lit "main") None None None false None None 0.
Definition run5 : RunRow := mkRunRow order5 (mkProgress RRunning (Some (lit "thread-1")) None None 1 None None).
Definition db0 : EventDb :=
  mkEventDb (mkRunDb {[3%N := mkTask 7 1 TRunning]} ∅ ∅ {[5%N := run5]} ∅ ∅) ∅ [] 1 ∅ ∅ ∅.
Definition frame : list N := Utf8.encode (lit "data: turn").
Definition draws : Draws := mkDraws 10 100 (fun _ => 0%N) false.
Definition event1 : RunEvent :=
  mkRunEvent 100 1 5 (lit "codex.turn.started") (Some (lit "thread-1")) (Some (lit "turn-1")) None
    (JObject [(lit "data", JObject [(lit "sourceType", JString (lit "turn/started"))]); (lit "itemId", JNull);
              (lit "itemType", JNull); (lit "lifecycle", JString (lit "started")); (lit "schemaVersion", PROJECTION_VERSION);
              (lit "threadId", JString (lit "thread-1")); (lit "turnId", JString (lit "turn-1"))]) 10.
Definition db1 : EventDb :=
  mkEventDb (project_turn_started 5 (Some (lit "turn-1")) (run_db db0)) ∅ [event1] 2 ∅ ∅ ∅.

Definition s0 : Live := mkLiveSystem db0 ∅ None {[1 := fresh_connection 7]}.
Definition conn1 : Connection := serve_event (receive (to_live show_uuid show_time 7 event1) (fresh_connection 7)).
Definition s2 : Live := mkLiveSystem db1 ∅ None {[1 := conn1]}.

#[export] Instance git : GitChecks := {| validate_source := fun _ => None; validate_ref := fun _ => None |}.

Lemma steps02 : rtc (live_step show_uuid base64 show_time) s0 s2.
Proof.
  eapply rtc_l; [apply (live_persist _ _ _ draws frame _ db1 _ _ (Some (7%N, event1))); vm_compute; reflexivity|].
  eapply rtc_l; [apply live_send|]. rewrite map_fmap_singleton.
  eapply rtc_l; [eapply (live_serve _ _ _ _ _ _ _ 1); by rewrite lookup_singleton_eq|]. rewrite insert_singleton_eq. apply rtc_refl.
Qed.

Lemma start : rtc (live_step show_uuid base64 show_time) (mkLiveSystem db0 ∅ None ∅) s0.
Proof. eapply rtc_once. apply (live_subscribe _ _ _ _ _ _ ∅ 1 7). done. Qed.

Lemma terminals_fine : terminals_ok db0.
Proof. intros process t H. cbn in H. by rewrite lookup_empty in H. Qed.
End SampleEvents.
#[local] Existing Instances SampleEvents.text SampleEvents.float64 SampleEvents.git.

Lemma events_reach_clients_witness :
  SampleEvents.event1 ∈ read_pages 1 (live_db SampleEvents.s0) 3 7 10 0 ∨
  live_text SampleEvents.show_uuid SampleEvents.show_time SampleEvents.event1 ∈ event_texts SampleEvents.conn1 ∨
  live_text SampleEvents.show_uuid SampleEvents.show_time SampleEvents.event1 ∈ map live_payload (conn_queue SampleEvents.conn1) ∨
  live_bridge SampleEvents.s2 = Some (7%N, SampleEvents.event1).
Proof.
  destruct (events_reach_clients SampleEvents.show_uuid SampleEvents.base64 SampleEvents.show_time SampleEvents.db0 ∅
    SampleEvents.s0 SampleEvents.s0 SampleEvents.s2 1 7 SampleEvents.conn1 3 10 0 1 eq_refl SampleEvents.terminals_fine
    SampleEvents.start eq_refl (rtc_refl _ _) SampleEvents.steps02 eq_refl ltac:(lia) (le_n 1)) as [_ H].
  apply H.
  - split; [reflexivity|]. vm_compute. set_solver.
  - vm_compute. set_solver.
  - reflexivity.
Defined.

Module SampleApprovalFrame.
Definition envelope : Json :=
  JObject [(lit "params", JObject
    [(lit "message", JObject
       [(lit "id", JNumber (lit "1")); (lit "method", JString COMMAND_APPROVAL);
        (lit "params", JObject [(lit "command", JString (lit "make")); (lit "threadId", JString (lit "thread-1"))])]);
     (lit "runtime_instance_id", JString (lit "runtime"))])].
#[export] Instance text : JsonText := {|
  json_to_string := fun _ => lit "text"; json_from_str := fun _ => Some envelope; parse_uuid := fun _ => Some 1%N
|}.
Definition key : str := lit "key".
Definition db : Db := mkDb {[4%N := mkProfile 7 2 key true]} [mkRun 5 7 (Some (lit "thread-1")) 0] ∅ [].
Definition data : list N := Utf8.encode (lit "data: x" ++ [nl; nl]).
Definition result : option Uuid * Db * option (list N) :=
  prepare_frame SampleEvents.show_uuid (fun _ => None) key 3 9 data None db.
Definition public : list N := default [] (snd result).
End SampleApprovalFrame.

Lemma shown_approvals_are_stored_witness :
  SampleApprovalFrame.public ≠ SampleApprovalFrame.data ∧
  ∃ id a, approvals (snd (fst SampleApprovalFrame.result)) !! id = Some a ∧ runtime_instance_id a = Some 1%N ∧
    public_approval_frame (JT := SampleApprovalFrame.text) SampleEvents.show_uuid (fun _ => None) SampleApprovalFrame.envelope id =
      Some SampleApprovalFrame.public.
Proof.
  assert (Hd : SampleApprovalFrame.public ≠ SampleApprovalFrame.data) by (intros E; vm_compute in E; discriminate E).
  split; [exact Hd|].
  destruct (@shown_approvals_are_stored SampleApprovalFrame.text SampleEvents.show_uuid (fun _ => None) SampleApprovalFrame.key 3 9
    SampleApprovalFrame.data None SampleApprovalFrame.db (Some 1%N) (snd (fst SampleApprovalFrame.result)) SampleApprovalFrame.public)
    as (envelope & runtime & He & Hr & [H|[H|H]]); [vm_compute; reflexivity| | |].
  - destruct H as (message & method & request & params & id & _ & _ & _ & _ & _ & (a & Ha & Hrt & _) & Hp).
    vm_compute in He. injection He as <-. vm_compute in Hr. injection Hr as <-. exists id, a.
    split; [exact Ha|]. split; [exact Hrt|]. exact Hp.
  - destruct H as (thread & request & resolved & H & _). vm_compute in H. discriminate H.
  - destruct H as [H _]. destruct (Hd H).
Defined.
