(* ===== verification/ArtifactFacts.v ===== *)
(** * Artifacts of a run stay what they are and lead nowhere else *)

From S2P Require Import Prelude RustStr ResponseModel Approval WorldState Projection ProjectionFacts.
From S2P Require Import RunScheduler RunSchedulerFacts EventBridge EventBridgeFacts.
Open Scope nat_scope.
#[local] Arguments lit _ : simpl never.
#[local] Opaque MAX_TERMINAL_BYTES EVENT_BUS_CAPACITY.

(** ** The sources of a map *)

Lemma assoc_obj_insert k k' v (o : Fields) : assoc k (obj_insert k' v o) = if seqb k k' then Some v else assoc k o.
Proof.
  induction o as [|[k1 x] o IH]; cbn; [done|]. destruct (seqb k' k1) eqn:E; cbn.
  - apply seqb_eq in E as ->. by destruct (seqb k k1).
  - destruct (str_leb k' k1); cbn; [done|]. rewrite IH. destruct (seqb k k1) eqn:E1; [|done].
    apply seqb_eq in E1 as ->. destruct (seqb k1 k') eqn:E2; [|done]. apply seqb_eq in E2 as ->. by rewrite seqb_refl in E.
Qed.

(** Steps of a loop that keep the field [k]. *)
Lemma ofold_keeps {B} k (f : Fields → B → option Fields) l o o' :
  (∀ o b o', b ∈ l → f o b = Some o' → assoc k o' = assoc k o) → ofold f o l = Some o' → assoc k o' = assoc k o.
Proof.
  revert o. induction l as [|b l IH]; intros o Hf; cbn; [by intros [= <-]|].
  intros (o1 & H1 & H2)%bind_Some. etransitivity.
  - apply (IH o1); [|exact H2]. intros o2 b' o3 Hb. apply Hf. by right.
  - eapply Hf; [|exact H1]. by left.
Qed.

Section cards.
Context `{F64 : !Float64}.

(** A source whose data is a resource or given inline. *)
Definition card_source (source : Json) : Prop :=
  ∃ fields data t, source = JObject fields ∧ assoc (lit "data") fields = Some (JObject data) ∧
    field_str data (lit "type") = Some t ∧
    (t = lit "inline" ∨ t = lit "mcp_resource" ∧ is_Some (field_str data (lit "server")) ∧ is_Some (field_str data (lit "uri"))).

Lemma project_source_data_spec data d : project_source_data data = Some d →
  ∃ fields t, d = JObject fields ∧ field_str fields (lit "type") = Some t ∧
    (t = lit "inline" ∨ t = lit "mcp_resource" ∧ is_Some (field_str fields (lit "server")) ∧ is_Some (field_str fields (lit "uri"))).
Proof.
  unfold project_source_data. intros (t & _ & H)%bind_Some. case_match.
  - case_match; [done|]. apply bind_Some in H as (format & _ & H). case_match; [done|].
    apply bind_Some in H as (server & _ & H). apply bind_Some in H as (uri & _ & H). case_match; [done|]. injection H as <-.
    eexists _, (lit "mcp_resource"). split_and!; [done|done|]. right. split_and!; by eexists.
  - case_match; [|done]. case_match; [done|]. apply bind_Some in H as (format & _ & H). case_match; [done|].
    apply bind_Some in H as (geojson & _ & H). case_match; [done|]. injection H as <-.
    eexists _, (lit "inline"). split_and!; [done|done|]. by left.
Qed.

Lemma project_map_source_spec id source e : project_map_source id source = Some e → card_source (snd e).
Proof.
  unfold project_map_source. case_match; [done|]. intros (fields & _ & Hs)%bind_Some. apply bind_Some in Hs as (t & _ & Hs).
  case_match; [done|]. case_match; [done|]. apply bind_Some in Hs as (data & _ & Hs). apply bind_Some in Hs as (d & Hd & [= <-]).
  apply project_source_data_spec in Hd as (dfields & t' & -> & Ht & Hcase). exists (obj_insert (lit "data") (JObject dfields) fields), dfields, t'.
  by rewrite assoc_obj_insert, seqb_refl.
Qed.

Lemma project_sources_spec value sources : project_map_v3_sources value = Some sources →
  ∀ id source, (id, source) ∈ sources → card_source source.
Proof.
  unfold project_map_v3_sources. intros (given & _ & H)%bind_Some id source Hin. destruct given as [|g given]; [done|].
  apply mapM_Some in H. apply list_elem_of_lookup in Hin as [k Hk].
  destruct (Forall2_lookup_r _ _ _ _ _ H Hk) as ([id' source'] & _ & Hp). by apply (project_map_source_spec id' source' (id, source)).
Qed.

(** The sources of a card end up in its payload. *)
Lemma card_sources_spec card payload : project_map_card_v3 card = Some payload →
  ∃ sources, get (lit "sources") payload = Some (JObject sources) ∧ ∀ id source, (id, source) ∈ sources → card_source source.
Proof.
  unfold project_map_card_v3. case_match; [done|]. intros (title & _ & Hc)%bind_Some.
  apply bind_Some in Hc as (intent & _ & Hc). apply bind_Some in Hc as (status & _ & Hc). case_match; [done|].
  apply bind_Some in Hc as (p0 & _ & Hc). apply bind_Some in Hc as (sources & Hs & Hc). apply bind_Some in Hc as (layers & _ & Hc).
  destruct layers as [|l ls]; [done|]. apply bind_Some in Hc as ([ids backed] & _ & Hc).
  apply bind_Some in Hc as (p1 & Hview & Hc). apply bind_Some in Hc as (p2 & Hnum & Hc).
  apply bind_Some in Hs as (value & _ & Hs). exists sources. split; [|by eapply project_sources_spec].
  assert (assoc (lit "sources") p1 = Some (JObject sources)) as H1.
  { unfold copy_view in Hview. destruct (assoc (lit "center") card), (assoc (lit "zoom") card); try done.
    - apply bind_Some in Hview as (center & _ & Hview). destruct center as [|x [|y [|]]]; try done.
      apply bind_Some in Hview as (x' & _ & Hview). apply bind_Some in Hview as (y' & _ & Hview).
      apply bind_Some in Hview as (z' & _ & [= <-]). by rewrite !assoc_obj_insert.
    - injection Hview as <-. by rewrite !assoc_obj_insert. }
  assert (assoc (lit "sources") p2 = Some (JObject sources)) as H2.
  { rewrite <- H1. eapply ofold_keeps; [|exact Hnum]. intros o [[k lo] hi] o' Hin. unfold copy_number.
    destruct (assoc k card); [|by intros [= <-]]. intros (x & _ & [= <-])%bind_Some. rewrite assoc_obj_insert.
    rewrite !elem_of_cons in Hin. by destruct Hin as [[= -> -> ->]|[[= -> -> ->]|Hin%not_elem_of_nil]]. }
  destruct (assoc (lit "extensions") card); [|by injection Hc as <-].
  apply bind_Some in Hc as (ext & _ & [= <-]). cbn [get]. by rewrite assoc_obj_insert.
Qed.
End cards.

(** ** Rows keep what they are *)

(** Content is stored with the state [ready]. *)
Definition content_ok (r : ReplyArtifact) : Prop := is_Some (reply_content r) → reply_state r ≠ ReplyPending.

Record reply_kept (r r' : ReplyArtifact) : Prop := mkReplyKept {
  kept_id : reply_id r' = reply_id r;
  kept_organization : reply_organization r' = reply_organization r;
  kept_producer : reply_producer r' = reply_producer r;
  kept_mime : reply_mime r' = reply_mime r;
  kept_failed : reply_state r = ReplyFailed → reply_state r' = ReplyFailed;
  kept_content : content_ok r → content_ok r' ∧ ∀ bytes, reply_content r = Some bytes → reply_content r' = Some bytes
}.

#[export] Instance reply_kept_preorder : PreOrder reply_kept.
Proof.
  split; [by intros r; split|]. intros r1 r2 r3 [] []. split; try congruence; [auto|].
  intros H1. destruct (kept_content0 H1) as [H2 Hc2]. destruct (kept_content1 H2) as [H3 Hc3]. auto.
Qed.

Definition replies_kept (m m' : gmap ReplyKey ReplyArtifact) : Prop :=
  (∀ k r, m !! k = Some r → ∃ r', m' !! k = Some r' ∧ reply_kept r r') ∧
  (map_Forall (fun _ => content_ok) m → map_Forall (fun _ => content_ok) m').

#[export] Instance replies_kept_preorder : PreOrder replies_kept.
Proof.
  split; [intros m; split; [intros k r H; by exists r|done]|]. intros m1 m2 m3 [H1 C1] [H2 C2]. split; [|auto].
  intros k r (r1 & Hr1 & K1)%H1. destruct (H2 _ _ Hr1) as (r2 & Hr2 & K2). exists r2. split; [done|by etransitivity].
Qed.

Lemma replies_kept_insert m k r' : (match m !! k with Some r => reply_kept r r' | None => content_ok r' end) →
  replies_kept m (<[k := r']> m).
Proof.
  intros Hk. split.
  - intros k1 r Hr. destruct (decide (k1 = k)) as [->|Hne].
    + exists r'. rewrite lookup_insert_eq. rewrite Hr in Hk. done.
    + exists r. by rewrite lookup_insert_ne.
  - intros Hok k1 r [[<- <-]|[_ Hr]]%lookup_insert_Some; [|by eapply Hok].
    destruct (m !! k) as [r|] eqn:Hr; [|done]. apply Hk. by eapply Hok.
Qed.

Lemma register_reply_kept o key turn item fresh a db :
  replies_kept (replies db) (replies (register_reply o key turn item fresh a db)).
Proof.
  unfold register_reply. cbn [replies set_replies]. apply replies_kept_insert.
  destruct (replies db !! key) as [r|]; [|by intros [? [=]]]. split; cbn; try done.
  - intros ->. by case_match.
  - intros Hok. split; [|done]. intros [b Hb]. cbn. case_match; [|done]. apply Hok. by exists b.
Qed.

Lemma replies_kept_alter m k f : (∀ r, reply_kept r (f r)) → replies_kept m (alter f k m).
Proof.
  intros Hf. split.
  - intros k1 r Hr. destruct (decide (k = k1)) as [->|Hne].
    + exists (f r). by rewrite lookup_alter_eq, Hr.
    + exists r. by rewrite lookup_alter_ne.
  - intros Hok k1 r [(<- & r0 & Hr & ->)|[_ Hr]]%lookup_alter_Some; [|by eapply Hok]. apply (Hf r0). by eapply Hok.
Qed.

Lemma store_content_kept key bytes db : replies_kept (replies db) (replies (store_content key bytes db)).
Proof.
  unfold store_content. cbn [replies set_replies]. apply replies_kept_alter. intros r. case_bool_decide as Hs; [|done].
  split; cbn; try done; [congruence|]. intros Hok. split; [done|]. intros b Hb. by destruct (Hok (ex_intro _ b Hb)).
Qed.

(** ** What an artifact refers to *)

Section sealed.
Context `{JT : !JsonText} `{F64 : !Float64} `{GC : !GitChecks}.
Context (show_uuid : Uuid → str) (base64_decode : str → option (list N)) (show_time : Timestamp → str).

(** The data of a source is inline, or a resource that another item of the same run and
    thread has registered. *)
Definition sealed_source (m : gmap ReplyKey ReplyArtifact) (run : Uuid) (thread item : str) (source : Json) : Prop :=
  (get (lit "data") source ≫= get (lit "type")) = Some (JString (lit "inline")) ∨
  ∃ server uri r, m !! (run, thread, server, uri) = Some r ∧ reply_producer r ≠ item ∧
    get (lit "data") source = Some (artifact_data show_uuid run (reply_id r) (reply_mime r)).

Definition sealed_artifact (m : gmap ReplyKey ReplyArtifact) (run : Uuid) (a : InlineArtifact) : Prop :=
  ∃ sources, get (lit "sources") (inline_payload a) = Some (JObject sources) ∧
    ∀ id source, (id, source) ∈ sources → sealed_source m run (inline_thread a) (inline_producer a) source.

Lemma sealed_artifact_kept m m' run a : replies_kept m m' → sealed_artifact m run a → sealed_artifact m' run a.
Proof.
  intros [Hk _] (sources & Hs & Hall). exists sources. split; [done|]. intros id source Hin.
  destruct (Hall _ _ Hin) as [?|(server & uri & r & Hr & Hp & Hd)]; [by left|right].
  destruct (Hk _ _ Hr) as (r' & Hr' & K). exists server, uri, r'. destruct K. split_and!; [done|congruence|congruence].
Qed.

(** A source of a card refers to a resource unless its data is inline. *)
Lemma card_source_cases source : card_source source →
  (get (lit "data") source ≫= get (lit "type")) = Some (JString (lit "inline")) ∧ source_resource_ref source = None ∨
  ∃ ref, source_resource_ref source = Some ref.
Proof.
  intros (fields & data & t & -> & Hd & Ht & Hcase). unfold source_resource_ref. cbn [get]. rewrite Hd. cbn [mbind option_bind get].
  unfold field_str in *. apply bind_Some in Ht as (v & Hv & Hs). destruct v; try done. injection Hs as <-. rewrite Hv.
  destruct Hcase as [->|(-> & [server Hserver] & [uri Huri])].
  - left. cbn. split; [done|]. by rewrite bool_decide_eq_false_2.
  - right. exists (server, uri). cbn [mbind option_bind as_str]. rewrite bool_decide_eq_true_2 by done.
    rewrite Hserver. cbn [mbind option_bind]. by rewrite Huri.
Qed.

(** The references that were resolved are usable replies. *)
Lemma resolved_spec (db : EventDb) (run : Uuid) (thread item : str) (refs : list (str * str)) (m m' : gmap (str * str) (Uuid * option str)) :
  try_fold (fun resolved ref =>
    match usable_reply db run thread item ref with Some found => Ok (<[ref := found]> resolved) | None => Err ResourceUnavailable end)
    m refs = Ok m' →
  (∀ ref found, m !! ref = Some found → usable_reply db run thread item ref = Some found) →
  (∀ ref found, m' !! ref = Some found → usable_reply db run thread item ref = Some found) ∧
  (∀ ref, ref ∈ refs ∨ is_Some (m !! ref) → is_Some (m' !! ref)).
Proof.
  revert m. induction refs as [|ref refs IH]; intros m; cbn [try_fold].
  - intros [= <-] Hm. split; [done|]. intros ref [Hin%not_elem_of_nil|?]; done.
  - destruct (usable_reply _ _ _ _ ref) as [found|] eqn:Eu; [|done]. cbn. intros Hf Hm. destruct (IH _ Hf) as [H1 H2].
    + intros ref' found' [[<- <-]|[_ H]]%lookup_insert_Some; auto.
    + split; [done|]. intros ref' Hr. apply H2. destruct (decide (ref' = ref)) as [->|Hne]; [right; rewrite lookup_insert_eq; eauto|].
      destruct Hr as [Hr|Hr]; [apply elem_of_cons in Hr as [->|Hr]; [done|by left]|right; by rewrite lookup_insert_ne].
Qed.

Lemma usable_reply_spec db run thread item server uri id mime : usable_reply db run thread item (server, uri) = Some (id, mime) →
  ∃ r, replies db !! (run, thread, server, uri) = Some r ∧ reply_producer r ≠ item ∧ reply_id r = id ∧ reply_mime r = mime.
Proof.
  unfold usable_reply. cbn [fst snd]. intros (r & Hr & Hu)%bind_Some. case_match eqn:E; [|done]. injection Hu as <- <-.
  exists r. split_and!; try done. apply andb_true_iff in E as [E%negb_true_iff _]. intros Heq. by rewrite Heq, seqb_refl in E.
Qed.

Lemma assoc_map_snd k (f : Json → Json) (o : Fields) : assoc k (map (fun '(k, v) => (k, f v)) o) = f <$> assoc k o.
Proof. induction o as [|[k' v] o IH]; [done|]. cbn. by destruct (seqb k k'). Qed.

(** Resolving the references of a card seals it. *)
Lemma resolve_sealed db run thread item card payload payload' :
  project_map_card_v3 card = Some payload →
  resolve_map_resource_refs show_uuid db run thread item payload = Ok payload' →
  ∃ sources, get (lit "sources") payload' = Some (JObject sources) ∧
    ∀ id source, (id, source) ∈ sources → sealed_source (replies db) run thread item source.
Proof.
  intros (sources & Hs & Hall)%card_sources_spec Hr. unfold resolve_map_resource_refs in Hr.
  unfold map_payload_resource_refs in Hr. rewrite Hs in Hr. cbn [mbind option_bind as_object] in Hr.
  destruct (omap (fun e => source_resource_ref (snd e)) sources) as [|ref refs] eqn:Er.
  - injection Hr as <-. exists sources. split; [done|]. intros id source Hin. left.
    destruct (card_source_cases source (Hall _ _ Hin)) as [[Hi _]|[ref Href]]; [done|].
    assert (ref ∈ omap (fun e => source_resource_ref (snd e)) sources) as Hno; [|rewrite Er in Hno; by apply not_elem_of_nil in Hno].
    apply list_elem_of_omap. by exists (id, source).
  - apply rbind_ok in Hr as (resolved & Hf & [= <-]). destruct (resolved_spec _ _ _ _ _ _ _ Hf) as [H1 H2]; [done|].
    destruct payload as [| | | | |pf]; try done. cbn [get] in Hs.
    exists (map (fun '(id, source) => (id, replace_source_data show_uuid run resolved source)) sources).
    unfold replace_map_payload_resource_refs. cbn [on_object get]. rewrite assoc_obj_update, Hs. split; [done|].
    intros id source Hin. apply list_elem_of_In, in_map_iff in Hin as ([id' source'] & [= <- <-] & Hin%list_elem_of_In).
    unfold replace_source_data. pose proof (Hall _ _ Hin) as Hcard.
    destruct (card_source_cases source' Hcard) as [[Hi ->]|[ref' Href]]; [by left|]. rewrite Href.
    destruct (H2 ref') as [[aid mime] Hfound].
    { left. rewrite <- Er. apply list_elem_of_omap. by exists (id', source'). }
    rewrite Hfound. apply H1 in Hfound. destruct ref' as [server uri].
    apply usable_reply_spec in Hfound as (r & Hrow & Hp & <- & <-). right. exists server, uri, r. split_and!; [done|done|].
    destruct Hcard as (fields & data & t & -> & Hd & _). cbn [on_object get]. by rewrite assoc_obj_update, Hd.
Qed.

(** ** Steps *)

(** Artifacts are only added, and sealed. *)
Record artifacts_grow (db db' : EventDb) : Prop := mkGrow {
  grow_replies : replies_kept (replies db) (replies db');
  grow_inlines : inlines db ⊆ inlines db';
  grow_sealed : ∀ run ref a, inlines db' !! (run, ref) = Some a →
    inlines db !! (run, ref) = Some a ∨ sealed_artifact (replies db') run a
}.

#[export] Instance artifacts_grow_preorder : PreOrder artifacts_grow.
Proof.
  split; [intros db; split; [done|done|by left]|]. intros d1 d2 d3 [R1 I1 S1] [R2 I2 S2]. split; [by etransitivity|by etransitivity|].
  intros run ref a [Ha|?]%S2; [|by right]. destruct (S1 _ _ _ Ha); [by left|right; by eapply sealed_artifact_kept].
Qed.

Lemma same_artifacts db db' : replies db' = replies db → inlines db' = inlines db → artifacts_grow db db'.
Proof. intros Hr Hi. split; [by rewrite Hr|by rewrite Hi|]. rewrite Hi. by left. Qed.

Lemma apply_lifecycle_artifacts event run db : artifacts_grow db (apply_lifecycle event run db).
Proof. unfold apply_lifecycle, set_title. repeat case_match; by apply same_artifacts. Qed.

Lemma register_replies_artifacts fresh event run o db : artifacts_grow db (register_reply_artifacts fresh event run o db).
Proof.
  unfold register_reply_artifacts. generalize (Projection.reply_artifacts event) as l. intros l.
  repeat case_match; try done. revert db. induction l as [|a l IH]; intros db; [done|]. cbn [foldl].
  etransitivity; [|apply IH]. split; [apply register_reply_kept|done|by left].
Qed.

Lemma inline_candidate_card item c : project_inline_visualization_artifact item = Some c →
  renderer_kind c = lit "map.v3" ∧ ∃ card, project_map_card_v3 card = Some (renderer_payload c).
Proof.
  unfold project_inline_visualization_artifact. intros H.
  repeat first [apply bind_Some in H as (? & ? & H) | match type of H with (if ?b then _ else _) = _ => destruct b; [done|] end].
  injection H as <-. cbn [renderer_kind renderer_payload].
  match goal with E : project_inline_renderer ?k _ = Some _ |- _ =>
    unfold project_inline_renderer in E; destruct (seqb k (lit "map.v3")) eqn:Ek; [|done] end.
  apply seqb_eq in Ek. split; [done|by eexists].
Qed.

Lemma register_inline_artifacts event run o db db' :
  (∀ c, inline_artifact event = Some c → renderer_kind c = lit "map.v3" ∧ ∃ card, project_map_card_v3 card = Some (renderer_payload c)) →
  register_inline_visualization_artifact show_uuid event run o db = Ok db' → artifacts_grow db db'.
Proof.
  intros Hc. unfold register_inline_visualization_artifact. case_match; [by intros [= <-]|].
  destruct (inline_artifact event) as [c|], (event_turn event), (event_item event) as [item|]; try (by intros [= <-]).
  destruct (Hc c eq_refl) as [Hk [card Hcard]]. unfold resolve_inline_renderer_resources. rewrite Hk, seqb_refl.
  intros (payload & Hp & Hr)%rbind_ok. destruct (inlines db !! (run, artifact_ref c)) as [a|] eqn:Ea.
  - case_match; [|done]. by injection Hr as <-.
  - injection Hr as <-. split; cbn [replies inlines set_inlines]; [done|by apply insert_subseteq|].
    intros run' ref' a [[[= <- <-] <-]|[_ Ha]]%lookup_insert_Some; [right|by left].
    exact (resolve_sealed _ _ _ _ _ _ _ Hcard Hp).
Qed.

Lemma project_message_candidate m event : project_message m = Some event → ∀ c, inline_artifact event = Some c →
  renderer_kind c = lit "map.v3" ∧ ∃ card, project_map_card_v3 card = Some (renderer_payload c).
Proof.
  unfold project_message. intros (thread & _ & H)%bind_Some c. destruct (classify_method _) as [t l]. injection H as <-.
  cbn [inline_artifact]. intros (item & _ & Hc)%bind_Some. by eapply inline_candidate_card.
Qed.

Lemma persist_event_artifacts d m event db db' stored : project_message m = Some event →
  persist_event show_uuid d event db = (db', stored) → artifacts_grow db db'.
Proof.
  intros Hm. unfold persist_event. destruct (run_of_thread _ _) as [[run row]|]; [|by intros [= <- <-]].
  destruct (match artifact_stage _ _ _ _ _ _ _ with Ok _ => _ | Err _ => _ end) as [db1 payload] eqn:Ea.
  assert (artifacts_grow db db1) as K.
  { destruct (artifact_stage _ _ _ _ _ _ _) as [[db2 p2]|] eqn:Es; simplify_eq/=; [|done].
    unfold artifact_stage in Es. case_match; [done|]. apply rbind_ok in Es as (db2 & Hr & [= <- <-]).
    etransitivity; [apply register_replies_artifacts|]. eapply register_inline_artifacts; [|exact Hr]. by eapply project_message_candidate. }
  destruct (insert_event _ _ _ _ _ _ _ _ db1) as [db2 e] eqn:Ei. intros [= <- <-]. injection Ei as <- <-.
  etransitivity; [exact K|]. etransitivity; [|apply apply_lifecycle_artifacts]. by apply same_artifacts.
Qed.

Lemma persist_terminal_artifacts d message db db' stored :
  persist_terminal_message show_uuid base64_decode d message db = Ok (db', stored) → artifacts_grow db db'.
Proof.
  unfold persist_terminal_message. case_match; [by intros [= <- <-]|].
  destruct (string_field _ _ ≫= _) as [[process [session row]]|]; [|by intros [= <- <-]].
  intros ([[db1 t] payload] & H1 & H2)%rbind_ok. destruct (insert_event _ _ _ _ _ _ _ _ db1) as [db2 e] eqn:Ei.
  injection H2 as <- <-. injection Ei as <- <-. assert (replies db1 = replies db ∧ inlines db1 = inlines db) as [Hr Hi].
  { repeat case_match; by simplify_eq. }
  by apply same_artifacts.
Qed.

Lemma persist_frame_artifacts d data db db' stored :
  persist_frame show_uuid base64_decode d data db = Ok (db', stored) → artifacts_grow db db'.
Proof.
  unfold persist_frame. intros ([message|] & _ & H)%rbind_ok; [|by injection H as <- <-].
  apply rbind_ok in H as ([db1 stored1] & H1 & H). destruct stored1 as [x|].
  - injection H as <- <-. by eapply persist_terminal_artifacts.
  - destruct (project_message message) as [event|] eqn:Em; [|by injection H as <- <-].
    apply Ok_inj in H. by eapply persist_event_artifacts.
Qed.

Lemma step_artifacts s s' : live_step show_uuid base64_decode show_time s s' → artifacts_grow (live_db s) (live_db s').
Proof.
  destruct 1; cbn [live_db]; try done; try (by apply same_artifacts); [by eapply persist_frame_artifacts|].
  split; [apply store_content_kept|done|by left].
Qed.

Lemma steps_artifacts s s' : rtc (live_step show_uuid base64_decode show_time) s s' → artifacts_grow (live_db s) (live_db s').
Proof. induction 1 as [|s s1 s2 H1 _ IH]; [done|]. etransitivity; [by apply step_artifacts|done]. Qed.

(** *** Deleting a project *)

Lemma filter_lookup_bool {K} `{Countable K} {A} (keep : K → A → bool) (m : gmap K A) k x :
  filter (fun y => keep (fst y) (snd y)) m !! k = Some x ↔ m !! k = Some x ∧ keep k x = true.
Proof. rewrite map_lookup_filter_Some. cbn. by rewrite Is_true_true. Qed.

Lemma delete_project_cases user id db :
  fst (delete_project user id db) = db ∨ fst (delete_project user id db) = delete_cascade id db.
Proof. unfold delete_project. repeat case_match; auto. Qed.

Lemma cascade_replies id db key r :
  replies (delete_cascade id db) !! key = Some r ↔
  replies db !! key = Some r ∧ run_in id (run_db db) (fst (fst (fst key))) = false.
Proof. cbn [replies delete_cascade]. rewrite (filter_lookup_bool (fun k _ => negb (run_in id (run_db db) (fst (fst (fst k)))))). by rewrite negb_true_iff. Qed.

Lemma cascade_inlines id db key a :
  inlines (delete_cascade id db) !! key = Some a ↔ inlines db !! key = Some a ∧ run_in id (run_db db) (fst key) = false.
Proof. cbn [inlines delete_cascade]. rewrite (filter_lookup_bool (fun k _ => negb (run_in id (run_db db) (fst k)))). by rewrite negb_true_iff. Qed.

(** Contents are stored with their state, and artifacts are sealed. *)
Definition artifacts_ok (db : EventDb) : Prop :=
  map_Forall (fun _ => content_ok) (replies db) ∧
  ∀ run ref a, inlines db !! (run, ref) = Some a → sealed_artifact (replies db) run a.

Lemma artifacts_ok_grow db db' : artifacts_grow db db' → artifacts_ok db → artifacts_ok db'.
Proof.
  intros [[HR HC] HI HS] [H1 H2]. split; [by apply HC|]. intros run ref a [Ha|?]%HS; [|done].
  eapply sealed_artifact_kept; [by split|by eapply H2].
Qed.

Lemma artifacts_ok_cascade id db : artifacts_ok db → artifacts_ok (delete_cascade id db).
Proof.
  intros [H1 H2]. split; [intros k r [Hr _]%cascade_replies; by eapply H1|].
  intros run ref a [Ha Hrun]%cascade_inlines. destruct (H2 _ _ _ Ha) as (sources & Hs & Hall). exists sources. split; [done|].
  intros i source Hin. destruct (Hall _ _ Hin) as [?|(server & uri & r & Hr & Hp & Hd)]; [by left|right].
  exists server, uri, r. split_and!; [|done|done]. by apply cascade_replies.
Qed.

Lemma artifacts_ok_reachable db tokens s : replies db = ∅ → inlines db = ∅ →
  rtc (platform_step show_uuid base64_decode show_time) (mkLiveSystem db tokens None ∅) s → artifacts_ok (live_db s).
Proof.
  intros Hr Hi. apply (rtc_ind_r (R := platform_step show_uuid base64_decode show_time) (fun s => artifacts_ok (live_db s))).
  - split; cbn [live_db]; [rewrite Hr; apply map_Forall_empty|]. intros run ref a Ha. by rewrite Hi, lookup_empty in Ha.
  - intros s1 s2 _ Hs IH. destruct Hs as [s1 s2 Hs%step_artifacts|user id s1]; [by eapply artifacts_ok_grow|].
    cbn [live_db delete_step]. destruct (delete_project_cases user id (live_db s1)) as [->| ->]; [done|by apply artifacts_ok_cascade].
Qed.

(** What a run has is kept. *)
Definition run_kept (run : Uuid) (db db' : EventDb) : Prop :=
  (∀ ref a, inlines db !! (run, ref) = Some a → inlines db' !! (run, ref) = Some a) ∧
  (∀ thread server uri r, replies db !! (run, thread, server, uri) = Some r →
     ∃ r', replies db' !! (run, thread, server, uri) = Some r' ∧ reply_kept r r').

Lemma sparing_kept run s s' : sparing_step show_uuid base64_decode show_time run s s' → run_kept run (live_db s) (live_db s').
Proof.
  destruct 1 as [s s' [[HR _] HI _]%step_artifacts|user id s Hrun].
  - split; [|intros; by apply HR]. intros ref a Ha. by eapply lookup_weaken.
  - cbn [live_db delete_step]. destruct (delete_project_cases user id (live_db s)) as [->| ->].
    + split; [done|]. intros thread server uri r Hr. by exists r.
    + split; [intros ref a Ha; by apply cascade_inlines|]. intros thread server uri r Hr. exists r. split; [|done]. by apply cascade_replies.
Qed.

Lemma sparing_steps_kept run s s' : rtc (sparing_step show_uuid base64_decode show_time run) s s' → run_kept run (live_db s) (live_db s').
Proof.
  induction 1 as [s|s s1 s2 [I1 R1]%sparing_kept _ [I2 R2]]; [split; [done|intros; by eexists]|]. split; [auto|].
  intros thread server uri r (r1 & Hr1 & K1)%R1. destruct (R2 _ _ _ _ Hr1) as (r2 & Hr2 & K2). exists r2. split; [done|by etransitivity].
Qed.

End sealed.

(** ** Samples *)

Module SampleArtifact.
Import SampleEvents.
(** The runtime reports the completed call of a tool that returned a map. *)
Definition envelope : Json :=
  JObject [(lit "method", JString (lit "app-server-event"));
           (lit "params", JObject [(lit "message", JObject
             [(lit "method", JString (lit "item/completed"));
              (lit "params", JObject [(lit "item", JObject SampleProjection.plain_item); (lit "threadId", JString (lit "thread-1"));
                                      (lit "turnId", JString (lit "turn-1"))])])])].
#[export] Instance text : JsonText := {|
  json_to_string := fun _ => lit "text"; json_from_str := fun _ => Some envelope; parse_uuid := fun _ => Some 1%N
|}.
#[export] Existing Instance SampleProjection.float64.

Definition stored : EventDb * option (Uuid * RunEvent) :=
  match persist_frame show_uuid base64 draws frame db0 with Ok r => r | Err _ => (db0, None) end.
Definition s1 : Live := mkLiveSystem (fst stored) ∅ (snd stored) ∅.
Definition artifact : InlineArtifact :=
  mkInline 7 (lit "thread-1") (lit "turn-1") (lit "item-1") (lit "map.v3")
    (renderer_payload SampleProjection.plain_artifact).

Lemma stores : rtc (platform_step show_uuid base64 show_time) (mkLiveSystem db0 ∅ None ∅) s1.
Proof. apply rtc_once, platform_live, (live_persist _ _ _ draws frame). vm_compute. reflexivity. Qed.

Lemma artifact_stored : inlines (live_db s1) !! (5%N, lit "map-1") = Some artifact.
Proof. vm_compute. reflexivity. Qed.
End SampleArtifact.
#[local] Existing Instances SampleArtifact.text SampleProjection.float64 SampleEvents.git.

