(* ===== verification/ThreadHistory.v ===== *)
(** * The history of a thread as browsers see it

    [routes/threads.rs]: turns of the runtime are projected like events, messages get the
    artifacts they embed, and the requests for approval, which only the platform knows, are
    put where they belong among the items. *)

From S2P Require Import Prelude RustStr ResponseModel Approval WorldState Projection RunScheduler EventBridge.
Open Scope nat_scope.

(** ** Embedded artifacts *)

(** [JOIN run_events producer ON ...] with the conditions on the producer. *)
Definition has_producer (db : EventDb) (run : Uuid) (a : InlineArtifact) : bool :=
  existsb (fun e =>
    (row_run e =? run)%N && bool_decide (row_item e = Some (inline_producer a)) &&
    seqb (row_type e) (lit "codex.item.completed") && bool_decide (row_thread e = Some (inline_thread a)) &&
    bool_decide (row_turn e = Some (inline_turn a))) (run_events db).

Definition stored_artifact (db : EventDb) (run : Uuid) (ref : str) : option Json :=
  a ← inlines db !! (run, ref);
  row ← runs (run_db db) !! run;
  if has_producer db run a && bool_decide (codex_thread_id (progress row) = Some (inline_thread a))
  then Some (JObject [(lit "ref", JString ref);
                      (lit "renderer", JObject [(lit "kind", JString (inline_kind a)); (lit "payload", inline_payload a)])])
  else None.

Definition resolve_inline_artifacts (db : EventDb) (run : Uuid) (text : str) : list Json :=
  omap (stored_artifact db run) (inline_artifact_refs text).

Definition with_items (items : list Json) (turn : ThreadHistoryTurn) : ThreadHistoryTurn :=
  mkHistoryTurn (history_turn_id turn) (history_status turn) items (history_error turn) (started_at turn)
    (completed_at turn) (duration_ms turn).

Definition embed_artifacts (db : EventDb) (run : Uuid) (item : Json) : Json :=
  if negb (bool_decide (get (lit "type") item ≫= as_str = Some (lit "agentMessage"))) then item
  else match get (lit "text") item ≫= as_str with
       | None => item
       | Some text =>
           match resolve_inline_artifacts db run text with
           | [] => item
           | artifacts => on_object (obj_insert (lit "inlineArtifacts") (JArray artifacts)) item
           end
       end.

Definition project_turn_with_refs (db : EventDb) (run : Uuid) (value : Json) : result ThreadHistoryTurn TurnError :=
  let? turn := project_turn value in
  Ok (with_items (map (embed_artifacts db run) (history_items turn)) turn).

(** ** Requests for approval *)

Record ApprovalOverlay := mkOverlay {
  overlay_sequence : Z;
  overlay_tool : option str;
  overlay_item : Json
}.

Record ThreadHistoryOverlay := mkHistoryOverlay {
  item_sequences : gmap str Z;
  approvals_by_turn : gmap str (list ApprovalOverlay)
}.

Definition public_approval_status (s : ApprovalState) : option str :=
  match s with
  | SPending | SDispatching | SDeliveryUnknown => Some (lit "pending")
  | SApproved => Some (lit "accepted")
  | SRejected => Some (lit "declined")
  | SAnswered => Some (lit "answered")
  | SCancelled => Some (lit "cancelled")
  | SExpired => None
  end.

(** The word with a backslash and a quotation mark. *)
Definition TOOL_MARKER : str := lit "tool " ++ [backslash; 34%N].

Definition trimmed_field (request : Fields) (field : str) : option str :=
  value ← field_str request field; let value := trim value in if seqb value [] then None else Some value.

Definition requested_tool_name (request : option Fields) : option str :=
  request ← request;
  match trimmed_field request (lit "tool"), trimmed_field request (lit "toolName") with
  | Some tool, _ => Some tool
  | None, Some tool => Some tool
  | None, None =>
      message ← field_str request (lit "message");
      '(_, rest) ← split_once TOOL_MARKER message;
      let tool := trim (default [] (head (split_on 34%N rest))) in
      if seqb tool [] then None else Some tool
  end.

(** The question of the runtime for such a request, in [core/src/mcp_tool_call.rs]. *)
Definition build_mcp_tool_approval_fallback_message (server tool_name : str) (connector_name : option str) : str :=
  let actor :=
    match (name ← connector_name; let name := trim name in if seqb name [] then None else Some name) with
    | Some name => name
    | None => if seqb server (lit "codex_apps") then lit "this app" else lit "the " ++ server ++ lit " MCP server"
    end in
  lit "Allow " ++ actor ++ lit " to run tool " ++ [34%N] ++ tool_name ++ [34%N] ++ lit "?".

Definition HISTORY_EVENT_TYPES : list str :=
  [lit "codex.item.started"; lit "codex.item.completed"; lit "platform.approval.requested"; lit "platform.approval.resolved"].

(** The rows of the statement, [ORDER BY events.sequence]. *)
Definition history_rows (db : EventDb) (run : Uuid) : list RunEvent :=
  sort_by (fun a b => (sequence a <=? sequence b)%Z)
    (List.filter (fun e => (row_run e =? run)%N && existsb (seqb (row_type e)) HISTORY_EVENT_TYPES) (run_events db)).

Definition event_data (e : RunEvent) (key : str) : option Json := get (lit "data") (row_payload e) ≫= get key.

(** The approvals that have been resolved, by the ids in the events. *)
Definition resolved_ids (rows : list RunEvent) : list str :=
  omap (fun e => if seqb (row_type e) (lit "platform.approval.resolved") then event_data e (lit "requestId") ≫= as_str else None) rows.

Section history.
Context (show_uuid : Uuid → str).

(** [LEFT JOIN approvals ON approvals.run_id = events.run_id AND approvals.id::text = ...] *)
Definition approval_state (approvals_db : Db) (run : Uuid) (id : str) : option ApprovalState :=
  state ∘ snd <$> find_first (fun '(i, a) => (approval_run a =? run)%N && seqb (show_uuid i) id)
                    (map_to_list (approvals approvals_db)).

Definition approval_status (approvals_db : Db) (run : Uuid) (resolved : list str) (id : str) : str :=
  match approval_state approvals_db run id ≫= public_approval_status with
  | Some status => status
  | None => if existsb (seqb id) resolved then lit "resolved" else lit "pending"
  end.

Definition insert_value (key : str) (value : option Json) (o : Fields) : Fields :=
  match value with Some v => obj_insert key v o | None => o end.

(** What is shown of a request. *)
Definition approval_item (status : str) (id : str) (request : option Fields) : Json :=
  let field key := request ≫= assoc (lit key) in
  let text :=
    match or_else (field "message"%string) (field "reason"%string) ≫= as_str with
    | Some text => if seqb (trim text) [] then lit "Approval requested" else text
    | None => lit "Approval requested"
    end in
  let base := [(lit "approvalRequestId", JString id); (lit "approvalStatus", JString status);
               (lit "id", JString (lit "approval-" ++ id)); (lit "text", JString text);
               (lit "type", JString (lit "platformApproval"))] in
  JObject
    (insert_value (lit "approvalUrl") (if seqb status (lit "pending") then field "url"%string else None)
       (insert_value (lit "approvalServerName") (field "serverName"%string)
          (insert_value (lit "approvalMode") (field "mode"%string)
             (insert_value (lit "approvalTool") (JString <$> requested_tool_name request) base)))).

(** One row of the loop. *)
Definition overlay_row (approvals_db : Db) (run : Uuid) (resolved : list str) (overlay : ThreadHistoryOverlay) (e : RunEvent) :
    ThreadHistoryOverlay :=
  if existsb (seqb (row_type e)) [lit "codex.item.started"; lit "codex.item.completed"] then
    match row_item e with
    | Some item =>
        mkHistoryOverlay
          (match item_sequences overlay !! item with
           | Some _ => item_sequences overlay
           | None => <[item := sequence e]> (item_sequences overlay)
           end) (approvals_by_turn overlay)
    | None => overlay
    end
  else if negb (seqb (row_type e) (lit "platform.approval.requested")) then overlay
  else match row_turn e, event_data e (lit "approvalId") ≫= as_str with
       | Some turn, Some id =>
           let request := event_data e (lit "requestParams") ≫= as_object in
           let status := approval_status approvals_db run resolved id in
           mkHistoryOverlay (item_sequences overlay)
             (<[turn := default [] (approvals_by_turn overlay !! turn) ++
                          [mkOverlay (sequence e) (requested_tool_name request) (approval_item status id request)]]>
                (approvals_by_turn overlay))
       | _, _ => overlay
       end.

Definition load_history_overlay (approvals_db : Db) (db : EventDb) (run : Uuid) : ThreadHistoryOverlay :=
  let rows := history_rows db run in
  let overlay := foldl (overlay_row approvals_db run (resolved_ids rows)) (mkHistoryOverlay ∅ ∅) rows in
  mkHistoryOverlay (item_sequences overlay)
    (sort_by (fun a b => (overlay_sequence a <=? overlay_sequence b)%Z) <$> approvals_by_turn overlay).
End history.

(** *** Placing them *)

Section apply.
Context (overlay : ThreadHistoryOverlay).

Definition item_sequence (item : Json) : option Z := (get (lit "id") item ≫= as_str) ≫= (item_sequences overlay !!.).

(** The call that a request asks for: a call of the tool that was seen before it. *)
Definition is_requested_call (tool : str) (s : Z) (item : Json) : bool :=
  bool_decide (get (lit "type") item ≫= as_str = Some (lit "mcpToolCall")) &&
  bool_decide (get (lit "tool") item ≫= as_str = Some tool) &&
  match item_sequence item with Some n => (n <=? s)%Z | None => false end.

Definition is_tool_approval (tool : str) (item : Json) : bool :=
  bool_decide (get (lit "type") item ≫= as_str = Some (lit "platformApproval")) &&
  bool_decide (get (lit "approvalTool") item ≫= as_str = Some tool).

(** The [while] loop: how many approvals of the tool follow. *)
Fixpoint leading (p : Json → bool) (items : list Json) : nat :=
  match items with
  | item :: items => if p item then S (leading p items) else 0
  | [] => 0
  end.

Definition is_later (s : Z) (item : Json) : bool := match item_sequence item with Some n => (s <? n)%Z | None => false end.

(** [position] *)
Fixpoint position (p : Json → bool) (items : list Json) : option nat :=
  match items with
  | item :: items => if p item then Some 0 else S <$> position p items
  | [] => None
  end.

Definition insert_at (items : list Json) (a : ApprovalOverlay) : nat :=
  match (tool ← overlay_tool a; i ← rposition (is_requested_call tool (overlay_sequence a)) items; Some (tool, i)) with
  | Some (tool, i) => S i + leading (is_tool_approval tool) (drop (S i) items)
  | None => default (length items) (position (is_later (overlay_sequence a)) items)
  end.

(** [Vec::insert] panics beyond the end. *)
Definition vec_insert {A} (i : nat) (x : A) (l : list A) : option (list A) :=
  if i <=? length l then Some (take i l ++ x :: drop i l) else None.

Definition apply_overlay (turn : ThreadHistoryTurn) : option ThreadHistoryTurn :=
  items ← ofold (fun items a => vec_insert (insert_at items a) (overlay_item a) items) (history_items turn)
            (default [] (approvals_by_turn overlay !! history_turn_id turn));
  Some (with_items items turn).
End apply.

(** ** The routes *)

Inductive HistoryFailure := HistoryNotFound | HistoryBadRequest | HistoryBadGateway | HistoryPanic.

Record ThreadContext := mkThreadContext {
  context_task : Uuid;
  context_workspace : Uuid;
  context_thread : str
}.

Definition authorized_thread (db : RunDb) (user : AuthenticatedUser) (run : Uuid) : result ThreadContext HistoryFailure :=
  match (row ← runs db !! run; ws ← workspace_id (progress row); workspace ← workspaces db !! ws; Some (row, ws, workspace)) with
  | None => Err HistoryNotFound
  | Some (row, ws, workspace) =>
      if negb ((order_organization (order row) =? user_organization user)%N &&
               (workspace_organization workspace =? user_organization user)%N) then Err HistoryNotFound
      else if bool_decide (workspace_state workspace = WRetired) ||
              negb (bool_decide (requested_by (order row) = Some (user_id user))) &&
              negb (existsb (seqb (user_role user)) [lit "owner"; lit "admin"]) then Err HistoryNotFound
      else match codex_thread_id (progress row) with
           | None => Err HistoryBadRequest
           | Some thread => Ok (mkThreadContext (order_task (order row)) ws thread)
           end
  end.

Record ThreadHistoryStatus := mkHistoryStatus { status_type : str; active_flags : list str }.

Definition project_thread_status (value : option Json) : ThreadHistoryStatus :=
  let object := value ≫= as_object in
  mkHistoryStatus (default (lit "notLoaded") (object ≫= (fun o => field_str o (lit "type"))))
    (omap as_str (default [] ((object ≫= assoc (lit "activeFlags")) ≫= as_array))).

Record ThreadHistory := mkThreadHistory {
  thread_history_id : str;
  thread_name : option str;
  thread_preview : str;
  thread_created_at : Z;
  thread_updated_at : Z;
  thread_status : ThreadHistoryStatus;
  thread_turns : list ThreadHistoryTurn
}.

Definition project_thread (db : EventDb) (run : Uuid) (expected_id : str) (value : Json) : result ThreadHistory HistoryFailure :=
  match as_object value with
  | None => Err HistoryBadGateway
  | Some object =>
      if negb (bool_decide (field_str object (lit "id") = Some expected_id)) then Err HistoryBadGateway
      else
        let? turns := try_map (fun turn => map_err (fun _ => HistoryBadGateway) (project_turn_with_refs db run turn))
                        (default [] (assoc (lit "turns") object ≫= as_array)) in
        Ok (mkThreadHistory expected_id (field_str object (lit "name")) (default [] (field_str object (lit "preview")))
              (default 0%Z (assoc (lit "createdAt") object ≫= as_i64)) (default 0%Z (assoc (lit "updatedAt") object ≫= as_i64))
              (project_thread_status (assoc (lit "status") object)) turns)
  end.

(** [read]; [answer] is what the runtime says of the thread it was asked for. *)
Definition read_thread (db : EventDb) (user : AuthenticatedUser) (run : Uuid) (answer : str → option Json) :
    result ThreadHistory HistoryFailure :=
  let? context := authorized_thread (run_db db) user run in
  match answer (context_thread context) ≫= get (lit "thread") with
  | None => Err HistoryBadGateway
  | Some thread => project_thread db run (context_thread context) thread
  end.

Definition list_turns (show_uuid : Uuid → str) (approvals_db : Db) (db : EventDb) (user : AuthenticatedUser) (run : Uuid)
    (answer : str → option (list Json)) : result (list ThreadHistoryTurn) HistoryFailure :=
  let? context := authorized_thread (run_db db) user run in
  match answer (context_thread context) with
  | None => Err HistoryBadGateway
  | Some turns =>
      let overlay := load_history_overlay show_uuid approvals_db db run in
      try_map (fun turn =>
        let? turn := map_err (fun _ => HistoryBadGateway) (project_turn_with_refs db run turn) in
        match apply_overlay overlay turn with Some turn => Ok turn | None => Err HistoryPanic end) turns
  end.
