(* ===== verification/ThreadHistoryFacts.v ===== *)
(** * The history shows what the live channel showed, and approvals where they belong *)

From stdpp Require Import sorting.
From S2P Require Import Prelude RustStr ResponseModel Approval WorldState Projection ProjectionFacts.
From S2P Require Import RunScheduler RunSchedulerFacts EventBridge EventBridgeFacts ArtifactFacts ThreadHistory.
Open Scope nat_scope.
#[local] Arguments lit _ : simpl never.
#[local] Opaque MAX_TERMINAL_BYTES EVENT_BUS_CAPACITY.

(** ** Artifacts have their producers *)

(** The log grows, and an artifact that is added comes with the event of its producer. *)
Record producers_grow (db db' : EventDb) : Prop := mkProducers {
  grow_log : ∃ more, run_events db' = run_events db ++ more;
  grow_producers : ∀ run ref a, inlines db' !! (run, ref) = Some a →
    inlines db !! (run, ref) = Some a ∨ has_producer db' run a = true
}.

Lemma has_producer_app db db' more run a :
  run_events db' = run_events db ++ more → has_producer db run a = true → has_producer db' run a = true.
Proof. unfold has_producer. intros -> H. by rewrite existsb_app, H. Qed.

#[export] Instance producers_grow_preorder : PreOrder producers_grow.
Proof.
  split; [intros db; split; [exists []; by rewrite app_nil_r|by left]|].
  intros d1 d2 d3 [[m1 E1] P1] [[m2 E2] P2]. split; [exists (m1 ++ m2); by rewrite E2, E1, app_assoc|].
  intros run ref a [Ha|?]%P2; [|by right]. destruct (P1 _ _ _ Ha); [by left|right; by eapply has_producer_app].
Qed.

Lemma same_producers db db' more : run_events db' = run_events db ++ more → inlines db' = inlines db → producers_grow db db'.
Proof. intros He Hi. split; [by eexists|]. rewrite Hi. by left. Qed.

Section producers.
Context `{JT : !JsonText} `{F64 : !Float64} `{GC : !GitChecks}.
Context (show_uuid : Uuid → str) (base64_decode : str → option (list N)) (show_time : Timestamp → str).
#[local] Abbreviation step := (live_step show_uuid base64_decode show_time).

Lemma apply_lifecycle_log event run db :
  run_events (apply_lifecycle event run db) = run_events db ∧ inlines (apply_lifecycle event run db) = inlines db.
Proof. unfold apply_lifecycle, set_title. repeat case_match; done. Qed.

Lemma register_replies_log fresh event run o db :
  let db' := register_reply_artifacts fresh event run o db in run_events db' = run_events db ∧ inlines db' = inlines db.
Proof.
  unfold register_reply_artifacts. generalize (Projection.reply_artifacts event) as l. intros l.
  destruct (negb _); [done|]. destruct (event_turn event) as [turn|], (event_item event) as [item|], (event_server event) as [server|];
    try done. revert db. induction l as [|a l IH]; intros db; [done|]. cbn [foldl].
  destruct (IH (register_reply o (run, event_thread event, server, candidate_uri a) turn item (fresh (candidate_uri a)) a db)) as [-> ->].
  done.
Qed.

(** An artifact that a call adds bears the marks of its event. *)
Lemma register_inline_log event run o db db' : register_inline_visualization_artifact show_uuid event run o db = Ok db' →
  run_events db' = run_events db ∧
  ∀ run' ref a, inlines db' !! (run', ref) = Some a → inlines db !! (run', ref) = Some a ∨
    run' = run ∧ event_type event = lit "codex.item.completed" ∧ inline_thread a = event_thread event ∧
    event_turn event = Some (inline_turn a) ∧ event_item event = Some (inline_producer a).
Proof.
  unfold register_inline_visualization_artifact. destruct (is_completed_tool_call event) eqn:Ec; cbn [negb]; [|intros [= <-]; auto].
  destruct (inline_artifact event) as [c|]; [|intros [= <-]; auto].
  destruct (event_turn event) as [turn|]; [|intros [= <-]; auto]. destruct (event_item event) as [item|]; [|intros [= <-]; auto].
  intros (payload & _ & Hr)%rbind_ok. destruct (inlines db !! (run, artifact_ref c)); [case_match; [injection Hr as <-; auto|done]|].
  injection Hr as <-. split; [done|]. cbn [inlines set_inlines].
  intros run' ref a [[[= <- <-] <-]|[_ Ha]]%lookup_insert_Some; [right|by left]. cbn.
  apply andb_true_iff in Ec as [Ec%seqb_eq _]. done.
Qed.

Lemma persist_event_producers d event db db' stored :
  persist_event show_uuid d event db = (db', stored) → producers_grow db db'.
Proof.
  unfold persist_event. destruct (run_of_thread _ _) as [[run row]|]; [|by intros [= <- <-]].
  destruct (match artifact_stage _ _ _ _ _ _ _ with Ok _ => _ | Err _ => _ end) as [db1 payload] eqn:Ea.
  destruct (insert_event _ _ _ _ _ _ _ _ db1) as [db2 e] eqn:Ei. intros [= <- _]. injection Ei as <- <-.
  match goal with |- producers_grow _ (apply_lifecycle _ _ ?x) => destruct (apply_lifecycle_log event run x) as [HL HI] end.
  destruct (artifact_stage _ _ _ _ _ _ _) as [[db2 p2]|] eqn:Es; simplify_eq/=;
    [|by eapply same_producers; [rewrite HL|rewrite HI]].
  unfold artifact_stage in Es. case_match; [done|]. apply rbind_ok in Es as (db2 & Hr & [= <- <-]).
  destruct (register_replies_log (draw_artifact d) event run (order_organization (order row)) db) as [RL RI].
  apply register_inline_log in Hr as [IL II]. split; [rewrite HL; cbn [run_events]; rewrite IL, RL; by eexists|].
  intros run' ref a. rewrite HI. cbn [inlines]. intros [Ha|(-> & Et & Eth & Eturn & Eitem)]%II; [left; by rewrite <- RI|right].
  unfold has_producer. rewrite HL. cbn [run_events]. rewrite existsb_app. apply orb_true_iff. right. cbn [existsb row_run row_item row_type row_thread row_turn].
  rewrite N.eqb_refl, Et, seqb_refl, !bool_decide_eq_true_2 by congruence. done.
Qed.

Lemma persist_terminal_producers d message db db' stored :
  persist_terminal_message show_uuid base64_decode d message db = Ok (db', stored) → producers_grow db db'.
Proof.
  unfold persist_terminal_message. case_match; [by intros [= <- <-]|].
  destruct (string_field _ _ ≫= _) as [[process [session row]]|]; [|by intros [= <- <-]].
  intros ([[db1 t] payload] & H1 & H2)%rbind_ok. destruct (insert_event _ _ _ _ _ _ _ _ db1) as [db2 e] eqn:Ei.
  injection H2 as <- <-. injection Ei as <- <-. assert (run_events db1 = run_events db ∧ inlines db1 = inlines db) as [Hr Hi].
  { repeat case_match; by simplify_eq. }
  eapply same_producers; [cbn; by rewrite Hr|done].
Qed.

Lemma persist_frame_producers d data db db' stored :
  persist_frame show_uuid base64_decode d data db = Ok (db', stored) → producers_grow db db'.
Proof.
  unfold persist_frame. intros ([message|] & _ & H)%rbind_ok; [|by injection H as <- <-].
  apply rbind_ok in H as ([db1 stored1] & H1 & H). destruct stored1 as [x|].
  - injection H as <- <-. by eapply persist_terminal_producers.
  - destruct (project_message message) as [event|]; [|by injection H as <- <-].
    apply Ok_inj in H. by eapply persist_event_producers.
Qed.

Lemma steps_producers s s' : rtc step s s' → producers_grow (live_db s) (live_db s').
Proof.
  induction 1 as [|s s1 s2 H1 _ IH]; [done|]. etransitivity; [|exact IH].
  destruct H1; cbn [live_db]; try done; try (by apply (same_producers _ _ []); [by rewrite app_nil_r|]).
  by eapply persist_frame_producers.
Qed.

(** In a state that is reached, artifacts are found through their producers as they are found by
    their thread. *)
Lemma resolved_as_embedded db tokens s run row thread text :
  inlines db = ∅ → rtc step (mkLiveSystem db tokens None ∅) s →
  runs (run_db (live_db s)) !! run = Some row → codex_thread_id (progress row) = Some thread →
  resolve_inline_artifacts (live_db s) run text = omap (embedded_artifact (live_db s) run thread) (inline_artifact_refs text).
Proof.
  intros Hi Hs Hrow Ht. pose proof (steps_producers _ _ Hs) as [_ HP]. cbn [live_db] in HP.
  unfold resolve_inline_artifacts. apply list_omap_ext, Forall_Forall2_diag, Forall_forall. intros ref _.
  unfold stored_artifact, embedded_artifact. rewrite Hrow.
  destruct (inlines (live_db s) !! (run, ref)) as [a|] eqn:Ea; [|done]. cbn [mbind option_bind].
  destruct (HP _ _ _ Ea) as [Ha| ->]; [by rewrite Hi, lookup_empty in Ha|]. cbn [andb]. rewrite Ht.
  destruct (seqb (inline_thread a) thread) eqn:E.
  - apply seqb_eq in E. by rewrite bool_decide_eq_true_2 by congruence.
  - rewrite bool_decide_eq_false_2; [done|]. intros [= E']. by rewrite E', seqb_refl in E.
Qed.

(** No artifact is lost. *)
Lemma embedded_stays s s' run thread (refs : list str) (a : Json) :
  rtc step s s' → a ∈ omap (embedded_artifact (live_db s) run thread) refs →
  a ∈ omap (embedded_artifact (live_db s') run thread) refs.
Proof.
  intros Hs (ref & Href & Ha)%list_elem_of_omap. apply list_elem_of_omap. exists ref. split; [done|].
  unfold embedded_artifact in *. apply bind_Some in Ha as (x & Hx & Ha).
  pose proof (grow_inlines _ _ _ (steps_artifacts show_uuid base64_decode show_time _ _ Hs)) as Hsub.
  rewrite (lookup_weaken _ _ _ _ Hx Hsub). done.
Qed.

(** The type of a projected item is that of its source. *)
Lemma assoc_copy_sanitized k source keys o : k ∉ keys → assoc k (copy_sanitized source keys o) = assoc k o.
Proof.
  unfold copy_sanitized. revert o. induction keys as [|key keys IH]; intros o Hk; cbn [foldl]; [done|].
  rewrite IH by set_solver. destruct (assoc key source); [|done]. rewrite assoc_obj_insert.
  by rewrite (proj2 (seqb_neq k key)) by set_solver.
Qed.

Lemma item_fields_lack t fields k : item_fields t = Some fields → k ∈ [lit "type"; lit "inlineArtifacts"] → k ∉ fields.
Proof.
  intros H Hk Hin. assert (existsb (fun k => existsb (seqb k) fields) [lit "type"; lit "inlineArtifacts"] = true) as Hb.
  { apply existsb_exists. exists k. split; [by apply list_elem_of_In|]. apply existsb_exists. exists k.
    by rewrite seqb_refl, <- list_elem_of_In. }
  unfold item_fields in H.
  repeat match type of H with (if ?b then _ else _) = _ => destruct b; [injection H as <-; by vm_compute in Hb|] end. done.
Qed.

Lemma project_item_type source :
  get (lit "type") (project_item source) = Some (JString (default (lit "unknown") (string_field source (lit "type")))).
Proof.
  unfold project_item. cbv zeta. set (t := default _ _). cbn [get].
  assert (assoc (lit "type") (copy_item_fields t source (copy_status source [(lit "type", JString t)])) = Some (JString t)) as H.
  { assert (assoc (lit "type") (copy_status source [(lit "type", JString t)]) = Some (JString t)) as Hs.
    { unfold copy_status. destruct (assoc (lit "status") source); rewrite ?assoc_obj_insert; reflexivity. }
    unfold copy_item_fields. destruct (item_fields t) as [fields|] eqn:Ef.
    - rewrite assoc_copy_sanitized; [done|]. eapply item_fields_lack; [done|left].
    - rewrite assoc_obj_insert. exact Hs. }
  destruct (seqb t (lit "mcpToolCall")); [rewrite assoc_obj_update_ne by done|];
    (destruct (seqb t (lit "agentMessage")); [unfold copy_phase; repeat case_match; rewrite ?assoc_obj_insert|]; exact H).
Qed.

(** What an event of an item is made of. *)
Lemma project_message_item message event source :
  assoc (lit "item") (message_params message) = Some (JObject source) → project_message message = Some event →
  get (lit "data") (event_payload event) = Some (project_item source) ∧
  get (lit "itemType") (event_payload event) ≫= as_str = string_field source (lit "type") ∧
  get (lit "threadId") (event_payload event) ≫= as_str = Some (event_thread event).
Proof.
  unfold project_message. intros Hi (thread & _ & H)%bind_Some. rewrite Hi in H. cbn [mbind option_bind as_object] in H.
  destruct (classify_method _) as [type lifecycle]. injection H as <-. cbn [event_payload event_thread].
  split_and!; [reflexivity| |reflexivity]. cbv zeta.
  match goal with |- get _ (JObject ?l) ≫= _ = _ =>
    change (as_str (or_null (string_field source (lit "type"))) = string_field source (lit "type")) end.
  by destruct (string_field source (lit "type")).
Qed.

Lemma project_item_object source : ∃ fields, project_item source = JObject fields.
Proof. unfold project_item. by eexists. Qed.

(** The artifacts of an item of a thread, and a value with them. *)
Definition artifacts_in (db : EventDb) (run : Uuid) (thread : str) (source : Fields) : list Json :=
  if bool_decide (string_field source (lit "type") = Some (lit "agentMessage")) then
    match get (lit "text") (project_item source) ≫= as_str with
    | Some text => omap (embedded_artifact db run thread) (inline_artifact_refs text)
    | None => []
    end
  else [].

Definition with_artifacts (artifacts : list Json) (v : Json) : Json :=
  match artifacts with
  | [] => v
  | _ => on_object (obj_insert (lit "inlineArtifacts") (JArray artifacts)) v
  end.

(** The data of an event when it is stored. *)
Definition live_data (db : EventDb) (run : Uuid) (event : ProjectedEvent) : option Json :=
  get (lit "data") (resolve_inline_artifacts_in_transaction db run (event_payload event)).

Lemma live_data_spec db run message event source :
  assoc (lit "item") (message_params message) = Some (JObject source) → project_message message = Some event →
  live_data db run event = Some (with_artifacts (artifacts_in db run (event_thread event) source) (project_item source)).
Proof.
  intros Hi (Hd & Hty & Hth)%(project_message_item _ _ _ Hi). unfold live_data, resolve_inline_artifacts_in_transaction, artifacts_in.
  rewrite Hty, Hth, Hd. cbn [mbind option_bind]. case_bool_decide; cbn [negb]; [|done].
  destruct (get (lit "text") (project_item source) ≫= as_str) as [text|]; [|done].
  destruct (omap _ _) as [|a l]; [done|]. destruct (event_payload event) as [| | | | |fields]; try done. cbn [on_object get with_artifacts] in *.
  by rewrite assoc_obj_update, Hd.
Qed.

(** An item of the history is its projection, with its id. *)
Definition with_id (source : Fields) (v : Json) : Json :=
  match field_str source (lit "id") with Some id => on_object (obj_insert (lit "id") (JString id)) v | None => v end.

Lemma get_with_id source P key : key ≠ lit "id" → get key (with_id source (JObject P)) = assoc key P.
Proof.
  intros Hk. unfold with_id. destruct (field_str source (lit "id")); [|done]. cbn [on_object get]. rewrite assoc_obj_insert.
  by rewrite (proj2 (seqb_neq key _)).
Qed.

Lemma embed_spec db run thread source :
  (∀ text, resolve_inline_artifacts db run text = omap (embedded_artifact db run thread) (inline_artifact_refs text)) →
  embed_artifacts db run (with_id source (project_item source)) =
  with_artifacts (artifacts_in db run thread source) (with_id source (project_item source)).
Proof.
  intros Hr. pose proof (project_item_type source) as Hty. unfold embed_artifacts, artifacts_in.
  destruct (project_item source) as [| | | | |P]; try done. cbn [get] in Hty. rewrite !get_with_id, Hty by done.
  cbn [mbind option_bind as_str get].
  replace (bool_decide (Some (default (lit "unknown") (string_field source (lit "type"))) = Some (lit "agentMessage")))
    with (bool_decide (string_field source (lit "type") = Some (lit "agentMessage"))).
  2: { apply bool_decide_ext. destruct (string_field source (lit "type")); cbn; [done|]. by split. }
  case_bool_decide; [|done]. cbn [negb]. destruct (assoc (lit "text") P ≫= as_str) as [text|]; [|done]. rewrite Hr. by destruct (omap _ _).
Qed.

Lemma get_shown source artifacts P key :
  get key (with_artifacts artifacts (with_id source (JObject P))) =
  match field_str source (lit "id") with
  | Some id => if seqb key (lit "id") then Some (JString id) else get key (with_artifacts artifacts (JObject P))
  | None => get key (with_artifacts artifacts (JObject P))
  end.
Proof.
  unfold with_id. destruct (field_str source (lit "id")) as [id|]; [|done].
  destruct artifacts as [|a l]; cbn [with_artifacts on_object get]; rewrite !assoc_obj_insert; [done|].
  destruct (seqb key (lit "id")) eqn:E; [|done]. by apply seqb_eq in E as ->.
Qed.

(** Projected items have no artifacts of their own. *)
Lemma project_item_plain source : get (lit "inlineArtifacts") (project_item source) = None.
Proof.
  unfold project_item. cbv zeta. set (t := default _ _). cbn [get].
  assert (assoc (lit "inlineArtifacts") (copy_item_fields t source (copy_status source [(lit "type", JString t)])) = None) as H.
  { assert (assoc (lit "inlineArtifacts") (copy_status source [(lit "type", JString t)]) = None) as Hs.
    { unfold copy_status. destruct (assoc (lit "status") source); rewrite ?assoc_obj_insert; reflexivity. }
    unfold copy_item_fields. destruct (item_fields t) as [fields|] eqn:Ef.
    - rewrite assoc_copy_sanitized; [done|]. eapply item_fields_lack; [done|right; left].
    - rewrite assoc_obj_insert. exact Hs. }
  destruct (seqb t (lit "mcpToolCall")); [rewrite assoc_obj_update_ne by done|];
    (destruct (seqb t (lit "agentMessage")); [unfold copy_phase; repeat case_match; rewrite ?assoc_obj_insert|]; exact H).
Qed.

Lemma with_artifacts_get artifacts P l :
  assoc (lit "inlineArtifacts") P = None → get (lit "inlineArtifacts") (with_artifacts artifacts (JObject P)) = Some (JArray l) →
  l = artifacts.
Proof.
  intros HP. destruct artifacts as [|a l0]; cbn [with_artifacts on_object get]; [congruence|].
  rewrite assoc_obj_insert, seqb_refl. by intros [= <-].
Qed.

Lemma artifacts_in_stay s s' run thread source a :
  rtc step s s' → a ∈ artifacts_in (live_db s) run thread source → a ∈ artifacts_in (live_db s') run thread source.
Proof.
  intros Hs. unfold artifacts_in. case_bool_decide; [|done]. destruct (_ ≫= as_str) as [text|]; [|done]. by apply embedded_stays.
Qed.

(** The items of a turn are those of its source that are objects. *)
Lemma project_turn_items object turn : project_turn (JObject object) = Ok turn →
  history_items turn = omap project_turn_item (default [] (assoc (lit "items") object ≫= as_array)).
Proof.
  unfold project_turn. cbn [as_object]. destruct (field_str object (lit "id")) as [[|c id]|]; [done| |done]. by intros [= <-].
Qed.

Lemma turn_items_sources l :
  omap project_turn_item l = map (fun source => with_id source (project_item source)) (omap as_object l).
Proof.
  induction l as [|v l IH]; [done|]. cbn [omap list_omap]. unfold project_turn_item at 1.
  destruct (as_object v) as [source|]; cbn [mbind option_bind map]; [|exact IH]. f_equal. exact IH.
Qed.

(** C30: as long as no project is deleted, the history shows what the live channel showed.  Where
    the runtime's history of a run's thread has a turn, the turn is shown with an item for each
    of its items that is an object: the one that the event of this item would have as its data,
    with the artifacts that a message embeds, and the id of the item; although the artifacts
    are looked up through the events of their producers.  And no artifact that the data of an
    earlier event had is missing. *)
Theorem history_embeds_as_live db tokens s s' run row thread object turn :
  inlines db = ∅ → rtc step (mkLiveSystem db tokens None ∅) s → rtc step s s' →
  runs (run_db (live_db s')) !! run = Some row → codex_thread_id (progress row) = Some thread →
  project_turn (JObject object) = Ok turn →
  ∃ items, project_turn_with_refs (live_db s') run (JObject object) = Ok (with_items items turn) ∧
  Forall2 (fun source shown =>
    ∀ message event, assoc (lit "item") (message_params message) = Some (JObject source) →
      project_message message = Some event → event_thread event = thread →
      ∃ data, live_data (live_db s') run event = Some data ∧
        (∀ key, get key shown =
           match field_str source (lit "id") with
           | Some id => if seqb key (lit "id") then Some (JString id) else get key data
           | None => get key data
           end) ∧
        ∀ earlier l a, live_data (live_db s) run event = Some earlier →
          get (lit "inlineArtifacts") earlier = Some (JArray l) → a ∈ l →
          ∃ l', get (lit "inlineArtifacts") shown = Some (JArray l') ∧ a ∈ l')
    (omap as_object (default [] (assoc (lit "items") object ≫= as_array))) items.
Proof.
  intros Hi H0 H1 Hrow Ht Hv.
  assert (∀ text, resolve_inline_artifacts (live_db s') run text =
    omap (embedded_artifact (live_db s') run thread) (inline_artifact_refs text)) as Hres.
  { intros text. eapply resolved_as_embedded; [exact Hi|exact (transitivity H0 H1)|exact Hrow|exact Ht]. }
  exists (map (embed_artifacts (live_db s') run) (history_items turn)). split.
  { unfold project_turn_with_refs. by rewrite Hv. }
  assert (history_items turn = map (fun source => with_id source (project_item source))
    (omap as_object (default [] (assoc (lit "items") object ≫= as_array)))) as ->.
  { apply project_turn_items in Hv. rewrite Hv. apply turn_items_sources. }
  rewrite map_map. apply Forall2_fmap_r, Forall_Forall2_diag, Forall_forall. intros source _ message event Hm He Hth.
  rewrite (embed_spec _ _ thread) by done. rewrite !(live_data_spec _ _ _ _ _ Hm He), Hth. eexists. split; [reflexivity|].
  destruct (project_item_object source) as [P HP]. rewrite HP. split; [intros key; apply get_shown|].
  intros earlier l a [= <-] Hl Ha. rewrite get_shown.
  replace (match field_str source (lit "id") with Some _ => _ | None => _ end)
    with (get (lit "inlineArtifacts") (with_artifacts (artifacts_in (live_db s') run thread source) (JObject P)))
    by (by destruct (field_str source (lit "id"))).
  pose proof (project_item_plain source) as Hp. rewrite HP in Hp. cbn [get] in Hp.
  apply with_artifacts_get in Hl as ->; [|done].
  pose proof (artifacts_in_stay _ _ run thread source a H1 Ha) as Ha'.
  exists (artifacts_in (live_db s') run thread source). split; [|done].
  destruct (artifacts_in (live_db s') run thread source) as [|x l']; [by apply not_elem_of_nil in Ha'|].
  cbn [with_artifacts on_object get]. by rewrite assoc_obj_insert, seqb_refl.
Qed.
End producers.

(** ** Approvals among the items *)

Lemma position_None p items : position p items = None → Forall (fun i => p i = false) items.
Proof.
  induction items as [|i items IH]; cbn; [constructor|]. destruct (p i) eqn:E; [done|].
  intros H%fmap_None. constructor; [done|by apply IH].
Qed.

Lemma position_Some p items k : position p items = Some k →
  ∃ pre i post, items = pre ++ i :: post ∧ length pre = k ∧ p i = true ∧ Forall (fun i => p i = false) pre.
Proof.
  revert k. induction items as [|i items IH]; intros k; cbn; [done|]. destruct (p i) eqn:E.
  - intros [= <-]. by exists [], i, items.
  - intros (k' & (pre & j & post & -> & <- & Hj & Hpre)%IH & ->)%fmap_Some. exists (i :: pre), j, post. by repeat constructor.
Qed.

Lemma leading_spec p items : ∃ mid post, items = mid ++ post ∧ length mid = leading p items ∧ Forall (fun i => p i = true) mid.
Proof.
  induction items as [|i items (mid & post & Hi & Hl & Hmid)]; cbn; [by exists [], []|]. destruct (p i) eqn:E.
  - exists (i :: mid), post. rewrite Hi at 1. cbn. split_and!; [done|by rewrite Hl|by constructor].
  - by exists [], (i :: items).
Qed.

Lemma vec_insert_app {A} (pre post : list A) x : vec_insert (length pre) x (pre ++ post) = Some (pre ++ x :: post).
Proof.
  unfold vec_insert. rewrite length_app, (proj2 (Nat.leb_le _ _)) by lia. by rewrite take_app_length, drop_app_length.
Qed.

Section placing.
Context (overlay : ThreadHistoryOverlay).
#[local] Abbreviation place items a := (vec_insert (insert_at overlay items a) (overlay_item a) items).

(** A request that names the tool of an earlier call goes behind the last such call and the
    requests of this tool that are there. *)
Lemma place_after_call items a tool : overlay_tool a = Some tool →
  existsb (is_requested_call overlay tool (overlay_sequence a)) items = true →
  ∃ pre call mid post, items = pre ++ call :: mid ++ post ∧ place items a = Some (pre ++ call :: mid ++ overlay_item a :: post) ∧
    is_requested_call overlay tool (overlay_sequence a) call = true ∧ Forall (fun i => is_tool_approval tool i = true) mid ∧
    Forall (fun i => is_requested_call overlay tool (overlay_sequence a) i = false) (mid ++ post).
Proof.
  intros Ht He. unfold insert_at. rewrite Ht. cbn [mbind option_bind].
  destruct (rposition (is_requested_call overlay tool (overlay_sequence a)) items) as [k|] eqn:Ek.
  - apply rposition_Some in Ek as (pre & call & post & -> & <- & Hc & Hpost). cbn [mbind option_bind].
    replace (drop (S (length pre)) (pre ++ call :: post)) with post by (rewrite <- drop_drop, drop_app_length; done) ||
      (rewrite cons_middle, app_assoc, drop_app_length'; [done|rewrite length_app; cbn; lia]).
    destruct (leading_spec (is_tool_approval tool) post) as (mid & post' & -> & <- & Hmid).
    exists pre, call, mid, post'. split_and!; try done.
    replace (pre ++ call :: mid ++ post') with ((pre ++ call :: mid) ++ post') by by rewrite <- app_assoc.
    replace (S (length pre) + length mid) with (length (pre ++ call :: mid)) by (rewrite length_app; cbn; lia).
    rewrite vec_insert_app. by rewrite <- app_assoc.
  - exfalso. apply existsb_exists in He as (i & Hi & Hp). apply list_elem_of_In, list_elem_of_split in Hi as (l1 & l2 & ->).
    rewrite rposition_app in Ek. cbn [rposition] in Ek. destruct (rposition _ l2); [done|]. by rewrite Hp in Ek.
Qed.

(** Any other goes before the first item that is known to be later. *)
Lemma place_by_sequence items a :
  (∀ tool, overlay_tool a = Some tool → existsb (is_requested_call overlay tool (overlay_sequence a)) items = false) →
  ∃ pre post, items = pre ++ post ∧ place items a = Some (pre ++ overlay_item a :: post) ∧
    Forall (fun i => is_later overlay (overlay_sequence a) i = false) pre ∧
    from_option (fun i => is_later overlay (overlay_sequence a) i = true) True (head post).
Proof.
  intros Ht. assert (insert_at overlay items a = default (length items) (position (is_later overlay (overlay_sequence a)) items)) as ->.
  { unfold insert_at. destruct (overlay_tool a) as [tool|]; [|done]. cbn [mbind option_bind]. rewrite rposition_None; [done|].
    apply Forall_forall. intros i Hi. specialize (Ht tool eq_refl). destruct (is_requested_call _ _ _ i) eqn:E; [|done].
    rewrite (proj2 (existsb_exists _ _)) in Ht; [done|]. exists i. by rewrite <- list_elem_of_In. }
  destruct (position _ items) as [k|] eqn:Ek; cbn [from_option id].
  - apply position_Some in Ek as (pre & i & post & -> & <- & Hi & Hpre). exists pre, (i :: post). by rewrite vec_insert_app.
  - exists items, []. rewrite app_nil_r. split_and!; [done| |by apply position_None|done].
    pose proof (vec_insert_app items [] (overlay_item a)) as H. by rewrite app_nil_r in H.
Qed.

(** Every request is placed, and moves nothing else. *)
Lemma place_total items a : ∃ pre post, items = pre ++ post ∧ place items a = Some (pre ++ overlay_item a :: post).
Proof.
  destruct (from_option (fun tool => existsb (is_requested_call overlay tool (overlay_sequence a)) items) false (overlay_tool a)) eqn:He.
  - destruct (overlay_tool a) as [tool|] eqn:Ht; [|done].
    destruct (place_after_call items a tool Ht He) as (pre & call & mid & post & -> & -> & _). exists (pre ++ call :: mid), post.
    by rewrite <- !app_assoc.
  - destruct (place_by_sequence items a) as (pre & post & Hi & Hp & _); [|by eauto].
    intros tool Ht. by rewrite Ht in He.
Qed.

Lemma place_all approvals items : ∃ items', ofold (fun items a => place items a) items approvals = Some items' ∧
  sublist items items' ∧ items' ≡ₚ items ++ map overlay_item approvals.
Proof.
  revert items. induction approvals as [|a approvals IH]; intros items; cbn [ofold map].
  - exists items. by rewrite app_nil_r.
  - destruct (place_total items a) as (pre & post & -> & ->). cbn [mbind option_bind].
    destruct (IH (pre ++ overlay_item a :: post)) as (items' & -> & Hs & Hp). exists items'. split_and!; [done| |].
    + etransitivity; [|exact Hs]. apply sublist_app; [done|by constructor].
    + rewrite Hp. solve_Permutation.
Qed.
End placing.

(** ** The order of the whole *)

(** Where an entry of the shown turn comes from. *)
Inductive entry := OfRuntime (item : Json) | OfPlatform (a : ApprovalOverlay).

Definition entry_json (e : entry) : Json := match e with OfRuntime item => item | OfPlatform a => overlay_item a end.
Definition runtime_item (e : entry) : option Json := match e with OfRuntime item => Some item | OfPlatform _ => None end.
Definition platform_item (e : entry) : option ApprovalOverlay := match e with OfRuntime _ => None | OfPlatform a => Some a end.

Definition entry_sequence (overlay : ThreadHistoryOverlay) (e : entry) : option Z :=
  match e with OfRuntime item => item_sequence overlay item | OfPlatform a => Some (overlay_sequence a) end.

(** Entries whose events are known come in the order of these events. *)
Definition in_order (overlay : ThreadHistoryOverlay) (x y : entry) : Prop :=
  match entry_sequence overlay x, entry_sequence overlay y with Some m, Some n => (m ≤ n)%Z | _, _ => True end.

Definition overlay_before (a b : ApprovalOverlay) : Prop := (overlay_sequence a ≤ overlay_sequence b)%Z.

Section order.
Context (overlay : ThreadHistoryOverlay).
#[local] Abbreviation place items a := (vec_insert (insert_at overlay items a) (overlay_item a) items).

(** The id of a request is not that of an item. *)
Definition unknown_item (a : ApprovalOverlay) : Prop := item_sequence overlay (overlay_item a) = None.

Lemma later_sequence a e : is_later overlay (overlay_sequence a) (entry_json e) = true →
  (∀ b, platform_item e = Some b → unknown_item b) →
  ∃ item n, e = OfRuntime item ∧ entry_sequence overlay e = Some n ∧ (overlay_sequence a < n)%Z.
Proof.
  unfold is_later. destruct e as [item|b]; cbn; intros Hl Hb.
  - destruct (item_sequence overlay item) as [n|]; [|done]. exists item, n. split_and!; [done..|]. by apply Z.ltb_lt.
  - by rewrite (Hb b eq_refl) in Hl.
Qed.

Lemma not_later_in_order a e : is_later overlay (overlay_sequence a) (entry_json e) = false →
  (∀ b, platform_item e = Some b → overlay_before b a) → in_order overlay e (OfPlatform a).
Proof.
  unfold is_later, in_order. destruct e as [item|b]; cbn; intros Hl Hb; [|by apply Hb].
  destruct (item_sequence overlay item); [|done]. by apply Z.ltb_ge.
Qed.

Lemma place_one es a : StronglySorted (in_order overlay) es → overlay_tool a = None →
  (∀ b, OfPlatform b ∈ es → overlay_before b a ∧ unknown_item b) →
  ∃ pre post, es = pre ++ post ∧ place (map entry_json es) a = Some (map entry_json (pre ++ OfPlatform a :: post)) ∧
    StronglySorted (in_order overlay) (pre ++ OfPlatform a :: post) ∧ omap platform_item post = [].
Proof.
  intros Hs Ht Hb. destruct (place_by_sequence overlay (map entry_json es) a) as (jpre & jpost & Hsplit & Hp & Hpre & Hpost).
  { intros tool E. congruence. }
  symmetry in Hsplit. apply map_eq_app in Hsplit as (pre & post & -> & <- & <-) || (symmetry in Hsplit; apply map_eq_app in Hsplit as (pre & post & -> & <- & <-)).
  exists pre, post. split; [done|]. rewrite map_app in Hp |- *. split; [by rewrite map_app|].
  apply StronglySorted_app in Hs as (Hcross & Hs1 & Hs2).
  assert (Forall (fun e => in_order overlay (OfPlatform a) e) post ∧ omap platform_item post = []) as [Hafter Hnone].
  { destruct post as [|x post]; [done|]. cbn in Hpost. apply later_sequence in Hpost as (item & n & -> & Hn & Hlt).
    2:{ intros b Eb. destruct x; [done|]. injection Eb as ->. apply Hb. apply elem_of_app. right. by left. }
    apply StronglySorted_inv in Hs2 as [_ Hx]. rewrite Forall_forall in Hx.
    assert (∀ e m, e ∈ post → entry_sequence overlay e = Some m → (overlay_sequence a < m)%Z) as Hall.
    { intros e m He Hm. specialize (Hx e He). unfold in_order in Hx. rewrite Hn, Hm in Hx. lia. }
    split.
    - constructor; [unfold in_order; rewrite Hn; cbn; lia|]. apply Forall_forall. intros e He. unfold in_order. cbn.
      destruct (entry_sequence overlay e) as [m|] eqn:Em; [|done]. specialize (Hall e m He Em). lia.
    - cbn. clear Hx. assert (∀ b, OfPlatform b ∈ post → False) as Hno.
      { intros b Hin. destruct (Hb b) as [Hba _]; [apply elem_of_app; right; by right|]. unfold overlay_before in Hba.
        specialize (Hall _ _ Hin eq_refl). lia. }
      clear -Hno. induction post as [|[i|b] post IH]; [done| |by destruct (Hno b); left]. cbn. apply IH. intros b Hin. apply (Hno b). by right. }
  split; [|done]. apply StronglySorted_app. split_and!; [|done|by constructor].
  intros x y Hx [->|Hy]%elem_of_cons; [|by apply Hcross].
  rewrite Forall_map, Forall_forall in Hpre. apply not_later_in_order; [by apply Hpre|].
  intros b Eb. destruct x; [done|]. injection Eb as ->. apply Hb, elem_of_app. by left.
Qed.

Lemma place_in_order approvals es : StronglySorted (in_order overlay) es → StronglySorted overlay_before approvals →
  Forall (fun a => overlay_tool a = None ∧ unknown_item a) approvals →
  (∀ b, OfPlatform b ∈ es → unknown_item b ∧ Forall (overlay_before b) approvals) →
  ∃ es', ofold (fun items a => place items a) (map entry_json es) approvals = Some (map entry_json es') ∧
    StronglySorted (in_order overlay) es' ∧ omap runtime_item es' = omap runtime_item es ∧
    omap platform_item es' = omap platform_item es ++ approvals.
Proof.
  revert es. induction approvals as [|a approvals IH]; intros es Hs Has Hta Hb; cbn [ofold].
  - exists es. by rewrite app_nil_r.
  - apply StronglySorted_inv in Has as [Has Ha]. apply Forall_cons in Hta as [[Ht Hu] Hta].
    destruct (place_one es a Hs Ht) as (pre & post & -> & -> & Hs' & Hnone).
    { intros b Hin. destruct (Hb b Hin) as [? [? _]%Forall_cons]. done. }
    cbn [mbind option_bind]. destruct (IH (pre ++ OfPlatform a :: post)) as (es' & -> & Hs'' & Hr & Hp); [done..| |].
    { intros b [Hin|[[= ->]|Hin]%elem_of_cons]%elem_of_app; [|by split|];
        destruct (Hb b) as [? [? ?]%Forall_cons]; try done; apply elem_of_app; auto. }
    exists es'. split_and!; [done..| |].
    + rewrite Hr, !omap_app. done.
    + rewrite Hp, !omap_app. cbn. rewrite Hnone, app_nil_r. by rewrite <- app_assoc.
Qed.
End order.

(** What the history shows of a stored event of this turn. *)
Definition shown_request (show_uuid : Uuid → str) (approvals_db : Db) (run : Uuid) (resolved : list str) (turn : str) (e : RunEvent) :
    option ApprovalOverlay :=
  if seqb (row_type e) (lit "platform.approval.requested") && bool_decide (row_turn e = Some turn) then
    id ← event_data e (lit "approvalId") ≫= as_str;
    let request := event_data e (lit "requestParams") ≫= as_object in
    Some (mkOverlay (sequence e) (requested_tool_name request)
            (approval_item (approval_status show_uuid approvals_db run resolved id) id request))
  else None.

Lemma overlay_rows_spec show_uuid adb run resolved turn rows overlay :
  default [] (approvals_by_turn (foldl (overlay_row show_uuid adb run resolved) overlay rows) !! turn) =
  default [] (approvals_by_turn overlay !! turn) ++ omap (shown_request show_uuid adb run resolved turn) rows.
Proof.
  revert overlay. induction rows as [|e rows IH]; intros overlay; [by rewrite app_nil_r|]. cbn [foldl]. rewrite IH. clear IH.
  unfold overlay_row. cbn [omap list_omap]. unfold shown_request at 2. destruct (existsb _ _) eqn:Ee.
  - assert (seqb (row_type e) (lit "platform.approval.requested") = false) as ->.
    { cbn in Ee. destruct (seqb (row_type e) (lit "codex.item.started")) eqn:E1; [apply seqb_eq in E1 as ->; by vm_compute|].
      destruct (seqb (row_type e) (lit "codex.item.completed")) eqn:E2; [apply seqb_eq in E2 as ->; by vm_compute|done]. }
    by destruct (row_item e).
  - destruct (seqb (row_type e) (lit "platform.approval.requested")); cbn [negb andb]; [|done].
    destruct (row_turn e) as [turn'|]; [|done].
    destruct (event_data e (lit "approvalId") ≫= as_str) as [aid|]; [|by case_bool_decide]. cbn [approvals_by_turn mbind option_bind].
    case_bool_decide as Et.
    + injection Et as ->. rewrite lookup_insert_eq. cbn [default from_option id]. by rewrite <- app_assoc.
    + rewrite lookup_insert_ne by congruence. done.
Qed.

Lemma omap_requests_sorted show_uuid adb run resolved turn rows :
  StronglySorted (fun a b => sequence a ≤ sequence b)%Z rows →
  StronglySorted overlay_before (omap (shown_request show_uuid adb run resolved turn) rows).
Proof.
  assert (∀ e a, shown_request show_uuid adb run resolved turn e = Some a → overlay_sequence a = sequence e) as Hseq.
  { intros e a. unfold shown_request. case_match; [|done]. by intros (id & _ & [= <-])%bind_Some. }
  induction 1 as [|e rows Hs IH He]; cbn; [constructor|]. destruct (shown_request _ _ _ _ _ e) as [a|] eqn:Ea; [|done].
  constructor; [done|]. apply Forall_forall. intros b (e' & He' & Hb)%list_elem_of_omap. unfold overlay_before.
  rewrite (Hseq _ _ Ea), (Hseq _ _ Hb). rewrite Forall_forall in He. by apply He.
Qed.

(** The requests of a turn are its stored events, in their order. *)
Lemma load_history_spec show_uuid adb db run turn :
  let approvals := default [] (approvals_by_turn (load_history_overlay show_uuid adb db run) !! turn) in
  approvals = omap (shown_request show_uuid adb run (resolved_ids (history_rows db run)) turn) (history_rows db run) ∧
  StronglySorted overlay_before approvals.
Proof.
  unfold load_history_overlay. cbn [approvals_by_turn]. rewrite lookup_fmap.
  pose proof (overlay_rows_spec show_uuid adb run (resolved_ids (history_rows db run)) turn (history_rows db run) (mkHistoryOverlay ∅ ∅)) as H.
  cbn [approvals_by_turn] in H. rewrite lookup_empty in H. cbn [default from_option id app] in H.
  assert (StronglySorted (fun a b => sequence a ≤ sequence b)%Z (history_rows db run)) as Hrows.
  { apply sort_by_sorted; [intros ???; lia|intros ??; apply Z.leb_le|]. intros x y Hxy%Z.leb_gt. lia. }
  apply (omap_requests_sorted show_uuid adb run (resolved_ids (history_rows db run)) turn) in Hrows. rewrite <- H in Hrows.
  destruct (approvals_by_turn _ !! turn) as [l|]; cbn [fmap option_fmap option_map default from_option id] in *; [|by rewrite <- H].
  rewrite sort_by_id; [by rewrite <- H|]. eapply StronglySorted_weaken; [|exact Hrows]. intros a b. apply Z.leb_le.
Qed.

(** The history of a turn shows each request for approval once and in its place.  The
    requests that the platform stored for a turn, with their present state, are put among
    the items of the runtime, of which none is lost or moved; the insertion never goes
    beyond the end.  And if no request names its tool, then items and requests whose events
    are known come in the order of these events. *)
Theorem approvals_join_history show_uuid adb db run turn :
  let overlay := load_history_overlay show_uuid adb db run in
  let rows := history_rows db run in
  let approvals := omap (shown_request show_uuid adb run (resolved_ids rows) (history_turn_id turn)) rows in
  ∃ items, apply_overlay overlay turn = Some (with_items items turn) ∧
    sublist (history_items turn) items ∧ items ≡ₚ history_items turn ++ map overlay_item approvals ∧
    (StronglySorted (in_order overlay) (map OfRuntime (history_items turn)) →
     Forall (fun a => overlay_tool a = None ∧ unknown_item overlay a) approvals →
     ∃ es, items = map entry_json es ∧ omap runtime_item es = history_items turn ∧ omap platform_item es = approvals ∧
           StronglySorted (in_order overlay) es).
Proof.
  cbv zeta. destruct (load_history_spec show_uuid adb db run (history_turn_id turn)) as [<- Hs]. unfold apply_overlay.
  set (overlay := load_history_overlay show_uuid adb db run) in *. set (approvals := default [] _) in *.
  destruct (place_all overlay approvals (history_items turn)) as (items & Ho & Hsub & Hperm). exists items. rewrite Ho.
  split_and!; [done..|]. intros Hitems Hall. destruct (place_in_order overlay approvals (map OfRuntime (history_items turn)))
    as (es & He & Hes & Hr & Hp); [done..| |].
  - intros b Hb. apply list_elem_of_In, in_map_iff in Hb as (? & ? & _). done.
  - assert (map entry_json (map OfRuntime (history_items turn)) = history_items turn) as Hid.
    { rewrite map_map. cbn. by rewrite map_id. }
    rewrite Hid, Ho in He. injection He as ->. exists es. split_and!; [done| | |done].
    + rewrite Hr, omap_map. clear. induction (history_items turn) as [|i l IH]; [done|]. cbn. by f_equal.
    + rewrite Hp, omap_map. replace (omap _ (history_items turn)) with (@nil ApprovalOverlay); [done|].
      clear. by induction (history_items turn).
Qed.

(** ** Requests do not name their tool

    The mark that [requested_tool_name] looks for holds a backslash, the question of the
    runtime holds none: without a field for the tool a request is placed by its event. *)

Lemma trim_infix s : ∃ a b, s = a ++ trim s ++ b.
Proof.
  assert (∃ a, s = a ++ trim_start s) as [a Ha].
  { induction s as [|c s [a IH]]; [by exists []|]. cbn. destruct (is_whitespace c); [|by exists []].
    exists (c :: a). cbn. by rewrite <- IH. }
  destruct (trim_end_prefix (trim_start s)) as (b & Hb & _). exists a, b. rewrite Ha at 1. by rewrite Hb at 1.
Qed.

(** The asker in the question is made of the names that are given. *)
Definition plain_text (s : str) : bool := forallb (fun c => negb (c =? backslash)%N) s.

Lemma plain_trim s : plain_text s = true → plain_text (trim s) = true.
Proof.
  destruct (trim_infix s) as (a & b & E). unfold plain_text. rewrite E at 1. rewrite !forallb_app, !andb_true_iff. tauto.
Qed.

Lemma fallback_message_plain server tool connector : plain_text server = true → plain_text tool = true →
  plain_text (default [] connector) = true → plain_text (build_mcp_tool_approval_fallback_message server tool connector) = true.
Proof.
  intros Hs Ht Hc. unfold build_mcp_tool_approval_fallback_message, plain_text in *. rewrite !forallb_app, Ht. cbn [forallb N.eqb Pos.eqb].
  match goal with |- (_ && (forallb _ ?actor && _))%bool = true => assert (forallb (fun c => negb (c =? backslash)%N) actor = true) as -> end.
  - assert (forallb (fun c => negb (c =? backslash)%N)
      (if seqb server (lit "codex_apps") then lit "this app" else lit "the " ++ server ++ lit " MCP server") = true) as Hdefault.
    { destruct (seqb server _); [done|]. rewrite !forallb_app, Hs. by vm_compute. }
    destruct connector as [c|]; cbn [mbind option_bind]; [|done]. destruct (seqb (trim c) []); [done|]. by apply plain_trim.
  - by vm_compute.
Qed.

Lemma requested_tool_unrecognised request server tool connector :
  field_str request (lit "tool") = None → field_str request (lit "toolName") = None →
  plain_text server = true → plain_text tool = true → plain_text (default [] connector) = true →
  field_str request (lit "message") = Some (build_mcp_tool_approval_fallback_message server tool connector) →
  requested_tool_name (Some request) = None.
Proof.
  intros H1 H2 Hs Ht Hc Hm. unfold requested_tool_name. cbn [mbind option_bind]. unfold trimmed_field. rewrite H1, H2, Hm.
  cbn [mbind option_bind]. destruct (split_once TOOL_MARKER _) as [[a b]|] eqn:E; [exfalso|done]. apply split_once_app in E.
  pose proof (fallback_message_plain server tool connector Hs Ht Hc) as Hp. rewrite E in Hp. unfold plain_text in Hp.
  rewrite !forallb_app, !andb_true_iff in Hp. destruct Hp as (_ & Hp & _). by vm_compute in Hp.
Qed.

(** ** Samples *)

Module SampleHistory.
Import SampleEvents.
Definition s (x : string) : Json := JString (lit x).
(** The run of [SampleArtifact] asked for leave after the call of its tool. *)
Definition request : RunEvent :=
  mkRunEvent 101 2 5 (lit "platform.approval.requested") (Some (lit "thread-1")) (Some (lit "turn-1")) None
    (JObject [(lit "data", JObject [(lit "approvalId", s "9"); (lit "requestParams", JObject
       [(lit "message", JString (build_mcp_tool_approval_fallback_message (lit "maps") (lit "geocode") None))])])]) 11.
Definition started (item : string) (n : Z) : RunEvent :=
  mkRunEvent 100 n 5 (lit "codex.item.started") (Some (lit "thread-1")) (Some (lit "turn-1")) (Some (lit item)) (JObject []) 10.
Definition db : EventDb :=
  mkEventDb (run_db db0) ∅ [started "call" 1; request; started "message" 3] 4 ∅ ∅ ∅.
Definition item (id type : string) : Json := JObject [(lit "id", s id); (lit "tool", s "geocode"); (lit "type", s type)].
Definition turn : ThreadHistoryTurn :=
  mkHistoryTurn (lit "turn-1") (lit "completed") [item "call" "mcpToolCall"; item "message" "agentMessage"] None None None None.
Definition no_approvals : Db := mkDb ∅ [] ∅ [].
Definition overlay : ThreadHistoryOverlay := load_history_overlay show_uuid no_approvals db 5.
Definition ids (t : option ThreadHistoryTurn) : option (list Json) :=
  t ≫= fun t => Some (omap (get (lit "id")) (history_items t)).
End SampleHistory.

Example request_is_shown_in_place :
  SampleHistory.ids (apply_overlay SampleHistory.overlay SampleHistory.turn) =
    Some [SampleHistory.s "call"; SampleHistory.s "approval-9"; SampleHistory.s "message"].
Proof. vm_compute. reflexivity. Qed.

#[local] Existing Instances SampleArtifact.text SampleProjection.float64 SampleEvents.git.

(** A turn with a message that embeds the stored map. *)
Module SampleMessage.
Definition item : Fields :=
  [(lit "id", JString (lit "message-1")); (lit "text", JString (embed_code (lit "map-1"))); (lit "type", JString (lit "agentMessage"))].
Definition turn : Fields := [(lit "id", JString (lit "turn-1")); (lit "items", JArray [JObject item])].
(** The event of the message. *)
Definition message : Fields :=
  [(lit "method", JString (lit "item/completed"));
   (lit "params", JObject [(lit "item", JObject item); (lit "threadId", JString (lit "thread-1")); (lit "turnId", JString (lit "turn-1"))])].
Lemma stored_live : rtc (live_step SampleEvents.show_uuid SampleEvents.base64 SampleEvents.show_time)
  (mkLiveSystem SampleEvents.db0 ∅ None ∅) SampleArtifact.s1.
Proof. apply rtc_once, (live_persist _ _ _ SampleEvents.draws SampleEvents.frame). vm_compute. reflexivity. Qed.
End SampleMessage.

Lemma history_embeds_as_live_witness :
  ∃ items event data, project_turn_with_refs (live_db SampleArtifact.s1) 5 (JObject SampleMessage.turn) =
      Ok (mkHistoryTurn (lit "turn-1") (lit "completed") items None None None None) ∧
    project_message SampleMessage.message = Some event ∧ live_data (live_db SampleArtifact.s1) 5 event = Some data ∧
    is_Some (get (lit "inlineArtifacts") data) ∧
    Exists (fun shown => get (lit "inlineArtifacts") shown = get (lit "inlineArtifacts") data) items.
Proof.
  destruct (project_turn (JObject SampleMessage.turn)) as [turn|] eqn:Et; [|vm_compute in Et; discriminate].
  destruct (project_message SampleMessage.message) as [event|] eqn:Ee; [|vm_compute in Ee; discriminate].
  destruct (history_embeds_as_live SampleEvents.show_uuid SampleEvents.base64 SampleEvents.show_time SampleEvents.db0 ∅
    SampleArtifact.s1 SampleArtifact.s1 5%N SampleEvents.run5 (lit "thread-1") SampleMessage.turn turn eq_refl
    SampleMessage.stored_live (rtc_refl _ _)) as (items & Hp & Hf); [vm_compute; reflexivity|vm_compute; reflexivity|exact Et|].
  change (omap as_object _) with [SampleMessage.item] in Hf. apply Forall2_cons_inv_l in Hf as (shown & rest & H & _ & ->).
  destruct (H SampleMessage.message event eq_refl Ee) as (data & Hd & Hk & _); [by vm_compute in Ee; injection Ee as <-|].
  exists (shown :: rest), event, data. vm_compute in Et. injection Et as <-. split; [exact Hp|]. split; [done|]. split; [exact Hd|]. split.
  - vm_compute in Ee. injection Ee as <-. vm_compute in Hd. injection Hd as <-. vm_compute. by eexists.
  - left. rewrite Hk. reflexivity.
Defined.
