(* ===== verification/Providers.v ===== *)
(** * Providers of models and their keys

    [apps/web/crates/secret-store], [profile-registry] and [provider-service]: the keys of model
    providers are stored encrypted, given to the runtime of a profile through its environment,
    and the configuration of the runtime only names the variable.  Changing a provider is a
    sequence of steps in three places with compensations.  An operation is a function of the
    world (the tables, the registry and the log of what was sent to runtimes) that asks what
    the model does not decide: whether a statement fails, random bytes, whether a process
    starts, what a runtime answers.  The changes of the service hold its lock, so that they
    do not interleave. *)

From S2P Require Import Prelude RustStr Utf8 RustPath ResponseModel Approval WorldState GitSource EventBridge.
Open Scope nat_scope.

(** ** The world *)

(** A row of [profile_secrets]; every statement binds the same purpose, so that the key of a
    row is its profile and its provider. *)
Record SecretRow := mkSecretRow {
  secret_organization : N;
  row_version : str;
  row_nonce : list N;
  row_ciphertext : list N
}.

(** A row of [platform_configuration_secrets] in the scope [global], which has no organization. *)
Record ConfigurationRow := mkConfigurationRow { config_secret : SecretRow; config_updated_by : N; config_updated_at : Z }.

Record ManagedProfile := mkManaged { secret_environment : gmap str str; managed_host : bool }.

Record ProfileRow := mkProfileRow {
  profile_row_id : N;
  profile_organization : N;
  profile_owner : N;
  profile_runtime_key : str;
  profile_active : bool
}.

Record World := mkWorld {
  profile_secrets : gmap (N * str) SecretRow;
  configuration_secrets : gmap str ConfigurationRow;
  registry : gmap str ManagedProfile;
  profiles_table : list ProfileRow;
  memberships : list (N * N);
  sent : list (str * Json)
}.

Definition set_secrets (s : gmap (N * str) SecretRow) (w : World) : World :=
  mkWorld s (configuration_secrets w) (registry w) (profiles_table w) (memberships w) (sent w).
Definition set_configuration (s : gmap str ConfigurationRow) (w : World) : World :=
  mkWorld (profile_secrets w) s (registry w) (profiles_table w) (memberships w) (sent w).
Definition set_registry (r : gmap str ManagedProfile) (w : World) : World :=
  mkWorld (profile_secrets w) (configuration_secrets w) r (profiles_table w) (memberships w) (sent w).
Definition log_sent (m : str * Json) (w : World) : World :=
  mkWorld (profile_secrets w) (configuration_secrets w) (registry w) (profiles_table w) (memberships w) (sent w ++ [m]).

(** ** Operations *)

Inductive Ask : Type → Type :=
| DbFails : Ask bool
| FillRandom (n : nat) : Ask (option (list N))
| Now : Ask Z
| AskRuntime (method : str) (params : Json) : Ask (result Json str)
| SpawnHost (environment : gmap str str) : Ask (option str)
| RestartHost (environment : gmap str str) : Ask (option str)
| ScheduleHost (environment : gmap str str) : Ask (option str)
| ShutdownHost : Ask (option str).

Inductive Steps (A : Type) : Type :=
| Done (a : A)
| Asks (X : Type) (q : Ask X) (k : X → Steps A).
Arguments Done {A} _.
Arguments Asks {A X} _ _.

Fixpoint sbind {A B} (p : Steps A) (k : A → Steps B) : Steps B :=
  match p with
  | Done a => k a
  | Asks q next => Asks q (fun x => sbind (next x) k)
  end.

(** Operations fail with an error and keep the world as they left it. *)
Definition Act (E A : Type) : Type := World → Steps (result A E * World).

Definition give {E A} (a : A) : Act E A := fun w => Done (Ok a, w).
Definition throw {E A} (e : E) : Act E A := fun w => Done (Err e, w).
Definition act_bind {E A B} (p : Act E A) (k : A → Act E B) : Act E B :=
  fun w => sbind (p w) (fun '(r, w) => match r with Ok a => k a w | Err e => Done (Err e, w) end).
(** The result, whether it is an error or not. *)
Definition attempt {E F A} (p : Act E A) : Act F (result A E) := fun w => sbind (p w) (fun '(r, w) => Done (Ok r, w)).
Definition ask {E X} (q : Ask X) : Act E X := fun w => Asks q (fun x => Done (Ok x, w)).
Definition look {E A} (f : World → A) : Act E A := fun w => Done (Ok (f w), w).
Definition change {E} (f : World → World) : Act E unit := fun w => Done (Ok tt, f w).
Definition lift {E A} (r : result A E) : Act E A := fun w => Done (r, w).
(** The conversion of errors by [?]. *)
Definition convert {E F A} (f : E → F) (p : Act E A) : Act F A := fun w => sbind (p w) (fun '(r, w) => Done (map_err f r, w)).

Declare Scope act_scope.
Delimit Scope act_scope with act.
Notation "'run' x ':=' p 'in' k" := (act_bind p (fun x => k))
  (at level 10, x name, p at level 100, k at level 200) : act_scope.
Open Scope act_scope.

(** ** [secret-store] *)

Inductive SecretStoreError := InvalidMasterKey | InvalidIdentity | EncryptFailed | DecryptFailed | UnsupportedKeyVersion (version : str) | SecretDatabase.

(** The crates [ring] and [base64] and the text of identifiers. *)
Class SecretPrimitives := {
  LessSafeKey : Type;
  unbound_key : list N → option LessSafeKey;
  seal_in_place : LessSafeKey → list N → list N → list N → option (list N);
  open_in_place : LessSafeKey → list N → list N → list N → option (list N);
  sha256 : list N → list N;
  base64_decode : str → option (list N);
  show_uuid : N → str
}.

(** What the documentation of authenticated encryption and of identifiers promises. *)
Class SecretLaws (P : SecretPrimitives) := {
  open_sealed key nonce context text sealed :
    seal_in_place key nonce context text = Some sealed → open_in_place key nonce context sealed = Some text;
  open_elsewhere key nonce context context' text sealed :
    seal_in_place key nonce context text = Some sealed → context' ≠ context → open_in_place key nonce context' sealed = None;
  show_uuid_inj : Inj (=) (=) show_uuid;
  show_uuid_chars id : Forall (fun c => is_ascii_digit c = true ∨ (97 <= c <= 102)%N ∨ c = dash) (show_uuid id)
}.

Section secret_store.
Context `{SecretPrimitives}.

Definition KEY_LENGTH : nat := 32.
Definition NONCE_LENGTH : nat := 12.
Definition PROVIDER_SECRET_PURPOSE : str := lit "provider_api_key".
Definition CONFIGURATION_SECRET_PURPOSE : str := lit "platform_configuration".

(** [SecretValue::new] *)
Definition new_secret (value : str) : result str SecretStoreError := if seqb (trim value) [] then Err InvalidIdentity else Ok value.

(** [MasterKey::from_base64] *)
Definition master_key_from_base64 (value : str) : result (list N) SecretStoreError :=
  match base64_decode (trim value) with
  | Some bytes => if length bytes =? KEY_LENGTH then Ok bytes else Err InvalidMasterKey
  | None => Err InvalidMasterKey
  end.

Record SecretCipher := mkCipher { cipher_key : LessSafeKey; key_version : str }.
Record EncryptedSecret := mkEncrypted { encrypted_version : str; encrypted_nonce : list N; encrypted_ciphertext : list N }.

(** [SecretCipher::new] *)
Definition new_cipher (master_key : list N) (version : str) : result SecretCipher SecretStoreError :=
  match unbound_key master_key with
  | None => Err InvalidMasterKey
  | Some key => if seqb (trim version) [] then Err InvalidMasterKey else Ok (mkCipher key version)
  end.

Context (cipher : SecretCipher).

(** [SecretCipher::seal]; the buffer that is filled has this length. *)
Definition seal (context : str) (value : str) : Act SecretStoreError EncryptedSecret :=
  run nonce := ask (FillRandom NONCE_LENGTH) in
  match nonce with
  | None => throw EncryptFailed
  | Some nonce =>
      if negb (length nonce =? NONCE_LENGTH) then throw EncryptFailed
      else match seal_in_place (cipher_key cipher) nonce (encode context) (encode value) with
           | None => throw EncryptFailed
           | Some ciphertext => give (mkEncrypted (key_version cipher) nonce ciphertext)
           end
  end.

(** [SecretCipher::open] *)
Definition open_secret (context : str) (e : EncryptedSecret) : result str SecretStoreError :=
  if negb (seqb (encrypted_version e) (key_version cipher)) then Err (UnsupportedKeyVersion (encrypted_version e))
  else match open_in_place (cipher_key cipher) (encrypted_nonce e) (encode context) (encrypted_ciphertext e) with
       | None => Err DecryptFailed
       | Some plaintext =>
           match from_utf8 plaintext with
           | Err _ => Err DecryptFailed
           | Ok text => map_err (fun _ => DecryptFailed) (new_secret text)
           end
       end.

Definition encrypted_from_row (row : SecretRow) : result EncryptedSecret SecretStoreError :=
  if length (row_nonce row) =? NONCE_LENGTH then Ok (mkEncrypted (row_version row) (row_nonce row) (row_ciphertext row)) else Err DecryptFailed.

Definition colons (parts : list str) : str := join [colon] parts.

Definition provider_context (organization_id profile_id : N) (provider_id : str) : str :=
  colons [lit "open-web-codex"; show_uuid organization_id; show_uuid profile_id; PROVIDER_SECRET_PURPOSE; provider_id].

Definition configuration_context (scope_kind scope_id config_key : str) : str :=
  colons [lit "open-web-codex"; CONFIGURATION_SECRET_PURPOSE; scope_kind; scope_id; config_key].

Definition underscore : char := 95.
Definition is_id_char (c : char) : bool := is_ascii_alphanumeric c || (c =? dash)%N || (c =? underscore)%N.

Definition validate_provider_id (id : str) : result unit SecretStoreError :=
  if seqb (trim id) [] || negb (forallb is_id_char id) then Err InvalidIdentity else Ok tt.

Definition validate_configuration_key (key : str) : result unit SecretStoreError :=
  if seqb (trim key) [] || (160 <? byte_len key) || negb (forallb (fun c => is_id_char c || (c =? dot)%N) key)
  then Err InvalidIdentity else Ok tt.

(** [format!("{byte:02X}")] *)
Definition upper_hex_digit (n : N) : char := (if n <? 10 then 48 + n else 55 + n)%N.
Definition upper_hex (byte : N) : str := [upper_hex_digit (byte / 16); upper_hex_digit (byte mod 16)].

Definition provider_environment_key (profile_id : N) (provider_id : str) : result str SecretStoreError :=
  let? _ := validate_provider_id provider_id in
  let hash := sha256 (encode (show_uuid profile_id ++ [colon] ++ provider_id)) in
  Ok (lit "OPEN_WEB_CODEX_PROVIDER_" ++ concat (map upper_hex (take 12 hash))).

(** A statement of the database, which may fail. *)
Definition statement {E A} (e : E) (k : Act E A) : Act E A :=
  run fails := ask DbFails in if fails then throw e else k.

Definition put_provider_key (organization_id profile_id : N) (provider_id value : str) : Act SecretStoreError str :=
  run _ := lift (validate_provider_id provider_id) in
  run encrypted := seal (provider_context organization_id profile_id provider_id) value in
  run _ := statement SecretDatabase (change (fun w =>
    set_secrets (<[(profile_id, provider_id) := mkSecretRow organization_id (encrypted_version encrypted) (encrypted_nonce encrypted)
                                                  (encrypted_ciphertext encrypted)]> (profile_secrets w)) w)) in
  lift (provider_environment_key profile_id provider_id).

(** The row with the key, if it is of the organization. *)
Definition secret_row (w : World) (organization_id profile_id : N) (provider_id : str) : option SecretRow :=
  row ← profile_secrets w !! (profile_id, provider_id);
  if (secret_organization row =? organization_id)%N then Some row else None.

Definition open_row (context : str) (row : SecretRow) : result str SecretStoreError :=
  let? e := encrypted_from_row row in open_secret context e.

Definition get_provider_key (organization_id profile_id : N) (provider_id : str) : Act SecretStoreError (option str) :=
  run _ := lift (validate_provider_id provider_id) in
  run row := statement SecretDatabase (look (fun w => secret_row w organization_id profile_id provider_id)) in
  match row with
  | None => give None
  | Some row => lift (rmap Some (open_row (provider_context organization_id profile_id provider_id) row))
  end.

Definition delete_provider_key (organization_id profile_id : N) (provider_id : str) : Act SecretStoreError str :=
  run _ := lift (validate_provider_id provider_id) in
  run _ := statement SecretDatabase (change (fun w =>
    match secret_row w organization_id profile_id provider_id with
    | Some _ => set_secrets (delete (profile_id, provider_id) (profile_secrets w)) w
    | None => w
    end)) in
  lift (provider_environment_key profile_id provider_id).

Record ProviderEnvironmentSecret := mkEnvironmentSecret { environment_provider : str; environment_key : str; environment_value : str }.

Definition environment_secret (organization_id profile_id : N) (entry : str * SecretRow) : result ProviderEnvironmentSecret SecretStoreError :=
  let '(provider_id, row) := entry in
  let? _ := validate_provider_id provider_id in
  let? value := open_row (provider_context organization_id profile_id provider_id) row in
  let? key := provider_environment_key profile_id provider_id in
  Ok (mkEnvironmentSecret provider_id key value).

Definition rows_of (organization_id profile_id : N) (w : World) : list (str * SecretRow) :=
  sort_by (fun a b => str_leb (fst a) (fst b))
    (omap (fun '((profile, provider), row) =>
       if ((profile =? profile_id) && (secret_organization row =? organization_id))%N then Some (provider, row) else None)
       (map_to_list (profile_secrets w))).

Definition list_provider_environment (organization_id profile_id : N) : Act SecretStoreError (list ProviderEnvironmentSecret) :=
  run rows := statement SecretDatabase (look (rows_of organization_id profile_id)) in
  lift (try_map (environment_secret organization_id profile_id) rows).

Definition global : str := lit "global".

Definition put_global_configuration_secret (config_key value : str) (updated_by : N) : Act SecretStoreError Z :=
  run _ := lift (validate_configuration_key config_key) in
  run encrypted := seal (configuration_context global global config_key) value in
  run now := ask Now in
  statement SecretDatabase (
    run _ := change (fun w => set_configuration (<[config_key := mkConfigurationRow
      (mkSecretRow 0 (encrypted_version encrypted) (encrypted_nonce encrypted) (encrypted_ciphertext encrypted)) updated_by now]>
      (configuration_secrets w)) w) in
    give now).

Definition get_global_configuration_secret (config_key : str) : Act SecretStoreError (option (str * Z)) :=
  run _ := lift (validate_configuration_key config_key) in
  run row := statement SecretDatabase (look (fun w => configuration_secrets w !! config_key)) in
  match row with
  | None => give None
  | Some row =>
      lift (let? value := open_row (configuration_context global global config_key) (config_secret row) in
            Ok (Some (value, config_updated_at row)))
  end.
End secret_store.

(** ** [profile-registry] *)

Inductive ProfileRegistryError :=
| AlreadyRegistered (profile : str)
| ProfileNotFound (profile : str)
| InvalidEnvironmentKey
| HostFailed (message : str)
| HostRecovery (update recovery : str).

Definition is_environment_char (c : char) : bool := ((65 <=? c) && (c <=? 90))%N || is_ascii_digit c || (c =? underscore)%N.

Definition validate_environment_key (key : str) : result unit ProfileRegistryError :=
  if seqb key [] || negb (forallb is_environment_char key) then Err InvalidEnvironmentKey else Ok tt.

Definition set_managed (profile : str) (m : ManagedProfile) (w : World) : World := set_registry (<[profile := m]> (registry w)) w.

Definition managed (profile : str) : Act ProfileRegistryError ManagedProfile :=
  run m := look (fun w => registry w !! profile) in
  match m with Some m => give m | None => throw (ProfileNotFound profile) end.

(** [environment.insert] or [environment.remove]. *)
Definition with_value (key : str) (value : option str) (environment : gmap str str) : gmap str str :=
  match value with Some value => <[key := value]> environment | None => delete key environment end.

Definition register_with_secret_environment (profile : str) (environment : gmap str str) : Act ProfileRegistryError unit :=
  run _ := lift (try_fold (fun _ '(key, _) => validate_environment_key key) tt (map_to_list environment)) in
  run m := look (fun w => registry w !! profile) in
  match m with
  | Some _ => throw (AlreadyRegistered profile)
  | None =>
      run _ := change (set_managed profile (mkManaged environment false)) in
      run outcome := ask (SpawnHost environment) in
      match outcome with
      | None => change (set_managed profile (mkManaged environment true))
      | Some error =>
          run _ := change (fun w => set_registry (delete profile (registry w)) w) in throw (HostFailed error)
      end
  end.

(** [ProfileRegistry::host]: whether there is one. *)
Definition require_host (profile : str) : Act ProfileRegistryError unit :=
  run m := managed profile in if managed_host m then give tt else throw (ProfileNotFound profile).

Definition set_secret_environment (profile key : str) (value : option str) : Act ProfileRegistryError unit :=
  run _ := lift (validate_environment_key key) in
  run m := managed profile in
  let previous := secret_environment m !! key in
  if bool_decide (previous = value) then if managed_host m then give tt else throw (ProfileNotFound profile)
  else
    let environment := with_value key value (secret_environment m) in
    run _ := change (set_managed profile (mkManaged environment (managed_host m))) in
    if negb (managed_host m) then throw (ProfileNotFound profile)
    else
      run outcome := ask (RestartHost environment) in
      match outcome with
      | None => give tt
      | Some update =>
          let environment := with_value key previous environment in
          run _ := change (set_managed profile (mkManaged environment (managed_host m))) in
          run outcome := ask (RestartHost environment) in
          match outcome with
          | Some recovery => throw (HostRecovery update recovery)
          | None => throw (HostFailed update)
          end
      end.

Definition secret_environment_keys (profile : str) : Act ProfileRegistryError (list str) :=
  run m := managed profile in give (sort_by str_leb (map fst (map_to_list (secret_environment m)))).

Definition schedule_runtime_refresh (profile : str) : Act ProfileRegistryError unit :=
  run m := managed profile in
  if negb (managed_host m) then throw (ProfileNotFound profile)
  else run outcome := ask (ScheduleHost (secret_environment m)) in
       match outcome with None => give tt | Some error => throw (HostFailed error) end.

Definition shutdown (profile : str) : Act ProfileRegistryError unit :=
  run m := managed profile in
  if negb (managed_host m) then give tt
  else run outcome := ask ShutdownHost in match outcome with None => give tt | Some error => throw (HostFailed error) end.

(** ** [provider-service] *)

Inductive ProviderKind := BuiltIn | LocalProvider | CustomProvider.

Record ProviderModelSummary := mkModelSummary {
  summary_model_id : str;
  summary_model_name : option str;
  max_token_len : option Z;
  summary_max_output_tokens : option Z;
  show_in_picker : bool;
  context_window : option Z
}.

Record ProviderSummary := mkProviderSummary {
  provider_id : str;
  provider_name : str;
  provider_base_url : option str;
  provider_env_key : option str;
  provider_wire_api : str;
  provider_kind : ProviderKind;
  is_current : bool;
  model_count : nat;
  can_edit : bool;
  can_delete : bool;
  can_fetch_models : bool;
  provider_models : list ProviderModelSummary
}.

Record ProviderCatalog := mkCatalog { catalog_data : list ProviderSummary; current_provider_id : str; current_model_id : option str }.

Inductive ProviderCredentialInput := Preserve | Environment (env_key : str) | Direct (api_key : str) | NoCredential.

Record UpsertProviderRequest := mkUpsert {
  upsert_name : str;
  upsert_base_url : str;
  upsert_wire_api : str;
  credentials : ProviderCredentialInput;
  upsert_select : bool
}.

Definition with_credentials (c : ProviderCredentialInput) (r : UpsertProviderRequest) : UpsertProviderRequest :=
  mkUpsert (upsert_name r) (upsert_base_url r) (upsert_wire_api r) c (upsert_select r).

Inductive ProviderServiceError :=
| InvalidInput (message : str)
| ProviderNotFound (id : str)
| ProviderForbidden (message : str)
| RuntimeFailed (message : str)
| InvalidResponse (message : str).

Definition invalid {A} (message : string) : result A ProviderServiceError := Err (InvalidInput (lit message)).

Definition unwrap_result (response : Json) : Json := default response (get (lit "result") response).

Definition service_provider_id (id : str) : result unit ProviderServiceError :=
  map_err (fun _ => InvalidInput (lit "Provider id may contain only letters, numbers, '-' and '_'")) (validate_provider_id id).

Definition quotation_mark : char := 34.

(** [serde_json::to_string] of an id that needs no escapes. *)
Definition provider_path (id : str) : result str ProviderServiceError :=
  let? _ := service_provider_id id in Ok (lit "model_providers." ++ [quotation_mark] ++ id ++ [quotation_mark]).

Definition required_trimmed (value : str) (label : string) : result str ProviderServiceError :=
  let value := trim value in if seqb value [] then Err (InvalidInput (lit label ++ lit " is required")) else Ok value.

Section provider_service.
Context (parse_url : str → option Url) (decode_catalog : Json → result ProviderCatalog str).

Definition validate_base_url (value : str) : result str ProviderServiceError :=
  let? value := required_trimmed value "Provider base URL" in
  match parse_url value with
  | None => invalid "Provider base URL is invalid"
  | Some u =>
      if seqb (url_scheme u) (lit "http") || seqb (url_scheme u) (lit "https") then Ok (trim_end_matches slash value)
      else invalid "Provider base URL must use http or https"
  end.

Definition validate_credentials (c : ProviderCredentialInput) (provider_exists : bool) : result unit ProviderServiceError :=
  match c with
  | Preserve => if provider_exists then Ok tt else invalid "cannot preserve credentials for a new Provider"
  | Environment env_key =>
      let? env_key := required_trimmed env_key "API key environment variable" in
      if forallb is_environment_char env_key then Ok tt
      else invalid "API key environment variable must contain only A-Z, 0-9 and '_'"
  | Direct api_key => let? _ := required_trimmed api_key "API key" in Ok tt
  | NoCredential => Ok tt
  end.

Definition config_edit (key_path : str) (value : Json) : Json :=
  JObject [(lit "keyPath", JString key_path); (lit "mergeStrategy", JString (lit "replace")); (lit "value", value)].

Definition apply_new_credentials (c : ProviderCredentialInput) (provider : list (str * Json)) : list (str * Json) :=
  match c with
  | Environment env_key => obj_insert (lit "env_key") (JString (trim env_key)) provider
  | Direct api_key => obj_insert (lit "experimental_bearer_token") (JString (trim api_key)) provider
  | Preserve | NoCredential => provider
  end.

Definition append_existing_credential_edits (c : ProviderCredentialInput) (path : str) : list Json :=
  let env v := config_edit (path ++ lit ".env_key") v in
  let token v := config_edit (path ++ lit ".experimental_bearer_token") v in
  match c with
  | Preserve => []
  | Environment env_key => [env (JString (trim env_key)); token JNull]
  | Direct api_key => [env JNull; token (JString (trim api_key))]
  | NoCredential => [env JNull; token JNull]
  end.

Definition upsert_edits (id path name base_url : str) (r : UpsertProviderRequest) (exists_ : bool) : list Json :=
  (if exists_ then
     [config_edit (path ++ lit ".name") (JString name); config_edit (path ++ lit ".base_url") (JString base_url);
      config_edit (path ++ lit ".wire_api") (JString (upsert_wire_api r))] ++ append_existing_credential_edits (credentials r) path
   else
     [config_edit path (JObject (apply_new_credentials (credentials r)
        (obj_insert (lit "wire_api") (JString (upsert_wire_api r))
          (obj_insert (lit "base_url") (JString base_url) (obj_insert (lit "name") (JString name) [])))))]) ++
  (if negb exists_ || upsert_select r then [config_edit (lit "model_provider") (JString id)] else []).

Context (runtime_key : str).

(** [RegistryProviderTransport::request] *)
Definition transport (method : str) (params : Json) : Act ProviderServiceError Json :=
  run _ := convert (fun _ => RuntimeFailed (lit "Profile '" ++ runtime_key ++ lit "' is not registered")) (require_host runtime_key) in
  run _ := change (log_sent (method, params)) in
  run answer := ask (AskRuntime method params) in
  match answer with Ok value => give value | Err message => throw (RuntimeFailed message) end.

Definition provider_list : Act ProviderServiceError ProviderCatalog :=
  run response := transport (lit "modelProvider/list") (JObject []) in
  lift (map_err InvalidResponse (decode_catalog (unwrap_result response))).

Definition batch_params (edits : list Json) : Json := JObject [(lit "edits", JArray edits); (lit "reloadUserConfig", JBool true)].

Definition write_config (edits : list Json) : Act ProviderServiceError unit :=
  run response := transport (lit "config/batchWrite") (batch_params edits) in
  let response := unwrap_result response in
  if bool_decide (get (lit "status") response ≫= as_str = Some (lit "error")) then
    throw (RuntimeFailed (match (get (lit "error") response ≫= get (lit "message")) ≫= as_str with
                          | Some message => message
                          | None => default (lit "Provider configuration write failed") (get (lit "message") response ≫= as_str)
                          end))
  else give tt.

Definition find_provider (id : str) (catalog : ProviderCatalog) : option ProviderSummary :=
  List.find (fun p => seqb (provider_id p) id) (catalog_data catalog).

Definition is_built_in (p : ProviderSummary) : bool := match provider_kind p with BuiltIn => true | _ => false end.

Definition require_provider (id : str) : Act ProviderServiceError (ProviderCatalog * ProviderSummary) :=
  run _ := lift (service_provider_id id) in
  run catalog := provider_list in
  match find_provider id catalog with Some p => give (catalog, p) | None => throw (ProviderNotFound id) end.

Definition provider_upsert (id : str) (r : UpsertProviderRequest) : Act ProviderServiceError ProviderCatalog :=
  run _ := lift (service_provider_id id) in
  run catalog := provider_list in
  let existing := find_provider id catalog in
  if match existing with Some p => is_built_in p | None => false end
  then throw (ProviderForbidden (lit "built-in Provider '" ++ id ++ lit "' cannot be edited"))
  else
    run name := lift (required_trimmed (upsert_name r) "Provider name") in
    run base_url := lift (validate_base_url (upsert_base_url r)) in
    if negb (seqb (upsert_wire_api r) (lit "chat") || seqb (upsert_wire_api r) (lit "responses"))
    then lift (invalid "wire API must be 'chat' or 'responses'")
    else
      run _ := lift (validate_credentials (credentials r) (is_some existing)) in
      run path := lift (provider_path id) in
      run _ := write_config (upsert_edits id path name base_url r (is_some existing)) in
      provider_list.

Definition provider_select (id : str) : Act ProviderServiceError ProviderCatalog :=
  run found := require_provider id in
  run _ := if seqb (current_provider_id (fst found)) id then give tt
           else write_config [config_edit (lit "model_provider") (JString id)] in
  provider_list.

Definition select_model (id model_id : str) : Act ProviderServiceError ProviderCatalog :=
  run model_id := lift (required_trimmed model_id "model id") in
  run found := require_provider id in
  let models := provider_models (snd found) in
  if match models with [] => false | _ => negb (existsb (fun m => seqb (summary_model_id m) model_id && show_in_picker m) models) end
  then throw (ProviderNotFound (id ++ [slash] ++ model_id))
  else
    run _ := write_config [config_edit (lit "model_provider") (JString id); config_edit (lit "model") (JString model_id)] in
    run catalog := provider_list in
    give (mkCatalog (catalog_data catalog) (current_provider_id catalog) (Some model_id)).

Definition provider_delete (id : str) : Act ProviderServiceError ProviderCatalog :=
  run found := require_provider id in
  if is_built_in (snd found) || negb (can_delete (snd found))
  then throw (ProviderForbidden (lit "Provider '" ++ id ++ lit "' cannot be deleted"))
  else if seqb (current_provider_id (fst found)) id
  then throw (ProviderForbidden (lit "select another Provider before deleting the current Provider"))
  else
    run path := lift (provider_path id) in
    run _ := write_config [config_edit path JNull] in
    provider_list.

Definition model_list_data (response : Json) : list Json :=
  match get (lit "data") (unwrap_result response) with Some (JArray l) => l | _ => [] end.

Definition not_null (v : Json) : option Json := match v with JNull => None | _ => Some v end.

Definition provider_model_config_from_catalog (value : Json) : option Json :=
  model ← WorldState.as_object value;
  let first a b := match assoc a model with Some v => Some v | None => assoc b model end in
  model_id ← first (lit "model") (lit "id") ≫= as_str;
  let model_id := trim model_id in
  if seqb model_id [] then None
  else
    let persisted := obj_insert (lit "show_in_picker") (JBool true)
      (obj_insert (lit "model_name") (default (JString model_id) (first (lit "displayName") (lit "display_name") ≫= not_null))
        (obj_insert (lit "model_id") (JString model_id) [])) in
    Some (JObject (match first (lit "contextWindow") (lit "context_window") ≫= not_null with
                   | Some window => obj_insert (lit "context_window") window persisted
                   | None => persisted
                   end)).

Definition refresh_models (id : str) : Act ProviderServiceError ProviderCatalog :=
  run found := require_provider id in
  if is_built_in (snd found) || negb (can_fetch_models (snd found))
  then throw (ProviderForbidden (lit "Provider '" ++ id ++ lit "' uses a bundled model catalog"))
  else
    run _ := if seqb (current_provider_id (fst found)) id then give tt
             else write_config [config_edit (lit "model_provider") (JString id)] in
    run response := transport (lit "model/list") (JObject [(lit "forceRefresh", JBool true)]) in
    let models := model_list_data response in
    match models with
    | [] => throw (RuntimeFailed (lit "Provider '" ++ id ++ lit "' returned no models"))
    | _ =>
        run path := lift (provider_path id) in
        run _ := write_config [config_edit (path ++ lit ".models") (JArray (omap provider_model_config_from_catalog models))] in
        provider_list
    end.

Definition insert_number (key : str) (value : option Z) (o : list (str * Json)) : list (str * Json) :=
  match value with Some z => obj_insert key (JNumber (show_Z z)) o | None => o end.

Definition persisted_model (m : ProviderModelSummary) (window : option Z) : Json :=
  JObject (insert_number (lit "context_window") window (insert_number (lit "max_output_tokens") (summary_max_output_tokens m)
    (insert_number (lit "max_token_len") (max_token_len m)
      (obj_insert (lit "show_in_picker") (JBool (show_in_picker m))
        (obj_insert (lit "model_name") (JString (default (summary_model_id m) (summary_model_name m)))
          (obj_insert (lit "model_id") (JString (summary_model_id m)) [])))))).

Definition upsert_provider_model_context (models : list ProviderModelSummary) (model_id : str) (window : Z) : list Json :=
  map (fun m => persisted_model m (if seqb (summary_model_id m) model_id then Some window else context_window m)) models ++
  (if existsb (fun m => seqb (summary_model_id m) model_id) models then []
   else [JObject [(lit "context_window", JNumber (show_Z window)); (lit "model_id", JString model_id); (lit "model_name", JString model_id);
                  (lit "show_in_picker", JBool true)]]).

Definition update_model (id model_id : str) (window : Z) : Act ProviderServiceError ProviderCatalog :=
  if (window <? 1024)%Z then lift (invalid "context window must be at least 1024 tokens")
  else
    run model_id := lift (required_trimmed model_id "model id") in
    run found := require_provider id in
    if is_built_in (snd found) || negb (can_edit (snd found))
    then throw (ProviderForbidden (lit "built-in model metadata cannot be edited"))
    else
      run path := lift (provider_path id) in
      run _ := write_config [config_edit (path ++ lit ".models") (JArray (upsert_provider_model_context (provider_models (snd found)) model_id window))] in
      provider_list.
End provider_service.

(** ** [secured.rs] *)

Inductive AuthorizedProviderError :=
| NotAuthorized
| AtProvider (e : ProviderServiceError)
| AtRegistry (e : ProfileRegistryError)
| AtSecret (e : SecretStoreError)
| AtDatabase.

Record ProviderActor := mkProviderActor { actor_user_id : N; actor_organization_id : N }.
Record AuthorizedProfile := mkAuthorizedProfile { authorized_id : N; authorized_organization : N }.

Section secured.
Context `{SecretPrimitives} (cipher : SecretCipher).
Context (parse_url : str → option Url) (decode_catalog : Json → result ProviderCatalog str) (runtime_key : str).

Definition identity_of (p : ProfileRow) : AuthorizedProfile := mkAuthorizedProfile (profile_row_id p) (profile_organization p).

Definition may_use (w : World) (actor : ProviderActor) (p : ProfileRow) : bool :=
  existsb (fun '(organization, user) => (organization =? profile_organization p) && (user =? actor_user_id actor))%N (memberships w) &&
  (profile_owner p =? actor_user_id actor)%N && (profile_organization p =? actor_organization_id actor)%N &&
  seqb (profile_runtime_key p) runtime_key && profile_active p.

Definition authorize (actor : ProviderActor) : Act AuthorizedProviderError AuthorizedProfile :=
  run row := statement AtDatabase (look (fun w => List.find (may_use w actor) (profiles_table w))) in
  match row with Some p => give (identity_of p) | None => throw NotAuthorized end.

Definition profile_identity : Act AuthorizedProviderError (option AuthorizedProfile) :=
  statement AtDatabase (look (fun w =>
    identity_of <$> List.find (fun p => seqb (profile_runtime_key p) runtime_key && profile_active p) (profiles_table w))).

Definition startup_secret_environment : Act AuthorizedProviderError (gmap str str) :=
  run profile := profile_identity in
  match profile with
  | None => give ∅
  | Some p =>
      run values := convert AtSecret (list_provider_environment cipher (authorized_organization p) (authorized_id p)) in
      give (foldl (fun e v => <[environment_key v := environment_value v]> e) ∅ values)
  end.

Definition stored_key (p : AuthorizedProfile) (id : str) : Act AuthorizedProviderError (option str) :=
  convert AtSecret (get_provider_key cipher (authorized_organization p) (authorized_id p) id).
Definition store_key (p : AuthorizedProfile) (id value : str) : Act AuthorizedProviderError str :=
  convert AtSecret (put_provider_key cipher (authorized_organization p) (authorized_id p) id value).
Definition forget_key (p : AuthorizedProfile) (id : str) : Act AuthorizedProviderError str :=
  convert AtSecret (delete_provider_key (authorized_organization p) (authorized_id p) id).

Definition restore_secret (p : AuthorizedProfile) (id : str) (previous : option str) : Act AuthorizedProviderError unit :=
  match previous with
  | Some previous =>
      run key := store_key p id previous in
      convert AtRegistry (set_secret_environment runtime_key key (Some previous))
  | None =>
      run key := forget_key p id in
      convert AtRegistry (set_secret_environment runtime_key key None)
  end.

(** Undo the change of the key and report why. *)
Definition undo {A} (p : AuthorizedProfile) (id : str) (previous : option str) (e : AuthorizedProviderError) : Act AuthorizedProviderError A :=
  run _ := restore_secret p id previous in throw e.

(** The last step of a change: the runtime. *)
Definition then_runtime (p : AuthorizedProfile) (id : str) (previous : option str) (step : Act ProviderServiceError ProviderCatalog) :
    Act AuthorizedProviderError ProviderCatalog :=
  run outcome := attempt step in
  match outcome with
  | Ok catalog => give catalog
  | Err e => undo p id previous (AtProvider e)
  end.

(** Give the key to the runtime's environment, or take it back. *)
Definition then_environment {A} (p : AuthorizedProfile) (id key : str) (value previous : option str) (next : Act AuthorizedProviderError A) :
    Act AuthorizedProviderError A :=
  run outcome := attempt (set_secret_environment runtime_key key value) in
  match outcome with
  | Ok _ => next
  | Err e => undo p id previous (AtRegistry e)
  end.

(** Delete the stored key, if there is one, before the last step. *)
Definition withdraw {A} (p : AuthorizedProfile) (id : str) (next : option str → Act AuthorizedProviderError A) : Act AuthorizedProviderError A :=
  run previous := stored_key p id in
  match previous with
  | None => next None
  | Some _ =>
      run key := forget_key p id in
      then_environment p id key None previous (next previous)
  end.

Definition upsert (actor : ProviderActor) (id : str) (r : UpsertProviderRequest) : Act AuthorizedProviderError ProviderCatalog :=
  run p := authorize actor in
  let runtime r := provider_upsert parse_url decode_catalog runtime_key id r in
  match credentials r with
  | Direct api_key =>
      run previous := stored_key p id in
      run value := convert AtSecret (lift (new_secret api_key)) in
      run key := store_key p id value in
      then_environment p id key (Some value) previous
        (then_runtime p id previous (runtime (with_credentials (Environment key) r)))
  | Environment _ | NoCredential => withdraw p id (fun previous => then_runtime p id previous (runtime r))
  | Preserve => convert AtProvider (runtime r)
  end.

Definition delete_provider (actor : ProviderActor) (id : str) : Act AuthorizedProviderError ProviderCatalog :=
  run p := authorize actor in
  withdraw p id (fun previous => then_runtime p id previous (provider_delete decode_catalog runtime_key id)).

Definition list_providers (actor : ProviderActor) : Act AuthorizedProviderError ProviderCatalog :=
  run _ := authorize actor in convert AtProvider (provider_list decode_catalog runtime_key).

Definition select_provider (actor : ProviderActor) (id : str) : Act AuthorizedProviderError ProviderCatalog :=
  run _ := authorize actor in convert AtProvider (provider_select decode_catalog runtime_key id).

Definition select_provider_model (actor : ProviderActor) (id model_id : str) : Act AuthorizedProviderError ProviderCatalog :=
  run _ := authorize actor in convert AtProvider (select_model decode_catalog runtime_key id model_id).

(** Refresh the running process after a change of the models. *)
Definition then_refresh (step : Act ProviderServiceError ProviderCatalog) : Act AuthorizedProviderError ProviderCatalog :=
  run catalog := convert AtProvider step in
  run _ := convert AtRegistry (schedule_runtime_refresh runtime_key) in
  give catalog.

Definition refresh_provider_models (actor : ProviderActor) (id : str) : Act AuthorizedProviderError ProviderCatalog :=
  run _ := authorize actor in then_refresh (refresh_models decode_catalog runtime_key id).

Definition update_provider_model (actor : ProviderActor) (id model_id : str) (window : Z) : Act AuthorizedProviderError ProviderCatalog :=
  run _ := authorize actor in then_refresh (update_model decode_catalog runtime_key id model_id window).
End secured.
