(* ===== verification/ProvidersFacts.v ===== *)
(** * Keys of providers: where they go, and that failed changes are undone *)

From S2P Require Import Prelude RustStr Utf8 RustPath ResponseModel Approval WorldState GitSource Providers.
Open Scope nat_scope.
#[local] Arguments lit _ : simpl never.

(** ** Outcomes *)

(** With some answers the steps end with this. *)
Fixpoint may {A} (p : Steps A) (a : A) : Prop :=
  match p with
  | Done b => a = b
  | Asks q k => ∃ x, may (k x) a
  end.

Lemma may_sbind {A B} (p : Steps A) (k : A → Steps B) b : may (sbind p k) b ↔ ∃ a, may p a ∧ may (k a) b.
Proof.
  induction p as [a|X q next IH]; cbn.
  - split; [intros H; by exists a|]. by intros (a' & -> & H).
  - split; [intros (x & (a & H1 & H2)%IH)|intros (a & (x & H1) & H2)]; [exists a; eauto|]. exists x. apply IH. eauto.
Qed.

(** What holds of every outcome of an operation. *)
Definition post {E A} (p : Act E A) (w : World) (Q : result A E → World → Prop) : Prop := ∀ r w', may (p w) (r, w') → Q r w'.

Lemma post_bind {E A B} (p : Act E A) (k : A → Act E B) w Q :
  post p w (fun r w => match r with Ok a => post (k a) w Q | Err e => Q (Err e) w end) → post (act_bind p k) w Q.
Proof.
  intros H r w' ([[a|e] w1] & H1 & H2)%may_sbind; apply H in H1; [by apply H1|]. cbn in H2. by injection H2 as -> ->.
Qed.

Lemma post_mono {E A} (p : Act E A) w (Q Q' : result A E → World → Prop) : post p w Q → (∀ r w, Q r w → Q' r w) → post p w Q'.
Proof. intros H HQ r w' Hr. by apply HQ, H. Qed.

Lemma post_attempt {E F A} (p : Act E A) w (Q : result (result A E) F → World → Prop) :
  post p w (fun r w => Q (Ok r) w) → post (attempt p) w Q.
Proof. intros H r w' ([r1 w1] & H1 & H2)%may_sbind. cbn in H2. injection H2 as -> ->. by apply H. Qed.

Lemma post_convert {E F A} (f : E → F) (p : Act E A) w Q : post p w (fun r w => Q (map_err f r) w) → post (convert f p) w Q.
Proof. intros H r w' ([r1 w1] & H1 & H2)%may_sbind. cbn in H2. injection H2 as -> ->. by apply H. Qed.

Lemma post_ask {E X} (q : Ask X) w (Q : result X E → World → Prop) : (∀ x, Q (Ok x) w) → post (ask q) w Q.
Proof. intros H r w' [x Hx]. cbn in Hx. injection Hx as -> ->. apply H. Qed.

Lemma post_done {E A} (r : result A E) f w (Q : result A E → World → Prop) : Q r (f w) → post (fun w => Done (r, f w)) w Q.
Proof. intros H r' w' Hr. cbn in Hr. by injection Hr as -> ->. Qed.

Lemma post_lift {E A} (r : result A E) w (Q : result A E → World → Prop) : Q r w → post (lift r) w Q.
Proof. apply (post_done r (fun w => w)). Qed.
Lemma post_give {E A} (a : A) w (Q : result A E → World → Prop) : Q (Ok a) w → post (give a) w Q.
Proof. apply (post_done (Ok a) (fun w => w)). Qed.
Lemma post_throw {E A} (e : E) w (Q : result A E → World → Prop) : Q (Err e) w → post (throw e) w Q.
Proof. apply (post_done (Err e) (fun w => w)). Qed.
Lemma post_change {E} f w (Q : result unit E → World → Prop) : Q (Ok tt) (f w) → post (change f) w Q.
Proof. apply (post_done (Ok tt) f). Qed.
Lemma post_look {E A} (f : World → A) w (Q : result A E → World → Prop) : Q (Ok (f w)) w → post (look f) w Q.
Proof. intros H r' w' Hr. cbn in Hr. by injection Hr as -> ->. Qed.

Lemma post_statement {E A} (e : E) (k : Act E A) w Q : Q (Err e) w → post k w Q → post (statement e k) w Q.
Proof. intros He Hk. apply post_bind, post_ask. intros []; [by apply post_throw|done]. Qed.

(** Walks through an operation. *)
Ltac go :=
  repeat match goal with
    | |- post (act_bind _ _) _ _ => apply post_bind
    | |- post (attempt _) _ _ => apply post_attempt
    | |- post (convert _ _) _ _ => apply post_convert
    | |- post (ask _) _ _ => apply post_ask; intro
    | |- post (give _) _ _ => apply post_give
    | |- post (throw _) _ _ => apply post_throw
    | |- post (lift _) _ _ => apply post_lift
    | |- post (change _) _ _ => apply post_change
    | |- post (look _) _ _ => apply post_look
    | |- post (statement _ _) _ _ => apply post_statement
    | |- post (if ?b then _ else _) _ _ => destruct b eqn:?
    | |- post (match ?x with _ => _ end) _ _ => destruct x eqn:?
    | |- match ?x with _ => _ end => destruct x eqn:?
    end; cbn [map_err rmap].

(** ** What is sent to a runtime *)

Definition add_sent (ms : list (str * Json)) (w : World) : World :=
  mkWorld (profile_secrets w) (configuration_secrets w) (registry w) (profiles_table w) (memberships w) (sent w ++ ms).

Lemma add_sent_nil w : add_sent [] w = w.
Proof. unfold add_sent. rewrite app_nil_r. by destruct w. Qed.

Lemma add_sent_app a b w : add_sent b (add_sent a w) = add_sent (a ++ b) w.
Proof. unfold add_sent. cbn. by rewrite app_assoc. Qed.

(** The operation only sends, these messages in this order, and all of them if it succeeds. *)
Definition sends {A} (p : Act ProviderServiceError A) (ms : list (str * Json)) (R : A → Prop) : Prop :=
  ∀ w, post p w (fun r w' => ∃ done_, w' = add_sent done_ w ∧ done_ `prefix_of` ms ∧
    match r with Ok a => done_ = ms ∧ R a | Err _ => True end).

Lemma sends_bind {A B} (p : Act ProviderServiceError A) (k : A → Act ProviderServiceError B) ms ms' R Q :
  sends p ms R → (∀ a, R a → sends (k a) ms' Q) → sends (act_bind p k) (ms ++ ms') Q.
Proof.
  intros Hp Hk w. apply post_bind. eapply post_mono; [apply Hp|]. intros [a|e] w1 (d & -> & Hd & H).
  - destruct H as [-> HR]. eapply post_mono; [by apply Hk|]. intros r w2 (d & -> & Hd' & H). exists (ms ++ d).
    rewrite add_sent_app. split_and!; [done|by apply prefix_app|]. destruct r as [b|]; [|done]. destruct H as [-> HQ]. done.
  - exists d. split_and!; [done|by apply prefix_app_r|done].
Qed.

Lemma sends_lift {A} (r : result A ProviderServiceError) : sends (lift r) [] (fun a => r = Ok a).
Proof. intros w. apply post_lift. exists []. rewrite add_sent_nil. split_and!; [done|done|]. by destruct r. Qed.

Lemma sends_mono {A} (p : Act ProviderServiceError A) ms (R R' : A → Prop) : sends p ms R → (∀ a, R a → R' a) → sends p ms R'.
Proof. intros Hp HR w. eapply post_mono; [apply Hp|]. intros [a|e] w' (d & ? & ? & H); exists d; naive_solver. Qed.

(** The first step succeeds or ends everything, without a message. *)
Lemma sends_check {A B} (r : result A ProviderServiceError) (k : A → Act ProviderServiceError B) ms Q :
  (∀ a, r = Ok a → sends (k a) ms Q) → sends (act_bind (lift r) k) ms Q.
Proof. intros Hk. apply (sends_bind _ _ [] ms _ _ (sends_lift r) Hk). Qed.

Lemma sends_throw {A} e ms (R : A → Prop) : sends (throw e) ms R.
Proof. intros w. apply post_throw. exists []. rewrite add_sent_nil. split_and!; [done|apply prefix_nil|done]. Qed.

Lemma sends_give {A} (a : A) (R : A → Prop) : R a → sends (give a) [] R.
Proof. intros HR w. apply post_give. exists []. rewrite add_sent_nil. done. Qed.

Section messages.
Context (parse_url : str → option Url) (decode_catalog : Json → result ProviderCatalog str) (runtime_key : str).

Lemma transport_sends method params : sends (transport runtime_key method params) [(method, params)] (fun _ => True).
Proof.
  intros w. unfold transport, require_host, managed. go.
  all: first [by exists [(method, params)]|exists []; rewrite add_sent_nil; split_and!; [done|apply prefix_nil|done]].
Qed.

Definition list_message : str * Json := (lit "modelProvider/list", JObject []).
Definition write_message (edits : list Json) : str * Json := (lit "config/batchWrite", batch_params edits).

Lemma list_sends : sends (provider_list decode_catalog runtime_key) [list_message] (fun _ => True).
Proof.
  eapply (sends_bind _ _ [list_message] []); [apply transport_sends|]. intros a _. eapply sends_mono; [apply sends_lift|done].
Qed.

Lemma write_sends edits : sends (write_config runtime_key edits) [write_message edits] (fun _ => True).
Proof.
  eapply (sends_bind _ _ [write_message edits] []); [apply transport_sends|]. intros a _. cbv zeta.
  case_match; [apply sends_throw|by apply sends_give].
Qed.

(** All that creating or updating a provider says to the runtime. *)
Definition upsert_messages (id : str) (r : UpsertProviderRequest) (exists_ : bool) : list (str * Json) :=
  [list_message;
   write_message (upsert_edits id (lit "model_providers." ++ [quotation_mark] ++ id ++ [quotation_mark]) (trim (upsert_name r))
     (trim_end_matches slash (trim (upsert_base_url r))) r exists_);
   list_message].

Lemma required_trimmed_ok value label v : required_trimmed value label = Ok v → v = trim value.
Proof. unfold required_trimmed. case_match; [done|]. by intros <-%Ok_inj. Qed.

Lemma base_url_ok value v : validate_base_url parse_url value = Ok v → v = trim_end_matches slash (trim value).
Proof.
  unfold validate_base_url. intros (u & ->%required_trimmed_ok & H)%rbind_ok. repeat case_match; try done. by apply Ok_inj in H as <-.
Qed.

Lemma provider_path_ok id path : provider_path id = Ok path → path = lit "model_providers." ++ [quotation_mark] ++ id ++ [quotation_mark].
Proof. unfold provider_path. intros (u & _ & H)%rbind_ok. by apply Ok_inj in H as <-. Qed.

Lemma upsert_sends id r w :
  post (provider_upsert parse_url decode_catalog runtime_key id r) w
    (fun _ w' => ∃ exists_ ms, w' = add_sent ms w ∧ ms `prefix_of` upsert_messages id r exists_).
Proof.
  unfold provider_upsert. apply post_bind, post_lift. destruct (service_provider_id id);
    [|exists false, []; rewrite add_sent_nil; split; [done|apply prefix_nil]].
  apply post_bind. eapply post_mono; [apply list_sends|]. intros [catalog|e] w1 (d & -> & Hd & H).
  2: { exists false, d. split; [done|]. eapply (transitivity (R := prefix)); [exact Hd|]. by eexists. }
  destruct H as [-> _]. set (existing := find_provider id catalog).
  match goal with |- post ?p _ _ => assert (sends p (tail (upsert_messages id r (is_some existing))) (fun _ => True)) as Hs end.
  { match goal with |- sends (if ?b then _ else _) _ _ => destruct b end; [apply sends_throw|].
    apply sends_check. intros name ->%required_trimmed_ok. apply sends_check. intros url ->%base_url_ok.
    match goal with |- sends (if ?b then _ else _) _ _ => destruct b end; [apply sends_throw|].
    apply sends_check. intros _ _. apply sends_check. intros path ->%provider_path_ok.
    eapply (sends_bind _ _ [_]); [apply write_sends|]. intros _ _. apply list_sends. }
  eapply post_mono; [apply Hs|]. intros r' w2 (d' & -> & Hd' & _). exists (is_some existing), ([list_message] ++ d').
  rewrite add_sent_app. split; [done|]. by apply (prefix_app [list_message] d').
Qed.
End messages.

(** ** Who can open a secret *)

(** What a secret is stored for. *)
Inductive secret_identity := OfProvider (organization profile : N) (provider : str) | OfConfiguration (key : str).

Lemma join_cons_inj c a a' l l' : c ∉ a → c ∉ a' → l ≠ [] → l' ≠ [] → join [c] (a :: l) = join [c] (a' :: l') → a = a' ∧ join [c] l = join [c] l'.
Proof.
  intros Ha Ha' Hl Hl' H. destruct l as [|x l]; [done|]. destruct l' as [|y l']; [done|]. cbn [join] in H.
  apply (f_equal (split_on c)) in H. cbn [app] in H. rewrite !split_on_app in H by done. injection H as -> H. split; [done|].
  apply (f_equal (join [c])) in H. by rewrite !join_split_on in H.
Qed.

Section identities.
Context `{P : SecretPrimitives} {L : SecretLaws P} (cipher : SecretCipher).

Definition context_of (i : secret_identity) : str :=
  match i with
  | OfProvider organization profile provider => provider_context organization profile provider
  | OfConfiguration key => configuration_context global global key
  end.

Definition valid_identity (i : secret_identity) : bool :=
  match i with OfProvider _ _ provider => is_ok (validate_provider_id provider) | OfConfiguration key => is_ok (validate_configuration_key key) end.

Lemma uuid_char id c : c ∈ show_uuid id → (c < 103)%N ∧ c ≠ colon.
Proof.
  intros Hc. pose proof (show_uuid_chars id) as H. rewrite Forall_forall in H. apply H in Hc. unfold is_ascii_digit, colon, dash in *.
  rewrite andb_true_iff, !N.leb_le in Hc. lia.
Qed.

Lemma uuid_no_colon id : colon ∉ show_uuid id.
Proof. by intros [_ H]%uuid_char. Qed.

Lemma context_inj i j : context_of i = context_of j → i = j.
Proof.
  assert (∀ id, show_uuid id ≠ CONFIGURATION_SECRET_PURPOSE) as Hp.
  { intros id E. destruct (uuid_char id 112%N) as [H _]; [rewrite E; by left|lia]. }
  pose proof uuid_no_colon as Hu. destruct i as [o p n|k], j as [o' p' n'|k']; cbn [context_of]; unfold provider_context, configuration_context, colons.
  all: intros [_ H]%join_cons_inj; try done; try (by apply (bool_decide_unpack _); vm_compute).
  - apply join_cons_inj in H as [->%show_uuid_inj H]; [|done..]. apply join_cons_inj in H as [->%show_uuid_inj H]; [|done..].
    apply join_cons_inj in H as [_ H]; [|try done; by apply (bool_decide_unpack _); vm_compute..]. by cbn in H; subst.
  - apply join_cons_inj in H as [H _]; [|try done; by apply (bool_decide_unpack _); vm_compute..]. by apply Hp in H.
  - apply join_cons_inj in H as [H _]; [|try done; by apply (bool_decide_unpack _); vm_compute..]. symmetry in H. by apply Hp in H.
  - do 3 (apply join_cons_inj in H as [_ H]; [|try done; by apply (bool_decide_unpack _); vm_compute..]). by cbn in H; subst.
Qed.

Lemma join_scalars c l : is_scalar c → Forall scalars l → scalars (join [c] l).
Proof.
  intros Hc H. induction H as [|s l Hs Hl IH]; [constructor|]. destruct l as [|s' l]; [exact Hs|]. cbn [join].
  unfold scalars in *. rewrite !Forall_app. split_and!; [done|by apply Forall_singleton|done].
Qed.

Lemma low_scalars (s : str) : (∀ c, c ∈ s → (c < 128)%N) → scalars s.
Proof. intros H. apply Forall_forall. intros c Hc%H. left. lia. Qed.

Lemma alphanumeric_low c : is_ascii_alphanumeric c = true → (c < 128)%N.
Proof. unfold is_ascii_alphanumeric, is_ascii_digit. rewrite !orb_true_iff, !andb_true_iff, !N.leb_le. lia. Qed.

Lemma id_char_low c : is_id_char c = true → (c < 128)%N.
Proof.
  unfold is_id_char. rewrite !orb_true_iff, !N.eqb_eq. unfold dash, underscore. intros [[H%alphanumeric_low| ->]| ->]; lia.
Qed.

Lemma valid_scalars i : valid_identity i = true → scalars match i with OfProvider _ _ n => n | OfConfiguration k => k end.
Proof.
  intros Hv. apply low_scalars. intros c Hc%list_elem_of_In. destruct i as [o p n|k]; cbn in Hv.
  - unfold validate_provider_id in Hv. destruct (forallb is_id_char n) eqn:E; [|by rewrite orb_true_r in Hv].
    rewrite forallb_forall in E. by apply id_char_low, E.
  - unfold validate_configuration_key in Hv. destruct (forallb _ k) eqn:E; [|by rewrite orb_true_r in Hv].
    rewrite forallb_forall in E. apply E in Hc. rewrite orb_true_iff, N.eqb_eq in Hc. unfold dot in Hc.
    destruct Hc as [Hc%id_char_low| ->]; lia.
Qed.

Lemma context_scalars i : valid_identity i = true → scalars (context_of i).
Proof.
  intros Hv%valid_scalars. assert (∀ id, scalars (show_uuid id)) as Hu.
  { intros id. apply low_scalars. intros c [H _]%uuid_char. lia. }
  destruct i as [o p n|k]; (apply join_scalars; [left; unfold colon; lia|]); repeat (apply Forall_cons; split); try done.
  all: unfold scalars; apply (bool_decide_unpack _); vm_compute; exact I.
Qed.

Lemma encode_inj a b : scalars a → scalars b → encode a = encode b → a = b.
Proof. intros Ha Hb H. apply (f_equal from_utf8) in H. rewrite !from_utf8_encode in H by done. by apply Ok_inj in H. Qed.

Lemma seal_post context value w :
  post (seal cipher context value) w (fun r w' => w' = w ∧
    match r with
    | Ok e => encrypted_version e = key_version cipher ∧ length (encrypted_nonce e) = NONCE_LENGTH ∧
              seal_in_place (cipher_key cipher) (encrypted_nonce e) (encode context) (encode value) = Some (encrypted_ciphertext e)
    | Err e => e = EncryptFailed
    end).
Proof. unfold seal. go; try done. apply negb_false_iff, Nat.eqb_eq in Heqb. done. Qed.

Lemma open_sealed_secret context value e : scalars value → new_secret value = Ok value →
  encrypted_version e = key_version cipher →
  seal_in_place (cipher_key cipher) (encrypted_nonce e) (encode context) (encode value) = Some (encrypted_ciphertext e) →
  open_secret cipher context e = Ok value.
Proof.
  intros Hs Hn Hv He. unfold open_secret. rewrite Hv, seqb_refl. cbn [negb].
  by rewrite (open_sealed _ _ _ _ _ He), from_utf8_encode, Hn by done.
Qed.

(** C28: a secret is bound to whom it belongs to: sealed for a provider of a profile of an
    organization, or for a setting of the platform, it opens for the same as what was sealed,
    and for no other organization, profile, provider or setting, whatever row the ciphertext
    is put into. *)
Theorem secrets_open_only_for_their_owner i j value w e w' :
  valid_identity i = true → valid_identity j = true → scalars value → new_secret value = Ok value →
  may (seal cipher (context_of i) value w) (Ok e, w') →
  (i = j → open_secret cipher (context_of j) e = Ok value) ∧ (i ≠ j → open_secret cipher (context_of j) e = Err DecryptFailed).
Proof.
  intros Hi Hj Hs Hn (_ & Hv & _ & He)%seal_post. split.
  - intros <-. by apply open_sealed_secret.
  - intros Hij. unfold open_secret. rewrite Hv, seqb_refl. cbn [negb]. rewrite (open_elsewhere _ _ _ _ _ _ He); [done|].
    intros E%encode_inj; [|by apply context_scalars..]. by apply context_inj in E.
Qed.
End identities.

(** ** Changes of a key *)

Definition only_sends {A} (p : Act ProviderServiceError A) : Prop := ∀ w, post p w (fun _ w' => ∃ ms, w' = add_sent ms w).

Lemma sends_only {A} (p : Act ProviderServiceError A) ms R : sends p ms R → only_sends p.
Proof. intros H w. eapply post_mono; [apply H|]. intros r w' (d & -> & _). by exists d. Qed.

Lemma only_sends_bind {A B} (p : Act ProviderServiceError A) (k : A → Act ProviderServiceError B) :
  only_sends p → (∀ a, only_sends (k a)) → only_sends (act_bind p k).
Proof.
  intros Hp Hk w. apply post_bind. eapply post_mono; [apply Hp|]. intros [a|e] w1 [ms ->]; [|by exists ms].
  eapply post_mono; [apply Hk|]. intros r w2 [ms' ->]. exists (ms ++ ms'). by rewrite add_sent_app.
Qed.

Lemma only_sends_lift {A} (r : result A ProviderServiceError) : only_sends (lift r).
Proof. eapply sends_only, sends_lift. Qed.

Lemma only_sends_throw {A} e : only_sends (throw (A := A) e).
Proof. by apply (sends_only _ [] (fun _ => True)), sends_throw. Qed.

Lemma only_sends_give {A} (a : A) : only_sends (give a).
Proof. by apply (sends_only _ [] (fun _ => True)), sends_give. Qed.

Lemma delete_only_sends decode_catalog runtime_key id : only_sends (provider_delete decode_catalog runtime_key id).
Proof.
  unfold provider_delete, require_provider.
  repeat match goal with
    | |- only_sends (act_bind _ _) => apply only_sends_bind; [|intros ?]
    | |- only_sends (lift _) => apply only_sends_lift
    | |- only_sends (throw _) => apply only_sends_throw
    | |- only_sends (give _) => apply only_sends_give
    | |- only_sends (provider_list _ _) => eapply sends_only, list_sends
    | |- only_sends (write_config _ _) => eapply sends_only, write_sends
    | |- only_sends (match ?x with _ => _ end) => destruct x
    end.
Qed.

Section changes.
Context `{P : SecretPrimitives} {L : SecretLaws P} (cipher : SecretCipher).
Context (parse_url : str → option Url) (decode_catalog : Json → result ProviderCatalog str) (runtime_key : str).
Context (p : AuthorizedProfile) (id : str).

(** The stored key, and the one in the environment of the runtime. *)
Definition current_key (w : World) : result (option str) SecretStoreError :=
  match secret_row w (authorized_organization p) (authorized_id p) id with
  | None => Ok None
  | Some row => rmap Some (open_row cipher (provider_context (authorized_organization p) (authorized_id p) id) row)
  end.

Definition environment_at (w : World) (key : str) : option str := m ← registry w !! runtime_key; secret_environment m !! key.

Context (key : str).

(** Nothing else is changed. *)
Definition around (w w' : World) : Prop :=
  (∀ k, k ≠ (authorized_id p, id) → profile_secrets w' !! k = profile_secrets w !! k) ∧
  configuration_secrets w' = configuration_secrets w ∧
  (∀ n, n ≠ runtime_key → registry w' !! n = registry w !! n) ∧
  (∀ k, k ≠ key → environment_at w' k = environment_at w k).

#[local] Instance around_preorder : PreOrder around.
Proof.
  split; [by intros w; unfold around|]. intros w1 w2 w3 (A1 & A2 & A3 & A4) (B1 & B2 & B3 & B4). split_and!.
  - intros k Hk. by rewrite B1, A1.
  - congruence.
  - intros n Hn. by rewrite B3, A3.
  - intros k Hk. by rewrite B4, A4.
Qed.

Definition good (v : option str) : Prop := ∀ s, v = Some s → scalars s ∧ new_secret s = Ok s.

Lemma open_secret_good context e s : open_secret cipher context e = Ok s → scalars s ∧ new_secret s = Ok s.
Proof.
  unfold open_secret. case_match; [done|]. case_match; [|done]. destruct (from_utf8 l) as [t|] eqn:E; [|done].
  apply from_utf8_inv in E as [Ht _]. unfold new_secret. destruct (seqb (trim t) []) eqn:Et; [done|]. cbn [map_err]. intros <-%Ok_inj.
  by rewrite Et.
Qed.

Lemma current_key_good w v : current_key w = Ok v → good v.
Proof.
  unfold current_key. intros H s ->. destruct (secret_row _ _ _ _) as [row|]; [|done].
  destruct (open_row _ _ row) as [t|] eqn:E; [|done]. cbn in H. injection H as ->.
  unfold open_row in E. apply rbind_ok in E as (e & _ & E). by eapply open_secret_good.
Qed.

Lemma stored_key_post w :
  post (stored_key cipher p id) w (fun r w' => w' = w ∧ match r with Ok v => current_key w = Ok v | Err _ => True end).
Proof.
  unfold stored_key, get_provider_key. go; try done. all: split; [done|]. all: unfold current_key; destruct (secret_row _ _ _ _) eqn:E; try done.
  simplify_eq. by destruct (open_row _ _ s).
Qed.

Lemma store_key_post v w : provider_environment_key (authorized_id p) id = Ok key → good (Some v) →
  post (store_key cipher p id v) w (fun r w' =>
    match r with
    | Ok k => k = key ∧ around w w' ∧ registry w' = registry w ∧ current_key w' = Ok (Some v)
    | Err _ => w' = w
    end).
Proof.
  intros Hk Hv. unfold store_key, put_provider_key. apply post_convert, post_bind, post_lift. case_match; [|done]. apply post_bind.
  eapply post_mono; [apply seal_post|]. intros [e|] w1 [-> He]; [|done]. destruct He as (Hver & Hn & He).
  apply post_bind, post_statement; [done|]. apply post_change, post_lift. rewrite Hk. cbn [map_err]. split_and!; [done| |done|].
  - split_and!; [|done|done|done]. intros k Hne. cbn. by rewrite lookup_insert_ne.
  - unfold current_key, secret_row. cbn [set_secrets profile_secrets]. rewrite lookup_insert_eq. cbn [mbind option_bind secret_organization].
    rewrite N.eqb_refl. unfold open_row, encrypted_from_row. cbn [row_nonce row_version row_ciphertext]. rewrite Hn, Nat.eqb_refl. cbn [rbind].
    destruct (Hv v eq_refl) as [Hs Hnew]. destruct e. by rewrite (open_sealed_secret _ _ v).
Qed.

Lemma forget_key_post w : provider_environment_key (authorized_id p) id = Ok key →
  post (forget_key p id) w (fun r w' =>
    match r with
    | Ok k => k = key ∧ around w w' ∧ registry w' = registry w ∧ current_key w' = Ok None
    | Err _ => w' = w
    end).
Proof.
  intros Hk. unfold forget_key, delete_provider_key. apply post_convert, post_bind, post_lift. case_match; [|done].
  apply post_bind, post_statement; [done|]. apply post_change, post_lift. rewrite Hk. cbn [map_err]. split; [done|].
  unfold current_key. destruct (secret_row w _ _ _) as [row|] eqn:E; [|by rewrite E].
  split_and!; [|done|].
  - split_and!; [|done|done|done]. intros k Hne. cbn. by rewrite lookup_delete_ne.
  - unfold secret_row. cbn. by rewrite lookup_delete_eq.
Qed.

Lemma with_value_same k v e : with_value k v e !! k = v.
Proof. destruct v; cbn; [apply lookup_insert_eq|apply lookup_delete_eq]. Qed.
Lemma with_value_other k k' v e : k' ≠ k → with_value k v e !! k' = e !! k'.
Proof. intros Hk. destruct v; cbn; [by apply lookup_insert_ne|by apply lookup_delete_ne]. Qed.

Lemma set_managed_around m w e h : registry w !! runtime_key = Some m → (∀ k, k ≠ key → e !! k = secret_environment m !! k) →
  around w (set_managed runtime_key (mkManaged e h) w).
Proof.
  intros Hm He. split_and!; [done|done| |]; cbn.
  - intros n Hn. by apply lookup_insert_ne.
  - intros k Hk. unfold environment_at. cbn. rewrite lookup_insert_eq, Hm. by apply He.
Qed.

Lemma set_environment_post v w :
  post (set_secret_environment runtime_key key v) w (fun r w' =>
    around w w' ∧ profile_secrets w' = profile_secrets w ∧ match r with Ok _ => environment_at w' key = v | Err _ => True end).
Proof.
  unfold set_secret_environment, managed. apply post_bind, post_lift. case_match; [|done].
  apply post_bind, post_bind, post_look. destruct (registry w !! runtime_key) as [m|] eqn:Hm; [|by apply post_throw].
  apply post_give. case_bool_decide as Hp.
  { case_match; [|by apply post_throw]. apply post_give. split_and!; [done|done|]. unfold environment_at. by rewrite Hm. }
  assert (∀ k, k ≠ key → with_value key v (secret_environment m) !! k = secret_environment m !! k) as Ho by (intros; by apply with_value_other).
  apply post_bind, post_change. case_match.
  { apply post_throw. split_and!; [by apply (set_managed_around m)|done|done]. }
  apply post_bind, post_ask. intros [update|].
  2: { apply post_give. split_and!; [by apply (set_managed_around m)|done|]. unfold environment_at. cbn. rewrite lookup_insert_eq. apply with_value_same. }
  apply post_bind, post_change, post_bind, post_ask.
  assert (around w (set_managed runtime_key (mkManaged (with_value key (secret_environment m !! key) (with_value key v (secret_environment m)))
    (managed_host m)) (set_managed runtime_key (mkManaged (with_value key v (secret_environment m)) (managed_host m)) w))) as Ha.
  { etransitivity; [by apply (set_managed_around m)|]. eapply set_managed_around; [apply lookup_insert_eq|]. intros k Hk. by apply with_value_other. }
  by intros [|]; apply post_throw.
Qed.

Lemma current_key_secrets w w' : profile_secrets w' = profile_secrets w → current_key w' = current_key w.
Proof. intros H. unfold current_key, secret_row. by rewrite H. Qed.

Lemma restore_post previous w : provider_environment_key (authorized_id p) id = Ok key → good previous →
  post (restore_secret cipher runtime_key p id previous) w (fun r w' =>
    around w w' ∧ match r with Ok _ => current_key w' = Ok previous ∧ environment_at w' key = previous | Err _ => True end).
Proof.
  intros Hk Hg. unfold restore_secret. destruct previous as [v|]; apply post_bind;
    (eapply post_mono; [first [by apply store_key_post|by apply forget_key_post]|]); intros [k|e] w1;
    [intros (-> & H1 & _ & H2)|by intros ->|intros (-> & H1 & _ & H2)|by intros ->];
    apply post_convert; (eapply post_mono; [apply set_environment_post|]); intros r w2 (A & B & C);
    (split; [by etransitivity|]); destruct r; cbn [map_err]; [|done| |done]; (split; [by rewrite (current_key_secrets _ _ B)|done]).
Qed.

(** How a change of the key ends: with the new key in both places, or as before, or restoring
    what was before has failed.  Nothing else is touched. *)
Definition settled {A} (new : option str) (w : World) (r : result A AuthorizedProviderError) (w' : World) : Prop :=
  around w w' ∧
  match r with
  | Ok _ => current_key w' = Ok new ∧ environment_at w' key = new
  | Err e => current_key w' = current_key w ∧ environment_at w' key = environment_at w key ∨
             ∃ w1, may (restore_secret cipher runtime_key p id (environment_at w key) w1) (Err e, w')
  end.

Section from_world.
Context (w : World) (Hkey : provider_environment_key (authorized_id p) id = Ok key) (Hagree : current_key w = Ok (environment_at w key)).

Lemma refused {A} new e : settled (A := A) new w (Err e) w.
Proof. split; [done|by left]. Qed.

Lemma undo_settled {A} new e w1 : around w w1 → post (undo cipher runtime_key p id (environment_at w key) e) w1 (settled (A := A) new w).
Proof.
  intros Ha. unfold undo. apply post_bind. intros r w2 Hr.
  pose proof (restore_post _ w1 Hkey (current_key_good _ _ Hagree) _ _ Hr) as [Hb H]. destruct r as [[]|e'].
  - apply post_throw. split; [by etransitivity|]. left. by rewrite Hagree.
  - split; [by etransitivity|]. right. by exists w1.
Qed.

Lemma runtime_settled new step w1 : only_sends step → around w w1 → current_key w1 = Ok new → environment_at w1 key = new →
  post (then_runtime cipher runtime_key p id (environment_at w key) step) w1 (settled new w).
Proof.
  intros Hs Ha Hc He. unfold then_runtime. apply post_bind, post_attempt. eapply post_mono; [apply Hs|]. intros [catalog|e] w2 [ms ->].
  - by apply post_give.
  - by apply undo_settled.
Qed.

Lemma environment_settled {A} new (next : Act AuthorizedProviderError A) w1 : around w w1 → current_key w1 = Ok new →
  (∀ w2, around w w2 → current_key w2 = Ok new → environment_at w2 key = new → post next w2 (settled new w)) →
  post (then_environment cipher runtime_key p id key new (environment_at w key) next) w1 (settled new w).
Proof.
  intros Ha Hc Hn. unfold then_environment. apply post_bind, post_attempt. eapply post_mono; [apply set_environment_post|].
  intros [[]|e] w2 (Hb & Hs & He).
  - apply Hn; [by etransitivity|by rewrite (current_key_secrets _ _ Hs)|done].
  - apply undo_settled. by etransitivity.
Qed.

Lemma stored_settled {A} new (next : option str → Act AuthorizedProviderError A) :
  post (next (environment_at w key)) w (settled new w) → post (act_bind (stored_key cipher p id) next) w (settled new w).
Proof.
  intros Hn. apply post_bind. eapply post_mono; [apply stored_key_post|]. intros [v|e] w1 [-> Hv]; [|apply refused].
  rewrite Hagree in Hv. injection Hv as <-. exact Hn.
Qed.

Lemma withdraw_settled step : only_sends step →
  post (withdraw cipher runtime_key p id (fun previous => then_runtime cipher runtime_key p id previous step)) w (settled None w).
Proof.
  intros Hs. apply stored_settled. destruct (environment_at w key) as [v|] eqn:E in |- *.
  - apply post_bind. eapply post_mono; [by apply forget_key_post|]. intros [k|e] w1; [|intros ->; apply refused].
    intros (-> & Ha & _ & Hc). rewrite <- E. apply environment_settled; [done|done|]. intros w2 ? ? ?. by apply runtime_settled.
  - rewrite <- E. by apply runtime_settled.
Qed.
End from_world.
End changes.

(** ** The properties *)

(** A request that changes a provider, and the key that is to be in place after it. *)
Inductive provider_change := Upserts (r : UpsertProviderRequest) | Deletes.

Section properties.
Context `{P : SecretPrimitives} {L : SecretLaws P} (cipher : SecretCipher).
Context (parse_url : str → option Url) (decode_catalog : Json → result ProviderCatalog str) (runtime_key : str).

Definition change_provider (actor : ProviderActor) (id : str) (c : provider_change) : Act AuthorizedProviderError ProviderCatalog :=
  match c with
  | Upserts r => upsert cipher parse_url decode_catalog runtime_key actor id r
  | Deletes => delete_provider cipher decode_catalog runtime_key actor id
  end.

Definition key_after (c : provider_change) (before : option str) : option str :=
  match c with
  | Upserts r => match credentials r with Direct api_key => Some api_key | Preserve => before | _ => None end
  | Deletes => None
  end.

Definition text_change (c : provider_change) : Prop :=
  match c with Upserts r => match credentials r with Direct api_key => scalars api_key | _ => True end | Deletes => True end.

Definition profile_of (w : World) (actor : ProviderActor) : option AuthorizedProfile :=
  identity_of <$> List.find (may_use runtime_key w actor) (profiles_table w).

Lemma authorize_post actor w :
  post (authorize runtime_key actor) w (fun r w' => w' = w ∧ match r with Ok p => profile_of w actor = Some p | Err _ => True end).
Proof. unfold authorize, profile_of. go; done. Qed.

(** C6: a change of a provider happens in three places (the store, the environment of the
    runtime, its configuration).  If the stored key and the variable in the environment agree
    before it, then whatever fails on the way is undone: a change that succeeds leaves the key that
    was asked for in the store and in the environment; one that fails leaves there what was before,
    so that they agree again, unless restoring it was what failed; and in no case is any other key,
    setting, variable or profile touched.  The agreement is a condition: it is lost when restoring
    fails halfway, and then nothing is claimed of the next change. *)
Theorem failed_change_is_undone actor id c p key w r w' :
  text_change c → profile_of w actor = Some p → provider_environment_key (authorized_id p) id = Ok key →
  current_key cipher p id w = Ok (environment_at runtime_key w key) →
  may (change_provider actor id c w) (r, w') →
  settled cipher runtime_key p id key (key_after c (environment_at runtime_key w key)) w r w'.
Proof.
  intros Ht Hp Hk Ha. revert r w'. change (post (change_provider actor id c) w (settled cipher runtime_key p id key (key_after c (environment_at runtime_key w key)) w)).
  destruct c as [q|]; cbn [change_provider key_after text_change] in *; apply post_bind;
    (eapply post_mono; [apply authorize_post|]); intros [p'|e] w1 [-> Hp']; try apply refused; rewrite Hp in Hp'; injection Hp' as <-.
  - assert (∀ q, only_sends (provider_upsert parse_url decode_catalog runtime_key id q)) as Hs.
    { intros q' w1. eapply post_mono; [apply upsert_sends|]. intros r w2 (_ & ms & -> & _). by exists ms. }
    destruct (credentials q) as [|env|k|].
    + apply post_convert. eapply post_mono; [apply Hs|]. intros [catalog|e] w2 [ms ->]; (split; [done|]); [done|by left].
    + by apply withdraw_settled.
    + apply stored_settled; [done|]. apply post_bind, post_convert, post_lift. unfold new_secret at 1.
      destruct (seqb (trim k) []) eqn:Ek; cbn [map_err]; [apply refused|].
      assert (good (Some k)) as Hg by (intros s [= <-]; split; [done|]; unfold new_secret; by rewrite Ek).
      apply post_bind. eapply post_mono; [by apply store_key_post|]. intros [key'|e] w2; [|intros ->; apply refused].
      intros (-> & Hb & _ & Hc). apply environment_settled; [done|done|done|done|]. intros w3 ? ? ?. by apply runtime_settled.
    + by apply withdraw_settled.
  - apply withdraw_settled; [done|done|apply delete_only_sends].
Qed.

(** *** What the runtime is told *)

Definition silent {E A} (q : Act E A) : Prop := ∀ w, post q w (fun _ w' => sent w' = sent w).

Lemma silent_bind {E A B} (q : Act E A) (k : A → Act E B) : silent q → (∀ a, silent (k a)) → silent (act_bind q k).
Proof.
  intros Hq Hk w. apply post_bind. eapply post_mono; [apply Hq|]. intros [a|e] w1 H; [|done].
  eapply post_mono; [apply Hk|]. intros r w2 H2. by rewrite H2.
Qed.

Lemma silent_seal context value : silent (seal cipher context value).
Proof. intros w. eapply post_mono; [apply seal_post|]. by intros r w' [-> _]. Qed.

Lemma silent_stored q id : silent (stored_key cipher q id).
Proof. intros w. eapply post_mono; [apply stored_key_post|]. by intros r w' [-> _]. Qed.

Lemma silent_store q id v : silent (store_key cipher q id v).
Proof.
  intros w. apply post_convert. revert w. unfold put_provider_key. apply (silent_bind (lift _)); [intros w; by apply post_lift|intros _].
  apply silent_bind; [apply silent_seal|intros e]. apply silent_bind; [|intros _ w; by apply post_lift].
  intros w. apply post_statement; [done|by apply post_change].
Qed.

Lemma store_key_name q id v w :
  post (store_key cipher q id v) w (fun r _ => match r with Ok key => provider_environment_key (authorized_id q) id = Ok key | Err _ => True end).
Proof.
  unfold store_key, put_provider_key. apply post_convert, post_bind, post_lift. case_match; [|done]. apply post_bind.
  eapply post_mono; [apply seal_post|]. intros [e|] w1 _; [|done]. apply post_bind, post_statement; [done|]. apply post_change, post_lift.
  by destruct (provider_environment_key _ _).
Qed.

Lemma silent_forget q id : silent (forget_key q id).
Proof.
  intros w. apply post_convert. revert w. unfold delete_provider_key. apply (silent_bind (lift _)); [intros w; by apply post_lift|intros _].
  apply silent_bind; [|intros _ w; by apply post_lift]. intros w. apply post_statement; [done|]. apply post_change. by case_match.
Qed.

Lemma silent_environment key v : silent (set_secret_environment runtime_key key v).
Proof. intros w. unfold set_secret_environment, managed. go; done. Qed.

Lemma silent_undo {A} q id previous e : silent (undo (A := A) cipher runtime_key q id previous e).
Proof.
  unfold undo, restore_secret. apply silent_bind; [|intros _ w; by apply post_throw].
  destruct previous; (apply silent_bind; [first [apply silent_store|apply silent_forget]|]); intros key w; apply post_convert, silent_environment.
Qed.

(** C15: the key that a user types in never reaches the configuration of the runtime or any
    message to it: whatever fails on the way, all that is said to the runtime is what would be
    said for a provider whose key is in the named environment variable, and that name depends
    on the profile and on the provider only. *)
Theorem keys_stay_out_of_config actor id q api_key w r w' :
  credentials q = Direct api_key →
  may (upsert cipher parse_url decode_catalog runtime_key actor id q w) (r, w') →
  ∃ ms, sent w' = sent w ++ ms ∧
    (ms = [] ∨ ∃ p key exists_, profile_of w actor = Some p ∧ provider_environment_key (authorized_id p) id = Ok key ∧
                  ms `prefix_of` upsert_messages id (with_credentials (Environment key) q) exists_).
Proof.
  intros Hq. revert r w'. set (Q := fun w1 : World => ∃ ms, sent w1 = sent w ++ ms ∧ (ms = [] ∨ ∃ p key exists_, profile_of w actor = Some p ∧
    provider_environment_key (authorized_id p) id = Ok key ∧ ms `prefix_of` upsert_messages id (with_credentials (Environment key) q) exists_)).
  change (post (upsert cipher parse_url decode_catalog runtime_key actor id q) w (fun _ => Q)).
  assert (∀ w1, sent w1 = sent w → Q w1) as H0 by (intros w1 H1; exists []; rewrite app_nil_r; auto).
  assert (∀ w1 w2, sent w2 = sent w1 → Q w1 → Q w2) as Hmove by (intros w1 w2 H12; unfold Q; by rewrite H12).
  apply post_bind. eapply post_mono; [apply authorize_post|]. intros [p|e] w1 [-> Hp]; [|by apply H0]. rewrite Hq.
  apply post_bind. eapply post_mono; [apply silent_stored|]. intros [previous|e] w1 H1; [|by apply H0].
  apply post_bind, post_convert, post_lift. destruct (new_secret api_key) as [value|]; cbn [map_err]; [|by apply H0].
  apply post_bind. intros r2 w2 Hr2. pose proof (silent_store _ _ _ _ _ _ Hr2) as H2. destruct r2 as [key|e]; [|apply H0; congruence].
  pose proof (store_key_name _ _ _ _ _ _ Hr2) as Hkey. cbn in Hkey.
  apply post_bind, post_attempt. eapply post_mono; [apply silent_environment|]. intros [[]|e] w3 H3.
  2: { eapply post_mono; [apply silent_undo|]. intros r w4 H4. apply H0. congruence. }
  apply post_bind, post_attempt. eapply post_mono; [apply upsert_sends|]. intros r w4 (x & ms & -> & Hms).
  assert (Q (add_sent ms w3)) as H4.
  { exists ms. cbn. split; [congruence|]. right. by exists p, key, x. }
  destruct r as [catalog|e]; [by apply post_give|]. eapply post_mono; [apply silent_undo|]. intros r w5 H5. by apply (Hmove _ _ H5).
Qed.
End properties.

(** A key that cannot be opened, such as one of an earlier master key, can be neither replaced
    nor deleted: the first step of a change is to read it. *)
Lemma unreadable_key_is_stuck `{P : SecretPrimitives} (cipher : SecretCipher) parse_url decode_catalog runtime_key actor id c p e w r w' :
  profile_of runtime_key w actor = Some p → current_key cipher p id w = Err e →
  match c with Upserts q => credentials q ≠ Preserve | Deletes => True end →
  may (change_provider cipher parse_url decode_catalog runtime_key actor id c w) (r, w') → w' = w ∧ is_ok r = false.
Proof.
  intros Hp He Hc. revert r w'. change (post (change_provider cipher parse_url decode_catalog runtime_key actor id c) w (fun r w' => w' = w ∧ is_ok r = false)).
  assert (∀ A (next : option str → Act AuthorizedProviderError A),
    post (act_bind (stored_key cipher p id) next) w (fun r w' => w' = w ∧ is_ok r = false)) as Hs.
  { intros A next. apply post_bind. eapply post_mono; [apply stored_key_post|]. intros [v|e'] w1 [-> H]; [congruence|done]. }
  destruct c as [q|]; apply post_bind; (eapply post_mono; [apply authorize_post|]); intros [p'|e'] w1 [-> Hp']; try done;
    rewrite Hp in Hp'; injection Hp' as <-; [|apply Hs].
  destruct (credentials q); [done|apply Hs..].
Qed.

(** ** Examples *)

(** Outcomes with given answers; [n] counts the questions. *)
Fixpoint play {A} (answer : nat → ∀ X, Ask X → X) (n : nat) (p : Steps A) : A :=
  match p with
  | Done a => a
  | Asks q k => play answer (S n) (k (answer n _ q))
  end.

Lemma play_may {A} answer n (p : Steps A) a : play answer n p = a → may p a.
Proof. revert n. induction p as [b|X q k IH]; intros n; cbn; [done|]. intros H. exists (answer n X q). by eapply IH. Qed.

Module SampleSecrets.
(** A cipher that writes the context next to the text. *)
#[local] Instance primitives : SecretPrimitives := {|
  LessSafeKey := unit;
  unbound_key _ := Some tt;
  seal_in_place _ _ context text := Some (N.of_nat (length context) :: context ++ text);
  open_in_place _ _ context sealed :=
    match sealed with
    | n :: rest => if bool_decide (take (N.to_nat n) rest = context) then Some (drop (N.to_nat n) rest) else None
    | [] => None
    end;
  sha256 bytes := bytes;
  base64_decode _ := None;
  show_uuid id := repeat 97%N (N.to_nat id)
|}.

Lemma laws : SecretLaws primitives.
Proof.
  split; cbn.
  - intros _ _ context text sealed [= <-]. rewrite Nat2N.id, take_app_length, bool_decide_true, drop_app_length by done. done.
  - intros _ _ context context' text sealed [= <-] Hne. by rewrite Nat2N.id, take_app_length, bool_decide_false by congruence.
  - intros a b H%(f_equal length). rewrite !repeat_length in H. lia.
  - intros id. apply Forall_forall. intros c Hc%list_elem_of_In%repeat_spec. right. left. subst. lia.
Qed.

Definition cipher : SecretCipher := mkCipher tt (lit "v1").
Definition url (s : str) : option Url := Some (mkUrl (lit "https") None None [] None None None []).
Definition decode (_ : Json) : result ProviderCatalog str := Ok (mkCatalog [] (lit "openai") None).
Definition actor : ProviderActor := mkProviderActor 3 2.
Definition profile : AuthorizedProfile := mkAuthorizedProfile 1 2.
Definition key : str := match provider_environment_key 1 (lit "deepseek") with Ok key => key | Err _ => [] end.
Definition request : UpsertProviderRequest := mkUpsert (lit "DeepSeek") (lit "https://api.deepseek.com/") (lit "chat") (Direct (lit "sk-1")) true.
Definition world : World :=
  mkWorld ∅ ∅ {[lit "main" := mkManaged ∅ true]} [mkProfileRow 1 2 3 (lit "main") true] [(2, 3)%N] [].
(** All goes well but for the requests to the runtime from number [down] on and the restarts from number [stuck] on. *)
Definition answer (down stuck : nat) (n : nat) (X : Type) (q : Ask X) : X :=
  match q in Ask X return X with
  | DbFails => false
  | FillRandom n => Some (repeat 0%N n)
  | Now => 0%Z
  | AskRuntime _ _ => if down <=? n then Err (lit "down") else Ok JNull
  | SpawnHost _ | ScheduleHost _ | ShutdownHost => None
  | RestartHost _ => if stuck <=? n then Some (lit "busy") else None
  end.
Definition outcome (down stuck : nat) : result ProviderCatalog AuthorizedProviderError * World :=
  play (answer down stuck) 0 (upsert cipher url decode (lit "main") actor (lit "deepseek") request world).
End SampleSecrets.

Lemma secrets_open_only_for_their_owner_witness :
  let seal_it := @seal SampleSecrets.primitives SampleSecrets.cipher in
  let context := @context_of SampleSecrets.primitives in
  let '(r, _) := play (SampleSecrets.answer 9 9) 0 (seal_it (context (OfProvider 2 1 (lit "deepseek"))) (lit "sk-1") SampleSecrets.world) in
  match r with
  | Ok e => @open_secret SampleSecrets.primitives SampleSecrets.cipher (context (OfProvider 2 1 (lit "deepseek"))) e = Ok (lit "sk-1") ∧
            @open_secret SampleSecrets.primitives SampleSecrets.cipher (context (OfProvider 2 5 (lit "deepseek"))) e = Err DecryptFailed
  | Err _ => False
  end.
Proof.
  intros seal_it context. destruct (play _ 0 _) as [[e|] w'] eqn:E; [|by vm_compute in E].
  pose proof SampleSecrets.laws as HL.
  split; [apply (secrets_open_only_for_their_owner SampleSecrets.cipher (OfProvider 2 1 (lit "deepseek")) (OfProvider 2 1 (lit "deepseek")) (lit "sk-1") SampleSecrets.world e w')
         |apply (secrets_open_only_for_their_owner SampleSecrets.cipher (OfProvider 2 1 (lit "deepseek")) (OfProvider 2 5 (lit "deepseek")) (lit "sk-1") SampleSecrets.world e w')].
  all: try reflexivity; try discriminate; try (unfold scalars; apply (bool_decide_unpack _); vm_compute; exact I).
  all: by eapply play_may.
Defined.

(** The runtime does not answer, and the key is taken back. *)
Lemma failed_change_is_undone_witness :
  let '(r, w') := SampleSecrets.outcome 5 9 in
  is_ok r = false ∧
  settled (P := SampleSecrets.primitives) SampleSecrets.cipher (lit "main") SampleSecrets.profile (lit "deepseek") SampleSecrets.key
    (Some (lit "sk-1")) SampleSecrets.world r w'.
Proof.
  destruct (SampleSecrets.outcome 5 9) as [r w'] eqn:E. split; [by vm_compute in E; injection E as <- _|].
  eapply (@failed_change_is_undone SampleSecrets.primitives SampleSecrets.laws SampleSecrets.cipher SampleSecrets.url SampleSecrets.decode
    (lit "main") SampleSecrets.actor (lit "deepseek") (Upserts SampleSecrets.request)).
  - unfold scalars. apply (bool_decide_unpack _). vm_compute. exact I.
  - by vm_compute.
  - by vm_compute.
  - by vm_compute.
  - by eapply play_may.
Defined.

Lemma keys_stay_out_of_config_witness :
  let '(r, w') := SampleSecrets.outcome 9 9 in
  is_ok r = true ∧ ∃ ms, sent w' = ms ∧ length ms = 3 ∧
    ∃ p key exists_, profile_of (lit "main") SampleSecrets.world SampleSecrets.actor = Some p ∧
      @provider_environment_key SampleSecrets.primitives (authorized_id p) (lit "deepseek") = Ok key ∧
      ms `prefix_of` upsert_messages (lit "deepseek") (with_credentials (Environment key) SampleSecrets.request) exists_.
Proof.
  destruct (SampleSecrets.outcome 9 9) as [r w'] eqn:E. assert (is_ok r = true ∧ length (sent w') = 3) as [Hr Hl] by (vm_compute in E; by injection E as <- <-).
  split; [done|].
  destruct (@keys_stay_out_of_config SampleSecrets.primitives SampleSecrets.cipher SampleSecrets.url SampleSecrets.decode (lit "main")
    SampleSecrets.actor (lit "deepseek") SampleSecrets.request (lit "sk-1") SampleSecrets.world r w' eq_refl
    ltac:(by eapply play_may)) as (ms & Hms & Hd).
  cbn [SampleSecrets.world sent app] in Hms. exists ms. rewrite <- Hms. split_and!; [done|done|].
  destruct Hd as [->|Hd]; [|by rewrite Hms]. by rewrite Hms in Hl.
Defined.

(** The configuration is written, but the answer that lists the providers is lost: the key is
    taken back although the provider is configured with it. *)
Example configured_without_its_key :
  let '(r, w') := SampleSecrets.outcome 7 99 in
  is_ok r = false ∧ length (sent w') = 3 ∧ profile_secrets w' !! (1%N, lit "deepseek") = None ∧
  environment_at (lit "main") w' SampleSecrets.key = None.
Proof. by vm_compute. Qed.

(** A restart that fails while the key is taken back leaves it in the environment although it
    is no longer stored. *)
Example restoring_fails_halfway :
  let '(r, w') := SampleSecrets.outcome 5 7 in
  is_ok r = false ∧ profile_secrets w' !! (1%N, lit "deepseek") = None ∧
  environment_at (lit "main") w' SampleSecrets.key = Some (lit "sk-1").
Proof. by vm_compute. Qed.
